(* ===== verification/_CoqProject ===== *)
-Q . S2P
Prelude.v
Text.v
Options.v
Graph.v
GraphCommon.v
Bfs.v
PathPrint.v
Dfs.v
GraphApps.v
Word.v
Absorb.v
BlockHasher.v
Sha256.v
Sha1.v
Md5.v
Crc32.v
Keccak.v
Digest.v
HashClass.v
Hmac.v
HashTests.v
Security.v
Comm.v
Controllers.v
Connection.v
Session.v
Dialogue.v
Storage.v
Redis.v
Yaml.v
Utilities.v
Zeromq.v
Experiments.v
Events.v
Server.v
Dispatch.v
World.v
Provenance.v
Shutdown.v
Closing.v
Life.v
LifeHeap.v
UnitTests.v
