(* ===== verification/Prelude.v ===== *)
(** * Primordia MUD: a verification development

    A shallow embedding, with proofs, of the C++ code of the repository
    NickCody/pmud: a multi-user-dungeon server written as actors, the
    libraries it uses (graphs, hashes, strings), its storage back ends, the
    programs around it, and a game of life in C. This file holds what all
    others use: the outcome monad, checked vectors and integers, loops, and
    lemmas on lists.

    ** The program and its parts

    [main] (src/pmud/main.cpp) reads a configuration, connects to a storage
    and starts a server actor. The server actor listens and makes, for every
    connection it accepts, a connection actor, which owns the socket, polls
    it and turns what it reads into commands. A command actor gets the
    commands and passes them to the active controller: to the log-in
    controller until the user has registered, then to the default controller.
    What the log-in controller has to record goes to the event recorder, from
    there to the storage actor, and from there to Redis.

    ** How the code is modelled

    - Fallible code is in the monad [outcome]: [Ret], [Throw] (an exception),
      [Undef] (undefined behaviour: an index out of range, a signed overflow,
      a null pointer, a read of freed memory), [NoFuel].
    - A C++ [int] is a [Z] whose operations ([int_add], [int_mul]) are [Undef]
      when they overflow; unsigned words are [Z] with the wrap-around written
      out (Word.v); a [std::vector] is a list with [vget] and [vset], which are
      [Undef] out of range; a [std::map] is a [gmap] that is listed in key
      order where the code iterates over it.
    - An actor is a function from its state and a message to the new state and
      the effects in order; mailboxes, delivery and exits are transition
      systems (Session.v, Server.v, World.v) in which every interleaving is
      possible; the main program is one more thread of World.v. The ZeroMQ
      programs of Zeromq.v are interaction trees.
    - Two things that the code does are undefined in C++ but usually go well.
      What they give is a parameter, [Undef] as C++ has it, and the theorems
      hold for each of its values: the read of a popped queue element
      ([dangling_read] in Bfs.v), and the deletion of a reply that hiredis has
      allocated ([mismatched_delete] in Utilities.v).
    - Streams are the text written; [rand] and the random device, the clock,
      files, the environment, the terminal and uninitialised memory are
      parameters.
    - What is outside of the repository is the parameter of a class, with its
      documented behaviour in a second class: sockets ([Socket], [SocketLaws],
      [Delivery] in Comm.v; [Net], [NetLaws] in Server.v), hiredis and the
      Redis server ([Hiredis], [RedisLaws] in Redis.v; [CommandLaws],
      [StreamLaws] in Utilities.v), ZeroMQ ([Zmq], [ZmqLaws] in Zeromq.v),
      CNL and Lua ([Cnl], [Lua] in Experiments.v), the addresses that [malloc]
      gives ([Malloc], [MallocLaws] in LifeHeap.v), the byte order of the host
      ([ByteOrder] in Word.v). Each law class has a concrete instance, which
      the witnesses use. yaml-cpp, spdlog and the replies of CAF are function
      arguments.

    ** The files

    Libraries:
    - Text.v: common/pmud_string.h and the conversions of numbers; Options.v:
      [getopt].
    - Graph.v (vertex.h, graph.h), GraphCommon.v (common.h), Bfs.v (BFS.h),
      Dfs.v (DFS.h), PathPrint.v (both together), GraphApps.v (the programs of
      src/pmud/graph/application).
    - Word.v, Absorb.v (the buffer that five hash classes share; class
      [Absorber]), BlockHasher.v (the padding of MD5, SHA1 and SHA256; class
      [BlockHash]), Sha256.v, Sha1.v, Md5.v, Keccak.v (keccak.cpp and
      sha3.cpp), Crc32.v, Hmac.v (for any [BlockHash]), HashTests.v
      (hash-library/tests/tests.cpp, run by the kernel), Digest.v (the program
      digest.cpp), HashClass.v (hash.h: the interface as the class [Hash] with
      its contract [HashLaws], and the six classes as its instances),
      Security.v (pmud_security.h).

    Server:
    - Comm.v (pnet/comm_static.h), Connection.v (pnet/connection_actor.h),
      Controllers.v (controllers/, event/), Session.v (the actors of one
      connection together), Dialogue.v (a session against the dialogue of one
      user), Dispatch.v (which messages an actor understands; that a session
      settles), Server.v (pnet/server_actor.h, system/, main.cpp), World.v
      (all of them, the storage and the main program, with the destructor of
      [MudSystem] and [await_all_actors_done], as one transition system),
      Provenance.v (where what the whole server stores comes from), Shutdown.v
      (that it can be brought to its end, and how it ends), Closing.v (that
      every run of a shutdown is finite).
    - Storage.v (storage.h as the class [Storage] with its contract
      [StorageLaws]; storage_actor.h; the mock storage), Redis.v
      (redis_storage.h, redis_stream_injestor.h, util.h, events.lua; an
      instance of [StorageLaws]), Yaml.v (yaml_storage.h, yaml_util.h) and
      Events.v, clients of the contract.

    Programs of their own: Utilities.v (src/util: redis-keydump,
    redis-stream-in, redis-stream-out, yaml-redis-loader, yaml-print),
    Zeromq.v (zeromq-server, zeromq-client, cli-zmq), Experiments.v (scratch,
    cppversion, lambda-main, math, lua), Life.v (src/life/life.c on boards as
    values), LifeHeap.v (the same program with its pointers: boards on a heap,
    [malloc] and [free]).

    UnitTests.v: the unit tests of the repository and the program
    github-issue2.cpp, run on the models.

    Definitions carry the names of the source; where one function of the
    source is several definitions, the parts are its loops and branches.

    ** What the theorems show

    - Hashes: each class computes the function of its standard, for every
      message and every way it is cut into calls of [add]
      ([SHA256_is_fips], [SHA1_is_fips], [MD5_is_rfc1321], [sponge_digest],
      [crc32_is_ieee], [hmac_is_rfc2104]), and an object of any class is, under
      every sequence of calls of its members, one that only remembers its
      message ([hash_object_refines]); the digest program prints these ([digest_program]); [crc32_detects_burst].
    - Credentials: [stored_credential], [salt_uniform].
    - Graphs: the operations keep a graph well formed and change its edges as
      they should ([addEdge_total], [transpose_reverses]); what a
      breadth-first search computes when its read of a popped element goes
      well, and that nothing else can go wrong ([BFS_shortest_paths]); the
      times of a depth-first search and the forest of its predecessors
      ([DFS_forest], [DFS_topological]); what
      the programs print ([printPath_shortest], [transpose_program],
      [bfs_search_program]).
    - Network: reading stays in its buffer ([read_from_user_total]), lines are
      delivered ([emit_lines_delivers]), input becomes commands
      ([commands_assembled]), polls are neither lost nor made
      ([polls_conserved]), the accept loop of the server goes on
      ([server_accept_loop]), the server closes what it opened
      ([run_closes_connections]).
    - Sessions: nobody gets past the log-in controller
      ([no_command_before_login]), the dialogue with its prompts and its echo
      ([login_dialogue]), which every interleaving of a session refines ([session_follows_dialogue]), every
      message is understood ([messages_understood]), a session comes to rest
      ([session_settles]).
    - The whole server: no step of it goes wrong ([world_safe]), registrations
      are neither lost nor invented on their way to the storage
      ([registrations_stored]), what is stored and what is handled as a
      command was typed over a socket ([served_was_typed]), and from every
      state in which the main program waits the server can be shut down, with
      every registration stored ([server_shuts_down]); once the server has
      gone and every connection left was told to end, every run ends
      ([shutdown_ends]).
    - Storage: Redis keeps the contract ([redis_refines_storage]), the actor
      serves it ([storage_actor_serves]), replies are decoded
      ([stream_responses_decode]), loading YAML ([yaml_load_idempotent],
      [yaml_sections_stored]), a registration is stored once, and only when it
      is complete ([registration_recorded]), what is loaded can be dumped
      ([load_then_dump]), streams are read to their end
      ([stream_out_follows]).
    - Text: [replace_all_spec]. Life: the rule ([life_step]), the game
      ([play_evolves]), board files ([read_file_lines]); with its pointers the
      program does the same, on boards of any size, and returns all it
      allocated but one buffer, unless [malloc] refuses, which it does not
      check ([play_refines]). ZeroMQ: client and
      server alternate and both end ([exchange_lockstep]), [cli_sends_words].
      Lua: a line is run in pieces of its buffer ([lua_runs_pieces]).

    ** Fuel and bounds

    Fuel stands for loops and recursions that are not structural, and a
    theorem shows each time that it is enough: the number of vertices for
    the queue of a breadth-first search and for the recursions of [DFS_Visit]
    and of [_printPath], the length of the input for
    the loops over blocks, pieces of a file and lines of a file, the length of
    the text for [replace_all], the size of the buffer for [lite_sanitize].
    [wait_for_signal] has [NoFuel] as its meaning: still waiting. The loop of
    a game of life is structural in the iterations left; a client and a
    server of ZeroMQ are done within 120 steps. [int] has 32 bits, [size_t] 64.
    The hash classes are proved for either byte order of the host; the host of
    the server (Security.v) is little-endian.

    ** What is not modelled

    Log lines and times; the internals of CAF (with what it does after
    [caf_main]), yaml-cpp, spdlog, fmt, hiredis (which conversions a percent
    sign in a command text starts included),
    ncurses, ZeroMQ, Lua and CNL; player.h (a stub that does not compile and
    that nothing includes); the tests that exercise CAF alone or a listening
    server, and the rows of the table of the hash tests that reach no branch
    of their own.

    Fairness of the scheduler: before the main program has told every
    connection to end the actors can go on as long as their clients do, and
    no theorem says that the main program gets its turn; after that
    [shutdown_ends] needs no fairness. A connection accepted while the main
    program tells the others is never told (Example
    [Shutdown.late_connection]), so that the hypothesis of [shutdown_ends]
    cannot be dropped. *)
From stdpp Require Export base numbers list strings option gmap sets pretty.
From Stdlib Require Export ZArith Lia.

#[global] Open Scope Z_scope.
#[global] Set Default Goal Selector "!".

(** ** Outcomes of C++ code

    [Ret] is a normal return, [Throw] a C++ exception with the text of its
    [what()], [Undef] undefined behaviour (an out-of-range [operator[]], a
    signed overflow, a dangling reference), and [NoFuel] says that the fuel
    of a loop or of a recursion ran out: every use of fuel comes with a
    theorem that the fuel given is enough. *)
Inductive outcome (A : Type) : Type :=
  | Ret (a : A)
  | Throw (what : string)
  | Undef
  | NoFuel.
Arguments Ret {A} _.
Arguments Throw {A} _.
Arguments Undef {A}.
Arguments NoFuel {A}.

#[export] Instance outcome_eq_dec {A} `{EqDecision A} : EqDecision (outcome A).
Proof. solve_decision. Defined.

#[export] Instance outcome_ret : MRet outcome := fun A => @Ret A.
#[export] Instance outcome_bind : MBind outcome := fun A B k m =>
  match m with
  | Ret a => k a
  | Throw w => Throw w
  | Undef => Undef
  | NoFuel => NoFuel
  end.

(** [from_option_ub o]: the value of a lookup, undefined when it has none. *)
Definition from_option_ub {A} (o : option A) : outcome A :=
  match o with Some a => Ret a | None => Undef end.

(** [m] terminates normally with a result satisfying [P]. *)
Definition returns {A} (m : outcome A) (P : A → Prop) : Prop :=
  ∃ a, m = Ret a ∧ P a.

Section outcome_lemmas.
Context {A B : Type}.

Lemma bind_Ret (a : A) (k : A → outcome B) : (Ret a ≫= k) = k a.
Proof. reflexivity. Qed.

Lemma bind_Ret_inv (m : outcome A) (k : A → outcome B) b :
  m ≫= k = Ret b → ∃ a, m = Ret a ∧ k a = Ret b.
Proof. destruct m; cbn; intros; simplify_eq; eauto. Qed.

Lemma returns_Ret (a : A) (P : A → Prop) : P a → returns (Ret a) P.
Proof. by exists a. Qed.

Lemma returns_bind (m : outcome A) (k : A → outcome B) P Q :
  returns m P → (∀ a, P a → returns (k a) Q) → returns (m ≫= k) Q.
Proof. intros (a & -> & Ha) Hk. cbn. by apply Hk. Qed.

Lemma returns_mono (m : outcome A) (P Q : A → Prop) :
  returns m P → (∀ a, P a → Q a) → returns m Q.
Proof. intros (a & -> & Ha) HPQ. exists a. auto. Qed.
End outcome_lemmas.

(** Break every bind that is known to return. *)
Ltac outcome_inv :=
  repeat match goal with
  | H : mbind _ _ = Ret _ |- _ =>
      let a := fresh "a" in let Ha := fresh "Ha" in
      apply bind_Ret_inv in H as (a & Ha & H)
  | H : Ret _ = Ret _ |- _ => injection H as H; subst
  | H : Throw _ = Ret _ |- _ => discriminate H
  | H : Undef = Ret _ |- _ => discriminate H
  | H : NoFuel = Ret _ |- _ => discriminate H
  end.

(** ** Loops over a range or a container *)
Fixpoint foldM {S A} (body : S → A → outcome S) (s : S) (l : list A) : outcome S :=
  match l with
  | [] => Ret s
  | x :: l' => s' ← body s x; foldM body s' l'
  end.

(** [for (int i = lo; i < hi; i++)] *)
Definition for_range {S} (lo hi : Z) (body : S → Z → outcome S) (s : S) : outcome S :=
  foldM body s (seqZ lo (hi - lo)).

Section foldM_lemmas.
Context {S A : Type} (body : S → A → outcome S).

Lemma foldM_app s l1 l2 :
  foldM body s (l1 ++ l2) = (s' ← foldM body s l1; foldM body s' l2).
Proof.
  revert s. induction l1 as [|x l1 IH]; intros s; cbn; [done|].
  destruct (body s x); cbn; auto.
Qed.

(** The loop rule: an invariant indexed by the elements done so far. *)
Lemma foldM_inv (I : list A → S → Prop) l s :
  I [] s →
  (∀ pre x post s, l = pre ++ x :: post → I pre s →
     returns (body s x) (I (pre ++ [x]))) →
  returns (foldM body s l) (I l).
Proof.
  intros H0 Hstep.
  enough (∀ post pre s, l = pre ++ post → I pre s →
            returns (foldM body s post) (I l)) as H by exact (H l [] s eq_refl H0).
  induction post as [|x post IH]; intros pre s' Hl Hs'; cbn.
  - rewrite app_nil_r in Hl. subst. by apply returns_Ret.
  - eapply returns_bind; [by eapply Hstep|].
    intros s2 Hs2. apply (IH (pre ++ [x])); [|done].
    by rewrite <-app_assoc.
Qed.
End foldM_lemmas.

(** ** Simulation: one computation does what another does

    [x] returns when [y] does, with related results, and fails as [y] fails. *)
Definition simulates {A B} (R : A → B → Prop) (x : outcome A) (y : outcome B) : Prop :=
  match y with
  | Ret b => returns x (λ a, R a b)
  | Throw w => x = Throw w
  | Undef => x = Undef
  | NoFuel => x = NoFuel
  end.

Section simulation.
Context {A B : Type}.
Implicit Types (R : A → B → Prop).

Lemma simulates_Ret R a b : R a b → simulates R (Ret a) (Ret b).
Proof. intros H. by exists a. Qed.

Lemma simulates_mono R (R' : A → B → Prop) x y : simulates R x y → (∀ a b, R a b → R' a b) → simulates R' x y.
Proof. destruct y; cbn; try done. intros H Hm. eapply returns_mono; eauto. Qed.

Lemma simulates_bind {A' B'} R (Q : A' → B' → Prop) x y k k' :
  simulates R x y → (∀ a b, R a b → simulates Q (k a) (k' b)) → simulates Q (x ≫= k) (y ≫= k').
Proof. intros H Hk. destruct y as [b| | |]; cbn in H; [|by subst x..]. destruct H as (a & -> & H). by apply Hk. Qed.

Lemma simulates_returns R x y (P : B → Prop) : simulates R x y → returns y P → returns x (λ a, ∃ b, R a b ∧ P b).
Proof. intros H (b & -> & Hb). eapply returns_mono; [exact H|]. intros a Ha. by exists b. Qed.

Lemma simulates_foldM {C} R (f : A → C → outcome A) (g : B → C → outcome B) l : ∀ a b,
  R a b → (∀ x a b, x ∈ l → R a b → simulates R (f a x) (g b x)) → simulates R (foldM f a l) (foldM g b l).
Proof.
  induction l as [|x l IH]; intros a0 b0 H0 Hstep; cbn; [by apply simulates_Ret|].
  eapply simulates_bind; [apply Hstep; [left|done]|]. intros a' b' H. apply IH; [done|]. intros y ? ? Hy. apply Hstep. by right.
Qed.

Lemma simulates_for_range R lo hi (f : A → Z → outcome A) (g : B → Z → outcome B) a b :
  R a b → (∀ i a b, lo ≤ i < hi → R a b → simulates R (f a i) (g b i)) →
  simulates R (for_range lo hi f a) (for_range lo hi g b).
Proof. intros H Hstep. apply simulates_foldM; [done|]. intros i ? ? Hi%elem_of_seqZ. apply Hstep. lia. Qed.
End simulation.

(** Nested loops, loops over an image and loops that skip elements are loops
    over one list. *)
Lemma foldM_bind {S A B} (body : S → B → outcome S) (h : A → list B) s l :
  foldM (λ s x, foldM body s (h x)) s l = foldM body s (l ≫= h).
Proof.
  revert s. induction l as [|x l IH]; intros s; [done|].
  change ((x :: l) ≫= h) with (h x ++ (l ≫= h)). rewrite foldM_app. cbn.
  destruct (foldM body s (h x)); cbn; auto.
Qed.

Lemma foldM_fmap {S A B} (body : S → B → outcome S) (h : A → B) s l :
  foldM (λ s x, body s (h x)) s l = foldM body s (h <$> l).
Proof.
  revert s. induction l as [|x l IH]; intros s; cbn; [done|].
  destruct (body s (h x)); cbn; auto.
Qed.

Lemma foldM_filter {S A} (body : S → A → outcome S) (P : A → Prop) `{!∀ x, Decision (P x)} s l :
  foldM (λ s x, if decide (P x) then body s x else Ret s) s l = foldM body s (filter P l).
Proof.
  revert s. induction l as [|x l IH]; intros s; [done|].
  rewrite filter_cons. cbn. case_decide; cbn; [|apply IH].
  destruct (body s x); cbn; auto.
Qed.

Lemma filter_none {A} (P : A → Prop) `{!∀ x, Decision (P x)} l : Forall (λ x, ¬ P x) l → filter P l = [].
Proof. induction 1; [done|]. by rewrite filter_cons_False. Qed.

Lemma filter_all {A} (P : A → Prop) `{!∀ x, Decision (P x)} l : Forall P l → filter P l = l.
Proof. induction 1 as [|x l Hx _ IH]; [done|]. by rewrite filter_cons_True, IH. Qed.

Lemma foldl_ext_in {S A} (f g : S → A → S) s l :
  (∀ s x, x ∈ l → f s x = g s x) → foldl f s l = foldl g s l.
Proof.
  revert s. induction l as [|x l IH]; intros s Hfg; cbn; [done|].
  rewrite Hfg by set_solver. apply IH. intros. apply Hfg. set_solver.
Qed.

Lemma foldM_ext_in {S A} (f g : S → A → outcome S) s l :
  (∀ s x, x ∈ l → f s x = g s x) → foldM f s l = foldM g s l.
Proof.
  revert s. induction l as [|x l IH]; intros s Hfg; cbn; [done|].
  rewrite Hfg by set_solver. destruct (g s x); cbn; [|done..]. apply IH. intros. apply Hfg. set_solver.
Qed.

Lemma foldM_ext {S A} (f g : S → A → outcome S) s l :
  (∀ s x, f s x = g s x) → foldM f s l = foldM g s l.
Proof. intros Hfg. apply foldM_ext_in. auto. Qed.

(** A loop body that never fails computes a left fold. *)
Lemma foldM_pure {S A} (body : S → A → outcome S) (f : S → A → S) s l :
  (∀ s x, body s x = Ret (f s x)) → foldM body s l = Ret (foldl f s l).
Proof.
  intros Hb. revert s. induction l as [|x l IH]; intros s; cbn; [done|].
  rewrite Hb. cbn. apply IH.
Qed.

(** ** [std::vector] with an [int] index: out of range is undefined *)
Definition vget {A} (l : list A) (i : Z) : outcome A :=
  if decide (0 ≤ i) then from_option_ub (l !! Z.to_nat i) else Undef.

Definition vset {A} (l : list A) (i : Z) (x : A) : outcome (list A) :=
  if decide (0 ≤ i < Z.of_nat (length l)) then Ret (<[Z.to_nat i := x]> l) else Undef.

(** [std::vector<T> v(n)]: [n] copies of [x]; a negative [int] converts to a
    [size_t] above [max_size()] and the constructor throws. *)
Definition vnew {A} (n : Z) (x : A) : outcome (list A) :=
  if decide (n < 0) then Throw "cannot create std::vector larger than max_size()"
  else Ret (replicate (Z.to_nat n) x).

Section vector_lemmas.
Context {A : Type}.
Implicit Types (l : list A) (i j : Z) (x : A).

Lemma vget_Ret l i x : vget l i = Ret x ↔ 0 ≤ i ∧ l !! Z.to_nat i = Some x.
Proof.
  unfold vget. case_decide; [|naive_solver].
  destruct (l !! Z.to_nat i); cbn; naive_solver.
Qed.

Lemma vget_range l i x : vget l i = Ret x → 0 ≤ i < Z.of_nat (length l).
Proof. intros [? ?%lookup_lt_Some]%vget_Ret. lia. Qed.

Lemma vget_is_Ret l i : 0 ≤ i < Z.of_nat (length l) → ∃ x, vget l i = Ret x.
Proof.
  intros Hi. destruct (lookup_lt_is_Some_2 l (Z.to_nat i)) as [x Hx]; [lia|].
  exists x. apply vget_Ret. split; [lia|done].
Qed.

Lemma vget_out l i : ¬ (0 ≤ i < Z.of_nat (length l)) → vget l i = Undef.
Proof.
  intros Hi. unfold vget. case_decide; [|done].
  rewrite lookup_ge_None_2; [done|lia].
Qed.

Lemma vset_Ret l i x l' :
  vset l i x = Ret l' ↔
  0 ≤ i < Z.of_nat (length l) ∧ l' = <[Z.to_nat i := x]> l.
Proof. unfold vset. case_decide; naive_solver. Qed.

Lemma vset_length l i x l' : vset l i x = Ret l' → length l' = length l.
Proof. intros [_ ->]%vset_Ret. apply length_insert. Qed.

Lemma vset_is_Ret l i x : 0 ≤ i < Z.of_nat (length l) →
  vset l i x = Ret (<[Z.to_nat i := x]> l).
Proof. intros. apply vset_Ret. done. Qed.

Lemma vget_vset l i x l' j :
  vset l i x = Ret l' → vget l' j = if decide (i = j) then Ret x else vget l j.
Proof.
  intros [Hi ->]%vset_Ret. unfold vget.
  repeat case_decide; subst; try lia; try done.
  - rewrite list_lookup_insert_eq; [done|lia].
  - rewrite list_lookup_insert_ne; [done|lia].
Qed.

Lemma vget_vset_eq l i x l' : vset l i x = Ret l' → vget l' i = Ret x.
Proof. intros H. rewrite (vget_vset _ _ _ _ _ H). by case_decide. Qed.

Lemma vget_vset_ne l i x l' j : i ≠ j → vset l i x = Ret l' → vget l' j = vget l j.
Proof. intros ? H. rewrite (vget_vset _ _ _ _ _ H). by case_decide. Qed.

Lemma vget_replicate n x i : 0 ≤ i < n → vget (replicate (Z.to_nat n) x) i = Ret x.
Proof.
  intros. apply vget_Ret. split; [lia|]. apply lookup_replicate_2. lia.
Qed.

Lemma vget_fmap {B} (f : A → B) l i :
  vget (f <$> l) i = (x ← vget l i; Ret (f x)).
Proof.
  unfold vget. case_decide; [|done]. rewrite list_lookup_fmap.
  by destruct (l !! Z.to_nat i).
Qed.

Lemma vget_middle l1 x l2 : vget (l1 ++ x :: l2) (Z.of_nat (length l1)) = Ret x.
Proof. apply vget_Ret. rewrite Nat2Z.id. split; [lia|by apply list_lookup_middle]. Qed.

Lemma vset_middle l1 x y l2 : vset (l1 ++ x :: l2) (Z.of_nat (length l1)) y = Ret (l1 ++ y :: l2).
Proof.
  rewrite vset_is_Ret by (rewrite length_app; cbn; lia). rewrite Nat2Z.id, insert_app_r_alt by done.
  by rewrite Nat.sub_diag.
Qed.

Lemma vec_ext l1 l2 :
  length l1 = length l2 →
  (∀ i, 0 ≤ i < Z.of_nat (length l1) → vget l1 i = vget l2 i) → l1 = l2.
Proof.
  intros Hlen Heq. apply list_eq. intros n.
  destruct (decide (n < length l1)%nat) as [Hn|Hn].
  - specialize (Heq (Z.of_nat n)). unfold vget in Heq.
    rewrite !decide_True, Nat2Z.id in Heq by lia.
    specialize (Heq ltac:(lia)).
    destruct (l1 !! n), (l2 !! n); cbn in Heq; auto with congruence;
      discriminate Heq || (injection Heq as ->; done); lia.
  - rewrite !lookup_ge_None_2; [done|lia|lia].
Qed.
End vector_lemmas.

(** ** Machine [int] *)
Definition INT_MAX : Z := 2147483647.
Definition INT_MIN : Z := -2147483648.

(** Signed arithmetic: overflow is undefined. *)
Definition int_add (a b : Z) : outcome Z :=
  if decide (INT_MIN ≤ a + b ≤ INT_MAX) then Ret (a + b) else Undef.

Definition int_mul (a b : Z) : outcome Z :=
  if decide (INT_MIN ≤ a * b ≤ INT_MAX) then Ret (a * b) else Undef.

Lemma int_mul_Ret a b : INT_MIN ≤ a * b ≤ INT_MAX → int_mul a b = Ret (a * b).
Proof. intros. unfold int_mul. by rewrite decide_True. Qed.

Lemma int_add_Ret a b : INT_MIN ≤ a + b ≤ INT_MAX → int_add a b = Ret (a + b).
Proof. intros. unfold int_add. by rewrite decide_True. Qed.

Create HintDb pmud discriminated.
#[export] Hint Resolve returns_Ret vget_is_Ret : pmud.

(** ** Total lookups and counting, for stating invariants of vectors *)
Definition vgetd {A} (dft : A) (l : list A) (i : Z) : A :=
  match vget l i with Ret x => x | _ => dft end.

Lemma vget_vgetd {A} (dft : A) l i :
  0 ≤ i < Z.of_nat (length l) → vget l i = Ret (vgetd dft l i).
Proof. intros Hi. destruct (vget_is_Ret l i Hi) as [x Hx]. unfold vgetd. by rewrite Hx. Qed.

Lemma vgetd_vset {A} (dft : A) l i x l' j :
  vset l i x = Ret l' → vgetd dft l' j = if decide (i = j) then x else vgetd dft l j.
Proof. intros H. unfold vgetd. rewrite (vget_vset _ _ _ _ _ H). by case_decide. Qed.

Lemma vgetd_Ret {A} (dft : A) l i x : vget l i = Ret x → vgetd dft l i = x.
Proof. intros H. unfold vgetd. by rewrite H. Qed.

Section count_eq.
Context {A : Type} `{!EqDecision A}.

(** How many elements of [l] are [x]. *)
Definition count_eq (x : A) (l : list A) : nat := length (filter (λ y, y = x) l).

Lemma count_eq_length x l : (count_eq x l ≤ length l)%nat.
Proof. apply length_filter. Qed.

Lemma count_eq_replicate_ne x y n : x ≠ y → count_eq x (replicate n y) = 0%nat.
Proof.
  intros Hne. induction n as [|n IH]; [done|]. unfold count_eq in *.
  change (replicate (S n) y) with (y :: replicate n y). rewrite filter_cons_False; done.
Qed.

Lemma count_eq_insert x y l (i : nat) :
  l !! i = Some x → x ≠ y → count_eq x l = S (count_eq x (<[i := y]> l)).
Proof.
  unfold count_eq. revert i. induction l as [|z l IH]; intros [|i] Hi Hne; try done.
  - injection Hi as ->. change (<[0%nat:=y]> (x :: l)) with (y :: l).
    rewrite filter_cons_True, filter_cons_False; done.
  - change (<[S i:=y]> (z :: l)) with (z :: <[i:=y]> l).
    rewrite !filter_cons. case_decide; cbn; by rewrite (IH i).
Qed.

Lemma count_eq_insert_other x y z l (i : nat) :
  l !! i = Some z → x ≠ y → x ≠ z → count_eq x (<[i := y]> l) = count_eq x l.
Proof.
  unfold count_eq. revert i. induction l as [|w l IH]; intros [|i] Hi Hne Hne'; try done.
  - injection Hi as ->. change (<[0%nat:=y]> (z :: l)) with (y :: l).
    rewrite !filter_cons_False; done.
  - change (<[S i:=y]> (w :: l)) with (w :: <[i:=y]> l).
    rewrite !filter_cons. case_decide; cbn; by rewrite (IH i).
Qed.

Lemma count_eq_vset x y l i l' :
  vget l i = Ret x → x ≠ y → vset l i y = Ret l' → count_eq x l = S (count_eq x l').
Proof. intros [_ Hi]%vget_Ret Hne [_ ->]%vset_Ret. by apply count_eq_insert. Qed.

Lemma count_eq_vset_other x y z l i l' :
  vget l i = Ret z → x ≠ y → x ≠ z → vset l i y = Ret l' → count_eq x l' = count_eq x l.
Proof. intros [_ Hi]%vget_Ret Hy Hz [_ ->]%vset_Ret. by eapply count_eq_insert_other. Qed.

Lemma count_eq_elem x l : x ∈ l → (0 < count_eq x l)%nat.
Proof.
  intros Hx. unfold count_eq.
  assert (x ∈ filter (λ y, y = x) l) as H by (apply list_elem_of_filter; done).
  destruct (filter _ l); [set_solver|cbn; lia].
Qed.
End count_eq.

(** ** Measures that are lists of numbers, compared from the left *)
Fixpoint lex (l l' : list nat) : Prop :=
  match l, l' with
  | x :: l, y :: l' => (x < y)%nat ∨ ((x ≤ y)%nat ∧ lex l l')
  | _, _ => False
  end.

Lemma lex_accessible n : ∀ l, length l = n → Acc (λ a b, length a = length b ∧ lex a b) l.
Proof.
  induction n as [|n IH]; intros [|y l] Hl; [constructor; intros [] [Hk Hlt]; destruct Hlt|discriminate Hl|discriminate Hl|].
  revert l Hl. induction y as [y IHy] using lt_wf_ind. intros l Hl. injection Hl as Hl.
  induction (IH l Hl) as [l _ IHl]. constructor. intros [|x k] [Hk H]; [destruct H|]. cbn in Hk, H. injection Hk as Hk.
  assert (x < y ∨ x = y ∧ lex k l)%nat as [Hx|[-> Hkl]].
  { destruct H as [H|[H Hkl]]; [by left|]. destruct (decide (x = y)); [by right|left; lia]. }
  - apply IHy; [exact Hx|]. cbn. congruence.
  - apply IHl; [by split|]. congruence.
Qed.

(** A relation that makes such a measure smaller has no infinite chain. *)
Lemma lex_descends {A} (R : A → A → Prop) (I : A → Prop) (f : A → list nat) n a :
  (∀ a, length (f a) = n) → (∀ a b, I a → R a b → I b ∧ lex (f b) (f a)) → I a → sn R a.
Proof.
  intros Hn HR. pose proof (lex_accessible n (f a) (Hn a)) as Hacc. remember (f a) as l eqn:E. revert a E.
  induction Hacc as [l _ IH]. intros a -> Ha. constructor. intros b Hab. destruct (HR a b Ha Hab) as [Hb Hlt].
  apply (IH (f b)); [|done|done]. split; [by rewrite !Hn|done].
Qed.

Lemma sum_list_with_insert {A} (f : A → nat) (l : list A) i x y :
  l !! i = Some x → (sum_list_with f (<[i := y]> l) + f x = sum_list_with f l + f y)%nat.
Proof.
  intros Hi. rewrite insert_take_drop by by eapply lookup_lt_Some. rewrite <-(take_drop_middle l i x Hi) at 3.
  rewrite !sum_list_with_app. cbn. lia.
Qed.
