(* ===== verification/Text.v ===== *)
(** * Strings (pmud/src/common/pmud_string.h)

    Lemmas on [std::string] values used by the components that print, the
    numbers at the front of a text ([atoi], and the digits [std::stoul] reads),
    and [replace_all] with its specification. *)
From S2P Require Import Prelude.
From Stdlib Require Import String.
From stdpp Require Import strings.

(** ** Lemmas on strings *)
Section strings.
Implicit Types s t u : string.

Lemma append_nil_l s : ("" +:+ s)%string = s.
Proof. reflexivity. Qed.

Lemma append_cons c s t : (String c s +:+ t = String c (s +:+ t))%string.
Proof. reflexivity. Qed.

Lemma append_nil_r s : (s +:+ "")%string = s.
Proof. induction s as [|c s IH]; [done|]. by rewrite append_cons, IH. Qed.

Lemma append_assoc s t u : (s +:+ (t +:+ u) = (s +:+ t) +:+ u)%string.
Proof. induction s as [|c s IH]; [done|]. by rewrite !append_cons, IH. Qed.

Lemma length_append s t : String.length (s +:+ t) = (String.length s + String.length t)%nat.
Proof. induction s as [|c s IH]; [done|]. rewrite append_cons. cbn. by rewrite IH. Qed.

Lemma append_inj_r s t u : (s +:+ t = s +:+ u)%string → t = u.
Proof. apply String.app_inj. Qed.

Lemma concat_app l1 l2 :
  String.concat "" (l1 ++ l2) = (String.concat "" l1 +:+ String.concat "" l2)%string.
Proof.
  induction l1 as [|s l1 IH]; [done|]. destruct l1 as [|t l1].
  - destruct l2; cbn; [by rewrite append_nil_r|done].
  - change (s +:+ String.concat "" ((t :: l1) ++ l2) =
      (s +:+ String.concat "" (t :: l1)) +:+ String.concat "" l2)%string.
    by rewrite IH, append_assoc.
Qed.

Lemma concat_cons s l : String.concat "" (s :: l) = (s +:+ String.concat "" l)%string.
Proof. apply (concat_app [s] l). Qed.

Lemma concat_snoc sep l s :
  l ≠ [] → String.concat sep (l ++ [s]) = (String.concat sep l +:+ sep +:+ s)%string.
Proof.
  induction l as [|t l IH]; [done|]. intros _. destruct l as [|u l]; [done|].
  change (t +:+ sep +:+ String.concat sep ((u :: l) ++ [s]) =
    (t +:+ sep +:+ String.concat sep (u :: l)) +:+ sep +:+ s)%string.
  rewrite IH by done. by rewrite <-!append_assoc.
Qed.
End strings.

(** ** Characters and bytes *)
Abbreviation to_list := String.list_ascii_of_string.
Abbreviation of_list := String.string_of_list_ascii.

(** The bytes of a [std::string]. *)
Definition bytes_of (s : string) : list Z := (λ c, Z.of_N (Ascii.N_of_ascii c)) <$> to_list s.

Lemma to_list_append s t : to_list (s +:+ t)%string = to_list s ++ to_list t.
Proof. induction s as [|c s IH]; [done|]. rewrite append_cons. cbn. by rewrite IH. Qed.

Lemma to_list_inj s t : to_list s = to_list t → s = t.
Proof.
  intros E. rewrite <-(String.string_of_list_ascii_of_string s), E.
  apply String.string_of_list_ascii_of_string.
Qed.

Lemma length_to_list s : length (to_list s) = String.length s.
Proof. induction s as [|c s IH]; [done|]. cbn. by rewrite IH. Qed.

Lemma bytes_of_byte s : Forall (λ b : Z, (0 ≤ b < 256)%Z) (bytes_of s).
Proof.
  apply Forall_fmap, Forall_forall. intros c _. cbn.
  pose proof (Ascii.N_ascii_bounded c). lia.
Qed.

(** ** Numbers in text *)
Definition code (c : Ascii.ascii) : Z := Z.of_nat (Ascii.nat_of_ascii c).

Fixpoint skip_space (s : string) : string :=
  match s with
  | String c s' => if decide (9 ≤ code c ≤ 13 ∨ code c = 32)%Z then skip_space s' else s
  | EmptyString => s
  end.

Fixpoint digits (acc : option Z) (s : string) : option Z :=
  match s with
  | String c s' =>
      if decide (48 ≤ code c ≤ 57)%Z then digits (Some (10 * default 0 acc + (code c - 48))%Z) s' else acc
  | EmptyString => acc
  end.

(** A sign, and what is left. *)
Definition sign (s : string) : bool * string :=
  match s with
  | String c s' => if decide (code c = 45)%Z then (true, s') else if decide (code c = 43)%Z then (false, s') else (false, s)
  | EmptyString => (false, s)
  end.

(** [atoi(text)]: 0 without a digit; undefined when the value is no [int]. *)
Definition atoi (text : string) : outcome Z :=
  let '(negative, s) := sign (skip_space text) in
  let n := default 0%Z (digits None s) in
  let n := if negative : bool then (- n)%Z else n in
  if decide (INT_MIN ≤ n ≤ INT_MAX)%Z then Ret n else Undef.

(** A newline. *)
Definition endl : string := String (Ascii.ascii_of_nat 10) EmptyString.

(** [c] does not occur in [s]. *)
Definition lacks (c : Ascii.ascii) (s : string) : Prop := c ∉ to_list s.

Lemma lacks_append c s t : lacks c (s +:+ t)%string ↔ lacks c s ∧ lacks c t.
Proof. unfold lacks. rewrite to_list_append, elem_of_app. tauto. Qed.

(** Decimal numbers. *)
Definition digit_chars : list Ascii.ascii := to_list "0123456789".
Definition decimal_chars : list Ascii.ascii := Ascii.ascii_of_nat 45 :: digit_chars.

Lemma pretty_digit_decimal x : (x < 10)%N → pretty_N_char x ∈ digit_chars.
Proof.
  intros Hx. assert (x = 0 ∨ x = 1 ∨ x = 2 ∨ x = 3 ∨ x = 4 ∨ x = 5 ∨ x = 6 ∨ x = 7 ∨ x = 8 ∨ x = 9)%N
    as Hin by lia.
  refine (bool_decide_unpack _ _). destruct_or! Hin; subst; vm_compute; exact I.
Qed.

Lemma pretty_N_go_decimal x s :
  Forall (.∈ digit_chars) (to_list s) → Forall (.∈ digit_chars) (to_list (pretty_N_go x s)).
Proof.
  revert s. induction x as [x IH] using (well_founded_ind N.lt_wf_0). intros s Hs.
  assert (x = 0 ∨ 0 < x)%N as [->|Hx] by lia; [done|].
  rewrite pretty_N_go_step by done. apply IH; [apply N.div_lt; lia|].
  constructor; [apply pretty_digit_decimal, N.mod_lt; lia|done].
Qed.

Lemma pretty_N_digits (n : N) : Forall (.∈ digit_chars) (to_list (pretty n)).
Proof.
  unfold pretty, pretty_N. case_decide.
  - refine (bool_decide_unpack _ _). vm_compute. exact I.
  - apply pretty_N_go_decimal. constructor.
Qed.

Lemma pretty_Z_nonneg (z : Z) : (0 ≤ z)%Z → pretty z = pretty (Z.to_N z).
Proof. by destruct z. Qed.

Lemma pretty_Z_decimal (z : Z) : Forall (.∈ decimal_chars) (to_list (pretty z)).
Proof.
  assert (∀ n : N, Forall (.∈ decimal_chars) (to_list (pretty n))) as HN.
  { intros n. eapply Forall_impl; [apply pretty_N_digits|]. intros c Hc. by right. }
  destruct (decide (0 ≤ z)%Z); [rewrite pretty_Z_nonneg by done; apply HN|].
  destruct z as [|p|p]; [lia|lia|].
  change (to_list (pretty (Z.neg p))) with (Ascii.ascii_of_nat 45 :: to_list (pretty (N.pos p))).
  constructor; [by left|apply HN].
Qed.

Lemma pretty_Z_lacks c (z : Z) : c ∉ decimal_chars → lacks c (pretty z).
Proof. intros Hc Hin. apply Hc. pose proof (pretty_Z_decimal z) as H. rewrite Forall_forall in H. by apply H. Qed.

(** ** Substrings *)
Fixpoint sdrop (n : nat) (s : string) : string :=
  match n, s with
  | O, _ => s
  | S n, EmptyString => EmptyString
  | S n, String _ s => sdrop n s
  end.

Fixpoint stake (n : nat) (s : string) : string :=
  match n, s with
  | O, _ => EmptyString
  | S n, EmptyString => EmptyString
  | S n, String c s => String c (stake n s)
  end.

Lemma sdrop_append s t n : sdrop (String.length s + n) (s +:+ t) = sdrop n t.
Proof. induction s as [|c s IH]; [done|]. rewrite append_cons. cbn. apply IH. Qed.

Lemma stake_append s t n : stake (String.length s + n) (s +:+ t) = (s +:+ stake n t)%string.
Proof. induction s as [|c s IH]; [done|]. rewrite !append_cons. cbn. by rewrite IH. Qed.

Lemma sdrop_length s t : sdrop (String.length s) (s +:+ t) = t.
Proof. rewrite <-(Nat.add_0_r (String.length s)). apply sdrop_append. Qed.

Lemma stake_length s t : stake (String.length s) (s +:+ t) = s.
Proof.
  rewrite <-(Nat.add_0_r (String.length s)), stake_append. apply append_nil_r.
Qed.

Lemma stake_sdrop n s : (stake n s +:+ sdrop n s)%string = s.
Proof. revert s. induction n as [|n IH]; intros [|c s]; cbn; try done.
  by rewrite append_cons, IH.
Qed.

Lemma length_stake n s : (n ≤ String.length s)%nat → String.length (stake n s) = n.
Proof. revert s. induction n as [|n IH]; intros [|c s] ?; cbn in *; try lia. rewrite IH; lia. Qed.

(** ** [std::string::find] and [std::string::replace] *)

(** The first position of [needle] in [s]. *)
Fixpoint find_first (needle s : string) : option nat :=
  if String.prefix needle s then Some O
  else match s with
       | EmptyString => None
       | String _ s => S <$> find_first needle s
       end.

(** [s.find(needle, pos)]; [None] is [npos]. *)
Definition find (s needle : string) (pos : nat) : option nat :=
  if decide (pos ≤ String.length s)%nat
  then (λ k, (pos + k)%nat) <$> find_first needle (sdrop pos s) else None.

(** [s.replace(at, len, to)] *)
Definition replace (s : string) (at_ len : nat) (to : string) : string :=
  (stake at_ s +:+ to +:+ sdrop (at_ + len) s)%string.

(** ** pmud_string.h: [replace_all] *)
Fixpoint replace_loop (fuel : nat) (replaced from to : string) (at_ : option nat) : outcome string :=
  match at_ with
  | None => Ret replaced
  | Some at_ =>
      match fuel with
      | O => NoFuel
      | S fuel =>
          let replaced := replace replaced at_ (String.length from) to in
          replace_loop fuel replaced from to (find replaced from (at_ + String.length to))
      end
  end.

Definition replace_all (fuel : nat) (text from to : string) : outcome string :=
  replace_loop fuel text from to (find text from 0).

Example replace_all_ex :
  replace_all 9 "monster_abominable_snowman" "_" ":" = Ret "monster:abominable:snowman".
Proof. reflexivity. Qed.

(** ** Specification: leftmost occurrences, left to right, none overlapping
    and none looked for in replaced text. *)
Inductive replaced_by (from to : string) : string → string → Prop :=
  | replaced_none s : find_first from s = None → replaced_by from to s s
  | replaced_one p rest rest' :
      find_first from (p +:+ from +:+ rest) = Some (String.length p) →
      replaced_by from to rest rest' →
      replaced_by from to (p +:+ from +:+ rest) (p +:+ to +:+ rest').

Lemma prefix_split needle s : String.prefix needle s = true → ∃ rest, s = (needle +:+ rest)%string.
Proof.
  revert s. induction needle as [|c needle IH]; intros s; [by exists s|].
  destruct s as [|c' s]; [done|]. cbn. destruct (Ascii.ascii_dec c c') as [->|]; [|done].
  intros [rest ->]%IH. by exists rest.
Qed.

Lemma find_first_split needle s k :
  find_first needle s = Some k →
  ∃ p rest, s = (p +:+ needle +:+ rest)%string ∧ String.length p = k.
Proof.
  revert k. induction s as [|c s IH]; intros k Hk; cbn [find_first] in Hk.
  - destruct (String.prefix needle "") eqn:E; [|done]. injection Hk as <-.
    apply prefix_split in E as [rest ->]. by exists "", rest.
  - destruct (String.prefix needle (String c s)) eqn:E.
    + injection Hk as <-. apply prefix_split in E as [rest ->]. by exists "", rest.
    + apply fmap_Some in Hk as (k' & (p & rest & -> & <-)%IH & ->).
      by exists (String c p), rest.
Qed.

Lemma find_after pre s needle :
  find (pre +:+ s) needle (String.length pre) = (λ k, (String.length pre + k)%nat) <$> find_first needle s.
Proof.
  unfold find. rewrite decide_True by (rewrite length_append; lia).
  by rewrite sdrop_length.
Qed.

Lemma replace_at pre p from rest to :
  replace (pre +:+ p +:+ from +:+ rest) (String.length pre + String.length p) (String.length from) to
  = ((pre +:+ p +:+ to) +:+ rest)%string.
Proof.
  unfold replace. rewrite <-Nat.add_assoc, !sdrop_append, stake_append.
  by rewrite stake_length, sdrop_length, <-!append_assoc.
Qed.

Lemma replace_loop_spec from to pre s fuel :
  from ≠ "" → (String.length s ≤ fuel)%nat →
  ∃ r, replace_loop fuel (pre +:+ s) from to (find (pre +:+ s) from (String.length pre))
         = Ret (pre +:+ r)%string ∧ replaced_by from to s r.
Proof.
  intros Hfrom. revert pre s. induction fuel as [|fuel IH]; intros pre s Hfuel;
    rewrite find_after; destruct (find_first from s) as [k|] eqn:Hk; cbn [fmap option_fmap option_map].
  - apply find_first_split in Hk as (p & rest & -> & _).
    rewrite !length_append in Hfuel. destruct from; cbn in Hfuel; [done|lia].
  - exists s. split; [done|by constructor].
  - pose proof Hk as (p & rest & -> & <-)%find_first_split. cbn [replace_loop].
    rewrite replace_at.
    replace (String.length pre + String.length p + String.length to)%nat
      with (String.length (pre +:+ p +:+ to)) by (rewrite !length_append; lia).
    destruct (IH (pre +:+ p +:+ to)%string rest) as (r & -> & Hr).
    { rewrite !length_append in Hfuel. destruct from; cbn in Hfuel; [done|lia]. }
    exists (p +:+ to +:+ r)%string. split; [by rewrite <-!append_assoc|]. by constructor.
  - exists s. split; [done|by constructor].
Qed.

(** [replace_all] with a non-empty pattern terminates (as many turns as
    [text] has characters are enough) and replaces exactly the leftmost
    non-overlapping occurrences, without looking into what it has inserted;
    with an empty pattern it never terminates. *)
Theorem replace_all_spec text from to :
  (from ≠ "" → ∃ r, replace_all (String.length text) text from to = Ret r ∧
                    replaced_by from to text r) ∧
  (from = "" → ∀ fuel, replace_all fuel text from to = NoFuel).
Proof.
  split.
  - intros Hfrom.
    destruct (replace_loop_spec from to "" text (String.length text) Hfrom) as (r & Hr & ?); [lia|].
    by exists r.
  - intros -> fuel. unfold replace_all.
    enough (∀ pre s, replace_loop fuel (pre +:+ s) "" to
              (find (pre +:+ s) "" (String.length pre)) = NoFuel) as H by exact (H "" text).
    induction fuel as [|fuel IH]; intros pre s; rewrite find_after;
      assert (find_first "" s = Some 0%nat) as -> by (by destruct s); [done|].
    cbn [fmap option_fmap option_map replace_loop].
    pose proof (replace_at pre "" "" s to) as Hrep. rewrite !append_nil_l in Hrep.
    cbn [String.length] in Hrep |- *. rewrite Hrep. rewrite Nat.add_0_r, <-length_append. apply IH.
Qed.

(** The specification determines the result. *)
Lemma replaced_by_unique from to s r1 r2 :
  replaced_by from to s r1 → replaced_by from to s r2 → r1 = r2.
Proof.
  intros H1. revert r2. induction H1 as [s Hs|p rest rest' Hp Hr IH]; intros r2 H2.
  - inversion H2; subst; [done|congruence].
  - remember (p +:+ from +:+ rest)%string as s eqn:Es.
    destruct H2 as [s Hs|q rest2 rest2' Hq Hr2]; [congruence|].
    assert (String.length q = String.length p) as Hlen by congruence.
    assert (q = p ∧ rest2 = rest) as [-> ->].
    { rewrite Es in Hq. pose proof Es as Es'.
      apply (f_equal (stake (String.length p))) in Es'.
      rewrite stake_length, <-Hlen, stake_length in Es'.
      split; [done|]. subst q. by apply append_inj_r, append_inj_r in Es. }
    by rewrite (IH _ Hr2).
Qed.
