(* ===== verification/Options.v ===== *)
(** * Command-line options

    [getopt] of the C library with short options, as the programs call it:
    all calls of the loop [while ((c = getopt(argc, argv, optstring)) != -1)]
    as one list, operands skipped the way the GNU function permutes them. *)
From Stdlib Require Import String.
From S2P Require Import Prelude.
From S2P Require Import Text.

(** What one call returns: an option with its [optarg] (empty for an option
    without one), or ['?']. *)
Inductive opt := Opt (c : Ascii.ascii) (optarg : string) | Unknown.

#[export] Instance opt_eq_dec : EqDecision opt.
Proof. solve_decision. Defined.

Definition colon : Ascii.ascii := Ascii.ascii_of_nat 58.
Definition dash : Ascii.ascii := Ascii.ascii_of_nat 45.

(** Whether [c] is an option, and whether it takes an argument. *)
Fixpoint find_option (optstring : string) (c : Ascii.ascii) : option bool :=
  match optstring with
  | EmptyString => None
  | String c' rest =>
      if decide (c = c' ∧ c ≠ colon) then
        Some (match rest with String c'' _ => bool_decide (c'' = colon) | EmptyString => false end)
      else find_option rest c
  end.

(** The options of one element after its dash, and the one that takes the next
    element as its argument. *)
Fixpoint cluster (optstring s : string) : list opt * option Ascii.ascii :=
  match s with
  | EmptyString => ([], None)
  | String c rest =>
      match find_option optstring c with
      | None => let '(os, want) := cluster optstring rest in (Unknown :: os, want)
      | Some false => let '(os, want) := cluster optstring rest in (Opt c "" :: os, want)
      | Some true => match rest with EmptyString => ([], Some c) | _ => ([Opt c rest], None) end
      end
  end.

(** [args] is [argv] without the name of the program. *)
Fixpoint getopt_from (optstring : string) (want : option Ascii.ascii) (args : list string) : list opt :=
  match args with
  | [] => match want with Some _ => [Unknown] | None => [] end
  | a :: args =>
      match want with
      | Some c => Opt c a :: getopt_from optstring None args
      | None =>
          if decide (a = "--"%string) then []
          else match a with
          | String d (String _ _ as s) =>
              if decide (d = dash) then
                let '(os, want) := cluster optstring s in os ++ getopt_from optstring want args
              else getopt_from optstring None args
          | _ => getopt_from optstring None args
          end
      end
  end.

Definition getopt (optstring : string) (args : list string) : list opt := getopt_from optstring None args.

Definition EXIT_SUCCESS : Z := 0.
Definition EXIT_FAILURE : Z := 1.

(** A handled option either goes on with new settings or ends the program. *)
Inductive step (S : Type) := Go (s : S) | Done (status : Z).
Arguments Go {S} _.
Arguments Done {S} _.

(** The loop over the options. *)
Fixpoint parse_options {S} (handle : opt → S → outcome (step S)) (opts : list opt) (s : S) : outcome (step S) :=
  match opts with
  | [] => Ret (Go s)
  | o :: opts =>
      r ← handle o s;
      match r with Go s => parse_options handle opts s | Done status => Ret (Done status) end
  end.

(** ** Lemmas *)
Section getopt_lemmas.
Context (optstring : string).

(** An option that takes an argument, as two elements and as one. *)
Lemma getopt_separate c a args : find_option optstring c = Some true → c ≠ dash →
  getopt optstring (String dash (String c "") :: a :: args) = Opt c a :: getopt optstring args.
Proof.
  intros Hc Hd. unfold getopt. cbn [getopt_from]. rewrite decide_False by (by intros [= ->]).
  rewrite decide_True by done. cbn [cluster]. by rewrite Hc.
Qed.

Lemma getopt_attached c a args : find_option optstring c = Some true → c ≠ dash → a ≠ ""%string →
  getopt optstring (String dash (String c a) :: args) = Opt c a :: getopt optstring args.
Proof.
  intros Hc Hd Ha. unfold getopt. cbn [getopt_from]. rewrite decide_False by (by intros [= ->]).
  rewrite decide_True by done. cbn [cluster]. rewrite Hc. by destruct a.
Qed.

(** A list of options written out is read back. *)
Definition arguments (opts : list (Ascii.ascii * string)) : list string :=
  opts ≫= λ o, [String dash (String o.1 ""); o.2].

Lemma getopt_arguments opts :
  Forall (λ o, find_option optstring o.1 = Some true ∧ o.1 ≠ dash) opts →
  getopt optstring (arguments opts) = (λ o, Opt o.1 o.2) <$> opts.
Proof.
  induction 1 as [|[c a] opts [Hc Hd] _ IH]; [done|].
  change (arguments ((c, a) :: opts)) with (String dash (String c "") :: a :: arguments opts).
  rewrite getopt_separate by done. by rewrite IH.
Qed.

(** The end of the options. *)
Lemma getopt_end args : getopt optstring ("--"%string :: args) = [].
Proof. done. Qed.
End getopt_lemmas.

(** Options that all go on are applied in order. *)
Lemma parse_options_go {S A} (handle : opt → S → outcome (step S)) (h : A → opt) (f : S → A → S) l s :
  (∀ s x, x ∈ l → handle (h x) s = Ret (Go (f s x))) → parse_options handle (h <$> l) s = Ret (Go (foldl f s l)).
Proof.
  revert s. induction l as [|x l IH]; intros s Hh; [done|]. cbn [fmap list_fmap parse_options].
  rewrite Hh by left. cbn [mbind outcome_bind foldl]. apply IH. intros. apply Hh. by right.
Qed.

(** ** Numerals *)
Lemma code_digit x : (x < 10)%N → code (pretty_N_char x) = 48 + Z.of_N x.
Proof.
  intros Hx. assert (x = 0 ∨ x = 1 ∨ x = 2 ∨ x = 3 ∨ x = 4 ∨ x = 5 ∨ x = 6 ∨ x = 7 ∨ x = 8 ∨ x = 9)%N
    as Hin by lia.
  destruct_or! Hin; subst; reflexivity.
Qed.

Lemma digits_digit acc x s : (x < 10)%N →
  digits acc (String (pretty_N_char x) s) = digits (Some (10 * default 0 acc + Z.of_N x)) s.
Proof.
  intros Hx. cbn [digits]. rewrite code_digit by done. rewrite decide_True by lia. do 2 f_equal. lia.
Qed.

Lemma digits_pretty_N_go x s : (0 < x)%N → digits None (pretty_N_go x s) = digits (Some (Z.of_N x)) s.
Proof.
  revert s. induction x as [x IH] using (well_founded_ind N.lt_wf_0). intros s Hx.
  rewrite pretty_N_go_step by done.
  assert (x mod 10 < 10)%N as Hmod by (apply N.mod_lt; lia).
  destruct (N.eq_0_gt_0_cases (x / 10)) as [E|Hdiv].
  - rewrite E, pretty_N_go_0, digits_digit by done. do 2 f_equal. cbn. apply N.div_small_iff in E; [|lia].
    by rewrite N.mod_small.
  - rewrite IH by (done || (apply N.div_lt; lia)). rewrite digits_digit by done. do 2 f_equal. cbn [default].
    rewrite N2Z.inj_div, N2Z.inj_mod. pose proof (Z.div_mod (Z.of_N x) 10). unfold id. lia.
Qed.

Lemma digits_pretty_N (n : N) : digits None (pretty n) = Some (Z.of_N n).
Proof.
  unfold pretty, pretty_N. case_decide; [by subst|]. by rewrite digits_pretty_N_go by lia.
Qed.

(** The first character of a numeral is neither a blank nor a sign. *)
Lemma pretty_N_first (n : N) : ∃ c s, (pretty n : string) = String c s ∧ 48 ≤ code c ≤ 57.
Proof.
  pose proof (pretty_N_digits n) as Hall. pose proof (digits_pretty_N n) as Hd.
  destruct (pretty n) as [|c s]; [done|]. exists c, s. split; [done|].
  cbn in Hall. apply Forall_cons in Hall as [Hc _]. unfold digit_chars in Hc. cbn in Hc.
  repeat (apply elem_of_cons in Hc as [->|Hc]; [by vm_compute|]). by apply elem_of_nil in Hc.
Qed.

Lemma sign_digit c s : 48 ≤ code c ≤ 57 → sign (skip_space (String c s)) = (false, String c s).
Proof.
  intros Hc. cbn [skip_space]. rewrite decide_False by lia. cbn [sign]. by rewrite !decide_False by lia.
Qed.

(** [atoi] reads back a numeral. *)
Lemma atoi_pretty (z : Z) : INT_MIN ≤ z ≤ INT_MAX → atoi (pretty z) = Ret z.
Proof.
  intros Hz. unfold atoi. destruct (decide (0 ≤ z)) as [Hpos|Hneg].
  - replace (pretty z) with (pretty (Z.to_N z)) by (destruct z; [done|done|lia]).
    pose proof (digits_pretty_N (Z.to_N z)) as Hd.
    destruct (pretty_N_first (Z.to_N z)) as (c & s & E & Hc). rewrite E in *. rewrite sign_digit, Hd by done.
    cbn [default]. unfold id. rewrite Z2N.id by lia. by rewrite decide_True.
  - replace (pretty z) with (String dash (pretty (Z.to_N (- z)))) by (destruct z; [lia|lia|done]).
    change (sign (skip_space (String dash (pretty (Z.to_N (- z)))))) with (true, pretty (Z.to_N (- z)) : string).
    cbv beta iota. rewrite digits_pretty_N. cbn [default]. unfold id. rewrite Z2N.id, Z.opp_involutive by lia. by rewrite decide_True.
Qed.
