(* ===== verification/Graph.v ===== *)
(** * The adjacency-list graph (pmud/graph/include/vertex.h, graph.h)

    [Vertex] and [Graph] as the headers declare them, one definition per
    member function, the edge relation a graph denotes, the invariant of the
    graphs built through the public interface and the theorems that each
    operation keeps it and changes the edges as it should. *)
From S2P Require Import Prelude.

(** ** vertex.h *)

(** [template <typename D> struct Vertex] at [D = int]. *)
Record Vertex := mkVertex {
  _index : Z;
  data : option Z;
  _adj : list Z
}.

Definition Vertex_new (index : Z) (data : option Z) : Vertex :=
  mkVertex index data [].

Definition adjSize (x : Vertex) : nat := length (_adj x).
Definition index (x : Vertex) : Z := _index x.
Definition vertex_subscript (x : Vertex) (v : Z) : outcome Z := vget (_adj x) v.
Definition addAdj (x : Vertex) (v : Z) : Vertex :=
  mkVertex (_index x) (data x) (_adj x ++ [v]).
Definition clearAdj (x : Vertex) : Vertex := mkVertex (_index x) (data x) [].

(** [operator<<]: the data if there is one, else the index, in decimal. *)
Definition vertex_print (x : Vertex) : string := pretty (default (index x) (data x)).

(** ** graph.h *)
Inductive GraphType := GRAPHTYPE_DIRECTED | GRAPHTYPE_UNDIRECTED.

#[export] Instance GraphType_eq_dec : EqDecision GraphType.
Proof. solve_decision. Defined.

Record Graph := mkGraph {
  vertices : list Vertex;
  V : Z;
  directed : GraphType
}.

(** [Graph(int numVertices, GraphType directed)] *)
Definition Graph_new (numVertices : Z) (dir : GraphType) : Graph :=
  mkGraph ((λ u, Vertex_new u None) <$> seqZ 0 numVertices) numVertices dir.

Definition numVertices (g : Graph) : Z := V g.
Definition isDirected (g : Graph) : bool := bool_decide (directed g = GRAPHTYPE_DIRECTED).

(** [vertex(u)] and [operator[](u)]: [std::vector::operator[]], unchecked. *)
Definition vertex (g : Graph) (u : Z) : outcome Vertex := vget (vertices g) u.

Definition set_vertices (g : Graph) (vs : list Vertex) : Graph :=
  mkGraph vs (V g) (directed g).

(** [find] over the adjacency list, [addAdj] only when [v] is new. *)
Definition addDirectedEdge (g : Graph) (u v : Z) : outcome Graph :=
  x ← vget (vertices g) u;
  if decide (v ∈ _adj x) then Ret g
  else vs ← vset (vertices g) u (addAdj x v); Ret (set_vertices g vs).

Definition addEdge (g : Graph) (u v : Z) : outcome Graph :=
  g' ← addDirectedEdge g u v;
  if decide (directed g = GRAPHTYPE_UNDIRECTED) then addDirectedEdge g' v u
  else Ret g'.

(** [for (auto const& x : rhs) for (int y : x) addDirectedEdge(...)]: the
    nested loops of the copy constructor and of [transpose], which differ in
    the arguments they pass. *)
Definition add_from (arc : Z → Z → Z * Z) (g : Graph) (x : Vertex) : outcome Graph :=
  foldM (λ g y, addDirectedEdge g (arc (index x) y).1 (arc (index x) y).2) g (_adj x).

(** [Graph(const Graph& rhs)]: the vertices are rebuilt (without data). *)
Definition Graph_copy (rhs : Graph) : outcome Graph :=
  foldM (add_from pair)
    (mkGraph ((λ u, Vertex_new u None) <$> seqZ 0 (V rhs)) (V rhs) (directed rhs))
    (vertices rhs).

(** [operator=(Graph&& other)]: takes over the three members. *)
Definition Graph_move_assign (this other : Graph) : Graph :=
  mkGraph (vertices other) (V other) (directed other).

Definition transpose (g : Graph) : outcome Graph :=
  temp ← Graph_copy g;
  if decide (directed g = GRAPHTYPE_UNDIRECTED) then Ret temp
  else foldM (add_from (λ x y, (y, x)))
         (set_vertices temp (clearAdj <$> vertices temp)) (vertices g).

(** ** Denotation and invariant *)

(** The adjacency list of [u]. *)
Definition adj_of (g : Graph) (u : Z) : option (list Z) :=
  match vget (vertices g) u with Ret x => Some (_adj x) | _ => None end.

Definition edge (g : Graph) (u v : Z) : Prop := ∃ l, adj_of g u = Some l ∧ v ∈ l.

Definition in_range (g : Graph) (u : Z) : Prop := 0 ≤ u < V g.

(** What every graph built through the interface satisfies: [V] vertices,
    vertex [i] at position [i] and without data, adjacency lists without
    duplicates that name existing vertices. *)
Record graph_wf (g : Graph) : Prop := {
  wf_V : 0 ≤ V g ≤ INT_MAX;
  wf_length : Z.of_nat (length (vertices g)) = V g;
  wf_index : ∀ u x, vget (vertices g) u = Ret x → _index x = u;
  wf_data : ∀ u x, vget (vertices g) u = Ret x → data x = None;
  wf_nodup : ∀ u l, adj_of g u = Some l → NoDup l;
  wf_range : ∀ u v, edge g u v → in_range g v
}.

(** The symmetry an undirected graph keeps. *)
Definition graph_sym (g : Graph) : Prop :=
  directed g = GRAPHTYPE_UNDIRECTED → ∀ u v, edge g u v → edge g v u.

(** ** Helper lemmas *)

(** What [addDirectedEdge] does to an adjacency list. *)
Definition adj_add (l : list Z) (v : Z) : list Z := if decide (v ∈ l) then l else l ++ [v].

Lemma elem_of_adj_add l v w : w ∈ adj_add l v ↔ w ∈ l ∨ w = v.
Proof. unfold adj_add. case_decide; set_solver. Qed.

Lemma NoDup_adj_add l v : NoDup l → NoDup (adj_add l v).
Proof.
  unfold adj_add. case_decide; [done|]. intros Hl.
  apply NoDup_app. split_and!; [done|set_solver|apply NoDup_singleton].
Qed.

Lemma elem_of_foldl_adj_add l ts w : w ∈ foldl adj_add l ts ↔ w ∈ l ∨ w ∈ ts.
Proof.
  revert l. induction ts as [|t ts IH]; intros l; cbn; [set_solver|].
  rewrite IH, elem_of_adj_add. set_solver.
Qed.

Lemma foldl_adj_add_NoDup l ts : NoDup (l ++ ts) → foldl adj_add l ts = l ++ ts.
Proof.
  revert l. induction ts as [|t ts IH]; intros l Hnd; cbn; [by rewrite app_nil_r|].
  unfold adj_add at 2. rewrite decide_False.
  - rewrite (IH (l ++ [t])); rewrite <-app_assoc; done.
  - apply NoDup_app in Hnd as (_ & Hnd & _). intros Ht. apply (Hnd t Ht). set_solver.
Qed.

Lemma adj_of_Some g u l :
  adj_of g u = Some l ↔ ∃ x, vget (vertices g) u = Ret x ∧ _adj x = l.
Proof. unfold adj_of. destruct (vget _ _); naive_solver. Qed.

Lemma adj_of_range g u : graph_wf g → is_Some (adj_of g u) ↔ in_range g u.
Proof.
  intros Hwf. unfold in_range. rewrite <-(wf_length g Hwf). split.
  - intros [l (x & Hx & _)%adj_of_Some]. by eapply vget_range.
  - intros [x Hx]%(vget_is_Ret (vertices g)). exists (_adj x). apply adj_of_Some. eauto.
Qed.

Lemma edge_source g u v : graph_wf g → edge g u v → in_range g u.
Proof. intros Hwf (l & Hl & _). apply adj_of_range; [done|]. by exists l. Qed.

(** Graphs built through the interface are determined by their members'
    observable content. *)
Lemma graph_ext g1 g2 :
  graph_wf g1 → graph_wf g2 → V g1 = V g2 → directed g1 = directed g2 →
  (∀ u, adj_of g1 u = adj_of g2 u) → g1 = g2.
Proof.
  intros H1 H2 HV Hd Hadj.
  assert (vertices g1 = vertices g2) as Hvs.
  { apply vec_ext.
    - pose proof (wf_length _ H1). pose proof (wf_length _ H2). lia.
    - intros u Hu. destruct (vget_is_Ret (vertices g1) u Hu) as [x Hx].
      specialize (Hadj u). rewrite (proj2 (adj_of_Some g1 u (_adj x))) in Hadj by eauto.
      symmetry in Hadj. apply adj_of_Some in Hadj as (y & Hy & Hxy).
      rewrite Hx, Hy. f_equal.
      pose proof (wf_index _ H1 _ _ Hx). pose proof (wf_index _ H2 _ _ Hy).
      pose proof (wf_data _ H1 _ _ Hx). pose proof (wf_data _ H2 _ _ Hy).
      destruct x, y; cbn in *; congruence. }
  destruct g1, g2; cbn in *; congruence.
Qed.

Lemma vget_seqZ_fmap {A} (f : Z → A) n u x :
  vget (f <$> seqZ 0 n) u = Ret x → 0 ≤ u < n ∧ x = f u.
Proof.
  intros Hu. pose proof (vget_range _ _ _ Hu) as Hr.
  rewrite length_fmap, length_seqZ in Hr.
  apply vget_Ret in Hu as [_ Hu]. apply list_lookup_fmap_Some in Hu as (z & -> & Hz).
  apply lookup_seqZ in Hz as [-> ?]. split; [lia|]. f_equal. lia.
Qed.

Lemma adj_of_new n dir u : adj_of (Graph_new n dir) u = if decide (0 ≤ u < n) then Some [] else None.
Proof.
  unfold adj_of. case_decide as Hu.
  - destruct (vget_is_Ret (vertices (Graph_new n dir)) u) as [x Hx].
    { cbn. rewrite length_fmap, length_seqZ. lia. }
    rewrite Hx. cbn in Hx. by apply vget_seqZ_fmap in Hx as [_ ->].
  - destruct (vget _ _) eqn:E; try done. cbn in E. apply vget_seqZ_fmap in E as [? _]. lia.
Qed.

Lemma Graph_new_edge n dir u v : ¬ edge (Graph_new n dir) u v.
Proof. intros (l & Hl & Hv). rewrite adj_of_new in Hl. case_decide; set_solver. Qed.

Lemma Graph_new_wf_aux n dir : 0 ≤ n ≤ INT_MAX → graph_wf (Graph_new n dir).
Proof.
  intros Hn. split; cbn; try done.
  - rewrite length_fmap, length_seqZ. lia.
  - by intros u x [_ ->]%vget_seqZ_fmap.
  - by intros u x [_ ->]%vget_seqZ_fmap.
  - intros u l. rewrite adj_of_new. case_decide; intros; simplify_eq. constructor.
  - intros u v []%Graph_new_edge.
Qed.

Section add_directed.
Context (g : Graph) (Hwf : graph_wf g).

Lemma addDirectedEdge_adj u v :
  in_range g u → in_range g v →
  returns (addDirectedEdge g u v) (λ g',
    graph_wf g' ∧ V g' = V g ∧ directed g' = directed g ∧
    ∀ a, adj_of g' a = (if decide (a = u) then λ l, adj_add l v else id) <$> adj_of g a).
Proof.
  intros Hu Hv. pose proof (wf_length g Hwf) as Hlen. unfold in_range in Hu.
  destruct (vget_is_Ret (vertices g) u) as [x Hx]; [lia|].
  unfold addDirectedEdge. rewrite Hx. cbn.
  assert (adj_of g u = Some (_adj x)) as Hax by (apply adj_of_Some; eauto).
  case_decide as Hin.
  - apply returns_Ret. split_and!; try done. intros a. case_decide; subst.
    + rewrite Hax. cbn. unfold adj_add. by rewrite decide_True.
    + by destruct (adj_of g a).
  - rewrite vset_is_Ret by lia. cbn. apply returns_Ret.
    set (vs' := <[Z.to_nat u:=addAdj x v]> (vertices g)).
    assert (∀ a, vget vs' a = if decide (u = a) then Ret (addAdj x v) else vget (vertices g) a)
      as Hvs'.
    { intros a. apply vget_vset. apply vset_Ret. split; [lia|done]. }
    assert (∀ a, adj_of (set_vertices g vs') a =
              (if decide (a = u) then λ l, adj_add l v else id) <$> adj_of g a) as Hadj.
    { intros a. unfold adj_of at 1. cbn [vertices set_vertices]. rewrite Hvs'.
      destruct (decide (u = a)) as [<-|Hne].
      - rewrite decide_True, Hax by done. cbn. unfold adj_add. by rewrite decide_False.
      - rewrite decide_False by done. unfold adj_of. by destruct (vget (vertices g) a). }
    split_and!; try done. split; try apply Hwf.
    + cbn. unfold vs'. rewrite length_insert. by apply wf_length.
    + intros a y Ha. cbn in Ha. rewrite Hvs' in Ha. case_decide; simplify_eq; cbn; by eapply wf_index.
    + intros a y Ha. cbn in Ha. rewrite Hvs' in Ha. case_decide; simplify_eq; cbn; by eapply wf_data.
    + intros a l. rewrite Hadj. intros (l0 & Hl0 & ->)%fmap_Some.
      pose proof (wf_nodup _ Hwf _ _ Hl0). case_decide; [|done]. by apply NoDup_adj_add.
    + intros a b (l & Hl & Hb). rewrite Hadj in Hl.
      apply fmap_Some in Hl as (l0 & Hl0 & ->).
      assert (b ∈ l0 ∨ b = v) as [Hb'| ->]; [|by apply (wf_range _ Hwf a b); exists l0|done].
      case_decide; [by apply elem_of_adj_add|by left].
Qed.
End add_directed.

(** ** Adding a list of arcs *)

(** The arcs of a graph, in the order the nested loops visit them. *)
Definition vertex_arcs (arc : Z → Z → Z * Z) (x : Vertex) : list (Z * Z) :=
  (λ y, arc (index x) y) <$> _adj x.

Definition arcs_by (arc : Z → Z → Z * Z) (vs : list Vertex) : list (Z * Z) :=
  vs ≫= vertex_arcs arc.

Definition add_arc (g : Graph) (e : Z * Z) : outcome Graph := addDirectedEdge g e.1 e.2.

Definition targets_of (a : Z) (l : list (Z * Z)) : list Z :=
  omap (λ e, if decide (e.1 = a) then Some e.2 else None) l.

Lemma elem_of_targets a b l : b ∈ targets_of a l ↔ (a, b) ∈ l.
Proof.
  unfold targets_of. rewrite list_elem_of_omap. split.
  - intros ([a' b'] & Hin & Heq). cbn in Heq. case_decide; by simplify_eq.
  - intros Hin. exists (a, b). cbn. by rewrite decide_True.
Qed.

Lemma foldM_add_from arc g vs :
  foldM (add_from arc) g vs = foldM add_arc g (arcs_by arc vs).
Proof.
  unfold arcs_by. rewrite <-foldM_bind. apply foldM_ext. intros g' x.
  unfold vertex_arcs. rewrite <-foldM_fmap. done.
Qed.

(** Adding arcs between existing vertices: each adjacency list grows by the
    targets of the arcs that leave it, duplicates left out. *)
Lemma add_arcs_adj g l :
  graph_wf g → Forall (λ e, in_range g e.1 ∧ in_range g e.2) l →
  returns (foldM add_arc g l) (λ g',
    graph_wf g' ∧ V g' = V g ∧ directed g' = directed g ∧
    ∀ a, adj_of g' a = (λ l0, foldl adj_add l0 (targets_of a l)) <$> adj_of g a).
Proof.
  intros Hwf. revert g Hwf. induction l as [|[u v] l IH]; intros g Hwf Hl; cbn.
  - apply returns_Ret. split_and!; try done. intros a. by destruct (adj_of g a).
  - apply Forall_cons in Hl as [[Hu Hv] Hl]. cbn in Hu, Hv.
    eapply returns_bind; [by apply addDirectedEdge_adj|].
    intros g1 (Hwf1 & HV1 & Hd1 & Hadj1).
    eapply returns_mono; [apply IH; [done|]|].
    + unfold in_range in *. rewrite HV1. done.
    + intros g2 (Hwf2 & HV2 & Hd2 & Hadj2). split_and!; try congruence.
      intros a. rewrite Hadj2, Hadj1. destruct (adj_of g a) as [la|]; [|done].
      cbn. f_equal. repeat case_decide; subst; try done.
Qed.

Lemma add_arcs_edge g l :
  graph_wf g → Forall (λ e, in_range g e.1 ∧ in_range g e.2) l →
  returns (foldM add_arc g l) (λ g',
    graph_wf g' ∧ V g' = V g ∧ directed g' = directed g ∧
    ∀ a b, edge g' a b ↔ edge g a b ∨ (a, b) ∈ l).
Proof.
  intros Hwf Hl. eapply returns_mono; [by apply add_arcs_adj|].
  intros g' (Hwf' & HV & Hd & Hadj). split_and!; try done.
  intros a b. unfold edge. setoid_rewrite Hadj. split.
  - intros (l' & (l0 & Hl0 & ->)%fmap_Some & Hb).
    apply elem_of_foldl_adj_add in Hb as [Hb|Hb]; [left; eauto|].
    right. by apply elem_of_targets.
  - intros [(l0 & Hl0 & Hb)|Hb].
    + rewrite Hl0. cbn. eexists; split; [done|]. apply elem_of_foldl_adj_add. by left.
    + assert (is_Some (adj_of g a)) as [l0 Hl0].
      { apply adj_of_range; [done|]. rewrite Forall_forall in Hl. by apply (Hl _ Hb). }
      rewrite Hl0. cbn. eexists; split; [done|].
      apply elem_of_foldl_adj_add. right. by apply elem_of_targets.
Qed.

(** The arcs of a well-formed graph are its edges. *)
Lemma elem_of_arcs arc g e :
  graph_wf g → e ∈ arcs_by arc (vertices g) ↔ ∃ u v, e = arc u v ∧ edge g u v.
Proof.
  intros Hwf. unfold arcs_by, vertex_arcs. rewrite list_elem_of_bind. split.
  - intros (x & He & (i & Hi)%list_elem_of_lookup).
    apply list_elem_of_fmap in He as (y & -> & Hy).
    assert (vget (vertices g) (Z.of_nat i) = Ret x) as Hx.
    { apply vget_Ret. rewrite Nat2Z.id. split; [lia|done]. }
    pose proof (wf_index _ Hwf _ _ Hx) as Hidx.
    exists (index x), y. split; [done|]. exists (_adj x). split; [|done].
    apply adj_of_Some. exists x. unfold index. by rewrite Hidx.
  - intros (u & v & -> & l & (x & Hx & <-)%adj_of_Some & Hv).
    exists x. split.
    + apply list_elem_of_fmap. exists v. unfold index.
      by rewrite (wf_index _ Hwf _ _ Hx).
    + apply vget_Ret in Hx as [_ Hx]. by eapply list_elem_of_lookup_2.
Qed.

Lemma arcs_in_range arc g :
  graph_wf g → (∀ u v, arc u v = (u, v) ∨ arc u v = (v, u)) →
  Forall (λ e, in_range g e.1 ∧ in_range g e.2) (arcs_by arc (vertices g)).
Proof.
  intros Hwf Harc. apply Forall_forall. intros e He.
  apply elem_of_arcs in He as (u & v & -> & Huv); [|done].
  pose proof (edge_source _ _ _ Hwf Huv). pose proof (wf_range _ Hwf _ _ Huv).
  by destruct (Harc u v) as [-> | ->].
Qed.

(** The arcs that leave [a], in order, are its adjacency list. *)
Lemma targets_vertex_arcs a x :
  targets_of a (vertex_arcs pair x) = if decide (index x = a) then _adj x else [].
Proof.
  unfold vertex_arcs, targets_of. induction (_adj x) as [|y l IH]; cbn; [by case_decide|].
  rewrite IH. by case_decide.
Qed.

Lemma targets_of_app a l1 l2 : targets_of a (l1 ++ l2) = targets_of a l1 ++ targets_of a l2.
Proof. apply omap_app. Qed.

Lemma targets_arcs_from vs k a :
  (∀ i x, vs !! i = Some x → _index x = k + Z.of_nat i) →
  targets_of a (arcs_by pair vs) =
    match vget vs (a - k) with Ret x => _adj x | _ => [] end.
Proof.
  revert k. induction vs as [|x vs IH]; intros k Hidx.
  - rewrite vget_out; [done|]. cbn. lia.
  - change (arcs_by pair (x :: vs)) with (vertex_arcs pair x ++ arcs_by pair vs).
    rewrite targets_of_app, targets_vertex_arcs.
    rewrite (IH (k + 1)); [|intros i y Hy; rewrite (Hidx (S i) y Hy); lia].
    pose proof (Hidx 0%nat x eq_refl) as Hx. unfold index. rewrite Hx.
    destruct (decide (a < k + 1)) as [Hlt|Hlt].
    + rewrite (vget_out vs) by lia. rewrite app_nil_r.
      case_decide as Heq.
      * by replace (a - k) with 0 by lia.
      * rewrite vget_out; [done|lia].
    + rewrite decide_False by lia. cbn.
      unfold vget. rewrite !decide_True by lia.
      by replace (Z.to_nat (a - k)) with (S (Z.to_nat (a - (k + 1)))) by lia.
Qed.

Lemma targets_arcs g a :
  graph_wf g → targets_of a (arcs_by pair (vertices g)) = default [] (adj_of g a).
Proof.
  intros Hwf. rewrite (targets_arcs_from _ 0).
  - rewrite Z.sub_0_r. unfold adj_of. by destruct (vget _ a).
  - intros i x Hx. rewrite (wf_index _ Hwf (Z.of_nat i) x); [lia|].
    apply vget_Ret. rewrite Nat2Z.id. split; [lia|done].
Qed.

(** ** The operations *)

Lemma addEdge_edges g u v :
  graph_wf g → graph_sym g → in_range g u → in_range g v →
  returns (addEdge g u v) (λ g',
    graph_wf g' ∧ graph_sym g' ∧ V g' = V g ∧ directed g' = directed g ∧
    ∀ a b, edge g' a b ↔
      edge g a b ∨ (a, b) = (u, v) ∨ (directed g = GRAPHTYPE_UNDIRECTED ∧ (a, b) = (v, u))).
Proof.
  intros Hwf Hsym Hu Hv.
  set (l := (u, v) :: (if decide (directed g = GRAPHTYPE_UNDIRECTED) then [(v, u)] else [])).
  assert (addEdge g u v = foldM add_arc g l) as ->.
  { unfold addEdge, l, add_arc. cbn. destruct (addDirectedEdge g u v); cbn; try done.
    case_decide; cbn; [|done]. by destruct (addDirectedEdge _ v u). }
  eapply returns_mono; [apply add_arcs_edge; [done|]|].
  { unfold l. case_decide; rewrite ?Forall_cons, ?Forall_nil; done. }
  intros g' (Hwf' & HV & Hd & Hedge).
  assert (∀ a b, edge g' a b ↔
      edge g a b ∨ (a, b) = (u, v) ∨ (directed g = GRAPHTYPE_UNDIRECTED ∧ (a, b) = (v, u)))
    as Hedge'.
  { intros a b. rewrite Hedge. unfold l. case_decide; set_solver. }
  split_and!; try done. intros Hund a b. rewrite Hd in Hund.
  rewrite !Hedge'. intros [Hab|[Hab|[_ Hab]]]; simplify_eq; auto.
Qed.

Lemma addEdge_source_out g u v : graph_wf g → ¬ in_range g u → addEdge g u v = Undef.
Proof.
  intros Hwf Hu. unfold addEdge, addDirectedEdge.
  rewrite vget_out; [done|]. by rewrite (wf_length g Hwf).
Qed.

Lemma addDirectedEdge_dangling g u v :
  graph_wf g → in_range g u → ¬ in_range g v →
  returns (addDirectedEdge g u v) (λ g',
    edge g' u v ∧ V g' = V g ∧ length (vertices g') = length (vertices g)).
Proof.
  intros Hwf Hu Hv. pose proof (wf_length g Hwf) as Hlen. unfold in_range in Hu.
  destruct (vget_is_Ret (vertices g) u) as [x Hx]; [lia|].
  unfold addDirectedEdge. rewrite Hx. cbn. rewrite decide_False.
  - rewrite vset_is_Ret by lia. cbn. apply returns_Ret. cbn. rewrite length_insert.
    split_and!; try done. exists (_adj x ++ [v]). split; [|set_solver].
    apply adj_of_Some. exists (addAdj x v). split; [|done].
    eapply vget_vset_eq. apply vset_is_Ret. lia.
  - intros Hin. apply Hv. apply (wf_range _ Hwf u v). exists (_adj x).
    split; [|done]. apply adj_of_Some. eauto.
Qed.

(** C35. [addEdge] on every input. Between existing vertices of a well-formed
    graph it returns, keeps the invariant (and, for an undirected graph, the
    symmetry) and adds exactly the edge, in both directions when the graph is
    undirected. An unknown source vertex is undefined behaviour. An unknown
    target is undefined for an undirected graph, and for a directed one is
    silently stored, so that the result is no longer well formed. *)
Theorem addEdge_total g u v :
  graph_wf g → graph_sym g →
  (in_range g u → in_range g v →
    returns (addEdge g u v) (λ g',
      graph_wf g' ∧ graph_sym g' ∧ V g' = V g ∧ directed g' = directed g ∧
      ∀ a b, edge g' a b ↔
        edge g a b ∨ (a, b) = (u, v) ∨
        (directed g = GRAPHTYPE_UNDIRECTED ∧ (a, b) = (v, u)))) ∧
  (¬ in_range g u → addEdge g u v = Undef) ∧
  (in_range g u → ¬ in_range g v → directed g = GRAPHTYPE_UNDIRECTED →
    addEdge g u v = Undef) ∧
  (in_range g u → ¬ in_range g v → directed g = GRAPHTYPE_DIRECTED →
    returns (addEdge g u v) (λ g', edge g' u v ∧ ¬ graph_wf g')).
Proof.
  intros Hwf Hsym. split_and!.
  - by apply addEdge_edges.
  - by apply addEdge_source_out.
  - intros Hu Hv Hd. unfold addEdge.
    destruct (addDirectedEdge_dangling g u v Hwf Hu Hv) as (g' & -> & He & HV & Hlen). cbn.
    rewrite decide_True by done. unfold addDirectedEdge.
    rewrite vget_out; [done|]. by rewrite Hlen, (wf_length g Hwf).
  - intros Hu Hv Hd. unfold addEdge.
    destruct (addDirectedEdge_dangling g u v Hwf Hu Hv) as (g' & -> & He & HV & Hlen). cbn.
    rewrite decide_False by (by rewrite Hd). apply returns_Ret. split; [done|].
    intros Hwf'. apply Hv. unfold in_range. rewrite <-HV. by apply (wf_range _ Hwf' u v).
Qed.

Lemma Graph_new_sym n dir : graph_sym (Graph_new n dir).
Proof. by intros _ u v []%Graph_new_edge. Qed.

Lemma Graph_copy_eq g : graph_wf g → Graph_copy g = Ret g.
Proof.
  intros Hwf. unfold Graph_copy. rewrite foldM_add_from.
  change (mkGraph _ (V g) (directed g)) with (Graph_new (V g) (directed g)).
  assert (graph_wf (Graph_new (V g) (directed g))) as Hnew
    by (apply Graph_new_wf_aux, Hwf).
  destruct (add_arcs_adj (Graph_new (V g) (directed g)) (arcs_by pair (vertices g)) Hnew)
    as (g' & Hg' & Hwf' & HV & Hd & Hadj).
  { change (Forall (λ e, in_range g e.1 ∧ in_range g e.2) (arcs_by pair (vertices g))).
    apply arcs_in_range; auto. }
  rewrite Hg'. f_equal. apply graph_ext; try done. intros u.
  rewrite Hadj, adj_of_new, targets_arcs by done. case_decide as Hu.
  - apply adj_of_range in Hu as [l Hl]; [|done]. rewrite Hl. cbn. f_equal.
    rewrite foldl_adj_add_NoDup; [done|]. exact (wf_nodup _ Hwf _ _ Hl).
  - destruct (adj_of g u) eqn:Hl; [|done].
    exfalso. apply Hu, adj_of_range; [done|]. by eexists.
Qed.

(** The copy constructor is faithful: copying a graph built through the
    interface gives an equal graph, with every adjacency list in the order of
    the original. *)
Theorem Graph_copy_faithful g : graph_wf g → Graph_copy g = Ret g.
Proof. apply Graph_copy_eq. Qed.

Lemma cleared_wf g : graph_wf g → graph_wf (set_vertices g (clearAdj <$> vertices g)).
Proof.
  intros Hwf.
  assert (∀ u l, adj_of (set_vertices g (clearAdj <$> vertices g)) u = Some l → l = []) as Hnil.
  { intros u l (x & Hx & <-)%adj_of_Some. cbn in Hx. rewrite vget_fmap in Hx.
    by outcome_inv. }
  split; try apply Hwf.
  - cbn. rewrite length_fmap. by apply wf_length.
  - intros u x Hx. cbn in Hx. rewrite vget_fmap in Hx. outcome_inv. by eapply wf_index in Ha.
  - intros u x Hx. cbn in Hx. rewrite vget_fmap in Hx. outcome_inv. by eapply wf_data in Ha.
  - intros u l ->%Hnil. constructor.
  - intros u v (l & ->%Hnil & Hv). set_solver.
Qed.

Lemma cleared_edge g u v : ¬ edge (set_vertices g (clearAdj <$> vertices g)) u v.
Proof.
  intros (l & (x & Hx & <-)%adj_of_Some & Hv). cbn in Hx. rewrite vget_fmap in Hx.
  outcome_inv. set_solver.
Qed.

Lemma transpose_edges g :
  graph_wf g → graph_sym g →
  returns (transpose g) (λ g',
    graph_wf g' ∧ V g' = V g ∧ directed g' = directed g ∧
    (∀ a b, edge g' a b ↔ edge g b a) ∧
    (directed g = GRAPHTYPE_UNDIRECTED → g' = g)).
Proof.
  intros Hwf Hsym. unfold transpose. rewrite Graph_copy_eq by done. cbn.
  case_decide as Hd.
  - apply returns_Ret. split_and!; try done. intros a b. split; by apply Hsym.
  - rewrite foldM_add_from.
    eapply returns_mono; [apply add_arcs_edge; [by apply cleared_wf|]|].
    + change (Forall (λ e, in_range g e.1 ∧ in_range g e.2)
        (arcs_by (λ x y, (y, x)) (vertices g))). apply arcs_in_range; auto.
    + intros g' (Hwf' & HV & Hdir & Hedge). split_and!; try done.
      intros a b. rewrite Hedge, elem_of_arcs by done. split.
      * by intros [[]%cleared_edge|(u & v & [= -> ->] & Huv)].
      * intros Hba. right. by exists b, a.
Qed.

(** C34. [transpose] returns a well-formed graph on the same vertices whose
    edges are exactly the reversed edges; for an undirected graph that is the
    graph itself. *)
Theorem transpose_reverses g :
  graph_wf g → graph_sym g →
  returns (transpose g) (λ g',
    graph_wf g' ∧ V g' = V g ∧ directed g' = directed g ∧
    (∀ a b, edge g' a b ↔ edge g b a) ∧
    (directed g = GRAPHTYPE_UNDIRECTED → g' = g)).
Proof. apply transpose_edges. Qed.

(** ** Walks and distances *)
Inductive walk (g : Graph) (u : Z) : nat → Z → Prop :=
  | walk_nil : in_range g u → walk g u 0 u
  | walk_snoc n p v : walk g u n p → edge g p v → walk g u (S n) v.

(** [n] is the length of a shortest walk from [u] to [v]. *)
Definition distance (g : Graph) (u : Z) (n : nat) (v : Z) : Prop :=
  walk g u n v ∧ ∀ m, walk g u m v → (n ≤ m)%nat.

Definition reachable (g : Graph) (u v : Z) : Prop := ∃ n, walk g u n v.

Lemma walk_range g u n v : graph_wf g → walk g u n v → in_range g v.
Proof. intros Hwf Hw. destruct Hw; [done|]. by eapply wf_range. Qed.

(** ** Graphs built edge by edge *)
Lemma add_edges_list g l :
  graph_wf g → graph_sym g → Forall (λ e, in_range g e.1 ∧ in_range g e.2) l →
  returns (foldM (λ g e, addEdge g e.1 e.2) g l) (λ g',
    graph_wf g' ∧ graph_sym g' ∧ V g' = V g ∧ directed g' = directed g ∧
    ∀ a b, edge g' a b ↔
      edge g a b ∨ (a, b) ∈ l ∨ (directed g = GRAPHTYPE_UNDIRECTED ∧ (b, a) ∈ l)).
Proof.
  intros Hwf Hsym Hl. revert g Hwf Hsym Hl.
  induction l as [|[u v] l IH]; intros g Hwf Hsym Hl; cbn.
  - apply returns_Ret. split_and!; try done. intros a b. rewrite !elem_of_nil. tauto.
  - apply Forall_cons in Hl as [[Hu Hv] Hl].
    eapply returns_bind; [by apply addEdge_edges|].
    intros g1 (Hwf1 & Hsym1 & HV1 & Hd1 & He1).
    eapply returns_mono; [apply IH; [done|done|]|].
    { unfold in_range in *. by rewrite HV1. }
    intros g2 (Hwf2 & Hsym2 & HV2 & Hd2 & He2).
    split_and!; try done; [congruence|congruence|].
    intros a b. rewrite He2, He1, Hd1, !elem_of_cons.
    assert ((b, a) = (u, v) ↔ (a, b) = (v, u)) by (split; congruence). tauto.
Qed.

(** A concrete graph for the witnesses: the graph of graph_creation_tests.cpp
    with a fourth, unreachable vertex. *)
Definition ring_graph : Graph :=
  mkGraph [mkVertex 0 None [1]; mkVertex 1 None [0; 2]; mkVertex 2 None []; mkVertex 3 None [2]]
    4 GRAPHTYPE_DIRECTED.

Lemma ring_graph_built :
  (g ← addEdge (Graph_new 4 GRAPHTYPE_DIRECTED) 0 1;
   g ← addEdge g 1 0; g ← addEdge g 1 2; addEdge g 3 2) = Ret ring_graph.
Proof. reflexivity. Qed.

(** The graphs that [addEdge] builds from an empty one are well formed. *)
Lemma build_wf g l :
  graph_wf g → graph_sym g → Forall (λ e, in_range g e.1 ∧ in_range g e.2) l →
  ∀ g', foldM (λ g e, addEdge g e.1 e.2) g l = Ret g' → graph_wf g' ∧ graph_sym g'.
Proof.
  intros Hwf Hsym Hl g' Hg'.
  destruct (add_edges_list g l Hwf Hsym Hl) as (g2 & Hg2 & Hwf2 & Hsym2 & _).
  rewrite Hg' in Hg2. by injection Hg2 as <-.
Qed.

Lemma ring_graph_wf : graph_wf ring_graph.
Proof.
  apply (build_wf (Graph_new 4 GRAPHTYPE_DIRECTED) [(0, 1); (1, 0); (1, 2); (3, 2)]).
  - apply Graph_new_wf_aux. unfold INT_MAX. lia.
  - apply Graph_new_sym.
  - rewrite !Forall_cons, Forall_nil. unfold in_range. cbn. lia.
  - reflexivity.
Qed.


Lemma ring_graph_sym : graph_sym ring_graph.
Proof. discriminate. Qed.

(** A two-vertex undirected graph. *)
Definition pair_graph : Graph :=
  mkGraph [mkVertex 0 None [1]; mkVertex 1 None [0]] 2 GRAPHTYPE_UNDIRECTED.

Lemma pair_graph_wf : graph_wf pair_graph ∧ graph_sym pair_graph.
Proof.
  apply (build_wf (Graph_new 2 GRAPHTYPE_UNDIRECTED) [(0, 1)]).
  - apply Graph_new_wf_aux. unfold INT_MAX. lia.
  - apply Graph_new_sym.
  - rewrite !Forall_cons, Forall_nil. unfold in_range. cbn. lia.
  - reflexivity.
Qed.

Lemma addEdge_total_witness :
  graph_wf ring_graph ∧ graph_sym ring_graph ∧
  returns (addEdge ring_graph 2 0) (λ g', edge g' 2 0) ∧
  addEdge ring_graph 4 0 = Undef ∧
  returns (addEdge ring_graph 0 4) (λ g', ¬ graph_wf g').
Proof.
  destruct (addEdge_total ring_graph 2 0 ring_graph_wf ring_graph_sym) as (H1 & _).
  destruct (addEdge_total ring_graph 4 0 ring_graph_wf ring_graph_sym) as (_ & H2 & _).
  destruct (addEdge_total ring_graph 0 4 ring_graph_wf ring_graph_sym) as (_ & _ & _ & H3).
  split; [exact ring_graph_wf|]. split; [exact ring_graph_sym|]. split_and!.
  - eapply returns_mono; [apply H1; unfold in_range; cbn; lia|].
    intros g' (_ & _ & _ & _ & He). apply He. auto.
  - apply H2. unfold in_range; cbn; lia.
  - eapply returns_mono; [apply H3; [unfold in_range; cbn; lia..|done]|]. by intros g' [_ ?].
Defined.

Lemma Graph_copy_faithful_witness :
  graph_wf pair_graph ∧ Graph_copy pair_graph = Ret pair_graph.
Proof.
  split; [apply pair_graph_wf|]. apply Graph_copy_faithful. apply pair_graph_wf.
Defined.

Lemma transpose_reverses_witness :
  graph_wf ring_graph ∧ graph_sym ring_graph ∧
  returns (transpose ring_graph) (λ g', edge g' 2 3 ∧ ¬ edge g' 3 2).
Proof.
  split; [exact ring_graph_wf|]. split; [exact ring_graph_sym|].
  eapply returns_mono; [exact (transpose_reverses ring_graph ring_graph_wf ring_graph_sym)|].
  intros g' (_ & _ & _ & He & _). rewrite !He. split.
  - exists [2]. split; [reflexivity|]. set_solver.
  - intros (l & [= <-] & []%elem_of_nil).
Defined.
