(* ===== verification/GraphCommon.v ===== *)
(** * Graph utilities (pmud/graph/include/common.h)

    The constants, the edge generators and the printers of common.h. A
    printer that takes one stream is the text it writes; [printPath], whose
    recursive calls do not all write to the same stream, is a log of writes. *)
From S2P Require Import Prelude.
From S2P Require Import Text.
From S2P Require Import Graph.

Definition PRESENT : string := "*".
Definition ABSENT : string := " ".
Definition INVALID_VERTEX : Z := -1.

Inductive DotGraphType := DOT_STRICT | DOT_NONSTRICT.

#[export] Instance DotGraphType_eq_dec : EqDecision DotGraphType.
Proof. solve_decision. Defined.

(** A double quote. *)
Definition quote : string := String (Ascii.ascii_of_nat 34) EmptyString.

(** [std::setw(n) << s]: padded on the left with blanks. *)
Definition blanks (n : nat) : string := String.concat "" (replicate n " ").
Definition setw (n : nat) (s : string) : string := (blanks (n - String.length s) +:+ s)%string.

(** The text of [graph[u]] on a stream. *)
Definition print_vertex (g : Graph) (u : Z) : outcome string :=
  x ← vertex g u; Ret (vertex_print x).

(** Concatenate what a loop prints for each element. *)
Definition print_each {A} (f : A → outcome string) (l : list A) : outcome string :=
  foldM (λ out x, s ← f x; Ret (out +:+ s)%string) "" l.

(** ** printPath *)

(** The stream a write goes to: [std::cout], or the stream of the caller. *)
Inductive ostream := cout | caller_stream.

#[export] Instance ostream_eq_dec : EqDecision ostream.
Proof. solve_decision. Defined.

Definition writes := list (ostream * string).

(** [_printPath]; the recursive call leaves [output] at its default, [cout]. *)
Fixpoint print_path_rec (fuel : nat) (g : Graph) (s v : Z) (pi : list Z) (output : ostream) : outcome writes :=
  match fuel with
  | O => NoFuel
  | S fuel =>
      if decide (v = s) then t ← print_vertex g v; Ret [(output, t)]
      else
        p ← vget pi v;
        if decide (p = INVALID_VERTEX) then
          ts ← print_vertex g s; tv ← print_vertex g v;
          Ret [(output, "No path from "); (output, ts); (output, " to "); (output, tv);
               (output, " exists."); (output, endl)]
        else
          w ← print_path_rec fuel g s p pi cout;
          t ← print_vertex g v;
          Ret (w ++ [(output, " -> "); (output, t)])
  end.

Definition printPath (fuel : nat) (g : Graph) (s v : Z) (pi : list Z) (output : ostream) : outcome writes :=
  w ← print_path_rec fuel g s v pi output;
  Ret (w ++ [(output, endl)]).

(** What one stream received. *)
Definition text_on (o : ostream) (w : writes) : string :=
  String.concat "" (omap (λ e, if decide (e.1 = o) then Some e.2 else None) w).

(** ** printDot, printStructure *)
Definition dot_strict (strict : DotGraphType) : string :=
  if decide (strict = DOT_STRICT) then "strict " else "".

(** The opening line and the edge connector. *)
Definition dot_open (g : Graph) : string * string :=
  if isDirected g then (("digraph {" +:+ endl)%string, "->") else (("graph {" +:+ endl)%string, "--").

Definition dot_edges (indent : string) (g : Graph) (connector : string) : outcome string :=
  print_each (λ x,
    print_each (λ y, t ← print_vertex g y;
      Ret (indent +:+ vertex_print x +:+ " " +:+ connector +:+ " " +:+ t +:+ endl)%string)
      (_adj x)) (vertices g).

Definition printDot (g : Graph) (strict : DotGraphType) : outcome string :=
  edges ← dot_edges " " g (dot_open g).2;
  Ret (dot_strict strict +:+ (dot_open g).1 +:+ edges +:+ "}" +:+ endl)%string.

Definition printStructure (g : Graph) : outcome string :=
  print_each (λ x,
    nbrs ← print_each (λ y, t ← print_vertex g y; Ret (" " +:+ "--" +:+ " " +:+ t)%string) (_adj x);
    Ret (vertex_print x +:+ nbrs +:+ endl)%string) (vertices g).

(** ** printMatrix *)

(** [vector<vector<string>> rows]: first all [ABSENT], then one [PRESENT] per
    arc. *)
Definition matrix_init (n : Z) : list (list string) :=
  (λ _, (λ _, ABSENT) <$> seqZ 0 n) <$> seqZ 0 n.

Definition matrix_mark (rows : list (list string)) (u v : Z) : outcome (list (list string)) :=
  row ← vget rows u;
  row' ← vset row v PRESENT;
  vset rows u row'.

Definition matrix_rows (g : Graph) : outcome (list (list string)) :=
  foldM (λ rows x,
    foldM (λ rows y, xv ← vertex g y; matrix_mark rows (index x) (index xv)) rows (_adj x))
    (matrix_init (numVertices g)) (vertices g).

(** A negative number of vertices is a [size_t] for which there is no memory. *)
Definition printMatrix (g : Graph) : outcome string :=
  if decide (numVertices g < 0) then Throw "std::bad_alloc" else
  let cols := seqZ 0 (numVertices g) in
  rows ← matrix_rows g;
  header ← print_each (λ j, t ← print_vertex g j; Ret (setw 3 t +:+ " ")%string) cols;
  border ← print_each (λ _, Ret "----") cols;
  grid ← print_each (λ i,
    t ← print_vertex g i;
    row ← vget rows i;
    cells ← print_each (λ j, c ← vget row j; Ret ("  " +:+ c +:+ " ")%string) cols;
    Ret (setw 3 t +:+ " | " +:+ cells +:+ endl)%string) cols;
  Ret ("      " +:+ header +:+ endl +:+ "    +" +:+ border +:+ "-" +:+ endl +:+ grid)%string.

(** ** Edge generators *)

(** [rand_args i]: the values of the two calls of [rand()] that make the
    arguments [u] and [v] of iteration [i]; the order in which C++ evaluates
    them is unspecified, so either may be the first draw. *)
Definition addEdgesRandom (rand_args : Z → Z * Z) (g : Graph) (N : Z) : outcome Graph :=
  for_range 0 N (λ g i,
    if decide (numVertices g = 0) then Undef
    else addEdge g (Z.rem (rand_args i).1 (numVertices g))
                   (Z.rem (rand_args i).2 (numVertices g))) g.

Definition addEdgesAllConnect (g : Graph) : outcome Graph :=
  let N := numVertices g in
  for_range 0 N (λ g i,
    for_range 0 N (λ g j, if decide (i ≠ j) then addEdge g i j else Ret g) g) g.

(** ** Examples: the graph of graph_creation_tests.cpp and its printings *)
Definition graph3 : outcome Graph :=
  g ← addEdge (Graph_new 3 GRAPHTYPE_DIRECTED) 0 1;
  g ← addEdge g 1 0;
  addEdge g 1 2.

Example graph3_dot :
  (g ← graph3; printDot g DOT_STRICT) =
  Ret ("strict digraph {" +:+ endl +:+ " 0 -> 1" +:+ endl +:+ " 1 -> 0" +:+ endl
       +:+ " 1 -> 2" +:+ endl +:+ "}" +:+ endl)%string.
Proof. vm_compute. reflexivity. Qed.

Example graph3_structure :
  (g ← graph3; printStructure g) =
  Ret ("0 -- 1" +:+ endl +:+ "1 -- 0 -- 2" +:+ endl +:+ "2" +:+ endl)%string.
Proof. vm_compute. reflexivity. Qed.

Example graph3_matrix :
  (g ← graph3; printMatrix g) =
  Ret ("        0   1   2 " +:+ endl +:+ "    +-------------" +:+ endl
       +:+ "  0 |       *     " +:+ endl +:+ "  1 |   *       * " +:+ endl
       +:+ "  2 |             " +:+ endl)%string.
Proof. vm_compute. reflexivity. Qed.

(** ** Helper lemmas *)
(** The pairs the two loops of [addEdgesAllConnect] go through. *)
Definition all_pairs (N : Z) : list (Z * Z) :=
  seqZ 0 N ≫= λ i, pair i <$> filter (λ j, i ≠ j) (seqZ 0 N).

Lemma elem_of_all_pairs N a b : (a, b) ∈ all_pairs N ↔ 0 ≤ a < N ∧ 0 ≤ b < N ∧ a ≠ b.
Proof.
  unfold all_pairs. rewrite list_elem_of_bind. split.
  - intros (i & (j & [= -> ->] & [Hij Hj]%list_elem_of_filter)%list_elem_of_fmap & Hi).
    apply elem_of_seqZ in Hi, Hj. lia.
  - intros (Ha & Hb & Hab). exists a. split; [|apply elem_of_seqZ; lia].
    apply list_elem_of_fmap. exists b. split; [done|].
    apply list_elem_of_filter. split; [done|]. apply elem_of_seqZ. lia.
Qed.

Lemma addEdgesAllConnect_pairs g :
  addEdgesAllConnect g = foldM (λ g e, addEdge g e.1 e.2) g (all_pairs (numVertices g)).
Proof.
  unfold addEdgesAllConnect, for_range, all_pairs. rewrite <-foldM_bind, Z.sub_0_r.
  apply foldM_ext. intros g' i.
  rewrite <-(foldM_fmap (λ g e, addEdge g e.1 e.2)). cbn.
  by rewrite <-(foldM_filter (λ s x, addEdge s i x)).
Qed.

(** ** Theorems *)

(** [addEdgesAllConnect] turns an empty graph, directed or not, into the
    complete graph without self loops. *)
Theorem addEdgesAllConnect_complete n dir :
  0 ≤ n ≤ INT_MAX →
  returns (addEdgesAllConnect (Graph_new n dir)) (λ g',
    graph_wf g' ∧ graph_sym g' ∧ V g' = n ∧
    ∀ a b, edge g' a b ↔ 0 ≤ a < n ∧ 0 ≤ b < n ∧ a ≠ b).
Proof.
  intros Hn. rewrite addEdgesAllConnect_pairs. cbn.
  eapply returns_mono;
    [apply add_edges_list; [by apply Graph_new_wf_aux|apply Graph_new_sym|]|].
  - apply Forall_forall. intros [a b] Hab%elem_of_all_pairs. unfold in_range. cbn. lia.
  - intros g' (Hwf & Hsym & HV & Hd & He). split_and!; try done.
    intros a b. rewrite He, !elem_of_all_pairs. split.
    + intros [[]%Graph_new_edge|?]. lia.
    + intros ?. right. left. lia.
Qed.

Lemma addEdgesAllConnect_complete_witness :
  (0 ≤ 4 ≤ INT_MAX) ∧
  returns (addEdgesAllConnect (Graph_new 4 GRAPHTYPE_UNDIRECTED)) (λ g',
    graph_wf g' ∧ graph_sym g' ∧ V g' = 4 ∧
    ∀ a b, edge g' a b ↔ 0 ≤ a < 4 ∧ 0 ≤ b < 4 ∧ a ≠ b).
Proof.
  split; [unfold INT_MAX; lia|].
  apply (addEdgesAllConnect_complete 4 GRAPHTYPE_UNDIRECTED). unfold INT_MAX. lia.
Defined.

Lemma rem_in_range g r : 0 < V g → 0 ≤ r → in_range g (Z.rem r (V g)).
Proof. intros. unfold in_range. rewrite Z.rem_mod_nonneg by lia. apply Z.mod_pos_bound. lia. Qed.

(** [addEdgesRandom] on a graph with at least one vertex keeps the
    invariants and adds, for each of its [N] iterations, exactly the edge the
    two draws designate; on a graph without vertices the first iteration
    divides by zero. *)
Theorem addEdgesRandom_edges rand_args g N :
  graph_wf g → graph_sym g →
  (∀ i, 0 ≤ (rand_args i).1 ∧ 0 ≤ (rand_args i).2) →
  (0 < V g →
    returns (addEdgesRandom rand_args g N) (λ g',
      graph_wf g' ∧ graph_sym g' ∧ V g' = V g ∧ directed g' = directed g ∧
      ∀ a b, edge g' a b ↔ edge g a b ∨
        ∃ i, 0 ≤ i < N ∧
          let e := (Z.rem (rand_args i).1 (V g), Z.rem (rand_args i).2 (V g)) in
          ((a, b) = e ∨ (directed g = GRAPHTYPE_UNDIRECTED ∧ (b, a) = e)))) ∧
  (V g = 0 → 0 < N → addEdgesRandom rand_args g N = Undef).
Proof.
  intros Hwf Hsym Hrand. split.
  - intros HV. set (arc i := (Z.rem (rand_args i).1 (V g), Z.rem (rand_args i).2 (V g))).
    eapply (returns_mono _ (λ g', graph_wf g' ∧ graph_sym g' ∧ V g' = V g ∧
      directed g' = directed g ∧ ∀ a b, edge g' a b ↔ edge g a b ∨ (a, b) ∈ arc <$> seqZ 0 N ∨
        (directed g = GRAPHTYPE_UNDIRECTED ∧ (b, a) ∈ arc <$> seqZ 0 N))).
    + unfold addEdgesRandom, for_range. rewrite Z.sub_0_r.
      apply (foldM_inv _ (λ pre g', graph_wf g' ∧ graph_sym g' ∧ V g' = V g ∧
        directed g' = directed g ∧ ∀ a b, edge g' a b ↔ edge g a b ∨ (a, b) ∈ arc <$> pre ∨
          (directed g = GRAPHTYPE_UNDIRECTED ∧ (b, a) ∈ arc <$> pre))).
      { split_and!; try done. intros a b. cbn. rewrite !elem_of_nil. tauto. }
      intros pre i post g1 _ (Hwf1 & Hsym1 & HV1 & Hd1 & He1).
      unfold numVertices. rewrite decide_False by lia. rewrite HV1.
      destruct (Hrand i) as [Hr1 Hr2].
      eapply returns_mono; [apply addEdge_edges; [done|done|..]|].
      1,2: unfold in_range; rewrite HV1; by apply rem_in_range.
      intros g2 (Hwf2 & Hsym2 & HV2 & Hd2 & He2). split_and!; try done; try congruence.
      intros a b. rewrite He2, He1, Hd1, fmap_app, !elem_of_app. cbn.
      rewrite !list_elem_of_singleton. unfold arc.
      assert (∀ c d, (b, a) = (c, d) ↔ (a, b) = (d, c)) as -> by (split; congruence). tauto.
    + intros g' (? & ? & ? & ? & He). split_and!; try done. intros a b. rewrite He.
      rewrite !list_elem_of_fmap. cbn. unfold arc. setoid_rewrite elem_of_seqZ.
      split.
      * intros [?|[(i & ? & ?)|[? (i & ? & ?)]]]; [by left|right..]; exists i; split; auto with lia.
      * intros [?|(i & ? & [?|[? ?]])]; [by left|right; left|right; right; split; [done|]];
          exists i; split; auto with lia.
  - intros HV HN. unfold addEdgesRandom, for_range. rewrite Z.sub_0_r.
    rewrite seqZ_cons by lia. cbn. unfold numVertices. by rewrite decide_True.
Qed.

Lemma addEdgesRandom_edges_witness :
  let g := Graph_new 3 GRAPHTYPE_UNDIRECTED in
  graph_wf g ∧ graph_sym g ∧ 0 < V g ∧
  returns (addEdgesRandom (λ i, (Z.abs (7 * i), Z.abs (5 * i))) g 4) (λ g', graph_wf g' ∧ edge g' 1 2).
Proof.
  assert (graph_wf (Graph_new 3 GRAPHTYPE_UNDIRECTED)) as Hwf
    by (apply Graph_new_wf_aux; unfold INT_MAX; lia).
  split_and!; [done|apply Graph_new_sym|cbn; lia|].
  eapply returns_mono.
  - apply (addEdgesRandom_edges _ _ _ Hwf (Graph_new_sym _ _)); cbn; lia.
  - intros g' (Hwf' & _ & _ & _ & He). split; [done|]. apply He. right.
    exists 1. split; [lia|]. left. reflexivity.
Defined.

(** ** The adjacency matrix *)
Definition cell (rows : list (list string)) (i j : Z) : outcome string :=
  row ← vget rows i; vget row j.

Definition square (n : Z) (rows : list (list string)) : Prop :=
  Z.of_nat (length rows) = n ∧
  ∀ i row, vget rows i = Ret row → Z.of_nat (length row) = n.

Lemma matrix_init_square n : 0 ≤ n → square n (matrix_init n).
Proof.
  intros Hn. unfold matrix_init. split.
  - rewrite length_fmap, length_seqZ. lia.
  - intros i row [_ ->]%vget_seqZ_fmap. rewrite length_fmap, length_seqZ. lia.
Qed.

Lemma matrix_init_cell n i j : 0 ≤ i < n → 0 ≤ j < n → cell (matrix_init n) i j = Ret ABSENT.
Proof.
  intros Hi Hj. unfold cell, matrix_init.
  destruct (vget_is_Ret ((λ _, (λ _, ABSENT) <$> seqZ 0 n) <$> seqZ 0 n) i) as [row Hrow].
  { rewrite length_fmap, length_seqZ. lia. }
  rewrite Hrow. cbn. apply vget_seqZ_fmap in Hrow as [_ ->].
  destruct (vget_is_Ret ((λ _, ABSENT) <$> seqZ 0 n) j) as [c Hc].
  { rewrite length_fmap, length_seqZ. lia. }
  rewrite Hc. by apply vget_seqZ_fmap in Hc as [_ ->].
Qed.

Lemma matrix_mark_spec n rows u v :
  square n rows → 0 ≤ u < n → 0 ≤ v < n →
  returns (matrix_mark rows u v) (λ rows', square n rows' ∧
    ∀ i j, 0 ≤ i < n → 0 ≤ j < n →
      cell rows' i j = if decide ((i, j) = (u, v)) then Ret PRESENT else cell rows i j).
Proof.
  intros [Hlen Hrow] Hu Hv. unfold matrix_mark.
  destruct (vget_is_Ret rows u) as [row Hr]; [lia|]. rewrite Hr. cbn.
  pose proof (Hrow _ _ Hr) as Hrl.
  rewrite vset_is_Ret by lia. cbn.
  set (row' := <[Z.to_nat v:=PRESENT]> row).
  assert (vset row v PRESENT = Ret row') as Hrow' by (apply vset_is_Ret; lia).
  destruct (vset rows u row') as [rows'| | |] eqn:Hrows';
    try (unfold vset in Hrows'; case_decide; [done|lia]).
  apply returns_Ret. split.
  - split; [by rewrite (vset_length _ _ _ _ Hrows')|].
    intros i r. rewrite (vget_vset _ _ _ _ _ Hrows'). case_decide; intros Hr'.
    + injection Hr' as <-. unfold row'. by rewrite length_insert.
    + by eapply Hrow.
  - intros i j Hi Hj. unfold cell. rewrite (vget_vset _ _ _ _ _ Hrows').
    destruct (decide (u = i)) as [<-|Hne]; cbn.
    + rewrite Hr. cbn. rewrite (vget_vset _ _ _ _ _ Hrow').
      repeat case_decide; simplify_eq; done.
    + by rewrite (decide_False (P := (i, j) = (u, v))) by congruence.
Qed.

Lemma vertex_index g u : graph_wf g → in_range g u → ∃ x, vertex g u = Ret x ∧ index x = u.
Proof.
  intros Hwf Hu. unfold in_range in Hu. rewrite <-(wf_length _ Hwf) in Hu.
  destruct (vget_is_Ret _ _ Hu) as [x Hx]. exists x. split; [done|]. by eapply wf_index.
Qed.

Lemma matrix_rows_arcs g :
  matrix_rows g = foldM (λ rows e, xv ← vertex g e.2; matrix_mark rows e.1 (index xv))
    (matrix_init (numVertices g)) (arcs_by pair (vertices g)).
Proof.
  unfold matrix_rows, arcs_by. rewrite <-foldM_bind. apply foldM_ext. intros rows x.
  unfold vertex_arcs. by rewrite <-foldM_fmap.
Qed.

(** The matrix [printMatrix] prints is the adjacency matrix: it is [V] by
    [V], with [PRESENT] at row [i], column [j] when there is an edge from [i]
    to [j] and [ABSENT] everywhere else. *)
Theorem matrix_rows_adjacency g :
  graph_wf g →
  returns (matrix_rows g) (λ rows, square (V g) rows ∧
    ∀ i j, in_range g i → in_range g j →
      (edge g i j → cell rows i j = Ret PRESENT) ∧
      (¬ edge g i j → cell rows i j = Ret ABSENT)).
Proof.
  intros Hwf. rewrite matrix_rows_arcs. unfold numVertices.
  assert (0 ≤ V g) as HV by apply Hwf.
  set (marked (pre : list (Z * Z)) rows := square (V g) rows ∧
    ∀ i j, in_range g i → in_range g j →
      cell rows i j = if decide ((i, j) ∈ pre) then Ret PRESENT else Ret ABSENT).
  apply (returns_mono _ (marked (arcs_by pair (vertices g)))).
  - apply (foldM_inv _ marked).
    + split; [by apply matrix_init_square|]. intros i j Hi Hj.
      by rewrite matrix_init_cell, decide_False by (done || apply not_elem_of_nil).
    + intros pre [u v] post rows Harcs [Hsq Hcell].
      assert ((u, v) ∈ arcs_by pair (vertices g)) as Huv by (rewrite Harcs; set_solver).
      apply elem_of_arcs in Huv as (u' & v' & [= -> ->] & Huv); [|done].
      pose proof (edge_source _ _ _ Hwf Huv) as Hu. pose proof (wf_range _ Hwf _ _ Huv) as Hv.
      cbn. destruct (vertex_index g v' Hwf Hv) as (x & -> & <-). cbn.
      eapply returns_mono; [by apply matrix_mark_spec|].
      intros rows' [Hsq' Hcell']. split; [done|]. intros i j Hi Hj.
      rewrite Hcell', Hcell by done.
      repeat case_decide; try done; exfalso; set_solver.
  - intros rows [Hsq Hcell]. split; [done|]. intros i j Hi Hj. rewrite Hcell by done.
    assert ((i, j) ∈ arcs_by pair (vertices g) ↔ edge g i j) as Hiff.
    { rewrite elem_of_arcs by done. split; [by intros (? & ? & [= -> ->] & ?)|eauto]. }
    split; intros He; case_decide; tauto.
Qed.

Lemma matrix_rows_adjacency_witness :
  let g := Graph_new 3 GRAPHTYPE_DIRECTED in
  graph_wf g ∧
  returns (matrix_rows g) (λ rows, square 3 rows ∧ cell rows 2 1 = Ret ABSENT).
Proof.
  assert (graph_wf (Graph_new 3 GRAPHTYPE_DIRECTED)) as Hwf
    by (apply Graph_new_wf_aux; unfold INT_MAX; lia).
  split; [done|]. eapply returns_mono; [apply (matrix_rows_adjacency _ Hwf)|].
  intros rows [Hsq Hcell]. split; [done|].
  apply Hcell; [unfold in_range; cbn; lia|unfold in_range; cbn; lia|apply Graph_new_edge].
Defined.
