(* ===== verification/Bfs.v ===== *)
(** * Breadth-first search (pmud/graph/include/BFS.h)

    The search as written, over bounds-checked vectors and a fuelled queue
    loop, and its correctness: distances, predecessors and colours. The loop
    keeps [int& u = Q.front()] across [Q.pop()] and then reads it in
    [color[u] = BLACK]; what such a read through a reference to a popped
    element yields is the parameter [dangling_read]. *)
From S2P Require Import Prelude.
From S2P Require Import Graph.
From S2P Require Import GraphCommon.

Inductive SearchColor := WHITE | GRAY | BLACK.

#[export] Instance SearchColor_eq_dec : EqDecision SearchColor.
Proof. solve_decision. Defined.

(** [SearchData], without the [weak_ptr] to the graph it was computed for. *)
Record SearchData := mkSearchData {
  pi : list Z;
  color : list SearchColor;
  d : list Z
}.

Section search.
Variable dangling_read : Z → outcome Z.

(** The vectors and the initialisation loop. *)
Definition init_vertex (s : Z) (sd : SearchData) (u : Z) : outcome SearchData :=
  if decide (u = s) then Ret sd
  else
    color' ← vset (color sd) u WHITE;
    d' ← vset (d sd) u INT_MAX;
    pi' ← vset (pi sd) u INVALID_VERTEX;
    Ret (mkSearchData pi' color' d').

Definition bfs_init (V s : Z) : outcome SearchData :=
  pi ← vnew V 0;
  color ← vnew V WHITE;
  d ← vnew V 0;
  sd ← for_range 0 V (init_vertex s) (mkSearchData pi color d);
  color' ← vset (Bfs.color sd) s GRAY;
  d' ← vset (Bfs.d sd) s 0;
  pi' ← vset (Bfs.pi sd) s INVALID_VERTEX;
  Ret (mkSearchData pi' color' d').

(** The body of [for (int v : g->vertex(u))]. *)
Definition visit_adj (u : Z) (st : SearchData * list Z) (v : Z) : outcome (SearchData * list Z) :=
  let '(sd, Q) := st in
  c ← vget (color sd) v;
  if decide (c = WHITE) then
    color' ← vset (color sd) v GRAY;
    du ← vget (d sd) u;
    dv ← int_add du 1;
    d' ← vset (d sd) v dv;
    pi' ← vset (pi sd) v u;
    Ret (mkSearchData pi' color' d', Q ++ [v])
  else Ret st.

(** [while (!Q.empty())] *)
Fixpoint bfs_loop (fuel : nat) (g : Graph) (sd : SearchData) (Q : list Z) : outcome SearchData :=
  match Q with
  | [] => Ret sd
  | u :: _ =>
      match fuel with
      | O => NoFuel
      | S fuel =>
          x ← vertex g u;
          '(sd, Q) ← foldM (visit_adj u) (sd, Q) (_adj x);
          u' ← dangling_read u;
          color' ← vset (color sd) u' BLACK;
          bfs_loop fuel g (mkSearchData (pi sd) color' (d sd)) (tail Q)
      end
  end.

(** [graph] is what [graph.lock()] gives. *)
Definition BreadthFirstSearch (fuel : nat) (graph : option Graph) (s : Z) : outcome SearchData :=
  match graph with
  | None => Throw "graph is null"
  | Some g =>
      sd ← bfs_init (numVertices g) s;
      bfs_loop fuel g sd [s]
  end.
End search.

(** ** The invariant of the queue loop *)
Definition cc (sd : SearchData) (v : Z) : SearchColor := vgetd BLACK (color sd) v.
Definition dd (sd : SearchData) (v : Z) : Z := vgetd 0 (d sd) v.
Definition pp (sd : SearchData) (v : Z) : Z := vgetd 0 (pi sd) v.
Definition whites (sd : SearchData) : nat := count_eq WHITE (color sd).

Definition sized (g : Graph) (sd : SearchData) : Prop :=
  Z.of_nat (length (pi sd)) = V g ∧ Z.of_nat (length (color sd)) = V g ∧
  Z.of_nat (length (d sd)) = V g.

Record bfs_inv (g : Graph) (s : Z) (sd : SearchData) (Q : list Z) : Prop := {
  bi_sized : sized g sd;
  bi_src : cc sd s ≠ WHITE ∧ dd sd s = 0 ∧ pp sd s = INVALID_VERTEX;
  bi_white : ∀ v, in_range g v → cc sd v = WHITE → dd sd v = INT_MAX ∧ pp sd v = INVALID_VERTEX;
  bi_tree : ∀ v, in_range g v → cc sd v ≠ WHITE → v ≠ s →
    in_range g (pp sd v) ∧ cc sd (pp sd v) ≠ WHITE ∧ edge g (pp sd v) v ∧
    dd sd v = dd sd (pp sd v) + 1;
  bi_bound : ∀ v, in_range g v → cc sd v ≠ WHITE → 0 ≤ dd sd v ≤ V g - 1 - Z.of_nat (whites sd);
  bi_black : ∀ v w, in_range g v → cc sd v = BLACK → edge g v w →
    cc sd w ≠ WHITE ∧ dd sd w ≤ dd sd v + 1;
  bi_gray : ∀ v, in_range g v → (cc sd v = GRAY ↔ v ∈ Q);
  bi_range : Forall (in_range g) Q;
  bi_nodup : NoDup Q;
  bi_sorted : ∀ i j a b, Q !! i = Some a → Q !! j = Some b → (i ≤ j)%nat → dd sd a ≤ dd sd b;
  bi_front : ∀ u R v, Q = u :: R → in_range g v → cc sd v ≠ WHITE → dd sd v ≤ dd sd u + 1
}.

Section correctness.
Context (g : Graph) (Hwf : graph_wf g) (s : Z) (Hs : in_range g s).

(** A vertex already discovered keeps its colour class and its distance. *)
Definition extends (sd sd' : SearchData) : Prop :=
  ∀ w, cc sd w ≠ WHITE → cc sd' w ≠ WHITE ∧ dd sd' w = dd sd w.

Lemma extends_trans sd1 sd2 sd3 : extends sd1 sd2 → extends sd2 sd3 → extends sd1 sd3.
Proof.
  intros H12 H23 w Hw. destruct (H12 w Hw) as [Hw2 E2].
  destruct (H23 w Hw2) as [Hw3 E3]. split; [done|congruence].
Qed.

(** What discovering the white vertex [v] from [u] changes. *)
Lemma discover_inv sd sd' u v R :
  bfs_inv g s sd (u :: R) → in_range g v → cc sd v = WHITE → edge g u v →
  sized g sd' →
  (∀ w, cc sd' w = if decide (v = w) then GRAY else cc sd w) →
  (∀ w, dd sd' w = if decide (v = w) then dd sd u + 1 else dd sd w) →
  (∀ w, pp sd' w = if decide (v = w) then u else pp sd w) →
  whites sd = S (whites sd') →
  bfs_inv g s sd' (u :: R ++ [v]).
Proof.
  intros I Hv Hvw Huv Hsz Hc Hd Hp Hwh.
  assert (in_range g u) as Hu by (by eapply edge_source).
  assert (cc sd u = GRAY) as Hug by (apply (bi_gray _ _ _ _ I); [done|set_solver]).
  assert (v ≠ u) as Hvu by congruence.
  assert (v ≠ s) as Hvs by (intros ->; by apply (bi_src _ _ _ _ I)).
  assert (∀ w, w ∈ u :: R → v ≠ w) as HvQ.
  { intros w HwQ ->. pose proof (bi_range _ _ _ _ I) as HQ. rewrite Forall_forall in HQ.
    apply (bi_gray _ _ _ _ I) in HwQ; [congruence|by apply HQ]. }
  pose proof (bi_bound _ _ _ _ I u Hu ltac:(congruence)) as Hub.
  split.
  - done.
  - rewrite Hc, Hd, Hp, !decide_False by done. apply I.
  - intros w Hw. rewrite Hc, Hd, Hp. case_decide; [done|]. by apply I.
  - intros w Hw. rewrite (Hc w), (Hp w), (Hd w). case_decide as Hvw'; intros Hcw Hws.
    + subst w. split_and!; try done.
      * rewrite Hc, decide_False by done. congruence.
      * by rewrite Hd, decide_False.
    + destruct (bi_tree _ _ _ _ I w Hw Hcw Hws) as (H1 & H2 & H3 & H4).
      assert (v ≠ pp sd w) by congruence.
      split_and!; try done; rewrite ?Hc, ?Hd, decide_False; done.
  - intros w Hw. rewrite Hc, Hd. case_decide; intros Hcw; [lia|].
    pose proof (bi_bound _ _ _ _ I w Hw Hcw). lia.
  - intros w x Hw Hcw Hwx. rewrite Hc in Hcw. case_decide; [done|].
    destruct (bi_black _ _ _ _ I w x Hw Hcw Hwx) as [Hx Hdx].
    assert (v ≠ x) by congruence. rewrite Hc, !Hd, !decide_False; done.
  - intros w Hw. rewrite Hc. case_decide; [set_solver|].
    rewrite (bi_gray _ _ _ _ I w Hw). set_solver.
  - rewrite app_comm_cons. apply Forall_app. split; [apply I|by apply Forall_singleton].
  - rewrite app_comm_cons. apply NoDup_app. split_and!; [apply I| |apply NoDup_singleton].
    intros w HwQ ->%list_elem_of_singleton. by apply (HvQ v).
  - rewrite app_comm_cons. intros i j a b Ha Hb Hij.
    apply lookup_snoc_Some in Ha as [[Hi Ha]|[-> ->]];
      apply lookup_snoc_Some in Hb as [[Hj Hb]|[-> <-]]; try lia.
    + rewrite !Hd, !decide_False by (by eapply HvQ, list_elem_of_lookup_2).
      by eapply (bi_sorted _ _ _ _ I i j).
    + rewrite (Hd a), decide_False by (by eapply HvQ, list_elem_of_lookup_2).
      rewrite Hd, decide_True by done.
      assert (a ∈ u :: R) as HaQ by (by eapply list_elem_of_lookup_2).
      pose proof (bi_range _ _ _ _ I) as HQ. rewrite Forall_forall in HQ.
      eapply (bi_front _ _ _ _ I); [done|by apply HQ|].
      apply (bi_gray _ _ _ _ I) in HaQ; [congruence|by apply HQ].
  - intros u0 R0 w [= <- <-] Hw. rewrite (Hc w), (Hd w), (Hd u), (decide_False (P:=v = u)) by done.
    case_decide; [lia|]. by eapply (bi_front _ _ _ _ I).
Qed.

Lemma bfs_vget_sized {A} (dft : A) l v :
  Z.of_nat (length l) = V g → in_range g v → vget l v = Ret (vgetd dft l v).
Proof. intros Hl Hv. apply vget_vgetd. unfold in_range in Hv. lia. Qed.

Lemma bfs_vset_sized {A} (l : list A) v x :
  Z.of_nat (length l) = V g → in_range g v → ∃ l', vset l v x = Ret l' ∧ length l' = length l.
Proof.
  intros Hl Hv. unfold in_range in Hv. rewrite vset_is_Ret by lia.
  eexists; split; [done|]. apply length_insert.
Qed.

(** One turn of the inner loop. *)
Lemma visit_adj_inv sd u R v :
  bfs_inv g s sd (u :: R) → edge g u v →
  returns (visit_adj u (sd, u :: R) v) (λ '(sd', Q'),
    (∃ R', Q' = u :: R') ∧ bfs_inv g s sd' Q' ∧ extends sd sd' ∧
    cc sd' v ≠ WHITE ∧ dd sd' v ≤ dd sd' u + 1 ∧ cc sd' u = GRAY ∧
    (whites sd' + length Q' = whites sd + length (u :: R))%nat).
Proof.
  intros I Huv. pose proof (bi_sized _ _ _ _ I) as (Hlp & Hlc & Hld).
  assert (in_range g u) as Hu by (by eapply edge_source).
  assert (in_range g v) as Hv by (by eapply wf_range).
  assert (cc sd u = GRAY) as Hug by (apply (bi_gray _ _ _ _ I); [done|set_solver]).
  unfold visit_adj. rewrite (bfs_vget_sized BLACK (color sd) v) by done. cbn.
  change (vgetd BLACK (color sd) v) with (cc sd v). case_decide as Hvw.
  - destruct (bfs_vset_sized (color sd) v GRAY) as (color' & Hcol & Hcl); [done..|].
    rewrite Hcol. cbn. rewrite (bfs_vget_sized 0 (d sd) u) by done. cbn.
    change (vgetd 0 (d sd) u) with (dd sd u).
    pose proof (bi_bound _ _ _ _ I u Hu ltac:(congruence)) as Hub.
    pose proof (wf_V _ Hwf) as HV.
    rewrite int_add_Ret by (unfold INT_MIN, INT_MAX in *; lia). cbn.
    destruct (bfs_vset_sized (d sd) v (dd sd u + 1)) as (d' & Hd' & Hdl); [done..|].
    destruct (bfs_vset_sized (pi sd) v u) as (pi' & Hpi' & Hpl); [done..|].
    rewrite Hd'. cbn. rewrite Hpi'. cbn. apply returns_Ret.
    set (sd' := mkSearchData pi' color' d').
    assert (∀ w, cc sd' w = if decide (v = w) then GRAY else cc sd w) as Ec
      by (intros w; exact (vgetd_vset BLACK _ _ _ _ w Hcol)).
    assert (∀ w, dd sd' w = if decide (v = w) then dd sd u + 1 else dd sd w) as Ed
      by (intros w; exact (vgetd_vset 0 _ _ _ _ w Hd')).
    assert (∀ w, pp sd' w = if decide (v = w) then u else pp sd w) as Ep
      by (intros w; exact (vgetd_vset 0 _ _ _ _ w Hpi')).
    assert (whites sd = S (whites sd')) as Ew.
    { apply (count_eq_vset WHITE GRAY (color sd) v color'); [|done|done].
      rewrite <-Hvw. by apply bfs_vget_sized. }
    assert (v ≠ u) as Hvu by congruence.
    split_and!.
    + by exists (R ++ [v]).
    + eapply discover_inv; try done. split_and!; cbn; lia.
    + intros w Hw. rewrite Ec, Ed. by case_decide; [congruence|].
    + by rewrite Ec, decide_True.
    + by rewrite !Ed, decide_True, decide_False.
    + by rewrite Ec, decide_False.
    + rewrite length_cons, length_app. cbn [length app]. lia.
  - apply returns_Ret. split_and!; try done.
    + by exists R.
    + by eapply (bi_front _ _ _ _ I).
Qed.

(** The whole inner loop. *)
Lemma visit_all_inv sd u R l :
  bfs_inv g s sd (u :: R) → cc sd u = GRAY → (∀ v, v ∈ l → edge g u v) →
  returns (foldM (visit_adj u) (sd, u :: R) l) (λ '(sd', Q'),
    (∃ R', Q' = u :: R') ∧ bfs_inv g s sd' Q' ∧ cc sd' u = GRAY ∧
    (∀ v, v ∈ l → cc sd' v ≠ WHITE ∧ dd sd' v ≤ dd sd' u + 1) ∧
    (whites sd' + length Q' = whites sd + length (u :: R))%nat).
Proof.
  intros I Hug Hl.
  apply (foldM_inv (visit_adj u) (λ pre '(sd', Q'),
    (∃ R', Q' = u :: R') ∧ bfs_inv g s sd' Q' ∧ cc sd' u = GRAY ∧
    (∀ v, v ∈ pre → cc sd' v ≠ WHITE ∧ dd sd' v ≤ dd sd' u + 1) ∧
    (whites sd' + length Q' = whites sd + length (u :: R))%nat)).
  { split_and!; try done; [by exists R|]. intros v []%elem_of_nil. }
  intros pre v post [sd1 Q1] -> ([R1 ->] & I1 & Hug1 & Hpre & Hcnt).
  eapply returns_mono; [apply visit_adj_inv; [done|apply Hl; set_solver]|].
  intros [sd2 Q2] (HQ & I2 & Hext & Hv1 & Hv2 & Hug2 & Hcnt2).
  split_and!; try done; [|lia].
  intros w [Hw| ->%list_elem_of_singleton]%elem_of_app; [|done].
  destruct (Hpre w Hw) as [Hw1 Hw2]. destruct (Hext w Hw1) as [? ->].
  destruct (Hext u ltac:(congruence)) as [_ ->]. done.
Qed.

(** [Q.pop(); color[u] = BLACK;] once all neighbours are discovered. *)
Lemma pop_inv sd u R color' :
  bfs_inv g s sd (u :: R) →
  (∀ v, edge g u v → cc sd v ≠ WHITE ∧ dd sd v ≤ dd sd u + 1) →
  vset (color sd) u BLACK = Ret color' →
  bfs_inv g s (mkSearchData (pi sd) color' (d sd)) R ∧
  count_eq WHITE color' = whites sd.
Proof.
  intros I Hadj Hcol. pose proof (bi_sized _ _ _ _ I) as (Hlp & Hlc & Hld).
  pose proof (bi_range _ _ _ _ I) as [Hu HR]%Forall_cons.
  assert (cc sd u = GRAY) as Hug by (apply (bi_gray _ _ _ _ I); [done|set_solver]).
  pose proof (bi_nodup _ _ _ _ I) as [HuR HRn]%NoDup_cons.
  set (sd' := mkSearchData (pi sd) color' (d sd)).
  assert (∀ w, cc sd' w = if decide (u = w) then BLACK else cc sd w) as Ec
    by (intros w; exact (vgetd_vset BLACK _ _ _ _ w Hcol)).
  assert (count_eq WHITE color' = whites sd) as Ew.
  { apply (count_eq_vset_other WHITE BLACK GRAY (color sd) u); try done.
    rewrite <-Hug. by apply bfs_vget_sized. }
  assert (∀ w, cc sd' w ≠ WHITE ↔ cc sd w ≠ WHITE) as Enw.
  { intros w. rewrite Ec. case_decide; [|done]. split; congruence. }
  assert (∀ w, dd sd' w = dd sd w) as Ed by done.
  assert (∀ w, pp sd' w = pp sd w) as Ep by done.
  split; [|done]. split.
  - split_and!; cbn; try done. by rewrite (vset_length _ _ _ _ Hcol).
  - rewrite Enw, Ed, Ep. apply I.
  - intros w Hw. rewrite Ec, Ed, Ep. case_decide; [done|]. by apply I.
  - intros w Hw. rewrite !Enw, Ep, !Ed. by apply I.
  - intros w Hw. rewrite Enw, Ed. unfold whites. cbn [color sd']. rewrite Ew. by apply I.
  - intros v w Hv. rewrite Ec, Enw, !Ed. case_decide; subst; [auto|]. by apply I.
  - intros w Hw. rewrite Ec. pose proof (bi_gray _ _ _ _ I w Hw) as Hgray.
    rewrite elem_of_cons in Hgray. case_decide; subst; [done|]. naive_solver.
  - done.
  - done.
  - intros i j a b Ha Hb Hij. rewrite !Ed. apply (bi_sorted _ _ _ _ I (S i) (S j)); [done..|lia].
  - intros w R' v -> Hv. rewrite Enw, !Ed. intros Hvw.
    pose proof (bi_front _ _ _ _ I u _ v eq_refl Hv Hvw).
    pose proof (bi_sorted _ _ _ _ I 0%nat 1%nat u w eq_refl eq_refl). lia.
Qed.

(** The initialisation. *)
Lemma init_vertices_spec V0 pi0 color0 d0 :
  0 ≤ V0 → Z.of_nat (length pi0) = V0 → color0 = replicate (Z.to_nat V0) WHITE →
  Z.of_nat (length d0) = V0 →
  returns (for_range 0 V0 (init_vertex s) (mkSearchData pi0 color0 d0)) (λ sd,
    Z.of_nat (length (pi sd)) = V0 ∧ color sd = color0 ∧ Z.of_nat (length (d sd)) = V0 ∧
    ∀ v, 0 ≤ v < V0 → v ≠ s → dd sd v = INT_MAX ∧ pp sd v = INVALID_VERTEX).
Proof.
  intros HV Hp Hc Hd. unfold for_range. rewrite Z.sub_0_r.
  set (I pre sd := Z.of_nat (length (pi sd)) = V0 ∧ color sd = color0 ∧
    Z.of_nat (length (d sd)) = V0 ∧
    ∀ v, v ∈ (pre : list Z) → v ≠ s → dd sd v = INT_MAX ∧ pp sd v = INVALID_VERTEX).
  eapply (returns_mono _ (I (seqZ 0 V0))).
  - apply (foldM_inv _ I); [split_and!; try done; by intros v ?%elem_of_nil|].
    intros pre u post sd Hseq (H1 & H2 & H3 & H4).
    assert (0 ≤ u < V0) as Hu.
    { assert (u ∈ seqZ 0 V0) as Hin by (rewrite Hseq; set_solver).
      apply elem_of_seqZ in Hin. lia. }
    unfold init_vertex. case_decide as Hus.
    + apply returns_Ret. split_and!; try done. subst.
      intros v [Hv| ->%list_elem_of_singleton]%elem_of_app Hvs; [auto|done].
    + rewrite (vset_is_Ret (color sd)) by (rewrite H2, Hc, length_replicate; lia). cbn.
      destruct (vset (d sd) u INT_MAX) as [d'| | |] eqn:Hd';
        try (unfold vset in Hd'; case_decide; [done|lia]). cbn.
      destruct (vset (pi sd) u INVALID_VERTEX) as [pi'| | |] eqn:Hpi';
        try (unfold vset in Hpi'; case_decide; [done|lia]). cbn.
      apply returns_Ret. split_and!; cbn.
      * by rewrite (vset_length _ _ _ _ Hpi').
      * rewrite H2, Hc. rewrite insert_replicate. done.
      * by rewrite (vset_length _ _ _ _ Hd').
      * intros v Hv Hvs. unfold dd, pp. cbn.
        rewrite (vgetd_vset 0 _ _ _ _ v Hd'), (vgetd_vset 0 _ _ _ _ v Hpi').
        case_decide; [done|]. apply (H4 v); [set_solver|done].
  - intros sd (H1 & H2 & H3 & H4). split_and!; try done.
    intros v Hv Hvs. apply H4; [apply elem_of_seqZ; lia|done].
Qed.

Lemma bfs_init_inv :
  returns (bfs_init (V g) s) (λ sd, bfs_inv g s sd [s] ∧ (whites sd + 1 ≤ Z.to_nat (V g))%nat).
Proof.
  unfold in_range in Hs. unfold bfs_init, vnew. rewrite !decide_False by lia.
  cbn [mbind outcome_bind].
  eapply returns_bind; [apply init_vertices_spec; rewrite ?length_replicate; try done; lia|].
  intros sd (Hp & Hc & Hd & Hinit).
  assert (Z.of_nat (length (color sd)) = V g) as Hcl by (rewrite Hc, length_replicate; lia).
  destruct (bfs_vset_sized (color sd) s GRAY) as (color' & Hcol & Hcl'); [done..|].
  destruct (bfs_vset_sized (d sd) s 0) as (d' & Hd' & Hdl'); [done..|].
  destruct (bfs_vset_sized (pi sd) s INVALID_VERTEX) as (pi' & Hpi' & Hpl'); [done..|].
  rewrite Hcol, Hd', Hpi'. cbn [mbind outcome_bind]. apply returns_Ret.
  set (sd' := mkSearchData pi' color' d').
  assert (∀ w, in_range g w → cc sd' w = if decide (s = w) then GRAY else WHITE) as Ec.
  { intros w Hw. unfold cc. cbn. rewrite (vgetd_vset BLACK _ _ _ _ w Hcol).
    case_decide; [done|]. rewrite Hc. by apply vgetd_Ret, vget_replicate. }
  assert (∀ w, dd sd' w = if decide (s = w) then 0 else dd sd w) as Ed
    by (intros w; exact (vgetd_vset 0 _ _ _ _ w Hd')).
  assert (∀ w, pp sd' w = if decide (s = w) then INVALID_VERTEX else pp sd w) as Ep
    by (intros w; exact (vgetd_vset 0 _ _ _ _ w Hpi')).
  assert (count_eq WHITE (color sd) = S (whites sd')) as Ew.
  { apply (count_eq_vset WHITE GRAY (color sd) s color'); [|done|done].
    rewrite Hc. by apply vget_replicate. }
  pose proof (count_eq_length WHITE (color sd)) as Hcnt.
  assert (∀ w, in_range g w → cc sd' w ≠ WHITE → w = s) as Honly.
  { intros w Hw. rewrite Ec by done. case_decide; congruence. }
  split; [|lia]. split.
  - split_and!; cbn; lia.
  - rewrite Ec, Ed, Ep, !decide_True; done.
  - intros w Hw Hcw. rewrite Ec in Hcw by done. case_decide; [done|].
    rewrite Ed, Ep, !decide_False by done. by apply Hinit.
  - by intros w Hw ->%Honly.
  - intros w Hw ->%Honly; [|done]. rewrite Ed, decide_True by done. lia.
  - intros v w Hv. rewrite Ec by done. by case_decide.
  - intros w Hw. rewrite Ec, list_elem_of_singleton by done. case_decide; naive_solver.
  - by apply Forall_singleton.
  - apply NoDup_singleton.
  - intros i j a b [_ ->]%list_lookup_singleton_Some [_ ->]%list_lookup_singleton_Some. lia.
  - intros u R v [= <- <-] Hv Hvw. rewrite (Honly v Hv Hvw). lia.
Qed.
(** A discovered vertex is reached by a walk as long as its distance. *)
Lemma tree_walk sd Q n v :
  bfs_inv g s sd Q → in_range g v → cc sd v ≠ WHITE → dd sd v = Z.of_nat n → walk g s n v.
Proof.
  intros I. revert v. induction n as [|n IH]; intros v Hv Hc Hd.
  - destruct (decide (v = s)) as [->|Hvs]; [by constructor|]. exfalso.
    destruct (bi_tree _ _ _ _ I v Hv Hc Hvs) as (Hp & Hpc & _ & Hdv).
    pose proof (bi_bound _ _ _ _ I _ Hp Hpc). lia.
  - destruct (decide (v = s)) as [->|Hvs].
    { destruct (bi_src _ _ _ _ I) as (_ & Hd0 & _). lia. }
    destruct (bi_tree _ _ _ _ I v Hv Hc Hvs) as (Hp & Hpc & He & Hdv).
    apply (walk_snoc _ _ _ (pp sd v)); [|done]. apply IH; [done|done|lia].
Qed.

Section loop.
Context (dangling_read : Z → outcome Z).

(** The read after [Q.pop()] does not give the popped vertex [u]. *)
Definition misread (u : Z) : Prop := reachable g s u ∧ dangling_read u ≠ Ret u.

Lemma bfs_loop_inv fuel sd Q :
  bfs_inv g s sd Q → (whites sd + length Q ≤ fuel)%nat →
  (∃ u, misread u) ∨ returns (bfs_loop dangling_read fuel g sd Q) (λ sd', bfs_inv g s sd' []).
Proof.
  revert sd Q. induction fuel as [|fuel IH]; intros sd [|u R] I Hfuel;
    [by right; apply returns_Ret|cbn in Hfuel; lia|by right; apply returns_Ret|].
  pose proof (bi_range _ _ _ _ I) as [Hu HR]%Forall_cons.
  assert (cc sd u = GRAY) as Hug by (apply (bi_gray _ _ _ _ I); [done|set_solver]).
  destruct (decide (dangling_read u = Ret u)) as [Hdr|Hdr].
  2: { left. exists u. split; [|done]. exists (Z.to_nat (dd sd u)).
       pose proof (bi_bound _ _ _ _ I u Hu ltac:(congruence)). apply (tree_walk sd (u :: R)); [done..|congruence|lia]. }
  cbn [bfs_loop]. unfold vertex.
  unfold in_range in Hu. rewrite <-(wf_length _ Hwf) in Hu.
  destruct (vget_is_Ret (vertices g) u Hu) as [x Hx]. rewrite Hx. cbn [mbind outcome_bind].
  assert (adj_of g u = Some (_adj x)) as Hadj by (apply adj_of_Some; eauto).
  destruct (visit_all_inv sd u R (_adj x) I Hug) as ([sd1 Q1] & -> & [R1 ->] & I1 & Hug1 & Hall & Hcnt).
  { intros v Hv. exists (_adj x). done. }
  cbn [mbind outcome_bind]. rewrite Hdr. cbn [mbind outcome_bind].
  destruct (bfs_vset_sized (color sd1) u BLACK) as (color' & Hcol & _).
  { apply (bi_sized _ _ _ _ I1). }
  { unfold in_range. by rewrite <-(wf_length _ Hwf). }
  rewrite Hcol. cbn [mbind outcome_bind].
  destruct (pop_inv sd1 u R1 color' I1) as [I2 Hw2]; [|done|].
  { intros v (l & Hl & Hv). rewrite Hadj in Hl. injection Hl as <-. auto. }
  apply (IH _ _ I2). unfold whites at 1. cbn [color]. rewrite Hw2.
  cbn [length tail] in *. lia.
Qed.

End loop.

(** ** What the final state says *)
Section final.
Context (sd : SearchData) (I : bfs_inv g s sd []).

Lemma final_black v : in_range g v → cc sd v ≠ WHITE → cc sd v = BLACK.
Proof.
  intros Hv Hw. destruct (cc sd v) eqn:E; [done| |done].
  apply (bi_gray _ _ _ _ I v Hv) in E. by apply elem_of_nil in E.
Qed.

Lemma final_walk n v : walk g s n v → cc sd v ≠ WHITE ∧ dd sd v ≤ Z.of_nat n.
Proof.
  induction 1 as [_|n p v Hw [IHc IHd] Hpv].
  - destruct (bi_src _ _ _ _ I) as (? & -> & _). done.
  - assert (in_range g p) as Hp by (by eapply walk_range).
    destruct (bi_black _ _ _ _ I p v Hp (final_black p Hp IHc) Hpv). split; [done|lia].
Qed.

Lemma final_distance v :
  in_range g v → cc sd v ≠ WHITE → distance g s (Z.to_nat (dd sd v)) v.
Proof.
  intros Hv Hc. pose proof (bi_bound _ _ _ _ I v Hv Hc). split.
  - apply (tree_walk sd []); [done..|lia].
  - intros m [_ Hm]%final_walk. lia.
Qed.

Lemma final_tree v :
  in_range g v → cc sd v ≠ WHITE → v ≠ s →
  in_range g (pp sd v) ∧ edge g (pp sd v) v ∧ cc sd (pp sd v) ≠ WHITE ∧
  dd sd v = dd sd (pp sd v) + 1 ∧ 0 ≤ dd sd (pp sd v).
Proof.
  intros Hv Hc Hvs. destruct (bi_tree _ _ _ _ I v Hv Hc Hvs) as (Hp & Hpc & He & Hd).
  pose proof (bi_bound _ _ _ _ I _ Hp Hpc). split_and!; try done; lia.
Qed.
End final.

(** Whatever the read after [Q.pop()] gives. *)
Lemma search_inv dangling_read :
  (∃ u, misread dangling_read u) ∨
  returns (BreadthFirstSearch dangling_read (Z.to_nat (V g)) (Some g) s) (λ sd, bfs_inv g s sd []).
Proof.
  unfold BreadthFirstSearch, numVertices. destruct bfs_init_inv as (sd & -> & I & Hw). cbn [mbind outcome_bind].
  apply bfs_loop_inv; cbn [length]; done || lia.
Qed.

Lemma BreadthFirstSearch_inv dangling_read :
  (∀ u, dangling_read u = Ret u) →
  returns (BreadthFirstSearch dangling_read (Z.to_nat (V g)) (Some g) s)
    (λ sd, bfs_inv g s sd []).
Proof. intros Hdr. destruct (search_inv dangling_read) as [(u & _ & Hu)|?]; [by destruct Hu|done]. Qed.
End correctness.

(** What a search result must say of vertex [v]: a vertex that can be reached
    is black, [d] is its distance from [s] and [pi] a predecessor on a
    shortest walk ([INVALID_VERTEX] for the source); any other vertex is
    white, at [INT_MAX], without predecessor. *)
Definition bfs_answer (g : Graph) (s : Z) (sd : SearchData) (v : Z) : Prop :=
  (∃ n, distance g s n v ∧ vget (d sd) v = Ret (Z.of_nat n) ∧ vget (color sd) v = Ret BLACK ∧
     if decide (v = s) then vget (pi sd) v = Ret INVALID_VERTEX
     else ∃ p m, n = S m ∧ vget (pi sd) v = Ret p ∧ edge g p v ∧ distance g s m p) ∨
  (¬ reachable g s v ∧ vget (d sd) v = Ret INT_MAX ∧ vget (color sd) v = Ret WHITE ∧
     vget (pi sd) v = Ret INVALID_VERTEX).

(** The state the loop ends in is the answer. *)
Lemma final_answer g s sd v :
  graph_wf g → in_range g s → bfs_inv g s sd [] → in_range g v → bfs_answer g s sd v.
Proof.
  intros Hwf Hs I Hv. pose proof (bi_sized _ _ _ _ I) as (Hlp & Hlc & Hld).
  unfold bfs_answer. rewrite (bfs_vget_sized g 0 (d sd)), (bfs_vget_sized g BLACK (color sd)),
    (bfs_vget_sized g 0 (pi sd)) by done.
  fold (cc sd v) (dd sd v) (pp sd v).
  destruct (decide (cc sd v = WHITE)) as [Hw|Hw].
  - right. destruct (bi_white _ _ _ _ I v Hv Hw) as [-> ->]. rewrite Hw.
    split_and!; try done. intros [n Hn].
    by apply (final_walk g Hwf s sd I) in Hn as [? _].
  - left. exists (Z.to_nat (dd sd v)). pose proof (bi_bound _ _ _ _ I v Hv Hw).
    split_and!.
    + by apply (final_distance g Hwf s sd I).
    + rewrite Z2Nat.id; [done|lia].
    + f_equal. by apply (final_black g s sd I).
    + case_decide as Hvs.
      * subst. by destruct (bi_src _ _ _ _ I) as (_ & _ & ->).
      * destruct (final_tree g s sd I v Hv Hw Hvs) as (Hp & He & Hpc & Hdv & Hd0).
        exists (pp sd v), (Z.to_nat (dd sd (pp sd v))). split_and!; try done; [lia|].
        by apply (final_distance g Hwf s sd I).
Qed.

(** [int& u = Q.front()] does not survive [Q.pop()]: when reading through
    the reference is undefined, as it is in C++, so is every search from an
    existing vertex; with a null graph the search throws whatever the
    reference does. *)
Theorem BFS_dangling_undefined dangling_read g s fuel :
  graph_wf g → in_range g s → (∀ u, dangling_read u = Undef) →
  BreadthFirstSearch dangling_read (S fuel) (Some g) s = Undef ∧
  BreadthFirstSearch dangling_read (S fuel) None s = Throw "graph is null".
Proof.
  intros Hwf Hs Hdr. split; [|done]. unfold BreadthFirstSearch.
  destruct (bfs_init_inv g Hwf s Hs) as (sd & Hsd & I & _). unfold numVertices. rewrite Hsd.
  cbn [mbind outcome_bind bfs_loop].
  assert (cc sd s = GRAY) as Hug by (apply (bi_gray _ _ _ _ I); [done|set_solver]).
  destruct (vget_is_Ret (vertices g) s) as [x Hx].
  { unfold in_range in Hs. by rewrite (wf_length _ Hwf). }
  unfold vertex. rewrite Hx. cbn [mbind outcome_bind].
  destruct (visit_all_inv g Hwf s Hs sd s [] (_adj x) I Hug) as ([sd' Q'] & -> & _).
  { intros v Hv. exists (_adj x). split; [|done]. apply adj_of_Some. eauto. }
  cbn [mbind outcome_bind]. by rewrite Hdr.
Qed.

(** C11. Breadth-first search. [color[u] = BLACK] reads [u], a reference to
    the front of the queue, after [Q.pop()] has removed it; as C++ has it,
    this read is undefined, and so is every search from an existing vertex of
    a graph; with a null graph the search throws. That read is also all that
    can go wrong: whatever it gives (a value, or no value, for each vertex),
    either it does not give the popped vertex for some vertex that [s]
    reaches, or the search terminates (fuel [V] is enough, no access is out of
    range, no distance overflows) and its three vectors give for every vertex
    the shortest distance, a shortest-path predecessor and the colour black,
    or say that the vertex cannot be reached. *)
Theorem BFS_shortest_paths g s :
  graph_wf g → in_range g s →
  (BreadthFirstSearch (λ _, Undef) (Z.to_nat (V g)) (Some g) s = Undef ∧
   BreadthFirstSearch (λ _, Undef) (Z.to_nat (V g)) None s = Throw "graph is null") ∧
  ∀ dangling_read,
    (∃ u, reachable g s u ∧ dangling_read u ≠ Ret u) ∨
    returns (BreadthFirstSearch dangling_read (Z.to_nat (V g)) (Some g) s)
      (λ sd, ∀ v, in_range g v → bfs_answer g s sd v).
Proof.
  intros Hwf Hs. split.
  - replace (Z.to_nat (V g)) with (S (Z.to_nat (V g - 1))) by (unfold in_range in Hs; lia).
    by apply BFS_dangling_undefined.
  - intros dangling_read. destruct (search_inv g Hwf s Hs dangling_read) as [?|Hr]; [by left|right].
    eapply returns_mono; [exact Hr|]. intros sd I v Hv. by apply final_answer.
Qed.

Lemma BFS_shortest_paths_witness :
  graph_wf ring_graph ∧ in_range ring_graph 0 ∧
  BreadthFirstSearch (λ _, Undef) 4 (Some ring_graph) 0 = Undef ∧
  returns (BreadthFirstSearch Ret 4 (Some ring_graph) 0)
    (λ sd, bfs_answer ring_graph 0 sd 2 ∧ bfs_answer ring_graph 0 sd 3).
Proof.
  assert (in_range ring_graph 0) as Hr by (unfold in_range; cbn; lia).
  split; [apply ring_graph_wf|]. split; [exact Hr|].
  destruct (BFS_shortest_paths ring_graph 0 ring_graph_wf Hr) as [[Hu _] H]. split; [exact Hu|].
  destruct (H Ret) as [(u & _ & Hne)|Ha]; [by destruct Hne|].
  eapply returns_mono; [exact Ha|]. intros sd Hsd. split; apply Hsd; unfold in_range; cbn; lia.
Defined.

Example BFS_ring :
  BreadthFirstSearch Ret 4 (Some ring_graph) 0 =
  Ret (mkSearchData [-1; 0; 1; -1] [BLACK; BLACK; BLACK; WHITE] [0; 1; 2; INT_MAX]).
Proof. vm_compute. reflexivity. Qed.

Lemma BFS_dangling_undefined_witness :
  graph_wf ring_graph ∧ in_range ring_graph 1 ∧
  BreadthFirstSearch (λ _, Undef) 5 (Some ring_graph) 1 = Undef.
Proof.
  assert (in_range ring_graph 1) as Hr by (unfold in_range; cbn; lia).
  split; [apply ring_graph_wf|]. split; [done|].
  apply (BFS_dangling_undefined (λ _, Undef) ring_graph 1 4 ring_graph_wf Hr).
  reflexivity.
Defined.
