(* ===== verification/PathPrint.v ===== *)
(** * Printing the paths found by breadth-first search

    [printPath] of common.h applied to the predecessors of BFS.h, as
    pmud/graph/application/bfs-search.cpp does: which path is printed, on
    which stream, and that the recursion ends. *)
From S2P Require Import Prelude.
From S2P Require Import Graph.
From S2P Require Import GraphCommon.
From S2P Require Import Text.
From S2P Require Import Bfs.

(** The text of a path: its labels joined by arrows. *)
Definition path_text (path : list Z) : string :=
  String.concat " -> " ((λ u : Z, pretty u) <$> path).

(** [path] is a walk of [n] edges from [s] to [v]. *)
Definition is_path (g : Graph) (s v : Z) (n : nat) (path : list Z) : Prop :=
  length path = S n ∧ head path = Some s ∧ last path = Some v ∧
  ∀ i a b, path !! i = Some a → path !! S i = Some b → edge g a b.

Lemma is_path_nil g s : is_path g s s 0 [s].
Proof. by split_and!. Qed.

Lemma is_path_snoc g s p v n path :
  is_path g s p n path → edge g p v → is_path g s v (S n) (path ++ [v]).
Proof.
  intros (Hlen & Hhd & Hlast & Hedge) Hpv. split_and!.
  - rewrite length_app, Hlen. cbn. lia.
  - by destruct path.
  - by rewrite last_snoc.
  - intros i a b Ha Hb. apply lookup_snoc_Some in Hb as [[Hi Hb]|[Hi <-]].
    + apply lookup_snoc_Some in Ha as [[_ Ha]|[? _]]; [|lia]. by eapply Hedge.
    + apply lookup_snoc_Some in Ha as [[_ Ha]|[? _]]; [|lia].
      rewrite last_lookup in Hlast. replace (pred (length path)) with i in Hlast by lia. congruence.
Qed.

Lemma path_text_snoc path v :
  path ≠ [] → path_text (path ++ [v]) = (path_text path +:+ " -> " +:+ pretty v)%string.
Proof.
  intros Hp. unfold path_text. rewrite fmap_app. cbn.
  rewrite concat_snoc; [done|]. by destruct path.
Qed.

Lemma text_on_app o w1 w2 : text_on o (w1 ++ w2) = (text_on o w1 +:+ text_on o w2)%string.
Proof. unfold text_on. by rewrite omap_app, concat_app. Qed.

Lemma print_vertex_wf g u : graph_wf g → in_range g u → print_vertex g u = Ret (pretty u).
Proof.
  intros Hwf Hu. destruct (vertex_index g u Hwf Hu) as (x & Hx & Hidx).
  unfold print_vertex. rewrite Hx. cbn. unfold vertex_print.
  rewrite (wf_data _ Hwf _ _ Hx). cbn. by rewrite Hidx.
Qed.

Section printing.
Context (g : Graph) (Hwf : graph_wf g) (s : Z) (Hs : in_range g s)
        (sd : SearchData) (I : bfs_inv g s sd []).

(** The writes of [_printPath]: the last step on [output], the steps before
    it on [cout]. *)
Definition path_writes (output : ostream) (path : list Z) (v : Z) (w : writes) : Prop :=
  match path with
  | [] => False
  | [_] => w = [(output, pretty v)]
  | _ => ∃ w', w = w' ++ [(output, " -> "); (output, pretty v)] ∧
           text_on cout w' = path_text (removelast path) ∧ text_on caller_stream w' = ""
  end.

Lemma path_writes_cout path v w :
  last path = Some v → path_writes cout path v w →
  text_on cout w = path_text path ∧ text_on caller_stream w = "".
Proof.
  intros Hlast Hw. destruct path as [|u [|u' path]]; [done| |].
  - cbn in Hlast, Hw. injection Hlast as ->. by subst w.
  - destruct Hw as (w' & -> & Hc & Ho). rewrite !text_on_app, Hc, Ho. split; [|done].
    assert (u :: u' :: path = removelast (u :: u' :: path) ++ [v]) as ->.
    { rewrite (app_removelast_last 0 (l := u :: u' :: path)) at 1 by done. f_equal. f_equal.
      clear -Hlast. revert u u' Hlast. induction path as [|x path IH]; intros u u' Hlast.
      - cbn in *. congruence.
      - apply (IH u' x). by cbn in Hlast |- *. }
    rewrite removelast_last, path_text_snoc; [done|]. cbn. by destruct path.
Qed.

Lemma print_path_rec_spec n v fuel :
  in_range g v → cc sd v ≠ WHITE → dd sd v = Z.of_nat n → (n < fuel)%nat →
  ∃ path, is_path g s v n path ∧ ∀ output, ∃ w,
    print_path_rec fuel g s v (pi sd) output = Ret w ∧ path_writes output path v w.
Proof.
  revert v fuel. induction n as [|n IH]; intros v [|fuel] Hv Hc Hd Hfuel; try lia.
  - destruct (decide (v = s)) as [->|Hvs].
    + exists [s]. split; [apply is_path_nil|]. intros output.
      cbn. rewrite decide_True by done. rewrite print_vertex_wf by done. cbn. eauto.
    + destruct (final_tree g s sd I v Hv Hc Hvs) as (_ & _ & _ & ? & ?). lia.
  - destruct (decide (v = s)) as [->|Hvs].
    { destruct (bi_src _ _ _ _ I) as (_ & ? & _). lia. }
    destruct (final_tree g s sd I v Hv Hc Hvs) as (Hp & He & Hpc & Hdv & _).
    destruct (IH (pp sd v) fuel Hp Hpc) as (path & Hpath & Hrec); [lia|lia|].
    exists (path ++ [v]). split; [by eapply is_path_snoc|]. intros output.
    destruct (Hrec cout) as (w & Hw & Hpw).
    cbn [print_path_rec]. rewrite decide_False by done.
    rewrite (bfs_vget_sized g 0 (pi sd)) by (done || apply (bi_sized _ _ _ _ I)).
    fold (pp sd v). cbn [mbind outcome_bind].
    rewrite decide_False by (unfold in_range, INVALID_VERTEX in *; lia).
    rewrite Hw. cbn [mbind outcome_bind]. rewrite print_vertex_wf by done.
    cbn [mbind outcome_bind]. eexists. split; [done|].
    destruct Hpath as (Hlen & _ & Hlast & _).
    destruct (path_writes_cout _ _ _ Hlast Hpw) as [Hc1 Hc2].
    destruct path as [|u path]; [done|]. cbn [app path_writes].
    destruct (path ++ [v]) eqn:Epv; [by destruct path|].
    exists w. split_and!; [done| |done]. rewrite Hc1. f_equal.
    rewrite <-Epv, app_comm_cons. by rewrite removelast_last.
Qed.

Lemma path_writes_caller path v w :
  (1 < length path)%nat → path_writes caller_stream path v w →
  text_on caller_stream w = (" -> " +:+ pretty v)%string ∧
  text_on cout w = path_text (removelast path).
Proof.
  intros Hlen Hw. destruct path as [|u [|u' path]]; cbn in Hlen; [lia|lia|].
  destruct Hw as (w' & -> & Hc & Ho). rewrite !text_on_app, Hc, Ho. split; [done|].
  by rewrite append_nil_r.
Qed.
End printing.

(** A search, and the path it found to a vertex that can be reached. *)
Lemma searched_path dangling_read g s v n sd :
  graph_wf g → in_range g s → (∀ u, dangling_read u = Ret u) →
  BreadthFirstSearch dangling_read (Z.to_nat (V g)) (Some g) s = Ret sd →
  distance g s n v →
  ∃ path, is_path g s v n path ∧ ∀ output, ∃ w,
    print_path_rec (Z.to_nat (V g)) g s v (pi sd) output = Ret w ∧ path_writes output path v w.
Proof.
  intros Hwf Hs Hdr Hbfs Hdist.
  destruct (BreadthFirstSearch_inv g Hwf s Hs dangling_read Hdr) as (sd' & Hbfs' & I).
  rewrite Hbfs in Hbfs'. injection Hbfs' as <-.
  assert (in_range g v) as Hv by (eapply walk_range; [done|apply Hdist]).
  destruct (final_walk g Hwf s sd I n v (proj1 Hdist)) as [Hc Hdn].
  pose proof (bi_bound _ _ _ _ I v Hv Hc) as Hb.
  assert (dd sd v = Z.of_nat n) as Hd.
  { pose proof (proj2 Hdist _ (proj1 (final_distance g Hwf s sd I v Hv Hc))). lia. }
  apply (print_path_rec_spec g Hwf s sd I n v); [done|done|done|lia].
Qed.

Lemma printPath_cout fuel g s v n sd path :
  is_path g s v n path →
  (∀ output, ∃ w, print_path_rec fuel g s v (pi sd) output = Ret w ∧ path_writes output path v w) →
  returns (printPath fuel g s v (pi sd) cout) (λ w, text_on cout w = (path_text path +:+ endl)%string).
Proof.
  intros Hpath Hrec. unfold printPath. destruct (Hrec cout) as (w & -> & Hw). cbn. apply returns_Ret.
  destruct (path_writes_cout path v w) as [Hc1 _]; [apply Hpath|done|]. by rewrite text_on_app, Hc1.
Qed.

(** [printPath] after a breadth-first search, on every reachable vertex
    and with fuel [V], terminates and prints a shortest path. To [std::cout]
    it writes the whole path and a newline; to any other stream it writes
    only the last step, because the recursive calls print to [std::cout]. *)
Theorem printPath_shortest dangling_read g s v n sd :
  graph_wf g → in_range g s → (∀ u, dangling_read u = Ret u) →
  BreadthFirstSearch dangling_read (Z.to_nat (V g)) (Some g) s = Ret sd →
  distance g s n v →
  ∃ path, is_path g s v n path ∧
    returns (printPath (Z.to_nat (V g)) g s v (pi sd) cout) (λ w,
      text_on cout w = (path_text path +:+ endl)%string) ∧
    (0 < n → returns (printPath (Z.to_nat (V g)) g s v (pi sd) caller_stream) (λ w,
      text_on caller_stream w = (" -> " +:+ pretty v +:+ endl)%string ∧
      text_on cout w = path_text (removelast path)))%nat.
Proof.
  intros Hwf Hs Hdr Hbfs Hdist.
  destruct (searched_path dangling_read g s v n sd Hwf Hs Hdr Hbfs Hdist) as (path & Hpath & Hrec).
  exists path. split; [done|]. split; [by eapply printPath_cout|].
  intros Hn. unfold printPath. destruct (Hrec caller_stream) as (w & -> & Hw). cbn. apply returns_Ret.
  destruct (path_writes_caller path v w) as [Hc1 Hc2]; [|done|].
  { destruct Hpath as (-> & _). lia. }
  rewrite !text_on_app, Hc1, Hc2. split; [by rewrite <-append_assoc|]. by rewrite append_nil_r.
Qed.

Lemma distance_ring_2 : distance ring_graph 0 2 2.
Proof.
  split.
  - assert (edge ring_graph 0 1) as H01 by (exists [1]; split; [done|set_solver]).
    assert (edge ring_graph 1 2) as H12 by (exists [0; 2]; split; [done|set_solver]).
    refine (walk_snoc _ _ _ 1 _ (walk_snoc _ _ _ 0 _ (walk_nil _ _ _) H01) H12).
    unfold in_range. cbn. lia.
  - assert (∀ v, edge ring_graph 0 v → v = 1) as H0.
    { intros v (l & Hl & Hv). injection Hl as <-. set_solver. }
    intros m Hm. inversion Hm as [|n p v Hp Hpv].
    inversion Hp as [|n' p' v' Hp' Hpv']; subst; [by apply H0 in Hpv|lia].
Qed.

Lemma printPath_shortest_witness :
  graph_wf ring_graph ∧ in_range ring_graph 0 ∧ distance ring_graph 0 2 2 ∧
  ∃ path, is_path ring_graph 0 2 2 path.
Proof.
  assert (in_range ring_graph 0) as Hr by (unfold in_range; cbn; lia).
  split_and!; [apply ring_graph_wf|done|apply distance_ring_2|].
  destruct (printPath_shortest Ret ring_graph 0 2 2
    (mkSearchData [-1; 0; 1; -1] [BLACK; BLACK; BLACK; WHITE] [0; 1; 2; INT_MAX])
    ring_graph_wf Hr (λ _, eq_refl)) as (path & Hpath & _).
  - vm_compute. reflexivity.
  - apply distance_ring_2.
  - by exists path.
Defined.

Example printPath_ring :
  printPath 4 ring_graph 0 2 [-1; 0; 1; -1] caller_stream =
  Ret [(cout, "0"); (cout, " -> "); (cout, "1"); (caller_stream, " -> "); (caller_stream, "2");
       (caller_stream, endl)].
Proof. vm_compute. reflexivity. Qed.
