(* ===== verification/Dfs.v ===== *)
(** * Depth-first search (pmud/graph/include/DFS.h)

    [DFS_Visit] with fuel for its recursion, [DepthFirstSearch], the sorted
    and annotated printers, and the classical properties of the time stamps:
    parenthesis structure, edge classification, the predecessor forest and
    the vertices the first tree covers. *)
From stdpp Require Import sorting.
From S2P Require Import Prelude.
From S2P Require Import Text.
From S2P Require Import Graph.
From S2P Require Import GraphCommon.

Inductive SearchColor := WHITE | GRAY | BLACK.

#[export] Instance SearchColor_eq_dec : EqDecision SearchColor.
Proof. solve_decision. Defined.

(** [SearchData], without the [weak_ptr] to the graph it was computed for. *)
Record SearchData := mkSearchData {
  pi : list Z;
  color : list SearchColor;
  d : list Z;
  f : list Z
}.

(** The body of [for (int v : graph[u])], given the recursive call; the
    reference parameters are threaded as [(time, sd)]. *)
Definition visit_adj (visit : Z → Z * SearchData → outcome (Z * SearchData)) (u : Z)
    (st : Z * SearchData) (v : Z) : outcome (Z * SearchData) :=
  let '(time, sd) := st in
  c ← vget (color sd) v;
  if decide (c = WHITE) then
    pi' ← vset (pi sd) v u;
    visit v (time, mkSearchData pi' (color sd) (d sd) (f sd))
  else Ret st.

Fixpoint DFS_Visit (fuel : nat) (g : Graph) (u : Z) (st : Z * SearchData) : outcome (Z * SearchData) :=
  match fuel with
  | O => NoFuel
  | S fuel =>
      let '(time, sd) := st in
      color' ← vset (color sd) u GRAY;
      d' ← vset (d sd) u time;
      time ← int_add time 1;
      x ← vertex g u;
      '(time, sd) ← foldM (visit_adj (DFS_Visit fuel g) u)
        (time, mkSearchData (pi sd) color' d' (f sd)) (_adj x);
      color' ← vset (color sd) u BLACK;
      f' ← vset (f sd) u time;
      time ← int_add time 1;
      Ret (time, mkSearchData (pi sd) color' (d sd) f')
  end.

Definition dfs_init_vertex (sd : SearchData) (u : Z) : outcome SearchData :=
  color' ← vset (color sd) u WHITE;
  pi' ← vset (pi sd) u (-1);
  d' ← vset (d sd) u (-1);
  f' ← vset (f sd) u (-1);
  Ret (mkSearchData pi' color' d' f').

Definition dfs_init (V : Z) : outcome SearchData :=
  pi ← vnew V 0;
  color ← vnew V WHITE;
  d ← vnew V 0;
  f ← vnew V 0;
  for_range 0 V dfs_init_vertex (mkSearchData pi color d f).

(** The loop over the vertices that the visit of [s] has left. *)
Definition visit_remainder (fuel : nat) (g : Graph) (s : Z) (st : Z * SearchData) (u : Z) : outcome (Z * SearchData) :=
  if decide (u = s) then Ret st
  else
    c ← vget (color st.2) u;
    if decide (c = WHITE) then DFS_Visit fuel g u st else Ret st.

Definition DepthFirstSearch (fuel : nat) (graph : option Graph) (s : Z) : outcome SearchData :=
  match graph with
  | None => Throw "graph is null"
  | Some g =>
      let V := numVertices g in
      sd ← dfs_init V;
      st ← DFS_Visit fuel g s (0, sd);
      st ← for_range 0 V (visit_remainder fuel g s) st;
      Ret st.2
  end.

(** ** Printers *)

(** [std::sort] by the second component. The code's order among equal keys
    is unspecified; the keys of a finished search are distinct
    ([DFS_sorted]), which leaves one result. *)
Fixpoint insert_by_second (p : Z * Z) (l : list (Z * Z)) : list (Z * Z) :=
  match l with
  | [] => [p]
  | q :: l' => if decide (p.2 < q.2) then p :: l else q :: insert_by_second p l'
  end.

Definition sort_by_second (l : list (Z * Z)) : list (Z * Z) := foldr insert_by_second [] l.

Definition sort_by_discovery (source : list Z) : list (Z * Z) :=
  sort_by_second (imap (λ i x, (Z.of_nat i, x)) source).

Definition print_data_vec (g : Graph) (tv : list (Z * Z)) : outcome string :=
  print_each (λ t, x ← print_vertex g t.1;
    Ret ("(" +:+ setw 3 x +:+ "," +:+ setw 3 (pretty t.2) +:+ ") ")%string) tv.

(** [operator<<]; the argument is the graph, when it still exists. *)
Definition SearchData_print (pGraph : option Graph) (data : SearchData) : outcome string :=
  match pGraph with
  | None => Ret ("graph is no longer available." +:+ endl)%string
  | Some g =>
      sd ← print_data_vec g (sort_by_discovery (d data));
      sf ← print_data_vec g (sort_by_discovery (f data));
      sp ← print_each (λ x, p ← vget (pi data) (index x);
        Ret ("(" +:+ setw 3 (vertex_print x) +:+ "," +:+ setw 3 (pretty p) +:+ ") ")%string) (vertices g);
      Ret (" d: " +:+ sd +:+ endl +:+ " f: " +:+ sf +:+ endl +:+ "pi: " +:+ sp)%string
  end.

Definition printDotDfsAnnotate (g : Graph) (strict : DotGraphType) (data : SearchData) : outcome string :=
  labels ← print_each (λ x,
    dx ← vget (d data) (index x); fx ← vget (f data) (index x);
    Ret ("  " +:+ vertex_print x +:+ " [xlabel=" +:+ quote +:+ "(" +:+ pretty dx +:+ ".." +:+ pretty fx
         +:+ ")" +:+ quote +:+ " fontsize=" +:+ quote +:+ "8" +:+ quote +:+ "]" +:+ endl)%string)
    (vertices g);
  edges ← dot_edges "  " g (dot_open g).2;
  Ret (dot_strict strict +:+ (dot_open g).1 +:+ labels +:+ edges +:+ "}" +:+ endl)%string.

(** ** Invariant *)
Definition cc (sd : SearchData) (v : Z) : SearchColor := vgetd BLACK (color sd) v.
Definition dd (sd : SearchData) (v : Z) : Z := vgetd 0 (d sd) v.
Definition ff (sd : SearchData) (v : Z) : Z := vgetd 0 (f sd) v.
Definition pp (sd : SearchData) (v : Z) : Z := vgetd 0 (pi sd) v.
Definition whites (sd : SearchData) : nat := count_eq WHITE (color sd).

Definition sized (g : Graph) (sd : SearchData) : Prop :=
  Z.of_nat (length (pi sd)) = V g ∧ Z.of_nat (length (color sd)) = V g ∧
  Z.of_nat (length (d sd)) = V g ∧ Z.of_nat (length (f sd)) = V g.

(** Two intervals are disjoint or one lies strictly inside the other. *)
Definition nested_or_disjoint (a b a' b' : Z) : Prop :=
  b < a' ∨ b' < a ∨ (a < a' ∧ b' < b) ∨ (a' < a ∧ b < b').

(** [w] was open when [v] was discovered. *)
Definition encloses (sd : SearchData) (w v : Z) : Prop :=
  dd sd w < dd sd v ∧ (cc sd w = GRAY ∨ (cc sd w = BLACK ∧ dd sd v < ff sd w)).

Record dfs_inv (g : Graph) (t : Z) (sd : SearchData) : Prop := {
  di_sized : sized g sd;
  di_time : 0 ≤ t;
  di_gray : ∀ v, in_range g v → cc sd v = GRAY → 0 ≤ dd sd v < t;
  di_black : ∀ v, in_range g v → cc sd v = BLACK →
    0 ≤ dd sd v ∧ dd sd v < ff sd v ∧ ff sd v < t;
  di_nest : ∀ v w, in_range g v → in_range g w → v ≠ w →
    cc sd v = BLACK → cc sd w = BLACK →
    nested_or_disjoint (dd sd v) (ff sd v) (dd sd w) (ff sd w);
  di_open : ∀ v w, in_range g v → in_range g w → cc sd v = BLACK → cc sd w = GRAY →
    dd sd w < dd sd v ∨ ff sd v < dd sd w;
  di_edge : ∀ v w, in_range g v → cc sd v = BLACK → edge g v w →
    cc sd w ≠ WHITE ∧ dd sd w < ff sd v;
  di_parent : ∀ v, in_range g v → cc sd v ≠ WHITE → pp sd v = -1 ∨
    (in_range g (pp sd v) ∧ cc sd (pp sd v) ≠ WHITE ∧ edge g (pp sd v) v ∧
     dd sd (pp sd v) < dd sd v ∧
     (cc sd (pp sd v) = BLACK → cc sd v = BLACK ∧ ff sd v < ff sd (pp sd v)));
  di_tree : ∀ v w, in_range g v → in_range g w → cc sd v ≠ WHITE → encloses sd w v →
    pp sd v ≠ -1 ∧ (w = pp sd v ∨ dd sd w < dd sd (pp sd v));
  di_desc : ∀ v w, in_range g v → in_range g w → cc sd v = BLACK → cc sd w ≠ WHITE →
    dd sd v < dd sd w → dd sd w < ff sd v → reachable g v w
}.

(** [u] is the vertex most recently made gray. *)
Definition latest_gray (g : Graph) (sd : SearchData) (u : Z) : Prop :=
  ∀ w, in_range g w → cc sd w = GRAY → w ≠ u → dd sd w < dd sd u.

(** The predecessor of a vertex about to be visited: none where no vertex is
    gray, otherwise the latest of them. *)
Definition parent_ready (g : Graph) (sd : SearchData) (v : Z) : Prop :=
  (pp sd v = -1 ∧ ∀ w, in_range g w → cc sd w ≠ GRAY) ∨
  (in_range g (pp sd v) ∧ cc sd (pp sd v) = GRAY ∧ edge g (pp sd v) v ∧ latest_gray g sd (pp sd v)).

(** What a visit leaves alone: the vertices that are not white. *)
Definition keeps (sd sd' : SearchData) : Prop :=
  ∀ w, cc sd w ≠ WHITE →
    cc sd' w = cc sd w ∧ dd sd' w = dd sd w ∧ ff sd' w = ff sd w ∧ pp sd' w = pp sd w.

Lemma keeps_trans sd1 sd2 sd3 : keeps sd1 sd2 → keeps sd2 sd3 → keeps sd1 sd3.
Proof.
  intros H12 H23 w Hw. destruct (H12 w Hw) as (E1 & E2 & E3 & E4).
  destruct (H23 w) as (F1 & F2 & F3 & F4); [congruence|]. split_and!; congruence.
Qed.

Lemma keeps_color sd1 sd2 w c : keeps sd1 sd2 → c ≠ WHITE → cc sd1 w = c → cc sd2 w = c.
Proof. intros K Hc <-. by destruct (K w Hc) as [-> _]. Qed.

Lemma keeps_nonwhite sd1 sd2 w : keeps sd1 sd2 → cc sd1 w ≠ WHITE → cc sd2 w ≠ WHITE.
Proof. intros K Hc. by destruct (K w Hc) as [-> _]. Qed.

(** A vertex that is not white was discovered before now. *)
Lemma di_seen g t sd v : dfs_inv g t sd → in_range g v → cc sd v ≠ WHITE → dd sd v < t.
Proof.
  intros I Hv Hc. destruct (cc sd v) eqn:E; [done|by apply (di_gray _ _ _ I)|]. pose proof (di_black _ _ _ I v Hv E). lia.
Qed.

(** What is open when a vertex is discovered at [t] is gray, and its parent
    or older. *)
Lemma start_parent {g} t sd u w : dfs_inv g t sd → in_range g w → parent_ready g sd u →
  cc sd w = GRAY ∨ (cc sd w = BLACK ∧ t < ff sd w) →
  pp sd u ≠ -1 ∧ cc sd (pp sd u) = GRAY ∧ (w = pp sd u ∨ dd sd w < dd sd (pp sd u)).
Proof.
  intros I Hw Hpar Hop. assert (cc sd w = GRAY) as Hwg.
  { destruct Hop as [?|[Hb ?]]; [done|]. pose proof (di_black _ _ _ I w Hw Hb). lia. }
  destruct Hpar as [[_ Hno]|(H1 & H2 & _ & Hlast)]; [by destruct (Hno w Hw)|].
  split; [unfold in_range in H1; lia|]. split; [done|].
  destruct (decide (w = pp sd u)); [by left|right; by apply Hlast].
Qed.

Section steps.
Context (g : Graph) (Hwf : graph_wf g).

Lemma dfs_vget_sized {A} (dft : A) l v :
  Z.of_nat (length l) = V g → in_range g v → vget l v = Ret (vgetd dft l v).
Proof. intros Hl Hv. apply vget_vgetd. unfold in_range in Hv. lia. Qed.

Lemma dfs_vset_sized {A} (l : list A) v x :
  Z.of_nat (length l) = V g → in_range g v → ∃ l', vset l v x = Ret l' ∧ length l' = length l.
Proof.
  intros Hl Hv. unfold in_range in Hv. rewrite vset_is_Ret by lia.
  eexists; split; [done|]. apply length_insert.
Qed.

(** Turning the white vertex [u] gray at time [t]. *)
Lemma start_inv t sd sd1 u :
  dfs_inv g t sd → in_range g u → cc sd u = WHITE → parent_ready g sd u →
  sized g sd1 →
  (∀ w, cc sd1 w = if decide (u = w) then GRAY else cc sd w) →
  (∀ w, dd sd1 w = if decide (u = w) then t else dd sd w) →
  (∀ w, ff sd1 w = ff sd w) → (∀ w, pp sd1 w = pp sd w) →
  dfs_inv g (t + 1) sd1.
Proof.
  intros I Hu Huw Hpar Hsz Hc Hd Hf Hp. pose proof (di_time _ _ _ I) as Ht.
  assert (∀ w, cc sd w ≠ WHITE → u ≠ w) as Hne by congruence.
  split; try done; [lia|..].
  - intros v Hv. rewrite Hc, Hd. case_decide; [lia|].
    intros Hcv. pose proof (di_gray _ _ _ I v Hv Hcv). lia.
  - intros v Hv. rewrite Hc, Hd, Hf. case_decide; [done|].
    intros Hcv. pose proof (di_black _ _ _ I v Hv Hcv). lia.
  - intros v w Hv Hw Hvw. rewrite !Hc, !Hd, !Hf. repeat case_decide; try done.
    by apply (di_nest _ _ _ I).
  - intros v w Hv Hw. rewrite !Hc, !Hd, !Hf. repeat case_decide; try done.
    + intros Hcv _. pose proof (di_black _ _ _ I v Hv Hcv). lia.
    + by apply (di_open _ _ _ I).
  - intros v w Hv. rewrite !Hc, !Hd, !Hf. case_decide; [done|]. intros Hcv Hvw.
    destruct (di_edge _ _ _ I v w Hv Hcv Hvw) as [Hw1 Hw2].
    by rewrite !decide_False by (by apply Hne).
  - intros v Hv. rewrite (Hc v), Hp. case_decide as Huv.
    + subst v. intros _. destruct Hpar as [[? _]|(H1 & H2 & H3 & _)]; [by left|right].
      assert (u ≠ pp sd u) as Hup by (apply Hne; congruence).
      rewrite !Hc, !Hd, !(decide_False (P := u = pp sd u)) by done.
      rewrite (decide_True (P := u = u)) by done.
      pose proof (di_gray _ _ _ I _ H1 H2).
      split_and!; try done; [congruence|lia|congruence].
    + intros Hcv. destruct (di_parent _ _ _ I v Hv Hcv) as [?|(H1 & H2 & H3 & H4 & H5)];
        [by left|right].
      rewrite !Hc, !Hd, !Hf, !(decide_False (P := u = pp sd v)) by (by apply Hne).
      rewrite !(decide_False (P := u = v)) by done. done.
  - intros v w Hv Hw. unfold encloses. rewrite !Hc, (Hd v), (Hd w), Hf, Hp.
    destruct (decide (u = v)) as [<-|Huv]; intros Hcv [Hlt Hop]; (destruct (decide (u = w)) as [<-|Huw']; [|]).
    + lia.
    + destruct (start_parent t sd u w I Hw Hpar) as (Hn & Hpc & Ht'); [naive_solver|].
      by rewrite Hd, decide_False by (apply Hne; congruence).
    + pose proof (di_seen g t sd v I Hv Hcv). lia.
    + destruct (di_tree _ _ _ I v w Hv Hw Hcv (conj Hlt Hop)) as [Hn Ht'].
      destruct (di_parent _ _ _ I v Hv Hcv) as [?|(_ & Hpc & _)]; [done|].
      by rewrite Hd, decide_False by (by apply Hne).
  - intros v w Hv Hw. rewrite !Hc, !Hd, Hf. repeat case_decide; try done.
    + intros Hcv _ _. pose proof (di_black _ _ _ I v Hv Hcv). lia.
    + by apply (di_desc _ _ _ I).
Qed.

(** Turning the gray vertex [u] black at time [t], when it is the vertex
    most recently made gray and none of its neighbours is white. *)
Lemma finish_inv t sd sd1 u :
  dfs_inv g t sd → in_range g u → cc sd u = GRAY →
  latest_gray g sd u →
  (∀ w, edge g u w → cc sd w ≠ WHITE) →
  (∀ w, in_range g w → cc sd w ≠ WHITE → dd sd u < dd sd w → reachable g u w) →
  sized g sd1 →
  (∀ w, cc sd1 w = if decide (u = w) then BLACK else cc sd w) →
  (∀ w, dd sd1 w = dd sd w) →
  (∀ w, ff sd1 w = if decide (u = w) then t else ff sd w) →
  (∀ w, pp sd1 w = pp sd w) →
  dfs_inv g (t + 1) sd1.
Proof.
  intros I Hu Hug Hlast Hadj Hdesc Hsz Hc Hd Hf Hp. pose proof (di_time _ _ _ I) as Ht.
  pose proof (di_gray _ _ _ I u Hu Hug) as Hdu.
  assert (∀ w, in_range g w → cc sd w ≠ WHITE → dd sd w < t) as Hlt.
  { intros w Hw Hcw. destruct (cc sd w) eqn:E; [done|by apply (di_gray _ _ _ I)|].
    pose proof (di_black _ _ _ I w Hw E). lia. }
  split; try done; [lia|..].
  - intros v Hv. rewrite Hc, Hd. case_decide; [done|].
    intros Hcv. pose proof (di_gray _ _ _ I v Hv Hcv). lia.
  - intros v Hv. rewrite Hc, Hd, Hf. case_decide as Huv; [subst; lia|].
    intros Hcv. pose proof (di_black _ _ _ I v Hv Hcv). lia.
  - intros v w Hv Hw Hvw. rewrite !Hc, !Hd, !Hf. unfold nested_or_disjoint.
    repeat case_decide; subst; try done; intros Hcv Hcw.
    + pose proof (di_open _ _ _ I w v Hw Hv Hcw Hug).
      pose proof (di_black _ _ _ I w Hw Hcw). lia.
    + pose proof (di_open _ _ _ I v w Hv Hw Hcv Hug).
      pose proof (di_black _ _ _ I v Hv Hcv). lia.
    + by apply (di_nest _ _ _ I).
  - intros v w Hv Hw. rewrite !Hc, !Hd, !Hf. repeat case_decide; subst; try done.
    + intros _ Hcw. left. by apply Hlast.
    + by apply (di_open _ _ _ I).
  - intros v w Hv. rewrite !Hc, !Hd, !Hf. intros Hcv Hvw.
    assert (cc sd w ≠ WHITE ∧ dd sd w < if decide (u = v) then t else ff sd v) as [Hw1 Hw2].
    { case_decide; subst.
      - split; [auto|]. apply Hlt; [by eapply wf_range|auto].
      - by apply (di_edge _ _ _ I). }
    split; [by destruct (decide (u = w))|done].
  - intros v Hv Hcv.
    assert (cc sd v ≠ WHITE) as Hcv' by (rewrite Hc in Hcv; case_decide; congruence).
    rewrite Hp. destruct (di_parent _ _ _ I v Hv Hcv') as [?|(H1 & H2 & H3 & H4 & H5)];
      [by left|right].
    rewrite !Hc, !Hd, !Hf. split_and!; try done; [by case_decide|].
    destruct (decide (u = pp sd v)) as [Hup|Hup].
    + intros _. assert (u ≠ v) as Huv by (intros ->; rewrite <-Hup in H4; lia).
      rewrite !(decide_False (P := u = v)) by done.
      assert (cc sd v = BLACK) as Hvb.
      { destruct (cc sd v) eqn:E; [done| |done].
        pose proof (Hlast v Hv E ltac:(congruence)) as Hl. rewrite Hup in Hl. lia. }
      pose proof (di_black _ _ _ I v Hv Hvb). split; [done|]. lia.
    + intros Hpb. destruct (H5 Hpb) as [Hvb Hlt'].
      rewrite !(decide_False (P := u = v)) by congruence. done.
  - intros v w Hv Hw. unfold encloses. rewrite !Hc, !Hd, Hf, Hp. intros Hcv [Hdwv Hop].
    apply (di_tree _ _ _ I v w Hv Hw); [destruct (decide (u = v)); congruence|]. split; [done|].
    destruct (decide (u = w)) as [<-|]; [by left|exact Hop].
  - intros v w Hv Hw Hcv Hcw. rewrite !Hd, Hf.
    assert (cc sd w ≠ WHITE) as Hcw' by (rewrite Hc in Hcw; case_decide; congruence).
    rewrite Hc in Hcv. destruct (decide (u = v)) as [->|]; [auto|].
    by apply (di_desc _ _ _ I).
Qed.

(** Writing the predecessor of a white vertex. *)
Lemma set_pi_inv t sd v u pi' :
  dfs_inv g t sd → in_range g v → cc sd v = WHITE → vset (pi sd) v u = Ret pi' →
  let sd' := mkSearchData pi' (color sd) (d sd) (f sd) in
  dfs_inv g t sd' ∧ keeps sd sd' ∧ pp sd' v = u ∧ ∀ w, w ≠ v → pp sd' w = pp sd w.
Proof.
  intros I Hv Hvw Hpi. set (sd' := mkSearchData pi' (color sd) (d sd) (f sd)).
  assert (∀ w, pp sd' w = if decide (v = w) then u else pp sd w) as Hp
    by (intros w; exact (vgetd_vset 0 _ _ _ _ w Hpi)).
  split_and!.
  - destruct I as [(H1 & H2 & H3 & H4) ? ? ? ? ? ? Hpar Htree ?]. split; try done.
    + split_and!; cbn; try done. by rewrite (vset_length _ _ _ _ Hpi).
    + intros w Hw Hcw. rewrite Hp, decide_False; [by apply Hpar|].
      intros ->. change (cc sd w ≠ WHITE) in Hcw. congruence.
    + intros w x Hw Hx Hcw He. change (cc sd w ≠ WHITE) in Hcw. rewrite Hp, decide_False by congruence.
      by apply Htree.
  - intros w Hw. rewrite Hp, decide_False by congruence. done.
  - by rewrite Hp, decide_True.
  - intros w Hw. by rewrite Hp, decide_False.
Qed.

Lemma reachable_step u v w : edge g u v → reachable g v w → reachable g u w.
Proof.
  intros Huv [n Hn]. induction Hn as [_|n p x Hp [m IH] Hpx].
  - exists 1%nat. apply (walk_snoc _ _ 0 u); [|done]. constructor. by eapply edge_source.
  - exists (S m). by apply (walk_snoc _ _ m p).
Qed.

(** What running from [(t, sd)] to [(t', sd')] on behalf of [u] guarantees:
    the invariant, the vertices left alone, two ticks per new vertex, and
    every new vertex black, reachable from [u] and discovered after [t]. *)
Definition progress (u : Z) (t : Z) (sd : SearchData) (st' : Z * SearchData) : Prop :=
  dfs_inv g st'.1 st'.2 ∧ keeps sd st'.2 ∧ t ≤ st'.1 ∧
  st'.1 + 2 * Z.of_nat (whites st'.2) = t + 2 * Z.of_nat (whites sd) ∧
  (∀ w, cc st'.2 w = WHITE → pp st'.2 w = pp sd w) ∧
  ∀ w, in_range g w → cc sd w = WHITE → cc st'.2 w ≠ WHITE →
    cc st'.2 w = BLACK ∧ reachable g u w ∧ t ≤ dd st'.2 w.

Lemma progress_refl u t sd : dfs_inv g t sd → progress u t sd (t, sd).
Proof. intros I. split_and!; cbn; try done. Qed.

(** Running on behalf of a neighbour [v] after running for [u]. *)
Lemma progress_step u v t sd t1 sd1 st2 :
  progress u t sd (t1, sd1) → progress v t1 sd1 st2 → edge g u v → progress u t sd st2.
Proof.
  intros (I1 & K1 & T1 & C1 & W1 & N1) (I2 & K2 & T2 & C2 & W2 & N2) Huv. cbn in *.
  split_and!; try done; [by eapply keeps_trans|lia|lia| |].
  { intros w Hw. rewrite W2 by done. apply W1.
    destruct (cc sd1 w) eqn:E; [done|exfalso..]; destruct (K2 w); congruence. }
  intros w Hw Hcw Hcw2. destruct (decide (cc sd1 w = WHITE)) as [Hw1|Hw1].
  - destruct (N2 w Hw Hw1 Hcw2) as (H1 & H2 & H3). split_and!; [done| |lia].
    by eapply reachable_step.
  - destruct (N1 w Hw Hcw Hw1) as (H1 & H2 & H3).
    destruct (K2 w Hw1) as (-> & -> & _). done.
Qed.

(** The correctness statement of [DFS_Visit] with a given fuel. *)
Definition visit_correct (visit : Z → Z * SearchData → outcome (Z * SearchData)) (fuel : nat) : Prop :=
  ∀ t sd v, dfs_inv g t sd → in_range g v → cc sd v = WHITE → parent_ready g sd v →
    (whites sd ≤ fuel)%nat → t + 2 * Z.of_nat (whites sd) ≤ INT_MAX →
    returns (visit v (t, sd)) (λ st', progress v t sd st' ∧ cc st'.2 v ≠ WHITE ∧
      dd st'.2 v = t ∧ ff st'.2 v = st'.1 - 1).

Lemma visit_adj_progress visit fuel t sd u v :
  visit_correct visit fuel →
  dfs_inv g t sd → cc sd u = GRAY → latest_gray g sd u → edge g u v →
  (whites sd ≤ fuel)%nat → t + 2 * Z.of_nat (whites sd) ≤ INT_MAX →
  returns (visit_adj visit u (t, sd) v) (λ st', progress v t sd st' ∧ cc st'.2 v ≠ WHITE).
Proof.
  intros Hvisit I Hug Hlast Huv Hfuel Hmax.
  assert (in_range g v) as Hv by (by eapply wf_range).
  unfold visit_adj. rewrite (dfs_vget_sized BLACK (color sd) v) by (done || apply (di_sized _ _ _ I)).
  cbn [mbind outcome_bind]. fold (cc sd v). case_decide as Hvw.
  - destruct (dfs_vset_sized (pi sd) v u) as (pi' & Hpi & _); [apply (di_sized _ _ _ I)|done|].
    rewrite Hpi. cbn [mbind outcome_bind].
    destruct (set_pi_inv t sd v u pi' I Hv Hvw Hpi) as (I' & K' & Hp' & Hpw).
    eapply returns_mono; [apply Hvisit; try done|].
    + right. rewrite Hp'. split_and!; [by eapply edge_source|done..].
    + intros st2 [(I2 & K2 & T2 & C2 & W2 & N2) (Hv2 & _)]. split; [|done].
      split_and!; try done; [by eapply keeps_trans|].
      intros w Hw. rewrite W2 by done. apply Hpw. congruence.
  - apply returns_Ret. split; [by apply progress_refl|done].
Qed.

(** The gray vertices are the same after running for [u]. *)
Lemma progress_latest u x t sd st' : progress u t sd st' → cc sd x = GRAY → latest_gray g sd x → latest_gray g st'.2 x.
Proof.
  intros (_ & K & _ & _ & _ & N) Hx Hlast w Hw Hg Hne. destruct (decide (cc sd w = WHITE)) as [Hww|Hww].
  - destruct (N w Hw Hww) as [? _]; congruence.
  - destruct (K w Hww) as (Ec & -> & _), (K x) as (_ & -> & _); [congruence|]. apply Hlast; congruence.
Qed.

(** The loop over the neighbours. *)
Lemma visit_loop visit fuel t sd u l :
  visit_correct visit fuel →
  dfs_inv g t sd → cc sd u = GRAY → latest_gray g sd u → (∀ v, v ∈ l → edge g u v) →
  (whites sd ≤ fuel)%nat → t + 2 * Z.of_nat (whites sd) ≤ INT_MAX →
  returns (foldM (visit_adj visit u) (t, sd) l) (λ st',
    progress u t sd st' ∧ ∀ v, v ∈ l → cc st'.2 v ≠ WHITE).
Proof.
  intros Hvisit I Hug Hlast Hl Hfuel Hmax.
  apply (foldM_inv _ (λ pre st', progress u t sd st' ∧ ∀ v, v ∈ pre → cc st'.2 v ≠ WHITE)).
  { split; [by apply progress_refl|]. by intros v ?%elem_of_nil. }
  intros pre v post [t1 sd1] -> [P1 Hpre]. pose proof P1 as (I1 & K1 & T1 & C1 & _). cbn in *.
  assert (edge g u v) as Huv by (apply Hl; set_solver).
  eapply returns_mono; [apply (visit_adj_progress visit fuel t1 sd1 u v); try done; try lia|].
  - destruct (K1 u); congruence.
  - by apply (progress_latest u u t sd (t1, sd1) P1).
  - intros [t2 sd2] [P2 Hv2]. split; [by eapply progress_step|].
    intros w [Hw| ->%list_elem_of_singleton]%elem_of_app; [|done].
    destruct P2 as (_ & K2 & _). destruct (K2 w) as [-> _]; auto.
Qed.

(** The statements of [DFS_Visit] before the loop ... *)
Lemma visit_start t sd u :
  dfs_inv g t sd → in_range g u → cc sd u = WHITE → parent_ready g sd u →
  ∃ color1 d1, vset (color sd) u GRAY = Ret color1 ∧ vset (d sd) u t = Ret d1 ∧
    let sd1 := mkSearchData (pi sd) color1 d1 (f sd) in
    dfs_inv g (t + 1) sd1 ∧ keeps sd sd1 ∧ cc sd1 u = GRAY ∧ dd sd1 u = t ∧
    whites sd = S (whites sd1) ∧ ∀ w, w ≠ u → cc sd1 w = cc sd w.
Proof.
  intros I Hu Huw Hpar. pose proof (di_sized _ _ _ I) as (L1 & L2 & L3 & L4).
  destruct (dfs_vset_sized (color sd) u GRAY L2 Hu) as (color1 & Hcol1 & Lc1).
  destruct (dfs_vset_sized (d sd) u t L3 Hu) as (d1 & Hd1 & Ld1).
  exists color1, d1. split_and!; [done|done|]. intros sd1.
  assert (∀ w, cc sd1 w = if decide (u = w) then GRAY else cc sd w) as Ec1
    by (intros w; exact (vgetd_vset BLACK _ _ _ _ w Hcol1)).
  assert (∀ w, dd sd1 w = if decide (u = w) then t else dd sd w) as Ed1
    by (intros w; exact (vgetd_vset 0 _ _ _ _ w Hd1)).
  split_and!.
  - apply (start_inv t sd sd1 u); try done. split_and!; cbn; lia.
  - intros w Hw. rewrite Ec1, Ed1, !decide_False by congruence. done.
  - by rewrite Ec1, decide_True.
  - by rewrite Ed1, decide_True.
  - apply (count_eq_vset WHITE GRAY (color sd) u color1); [|done|done].
    rewrite <-Huw. by apply dfs_vget_sized.
  - intros w Hw. by rewrite Ec1, decide_False.
Qed.

(** ... and those after it. *)
Lemma visit_finish t sd u :
  dfs_inv g t sd → in_range g u → cc sd u = GRAY →
  latest_gray g sd u →
  (∀ w, edge g u w → cc sd w ≠ WHITE) →
  (∀ w, in_range g w → cc sd w ≠ WHITE → dd sd u < dd sd w → reachable g u w) →
  ∃ color1 f1, vset (color sd) u BLACK = Ret color1 ∧ vset (f sd) u t = Ret f1 ∧
    let sd1 := mkSearchData (pi sd) color1 (d sd) f1 in
    dfs_inv g (t + 1) sd1 ∧ cc sd1 u = BLACK ∧ dd sd1 u = dd sd u ∧ ff sd1 u = t ∧
    whites sd1 = whites sd ∧
    ∀ w, w ≠ u → cc sd1 w = cc sd w ∧ dd sd1 w = dd sd w ∧ ff sd1 w = ff sd w ∧ pp sd1 w = pp sd w.
Proof.
  intros I Hu Hug Hlast Hadj Hdesc. pose proof (di_sized _ _ _ I) as (L1 & L2 & L3 & L4).
  destruct (dfs_vset_sized (color sd) u BLACK L2 Hu) as (color1 & Hcol1 & Lc1).
  destruct (dfs_vset_sized (f sd) u t L4 Hu) as (f1 & Hf1 & Lf1).
  exists color1, f1. split_and!; [done|done|]. intros sd1.
  assert (∀ w, cc sd1 w = if decide (u = w) then BLACK else cc sd w) as Ec1
    by (intros w; exact (vgetd_vset BLACK _ _ _ _ w Hcol1)).
  assert (∀ w, ff sd1 w = if decide (u = w) then t else ff sd w) as Ef1
    by (intros w; exact (vgetd_vset 0 _ _ _ _ w Hf1)).
  split_and!.
  - apply (finish_inv t sd sd1 u); try done. split_and!; cbn; lia.
  - by rewrite Ec1, decide_True.
  - done.
  - by rewrite Ef1, decide_True.
  - apply (count_eq_vset_other WHITE BLACK GRAY (color sd) u); try done.
    rewrite <-Hug. by apply dfs_vget_sized.
  - intros w Hw. by rewrite Ec1, Ef1, !decide_False.
Qed.

(** After the loop over the neighbours of [u], discovered at time [t]: the
    other gray vertices were discovered before it, and what was discovered
    after it is reachable from it. *)
Lemma visit_after_loop t sd sd1 u t2 sd2 :
  dfs_inv g t sd → keeps sd sd1 → (∀ w, w ≠ u → cc sd1 w = cc sd w) → progress u (t + 1) sd1 (t2, sd2) → dd sd2 u = t →
  (∀ w, in_range g w → cc sd2 w = GRAY → w ≠ u → dd sd2 w < t) ∧
  (∀ w, in_range g w → cc sd2 w ≠ WHITE → t < dd sd2 w → reachable g u w).
Proof.
  intros I K1 Hoth (_ & K2 & _ & _ & _ & N2) Hdu. cbn [fst snd] in *.
  assert (∀ w, cc sd1 w ≠ WHITE → w ≠ u → cc sd2 w = cc sd w ∧ dd sd2 w = dd sd w) as Hold.
  { intros w Hww Hwu. destruct (K2 w Hww) as (E1 & E2 & _). rewrite Hoth in E1, Hww by done.
    destruct (K1 w Hww) as (_ & E3 & _). split; congruence. }
  split; intros w Hw Hcw; destruct (decide (cc sd1 w = WHITE)) as [Hww|Hww].
  - destruct (N2 w Hw Hww) as [Hb _]; congruence.
  - intros Hwu. destruct (Hold w Hww Hwu) as [E ->]. apply (di_gray _ _ _ I); congruence.
  - intros _. by destruct (N2 w Hw Hww Hcw) as (_ & ? & _).
  - intros Hlt. destruct (decide (w = u)) as [->|Hwu]; [lia|]. destruct (Hold w Hww Hwu) as [E Ed].
    assert (dd sd w < t); [|lia]. destruct (cc sd w) eqn:Ec; [congruence|by apply (di_gray _ _ _ I)|].
    pose proof (di_black _ _ _ I w Hw Ec). lia.
Qed.

Lemma DFS_Visit_correct fuel : visit_correct (DFS_Visit fuel g) fuel.
Proof.
  induction fuel as [|fuel IH]; intros t sd u I Hu Huw Hpar Hfuel Hmax.
  { assert (0 < whites sd)%nat; [|lia]. apply count_eq_elem.
    pose proof (dfs_vget_sized BLACK (color sd) u (proj1 (proj2 (di_sized _ _ _ I))) Hu) as Hvg.
    fold (cc sd u) in Hvg. rewrite Huw in Hvg. apply vget_Ret in Hvg as [_ Hvg].
    by eapply list_elem_of_lookup_2. }
  pose proof (di_time _ _ _ I) as Ht.
  destruct (visit_start t sd u I Hu Huw Hpar)
    as (color1 & d1 & Hcol1 & Hd1 & I1 & K1 & Hug1 & Hdu1 & Hw1 & Hoth1).
  set (sd1 := mkSearchData (pi sd) color1 d1 (f sd)) in *.
  cbn [DFS_Visit]. rewrite Hcol1. cbn [mbind outcome_bind]. rewrite Hd1. cbn [mbind outcome_bind].
  rewrite int_add_Ret by (unfold INT_MIN; lia). cbn [mbind outcome_bind].
  unfold vertex. pose proof Hu as Hu'. unfold in_range in Hu'. rewrite <-(wf_length _ Hwf) in Hu'.
  destruct (vget_is_Ret (vertices g) u Hu') as [x Hx]. rewrite Hx. cbn [mbind outcome_bind].
  assert (adj_of g u = Some (_adj x)) as Hadj by (apply adj_of_Some; eauto).
  eapply returns_bind.
  { apply (visit_loop (DFS_Visit fuel g) fuel (t + 1) sd1 u (_adj x)); try done; try lia.
    - intros w Hw Hgw Hwu. rewrite Hdu1. rewrite Hoth1 in Hgw by done.
      destruct (K1 w) as (_ & -> & _); [congruence|]. by apply (di_gray _ _ _ I).
    - intros v Hv. by exists (_adj x). }
  intros [t2 sd2] [P Hall]. pose proof P as (I2 & K2 & T2 & C2 & W2 & N2). cbn [fst snd] in *.
  destruct (K2 u) as (Hug2 & Hdu2 & _); [congruence|].
  destruct (visit_after_loop t sd sd1 u t2 sd2 I K1 Hoth1 P) as [Hgray Hdesc]; [congruence|].
  destruct (visit_finish t2 sd2 u I2 Hu) as (color3 & f3 & Hcol3 & Hf3 & I3 & Hub & Hdu3 & Hfu3 & Hw3 & Hoth3).
  { congruence. }
  { intros w Hw Hgw Hwu. rewrite Hdu2, Hdu1. by apply Hgray. }
  { intros w (l & Hl & Hin). rewrite Hadj in Hl. injection Hl as <-. auto. }
  { rewrite Hdu2, Hdu1. exact Hdesc. }
  set (sd3 := mkSearchData (pi sd2) color3 (d sd2) f3) in *.
  rewrite Hcol3. cbn [mbind outcome_bind]. rewrite Hf3. cbn [mbind outcome_bind].
  rewrite int_add_Ret by (unfold INT_MIN; lia). cbn [mbind outcome_bind].
  apply returns_Ret. fold sd3. split; [|cbn [fst snd]; split_and!; [congruence|congruence|lia]]. split_and!; cbn [fst snd]; [done| |lia|lia| |].
  - intros w Hw. assert (w ≠ u) as Hwu by congruence. destruct (Hoth3 w Hwu) as (-> & -> & -> & ->).
    by apply (keeps_trans _ _ _ K1 K2).
  - intros w Hw. assert (w ≠ u) as Hwu by congruence.
    destruct (Hoth3 w Hwu) as (Ec & _ & _ & ->). by rewrite W2 by congruence.
  - intros w Hw Hww Hw3'. destruct (decide (w = u)) as [->|Hwu].
    + split_and!; [done| |lia]. exists 0%nat. by constructor.
    + rewrite <-Hoth1 in Hww by done. destruct (Hoth3 w Hwu) as (Ec & Ed & _).
      destruct (N2 w Hw Hww) as (H1 & H2 & H3); [congruence|].
      split_and!; [congruence|done|lia].
Qed.

(** The initial state: every vertex white and without predecessor. *)
Definition all_white (sd : SearchData) : Prop :=
  sized g sd ∧ color sd = replicate (Z.to_nat (V g)) WHITE ∧
  ∀ v, in_range g v → pp sd v = -1.

Lemma dfs_init_spec : returns (dfs_init (V g)) all_white.
Proof.
  pose proof (wf_V _ Hwf) as HV. unfold dfs_init, vnew. rewrite !decide_False by lia.
  cbn [mbind outcome_bind]. unfold for_range. rewrite Z.sub_0_r.
  set (I pre sd := sized g sd ∧ color sd = replicate (Z.to_nat (V g)) WHITE ∧
    ∀ v, v ∈ (pre : list Z) → pp sd v = -1).
  apply (returns_mono _ (I (seqZ 0 (V g)))).
  - apply (foldM_inv _ I).
    { split; [|split; [done|]; by intros v ?%elem_of_nil].
      unfold sized. cbn. rewrite !length_replicate. lia. }
    intros pre u post sd Hseq ((L1 & L2 & L3 & L4) & Hc & Hp).
    assert (in_range g u) as Hu.
    { assert (u ∈ seqZ 0 (V g)) as Hin by (rewrite Hseq; set_solver).
      apply elem_of_seqZ in Hin. unfold in_range. lia. }
    unfold dfs_init_vertex.
    destruct (dfs_vset_sized (color sd) u WHITE L2 Hu) as (c' & Hc' & Lc).
    destruct (dfs_vset_sized (pi sd) u (-1) L1 Hu) as (p' & Hp' & Lp).
    destruct (dfs_vset_sized (d sd) u (-1) L3 Hu) as (d' & Hd' & Ld).
    destruct (dfs_vset_sized (f sd) u (-1) L4 Hu) as (f' & Hf' & Lf).
    rewrite Hc', Hp', Hd', Hf'. cbn [mbind outcome_bind]. apply returns_Ret.
    split; [unfold sized; cbn; lia|split]; cbn.
    + apply vset_Ret in Hc' as [_ ->]. by rewrite Hc, insert_replicate.
    + intros v Hv. unfold pp. cbn. rewrite (vgetd_vset 0 _ _ _ _ v Hp').
      case_decide; [done|]. apply Hp. set_solver.
  - intros sd (Hsz & Hc & Hp). split_and!; try apply Hsz; [done|].
    intros v Hv. apply Hp, elem_of_seqZ. unfold in_range in Hv. lia.
Qed.

Lemma all_white_inv sd :
  all_white sd → dfs_inv g 0 sd ∧ (∀ v, in_range g v → cc sd v = WHITE) ∧
  (whites sd ≤ Z.to_nat (V g))%nat.
Proof.
  intros (Hsz & Hc & Hp).
  assert (∀ v, in_range g v → cc sd v = WHITE) as Hw.
  { intros v Hv. unfold cc. rewrite Hc. by apply vgetd_Ret, vget_replicate. }
  split_and!; [|done|].
  - split; try done; try (intros v Hv; rewrite Hw by done; done);
      intros v w Hv; rewrite Hw by done; done.
  - unfold whites. rewrite Hc. etrans; [apply count_eq_length|]. by rewrite length_replicate.
Qed.

(** A vertex that was not visited has no predecessor. *)
Definition settled (sd : SearchData) : Prop :=
  ∀ v, in_range g v → cc sd v = BLACK ∨ (cc sd v = WHITE ∧ pp sd v = -1).

(** Where the loop over the remaining vertices is after the vertices [pre]. *)
Definition remainder_at (t1 : Z) (sd1 : SearchData) (pre : list Z) (st' : Z * SearchData) : Prop :=
  dfs_inv g st'.1 st'.2 ∧ keeps sd1 st'.2 ∧ t1 ≤ st'.1 ∧
  st'.1 + 2 * Z.of_nat (whites st'.2) = t1 + 2 * Z.of_nat (whites sd1) ∧
  settled st'.2 ∧ (∀ w, w ∈ pre → cc st'.2 w ≠ WHITE) ∧
  (∀ w, in_range g w → cc sd1 w = WHITE → cc st'.2 w ≠ WHITE → t1 ≤ dd st'.2 w).

Lemma remainder_step s t1 sd1 fuel pre u st' :
  cc sd1 s ≠ WHITE → (whites sd1 ≤ fuel)%nat → t1 + 2 * Z.of_nat (whites sd1) ≤ INT_MAX → in_range g u →
  remainder_at t1 sd1 pre st' → returns (visit_remainder fuel g s st' u) (remainder_at t1 sd1 (pre ++ [u])).
Proof.
  intros Hs1 Hfuel Hmax Hu. destruct st' as [t sd]. intros (I & K & T & C & Hbw & Hpre & Hnew). cbn [fst snd] in *.
  unfold visit_remainder. case_decide as Hus.
  { apply returns_Ret. split_and!; try done. subst u.
    intros w [Hw| ->%list_elem_of_singleton]%elem_of_app; [auto|].
    by eapply keeps_nonwhite. }
  cbn [fst snd]. rewrite (dfs_vget_sized BLACK (color sd) u) by (done || apply (di_sized _ _ _ I)).
  cbn [mbind outcome_bind]. fold (cc sd u). case_decide as Huw.
  - eapply returns_mono; [apply (DFS_Visit_correct fuel t sd u); try done; try lia|].
    { left. split; [by destruct (Hbw u Hu) as [?|[_ ?]]; [congruence|]|].
      intros w Hw. destruct (Hbw w Hw) as [?|[? _]]; congruence. }
    intros [t2 sd2] [(I2 & K2 & T2 & C2 & W2 & N2) (Hu2 & _)]. cbn [fst snd] in *.
    split_and!; cbn [fst snd]; try done; [by eapply keeps_trans|lia|lia|..].
    + intros v Hv. destruct (decide (cc sd2 v = WHITE)) as [Hv2|Hv2].
      * right. split; [done|]. rewrite W2 by done.
        destruct (Hbw v Hv) as [Hb|[_ ?]]; [|done].
        by rewrite (keeps_color _ _ v BLACK K2) in Hv2.
      * left. destruct (Hbw v Hv) as [Hb|[Hw _]]; [by eapply keeps_color|].
        by destruct (N2 v Hv Hw Hv2).
    + intros w [Hw| ->%list_elem_of_singleton]%elem_of_app; [|done].
      by eapply keeps_nonwhite, Hpre.
    + intros w Hw Hw1 Hw2. destruct (decide (cc sd w = WHITE)) as [Hws|Hws].
      * destruct (N2 w Hw Hws Hw2) as (_ & _ & ?). lia.
      * destruct (K2 w Hws) as (_ & -> & _). auto.
  - apply returns_Ret. split_and!; try done.
    intros w [Hw| ->%list_elem_of_singleton]%elem_of_app; [auto|done].
Qed.

(** The loop over the remaining vertices, started after the visit of [s];
    every vertex it goes through ends up black. *)
Lemma remainder_inv s t1 sd1 fuel :
  in_range g s → dfs_inv g t1 sd1 → cc sd1 s ≠ WHITE → settled sd1 →
  (whites sd1 ≤ fuel)%nat → t1 + 2 * Z.of_nat (whites sd1) ≤ INT_MAX →
  returns (for_range 0 (V g) (visit_remainder fuel g s) (t1, sd1)) (λ st',
    dfs_inv g st'.1 st'.2 ∧ keeps sd1 st'.2 ∧ t1 ≤ st'.1 ≤ t1 + 2 * Z.of_nat (whites sd1) ∧
    (∀ w, in_range g w → cc st'.2 w = BLACK) ∧
    (∀ w, in_range g w → cc sd1 w = WHITE → t1 ≤ dd st'.2 w)).
Proof.
  intros Hs I1 Hs1 Hbw Hfuel Hmax. unfold for_range. rewrite Z.sub_0_r.
  apply (returns_mono _ (remainder_at t1 sd1 (seqZ 0 (V g)))).
  - apply (foldM_inv _ (remainder_at t1 sd1)).
    { split_and!; try done. intros v []%elem_of_nil. }
    intros pre u post st' Hseq. apply remainder_step; try done.
    assert (u ∈ seqZ 0 (V g)) as Hin by (rewrite Hseq; set_solver).
    apply elem_of_seqZ in Hin. unfold in_range. lia.
  - intros [t sd] (I & K & T & C & Hbw' & Hall & Hnew). cbn [fst snd] in *.
    assert (∀ w, in_range g w → cc sd w ≠ WHITE) as Hnw.
    { intros w Hw. apply Hall, elem_of_seqZ. unfold in_range in Hw. lia. }
    split_and!; try done; try lia.
    + intros w Hw. destruct (Hbw' w Hw) as [?|[? _]]; [done|]. by destruct (Hnw w Hw).
    + auto.
Qed.
End steps.

(** What the result of a depth-first search from [s] satisfies. *)
Record dfs_answer (g : Graph) (s : Z) (sd : SearchData) : Prop := {
  (** every vertex is finished, within two ticks per vertex *)
  da_black : ∀ v, in_range g v → vget (color sd) v = Ret BLACK ∧
    ∃ dv fv, vget (d sd) v = Ret dv ∧ vget (f sd) v = Ret fv ∧ 0 ≤ dv < fv ∧ fv < 2 * V g;
  (** parenthesis structure *)
  da_nest : ∀ v w, in_range g v → in_range g w → v ≠ w →
    nested_or_disjoint (dd sd v) (ff sd v) (dd sd w) (ff sd w);
  (** no edge leads from a finished vertex to one discovered later *)
  da_edge : ∀ v w, edge g v w → dd sd w < ff sd v;
  (** predecessors form a forest of edges, nested like the intervals *)
  da_parent : ∀ v, in_range g v → pp sd v = -1 ∨
    (in_range g (pp sd v) ∧ edge g (pp sd v) v ∧ dd sd (pp sd v) < dd sd v ∧ ff sd v < ff sd (pp sd v));
  (** and it is the forest of the intervals: a vertex whose interval lies
      inside of others has a predecessor, the innermost of these *)
  da_tree : ∀ v w, in_range g v → in_range g w → dd sd w < dd sd v → ff sd v < ff sd w →
    pp sd v ≠ -1 ∧ (w = pp sd v ∨ (dd sd w < dd sd (pp sd v) ∧ ff sd (pp sd v) < ff sd w));
  (** a vertex discovered while another is open is reachable from it *)
  da_desc : ∀ v w, in_range g v → in_range g w →
    dd sd v < dd sd w → dd sd w < ff sd v → reachable g v w;
  (** the first tree covers what [s] can reach *)
  da_first : dd sd s = 0 ∧ (∀ v, in_range g v → (reachable g s v ↔ dd sd v < ff sd s));
  (** one discovery time per vertex *)
  da_length : Z.of_nat (length (d sd)) = V g
}.

Lemma nonwhite_reachable g sd s v :
  (∀ a b, in_range g a → cc sd a = BLACK → edge g a b → cc sd b ≠ WHITE) →
  graph_wf g → (∀ a, in_range g a → cc sd a = BLACK ∨ cc sd a = WHITE) →
  cc sd s = BLACK → reachable g s v → cc sd v = BLACK.
Proof.
  intros Hcl Hwf Hbw Hs [n Hn]. induction Hn as [|n p x Hp IH Hpx]; [done|].
  assert (in_range g p) as Hpr by (by eapply edge_source).
  pose proof (Hcl p x Hpr IH Hpx). destruct (Hbw x); [by eapply wf_range|done|done].
Qed.

(** Once all is black, the predecessor is the innermost interval around. *)
Lemma finished_tree g t sd v w : dfs_inv g t sd → (∀ v, in_range g v → cc sd v = BLACK) →
  in_range g v → in_range g w → dd sd w < dd sd v → ff sd v < ff sd w →
  pp sd v ≠ -1 ∧ (w = pp sd v ∨ (dd sd w < dd sd (pp sd v) ∧ ff sd (pp sd v) < ff sd w)).
Proof.
  intros I B Hv Hw Hd Hf. pose proof (di_black _ _ _ I v Hv (B v Hv)) as Hb.
  assert (cc sd v ≠ WHITE) as Hvw by by rewrite B.
  destruct (di_tree _ _ _ I v w Hv Hw Hvw) as [Hn Ht]; [split; [done|right; split; [auto|lia]]|].
  split; [done|]. destruct Ht as [?|Ht]; [by left|right]. split; [done|].
  destruct (di_parent _ _ _ I v Hv Hvw) as [?|(H1 & _ & _ & H4 & H5)]; [done|].
  destruct (H5 (B _ H1)) as [_ Hpf].
  assert (pp sd v ≠ w) as Hpw by (intros <-; lia).
  pose proof (di_nest _ _ _ I (pp sd v) w H1 Hw Hpw (B _ H1) (B _ Hw)) as Hnest.
  pose proof (di_black _ _ _ I _ H1 (B _ H1)). unfold nested_or_disjoint in Hnest. lia.
Qed.

Lemma dfs_correct g s :
  graph_wf g → in_range g s → 2 * V g ≤ INT_MAX →
  returns (DepthFirstSearch (Z.to_nat (V g)) (Some g) s) (dfs_answer g s).
Proof.
  intros Hwf Hs Hmax. pose proof (wf_V _ Hwf) as HV.
  unfold DepthFirstSearch, numVertices.
  eapply returns_bind; [by apply dfs_init_spec|]. intros sd0 H0.
  destruct (all_white_inv g sd0 H0) as (I0 & W0 & N0). destruct H0 as (_ & _ & P0).
  eapply returns_bind; [apply (DFS_Visit_correct g Hwf (Z.to_nat (V g)) 0 sd0 s); auto; try lia|].
  { left. split; [auto|]. intros w Hw. by rewrite W0. }
  intros [t1 sd1] [(I1 & K1 & T1 & C1 & Wp1 & N1) (Hs1 & Hds & Hfs)]. cbn [fst snd] in *.
  assert (∀ v, in_range g v → cc sd1 v = BLACK ∨ cc sd1 v = WHITE) as Hbw.
  { intros v Hv. destruct (decide (cc sd1 v = WHITE)) as [?|Hv1]; [by right|left].
    by destruct (N1 v Hv (W0 v Hv) Hv1). }
  eapply returns_bind; [apply (remainder_inv g Hwf s t1 sd1); try done; try lia|].
  { intros v Hv. destruct (Hbw v Hv) as [?|Hw]; [by left|right].
    split; [done|]. rewrite Wp1 by done. auto. }
  intros [t2 sd2] (I2 & K2 & T2 & B2 & L2). cbn [fst snd] in *. apply returns_Ret.
  assert (t2 ≤ 2 * V g) as Ht2 by lia.
  assert (cc sd1 s = BLACK) as Hsb by (by destruct (Hbw s Hs)).
  destruct (K2 s Hs1) as (_ & Eds & Efs & _).
  split.
  - intros v Hv. pose proof (di_black _ _ _ I2 v Hv (B2 v Hv)) as Hb.
    destruct (di_sized _ _ _ I2) as (L1 & L2' & L3 & L4).
    split; [rewrite <-(B2 v Hv); exact (dfs_vget_sized g BLACK _ v L2' Hv)|].
    exists (dd sd2 v), (ff sd2 v).
    split; [exact (dfs_vget_sized g 0 _ v L3 Hv)|]. split; [exact (dfs_vget_sized g 0 _ v L4 Hv)|]. lia.
  - intros v w Hv Hw Hvw. apply (di_nest _ _ _ I2); auto.
  - intros v w Hvw. assert (in_range g v) by (by eapply edge_source).
    apply (di_edge _ _ _ I2 v w); auto.
  - intros v Hv. destruct (di_parent _ _ _ I2 v Hv) as [?|(H1 & H2 & H3 & H4 & H5)];
      [by rewrite B2|by left|right].
    split_and!; [done..|]. by apply H5, B2.
  - intros v w Hv Hw. by apply (finished_tree g t2).
  - intros v w Hv Hw. apply (di_desc _ _ _ I2); [done|done|auto|by rewrite B2].
  - split; [congruence|]. intros v Hv. split.
    + intros Hr. assert (cc sd1 v = BLACK) as Hvb.
      { eapply nonwhite_reachable; try done. intros a b Ha Hab He.
        by apply (di_edge _ _ _ I1 a b). }
      destruct (K2 v) as (_ & -> & _); [congruence|]. rewrite Efs, Hfs.
      pose proof (di_black _ _ _ I1 v Hv Hvb). lia.
    + intros Hlt. destruct (decide (cc sd1 v = WHITE)) as [Hvw|Hvw].
      * pose proof (L2 v Hv Hvw). rewrite Efs, Hfs in Hlt. lia.
      * by destruct (N1 v Hv (W0 v Hv) Hvw) as (_ & ? & _).
  - apply (di_sized _ _ _ I2).
Qed.

(** Different vertices have different discovery times. *)
Lemma da_inj_lookup g s sd (Ha : dfs_answer g s sd) (i j : nat) x :
  d sd !! i = Some x → d sd !! j = Some x → i = j.
Proof.
  intros Hi Hj. destruct (decide (i = j)) as [|Hij]; [done|exfalso].
  destruct Ha as [Hb Hn _ _ _ _ _ Hlen]. 
  assert (∀ k, d sd !! k = Some x → in_range g (Z.of_nat k) ∧ dd sd (Z.of_nat k) = x) as Hk.
  { intros k Hk. split; [apply lookup_lt_Some in Hk; unfold in_range; lia|].
    apply vgetd_Ret, vget_Ret. rewrite Nat2Z.id. split; [lia|done]. }
  destruct (Hk i Hi) as [Ri Di], (Hk j Hj) as [Rj Dj].
  specialize (Hn (Z.of_nat i) (Z.of_nat j) Ri Rj ltac:(lia)). unfold nested_or_disjoint in Hn.
  destruct (Hb _ Ri) as (_ & di & fi & Hdi & Hfi & ? & _).
  destruct (Hb _ Rj) as (_ & dj & fj & Hdj & Hfj & ? & _).
  unfold dd, ff in *.
  rewrite (vgetd_Ret 0 _ _ _ Hdi), (vgetd_Ret 0 _ _ _ Hdj), (vgetd_Ret 0 _ _ _ Hfi),
    (vgetd_Ret 0 _ _ _ Hfj) in *. lia.
Qed.

(** ** Main theorems *)

(** C12. On a well-formed graph of at most [INT_MAX / 2] vertices, depth-first
    search from a vertex [s] of it terminates (fuel [V] is enough for the
    recursion, no time stamp overflows, no access is out of range) and its
    result satisfies [dfs_answer]: time stamps nest like parentheses, no edge
    jumps forward in time, the first tree covers exactly what [s] reaches,
    and the predecessors are the forest of the intervals: a vertex has none
    exactly when its interval lies in no other, and otherwise an edge leads to
    it from the vertex with the innermost interval around its own. *)
Theorem DFS_forest g s :
  graph_wf g → in_range g s → 2 * V g ≤ INT_MAX →
  returns (DepthFirstSearch (Z.to_nat (V g)) (Some g) s) (dfs_answer g s).
Proof. apply dfs_correct. Qed.

Lemma DFS_forest_witness :
  graph_wf ring_graph ∧ in_range ring_graph 3 ∧ 2 * V ring_graph ≤ INT_MAX ∧
  returns (DepthFirstSearch 4 (Some ring_graph) 3) (dfs_answer ring_graph 3).
Proof.
  assert (in_range ring_graph 3) as Hr by (vm_compute; intuition discriminate).
  assert (2 * V ring_graph ≤ INT_MAX) as Hm by (vm_compute; discriminate).
  split; [exact ring_graph_wf|]. split; [exact Hr|]. split; [exact Hm|].
  exact (DFS_forest ring_graph 3 ring_graph_wf Hr Hm).
Defined.

(** C27. On an acyclic graph the finishing times are a topological order:
    every edge leads to a vertex that finishes earlier. *)
Theorem DFS_topological g s :
  graph_wf g → in_range g s → 2 * V g ≤ INT_MAX →
  (∀ u v, edge g u v → ¬ reachable g v u) →
  returns (DepthFirstSearch (Z.to_nat (V g)) (Some g) s) (λ sd,
    ∀ u v, edge g u v → ∃ fu fv, vget (f sd) u = Ret fu ∧ vget (f sd) v = Ret fv ∧ fv < fu).
Proof.
  intros Hwf Hs Hmax Hacyc. eapply returns_mono; [by apply dfs_correct|].
  intros sd [Hb Hn He _ _ Hdesc _ _] u v Huv.
  assert (in_range g u) as Hu by (by eapply edge_source).
  assert (in_range g v) as Hv by (by eapply wf_range).
  destruct (Hb u Hu) as (_ & du & fu & Hdu & Hfu & ? & ?).
  destruct (Hb v Hv) as (_ & dv & fv & Hdv & Hfv & ? & ?).
  exists fu, fv. split_and!; [done|done|]. specialize (He u v Huv).
  assert (u ≠ v) as Hne.
  { intros ->. apply (Hacyc v v Huv). exists 0%nat. by constructor. }
  specialize (Hn u v Hu Hv Hne). specialize (Hdesc v u Hv Hu).
  unfold dd, ff in *. rewrite (vgetd_Ret 0 _ _ _ Hdu), (vgetd_Ret 0 _ _ _ Hfu) in *.
  rewrite (vgetd_Ret 0 _ _ _ Hdv), (vgetd_Ret 0 _ _ _ Hfv) in *.
  destruct Hn as [?|[?|[?|[? ?]]]]; try lia.
  destruct (Hacyc u v Huv). apply Hdesc; lia.
Qed.

(** A small acyclic graph: its edges lead to larger vertices. *)
Definition dag_graph : Graph :=
  mkGraph [mkVertex 0 None [1; 2]; mkVertex 1 None [3]; mkVertex 2 None [3]; mkVertex 3 None []]
    4 GRAPHTYPE_DIRECTED.

Lemma dag_graph_wf : graph_wf dag_graph.
Proof.
  apply (build_wf (Graph_new 4 GRAPHTYPE_DIRECTED) [(0, 1); (0, 2); (1, 3); (2, 3)]).
  - apply Graph_new_wf_aux. unfold INT_MAX. lia.
  - apply Graph_new_sym.
  - rewrite !Forall_cons, Forall_nil. unfold in_range. cbn. lia.
  - reflexivity.
Qed.

Lemma dag_graph_edge u v : edge dag_graph u v → u < v.
Proof.
  intros He. pose proof (edge_source _ _ _ dag_graph_wf He) as Hu. unfold in_range in Hu. cbn in Hu.
  destruct He as (l & Hl & Hv).
  assert (u = 0 ∨ u = 1 ∨ u = 2 ∨ u = 3) as [-> | [-> | [-> | ->]]] by lia;
    injection Hl as <-; rewrite ?elem_of_cons, elem_of_nil in Hv; lia.
Qed.

Lemma dag_graph_acyclic u v : edge dag_graph u v → ¬ reachable dag_graph v u.
Proof.
  intros Huv%dag_graph_edge [n Hn].
  assert (v ≤ u); [|lia]. clear Huv.
  induction Hn as [|n p x Hp IH Hpx%dag_graph_edge]; lia.
Qed.

Lemma DFS_topological_witness :
  graph_wf dag_graph ∧ in_range dag_graph 1 ∧ 2 * V dag_graph ≤ INT_MAX ∧
  (∀ u v, edge dag_graph u v → ¬ reachable dag_graph v u) ∧
  returns (DepthFirstSearch 4 (Some dag_graph) 1) (λ sd,
    ∃ f0 f1, vget (f sd) 0 = Ret f0 ∧ vget (f sd) 1 = Ret f1 ∧ f1 < f0).
Proof.
  assert (in_range dag_graph 1) as Hr by (vm_compute; intuition discriminate).
  assert (2 * V dag_graph ≤ INT_MAX) as Hm by (vm_compute; discriminate).
  split; [exact dag_graph_wf|]. split; [exact Hr|]. split; [exact Hm|].
  split; [exact dag_graph_acyclic|].
  eapply returns_mono; [exact (DFS_topological dag_graph 1 dag_graph_wf Hr Hm dag_graph_acyclic)|].
  intros sd H. apply H. exists [1; 2]. split; [reflexivity|]. set_solver.
Defined.

(** ** The sorted output *)
Definition by_second (p q : Z * Z) : Prop := p.2 ≤ q.2.

Lemma insert_by_second_Permutation p l : insert_by_second p l ≡ₚ p :: l.
Proof.
  induction l as [|q l IH]; cbn; [done|]. case_decide; [done|].
  rewrite IH. apply Permutation_swap.
Qed.

Lemma sort_by_second_Permutation l : sort_by_second l ≡ₚ l.
Proof.
  induction l as [|p l IH]; cbn; [done|]. by rewrite insert_by_second_Permutation, IH.
Qed.

Lemma insert_by_second_sorted p l :
  StronglySorted by_second l → StronglySorted by_second (insert_by_second p l).
Proof.
  induction 1 as [|q l Hl IH Hq]; cbn; [by repeat constructor|].
  case_decide as Hpq; constructor; try done.
  - by constructor.
  - constructor; [unfold by_second; lia|]. eapply Forall_impl; [done|].
    unfold by_second. intros; lia.
  - rewrite insert_by_second_Permutation. constructor; [unfold by_second; lia|done].
Qed.

Lemma sort_by_second_sorted l : StronglySorted by_second (sort_by_second l).
Proof. induction l; cbn; [constructor|by apply insert_by_second_sorted]. Qed.

(** [operator<<] lists the vertices of a finished search in the order of
    their time stamps: the list is a permutation of the pairs [(v, d[v])],
    its keys increase strictly, and it is the only such list, so that the
    choice [std::sort] has for equal keys never shows. *)
Theorem DFS_sorted g s :
  graph_wf g → in_range g s → 2 * V g ≤ INT_MAX →
  returns (DepthFirstSearch (Z.to_nat (V g)) (Some g) s) (λ sd,
    sort_by_discovery (d sd) ≡ₚ imap (λ i x, (Z.of_nat i, x)) (d sd) ∧
    ∀ l, l ≡ₚ imap (λ i x, (Z.of_nat i, x)) (d sd) → StronglySorted by_second l →
      l = sort_by_discovery (d sd)).
Proof.
  intros Hwf Hs Hmax. eapply returns_mono; [by apply dfs_correct|]. intros sd Ha.
  split; [apply sort_by_second_Permutation|]. intros l Hl Hsorted.
  assert (∀ p q, p ∈ l → q ∈ l → p.2 = q.2 → p = q) as Hinj.
  { intros p q. rewrite Hl. intros (i & x & -> & Hi)%elem_of_lookup_imap (j & y & -> & Hj)%elem_of_lookup_imap.
    cbn. intros ->. by rewrite (da_inj_lookup g s sd Ha i j y Hi Hj). }
  eapply (StronglySorted_unique_strong by_second); [|done|apply sort_by_second_sorted|].
  - intros p q Hp Hq Hpq Hqp. unfold by_second, sort_by_discovery in *.
    rewrite sort_by_second_Permutation, <-Hl in Hq.
    apply Hinj; [done|done|lia].
  - unfold sort_by_discovery. by rewrite sort_by_second_Permutation.
Qed.

Lemma DFS_sorted_witness :
  graph_wf dag_graph ∧ in_range dag_graph 1 ∧ 2 * V dag_graph ≤ INT_MAX ∧
  returns (DepthFirstSearch 4 (Some dag_graph) 1) (λ sd,
    sort_by_discovery (d sd) ≡ₚ imap (λ i x, (Z.of_nat i, x)) (d sd)).
Proof.
  assert (in_range dag_graph 1) as Hr by (vm_compute; intuition discriminate).
  assert (2 * V dag_graph ≤ INT_MAX) as Hm by (vm_compute; discriminate).
  split; [exact dag_graph_wf|]. split; [exact Hr|]. split; [exact Hm|].
  eapply returns_mono; [exact (DFS_sorted dag_graph 1 dag_graph_wf Hr Hm)|]. by intros sd [H _].
Defined.

(** A null graph is reported as an exception. *)
Lemma DFS_null fuel s : DepthFirstSearch fuel None s = Throw "graph is null".
Proof. done. Qed.

Example DFS_dag :
  DepthFirstSearch 4 (Some dag_graph) 1 =
  Ret (mkSearchData [-1; -1; 0; 1] [BLACK; BLACK; BLACK; BLACK] [4; 0; 5; 1] [7; 3; 6; 2]).
Proof. vm_compute. reflexivity. Qed.
