(* ===== verification/GraphApps.v ===== *)
(** * The graph applications (pmud/graph/application)

    The seven programs: their two arguments, the graph they make, and what
    they print. The draws of [rand()] and the read of BFS.h after [Q.pop()]
    are parameters; output is the text on [std::cout], for dfs-search with
    that on [std::cerr]. *)
From Stdlib Require Import String.
From S2P Require Import Prelude.
From S2P Require Import Text.
From S2P Require Import Options.
From S2P Require Import Graph.
From S2P Require Import GraphCommon.
From S2P Require Import Bfs.
From S2P Require Import PathPrint.
From S2P Require Dfs.

(** [V] and [R]; [V0] is the default. *)
Definition sizes (V0 : Z) (argv : list string) : outcome (Z * Z) :=
  match argv with
  | [_; v] => V ← atoi v; R ← int_mul V 10; Ret (V, R)
  | [_; v; r] => V ← atoi v; R ← atoi r; Ret (V, R)
  | _ => Ret (V0, V0 * 10)
  end.

Section applications.
Context (rand_args : Z → Z * Z) (argv : list string).

(** The graph a program starts from. *)
Definition random_graph (V0 : Z) (dir : GraphType) : outcome Graph :=
  '(V, R) ← sizes V0 argv;
  addEdgesRandom rand_args (Graph_new V dir) R.

(** matrix.cpp *)
Definition matrix_main : outcome string :=
  graph ← random_graph 5 GRAPHTYPE_UNDIRECTED;
  structure ← printStructure graph;
  matrix ← printMatrix graph;
  Ret ("Adjaceny List =>" +:+ endl +:+ endl +:+ structure +:+ endl +:+
       "Adjacency Matrix =>" +:+ endl +:+ endl +:+ matrix)%string.

(** random-connected.cpp *)
Definition random_connected_main : outcome string :=
  graph ← random_graph 5 GRAPHTYPE_UNDIRECTED; printDot graph DOT_STRICT.

(** structure.cpp *)
Definition structure_main : outcome string :=
  graph ← random_graph 5 GRAPHTYPE_UNDIRECTED; printStructure graph.

(** transpose.cpp *)
Definition transpose_main : outcome string :=
  graph ← random_graph 5 GRAPHTYPE_DIRECTED;
  m1 ← printMatrix graph;
  transposed ← transpose graph;
  m2 ← printMatrix transposed;
  Ret (m1 +:+ m2)%string.

(** fully-connected.cpp *)
Definition fully_connected_main : outcome string :=
  V ← match argv with [_; v] => atoi v | _ => Ret 5 end;
  graph ← addEdgesAllConnect (Graph_new V GRAPHTYPE_UNDIRECTED);
  printDot graph DOT_STRICT.

(** bfs-search.cpp *)
Definition bfs_search_main (dangling_read : Z → outcome Z) : outcome string :=
  graph ← random_graph 20 GRAPHTYPE_DIRECTED;
  matrix ← printMatrix graph;
  data ← BreadthFirstSearch dangling_read (Z.to_nat (V graph)) (Some graph) 0;
  let s := 0 in
  v ← int_add (V graph) (-1);
  ts ← print_vertex graph s;
  tv ← print_vertex graph v;
  path ← printPath (Z.to_nat (V graph)) graph s v (pi data) cout;
  Ret (matrix +:+ endl +:+ "Path from " +:+ ts +:+ " to " +:+ tv +:+ " is: " +:+ text_on cout path)%string.

(** dfs-search.cpp: what goes to [std::cout] and to [std::cerr]. *)
Definition dfs_search_main : outcome (string * string) :=
  graph ← random_graph 10 GRAPHTYPE_DIRECTED;
  data ← Dfs.DepthFirstSearch (Z.to_nat (V graph)) (Some graph) 4;
  structure ← printStructure graph;
  search ← Dfs.SearchData_print (Some graph) data;
  dot ← Dfs.printDotDfsAnnotate graph DOT_STRICT data;
  Ret (dot, ("Performed DFS on the graph:" +:+ endl +:+ structure +:+
             "With the following search/traversal data:" +:+ endl +:+ search +:+ endl)%string).
End applications.

(** ** Specification *)

(** The edges the draws designate. *)
Definition drawn (rand_args : Z → Z * Z) (n R : Z) (i j : Z) : bool :=
  bool_decide (Exists (λ k, (i, j) = (Z.rem (rand_args k).1 n, Z.rem (rand_args k).2 n)) (seqZ 0 R)).

Definition each (f : Z → string) (n : Z) : string := String.concat "" (f <$> seqZ 0 n).

(** The matrix of a relation on [0 .. n-1] as text: a header with the
    numbers, a border, and a row for each number. *)
Definition matrix_text (n : Z) (P : Z → Z → bool) : string :=
  ("      " +:+ each (λ j, setw 3 (pretty j) +:+ " ") n +:+ endl +:+
   "    +" +:+ each (λ _, "----") n +:+ "-" +:+ endl +:+
   each (λ i, setw 3 (pretty i) +:+ " | " +:+
     each (λ j, "  " +:+ (if P i j then PRESENT else ABSENT) +:+ " ") n +:+ endl) n)%string.

(** The graph has the drawn edges. *)
Definition drawn_graph (rand_args : Z → Z * Z) (n R : Z) (g : Graph) : Prop :=
  graph_wf g ∧ V g = n ∧ directed g = GRAPHTYPE_DIRECTED ∧
  ∀ i j, edge g i j ↔ drawn rand_args n R i j = true.

(** The arguments give [n] vertices, at least one, and [R] draws, and
    [rand()] is not negative. *)
Definition inputs_ok (V0 : Z) (argv : list string) (rand_args : Z → Z * Z) (n R : Z) : Prop :=
  sizes V0 argv = Ret (n, R) ∧ 0 < n ≤ INT_MAX ∧ ∀ i, 0 ≤ (rand_args i).1 ∧ 0 ≤ (rand_args i).2.

(** ** Lemmas *)
Lemma print_each_spec {A} (f : A → outcome string) (g : A → string) l :
  Forall (λ x, f x = Ret (g x)) l → print_each f l = Ret (String.concat "" (g <$> l)).
Proof.
  unfold print_each. intros Hl.
  assert (∀ out, foldM (λ out x, s ← f x; Ret (out +:+ s)%string) out l =
    Ret (out +:+ String.concat "" (g <$> l))%string) as H; [|by rewrite H].
  induction Hl as [|x l Hx _ IH]; intros out; cbn [foldM]; [by rewrite append_nil_r|].
  rewrite Hx. cbn [mbind outcome_bind]. rewrite IH. f_equal. rewrite <-append_assoc. f_equal.
  change (g <$> x :: l) with ([g x] ++ (g <$> l)). by rewrite concat_app.
Qed.

Lemma print_each_range (f : Z → outcome string) g n :
  (∀ i, 0 ≤ i < n → f i = Ret (g i)) → print_each f (seqZ 0 n) = Ret (each g n).
Proof. intros Hf. apply print_each_spec, Forall_forall. intros i Hi%elem_of_seqZ. apply Hf. lia. Qed.

(** What [printMatrix] prints for a graph with the edges [P]. *)
Lemma printMatrix_text g P :
  graph_wf g → (∀ i j, edge g i j ↔ P i j = true) → printMatrix g = Ret (matrix_text (V g) P).
Proof.
  intros Hwf HP. pose proof (wf_V _ Hwf) as HV. unfold printMatrix, numVertices.
  rewrite decide_False by lia. destruct (matrix_rows_adjacency g Hwf) as (rows & -> & [Hlen Hrow] & Hcell).
  cbn [mbind outcome_bind].
  rewrite (print_each_range (λ j, t ← print_vertex g j; Ret (setw 3 t +:+ " ")%string) (λ j, setw 3 (pretty j) +:+ " ")%string).
  2:{ intros j Hj. rewrite print_vertex_wf by done. done. }
  cbn [mbind outcome_bind]. rewrite (print_each_range (λ _, Ret "----") (λ _, "----")) by done. cbn [mbind outcome_bind].
  rewrite (print_each_range _ (λ i, setw 3 (pretty i) +:+ " | " +:+
     each (λ j, "  " +:+ (if P i j then PRESENT else ABSENT) +:+ " ") (V g) +:+ endl)%string); [done|].
  intros i Hi. rewrite print_vertex_wf by done. cbn [mbind outcome_bind].
  destruct (vget_is_Ret rows i) as [row Er]; [lia|]. rewrite Er. cbn [mbind outcome_bind].
  rewrite (print_each_range _ (λ j, "  " +:+ (if P i j then PRESENT else ABSENT) +:+ " ")%string); [done|].
  intros j Hj. assert (vget row j = Ret (if P i j then PRESENT else ABSENT)) as ->; [|done].
  destruct (Hcell i j Hi Hj) as [H1 H2]. unfold cell in *. rewrite Er in *. cbn [mbind outcome_bind] in *.
  destruct (P i j) eqn:E; [by apply H1, HP|apply H2]. rewrite HP, E. done.
Qed.

Lemma random_graph_drawn V0 argv rand_args n R :
  inputs_ok V0 argv rand_args n R →
  returns (random_graph rand_args argv V0 GRAPHTYPE_DIRECTED) (drawn_graph rand_args n R).
Proof.
  intros (Hsizes & Hn & Hrand). unfold random_graph. rewrite Hsizes. cbn [mbind outcome_bind].
  eapply returns_mono.
  - apply (addEdgesRandom_edges rand_args (Graph_new n GRAPHTYPE_DIRECTED) R);
      [apply Graph_new_wf_aux; lia|apply Graph_new_sym|exact Hrand|cbn; lia].
  - intros g (Hwf & _ & HV & Hd & He). split_and!; [done|done|done|]. intros i j. rewrite He.
    unfold drawn. rewrite bool_decide_eq_true, Exists_exists. setoid_rewrite elem_of_seqZ. split.
    + intros [[]%Graph_new_edge|(k & Hk & [E|[? _]])]; [|done]. exists k. split; [lia|done].
    + intros (k & Hk & E). right. exists k. split; [lia|by left].
Qed.

(** ** Main theorems *)

(** The program transpose prints the adjacency matrix of the graph it has
    drawn and then, for whatever draws and every number of vertices, the
    matrix with rows and columns exchanged. *)
Theorem transpose_program argv rand_args n R :
  inputs_ok 5 argv rand_args n R →
  transpose_main rand_args argv =
    Ret (matrix_text n (drawn rand_args n R) +:+ matrix_text n (λ i j, drawn rand_args n R j i))%string.
Proof.
  intros Hin. unfold transpose_main. destruct (random_graph_drawn _ _ _ _ _ Hin) as (g & -> & Hwf & HV & Hd & He).
  cbn [mbind outcome_bind]. rewrite (printMatrix_text g (drawn rand_args n R)) by done. cbn [mbind outcome_bind].
  destruct (transpose_edges g Hwf) as (g' & -> & Hwf' & HV' & _ & He' & _).
  { intros Hu. by rewrite Hd in Hu. }
  cbn [mbind outcome_bind]. rewrite (printMatrix_text g' (λ i j, drawn rand_args n R j i)).
  - by rewrite HV', HV.
  - done.
  - intros i j. rewrite He'. apply He.
Qed.

(** The program bfs-search, where the read after [Q.pop()] still gives the
    popped vertex, prints the matrix of the graph it has drawn and a shortest
    path from the first vertex to the last, vertex by vertex with arrows
    between them, or says that there is none; it always ends. *)
Theorem bfs_search_program argv rand_args dangling_read n R :
  inputs_ok 20 argv rand_args n R → (∀ u, dangling_read u = Ret u) →
  returns (bfs_search_main rand_args argv dangling_read) (λ out, ∃ g answer,
    drawn_graph rand_args n R g ∧
    out = (matrix_text n (drawn rand_args n R) +:+ endl +:+
           "Path from 0 to " +:+ pretty (n - 1) +:+ " is: " +:+ answer +:+ endl)%string ∧
    ((∃ path k, is_path g 0 (n - 1) k path ∧ distance g 0 k (n - 1) ∧ answer = path_text path) ∨
     (¬ reachable g 0 (n - 1) ∧ answer = ("No path from 0 to " +:+ pretty (n - 1) +:+ " exists." +:+ endl)%string))).
Proof.
  intros Hin Hdr. unfold bfs_search_main. destruct (random_graph_drawn _ _ _ _ _ Hin) as (g & -> & Hg).
  pose proof Hg as (Hwf & HV & Hd & He). destruct Hin as (_ & Hn & _). cbn [mbind outcome_bind].
  rewrite (printMatrix_text g (drawn rand_args n R)) by done. cbn [mbind outcome_bind]. rewrite HV.
  assert (in_range g 0) as H0 by (unfold in_range; lia). assert (in_range g (n - 1)) as Hl by (unfold in_range; lia).
  destruct (BreadthFirstSearch_inv g Hwf 0 H0 dangling_read Hdr) as (sd & Hbfs & I). rewrite HV in Hbfs.
  rewrite Hbfs. cbn [mbind outcome_bind]. rewrite int_add_Ret by (unfold INT_MIN; lia). cbn [mbind outcome_bind].
  replace (n + -1) with (n - 1) by lia. rewrite !print_vertex_wf by done. cbn [mbind outcome_bind].
  destruct (decide (cc sd (n - 1) = WHITE)) as [Hw|Hw].
  - destruct (bi_white _ _ _ _ I _ Hl Hw) as [_ Hp].
    assert (¬ reachable g 0 (n - 1)) as Hunreach by (intros [k Hk]; by apply (final_walk g Hwf 0 sd I) in Hk as [? _]).
    assert (n - 1 ≠ 0) as Hne. { intros E. apply Hunreach. rewrite E. exists 0%nat. by constructor. }
    unfold printPath. destruct (Z.to_nat n) as [|fuel] eqn:Ef; [lia|]. cbn [print_path_rec].
    rewrite decide_False by done. rewrite (bfs_vget_sized g 0 (pi sd)) by (done || apply (bi_sized _ _ _ _ I)).
    fold (pp sd (n - 1)). rewrite Hp. cbn [mbind outcome_bind]. rewrite decide_True by done.
    rewrite !print_vertex_wf by done. cbn [mbind outcome_bind]. apply returns_Ret.
    exists g, ("No path from 0 to " +:+ pretty (n - 1) +:+ " exists." +:+ endl)%string. split; [done|].
    split; [|by right].
    assert (∀ a b c d e f, text_on cout ([(cout, a); (cout, b); (cout, c); (cout, d); (cout, e); (cout, f)] ++ [(cout, endl)]) =
      (a +:+ b +:+ c +:+ d +:+ e +:+ f +:+ endl)%string) as -> by reflexivity.
    rewrite <-!append_assoc. reflexivity.
  - pose proof (final_distance g Hwf 0 sd I _ Hl Hw) as Hdist.
    destruct (searched_path dangling_read g 0 (n - 1) (Z.to_nat (dd sd (n - 1))) sd Hwf H0 Hdr) as (path & Hpath & Hrec);
      [by rewrite HV|exact Hdist|]. rewrite HV in Hrec.
    eapply returns_bind; [by eapply printPath_cout|]. intros w Hw'. apply returns_Ret. rewrite Hw'.
    exists g, (path_text path). split; [done|]. split; [done|]. left. by eexists _, _.
Qed.

(** ** Witnesses and examples *)
Lemma sample_inputs : inputs_ok 5 ["transpose"; "3"; "4"] (λ i, (Z.abs (2 * i), Z.abs (i + 1))) 3 4.
Proof. split; [reflexivity|]. split; [done|]. intros i. cbn. lia. Qed.

Lemma transpose_program_witness :
  transpose_main (λ i, (Z.abs (2 * i), Z.abs (i + 1))) ["transpose"; "3"; "4"] =
  Ret (matrix_text 3 (drawn (λ i, (Z.abs (2 * i), Z.abs (i + 1))) 3 4) +:+
       matrix_text 3 (λ i j, drawn (λ i, (Z.abs (2 * i), Z.abs (i + 1))) 3 4 j i))%string.
Proof. exact (transpose_program ["transpose"; "3"; "4"] _ 3 4 sample_inputs). Defined.

(** From 0 to 2, by the arcs 0 -> 1, 2 -> 2, 1 -> 0, 0 -> 1. *)
Lemma bfs_search_program_witness :
  returns (bfs_search_main (λ i, (Z.abs (2 * i), Z.abs (i + 1))) ["bfs-search"; "3"; "4"] Ret) (λ out, ∃ g answer,
    drawn_graph (λ i, (Z.abs (2 * i), Z.abs (i + 1))) 3 4 g ∧
    out = (matrix_text 3 (drawn (λ i, (Z.abs (2 * i), Z.abs (i + 1))) 3 4) +:+ endl +:+
           "Path from 0 to " +:+ pretty (3 - 1) +:+ " is: " +:+ answer +:+ endl)%string ∧
    ((∃ path k, is_path g 0 (3 - 1) k path ∧ distance g 0 k (3 - 1) ∧ answer = path_text path) ∨
     (¬ reachable g 0 (3 - 1) ∧ answer = ("No path from 0 to " +:+ pretty (3 - 1) +:+ " exists." +:+ endl)%string))).
Proof.
  assert (inputs_ok 20 ["bfs-search"; "3"; "4"] (λ i, (Z.abs (2 * i), Z.abs (i + 1))) 3 4) as Hin
    by (split; [reflexivity|split; [done|intros i; cbn; lia]]).
  exact (bfs_search_program ["bfs-search"; "3"; "4"] _ Ret 3 4 Hin (λ _, eq_refl)).
Defined.

(** dfs-search starts from vertex 4, whether there is one or not. *)
Example dfs_search_small : dfs_search_main (λ _, (0, 0)) ["dfs-search"; "3"] = Undef.
Proof. vm_compute. reflexivity. Qed.

(** Without vertices there is nothing to draw from. *)
Example no_vertices : matrix_main (λ _, (0, 0)) ["matrix"; "0"; "1"] = Undef.
Proof. reflexivity. Qed.

(** The number of edges is ten times that of the vertices, if that fits. *)
Example too_many_vertices : sizes 5 ["matrix"; "300000000"] = Undef.
Proof. vm_compute. reflexivity. Qed.

Example fully_connected_2 :
  fully_connected_main ["fully-connected"; "2"] =
  Ret ("strict graph {" +:+ endl +:+ " 0 -- 1" +:+ endl +:+ " 1 -- 0" +:+ endl +:+ "}" +:+ endl)%string.
Proof. vm_compute. reflexivity. Qed.
