(* ===== verification/Word.v ===== *)
(** * Machine words

    Unsigned words as [Z] with their wrap-around written out, the bit
    operations of the hash functions, byte order, and the lemmas on them.
    Used by the files on src/pmud/src/common/hash-library. *)
From S2P Require Import Prelude.

(** ** Unsigned 32 and 64-bit arithmetic *)
Definition u32 (x : Z) : Z := x mod 2 ^ 32.
Definition u64 (x : Z) : Z := x mod 2 ^ 64.
Definition byte (x : Z) : Prop := 0 ≤ x < 256.
Definition word (x : Z) : Prop := 0 ≤ x < 2 ^ 32.

Definition add32 (a b : Z) : Z := u32 (a + b).
Definition shl32 (a c : Z) : Z := u32 (Z.shiftl a c).
Definition not32 (a : Z) : Z := Z.lxor a (Z.ones 32).

(** [(a << c) | (a >> (32 - c))] and [(a >> c) | (a << (32 - c))]. *)
Definition rotl32 (a c : Z) : Z := Z.lor (shl32 a c) (Z.shiftr a (32 - c)).
Definition rotr32 (a c : Z) : Z := Z.lor (Z.shiftr a c) (shl32 a (32 - c)).

(** [swap], the byte swap of the 32-bit hashes and of keccak.cpp and sha3.cpp. *)
Definition swap (x : Z) : Z :=
  Z.lor (Z.lor (Z.lor (Z.shiftr x 24)
    (Z.land (Z.shiftr x 8) 0x0000FF00))
    (Z.land (shl32 x 8) 0x00FF0000))
    (shl32 x 24).

Definition shl64 (a c : Z) : Z := u64 (Z.shiftl a c).
Definition swap64 (x : Z) : Z :=
  Z.lor (Z.lor (Z.lor (Z.lor (Z.lor (Z.lor (Z.lor (Z.shiftr x 56)
    (Z.land (Z.shiftr x 40) 0x000000000000FF00))
    (Z.land (Z.shiftr x 24) 0x0000000000FF0000))
    (Z.land (Z.shiftr x 8) 0x00000000FF000000))
    (Z.land (shl64 x 8) 0x000000FF00000000))
    (Z.land (shl64 x 24) 0x0000FF0000000000))
    (Z.land (shl64 x 40) 0x00FF000000000000))
    (shl64 x 56).

(** ** Byte order *)

(** The number whose little-endian (big-endian) bytes are given. *)
Definition le_num (bs : list Z) : Z := foldr (λ b acc, b + 256 * acc) 0 bs.
Definition be_num (bs : list Z) : Z := foldl (λ acc b, 256 * acc + b) 0 bs.

(** The byte order of the host, [__BYTE_ORDER]. *)
Inductive endian := LittleEndian | BigEndian.
Class ByteOrder := byte_order : endian.

(** The number that a host reads from bytes in memory. *)
Definition native {E : ByteOrder} (bs : list Z) : Z :=
  match byte_order with LittleEndian => le_num bs | BigEndian => be_num bs end.

(** A buffer read through a [uint32_t*] on that host: [n] words. *)
Fixpoint native_words {E : ByteOrder} (n : nat) (data : list Z) : list Z :=
  match n with
  | O => []
  | S n => native (take 4 data) :: native_words n (drop 4 data)
  end.

(** What the code makes of such a number: sha1.cpp and sha256.cpp swap it on a
    little-endian host, md5.cpp, keccak.cpp and sha3.cpp ([LITTLEENDIAN]) on a
    big-endian one. *)
Definition from_big {E : ByteOrder} (swap : Z → Z) (x : Z) : Z :=
  match byte_order with LittleEndian => swap x | BigEndian => x end.
Definition from_little {E : ByteOrder} (swap : Z → Z) (x : Z) : Z :=
  match byte_order with LittleEndian => x | BigEndian => swap x end.

(** [n] words in little-endian order, that of RFC 1321. *)
Fixpoint read_words (n : nat) (data : list Z) : list Z :=
  match n with
  | O => []
  | S n => le_num (take 4 data) :: read_words n (drop 4 data)
  end.

(** The same in big-endian order, the reading of FIPS 180. *)
Fixpoint read_words_be (n : nat) (data : list Z) : list Z :=
  match n with
  | O => []
  | S n => be_num (take 4 data) :: read_words_be n (drop 4 data)
  end.

(** Byte [i] of a word (counted from the least significant one). *)
Definition byte_at (x i : Z) : Z := Z.land (Z.shiftr x (8 * i)) 0xFF.

(** The [n] bytes of a number, least and most significant first. *)
Definition le_bytes (n : nat) (x : Z) : list Z := (λ i, x / 2 ^ (8 * Z.of_nat i) mod 256) <$> seq 0 n.
Definition be_bytes (n : nat) (x : Z) : list Z := reverse (le_bytes n x).

(** ** Lemmas *)
Lemma u32_range x : word (u32 x).
Proof. apply Z.mod_pos_bound. lia. Qed.

Lemma u32_id x : word x → u32 x = x.
Proof. apply Z.mod_small. Qed.

Lemma add32_range a b : word (add32 a b).
Proof. apply u32_range. Qed.

Lemma u32_add_l a b : u32 (u32 a + b) = u32 (a + b).
Proof. apply Zplus_mod_idemp_l. Qed.

Lemma u32_add_r a b : u32 (a + u32 b) = u32 (a + b).
Proof. apply Zplus_mod_idemp_r. Qed.

(** Sums of words: the wrap-around may wait until the end. *)
Ltac wrap_sums :=
  unfold add32 in *; rewrite ?u32_add_l, ?u32_add_r;
  repeat first [rewrite u32_add_l | rewrite u32_add_r |
    match goal with |- context [u32 (?a + u32 ?b + ?c)] =>
      replace (a + u32 b + c) with (a + c + u32 b) by lia end];
  f_equal; lia.

Lemma testbit_high a k n : 0 ≤ a < 2 ^ k → 0 ≤ k ≤ n → Z.testbit a n = false.
Proof.
  intros Ha Hn. rewrite <-(Z.mod_small a (2 ^ k)) by done.
  apply Z.mod_pow2_bits_high. lia.
Qed.

(** Disjoint bits: [lor] is a sum. *)
Lemma lor_add a b k : 0 ≤ k → 0 ≤ a < 2 ^ k → Z.lor a (b * 2 ^ k) = a + b * 2 ^ k.
Proof.
  intros Hk Ha. assert (Z.land a (b * 2 ^ k) = 0) as H0.
  { apply Z.bits_inj'. intros n Hn. rewrite Z.land_spec, Z.bits_0, Z.mul_pow2_bits by done.
    destruct (decide (n < k)).
    - rewrite (Z.testbit_neg_r b) by lia. apply andb_false_r.
    - by rewrite (testbit_high a k n) by lia. }
  rewrite Z.add_nocarry_lxor by done.
  apply Z.bits_inj'. intros n Hn. rewrite Z.lor_spec, Z.lxor_spec.
  assert (Z.testbit a n && Z.testbit (b * 2 ^ k) n = false) as H
    by (by rewrite <-Z.land_spec, H0, Z.bits_0).
  by destruct (Z.testbit a n), (Z.testbit (b * 2 ^ k) n).
Qed.

Lemma lor_add' a b k : 0 ≤ k → 0 ≤ a < 2 ^ k → Z.lor (b * 2 ^ k) a = b * 2 ^ k + a.
Proof. intros. rewrite Z.lor_comm, lor_add by done. lia. Qed.

Lemma shl32_eq a c : 0 ≤ c ≤ 32 → shl32 a c = a mod 2 ^ (32 - c) * 2 ^ c.
Proof.
  intros Hc. unfold shl32, u32. rewrite Z.shiftl_mul_pow2 by lia.
  replace (2 ^ 32) with (2 ^ (32 - c) * 2 ^ c) by (rewrite <-Z.pow_add_r by lia; f_equal; lia).
  rewrite Z.mul_mod_distr_r; [done| |]; pose proof (Z.pow_pos_nonneg 2 c); 
    pose proof (Z.pow_pos_nonneg 2 (32 - c)); lia.
Qed.

Lemma shr_range a c : 0 ≤ c ≤ 32 → word a → 0 ≤ Z.shiftr a c < 2 ^ (32 - c).
Proof.
  intros Hc Ha. rewrite Z.shiftr_div_pow2 by lia. split.
  - apply Z.div_pos; [unfold word in Ha; lia|apply Z.pow_pos_nonneg; lia].
  - apply Z.div_lt_upper_bound; [apply Z.pow_pos_nonneg; lia|].
    rewrite <-Z.pow_add_r by lia. replace (c + (32 - c)) with 32 by lia. unfold word in Ha. lia.
Qed.

(** Rotations as arithmetic: split the word at a bit, swap the halves. *)
Lemma rotr32_eq a c : 0 ≤ c ≤ 32 → word a → rotr32 a c = a / 2 ^ c + a mod 2 ^ c * 2 ^ (32 - c).
Proof.
  intros Hc Ha. unfold rotr32. rewrite shl32_eq by lia.
  rewrite lor_add by (try apply shr_range; done || lia).
  replace (32 - (32 - c)) with c by lia. by rewrite Z.shiftr_div_pow2 by lia.
Qed.

Lemma rotl32_eq a c : 0 ≤ c ≤ 32 → word a →
  rotl32 a c = a mod 2 ^ (32 - c) * 2 ^ c + a / 2 ^ (32 - c).
Proof.
  intros Hc Ha. unfold rotl32. rewrite shl32_eq by lia.
  rewrite lor_add'; [by rewrite Z.shiftr_div_pow2 by lia|lia|].
  replace c with (32 - (32 - c)) at 3 by lia. apply shr_range; [lia|done].
Qed.

Lemma land_ones_shift x c : 0 ≤ c → Z.land x (Z.shiftl 0xFF c) = Z.shiftr x c mod 256 * 2 ^ c.
Proof.
  intros Hc. change 256 with (2 ^ 8). rewrite <-Z.land_ones, <-Z.shiftl_mul_pow2 by lia.
  change 0xFF with (Z.ones 8). apply Z.bits_inj'. intros n Hn.
  rewrite Z.land_spec, !Z.shiftl_spec, Z.land_spec by lia.
  destruct (decide (n < c)).
  - rewrite (Z.testbit_neg_r (Z.ones 8)) by lia. by rewrite !andb_false_r.
  - rewrite Z.shiftr_spec by lia. by replace (n - c + c) with n by lia.
Qed.

(** [swap] reverses the bytes. *)
Lemma swap_le_num b0 b1 b2 b3 :
  byte b0 → byte b1 → byte b2 → byte b3 →
  swap (le_num [b0; b1; b2; b3]) = be_num [b0; b1; b2; b3].
Proof.
  unfold byte. intros H0 H1 H2 H3. cbn [le_num be_num foldr foldl].
  set (x := b0 + 256 * (b1 + 256 * (b2 + 256 * (b3 + 256 * 0)))).
  unfold swap. rewrite !shl32_eq by lia.
  change 0x0000FF00 with (Z.shiftl 0xFF 8). change 0x00FF0000 with (Z.shiftl 0xFF 16).
  rewrite !land_ones_shift by lia. rewrite !Z.shiftr_div_pow2 by lia.
  rewrite Z.div_div by lia.
  replace (x / 2 ^ 24) with b3 by (unfold x; Z.to_euclidean_division_equations; lia).
  replace (x / (2 ^ 8 * 2 ^ 8) mod 256) with b2 by (unfold x; Z.to_euclidean_division_equations; lia).
  replace (x mod 2 ^ (32 - 8) * 2 ^ 8 / 2 ^ 16 mod 256) with b1
    by (unfold x; Z.to_euclidean_division_equations; lia).
  replace (x mod 2 ^ (32 - 24)) with b0 by (unfold x; Z.to_euclidean_division_equations; lia).
  rewrite (lor_add b3 b2 8) by lia. rewrite (lor_add _ b1 16) by lia.
  rewrite (lor_add _ b0 24) by lia. lia.
Qed.

Lemma swap_be_num b0 b1 b2 b3 :
  byte b0 → byte b1 → byte b2 → byte b3 →
  swap (be_num [b0; b1; b2; b3]) = le_num [b0; b1; b2; b3].
Proof.
  intros H0 H1 H2 H3. replace (be_num [b0; b1; b2; b3]) with (le_num [b3; b2; b1; b0]) by (cbn; lia).
  rewrite swap_le_num by done. cbn. lia.
Qed.

Lemma shl64_eq x c : 0 ≤ c ≤ 64 → shl64 x c = x mod 2 ^ (64 - c) * 2 ^ c.
Proof.
  intros Hc. unfold shl64, u64. rewrite Z.shiftl_mul_pow2 by lia.
  replace (2 ^ 64) with (2 ^ (64 - c) * 2 ^ c) by (rewrite <-Z.pow_add_r by lia; f_equal; lia).
  by rewrite Z.mul_mod_distr_r by (try apply Z.pow_nonzero; lia).
Qed.

Lemma swap64_be_num b0 b1 b2 b3 b4 b5 b6 b7 :
  byte b0 → byte b1 → byte b2 → byte b3 → byte b4 → byte b5 → byte b6 → byte b7 →
  swap64 (be_num [b0; b1; b2; b3; b4; b5; b6; b7]) = le_num [b0; b1; b2; b3; b4; b5; b6; b7].
Proof.
  unfold byte. intros H0 H1 H2 H3 H4 H5 H6 H7. cbn [le_num be_num foldr foldl].
  set (x := 256 * (256 * (256 * (256 * (256 * (256 * (256 * (256 * 0 + b0) + b1) + b2) + b3) + b4) + b5) + b6) + b7).
  unfold swap64. rewrite !shl64_eq by lia.
  change 0x000000000000FF00 with (Z.shiftl 0xFF 8). change 0x0000000000FF0000 with (Z.shiftl 0xFF 16).
  change 0x00000000FF000000 with (Z.shiftl 0xFF 24). change 0x000000FF00000000 with (Z.shiftl 0xFF 32).
  change 0x0000FF0000000000 with (Z.shiftl 0xFF 40). change 0x00FF000000000000 with (Z.shiftl 0xFF 48).
  rewrite !land_ones_shift by lia. rewrite !Z.shiftr_div_pow2 by lia. rewrite !Z.div_div by lia.
  replace (x / 2 ^ 56) with b0 by (unfold x; Z.to_euclidean_division_equations; lia).
  replace (x / (2 ^ 40 * 2 ^ 8) mod 256) with b1 by (unfold x; Z.to_euclidean_division_equations; lia).
  replace (x / (2 ^ 24 * 2 ^ 16) mod 256) with b2 by (unfold x; Z.to_euclidean_division_equations; lia).
  replace (x / (2 ^ 8 * 2 ^ 24) mod 256) with b3 by (unfold x; Z.to_euclidean_division_equations; lia).
  replace (x mod 2 ^ (64 - 8) * 2 ^ 8 / 2 ^ 32 mod 256) with b4 by (unfold x; Z.to_euclidean_division_equations; lia).
  replace (x mod 2 ^ (64 - 24) * 2 ^ 24 / 2 ^ 40 mod 256) with b5 by (unfold x; Z.to_euclidean_division_equations; lia).
  replace (x mod 2 ^ (64 - 40) * 2 ^ 40 / 2 ^ 48 mod 256) with b6 by (unfold x; Z.to_euclidean_division_equations; lia).
  replace (x mod 2 ^ (64 - 56)) with b7 by (unfold x; Z.to_euclidean_division_equations; lia).
  rewrite (lor_add b0 b1 8) by lia. rewrite (lor_add _ b2 16) by lia. rewrite (lor_add _ b3 24) by lia.
  rewrite (lor_add _ b4 32) by lia. rewrite (lor_add _ b5 40) by lia. rewrite (lor_add _ b6 48) by lia.
  rewrite (lor_add _ b7 56) by lia. lia.
Qed.

(** Four bytes of a buffer at a time. *)
Lemma words_ind (P : nat → list Z → Prop) :
  P 0%nat [] →
  (∀ n b0 b1 b2 b3 data, byte b0 → byte b1 → byte b2 → byte b3 → P n data → P (S n) (b0 :: b1 :: b2 :: b3 :: data)) →
  ∀ n data, Forall byte data → length data = (4 * n)%nat → P n data.
Proof.
  intros H0 HS n. induction n as [|n IH]; intros data Hb Hl; [by destruct data|].
  destruct data as [|b0 [|b1 [|b2 [|b3 data]]]]; try (cbn in Hl; lia).
  rewrite !Forall_cons in Hb. destruct Hb as (? & ? & ? & ? & Hb). apply HS; [done..|]. apply IH; [done|]. cbn in Hl. lia.
Qed.

(** On every host the code reads the words of the standards. *)
Lemma native_words_big {E : ByteOrder} n data :
  Forall byte data → length data = (4 * n)%nat → from_big swap <$> native_words n data = read_words_be n data.
Proof.
  revert n data. apply words_ind; [done|]. intros n b0 b1 b2 b3 data H0 H1 H2 H3 IH.
  cbn [native_words read_words_be take drop]. rewrite !take_0, drop_0, fmap_cons, IH. f_equal.
  unfold from_big, native. destruct byte_order; [by apply swap_le_num|done].
Qed.

Lemma native_words_little {E : ByteOrder} n data :
  Forall byte data → length data = (4 * n)%nat → from_little swap <$> native_words n data = read_words n data.
Proof.
  revert n data. apply words_ind; [done|]. intros n b0 b1 b2 b3 data H0 H1 H2 H3 IH.
  cbn [native_words read_words take drop]. rewrite !take_0, drop_0, fmap_cons, IH. f_equal.
  unfold from_little, native. destruct byte_order; [done|by apply swap_be_num].
Qed.

Lemma native_words_length {E : ByteOrder} n data : length (native_words n data) = n.
Proof. revert data. induction n; intros; cbn; auto. Qed.

Lemma read_words_length n data : length (read_words n data) = n.
Proof. revert data. induction n; intros; cbn; auto. Qed.

Lemma read_words_be_length n data : length (read_words_be n data) = n.
Proof. revert data. induction n; intros; cbn; auto. Qed.

Lemma be_num_range b0 b1 b2 b3 : byte b0 → byte b1 → byte b2 → byte b3 → word (be_num [b0; b1; b2; b3]).
Proof. unfold byte, word. cbn [be_num foldl]. lia. Qed.

Lemma le_num_range b0 b1 b2 b3 : byte b0 → byte b1 → byte b2 → byte b3 → word (le_num [b0; b1; b2; b3]).
Proof. unfold byte, word. cbn [le_num foldr]. lia. Qed.

Lemma byte_at_range x i : byte (byte_at x i).
Proof.
  unfold byte_at, byte. change 0xFF with (Z.ones 8). rewrite Z.land_ones by lia.
  apply (Z.mod_pos_bound _ (2 ^ 8)). lia.
Qed.

Lemma byte_at_eq x i : 0 ≤ i → byte_at x i = x / 2 ^ (8 * i) mod 256.
Proof.
  intros Hi. unfold byte_at. change 0xFF with (Z.ones 8). rewrite Z.land_ones by lia.
  by rewrite Z.shiftr_div_pow2 by lia.
Qed.

Lemma byte_at_le_bytes n x : byte_at x <$> (Z.of_nat <$> seq 0 n) = le_bytes n x.
Proof.
  unfold le_bytes. rewrite <-list_fmap_compose. apply list_fmap_ext.
  intros i j Hj. apply byte_at_eq. lia.
Qed.

Lemma byte_at_be_bytes n x : byte_at x <$> reverse (Z.of_nat <$> seq 0 n) = be_bytes n x.
Proof. unfold be_bytes. by rewrite fmap_reverse, byte_at_le_bytes. Qed.

(** Bitwise identities, one bit at a time. *)
Ltac bitwise :=
  apply Z.bits_inj'; intros ?n ?Hn;
  repeat first [rewrite Z.lor_spec | rewrite Z.land_spec | rewrite Z.lxor_spec];
  repeat match goal with |- context [Z.testbit ?x ?n] => destruct (Z.testbit x n) eqn:? end;
  try reflexivity.

(** For identities with [not32] on words: the bits from 32 on are zero. *)
Lemma not32_spec a n : 0 ≤ n → Z.testbit (not32 a) n = if decide (n < 32) then negb (Z.testbit a n) else Z.testbit a n.
Proof.
  intros Hn. unfold not32. rewrite Z.lxor_spec. case_decide.
  - rewrite Z.ones_spec_low by lia. apply xorb_true_r.
  - rewrite Z.ones_spec_high by lia. apply xorb_false_r.
Qed.

(** Sums of four, each addition wrapped. *)
Lemma u32_sum4 a b c d : add32 (add32 (add32 a b) c) d = u32 (a + b + c + d).
Proof. unfold add32. by rewrite (u32_add_l (a + b) c), u32_add_l. Qed.

(** Bitwise identities with [Z.lnot]. *)
Ltac bitwise_not :=
  apply Z.bits_inj'; intros ?n ?Hn;
  repeat first [rewrite Z.lor_spec | rewrite Z.land_spec | rewrite Z.lxor_spec | rewrite Z.lnot_spec by done];
  repeat match goal with |- context [Z.testbit ?x ?n] => destruct (Z.testbit x n) eqn:? end;
  try reflexivity.

Lemma rotl32_range a c : 0 ≤ c ≤ 32 → word a → word (rotl32 a c).
Proof.
  intros Hc Ha. rewrite rotl32_eq by done. unfold word in *.
  pose proof (Z.pow_pos_nonneg 2 c ltac:(lia) ltac:(lia)).
  pose proof (Z.pow_pos_nonneg 2 (32 - c) ltac:(lia) ltac:(lia)).
  assert (2 ^ 32 = 2 ^ (32 - c) * 2 ^ c) as E by (rewrite <-Z.pow_add_r by lia; f_equal; lia).
  pose proof (Z.mod_pos_bound a (2 ^ (32 - c)) ltac:(lia)).
  assert (0 ≤ a / 2 ^ (32 - c) < 2 ^ c).
  { split; [apply Z.div_pos; lia|]. apply Z.div_lt_upper_bound; lia. }
  nia.
Qed.

Lemma lxor_range a b : word a → word b → word (Z.lxor a b).
Proof.
  unfold word. intros Ha Hb. rewrite <-(Z.mod_small a (2 ^ 32)), <-(Z.mod_small b (2 ^ 32)) by done.
  rewrite <-!Z.land_ones by lia.
  replace (Z.lxor (Z.land a (Z.ones 32)) (Z.land b (Z.ones 32))) with (Z.land (Z.lxor a b) (Z.ones 32)).
  - rewrite Z.land_ones by lia. apply Z.mod_pos_bound. lia.
  - bitwise.
Qed.

Lemma nth_word (W : list Z) i : Forall word W → word (nth i W 0).
Proof.
  intros HW. destruct (nth_in_or_default i W 0) as [Hin| ->]; [|unfold word; lia].
  rewrite Forall_forall in HW. by apply HW, list_elem_of_In.
Qed.

Lemma read_words_be_word n data :
  Forall byte data → length data = (4 * n)%nat → Forall word (read_words_be n data).
Proof.
  revert n data. apply words_ind; [constructor|]. intros n b0 b1 b2 b3 data H0 H1 H2 H3 IH.
  cbn [read_words_be take drop]. rewrite take_0, drop_0. constructor; [by apply be_num_range|done].
Qed.

Lemma read_words_word n data :
  Forall byte data → length data = (4 * n)%nat → Forall word (read_words n data).
Proof.
  revert n data. apply words_ind; [constructor|]. intros n b0 b1 b2 b3 data H0 H1 H2 H3 IH.
  cbn [read_words take drop]. rewrite take_0, drop_0. constructor; [by apply le_num_range|done].
Qed.

Lemma le_num_bound x : Forall byte x → 0 ≤ le_num x < 256 ^ Z.of_nat (length x).
Proof.
  induction 1 as [|b x Hb _ IH]; [done|]. cbn [le_num foldr length]. fold (le_num x).
  rewrite Nat2Z.inj_succ, Z.pow_succ_r by lia. unfold byte in Hb. lia.
Qed.
