(* ===== verification/Absorb.v ===== *)
(** * The buffer of the streaming hashers

    md5.cpp, sha1.cpp, sha256.cpp, keccak.cpp and sha3.cpp of
    src/pmud/src/common/hash-library share the data members, [reset], [add] and
    the hexadecimal text word for word; they differ in the size of a block, in
    the words they start from and in [processBlock]. The class [Absorber] holds
    what differs. The result: however the input is cut into calls of [add],
    the object has processed the full blocks of all of it and keeps the rest. *)
From Stdlib Require Import String.
From S2P Require Import Prelude.
From S2P Require Import Text.
From S2P Require Import Word.

(** What a hash class supplies. *)
Class Absorber := {
  (** [BlockSize] or [m_blockSize], and the size of [m_buffer], in bytes *)
  block_size : nat;
  buffer_size : nat;
  (** [m_hash] after [reset] *)
  initial_hash : list Z;
  (** [m_hash] after [processBlock(data)], from [m_hash] and a block *)
  process : list Z → list Z → list Z
}.

Class AbsorberLaws (A : Absorber) : Prop := {
  block_size_pos : (0 < block_size)%nat;
  block_fits : (block_size ≤ buffer_size)%nat;
  (** only the block is read when the whole buffer is passed *)
  process_prefix h data : length data = buffer_size → process h (take block_size data) = process h data
}.

(** The data members. *)
Record Hasher := mkHasher {
  m_numBytes : Z;
  m_bufferSize : Z;
  m_buffer : list Z;
  m_hash : list Z
}.

(** [*p++ = b] for each byte [b]. *)
Fixpoint write_at (buf : list Z) (p : Z) (bs : list Z) : outcome (list Z) :=
  match bs with
  | [] => Ret buf
  | b :: bs => buf ← vset buf p b; write_at buf (p + 1) bs
  end.

Definition dec2hex : string := "0123456789abcdef".

Definition hex_digit (x : Z) : Ascii.ascii :=
  default Ascii.zero (String.get (Z.to_nat x) dec2hex).

(** The hexadecimal text of the raw bytes. *)
Definition to_hex (raw : list Z) : string :=
  foldl (λ result b,
    (result +:+ String (hex_digit (Z.land (Z.shiftr b 4) 15)) EmptyString
            +:+ String (hex_digit (Z.land b 15)) EmptyString)%string) "" raw.

Section absorb.
Context {A : Absorber}.

(** [reset]; what the buffer held stays. *)
Definition reset (st : Hasher) : Hasher := mkHasher 0 0 (m_buffer st) initial_hash.

(** A new object; its buffer is not initialised and holds [uninit]. *)
Definition Hasher_new (uninit : list Z) : Hasher := reset (mkHasher 0 0 uninit []).

Definition processBlock (st : Hasher) (data : list Z) : Hasher :=
  mkHasher (m_numBytes st) (m_bufferSize st) (m_buffer st) (process (m_hash st) data).

(** [m_buffer[m_bufferSize++] = *current++] *)
Definition push_byte (st : Hasher) (b : Z) : outcome Hasher :=
  buf ← vset (m_buffer st) (m_bufferSize st) b;
  Ret (mkHasher (m_numBytes st) (m_bufferSize st + 1) buf (m_hash st)).

(** The loop that tops up a partly filled buffer. *)
Fixpoint fill (st : Hasher) (data : list Z) : outcome (Hasher * list Z) :=
  match data with
  | [] => Ret (st, [])
  | b :: rest =>
      if decide (m_bufferSize st < Z.of_nat block_size) then st ← push_byte st b; fill st rest
      else Ret (st, data)
  end.

Definition flush_full (st : Hasher) : Hasher :=
  if decide (m_bufferSize st = Z.of_nat block_size) then
    let st := processBlock st (m_buffer st) in
    mkHasher (u64 (m_numBytes st + Z.of_nat block_size)) 0 (m_buffer st) (m_hash st)
  else st.

(** The loop over the full blocks of the input. *)
Fixpoint process_blocks (fuel : nat) (st : Hasher) (data : list Z) : outcome (Hasher * list Z) :=
  match fuel with
  | O => NoFuel
  | S fuel =>
      if decide (Z.of_nat block_size ≤ Z.of_nat (length data)) then
        let st := processBlock st (take block_size data) in
        process_blocks fuel
          (mkHasher (u64 (m_numBytes st + Z.of_nat block_size)) (m_bufferSize st) (m_buffer st) (m_hash st))
          (drop block_size data)
      else Ret (st, data)
  end.

Definition add (st : Hasher) (data : list Z) : outcome Hasher :=
  '(st, data) ← (if decide (0 < m_bufferSize st) then fill st data else Ret (st, data));
  let st := flush_full st in
  if decide (length data = 0%nat) then Ret st
  else
    '(st, data) ← process_blocks (S (length data)) st data;
    foldM push_byte st data.

(** ** Specification: the full blocks are processed, the rest is kept *)

Fixpoint compress_blocks (n : nat) (h : list Z) (data : list Z) : list Z :=
  match n with
  | O => h
  | S n => compress_blocks n (process h (take block_size data)) (drop block_size data)
  end.

(** The object has taken in exactly the bytes [msg]. *)
Definition absorbed (st : Hasher) (msg : list Z) : Prop :=
  ∃ n full tail, msg = full ++ tail ∧ length full = (block_size * n)%nat ∧ (length tail < block_size)%nat ∧
    m_hash st = compress_blocks n initial_hash full ∧ m_bufferSize st = Z.of_nat (length tail) ∧
    take (length tail) (m_buffer st) = tail ∧ length (m_buffer st) = buffer_size ∧
    m_numBytes st = u64 (Z.of_nat (length full)).
End absorb.

(** ** Helper lemmas *)
Lemma write_at_spec buf p bs :
  0 ≤ p → p + Z.of_nat (length bs) ≤ Z.of_nat (length buf) →
  write_at buf p bs =
    Ret (take (Z.to_nat p) buf ++ bs ++ drop (Z.to_nat p + length bs) buf).
Proof.
  revert buf p. induction bs as [|b bs IH]; intros buf p Hp Hl; cbn [write_at length] in *.
  { by rewrite app_nil_l, Nat.add_0_r, take_drop. }
  rewrite vset_is_Ret by lia. cbn [mbind outcome_bind].
  rewrite IH by (rewrite ?length_insert; lia). f_equal.
  replace (Z.to_nat (p + 1)) with (S (Z.to_nat p)) by lia.
  rewrite drop_insert_lt by lia.
  rewrite (take_S_r _ _ b), take_insert_ge by
    (try apply list_lookup_insert_eq; lia).
  rewrite <-app_assoc. cbn. do 3 f_equal. f_equal. lia.
Qed.

(** A loop that stores the same value at consecutive places. *)
Lemma fill_range_spec buf lo hi off x :
  0 ≤ lo - off → lo ≤ hi → hi - off ≤ Z.of_nat (length buf) →
  for_range lo hi (λ buf i, vset buf (i - off) x) buf =
    write_at buf (lo - off) (replicate (Z.to_nat (hi - lo)) x).
Proof.
  intros Hlo Hhi Hl. unfold for_range.
  remember (Z.to_nat (hi - lo)) as n eqn:Hn. revert lo buf Hlo Hhi Hl Hn.
  induction n as [|n IH]; intros lo buf Hlo Hhi Hl Hn.
  { by replace (hi - lo) with 0 by lia. }
  rewrite seqZ_cons by lia. cbn [foldM replicate write_at].
  rewrite vset_is_Ret by lia. cbn [mbind outcome_bind].
  replace (Z.pred (hi - lo)) with (hi - Z.succ lo) by lia.
  rewrite IH by (rewrite ?length_insert; lia). f_equal. lia.
Qed.

(** Storing a run of bytes after the first [n], and dropping what follows. *)
Lemma write_at_take buf (n : nat) bs :
  (n + length bs ≤ length buf)%nat →
  ∃ buf', write_at buf (Z.of_nat n) bs = Ret buf' ∧ length buf' = length buf ∧
    take (n + length bs) buf' = take n buf ++ bs.
Proof.
  intros Hl. rewrite write_at_spec by lia. eexists. split; [done|].
  rewrite Nat2Z.id. split.
  - rewrite !length_app, length_take, length_drop. lia.
  - rewrite app_assoc, take_app_length'; [done|]. rewrite length_app, length_take. lia.
Qed.

Lemma zero_fill buf (lo hi off : nat) :
  (off ≤ lo)%nat → (lo ≤ hi)%nat → (hi - off ≤ length buf)%nat →
  for_range (Z.of_nat lo) (Z.of_nat hi) (λ buf i, vset buf (i - Z.of_nat off) 0) buf =
    Ret (take (lo - off) buf ++ replicate (hi - lo) 0 ++ drop (hi - off) buf).
Proof.
  intros H1 H2 H3. rewrite fill_range_spec by lia. rewrite write_at_spec by (rewrite ?length_replicate; lia).
  rewrite length_replicate.
  replace (Z.to_nat (Z.of_nat lo - Z.of_nat off)) with (lo - off)%nat by lia.
  replace (Z.to_nat (Z.of_nat hi - Z.of_nat lo)) with (hi - lo)%nat by lia.
  by replace (lo - off + (hi - lo))%nat with (hi - off)%nat by lia.
Qed.

(** A marker after the first [t] bytes, and zeros up to [r] bytes. *)
Lemma mark_and_clear buf (t r : nat) d tail :
  (r ≤ length buf)%nat → (t < r)%nat → take t buf = tail →
  (buf ← vset buf (Z.of_nat t) d;
   for_range (Z.of_nat t + 1) (Z.of_nat r) (λ buf i, vset buf i 0) buf) =
    Ret (tail ++ [d] ++ replicate (r - S t) 0 ++ drop r buf).
Proof.
  intros Hl Ht Htk. rewrite vset_is_Ret by lia. cbn [mbind outcome_bind]. rewrite Nat2Z.id.
  transitivity (for_range (Z.of_nat (S t)) (Z.of_nat r)
    (λ buf i, vset buf (i - Z.of_nat 0) 0) (<[t := d]> buf)).
  { replace (Z.of_nat t + 1) with (Z.of_nat (S t)) by lia. unfold for_range.
    apply foldM_ext. intros. by rewrite Z.sub_0_r. }
  rewrite zero_fill by (rewrite ?length_insert; lia). rewrite !Nat.sub_0_r.
  rewrite (take_S_r _ _ d), take_insert_ge by (try apply list_lookup_insert_eq; lia).
  by rewrite Htk, <-app_assoc, drop_insert_lt by lia.
Qed.

(** The text of two pieces is that of both together. *)
Lemma to_hex_acc l s :
  foldl (λ result b, (result +:+ String (hex_digit (Z.land (Z.shiftr b 4) 15)) EmptyString
    +:+ String (hex_digit (Z.land b 15)) EmptyString)%string) s l = (s +:+ to_hex l)%string.
Proof.
  revert s. induction l as [|b l IH]; intros s; [by rewrite append_nil_r|]. unfold to_hex. cbn [foldl].
  rewrite !IH. rewrite append_nil_l. by rewrite !append_assoc.
Qed.

Lemma to_hex_append l1 l2 : to_hex (l1 ++ l2) = (to_hex l1 +:+ to_hex l2)%string.
Proof. unfold to_hex. rewrite foldl_app. apply to_hex_acc. Qed.

Lemma u64_add_l a b : u64 (u64 a + b) = u64 (a + b).
Proof. apply Zplus_mod_idemp_l. Qed.

Lemma u64_mul_r a b : u64 (a * u64 b) = u64 (a * b).
Proof. apply Zmult_mod_idemp_r. Qed.

Section absorb_lemmas.
Context {A : Absorber} {L : AbsorberLaws A}.

Lemma compress_blocks_app n m h a b :
  length a = (block_size * n)%nat →
  compress_blocks (n + m) h (a ++ b) = compress_blocks m (compress_blocks n h a) b.
Proof.
  revert h a. induction n as [|n IH]; intros h a Ha.
  { rewrite Nat.mul_0_r in Ha. by apply nil_length_inv in Ha as ->. }
  cbn [Nat.add compress_blocks]. rewrite take_app_le, drop_app_le by lia.
  apply IH. rewrite length_drop. lia.
Qed.

Lemma compress_blocks_prefix n h a b :
  length a = (block_size * n)%nat → compress_blocks n h (a ++ b) = compress_blocks n h a.
Proof.
  intros Ha. pose proof (compress_blocks_app n 0 h a b Ha) as E. by rewrite Nat.add_0_r in E.
Qed.

(** [fill] on input that does not fill the buffer, and on input that does. *)
Lemma fill_spec st data :
  0 ≤ m_bufferSize st ≤ Z.of_nat block_size → length (m_buffer st) = buffer_size →
  let k := Nat.min (length data) (block_size - Z.to_nat (m_bufferSize st)) in
  ∃ buf, fill st data =
      Ret (mkHasher (m_numBytes st) (m_bufferSize st + Z.of_nat k) buf (m_hash st), drop k data) ∧
    length buf = buffer_size ∧
    take (Z.to_nat (m_bufferSize st) + k) buf =
      take (Z.to_nat (m_bufferSize st)) (m_buffer st) ++ take k data.
Proof.
  pose proof block_size_pos as HB. pose proof block_fits as HF.
  revert st. induction data as [|b data IH]; intros st Hs Hl; cbn [fill length].
  { exists (m_buffer st). split_and!; [|done|].
    - destruct st; cbn. by rewrite Z.add_0_r.
    - by rewrite Nat.add_0_r, app_nil_r. }
  case_decide as Hlt.
  - unfold push_byte. rewrite vset_is_Ret by lia. cbn [mbind outcome_bind].
    set (st1 := mkHasher _ _ _ _). destruct (IH st1) as (buf & Hf & Hlb & Ht).
    { cbn. lia. } { cbn. by rewrite length_insert. }
    cbn [st1 m_bufferSize m_numBytes m_buffer m_hash] in *.
    rewrite Hf. exists buf.
    replace (Z.to_nat (m_bufferSize st + 1)) with (S (Z.to_nat (m_bufferSize st))) in * by lia.
    set (k := Nat.min (length data) (block_size - S (Z.to_nat (m_bufferSize st)))) in *.
    replace (Nat.min (S (length data)) (block_size - Z.to_nat (m_bufferSize st))) with (S k) by lia.
    split_and!; [|done|].
    + cbn [drop]. do 3 f_equal. lia.
    + rewrite Nat.add_succ_r. cbn [Nat.add] in Ht. rewrite Ht. cbn [take].
      rewrite (take_S_r _ _ b), take_insert_ge by (try apply list_lookup_insert_eq; lia).
      by rewrite <-app_assoc.
  - assert (m_bufferSize st = Z.of_nat block_size) as E by lia.
    replace (block_size - Z.to_nat (m_bufferSize st))%nat with 0%nat by lia.
    exists (m_buffer st). rewrite Nat.min_0_r, drop_0, take_0, app_nil_r, !Nat.add_0_r.
    split_and!; [|done|done]. rewrite Z.add_0_r. by destruct st.
Qed.

(** The loop over full blocks stops with less than a block. *)
Lemma process_blocks_spec fuel st data :
  (length data < fuel)%nat →
  let n := (length data / block_size)%nat in
  process_blocks fuel st data =
    Ret (mkHasher (if decide (n = 0%nat) then m_numBytes st else u64 (m_numBytes st + Z.of_nat block_size * Z.of_nat n))
           (m_bufferSize st) (m_buffer st) (compress_blocks n (m_hash st) (take (block_size * n) data)),
         drop (block_size * n) data).
Proof.
  pose proof block_size_pos as HB. pose proof block_fits as HF.
  revert st data. induction fuel as [|fuel IH]; intros st data Hf n; [lia|].
  cbn [process_blocks]. case_decide as Hge.
  - rewrite IH by (rewrite length_drop; lia). rewrite length_drop. cbn [m_numBytes m_bufferSize m_buffer m_hash].
    assert ((length data - block_size) / block_size = n - 1)%nat as ->.
    { unfold n. replace (length data) with ((length data - block_size) + 1 * block_size)%nat at 2 by lia.
      rewrite Nat.div_add by lia. lia. }
    assert (1 ≤ n)%nat as Hn by (apply Nat.div_le_lower_bound; lia).
    destruct n as [|m]; [lia|]. replace (S m - 1)%nat with m by lia.
    rewrite drop_drop. replace (block_size + block_size * m)%nat with (block_size * S m)%nat by lia.
    rewrite (decide_False (P := S m = 0%nat)) by lia. cbn [compress_blocks].
    rewrite take_take. replace (Nat.min block_size (block_size * S m)) with block_size by lia.
    replace (block_size * S m)%nat with (block_size + block_size * m)%nat by lia.
    rewrite <-take_drop_commute. do 3 f_equal.
    change (m_numBytes (processBlock st (take block_size data))) with (m_numBytes st).
    case_decide; [f_equal; lia|]. rewrite u64_add_l. f_equal. lia.
  - assert (n = 0%nat) as -> by (apply Nat.div_small; lia).
    rewrite decide_True by done. cbn. rewrite Nat.mul_0_r, drop_0. by destruct st.
Qed.

(** The loop that keeps the rest is [fill] on input that fits. *)
Lemma push_all st data :
  m_bufferSize st + Z.of_nat (length data) ≤ Z.of_nat block_size →
  foldM push_byte st data = (fill st data ≫= λ r, Ret r.1).
Proof.
  pose proof block_size_pos as HB. pose proof block_fits as HF.
  revert st. induction data as [|b data IH]; intros st Hl; [done|].
  cbn [length] in Hl. cbn [foldM fill]. rewrite decide_True by lia.
  destruct (push_byte st b) as [st1| | |] eqn:E; try done.
  cbn [mbind outcome_bind]. apply IH. unfold push_byte in E. outcome_inv. cbn. lia.
Qed.

(** What [add] does after the buffer has been emptied. *)
Lemma add_aligned st n full data :
  length full = (block_size * n)%nat → m_hash st = compress_blocks n initial_hash full →
  m_bufferSize st = 0 → length (m_buffer st) = buffer_size →
  m_numBytes st = u64 (Z.of_nat (length full)) →
  returns ('(st, data) ← process_blocks (S (length data)) st data; foldM push_byte st data)
    (λ st', absorbed st' (full ++ data)).
Proof.
  pose proof block_size_pos as HB. pose proof block_fits as HF.
  intros Hfull Hh Hs Hl Hn. rewrite process_blocks_spec by lia. cbn [mbind outcome_bind].
  set (m := (length data / block_size)%nat).
  assert (block_size * m ≤ length data ∧ length data - block_size * m < block_size)%nat as [Hm1 Hm2].
  { unfold m. pose proof (Nat.div_mod_eq (length data) block_size).
    pose proof (Nat.mod_upper_bound (length data) block_size ltac:(lia)). lia. }
  rewrite push_all by (cbn [m_bufferSize]; rewrite length_drop; lia).
  set (st1 := mkHasher _ _ _ _).
  destruct (fill_spec st1 (drop (block_size * m) data)) as (buf & -> & Hlb & Ht); [cbn; lia|done|].
  cbn [mbind outcome_bind fst]. apply returns_Ret.
  cbn [st1 m_bufferSize m_numBytes m_buffer m_hash] in *. rewrite length_drop, Hs in *.
  change (Z.to_nat 0) with 0%nat in *. rewrite Nat.sub_0_r, Nat.min_l in * by lia.
  rewrite take_0, app_nil_l in Ht. cbn [Nat.add] in Ht.
  rewrite (take_ge (drop _ _)) in Ht by (rewrite length_drop; lia).
  exists (n + m)%nat, (full ++ take (block_size * m) data), (drop (block_size * m) data).
  cbn [m_bufferSize m_numBytes m_buffer m_hash]. split_and!.
  - by rewrite <-app_assoc, take_drop.
  - rewrite length_app, length_take. lia.
  - rewrite length_drop. lia.
  - by rewrite compress_blocks_app, Hh.
  - rewrite length_drop. lia.
  - by rewrite length_drop.
  - done.
  - rewrite length_app, length_take, Hn. case_decide; [f_equal; lia|].
    rewrite u64_add_l. f_equal. lia.
Qed.

Lemma add_absorbed st msg data :
  absorbed st msg → returns (add st data) (λ st', absorbed st' (msg ++ data)).
Proof.
  pose proof block_size_pos as HB. pose proof block_fits as HF.
  intros (n & full & tail & -> & Hfull & Htl & Hh & Hs & Ht & Hl & Hn).
  unfold add. rewrite <-app_assoc.
  destruct (decide (tail = [])) as [->|Hne].
  { rewrite decide_False by (rewrite Hs; cbn; lia). cbn [mbind outcome_bind].
    unfold flush_full. rewrite (decide_False (P := m_bufferSize st = Z.of_nat block_size)) by (rewrite Hs; cbn; lia).
    rewrite app_nil_l. case_decide as Hd; [|by eapply add_aligned].
    apply nil_length_inv in Hd as ->. apply returns_Ret. exists n, full, [].
    split_and!; done. }
  assert (0 < length tail)%nat as Hpos by (destruct tail; [done|cbn; lia]).
  rewrite decide_True by lia.
  destruct (fill_spec st data) as (buf & -> & Hlb & Htk); [lia|done|].
  cbn [mbind outcome_bind]. rewrite Hs, Nat2Z.id, Ht in *.
  set (k := Nat.min (length data) (block_size - length tail)) in *.
  unfold flush_full. cbn [m_bufferSize m_numBytes m_buffer m_hash].
  destruct (decide (Z.of_nat (length tail) + Z.of_nat k = Z.of_nat block_size)) as [Hk|Hk].
  - replace (length tail + k)%nat with block_size in Htk by lia.
    set (st1 := mkHasher _ _ _ _). 
    replace (full ++ tail ++ data) with ((full ++ tail ++ take k data) ++ drop k data)
      by (by rewrite <-!app_assoc, take_drop).
    assert (length (full ++ tail ++ take k data) = block_size * (n + 1))%nat as Hlen.
    { rewrite !length_app, length_take. lia. }
    assert (m_hash st1 = compress_blocks (n + 1) initial_hash (full ++ tail ++ take k data)) as Hst1.
    { rewrite compress_blocks_app by done. cbn [compress_blocks].
      rewrite take_ge by (rewrite length_app, length_take; lia). by rewrite <-Htk, process_prefix, <-Hh. }
    assert (m_numBytes st1 = u64 (Z.of_nat (length (full ++ tail ++ take k data)))) as Hnb.
    { rewrite Hlen. cbn. rewrite Hn, u64_add_l. f_equal. lia. }
    case_decide as Hd; [|by eapply add_aligned].
    apply returns_Ret. apply nil_length_inv in Hd. rewrite Hd, app_nil_r.
    exists (n + 1)%nat, (full ++ tail ++ take k data), [].
    split_and!; try done. by rewrite app_nil_r.
  - assert (k = length data) as Hkd by lia. rewrite Hkd, drop_all, decide_True by done.
    rewrite Hkd, (take_ge data) in Htk by lia. apply returns_Ret. exists n, full, (tail ++ data).
    cbn [m_bufferSize m_numBytes m_buffer m_hash]. rewrite length_app.
    split_and!; try done; lia.
Qed.

Lemma reset_absorbed st : length (m_buffer st) = buffer_size → absorbed (reset st) [].
Proof.
  pose proof block_size_pos as HB. pose proof block_fits as HF.
  intros Hl. exists 0%nat, [], []. split_and!; cbn; try done; lia.
Qed.

Lemma add_chunks chunks st msg :
  absorbed st msg → returns (foldM add st chunks) (λ st', absorbed st' (msg ++ concat chunks)).
Proof.
  revert st msg. induction chunks as [|c chunks IH]; intros st msg Ha; cbn [foldM concat].
  { apply returns_Ret. by rewrite app_nil_r. }
  eapply returns_bind; [by apply add_absorbed|]. intros st' Ha'.
  rewrite app_assoc. by apply IH.
Qed.
End absorb_lemmas.

(** Two hashers that agree on the words satisfying [P] and on blocks of
    bytes. *)
Lemma compress_blocks_ext {A A' : Absorber} (E : block_size (Absorber := A') = block_size (Absorber := A))
    (P : list Z → Prop) n h data :
  (∀ h block, P h → length block = block_size (Absorber := A) → Forall byte block →
    process (Absorber := A) h block = process (Absorber := A') h block ∧ P (process (Absorber := A') h block)) →
  P h → length data = (block_size (Absorber := A) * n)%nat → Forall byte data →
  compress_blocks (A := A) n h data = compress_blocks (A := A') n h data ∧ P (compress_blocks (A := A') n h data).
Proof.
  intros Hf. revert h data. induction n as [|n IH]; intros h data Hh Hl Hb; cbn; [done|].
  rewrite E. destruct (Hf h (take (block_size (Absorber := A)) data)) as [-> HP];
    [done|rewrite length_take; lia|by apply Forall_take|].
  apply IH; [done|rewrite length_drop; lia|by apply Forall_drop].
Qed.

(** ** A hash object as its users see it

    [new] has seen nothing, [add] makes it see more, and [text] is the text
    that [spec] gives for all it has seen. *)
Definition streams {A} (new : A) (add : A → list Z → outcome A) (text : A → outcome (string * A))
    (spec : list Z → string) : Prop :=
  ∃ sees : A → list Z → Prop,
    sees new [] ∧
    (∀ st m d, sees st m → Forall byte m → Forall byte d → returns (add st d) (λ st', sees st' (m ++ d))) ∧
    (∀ st m, sees st m → Forall byte m → returns (text st) (λ r, r.1 = spec m)).

Lemma streams_ext {A} (new : A) add text spec spec' :
  streams new add text spec → (∀ m, Forall byte m → spec m = spec' m) → streams new add text spec'.
Proof.
  intros (sees & Hnew & Hadd & Htext) E. exists sees. split_and!; [done|done|].
  intros st m Hm Hb. rewrite <-E by done. by apply Htext.
Qed.
