(* ===== verification/BlockHasher.v ===== *)
(** * The streaming interface of MD5, SHA1 and SHA256

    md5.cpp, sha1.cpp and sha256.cpp of src/pmud/src/common/hash-library share,
    besides the buffer of Absorb.v, the text of [processBuffer], [getHash] and
    the call operators; they differ in the initial words, in [processBlock]
    and in the byte order. The class [BlockHash] holds what differs, the
    section below what is shared, and the theorems here are proved once for
    the three. *)
From S2P Require Import Prelude.
From S2P Require Import Word.
From S2P Require Export Absorb.

(** What one of the three classes supplies. *)
Class BlockHash := {
  (** the number of words of [m_hash] *)
  HashValues : nat;
  (** [m_hash] after [reset] *)
  seed : list Z;
  (** [m_hash] after [processBlock(data)], from [m_hash] and 64 bytes *)
  compress : list Z → list Z → list Z;
  (** the 8 bytes of the message length, and the 4 bytes of a word *)
  length_bytes : Z → list Z;
  hash_bytes : Z → list Z
}.

Class BlockHashLaws (H : BlockHash) := {
  seed_length : length seed = HashValues;
  compress_length h data : length h = HashValues → length (compress h data) = HashValues;
  length_bytes_length n : length (length_bytes n) = 8%nat;
  length_bytes_byte n : Forall byte (length_bytes n);
  hash_bytes_length w : length (hash_bytes w) = 4%nat;
  HashValues_bound : (HashValues ≤ 16)%nat
}.

Definition BlockSize : Z := 64.

(** Its buffer holds one block. *)
#[export] Instance hash_absorber (H : BlockHash) : Absorber := {|
  block_size := 64;
  buffer_size := 64;
  initial_hash := seed;
  process := compress
|}.
Coercion hash_absorber : BlockHash >-> Absorber.

Ltac unfold_absorber := cbn [block_size buffer_size initial_hash process hash_absorber] in *.

#[export] Instance hash_absorber_laws (H : BlockHash) : AbsorberLaws H.
Proof. split; cbn; [lia|done|]. intros h data Hl. by rewrite take_ge by lia. Qed.

Section hasher.
Context `{H : BlockHash}.

(** The place of the length bytes: 56, or 120 in the second block. *)
Definition padded_length (bufferSize : Z) : Z :=
  let paddedLength := bufferSize * 8 + 1 in
  let lower11Bits := Z.land paddedLength 511 in
  (if decide (lower11Bits ≤ 448) then paddedLength + (448 - lower11Bits)
   else paddedLength + (512 + 448 - lower11Bits)) / 8.

(** [extra] is the uninitialised local array. *)
Definition processBuffer (extra : list Z) (st : Hasher) : outcome Hasher :=
  let size := m_bufferSize st in
  let paddedLength := padded_length size in
  '(buf, extra) ←
    (if decide (size < BlockSize) then buf ← vset (m_buffer st) size 128; Ret (buf, extra)
     else extra ← vset extra 0 128; Ret (m_buffer st, extra));
  buf ← for_range (size + 1) BlockSize (λ buf i, vset buf i 0) buf;
  extra ← for_range (Z.max (size + 1) BlockSize) paddedLength
    (λ extra i, vset extra (i - BlockSize) 0) extra;
  let msgBits := u64 (8 * u64 (m_numBytes st + size)) in
  '(buf, extra) ←
    (if decide (paddedLength < BlockSize) then
       buf ← write_at buf paddedLength (length_bytes msgBits); Ret (buf, extra)
     else extra ← write_at extra (paddedLength - BlockSize) (length_bytes msgBits); Ret (buf, extra));
  let st := processBlock (mkHasher (m_numBytes st) size buf (m_hash st)) buf in
  Ret (if decide (BlockSize < paddedLength) then processBlock st extra else st).

(** [getHash(buffer)]: the bytes, and the object with its old words. *)
Definition getHash_raw (extra : list Z) (st : Hasher) : outcome (list Z * Hasher) :=
  let oldHash := m_hash st in
  st ← processBuffer extra st;
  '(out, hash) ← for_range 0 (Z.of_nat HashValues) (λ '(out, hash) i,
    w ← vget hash i;
    old ← vget oldHash i;
    hash ← vset hash i old;
    Ret (out ++ hash_bytes w, hash)) ([], m_hash st);
  Ret (out, mkHasher (m_numBytes st) (m_bufferSize st) (m_buffer st) hash).

Definition getHash (extra : list Z) (st : Hasher) : outcome (string * Hasher) :=
  '(rawHash, st) ← getHash_raw extra st;
  Ret (to_hex rawHash, st).

(** [operator()(data, numBytes)] and, on the bytes of a string,
    [operator()(text)]. *)
Definition hash_call (extra : list Z) (st : Hasher) (data : list Z) : outcome (string * Hasher) :=
  st ← add (reset st) data;
  getHash extra st.
End hasher.

(** ** Specification: Merkle-Damgard over the padded message *)
Section spec.
Context `{H : BlockHash}.

(** A one bit, zeros up to 8 bytes short of a block, the length in bits. *)
Definition pad (msg : list Z) : list Z :=
  let len := Z.of_nat (length msg) in
  msg ++ [128] ++ replicate (Z.to_nat ((55 - len) mod 64)) 0 ++ length_bytes (u64 (8 * len)).

Definition digest_words (msg : list Z) : list Z :=
  compress_blocks (length (pad msg) / 64) seed (pad msg).

Definition digest (msg : list Z) : list Z := digest_words msg ≫= hash_bytes.
End spec.

(** ** Helper lemmas *)
Section blocks.
Context `{H : BlockHash}.

Lemma compress_blocks_length {L : BlockHashLaws H} n h data :
  length h = HashValues → length (compress_blocks n h data) = HashValues.
Proof.
  revert h data. induction n as [|n IH]; intros h data Hh; cbn; [done|].
  apply IH, compress_length, Hh.
Qed.

Lemma padded_length_eq n : 0 ≤ n < 64 → padded_length n = if decide (n ≤ 55) then 56 else 120.
Proof.
  intros Hn. unfold padded_length. change 511 with (Z.ones 9). rewrite Z.land_ones by lia.
  rewrite (Z.mod_small (n * 8 + 1)) by lia.
  destruct (decide (n ≤ 55)); destruct (decide (n * 8 + 1 ≤ 448)); try lia.
  - replace (n * 8 + 1 + (448 - (n * 8 + 1))) with (56 * 8) by lia. by rewrite Z.div_mul.
  - replace (n * 8 + 1 + (512 + 448 - (n * 8 + 1))) with (120 * 8) by lia. by rewrite Z.div_mul.
Qed.

Lemma compress_blocks_two h a b :
  length a = 64%nat → length b = 64%nat →
  compress_blocks 2 h (a ++ b) = compress (compress h a) b.
Proof.
  intros Ha Hb. cbn [compress_blocks]. unfold_absorber. rewrite take_app_length', drop_app_length' by done.
  by rewrite take_ge by lia.
Qed.

(** The padded message, cut after its last full block. *)
Lemma pad_split n full tail :
  length full = (64 * n)%nat → (length tail < 64)%nat →
  pad (full ++ tail) = full ++ tail ++ [128] ++
    replicate (if decide (length tail ≤ 55)%nat then 55 - length tail else 119 - length tail)%nat 0 ++
    length_bytes (u64 (8 * Z.of_nat (length (full ++ tail)))).
Proof.
  intros Hf Ht. unfold pad. rewrite <-app_assoc. do 4 f_equal.
  rewrite length_app, Hf. rewrite Nat2Z.inj_add, Nat2Z.inj_mul.
  replace (55 - (Z.of_nat 64 * Z.of_nat n + Z.of_nat (length tail)))
    with (55 - Z.of_nat (length tail) + (- Z.of_nat n) * 64) by lia.
  rewrite Z.mod_add by lia. case_decide.
  - rewrite Z.mod_small by lia. f_equal. lia.
  - replace (55 - Z.of_nat (length tail)) with (119 - Z.of_nat (length tail) + (-1) * 64) by lia.
    rewrite Z.mod_add, Z.mod_small by lia. f_equal. lia.
Qed.

(** Overwriting a buffer from position [p] to its end. *)
Lemma write_at_end buf (p : nat) bs :
  (p + length bs = length buf)%nat → write_at buf (Z.of_nat p) bs = Ret (take p buf ++ bs).
Proof.
  intros Hl. rewrite write_at_spec by lia. rewrite Nat2Z.id, drop_ge by lia.
  by rewrite app_nil_r.
Qed.

(** The first part of [processBuffer]: the one bit, and zeros up to the end
    of the buffer. *)
Lemma mark_block buf (t : nat) tail :
  length buf = 64%nat → (t < 64)%nat → take t buf = tail →
  (buf ← vset buf (Z.of_nat t) 128;
   for_range (Z.of_nat t + 1) BlockSize (λ buf i, vset buf i 0) buf) =
    Ret (tail ++ [128] ++ replicate (63 - t) 0).
Proof.
  intros Hl Ht Htk. etransitivity; [apply (mark_and_clear buf t 64 128 tail); lia || done|].
  rewrite drop_ge, app_nil_r by lia. by replace (64 - S t)%nat with (63 - t)%nat by lia.
Qed.

Lemma take_padding (tail : list Z) n m :
  (length tail + 1 + n = m)%nat → ∀ k, (n ≤ k)%nat →
  take m (tail ++ [128] ++ replicate k 0) = tail ++ [128] ++ replicate n 0.
Proof.
  intros Hm k Hk. rewrite !app_assoc. rewrite take_app_ge by (rewrite length_app; cbn; lia).
  f_equal. rewrite length_app, take_replicate. f_equal. cbn. lia.
Qed.

(** The digest words from those of the full blocks and the last one or two. *)
Lemma digest_words_last {L : BlockHashLaws H} n full tail :
  length full = (64 * n)%nat → (length tail < 64)%nat →
  let t := length tail in
  let zeros := if decide (t ≤ 55)%nat then (55 - t)%nat else (119 - t)%nat in
  digest_words (full ++ tail) = compress_blocks (if decide (t ≤ 55)%nat then 1%nat else 2%nat)
    (compress_blocks n seed full)
    (tail ++ [128] ++ replicate zeros 0 ++ length_bytes (u64 (8 * Z.of_nat (length (full ++ tail))))).
Proof.
  intros Hfull Htl t zeros. unfold digest_words. rewrite (pad_split n) by done. fold t zeros.
  set (len := length_bytes _). set (last := tail ++ _). set (m := if decide _ then 1%nat else 2%nat).
  assert (length last = 64 * m)%nat as Hlast.
  { unfold last. rewrite !length_app, length_replicate. unfold len. rewrite length_bytes_length. cbn. fold t.
    unfold zeros, m. case_decide; lia. }
  rewrite length_app, Hfull, Hlast, <-Nat.mul_add_distr_l, Nat.mul_comm, Nat.div_mul by lia.
  by rewrite compress_blocks_app.
Qed.

(** [processBuffer] computes the digest words of what was absorbed, and
    keeps the bytes that still wait in the buffer. *)
Lemma processBuffer_spec {L : BlockHashLaws H} extra st msg :
  length extra = 64%nat → absorbed st msg →
  returns (processBuffer extra st) (λ st', m_hash st' = digest_words msg ∧
    absorbed (mkHasher (m_numBytes st') (m_bufferSize st') (m_buffer st') (m_hash st)) msg).
Proof.
  intros He (n & full & tail & -> & Hfull & Htl & Hh & Hs & Ht & Hl & Hn). unfold_absorber.
  set (t := length tail) in *. set (len := length_bytes (u64 (8 * Z.of_nat (length (full ++ tail))))).
  assert (length len = 8%nat) as Hlen by apply length_bytes_length.
  assert (length_bytes (u64 (8 * u64 (m_numBytes st + m_bufferSize st))) = len) as Hbits.
  { unfold len. f_equal. rewrite Hn, u64_add_l, u64_mul_r, Hs, length_app. do 2 f_equal. lia. }
  rewrite (digest_words_last n) by done. fold t len. rewrite <-Hh.
  unfold processBuffer. rewrite Hbits, Hs, padded_length_eq by lia.
  rewrite (decide_True (P := Z.of_nat t < BlockSize)) by (unfold BlockSize; lia).
  pose proof (mark_block (m_buffer st) t tail Hl Htl Ht) as Hmark.
  destruct (vset (m_buffer st) (Z.of_nat t) 128) as [buf1| | |]; try done.
  cbn [mbind outcome_bind] in *. rewrite Hmark. cbn [mbind outcome_bind].
  assert (take t (tail ++ [128] ++ replicate (63 - t) 0) = tail) as Hkeep by (by apply take_app_length).
  destruct (decide (Z.of_nat t ≤ 55)) as [Ht55|Ht55].
  - rewrite !(decide_True (P := (t ≤ 55)%nat)) by lia.
    assert (for_range (Z.max (Z.of_nat t + 1) BlockSize) 56
      (λ extra0 i, vset extra0 (i - BlockSize) 0) extra = Ret extra) as ->.
    { unfold for_range. by rewrite (seqZ_nil _ (_ - _)) by (unfold BlockSize; lia). }
    cbn [mbind outcome_bind]. rewrite (decide_True (P := 56 < BlockSize)) by done.
    rewrite (write_at_end _ 56) by (rewrite !length_app, length_replicate, Hlen; cbn; fold t; lia).
    rewrite (take_padding tail (55 - t)) by (fold t; lia).
    cbn [mbind outcome_bind]. rewrite (decide_False (P := BlockSize < 56)) by done.
    apply returns_Ret. cbn [processBlock m_hash m_numBytes m_bufferSize m_buffer compress_blocks]. unfold_absorber.
    split. { rewrite take_ge, <-!app_assoc; [done|]. rewrite !length_app, length_replicate, Hlen. cbn. fold t. lia. }
    exists n, full, tail. cbn [m_hash m_numBytes m_bufferSize m_buffer]. fold t. split_and!; try done.
    + rewrite <-app_assoc. by apply take_app_length.
    + rewrite !length_app, length_replicate, Hlen. cbn. fold t. lia.
  - rewrite !(decide_False (P := (t ≤ 55)%nat)) by lia.
    rewrite Z.max_r by (unfold BlockSize; lia).
    pose proof (zero_fill extra 64 120 64 ltac:(lia) ltac:(lia) ltac:(lia)) as Hz.
    change (Z.of_nat 64) with BlockSize in Hz. change (Z.of_nat 120) with 120 in Hz.
    rewrite Hz. cbn [mbind outcome_bind]. rewrite (decide_False (P := 120 < BlockSize)) by done.
    rewrite (write_at_end _ 56) by
      (rewrite !length_app, length_take, length_replicate, length_drop, Hlen; cbn; lia).
    cbn [mbind outcome_bind]. rewrite (decide_True (P := BlockSize < 120)) by done.
    apply returns_Ret. cbn [processBlock m_hash m_numBytes m_bufferSize m_buffer compress_blocks]. unfold_absorber.
    split.
    { change (take (64 - 64) extra) with (@nil Z).
      rewrite app_nil_l, take_app_length', <-compress_blocks_two; try (by rewrite length_replicate).
      - cbn [compress_blocks]. replace (119 - t)%nat with (63 - t + 56)%nat by lia.
        by rewrite replicate_add, <-!app_assoc.
      - rewrite !length_app, length_replicate. cbn. fold t. lia.
      - by rewrite length_app, length_replicate, Hlen. }
    exists n, full, tail. cbn [m_hash m_numBytes m_bufferSize m_buffer]. fold t. split_and!; try done.
    rewrite !length_app, length_replicate. cbn. fold t. lia.
Qed.

(** The loop of [getHash]: it writes every word and puts the old one back. *)
Lemma restore_spec hash old :
  length hash = HashValues → length old = HashValues →
  for_range 0 (Z.of_nat HashValues) (λ '(out, hash) i,
    w ← vget hash i; old ← vget old i; hash ← vset hash i old;
    Ret (out ++ hash_bytes w, hash)) ([], hash) = Ret (hash ≫= hash_bytes, old).
Proof.
  intros Hh Ho. unfold for_range. rewrite Z.sub_0_r.
  assert (returns (foldM (λ '(out, hash) i,
    w ← vget hash i; old ← vget old i; hash ← vset hash i old;
    Ret (out ++ hash_bytes w, hash)) ([], hash) (seqZ 0 (Z.of_nat HashValues)))
    (λ r, r.1 = take (length (seqZ 0 (Z.of_nat HashValues))) hash ≫= hash_bytes ∧
      r.2 = take (length (seqZ 0 (Z.of_nat HashValues))) old ++
        drop (length (seqZ 0 (Z.of_nat HashValues))) hash)) as (r & -> & Hr).
  { apply (foldM_inv _ (λ pre r, r.1 = take (length pre) hash ≫= hash_bytes ∧
      r.2 = take (length pre) old ++ drop (length pre) hash)).
    { done. }
    intros pre i post [out h] Hseq [E1 E2]. cbn [fst snd] in E1, E2. subst out h.
    assert (i = Z.of_nat (length pre) ∧ (length pre < HashValues)%nat) as [-> Hlt].
    { assert (seqZ 0 (Z.of_nat HashValues) !! length pre = Some i) as Hi
        by (rewrite Hseq; by apply list_lookup_middle).
      apply lookup_seqZ in Hi. lia. }
    destruct (lookup_lt_is_Some_2 hash (length pre)) as [w Hw]; [lia|].
    destruct (lookup_lt_is_Some_2 old (length pre)) as [o Hold]; [lia|].
    assert (length (take (length pre) old) = length pre) as Hlp by (rewrite length_take; lia).
    assert ((take (length pre) old ++ drop (length pre) hash) !! length pre = Some w) as Hmid.
    { rewrite lookup_app_r by lia. rewrite Hlp, Nat.sub_diag, lookup_drop.
      by rewrite Nat.add_0_r. }
    rewrite (proj2 (vget_Ret (take (length pre) old ++ drop (length pre) hash) (Z.of_nat (length pre)) w)) by (rewrite Nat2Z.id; split; [lia|exact Hmid]).
    cbn [mbind outcome_bind].
    rewrite (proj2 (vget_Ret old (Z.of_nat (length pre)) o)) by (rewrite Nat2Z.id; split; [lia|exact Hold]).
    cbn [mbind outcome_bind]. rewrite vset_is_Ret by
      (rewrite length_app, Hlp, length_drop; lia).
    cbn [mbind outcome_bind]. apply returns_Ret. cbn [fst snd].
    rewrite Nat2Z.id, length_app, Nat.add_1_r.
    rewrite (take_S_r _ _ w), (take_S_r _ _ o) by done. rewrite bind_app. cbn.
    rewrite app_nil_r. split; [done|].
    rewrite insert_app_r_alt by lia. rewrite Hlp, Nat.sub_diag.
    rewrite (drop_S _ w) by done. cbn. by rewrite <-app_assoc. }
  rewrite length_seqZ, Nat2Z.id in Hr. rewrite !take_ge, drop_ge, app_nil_r in Hr by lia.
  f_equal. destruct r; cbn in Hr. by destruct Hr as [-> ->].
Qed.

Lemma absorbed_hash_length {L : BlockHashLaws H} st msg : absorbed st msg → length (m_hash st) = HashValues.
Proof.
  intros (n & full & tail & _ & _ & _ & -> & _). apply compress_blocks_length, seed_length.
Qed.

Lemma getHash_raw_spec {L : BlockHashLaws H} extra st msg :
  length extra = 64%nat → absorbed st msg →
  returns (getHash_raw extra st) (λ r, r.1 = digest msg ∧ absorbed r.2 msg).
Proof.
  intros He Ha. unfold getHash_raw.
  eapply returns_bind; [by apply processBuffer_spec|]. intros st' [Hh Ha'].
  rewrite restore_spec; [|rewrite Hh; apply compress_blocks_length, seed_length|
    by eapply absorbed_hash_length].
  cbn [mbind outcome_bind]. apply returns_Ret. cbn [fst snd]. by rewrite Hh.
Qed.

Lemma digest_length {L : BlockHashLaws H} msg : length (digest msg) = (4 * HashValues)%nat.
Proof.
  unfold digest, digest_words.
  rewrite <-(compress_blocks_length (length (pad msg) / 64) seed (pad msg) seed_length).
  induction (compress_blocks _ _ _) as [|w l IH]; [done|].
  cbn [mbind list_bind]. rewrite length_app, hash_bytes_length.
  change (length (l ≫= hash_bytes)) with (length (mbind (M := list) hash_bytes l)) in *.
  cbn [length]. lia.
Qed.

Lemma getHash_spec {L : BlockHashLaws H} extra st msg :
  length extra = 64%nat → absorbed st msg →
  returns (getHash extra st) (λ r, r.1 = to_hex (digest msg) ∧ absorbed r.2 msg).
Proof.
  intros He Ha. unfold getHash. eapply returns_bind; [by apply getHash_raw_spec|].
  intros [raw st'] [E Ha']. cbn in E, Ha'. subst raw. by apply returns_Ret.
Qed.
End blocks.

(** ** Replacing the compression function *)
Section replace.
Context {H : BlockHash} {L : BlockHashLaws H}.

Lemma pad_length msg : ∃ n, length (pad msg) = (64 * n)%nat.
Proof.
  set (n := (length msg / 64)%nat).
  pose proof (Nat.div_mod_eq (length msg) 64) as Hd.
  pose proof (Nat.mod_upper_bound (length msg) 64 ltac:(lia)) as Hm. fold n in Hd.
  rewrite <-(take_drop (64 * n) msg).
  rewrite (pad_split n) by (rewrite ?length_take, ?length_drop; lia).
  exists (n + if decide (length (drop (64 * n) msg) ≤ 55)%nat then 1 else 2)%nat.
  rewrite !length_app, length_replicate, length_bytes_length, length_take, length_drop.
  cbn [length]. case_decide; lia.
Qed.

Lemma pad_byte msg : Forall byte msg → Forall byte (pad msg).
Proof.
  intros Hm. unfold pad. rewrite !Forall_app. split_and!; [done| | |apply length_bytes_byte].
  - constructor; [unfold byte; lia|constructor].
  - apply Forall_replicate. unfold byte. lia.
Qed.

(** Two hash functions that agree in every part have the same digests. *)
Lemma digest_ext {H' : BlockHash} (P : list Z → Prop) msg :
  (∀ h block, P h → length block = 64%nat → Forall byte block →
    compress (BlockHash := H) h block = compress (BlockHash := H') h block ∧ P (compress (BlockHash := H') h block)) →
  P (seed (BlockHash := H)) → seed (BlockHash := H) = seed (BlockHash := H') →
  (∀ n, length_bytes (BlockHash := H) n = length_bytes (BlockHash := H') n) →
  (∀ w, hash_bytes (BlockHash := H) w = hash_bytes (BlockHash := H') w) →
  Forall byte msg → digest (H := H) msg = digest (H := H') msg.
Proof.
  intros Hf Hs Es El Eh Hm. unfold digest, digest_words.
  assert (pad (H := H) msg = pad (H := H') msg) as Ep by (unfold pad; by rewrite El).
  assert (length (pad (H := H) msg) = 64 * (length (pad (H := H) msg) / 64))%nat as Hn.
  { destruct (pad_length msg) as [n ->]. rewrite (Nat.mul_comm 64 n), Nat.div_mul; lia. }
  destruct (compress_blocks_ext (A := H) (A' := H') eq_refl P (length (pad (H := H) msg) / 64) seed (pad (H := H) msg)
    Hf Hs Hn (pad_byte msg Hm)) as [-> _].
  rewrite Ep, Es. by apply list_bind_ext.
Qed.
End replace.

Lemma block_hash_streams {H : BlockHash} {L : BlockHashLaws H} uninit extra :
  length uninit = 64%nat → length extra = 64%nat →
  streams (Hasher_new uninit) add (getHash extra) (λ m, to_hex (digest m)).
Proof.
  intros Hu He. exists absorbed. split_and!.
  - by apply reset_absorbed.
  - intros st m d Hm _ _. by apply add_absorbed.
  - intros st m Hm _. eapply returns_mono; [by apply getHash_spec|]. by intros r [? _].
Qed.

(** The call operators forget what was hashed before. *)
Lemma hash_call_spec {H : BlockHash} {L : BlockHashLaws H} extra st data :
  length (m_buffer st) = 64%nat → length extra = 64%nat →
  returns (hash_call extra st data) (λ r, r.1 = to_hex (digest data) ∧ absorbed r.2 data).
Proof.
  intros Hl He. unfold hash_call.
  eapply returns_bind; [apply (add_absorbed (reset st) [] data), reset_absorbed; exact Hl|]. intros st' Ha.
  exact (getHash_spec extra st' _ He Ha).
Qed.
