(* ===== verification/Sha256.v ===== *)
(** * SHA256 (src/pmud/src/common/hash-library/sha256.cpp)

    The compression function as the code has it (registers renamed instead of
    moved, the message schedule extended eight words at a time), the FIPS
    180-4 definition, and the proof that they agree. *)
From S2P Require Import Prelude.
From S2P Require Import Word.
From S2P Require Import BlockHasher.

(** ** The code *)
Definition f1 (e f g : Z) : Z :=
  let term1 := Z.lxor (Z.lxor (rotr32 e 6) (rotr32 e 11)) (rotr32 e 25) in
  let term2 := Z.lxor (Z.land e f) (Z.land (not32 e) g) in
  add32 term1 term2.

Definition f2 (a b c : Z) : Z :=
  let term1 := Z.lxor (Z.lxor (rotr32 a 2) (rotr32 a 13)) (rotr32 a 22) in
  let term2 := Z.lor (Z.land (Z.lor a b) c) (Z.land a b) in
  add32 term1 term2.

(** One line of a round, for the registers in the roles of [a] to [h]:
    [x = h + f1(e,f,g) + k + w; y = f2(a,b,c); d += x; h = x + y]. The result
    is the new [d] and [h]. *)
Definition step (a b c d e f g h k w : Z) : Z * Z :=
  let x := add32 (add32 (add32 h (f1 e f g)) k) w in
  let y := f2 a b c in
  (add32 d x, add32 x y).

Definition registers : Type := Z * Z * Z * Z * Z * Z * Z * Z.

(** A round: eight lines, with constants [k] and the words from [off] on. *)
Definition rounds (off : nat) (k words : list Z) (s : registers) : registers :=
  let K i := nth i k 0 in
  let W i := nth (off + i) words 0 in
  let '(a, b, c, d, e, f, g, h) := s in
  let '(d, h) := step a b c d e f g h (K 0%nat) (W 0%nat) in
  let '(c, g) := step h a b c d e f g (K 1%nat) (W 1%nat) in
  let '(b, f) := step g h a b c d e f (K 2%nat) (W 2%nat) in
  let '(a, e) := step f g h a b c d e (K 3%nat) (W 3%nat) in
  let '(h, d) := step e f g h a b c d (K 4%nat) (W 4%nat) in
  let '(g, c) := step d e f g h a b c (K 5%nat) (W 5%nat) in
  let '(f, b) := step c d e f g h a b (K 6%nat) (W 6%nat) in
  let '(e, a) := step b c d e f g h a (K 7%nat) (W 7%nat) in
  (a, b, c, d, e, f, g, h).

(** [words[i] = words[i-16] + (...) + words[i-7] + (...)] for the next [i];
    the list holds the part of the array that has been assigned. *)
Definition push_word (words : list Z) : list Z :=
  let i := length words in
  let W k := nth (i - k) words 0 in
  words ++ [add32 (add32 (add32 (W 16%nat)
    (Z.lxor (Z.lxor (rotr32 (W 15%nat) 7) (rotr32 (W 15%nat) 18)) (Z.shiftr (W 15%nat) 3)))
    (W 7%nat))
    (Z.lxor (Z.lxor (rotr32 (W 2%nat) 17) (rotr32 (W 2%nat) 19)) (Z.shiftr (W 2%nat) 10))].

(** [for (; i < n; i++)] *)
Definition extend (n : nat) (words : list Z) : list Z :=
  Nat.iter (n - length words) push_word words.

(** The first to the eighth round, from the first sixteen words. *)
Definition all_rounds (words : list Z) (s : registers) : registers :=
  let s := rounds 0
    [0x428a2f98; 0x71374491; 0xb5c0fbcf; 0xe9b5dba5;
     0x3956c25b; 0x59f111f1; 0x923f82a4; 0xab1c5ed5] words s in
  let s := rounds 8
    [0xd807aa98; 0x12835b01; 0x243185be; 0x550c7dc3;
     0x72be5d74; 0x80deb1fe; 0x9bdc06a7; 0xc19bf174] words s in
  let words := extend 24 words in
  let s := rounds 16
    [0xe49b69c1; 0xefbe4786; 0x0fc19dc6; 0x240ca1cc;
     0x2de92c6f; 0x4a7484aa; 0x5cb0a9dc; 0x76f988da] words s in
  let words := extend 32 words in
  let s := rounds 24
    [0x983e5152; 0xa831c66d; 0xb00327c8; 0xbf597fc7;
     0xc6e00bf3; 0xd5a79147; 0x06ca6351; 0x14292967] words s in
  let words := extend 40 words in
  let s := rounds 32
    [0x27b70a85; 0x2e1b2138; 0x4d2c6dfc; 0x53380d13;
     0x650a7354; 0x766a0abb; 0x81c2c92e; 0x92722c85] words s in
  let words := extend 48 words in
  let s := rounds 40
    [0xa2bfe8a1; 0xa81a664b; 0xc24b8b70; 0xc76c51a3;
     0xd192e819; 0xd6990624; 0xf40e3585; 0x106aa070] words s in
  let words := extend 56 words in
  let s := rounds 48
    [0x19a4c116; 0x1e376c08; 0x2748774c; 0x34b0bcb5;
     0x391c0cb3; 0x4ed8aa4a; 0x5b9cca4f; 0x682e6ff3] words s in
  let words := extend 64 words in
  let s := rounds 56
    [0x748f82ee; 0x78a5636f; 0x84c87814; 0x8cc70208;
     0x90befffa; 0xa4506ceb; 0xbef9a3f7; 0xc67178f2] words s in
  s.

Definition sha256_processBlock {E : ByteOrder} (m_hash data : list Z) : list Z :=
  match m_hash with
  | [h0; h1; h2; h3; h4; h5; h6; h7] =>
      let words := from_big swap <$> native_words 16 data in
      let '(a, b, c, d, e, f, g, h) := all_rounds words (h0, h1, h2, h3, h4, h5, h6, h7) in
      [add32 h0 a; add32 h1 b; add32 h2 c; add32 h3 d;
       add32 h4 e; add32 h5 f; add32 h6 g; add32 h7 h]
  | _ => m_hash
  end.

(** [m_hash] after [reset], without [SHA2_224_SEED_VECTOR]. *)
Definition sha256_seed : list Z :=
  [0x6a09e667; 0xbb67ae85; 0x3c6ef372; 0xa54ff53a;
   0x510e527f; 0x9b05688c; 0x1f83d9ab; 0x5be0cd19].

(** The message length, most significant byte first. *)
Definition sha256_length_bytes (msgBits : Z) : list Z := byte_at msgBits <$> [7; 6; 5; 4; 3; 2; 1; 0].

(** One word of the raw hash. *)
Definition sha256_hash_bytes (w : Z) : list Z := byte_at w <$> [3; 2; 1; 0].

Definition SHA256 {E : ByteOrder} : BlockHash := {|
  HashValues := 8;
  seed := sha256_seed;
  compress := sha256_processBlock;
  length_bytes := sha256_length_bytes;
  hash_bytes := sha256_hash_bytes
|}.
#[local] Existing Instance SHA256.

#[export] Instance SHA256_laws {E : ByteOrder} : BlockHashLaws SHA256.
Proof.
  split; try done; try (cbn; lia).
  - intros h data Hl. do 8 (destruct h as [|? h]; [done|]). destruct h; [|done].
    cbn -[rounds extend native_words]. by repeat case_match.
  - intros n. unfold length_bytes, SHA256, sha256_length_bytes. cbn -[byte_at].
    rewrite !Forall_cons, Forall_nil. split_and!; try apply byte_at_range; done.
Qed.

(** The members of the class. *)
Definition SHA256_new {E : ByteOrder} : list Z → Hasher := Hasher_new.
Definition SHA256_add {E : ByteOrder} : Hasher → list Z → outcome Hasher := add.
Definition SHA256_processBuffer {E : ByteOrder} : list Z → Hasher → outcome Hasher := processBuffer.
Definition SHA256_getHash {E : ByteOrder} : list Z → Hasher → outcome (string * Hasher) := getHash.
Definition SHA256_getHash_raw {E : ByteOrder} : list Z → Hasher → outcome (list Z * Hasher) := getHash_raw.
Definition SHA256_call {E : ByteOrder} : list Z → Hasher → list Z → outcome (string * Hasher) := hash_call.

(** ** FIPS 180-4 *)
Definition ROTR (n x : Z) : Z := x / 2 ^ n + x mod 2 ^ n * 2 ^ (32 - n).
Definition Sigma0 (x : Z) : Z := Z.lxor (Z.lxor (ROTR 2 x) (ROTR 13 x)) (ROTR 22 x).
Definition Sigma1 (x : Z) : Z := Z.lxor (Z.lxor (ROTR 6 x) (ROTR 11 x)) (ROTR 25 x).
Definition sigma0 (x : Z) : Z := Z.lxor (Z.lxor (ROTR 7 x) (ROTR 18 x)) (x / 2 ^ 3).
Definition sigma1 (x : Z) : Z := Z.lxor (Z.lxor (ROTR 17 x) (ROTR 19 x)) (x / 2 ^ 10).
Definition Ch (x y z : Z) : Z := Z.lxor (Z.land x y) (Z.land (Z.lnot x) z).
Definition Maj (x y z : Z) : Z := Z.lxor (Z.lxor (Z.land x y) (Z.land x z)) (Z.land y z).

(** The first 64 primes. *)
Definition primes : list Z :=
  [2; 3; 5; 7; 11; 13; 17; 19; 23; 29; 31; 37; 41; 43; 47; 53;
   59; 61; 67; 71; 73; 79; 83; 89; 97; 101; 103; 107; 109; 113; 127; 131;
   137; 139; 149; 151; 157; 163; 167; 173; 179; 181; 191; 193; 197; 199; 211; 223;
   227; 229; 233; 239; 241; 251; 257; 263; 269; 271; 277; 281; 283; 293; 307; 311].

(** The cube root of [n], rounded down, bit by bit from bit [b - 1]. *)
Fixpoint cube_root (b : nat) (n r : Z) : Z :=
  match b with
  | O => r
  | S b => let r' := r + 2 ^ Z.of_nat b in cube_root b n (if r' ^ 3 <=? n then r' else r)
  end.

(** The first 32 bits of the fractional parts of the cube roots of the
    primes, and of the square roots of the first eight of them. *)
Definition K256 : list Z := (λ p, u32 (cube_root 35 (p * 2 ^ 96) 0)) <$> primes.
Definition fips_H0 : list Z := (λ p, u32 (Z.sqrt (p * 2 ^ 64))) <$> take 8 primes.

Definition fips_round (s : registers) (kw : Z * Z) : registers :=
  let '(a, b, c, d, e, f, g, h) := s in
  let T1 := h + Sigma1 e + Ch e f g + kw.1 + kw.2 in
  let T2 := Sigma0 a + Maj a b c in
  (u32 (T1 + T2), a, b, c, u32 (d + T1), e, f, g).

Definition schedule_step (W : list Z) : list Z :=
  let t := length W in
  let w k := nth (t - k) W 0 in
  W ++ [u32 (sigma1 (w 2%nat) + w 7%nat + sigma0 (w 15%nat) + w 16%nat)].

(** The message schedule of a block, 64 words. *)
Definition schedule (M : list Z) : list Z := Nat.iter 48 schedule_step (read_words_be 16 M).

Definition fips_compress (H M : list Z) : list Z :=
  match H with
  | [h0; h1; h2; h3; h4; h5; h6; h7] =>
      let '(a, b, c, d, e, f, g, h) :=
        foldl fips_round (h0, h1, h2, h3, h4, h5, h6, h7) (zip K256 (schedule M)) in
      [u32 (h0 + a); u32 (h1 + b); u32 (h2 + c); u32 (h3 + d);
       u32 (h4 + e); u32 (h5 + f); u32 (h6 + g); u32 (h7 + h)]
  | _ => H
  end.

(** SHA-256 of a message, as FIPS 180-4 has it. *)
Definition fips_sha256 (msg : list Z) : list Z :=
  digest (H := {| HashValues := 8; seed := fips_H0; compress := fips_compress;
    length_bytes := be_bytes 8; hash_bytes := be_bytes 4 |}) msg.

(** "abc", on a host of either byte order. *)
Example sha256_abc {E : ByteOrder} :
  ('(text, _) ← SHA256_call (replicate 64 7) (SHA256_new (replicate 64 9)) [97; 98; 99]; Ret text) =
  Ret "ba7816bf8f01cfea414140de5dae2223b00361a396177a9cb410ff61f20015ad".
Proof. destruct E; vm_compute; reflexivity. Qed.

(** ** Helper lemmas *)
Definition reg_words (s : registers) : Prop :=
  let '(a, b, c, d, e, f, g, h) := s in
  word a ∧ word b ∧ word c ∧ word d ∧ word e ∧ word f ∧ word g ∧ word h.

Lemma land_not32 x z : word z → Z.land (not32 x) z = Z.land (Z.lnot x) z.
Proof.
  intros Hz. apply Z.bits_inj'. intros n Hn.
  rewrite !Z.land_spec, not32_spec, Z.lnot_spec by done. case_decide; [done|].
  rewrite (testbit_high z 32 n) by (unfold word in Hz; lia). by rewrite !andb_false_r.
Qed.

Lemma majority a b c :
  Z.lor (Z.land (Z.lor a b) c) (Z.land a b) = Maj a b c.
Proof. unfold Maj. bitwise. Qed.

Lemma sha256_f1_eq e f g : word e → word g → f1 e f g = u32 (Sigma1 e + Ch e f g).
Proof.
  intros He Hg. unfold f1, Sigma1, Ch. rewrite !rotr32_eq by (done || lia).
  rewrite land_not32 by done. done.
Qed.

Lemma sha256_f2_eq a b c : word a → f2 a b c = u32 (Sigma0 a + Maj a b c).
Proof.
  intros Ha. unfold f2, Sigma0. rewrite !rotr32_eq by (done || lia). by rewrite majority.
Qed.

Lemma u32_sum3 h f k w : add32 (add32 (add32 h (u32 f)) k) w = u32 (h + f + k + w).
Proof.
  unfold add32. by rewrite (u32_add_r h f), (u32_add_l (h + f) k), u32_add_l.
Qed.

(** A line of the code is a round of the standard with the registers in
    place. *)
Lemma fips_round_step a b c d e f g h k w :
  reg_words (a, b, c, d, e, f, g, h) →
  fips_round (a, b, c, d, e, f, g, h) (k, w) =
    (let '(d', h') := step a b c d e f g h k w in (h', a, b, c, d', e, f, g)) ∧
  word (step a b c d e f g h k w).1 ∧ word (step a b c d e f g h k w).2.
Proof.
  intros (Ha & Hb & Hc & Hd & He & Hf & Hg & Hh). unfold step.
  rewrite sha256_f1_eq, sha256_f2_eq, u32_sum3 by done. split; [|split; apply add32_range].
  cbn [fips_round fst snd]. unfold add32. rewrite !u32_add_r, u32_add_l. rewrite !Z.add_assoc.
  done.
Qed.

Lemma nth_drop_add (l : list Z) (off i : nat) : nth (off + i) l 0 = nth i (drop off l) 0.
Proof.
  revert l. induction off as [|off IH]; intros l; [done|]. destruct l; [by destruct i|]. apply IH.
Qed.

Ltac one_round :=
  match goal with
  | |- context [fips_round (?a, ?b, ?c, ?d, ?e, ?f, ?g, ?h) (?k, ?w)] =>
      destruct (fips_round_step a b c d e f g h k w) as (-> & ? & ?);
      [unfold reg_words; tauto|];
      let d' := fresh "d" in let h' := fresh "h" in
      destruct (step a b c d e f g h k w) as [d' h']; cbn [fst snd] in *
  end.

(** Eight lines are eight rounds. *)
Lemma rounds_eq off k words s :
  length k = 8%nat → (off + 8 ≤ length words)%nat → reg_words s →
  rounds off k words s = foldl fips_round s (zip k (take 8 (drop off words))) ∧
  reg_words (rounds off k words s).
Proof.
  intros Hk Hw Hs. destruct s as [[[[[[[a b] c] d] e] f] g] h].
  unfold rounds. cbn beta zeta. rewrite !nth_drop_add.
  assert (8 ≤ length (drop off words))%nat as Hl by (rewrite length_drop; lia).
  generalize dependent (drop off words). intros W Hl.
  do 8 (destruct k as [|? k]; [done|]). destruct k; [|done].
  do 8 (destruct W as [|? W]; [cbn in Hl; lia|]).
  destruct Hs as (Ha & Hb & Hc & Hd & He & Hf & Hg & Hh).
  cbn [nth take zip foldl zip_with].
  do 8 one_round. unfold reg_words. tauto.
Qed.

(** The code's extension of the words is the schedule's. *)
Lemma sha256_push_word_eq W : Forall word W → (16 ≤ length W)%nat →
  push_word W = schedule_step W ∧ Forall word (push_word W).
Proof.
  intros HW Hl.
  assert (∀ k, (1 ≤ k ≤ 16)%nat → word (nth (length W - k) W 0)) as Hw.
  { intros k Hk. rewrite Forall_forall in HW. apply HW, list_elem_of_In, nth_In. lia. }
  split.
  - unfold push_word, schedule_step, sigma0, sigma1, ROTR.
    rewrite !rotr32_eq by (lia || apply Hw; lia). rewrite !Z.shiftr_div_pow2 by lia.
    rewrite u32_sum4. do 3 f_equal. lia.
  - apply Forall_app. split; [done|]. constructor; [apply add32_range|constructor].
Qed.

Section block.
Context (M : list Z) (HM : Forall word M) (HMl : length M = 16%nat).

Definition sched (j : nat) : list Z := Nat.iter j schedule_step M.

Lemma sched_S j : ∃ x, sched (S j) = sched j ++ [x].
Proof. eexists. reflexivity. Qed.

Lemma sched_length j : length (sched j) = (16 + j)%nat.
Proof.
  induction j as [|j IH]; [done|]. destruct (sched_S j) as [x ->]. rewrite length_app, IH. cbn. lia.
Qed.

Lemma sched_word j : Forall word (sched j).
Proof.
  induction j as [|j IH]; [done|]. 
  destruct (sha256_push_word_eq (sched j) IH) as [E HF]; [rewrite sched_length; lia|].
  by rewrite E in HF.
Qed.

Lemma extend_sched n j : (16 + j ≤ n)%nat → extend n (sched j) = sched (n - 16).
Proof.
  intros Hn. unfold extend. rewrite sched_length.
  replace (n - 16)%nat with (n - (16 + j) + j)%nat by lia.
  induction (n - (16 + j))%nat as [|k IH]; [done|].
  change (push_word (Nat.iter k push_word (sched j)) = sched (S (k + j))). rewrite IH.
  destruct (sha256_push_word_eq (sched (k + j)) (sched_word _)) as [-> _]; [rewrite sched_length; lia|].
  done.
Qed.

Lemma extend_M n : (16 ≤ n)%nat → extend n M = sched (n - 16).
Proof. intros Hn. by apply (extend_sched n 0). Qed.

Lemma take_sched m j k : (m ≤ 16 + j)%nat → (j ≤ k)%nat → take m (sched k) = take m (sched j).
Proof.
  intros Hm Hk. replace k with (k - j + j)%nat by lia.
  induction (k - j)%nat as [|i IH]; [done|]. cbn [Nat.add]. rewrite <-IH.
  destruct (sched_S (i + j)) as [x ->]. apply take_app_le. rewrite sched_length. lia.
Qed.

Lemma rounds_sched off k j s :
  length k = 8%nat → (off + 8 ≤ 16 + j)%nat → (j ≤ 48)%nat → reg_words s →
  rounds off k (sched j) s = foldl fips_round s (zip k (take 8 (drop off (sched 48)))) ∧
  reg_words (rounds off k (sched j) s).
Proof.
  intros Hk Ho Hj Hs.
  replace (take 8 (drop off (sched 48))) with (take 8 (drop off (sched j))).
  { apply rounds_eq; [done|rewrite sched_length; lia|done]. }
  rewrite !take_drop_commute. rewrite (take_sched _ j 48); [done|lia|lia].
Qed.
End block.

Lemma foldl_fmap_ext {S A B} (f : S → B → S) (f' : S → A → S) (h : A → B) s l :
  (∀ s a, f' s a = f s (h a)) → foldl f' s l = foldl f s (h <$> l).
Proof. intros Hf. revert s. induction l as [|a l IH]; intros s; cbn; [done|]. by rewrite Hf, IH. Qed.

(** A fold over two lists, eight entries at a time. *)
Lemma foldl_zip_eights {S} (f : S → Z * Z → S) (n : nat) s (k W : list Z) :
  length k = (8 * n)%nat → length W = (8 * n)%nat →
  foldl f s (zip k W) =
    foldl (λ s i, foldl f s (zip (take 8 (drop (8 * i) k)) (take 8 (drop (8 * i) W)))) s (seq 0 n).
Proof.
  revert s k W. induction n as [|n IH]; intros s k W Hk HW.
  { apply nil_length_inv in Hk as ->. done. }
  rewrite <-(take_drop 8 k), <-(take_drop 8 W) at 1.
  rewrite (zip_with_app pair) by (rewrite !length_take; lia).
  rewrite foldl_app, IH by (rewrite length_drop; lia). cbn [seq foldl].
  rewrite <-fmap_S_seq. apply foldl_fmap_ext.
  intros t i. by rewrite !drop_drop, !Nat.mul_succ_r, !(Nat.add_comm _ 8).
Qed.

Lemma schedule_sched data : schedule data = sched (read_words_be 16 data) 48.
Proof. unfold schedule, sched. reflexivity. Qed.

(** The next eight lines of [processBlock]. *)
Ltac one_block M HMl :=
  match goal with |- context [rounds ?off ?k ?W ?s] =>
    lazymatch s with
    | context [rounds] => fail
    | _ =>
      let E := fresh in let R := fresh in
      lazymatch W with
      | sched M ?j => destruct (rounds_sched M HMl off k j s) as [E R]
      | M => destruct (rounds_sched M HMl off k 0 s) as [E R]
      end; [done|lia|lia|first [assumption | unfold reg_words; tauto]|]; 
      change (sched M 0) with M in E, R; rewrite E in R |- *; clear E
    end
  end.

(** The unrolled rounds are the rounds of the standard. *)
(** The constants, computed once. *)
Definition K256_computed : list Z := Eval vm_compute in K256.

Lemma K256_table : K256_computed = K256.
Proof. vm_compute. reflexivity. Qed.

(** A cube root found bit by bit is one. *)
Lemma cube_root_spec b n r :
  0 ≤ r → r ^ 3 ≤ n → n < (r + 2 ^ Z.of_nat b) ^ 3 →
  cube_root b n r ^ 3 ≤ n < (cube_root b n r + 1) ^ 3.
Proof.
  revert r. induction b as [|b IH]; intros r Hr Hl Hu; cbn [cube_root]; [done|].
  assert (0 < 2 ^ Z.of_nat b) as Hp by (apply Z.pow_pos_nonneg; lia).
  rewrite Nat2Z.inj_succ, Z.pow_succ_r in Hu by lia.
  destruct (Z.leb_spec ((r + 2 ^ Z.of_nat b) ^ 3) n); apply IH; try lia;
    replace (r + 2 ^ Z.of_nat b + 2 ^ Z.of_nat b) with (r + 2 * 2 ^ Z.of_nat b) by lia; done.
Qed.

Lemma sha256_rounds_fips M s :
  Forall word M → length M = 16%nat → reg_words s →
  all_rounds M s = foldl fips_round s (zip K256 (sched M 48)).
Proof.
  intros HM HMl Hs. unfold all_rounds. cbv zeta.
  rewrite (extend_M M HM HMl 24), !extend_sched by (done || lia).
  repeat one_block M HMl.
  assert (length (sched M 48) = 64%nat) as HS by (by rewrite (sched_length M HMl)).
  clear - HS. generalize dependent (sched M 48). intros S HS.
  rewrite <-K256_table. by rewrite (foldl_zip_eights fips_round 8 s K256_computed S eq_refl HS).
Qed.

(** [processBlock] computes the compression function of the standard. *)
Lemma sha256_processBlock_fips {E : ByteOrder} h data :
  length h = 8%nat → Forall word h → length data = 64%nat → Forall byte data →
  sha256_processBlock h data = fips_compress h data ∧ Forall word (fips_compress h data) ∧
  length (fips_compress h data) = 8%nat.
Proof.
  intros Hl Hw Hd Hb.
  do 8 (destruct h as [|? h]; [done|]). destruct h; [|done].
  rewrite !Forall_cons in Hw. destruct Hw as (?&?&?&?&?&?&?&?&_).
  unfold sha256_processBlock, fips_compress. rewrite native_words_big by done.
  rewrite schedule_sched, <-sha256_rounds_fips; [|by apply read_words_be_word|
    apply read_words_be_length|unfold reg_words; tauto].
  cbv zeta. destruct (all_rounds _ _) as [[[[[[[a b] c] d] e] f] g] h].
  split; [done|]. rewrite !Forall_cons, Forall_nil. split; [|done].
  split_and!; apply u32_range || done.
Qed.

(** Every digest of the class is the standard's. *)
Lemma digest_fips {E : ByteOrder} msg : Forall byte msg → digest msg = fips_sha256 msg.
Proof.
  intros Hb. unfold fips_sha256.
  apply (digest_ext (H := SHA256) (λ h, length h = 8%nat ∧ Forall word h)).
  - intros h block [Hl Hw] Hlb Hbb. destruct (sha256_processBlock_fips h block) as (Eq & ? & ?); try done.
  - split; [done|]. change (Forall word sha256_seed). unfold sha256_seed, word.
    rewrite !Forall_cons, Forall_nil. lia.
  - vm_compute. reflexivity.
  - intros n. exact (byte_at_be_bytes 8 n).
  - intros w. exact (byte_at_be_bytes 4 w).
  - done.
Qed.

Lemma fips_sha256_length msg : Forall byte msg → length (fips_sha256 msg) = 32%nat.
Proof. intros Hb. rewrite <-(digest_fips (E := LittleEndian)) by done.
  exact (digest_length (H := SHA256) (L := SHA256_laws (E := LittleEndian)) msg). Qed.

Lemma SHA256_call_fips {E : ByteOrder} uninit extra msg :
  length uninit = 64%nat → length extra = 64%nat → Forall byte msg →
  returns (SHA256_call extra (SHA256_new uninit) msg) (λ r, r.1 = to_hex (fips_sha256 msg)).
Proof.
  intros Hu He Hb. eapply returns_mono; [by apply hash_call_spec|].
  intros r [-> _]. by rewrite digest_fips.
Qed.

Lemma SHA256_streams {E : ByteOrder} uninit extra :
  length uninit = 64%nat → length extra = 64%nat →
  streams (SHA256_new uninit) SHA256_add (SHA256_getHash extra) (λ m, to_hex (fips_sha256 m)).
Proof.
  intros Hu He. unfold SHA256_new, SHA256_add, SHA256_getHash. eapply streams_ext; [by apply block_hash_streams|].
  intros m Hm. cbn beta. f_equal. by apply digest_fips.
Qed.

(** ** Main theorem *)

(** C1. The SHA256 class computes SHA-256 as FIPS 180-4 defines it: for
    every message of bytes, in pieces of any size, [getHash] returns the
    hexadecimal text of the standard's digest, on a host of either byte order. *)
Theorem SHA256_is_fips {E : ByteOrder} uninit extra chunks :
  length uninit = 64%nat → length extra = 64%nat → Forall byte (concat chunks) →
  returns (st ← foldM SHA256_add (SHA256_new uninit) chunks;
           '(text, _) ← SHA256_getHash extra st; Ret text) (λ text,
    text = to_hex (fips_sha256 (concat chunks))).
Proof.
  intros Hu He Hb.
  eapply returns_bind; [by apply (add_chunks chunks _ []), reset_absorbed|]. intros st Ha.
  eapply returns_bind; [exact (getHash_spec extra st _ He Ha)|]. intros [t st'] [Et _].
  cbn [fst] in Et. subst t. apply returns_Ret. f_equal. by apply digest_fips.
Qed.

#[local] Instance sample_host : ByteOrder := BigEndian.

Lemma SHA256_is_fips_witness :
  length (replicate 64 0) = 64%nat ∧ Forall byte (concat [[97; 98]; [99]]) ∧
  returns (st ← foldM SHA256_add (SHA256_new (replicate 64 0)) [[97; 98]; [99]];
           '(text, _) ← SHA256_getHash (replicate 64 0) st; Ret text) (λ text,
    text = to_hex (fips_sha256 [97; 98; 99])).
Proof.
  assert (Forall byte (concat [[97; 98]; [99]])) as Hb.
  { cbn. rewrite !Forall_cons, Forall_nil. unfold byte. lia. }
  split; [reflexivity|]. split; [exact Hb|].
  exact (SHA256_is_fips (replicate 64 0) (replicate 64 0) [[97; 98]; [99]] eq_refl eq_refl Hb).
Defined.
