(* ===== verification/Sha1.v ===== *)
(** * SHA1 (src/pmud/src/common/hash-library/sha1.cpp)

    The compression function as the code has it (five lines per loop
    iteration, the registers renamed instead of moved), the FIPS 180-4
    definition, and the proof that they agree. *)
From S2P Require Import Prelude.
From S2P Require Import Word.
From S2P Require Import BlockHasher.

(** ** The code *)
Definition f1 (b c d : Z) : Z := Z.lxor d (Z.land b (Z.lxor c d)).
Definition f2 (b c d : Z) : Z := Z.lxor (Z.lxor b c) d.
Definition f3 (b c d : Z) : Z := Z.lor (Z.lor (Z.land b c) (Z.land b d)) (Z.land c d).

(** One line, for the registers in the roles of [a] to [e]:
    [e += rotate(a,5) + f(b,c,d) + w + k; b = rotate(b,30)]. The result is
    the new [e] and [b]. *)
Definition line (f : Z → Z → Z → Z) (k a b c d e w : Z) : Z * Z :=
  (add32 e (add32 (add32 (add32 (rotl32 a 5) (f b c d)) w) k), rotl32 b 30).

Definition registers : Type := Z * Z * Z * Z * Z.

(** The body of the loops: five lines, from [offset = 5*i]. *)
Definition five (f : Z → Z → Z → Z) (k : Z) (words : list Z) (s : registers) (i : nat) : registers :=
  let offset := (5 * i)%nat in
  let W j := nth (offset + j) words 0 in
  let '(a, b, c, d, e) := s in
  let '(e, b) := line f k a b c d e (W 0%nat) in
  let '(d, a) := line f k e a b c d (W 1%nat) in
  let '(c, e) := line f k d e a b c (W 2%nat) in
  let '(b, d) := line f k c d e a b (W 3%nat) in
  let '(a, c) := line f k b c d e a (W 4%nat) in
  (a, b, c, d, e).

(** [words[i] = rotate(words[i-3] ^ words[i-8] ^ words[i-14] ^ words[i-16], 1)]
    for the next [i]. *)
Definition push_word (words : list Z) : list Z :=
  let i := length words in
  let W k := nth (i - k) words 0 in
  words ++ [rotl32 (Z.lxor (Z.lxor (Z.lxor (W 3%nat) (W 8%nat)) (W 14%nat)) (W 16%nat)) 1].

(** The four loops; [seq lo 4] is [for (int i = lo; i < lo + 4; i++)]. *)
Definition all_rounds (words : list Z) (s : registers) : registers :=
  let s := foldl (five f1 0x5a827999 words) s (seq 0 4) in
  let s := foldl (five f2 0x6ed9eba1 words) s (seq 4 4) in
  let s := foldl (five f3 0x8f1bbcdc words) s (seq 8 4) in
  foldl (five f2 0xca62c1d6 words) s (seq 12 4).

Definition sha1_processBlock {E : ByteOrder} (m_hash data : list Z) : list Z :=
  match m_hash with
  | [h0; h1; h2; h3; h4] =>
      let words := from_big swap <$> native_words 16 data in
      let words := Nat.iter 64 push_word words in
      let '(a, b, c, d, e) := all_rounds words (h0, h1, h2, h3, h4) in
      [add32 h0 a; add32 h1 b; add32 h2 c; add32 h3 d; add32 h4 e]
  | _ => m_hash
  end.

Definition sha1_seed : list Z := [0x67452301; 0xefcdab89; 0x98badcfe; 0x10325476; 0xc3d2e1f0].
Definition sha1_length_bytes (msgBits : Z) : list Z := byte_at msgBits <$> [7; 6; 5; 4; 3; 2; 1; 0].
Definition sha1_hash_bytes (w : Z) : list Z := byte_at w <$> [3; 2; 1; 0].

Definition SHA1 {E : ByteOrder} : BlockHash := {|
  HashValues := 5;
  seed := sha1_seed;
  compress := sha1_processBlock;
  length_bytes := sha1_length_bytes;
  hash_bytes := sha1_hash_bytes
|}.
#[local] Existing Instance SHA1.

#[export] Instance SHA1_laws {E : ByteOrder} : BlockHashLaws SHA1.
Proof.
  split; try done; try (cbn; lia).
  - intros h data Hl. do 5 (destruct h as [|? h]; [done|]). destruct h; [|done].
    cbn -[all_rounds native_words Nat.iter]. by repeat case_match.
  - intros n. unfold length_bytes, SHA1, sha1_length_bytes. cbn -[byte_at].
    rewrite !Forall_cons, Forall_nil. split_and!; try apply byte_at_range; done.
Qed.

(** The members of the class. *)
Definition SHA1_new {E : ByteOrder} : list Z → Hasher := Hasher_new.
Definition SHA1_add {E : ByteOrder} : Hasher → list Z → outcome Hasher := add.
Definition SHA1_processBuffer {E : ByteOrder} : list Z → Hasher → outcome Hasher := processBuffer.
Definition SHA1_getHash {E : ByteOrder} : list Z → Hasher → outcome (string * Hasher) := getHash.
Definition SHA1_getHash_raw {E : ByteOrder} : list Z → Hasher → outcome (list Z * Hasher) := getHash_raw.
Definition SHA1_call {E : ByteOrder} : list Z → Hasher → list Z → outcome (string * Hasher) := hash_call.

(** "abc", on a host of either byte order. *)
Example sha1_abc {E : ByteOrder} :
  ('(text, _) ← SHA1_call (replicate 64 7) (SHA1_new (replicate 64 9)) [97; 98; 99]; Ret text) =
  Ret "a9993e364706816aba3e25717850c26c9cd0d89d".
Proof. destruct E; vm_compute; reflexivity. Qed.

(** ** FIPS 180-4 *)
Definition ROTL (n x : Z) : Z := x mod 2 ^ (32 - n) * 2 ^ n + x / 2 ^ (32 - n).
Definition Ch (x y z : Z) : Z := Z.lxor (Z.land x y) (Z.land (Z.lnot x) z).
Definition Parity (x y z : Z) : Z := Z.lxor (Z.lxor x y) z.
Definition Maj (x y z : Z) : Z := Z.lxor (Z.lxor (Z.land x y) (Z.land x z)) (Z.land y z).

(** The function and the constant of round [t]. *)
Definition f_t (t : nat) : Z → Z → Z → Z :=
  if (t <? 20)%nat then Ch else if (t <? 40)%nat then Parity else if (t <? 60)%nat then Maj else Parity.
Definition K_t (t : nat) : Z :=
  if (t <? 20)%nat then 0x5a827999 else if (t <? 40)%nat then 0x6ed9eba1
  else if (t <? 60)%nat then 0x8f1bbcdc else 0xca62c1d6.

Definition fips_round (W : list Z) (s : registers) (t : nat) : registers :=
  let '(a, b, c, d, e) := s in
  (u32 (ROTL 5 a + f_t t b c d + e + K_t t + nth t W 0), a, ROTL 30 b, c, d).

Definition schedule_step (W : list Z) : list Z :=
  let t := length W in
  let w k := nth (t - k) W 0 in
  W ++ [ROTL 1 (Z.lxor (Z.lxor (Z.lxor (w 3%nat) (w 8%nat)) (w 14%nat)) (w 16%nat))].

Definition fips_compress (H M : list Z) : list Z :=
  match H with
  | [h0; h1; h2; h3; h4] =>
      let W := Nat.iter 64 schedule_step (read_words_be 16 M) in
      let '(a, b, c, d, e) := foldl (fips_round W) (h0, h1, h2, h3, h4) (seq 0 80) in
      [u32 (h0 + a); u32 (h1 + b); u32 (h2 + c); u32 (h3 + d); u32 (h4 + e)]
  | _ => H
  end.

(** The initial value: the nibbles 0 to f up, down, and 0, f, 1, e, ... *)
Definition fips_H0 : list Z :=
  be_num <$> [[0x67; 0x45; 0x23; 0x01]; [0xef; 0xcd; 0xab; 0x89]; [0x98; 0xba; 0xdc; 0xfe];
              [0x10; 0x32; 0x54; 0x76]; [0xc3; 0xd2; 0xe1; 0xf0]].

Definition fips_sha1 (msg : list Z) : list Z :=
  digest (H := {| HashValues := 5; seed := fips_H0; compress := fips_compress;
    length_bytes := be_bytes 8; hash_bytes := be_bytes 4 |}) msg.

(** ** Helper lemmas *)
Definition reg_words (s : registers) : Prop :=
  let '(a, b, c, d, e) := s in word a ∧ word b ∧ word c ∧ word d ∧ word e.

Lemma sha1_f1_eq b c d : f1 b c d = Ch b c d.
Proof. unfold f1, Ch. bitwise_not. Qed.

Lemma f3_eq b c d : f3 b c d = Maj b c d.
Proof. unfold f3, Maj. bitwise. Qed.

Lemma sha1_line_eq f k a b c d e w :
  word a → word b → line f k a b c d e w = (u32 (ROTL 5 a + f b c d + e + k + w), ROTL 30 b).
Proof.
  intros Ha Hb. unfold line. rewrite !rotl32_eq by (done || lia). f_equal.
  rewrite u32_sum4. unfold add32. rewrite u32_add_r. f_equal. unfold ROTL. lia.
Qed.

(** A line of the code is a round of the standard with the registers in
    place. *)
Lemma fips_round_line f k W t a b c d e :
  (∀ x y z, f x y z = f_t t x y z) → k = K_t t → reg_words (a, b, c, d, e) →
  fips_round W (a, b, c, d, e) t =
    (let '(e', b') := line f k a b c d e (nth t W 0) in (e', a, b', c, d)) ∧
  word (line f k a b c d e (nth t W 0)).1 ∧ word (line f k a b c d e (nth t W 0)).2.
Proof.
  intros Hf -> (Ha & Hb & Hc & Hd & He). rewrite sha1_line_eq by done. cbn [fips_round fst snd].
  rewrite Hf. split_and!; [done|apply u32_range|].
  unfold ROTL. rewrite <-(rotl32_eq b 30) by (done || lia). by apply rotl32_range.
Qed.

Ltac one_line f k :=
  match goal with
  | |- context [fips_round ?W (?a, ?b, ?c, ?d, ?e) ?t] =>
      destruct (fips_round_line f k W t a b c d e) as (-> & ? & ?);
      [auto with lia|auto with lia|unfold reg_words; tauto|];
      let e' := fresh "e" in let b' := fresh "b" in
      destruct (line f k a b c d e (nth t W 0)) as [e' b']; cbn [fst snd] in *
  end.

(** The constants of the rounds from [lo] to [hi]. *)
Definition rounds_use (f : Z → Z → Z → Z) (k : Z) (lo hi : nat) : Prop :=
  ∀ t, (lo ≤ t < hi)%nat → (∀ x y z, f x y z = f_t t x y z) ∧ k = K_t t.

Lemma five_eq f k W s i :
  rounds_use f k (5 * i) (5 * i + 5) → reg_words s →
  five f k W s i = foldl (fips_round W) s (seq (5 * i) 5) ∧ reg_words (five f k W s i).
Proof.
  intros Hu Hs. destruct s as [[[[a b] c] d] e]. unfold five. cbn beta zeta.
  assert (∀ j, (j < 5)%nat → (∀ x y z, f x y z = f_t (5 * i + j) x y z) ∧ k = K_t (5 * i + j)) as Hj.
  { intros j Hj. apply Hu. lia. }
  replace (seq (5 * i) 5) with [5 * i + 0; 5 * i + 1; 5 * i + 2; 5 * i + 3; 5 * i + 4]%nat
    by (cbn -[Nat.mul]; repeat f_equal; lia).
  destruct Hs as (Ha & Hb & Hc & Hd & He). cbn [foldl].
  destruct (Hj 0%nat ltac:(lia)) as [F0 K0]. destruct (Hj 1%nat ltac:(lia)) as [F1 K1].
  destruct (Hj 2%nat ltac:(lia)) as [F2 K2]. destruct (Hj 3%nat ltac:(lia)) as [F3 K3].
  destruct (Hj 4%nat ltac:(lia)) as [F4 K4]. clear Hj Hu.
  do 5 one_line f k. unfold reg_words. tauto.
Qed.

Lemma loop_eq f k W s lo n :
  rounds_use f k (5 * lo) (5 * (lo + n)) → reg_words s →
  foldl (five f k W) s (seq lo n) = foldl (fips_round W) s (seq (5 * lo) (5 * n)) ∧
  reg_words (foldl (five f k W) s (seq lo n)).
Proof.
  revert s lo. induction n as [|n IH]; intros s lo Hu Hs; [done|].
  cbn [seq foldl]. destruct (five_eq f k W s lo) as [E R]; [intros t ?; apply Hu; lia|done|].
  destruct (IH (five f k W s lo) (S lo)) as [E' R']; [intros t ?; apply Hu; lia|done|].
  split; [|done]. rewrite E', E. replace (5 * S n)%nat with (5 + 5 * n)%nat by lia.
  rewrite seq_app, foldl_app. by replace (5 * S lo)%nat with (5 * lo + 5)%nat by lia.
Qed.

Lemma uses_1 : rounds_use f1 0x5a827999 0 20.
Proof.
  intros t Ht. unfold f_t, K_t. rewrite (proj2 (Nat.ltb_lt t 20)) by lia. split; [|done].
  intros. apply sha1_f1_eq.
Qed.

Lemma uses_2 : rounds_use f2 0x6ed9eba1 20 40.
Proof.
  intros t Ht. unfold f_t, K_t. rewrite (proj2 (Nat.ltb_ge t 20)), (proj2 (Nat.ltb_lt t 40)) by lia. done.
Qed.

Lemma uses_3 : rounds_use f3 0x8f1bbcdc 40 60.
Proof.
  intros t Ht. unfold f_t, K_t.
  rewrite (proj2 (Nat.ltb_ge t 20)), (proj2 (Nat.ltb_ge t 40)), (proj2 (Nat.ltb_lt t 60)) by lia.
  split; [|done]. intros. apply f3_eq.
Qed.

Lemma uses_4 : rounds_use f2 0xca62c1d6 60 80.
Proof.
  intros t Ht. unfold f_t, K_t.
  rewrite (proj2 (Nat.ltb_ge t 20)), (proj2 (Nat.ltb_ge t 40)), (proj2 (Nat.ltb_ge t 60)) by lia. done.
Qed.

(** The four loops are the eighty rounds of the standard. *)
Lemma sha1_rounds_fips W s :
  reg_words s → all_rounds W s = foldl (fips_round W) s (seq 0 80).
Proof.
  intros Hs. unfold all_rounds.
  destruct (loop_eq f1 0x5a827999 W s 0 4 uses_1 Hs) as [E1 R1]. rewrite E1 in R1 |- *.
  destruct (loop_eq f2 0x6ed9eba1 W _ 4 4 uses_2 R1) as [E2 R2]. rewrite E2 in R2 |- *.
  destruct (loop_eq f3 0x8f1bbcdc W _ 8 4 uses_3 R2) as [E3 R3]. rewrite E3 in R3 |- *.
  destruct (loop_eq f2 0xca62c1d6 W _ 12 4 uses_4 R3) as [E4 R4]. rewrite E4.
  by rewrite <-!foldl_app.
Qed.

Lemma sha1_push_word_eq W : Forall word W → push_word W = schedule_step W ∧ Forall word (push_word W).
Proof.
  intros HW. set (x := Z.lxor (Z.lxor (Z.lxor (nth (length W - 3) W 0) (nth (length W - 8) W 0))
    (nth (length W - 14) W 0)) (nth (length W - 16) W 0)).
  assert (word x) as Hx by (repeat apply lxor_range; by apply nth_word).
  unfold push_word, schedule_step. fold x. rewrite rotl32_eq by (done || lia).
  split; [done|]. apply Forall_app. split; [done|]. constructor; [|constructor].
  rewrite <-rotl32_eq by (done || lia). by apply rotl32_range.
Qed.

Lemma words_eq n W : Forall word W →
  Nat.iter n push_word W = Nat.iter n schedule_step W ∧ Forall word (Nat.iter n push_word W).
Proof.
  intros HW. induction n as [|n [IH1 IH2]]; [done|]. cbn [Nat.iter].
  destruct (sha1_push_word_eq _ IH2) as [E F]. split; [|done].
  change (push_word (Nat.iter n push_word W) = schedule_step (Nat.iter n schedule_step W)).
  by rewrite E, IH1.
Qed.

(** [processBlock] computes the compression function of the standard. *)
Lemma sha1_processBlock_fips {E : ByteOrder} h data :
  length h = 5%nat → Forall word h → length data = 64%nat → Forall byte data →
  sha1_processBlock h data = fips_compress h data ∧ Forall word (fips_compress h data) ∧
  length (fips_compress h data) = 5%nat.
Proof.
  intros Hl Hw Hd Hb.
  do 5 (destruct h as [|? h]; [done|]). destruct h; [|done].
  rewrite !Forall_cons in Hw. destruct Hw as (?&?&?&?&?&_).
  unfold sha1_processBlock, fips_compress. rewrite native_words_big by done.
  rewrite (proj1 (words_eq 64 _ (read_words_be_word 16 data Hb Hd))).
  cbv zeta. rewrite sha1_rounds_fips by (unfold reg_words; tauto).
  destruct (foldl _ _ _) as [[[[a b] c] d] e].
  split; [done|]. rewrite !Forall_cons, Forall_nil. split; [|done].
  split_and!; apply u32_range || done.
Qed.

(** Every digest of the class is the standard's. *)
Lemma digest_fips_1 {E : ByteOrder} msg : Forall byte msg → digest msg = fips_sha1 msg.
Proof.
  intros Hb. unfold fips_sha1. apply (digest_ext (H := SHA1) (λ h, length h = 5%nat ∧ Forall word h)).
  - intros h block [Hl Hw] Hlb Hbb. destruct (sha1_processBlock_fips h block) as (Eq & ? & ?); try done.
  - split; [done|]. change (Forall word sha1_seed). unfold sha1_seed, word.
    rewrite !Forall_cons, Forall_nil. lia.
  - reflexivity.
  - intros n. exact (byte_at_be_bytes 8 n).
  - intros w. exact (byte_at_be_bytes 4 w).
  - done.
Qed.

Lemma SHA1_streams {E : ByteOrder} uninit extra :
  length uninit = 64%nat → length extra = 64%nat →
  streams (SHA1_new uninit) SHA1_add (SHA1_getHash extra) (λ m, to_hex (fips_sha1 m)).
Proof.
  intros Hu He. unfold SHA1_new, SHA1_add, SHA1_getHash. eapply streams_ext; [by apply block_hash_streams|].
  intros m Hm. cbn beta. f_equal. by apply digest_fips_1.
Qed.

(** ** Main theorem *)

(** C37. The SHA1 class computes SHA-1 as FIPS 180-4 defines it: for every
    message of bytes, in pieces of any size, [getHash] returns the
    hexadecimal text of the standard's digest, on a host of either byte order. *)
Theorem SHA1_is_fips {E : ByteOrder} uninit extra chunks :
  length uninit = 64%nat → length extra = 64%nat → Forall byte (concat chunks) →
  returns (st ← foldM SHA1_add (SHA1_new uninit) chunks;
           '(text, _) ← SHA1_getHash extra st; Ret text) (λ text,
    text = to_hex (fips_sha1 (concat chunks))).
Proof.
  intros Hu He Hb.
  eapply returns_bind; [by apply (add_chunks chunks _ []), reset_absorbed|]. intros st Ha.
  eapply returns_bind; [exact (getHash_spec extra st _ He Ha)|]. intros [t st'] [Et _].
  cbn [fst] in Et. subst t. apply returns_Ret. f_equal. by apply digest_fips_1.
Qed.

#[local] Instance sample_host : ByteOrder := BigEndian.

Lemma SHA1_is_fips_witness :
  length (replicate 64 0) = 64%nat ∧ Forall byte (concat [[97]; [98; 99]]) ∧
  returns (st ← foldM SHA1_add (SHA1_new (replicate 64 0)) [[97]; [98; 99]];
           '(text, _) ← SHA1_getHash (replicate 64 0) st; Ret text) (λ text,
    text = to_hex (fips_sha1 [97; 98; 99])).
Proof.
  assert (Forall byte (concat [[97]; [98; 99]])) as Hb.
  { cbn. rewrite !Forall_cons, Forall_nil. unfold byte. lia. }
  split; [reflexivity|]. split; [exact Hb|].
  exact (SHA1_is_fips (replicate 64 0) (replicate 64 0) [[97]; [98; 99]] eq_refl eq_refl Hb).
Defined.
