(* ===== verification/Md5.v ===== *)
(** * MD5 (src/pmud/src/common/hash-library/md5.cpp)

    The compression function as the code has it (64 unrolled lines, the
    registers renamed instead of moved), the RFC 1321 loop, and the proof that
    they agree. *)
From S2P Require Import Prelude.
From S2P Require Import Word.
From S2P Require Import BlockHasher.

(** ** The code *)
Definition f1 (b c d : Z) : Z := Z.lxor d (Z.land b (Z.lxor c d)).
Definition f2 (b c d : Z) : Z := Z.lxor c (Z.land d (Z.lxor b c)).
Definition f3 (b c d : Z) : Z := Z.lxor (Z.lxor b c) d.
Definition f4 (b c d : Z) : Z := Z.lxor c (Z.lor b (not32 d)).

(** One line, for the registers in the roles of [a] to [d]:
    [a = rotate(a + f(b,c,d) + w + k, s) + b]. *)
Definition line (f : Z → Z → Z → Z) (a b c d w k s : Z) : Z :=
  add32 (rotl32 (add32 (add32 (add32 a (f b c d)) w) k) s) b.

Definition registers : Type := Z * Z * Z * Z.

(** Four lines, with the numbers of the words, the constants and the shifts. *)
Definition four (f : Z → Z → Z → Z) (ws : list nat) (ks ss words : list Z) (s : registers) : registers :=
  let W j := nth (nth j ws 0%nat) words 0 in
  let K j := nth j ks 0 in
  let S j := nth j ss 0 in
  let '(a, b, c, d) := s in
  let a := line f a b c d (W 0%nat) (K 0%nat) (S 0%nat) in
  let d := line f d a b c (W 1%nat) (K 1%nat) (S 1%nat) in
  let c := line f c d a b (W 2%nat) (K 2%nat) (S 2%nat) in
  let b := line f b c d a (W 3%nat) (K 3%nat) (S 3%nat) in
  (a, b, c, d).

(** The four rounds. *)
Definition all_rounds (words : list Z) (s : registers) : registers :=
  let s := four f1 [0; 1; 2; 3]%nat [0xd76aa478; 0xe8c7b756; 0x242070db; 0xc1bdceee]
    [7; 12; 17; 22] words s in
  let s := four f1 [4; 5; 6; 7]%nat [0xf57c0faf; 0x4787c62a; 0xa8304613; 0xfd469501]
    [7; 12; 17; 22] words s in
  let s := four f1 [8; 9; 10; 11]%nat [0x698098d8; 0x8b44f7af; 0xffff5bb1; 0x895cd7be]
    [7; 12; 17; 22] words s in
  let s := four f1 [12; 13; 14; 15]%nat [0x6b901122; 0xfd987193; 0xa679438e; 0x49b40821]
    [7; 12; 17; 22] words s in
  let s := four f2 [1; 6; 11; 0]%nat [0xf61e2562; 0xc040b340; 0x265e5a51; 0xe9b6c7aa]
    [5; 9; 14; 20] words s in
  let s := four f2 [5; 10; 15; 4]%nat [0xd62f105d; 0x02441453; 0xd8a1e681; 0xe7d3fbc8]
    [5; 9; 14; 20] words s in
  let s := four f2 [9; 14; 3; 8]%nat [0x21e1cde6; 0xc33707d6; 0xf4d50d87; 0x455a14ed]
    [5; 9; 14; 20] words s in
  let s := four f2 [13; 2; 7; 12]%nat [0xa9e3e905; 0xfcefa3f8; 0x676f02d9; 0x8d2a4c8a]
    [5; 9; 14; 20] words s in
  let s := four f3 [5; 8; 11; 14]%nat [0xfffa3942; 0x8771f681; 0x6d9d6122; 0xfde5380c]
    [4; 11; 16; 23] words s in
  let s := four f3 [1; 4; 7; 10]%nat [0xa4beea44; 0x4bdecfa9; 0xf6bb4b60; 0xbebfbc70]
    [4; 11; 16; 23] words s in
  let s := four f3 [13; 0; 3; 6]%nat [0x289b7ec6; 0xeaa127fa; 0xd4ef3085; 0x04881d05]
    [4; 11; 16; 23] words s in
  let s := four f3 [9; 12; 15; 2]%nat [0xd9d4d039; 0xe6db99e5; 0x1fa27cf8; 0xc4ac5665]
    [4; 11; 16; 23] words s in
  let s := four f4 [0; 7; 14; 5]%nat [0xf4292244; 0x432aff97; 0xab9423a7; 0xfc93a039]
    [6; 10; 15; 21] words s in
  let s := four f4 [12; 3; 10; 1]%nat [0x655b59c3; 0x8f0ccc92; 0xffeff47d; 0x85845dd1]
    [6; 10; 15; 21] words s in
  let s := four f4 [8; 15; 6; 13]%nat [0x6fa87e4f; 0xfe2ce6e0; 0xa3014314; 0x4e0811a1]
    [6; 10; 15; 21] words s in
  let s := four f4 [4; 11; 2; 9]%nat [0xf7537e82; 0xbd3af235; 0x2ad7d2bb; 0xeb86d391]
    [6; 10; 15; 21] words s in
  s.

(** [LITTLEENDIAN(x)] is [swap(x)] on a big-endian host, and [x] otherwise. *)
Definition md5_processBlock {E : ByteOrder} (m_hash data : list Z) : list Z :=
  match m_hash with
  | [h0; h1; h2; h3] =>
      let '(a, b, c, d) := all_rounds (from_little swap <$> native_words 16 data) (h0, h1, h2, h3) in
      [add32 h0 a; add32 h1 b; add32 h2 c; add32 h3 d]
  | _ => m_hash
  end.

Definition md5_seed : list Z := [0x67452301; 0xefcdab89; 0x98badcfe; 0x10325476].

(** [*addLength++ = msgBits & 0xFF; msgBits >>= 8;], eight times. *)
Fixpoint shift_bytes (n : nat) (msgBits : Z) : list Z :=
  match n with
  | O => []
  | S n => Z.land msgBits 0xFF :: shift_bytes n (Z.shiftr msgBits 8)
  end.
Definition md5_length_bytes (msgBits : Z) : list Z := shift_bytes 8 msgBits.
Definition md5_hash_bytes (w : Z) : list Z := byte_at w <$> [0; 1; 2; 3].

Definition MD5 {E : ByteOrder} : BlockHash := {|
  HashValues := 4;
  seed := md5_seed;
  compress := md5_processBlock;
  length_bytes := md5_length_bytes;
  hash_bytes := md5_hash_bytes
|}.
#[local] Existing Instance MD5.

Lemma shift_bytes_byte n x : Forall byte (shift_bytes n x).
Proof.
  revert x. induction n as [|n IH]; intros x; constructor; [|apply IH].
  apply (byte_at_range x 0).
Qed.

#[export] Instance MD5_laws {E : ByteOrder} : BlockHashLaws MD5.
Proof.
  split; try done; try (cbn; lia).
  - intros h data Hl. do 4 (destruct h as [|? h]; [done|]). destruct h; [|done].
    cbn -[all_rounds native_words]. by repeat case_match.
  - intros n. apply shift_bytes_byte.
Qed.

(** The members of the class. *)
Definition MD5_new {E : ByteOrder} : list Z → Hasher := Hasher_new.
Definition MD5_add {E : ByteOrder} : Hasher → list Z → outcome Hasher := add.
Definition MD5_processBuffer {E : ByteOrder} : list Z → Hasher → outcome Hasher := processBuffer.
Definition MD5_getHash {E : ByteOrder} : list Z → Hasher → outcome (string * Hasher) := getHash.
Definition MD5_getHash_raw {E : ByteOrder} : list Z → Hasher → outcome (list Z * Hasher) := getHash_raw.
Definition MD5_call {E : ByteOrder} : list Z → Hasher → list Z → outcome (string * Hasher) := hash_call.

(** "abc", on a host of either byte order. *)
Example md5_abc {E : ByteOrder} :
  ('(text, _) ← MD5_call (replicate 64 7) (MD5_new (replicate 64 9)) [97; 98; 99]; Ret text) =
  Ret "900150983cd24fb0d6963f7d28e17f72".
Proof. destruct E; vm_compute; reflexivity. Qed.

(** ** RFC 1321, as a loop *)
Definition ROTL (n x : Z) : Z := x mod 2 ^ (32 - n) * 2 ^ n + x / 2 ^ (32 - n).
Definition F (x y z : Z) : Z := Z.lor (Z.land x y) (Z.land (Z.lnot x) z).
Definition G (x y z : Z) : Z := Z.lor (Z.land x z) (Z.land y (Z.lnot z)).
Definition H (x y z : Z) : Z := Z.lxor (Z.lxor x y) z.
Definition I (x y z : Z) : Z := Z.lxor y (Z.lor x (Z.ones 32 - z)).

(** The table [T] of the RFC. *)
Definition T : list Z :=
  [0xd76aa478; 0xe8c7b756; 0x242070db; 0xc1bdceee;
   0xf57c0faf; 0x4787c62a; 0xa8304613; 0xfd469501;
   0x698098d8; 0x8b44f7af; 0xffff5bb1; 0x895cd7be;
   0x6b901122; 0xfd987193; 0xa679438e; 0x49b40821;
   0xf61e2562; 0xc040b340; 0x265e5a51; 0xe9b6c7aa;
   0xd62f105d; 0x02441453; 0xd8a1e681; 0xe7d3fbc8;
   0x21e1cde6; 0xc33707d6; 0xf4d50d87; 0x455a14ed;
   0xa9e3e905; 0xfcefa3f8; 0x676f02d9; 0x8d2a4c8a;
   0xfffa3942; 0x8771f681; 0x6d9d6122; 0xfde5380c;
   0xa4beea44; 0x4bdecfa9; 0xf6bb4b60; 0xbebfbc70;
   0x289b7ec6; 0xeaa127fa; 0xd4ef3085; 0x04881d05;
   0xd9d4d039; 0xe6db99e5; 0x1fa27cf8; 0xc4ac5665;
   0xf4292244; 0x432aff97; 0xab9423a7; 0xfc93a039;
   0x655b59c3; 0x8f0ccc92; 0xffeff47d; 0x85845dd1;
   0x6fa87e4f; 0xfe2ce6e0; 0xa3014314; 0x4e0811a1;
   0xf7537e82; 0xbd3af235; 0x2ad7d2bb; 0xeb86d391].

(** Step [i]: its function, the word it uses and its shift. *)
Definition f_i (i : nat) : Z → Z → Z → Z :=
  match (i / 16)%nat with 0%nat => F | 1%nat => G | 2%nat => H | _ => I end.
Definition g_i (i : nat) : nat :=
  (match i / 16 with 0 => i | 1 => 5 * i + 1 | 2 => 3 * i + 5 | _ => 7 * i end mod 16)%nat.
Definition s_i (i : nat) : Z :=
  nth (i mod 4) (match (i / 16)%nat with
    | 0%nat => [7; 12; 17; 22] | 1%nat => [5; 9; 14; 20]
    | 2%nat => [4; 11; 16; 23] | _ => [6; 10; 15; 21] end) 0.

Definition rfc_step (X : list Z) (s : registers) (i : nat) : registers :=
  let '(a, b, c, d) := s in
  let t := u32 (a + f_i i b c d + nth (g_i i) X 0 + nth i T 0) in
  (d, u32 (b + ROTL (s_i i) t), b, c).

Definition rfc_compress (Hs M : list Z) : list Z :=
  match Hs with
  | [h0; h1; h2; h3] =>
      let '(a, b, c, d) := foldl (rfc_step (read_words 16 M)) (h0, h1, h2, h3) (seq 0 64) in
      [u32 (h0 + a); u32 (h1 + b); u32 (h2 + c); u32 (h3 + d)]
  | _ => Hs
  end.

(** The initial words, written with the low-order bytes first. *)
Definition rfc_seed : list Z :=
  le_num <$> [[0x01; 0x23; 0x45; 0x67]; [0x89; 0xab; 0xcd; 0xef];
              [0xfe; 0xdc; 0xba; 0x98]; [0x76; 0x54; 0x32; 0x10]].

Definition rfc_md5 (msg : list Z) : list Z :=
  digest (H := {| HashValues := 4; seed := rfc_seed; compress := rfc_compress;
    length_bytes := le_bytes 8; hash_bytes := le_bytes 4 |}) msg.

(** ** Helper lemmas *)
Definition reg_words (s : registers) : Prop :=
  let '(a, b, c, d) := s in word a ∧ word b ∧ word c ∧ word d.

(** [f] is the function of the steps from [i] to [i + 3]. *)
Definition step_fun (f : Z → Z → Z → Z) (i : nat) : Prop :=
  ∀ x y z j, (i ≤ j < i + 4)%nat → word z → f x y z = f_i j x y z.

Lemma md5_f1_eq x y z : f1 x y z = F x y z.
Proof. unfold f1, F. bitwise_not. Qed.

Lemma md5_f2_eq x y z : f2 x y z = G x y z.
Proof. unfold f2, G. bitwise_not. Qed.

Lemma not32_sub z : word z → not32 z = Z.ones 32 - z.
Proof.
  intros Hz. symmetry. rewrite Z.sub_nocarry_ldiff.
  - apply Z.bits_inj'. intros n Hn. rewrite Z.ldiff_spec, not32_spec by done. case_decide.
    + by rewrite Z.ones_spec_low by lia.
    + rewrite Z.ones_spec_high by lia. by rewrite (testbit_high z 32 n) by (unfold word in Hz; lia).
  - apply Z.bits_inj'. intros n Hn. rewrite Z.ldiff_spec, Z.bits_0.
    destruct (decide (n < 32)).
    + rewrite Z.ones_spec_low by lia. apply andb_false_r.
    + by rewrite (testbit_high z 32 n) by (unfold word in Hz; lia).
Qed.

Lemma md5_f1_eq' x y z : word z → f1 x y z = F x y z.
Proof. intros _. apply md5_f1_eq. Qed.

Lemma md5_f2_eq' x y z : word z → f2 x y z = G x y z.
Proof. intros _. apply md5_f2_eq. Qed.

Lemma f3_eq' x y z : word z → f3 x y z = H x y z.
Proof. done. Qed.

Lemma f4_eq x y z : word z → f4 x y z = I x y z.
Proof. intros Hz. unfold f4, I. by rewrite not32_sub. Qed.

Lemma md5_line_eq f a b c d w k s :
  0 ≤ s ≤ 32 → line f a b c d w k s = u32 (b + ROTL s (u32 (a + f b c d + w + k))).
Proof.
  intros Hs. unfold line. rewrite u32_sum4. unfold add32.
  rewrite rotl32_eq by (done || apply u32_range). f_equal. unfold ROTL. lia.
Qed.

Lemma rfc_step_line f W j a b c d :
  f b c d = f_i j b c d → 0 ≤ s_i j ≤ 32 →
  rfc_step W (a, b, c, d) j = (d, line f a b c d (nth (g_i j) W 0) (nth j T 0) (s_i j), b, c) ∧
  word (line f a b c d (nth (g_i j) W 0) (nth j T 0) (s_i j)).
Proof.
  intros Hf Hs. unfold rfc_step. rewrite <-Hf, md5_line_eq by done. split; [done|]. apply u32_range.
Qed.

Ltac one_step f Hf :=
  match goal with |- context [rfc_step ?W (?a, ?b, ?c, ?d) ?j] =>
    destruct (rfc_step_line f W j a b c d) as [-> ?]; [apply Hf; [lia|done]|done|];
    let x := fresh "x" in set (x := line f a b c d (nth (g_i j) W 0) (nth j T 0) (s_i j)) in *
  end.

Lemma four_eq f i ws ks ss W s :
  step_fun f i → ws = g_i <$> seq i 4 → ks = (λ j, nth j T 0) <$> seq i 4 →
  ss = s_i <$> seq i 4 → Forall (λ s, 0 ≤ s ≤ 32) ss → reg_words s →
  four f ws ks ss W s = foldl (rfc_step W) s (seq i 4) ∧ reg_words (four f ws ks ss W s).
Proof.
  intros Hf -> -> -> Hss Hs. destruct s as [[[a b] c] d]. unfold four.
  cbn [seq fmap list_fmap nth foldl] in *. cbn beta zeta.
  rewrite !Forall_cons in Hss. destruct Hss as (S0 & S1 & S2 & S3 & _).
  destruct Hs as (Ha & Hb & Hc & Hd).
  do 4 one_step f Hf. unfold reg_words. tauto.
Qed.

Lemma uses f f' i :
  (∀ x y z, word z → f x y z = f' x y z) → forallb (λ j, j / 16 =? i / 16)%nat (seq i 4) = true →
  f_i i = f' → step_fun f i.
Proof.
  intros Hf Hi Hi' x y z j Hj Hz. rewrite Hf by done. rewrite <-Hi'. unfold f_i.
  assert (j / 16 = i / 16)%nat as ->; [|done].
  apply Nat.eqb_eq. rewrite forallb_forall in Hi. apply Hi, in_seq. lia.
Qed.

(** The next four lines. *)
Ltac four_lines i f' lem :=
  match goal with |- context [four ?f ?ws ?ks ?ss ?W ?s] =>
    lazymatch s with
    | context [four] => fail
    | _ =>
      let E := fresh in let R := fresh in
      destruct (four_eq f i ws ks ss W s) as [E R];
        [apply (uses f f'); [apply lem|done|done]|done|done|done|repeat constructor; lia|assumption|];
      rewrite E in R |- *; clear E
    end
  end.

(** The unrolled rounds are the 64 steps of the RFC. *)
Lemma all_rounds_rfc W s :
  reg_words s → all_rounds W s = foldl (rfc_step W) s (seq 0 64).
Proof.
  intros Hs. unfold all_rounds. cbv zeta.
  four_lines 0%nat F md5_f1_eq'. four_lines 4%nat F md5_f1_eq'. four_lines 8%nat F md5_f1_eq'. four_lines 12%nat F md5_f1_eq'.
  four_lines 16%nat G md5_f2_eq'. four_lines 20%nat G md5_f2_eq'. four_lines 24%nat G md5_f2_eq'. four_lines 28%nat G md5_f2_eq'.
  four_lines 32%nat H f3_eq'. four_lines 36%nat H f3_eq'. four_lines 40%nat H f3_eq'. four_lines 44%nat H f3_eq'.
  four_lines 48%nat I f4_eq. four_lines 52%nat I f4_eq. four_lines 56%nat I f4_eq. four_lines 60%nat I f4_eq.
  by rewrite <-!foldl_app.
Qed.

Lemma length_bytes_eq n : md5_length_bytes n = le_bytes 8 n.
Proof.
  rewrite <-byte_at_le_bytes. unfold md5_length_bytes, byte_at. cbn [shift_bytes fmap list_fmap seq].
  rewrite !Z.shiftr_shiftr by lia. done.
Qed.

(** [processBlock] computes the compression function of the RFC. *)
Lemma processBlock_rfc {E : ByteOrder} h data :
  length h = 4%nat → Forall word h → length data = 64%nat → Forall byte data →
  md5_processBlock h data = rfc_compress h data ∧ Forall word (rfc_compress h data) ∧
  length (rfc_compress h data) = 4%nat.
Proof.
  intros Hl Hw Hd Hb.
  do 4 (destruct h as [|? h]; [done|]). destruct h; [|done].
  rewrite !Forall_cons in Hw. destruct Hw as (?&?&?&?&_).
  unfold md5_processBlock, rfc_compress. rewrite native_words_little by done. rewrite all_rounds_rfc by (unfold reg_words; tauto).
  destruct (foldl _ _ _) as [[[a b] c] d].
  split; [done|]. rewrite !Forall_cons, Forall_nil. split; [|done].
  split_and!; apply u32_range || done.
Qed.

(** Every digest of the class is the RFC's. *)
Lemma digest_rfc {E : ByteOrder} msg : Forall byte msg → digest msg = rfc_md5 msg.
Proof.
  intros Hb. apply (digest_ext (H := MD5) (λ h, length h = 4%nat ∧ Forall word h)).
  - intros h block [Hl Hw] Hlb Hbb. destruct (processBlock_rfc h block) as (Eq & ? & ?); try done.
  - split; [done|]. change (Forall word md5_seed). unfold md5_seed, word.
    rewrite !Forall_cons, Forall_nil. lia.
  - reflexivity.
  - exact length_bytes_eq.
  - intros w. exact (byte_at_le_bytes 4 w).
  - done.
Qed.

Lemma MD5_streams {E : ByteOrder} uninit extra :
  length uninit = 64%nat → length extra = 64%nat →
  streams (MD5_new uninit) MD5_add (MD5_getHash extra) (λ m, to_hex (rfc_md5 m)).
Proof.
  intros Hu He. unfold MD5_new, MD5_add, MD5_getHash. eapply streams_ext; [by apply block_hash_streams|].
  intros m Hm. cbn beta. f_equal. by apply digest_rfc.
Qed.

(** ** Main theorem *)

(** C36. The MD5 class computes MD5 as RFC 1321 defines it: for every message
    of bytes, in pieces of any size, [getHash] returns the hexadecimal text
    of the RFC's digest, on a host of either byte order. *)
Theorem MD5_is_rfc1321 {E : ByteOrder} uninit extra chunks :
  length uninit = 64%nat → length extra = 64%nat → Forall byte (concat chunks) →
  returns (st ← foldM MD5_add (MD5_new uninit) chunks;
           '(text, _) ← MD5_getHash extra st; Ret text) (λ text,
    text = to_hex (rfc_md5 (concat chunks))).
Proof.
  intros Hu He Hb.
  eapply returns_bind; [by apply (add_chunks chunks _ []), reset_absorbed|]. intros st Ha.
  eapply returns_bind; [exact (getHash_spec extra st _ He Ha)|]. intros [t st'] [Et _].
  cbn [fst] in Et. subst t. apply returns_Ret. f_equal. by apply digest_rfc.
Qed.

#[local] Instance sample_host : ByteOrder := BigEndian.

Lemma MD5_is_rfc1321_witness :
  length (replicate 64 0) = 64%nat ∧ Forall byte (concat [[97]; [98; 99]]) ∧
  returns (st ← foldM MD5_add (MD5_new (replicate 64 0)) [[97]; [98; 99]];
           '(text, _) ← MD5_getHash (replicate 64 0) st; Ret text) (λ text,
    text = to_hex (rfc_md5 [97; 98; 99])).
Proof.
  assert (Forall byte (concat [[97]; [98; 99]])) as Hb.
  { cbn. rewrite !Forall_cons, Forall_nil. unfold byte. lia. }
  split; [reflexivity|]. split; [exact Hb|].
  exact (MD5_is_rfc1321 (replicate 64 0) (replicate 64 0) [[97]; [98; 99]] eq_refl eq_refl Hb).
Defined.
