(* ===== verification/Crc32.v ===== *)
(** * CRC-32 (src/pmud/src/common/hash-library/crc32.cpp)

    The slicing-by-8 algorithm with its table of 8 times 256 words, and its
    equality with the bit-by-bit definition of the CRC-32 of IEEE 802.3; that
    this checksum detects every change within four consecutive bytes. *)
From Stdlib Require Import String.
From S2P Require Import Prelude.
From S2P Require Import Word.
From S2P Require Import Absorb.

(** ** crc32.h *)
Record CRC32 := mkCRC32 { m_hash : Z }.

Definition reset (st : CRC32) : CRC32 := mkCRC32 0.
Definition CRC32_new (uninit : Z) : CRC32 := reset (mkCRC32 uninit).

(** ** crc32.cpp *)

(** Eight words, the digits of one line of the source. *)
Definition table_line (n : Z) : list Z :=
  (λ i, Z.land (Z.shiftr n (32 * i)) (Z.ones 32)) <$> [7; 6; 5; 4; 3; 2; 1; 0].

(** Tables 0 to 3 and tables 4 to 7. *)
Definition crc32_lines_0_3 : list (list Z) := [
  [0x0000000077073096EE0E612C990951BA076DC419706AF48FE963A5359E6495A3;
   0x0EDB883279DCB8A4E0D5E91E97D2D98809B64C2B7EB17CBDE7B82D0790BF1D91;
   0x1DB710646AB020F2F3B9714884BE41DE1ADAD47D6DDDE4EBF4D4B55183D385C7;
   0x136C9856646BA8C0FD62F97A8A65C9EC14015C4F63066CD9FA0F3D638D080DF5;
   0x3B6E20C84C69105ED56041E4A26771723C03E4D14B04D447D20D85FDA50AB56B;
   0x35B5A8FA42B2986CDBBBC9D6ACBCF94032D86CE345DF5C75DCD60DCFABD13D59;
   0x26D930AC51DE003AC8D75180BFD0611621B4F4B556B3C423CFBA9599B8BDA50F;
   0x2802B89E5F058808C60CD9B2B10BE9242F6F7C8758684C11C1611DABB6662D3D;
   0x76DC419001DB710698D220BCEFD5102A71B1858906B6B51F9FBFE4A5E8B8D433;
   0x7807C9A20F00F9349609A88EE10E98187F6A0DBB086D3D2D91646C97E6635C01;
   0x6B6B51F41C6C6162856530D8F262004E6C0695ED1B01A57B8208F4C1F50FC457;
   0x65B0D9C612B7E9508BBEB8EAFCB9887C62DD1DDF15DA2D498CD37CF3FBD44C65;
   0x4DB261583AB551CEA3BC0074D4BB30E24ADFA5413DD895D7A4D1C46DD3D6F4FB;
   0x4369E96A346ED9FCAD678846DA60B8D044042D7333031DE5AA0A4C5FDD0D7CC9;
   0x5005713C270241AABE0B1010C90C20865768B525206F85B3B966D409CE61E49F;
   0x5EDEF90E29D9C998B0D09822C7D7A8B459B33D172EB40D81B7BD5C3BC0BA6CAD;
   0xEDB883209ABFB3B603B6E20C74B1D29AEAD547399DD277AF04DB261573DC1683;
   0xE3630B1294643B840D6D6A3E7A6A5AA8E40ECF0B9309FF9D0A00AE277D079EB1;
   0xF00F93448708A3D21E01F2686906C2FEF762575D806567CB196C36716E6B06E7;
   0xFED41B7689D32BE010DA7A5A67DD4ACCF9B9DF6F8EBEEFF917B7BE4360B08ED5;
   0xD6D6A3E8A1D1937E38D8C2C44FDFF252D1BB67F1A6BC57673FB506DD48B2364B;
   0xD80D2BDAAF0A1B4C36034AF641047A60DF60EFC3A867DF55316E8EEF4669BE79;
   0xCB61B38CBC66831A256FD2A05268E236CC0C7795BB0B4703220216B95505262F;
   0xC5BA3BBEB2BD0B282BB45A925CB36A04C2D7FFA7B5D0CF312CD99E8B5BDEAE1D;
   0x9B64C2B0EC63F226756AA39C026D930A9C0906A9EB0E363F7207678505005713;
   0x95BF4A82E2B87A147BB12BAE0CB61B3892D28E9BE5D5BE0D7CDCEFB70BDBDF21;
   0x86D3D2D4F1D4E24268DDB3F81FDA836E81BE16CDF6B9265B6FB077E118B74777;
   0x88085AE6FF0F6A7066063BCA11010B5C8F659EFFF862AE69616BFFD3166CCF45;
   0xA00AE278D70DD2EE4E0483543903B3C2A7672661D06016F74969474D3E6E77DB;
   0xAED16A4AD9D65ADC40DF0B6637D83BF0A9BCAE53DEBB9EC547B2CF7F30B5FFE9;
   0xBDBDF21CCABAC28A53B3933024B4A3A6BAD03605CDD7069354DE572923D967BF;
   0xB3667A2EC4614AB85D681B022A6F2B94B40BBE37C30C8EA15A05DF1B2D02EF8D];
  [0x00000000191B3141323662822B2D53C3646CC5047D77F445565AA7864F4196C7;
   0xC8D98A08D1C2BB49FAEFE88AE3F4D9CBACB54F0CB5AE7E4D9E832D8E87981CCF;
   0x4AC2125153D9231078F470D361EF41922EAED75537B5E6141C98B5D705838496;
   0x821B98599B00A918B02DFADBA936CB9AE6775D5DFF6C6C1CD4413FDFCD5A0E9E;
   0x958424A28C9F15E3A7B24620BEA97761F1E8E1A6E8F3D0E7C3DE8324DAC5B265;
   0x5D5DAEAA44469FEB6F6BCC287670FD6939316BAE202A5AEF0B07092C121C386D;
   0xDF4636F3C65D07B2ED705471F46B6530BB2AF3F7A231C2B6891C91759007A034;
   0x179FBCFB0E848DBA25A9DE793CB2EF3873F379FF6AE848BE41C51B7D58DE2A3C;
   0xF0794F05E9627E44C24F2D87DB541CC694158A018D0EBB40A623E883BF38D9C2;
   0x38A0C50D21BBF44C0A96A78F138D96CE5CCC000945D731486EFA628B77E153CA;
   0xBABB5D54A3A06C15888D3FD691960E97DED79850C7CCA911ECE1FAD2F5FACB93;
   0x7262D75C6B79E61D4054B5DE594F849F160E12580F152319243870DA3D23419B;
   0x65FD6BA77CE65AE657CB09254ED038640191AEA3188A9FE233A7CC212ABCFD60;
   0xAD24E1AFB43FD0EE9F12832D8609B26CC94824ABD05315EAFB7E4629E2657768;
   0x2F3F79F6362448B71D091B7404122A354B53BCF252488DB37965DE70607EEF31;
   0xE7E6F3FEFEFDC2BFD5D0917CCCCBA03D838A36FA9A9107BBB1BC5478A8A76539;
   0x3B83984B2298A90A09B5FAC910AECB885FEF5D4F46F46C0E6DD93FCD74C20E8C;
   0xF35A1243EA412302C16C70C1D87741809736D7478E2DE606A500B5C5BC1B8484;
   0x71418A1A685ABB5B4377E8985A6CD9D9152D4F1E0C367E5F271B2D9C3E001CDD;
   0xB9980012A08331538BAE629092B553D1DDF4C516C4EFF457EFC2A794F6D996D5;
   0xAE07BCE9B71C8DA89C31DE6B852AEF2ACA6B79EDD37048ACF85D1B6FE1462A2E;
   0x66DE36E17FC507A054E854634DF3652202B2F3E51BA9C2A430849167299FA026;
   0xE4C5AEB8FDDE9FF9D6F3CC3ACFE8FD7B80A96BBC99B25AFDB29F093EAB84387F;
   0x2C1C24B0350715F11E2A4632073177734870E1B4516BD0F57A468336635DB277;
   0xCBFAD74ED2E1E60FF9CCB5CCE0D7848DAF96124AB68D230B9DA070C884BB4189;
   0x03235D461A386C0731153FC4280E0E85674F98427E54A9035579FAC04C62CB81;
   0x8138C51F9823F45EB30EA79DAA1596DCE554001BFC4F315AD7626299CE7953D8;
   0x49E14F1750FA7E567BD72D9562CC1CD42D8D8A133496BB521FBBE89106A0D9D0;
   0x5E7EF3EC4765C2AD6C48916E7553A02F3A1236E8230907A90824546A113F652B;
   0x96A779E48FBC48A5A4911B66BD8A2A27F2CBBCE0EBD08DA1C0FDDE62D9E6EF23;
   0x14BCE1BD0DA7D0FC268A833F3F91B27E70D024B969CB15F842E6463B5BFD777A;
   0xDC656BB5C57E5AF4EE530937F7483876B809AEB1A1129FF08A3FCC339324FD72];
  [0x0000000001C26A370384D46E0246BE590709A8DC06CBC2EB048D7CB2054F1685;
   0x0E1351B80FD13B8F0D9785D60C55EFE1091AF96408D893530A9E2D0A0B5C473D;
   0x1C26A3701DE4C9471FA2771E1E601D291B2F0BAC1AED619B18ABDFC21969B5F5;
   0x1235F2C813F798FF11B126A610734C91153C5A1414FE302316B88E7A177AE44D;
   0x384D46E0398F2CD73BC9928E3A0BF8B93F44EE3C3E86840B3CC03A523D025065;
   0x365E1758379C7D6F35DAC3363418A9013157BF843095D5B332D36BEA331101DD;
   0x246BE59025A98FA727EF31FE262D5BC923624D4C22A0277B20E699222124F315;
   0x2A78B4282BBADE1F29FC6046283E0A712D711CF42CB376C32EF5C89A2F37A2AD;
   0x709A8DC07158E7F7731E59AE72DC33997793251C76514F2B7417F17275D59B45;
   0x7E89DC787F4BB64F7D0D08167CCF6221798074A478421E937A04A0CA7BC6CAFD;
   0x6CBC2EB06D7E44876F38FADE6EFA90E96BB5866C6A77EC5B6831520269F33835;
   0x62AF7F08636D153F612BAB6660E9C15165A6D7D46464BDE3662203BA67E0698D;
   0x48D7CB204915A1174B531F4E4A9175794FDE63FC4E1C09CB4C5AB7924D98DDA5;
   0x46C49A984706F0AF45404EF6448224C141CD3244400F58734249E62A438B8C1D;
   0x54F16850553302675775BC3E56B7D60953F8C08C523AAABB507C14E251BE7ED5;
   0x5AE239E85B2053DF5966ED8658A487B15DEB91345C29FB035E6F455A5FAD2F6D;
   0xE1351B80E0F771B7E2B1CFEEE373A5D9E63CB35CE7FED96BE5B86732E47A0D05;
   0xEF264A38EEE4200FECA29E56ED60F461E82FE2E4E9ED88D3EBAB368AEA695CBD;
   0xFD13B8F0FCD1D2C7FE976C9EFF5506A9FA1A102CFBD87A1BF99EC442F85CAE75;
   0xF300E948F2C2837FF0843D26F1465711F4094194F5CB2BA3F78D95FAF64FFFCD;
   0xD9785D60D8BA3757DAFC890EDB3EE339DE71F5BCDFB39F8BDDF521D2DC374BE5;
   0xD76B0CD8D6A966EFD4EFD8B6D52DB281D062A404D1A0CE33D3E6706AD2241A5D;
   0xC55EFE10C49C9427C6DA2A7EC7184049C25756CCC3953CFBC1D382A2C011E895;
   0xCB4DAFA8CA8FC59FC8C97BC6C90B11F1CC440774CD866D43CFC0D31ACE02B92D;
   0x91AF9640906DFC77922B422E93E9281996A63E9C976454AB9522EAF294E080C5;
   0x9FBCC7F89E7EADCF9C3813969DFA79A198B56F24997705139B31BB4A9AF3D17D;
   0x8D8935308C4B5F078E0DE15E8FCF8B698A809DEC8B42F7DB8904498288C623B5;
   0x839A648882580EBF801EB0E681DCDAD18493CC548551A6638717183A86D5720D;
   0xA9E2D0A0A820BA97AA6604CEABA46EF9AEEB787CAF29124BAD6FAC12ACADC625;
   0xA7F18118A633EB2FA4755576A5B73F41A0F829C4A13A43F3A37CFDAAA2BE979D;
   0xB5C473D0B40619E7B640A7BEB782CD89B2CDDB0CB30FB13BB1490F62B08B6555;
   0xBBD72268BA15485FB853F606B9919C31BCDE8AB4BD1CE083BF5A5EDABE9834ED];
  [0x00000000B8BC6765AA09C88B12B5AFEE8F62975737DEF032256B5FDC9DD738B9;
   0xC5B428EF7D084F8A6FBDE064D70187014AD6BFB8F26AD8DDE0DF773358631056;
   0x5019579FE8A530FAFA109F1442ACF871DF7BC0C867C7A7AD75720843CDCE6F26;
   0x95AD7F702D1118153FA4B7FB8718D09E1ACFE827A2738F42B0C620AC087A47C9;
   0xA032AF3E188EC85B0A3B67B5B28700D02F50386997EC5F0C8559F0E23DE59787;
   0x658687D1DD3AE0B4CF8F4F5A7733283FEAE41086525877E340EDD80DF851BF68;
   0xF02BF8A148979FC45A22302AE29E574F7F496FF6C7F50893D540A77D6DFCC018;
   0x359FD04E8D23B72B9F9618C5272A7FA0BAFD47190241207C10F48F92A848E8F7;
   0x9B14583D23A83F58311D90B689A1F7D31476CF6AACCAA80FBE7F07E106C36084;
   0x5EA070D2E61C17B7F4A9B8594C15DF3CD1C2E785697E80E07BCB2F0EC377486B;
   0xCB0D0FA273B168C76104C729D9B8A04C446F98F5FCD3FF90EE66507E56DA371B;
   0x0EB9274DB6054028A4B0EFC61C0C88A381DBB01A3967D77F2BD27891936E1FF4;
   0x3B26F703839A9066912F3F88299358EDB44460540CF807311E4DA8DFA6F1CFBA;
   0xFE92DFEC462EB889549B1767EC27700271F048BBC94C2FDEDBF980306345E755;
   0x6B3FA09CD383C7F9C1366817798A0F72E45D37CB5CE150AE4E54FF40F6E89825;
   0xAE8B88731637EF16048240F8BC3E279D21E91F24995578418BE0D7AF335CB0CA;
   0xED59B63B55E5D15E47507EB0FFEC19D5623B216CDA874609C832E9E7708E8E82;
   0x28ED9ED49051F9B182E4565F3A58313AA78F09831F336EE60D86C108B53AA66D;
   0xBD40E1A405FC86C11749292FAFF54E4A322276F38A9E1196982BBE782097D91D;
   0x78F4C94BC048AE2ED2FD01C06A4166A5F7965E1C4F2A39795D9F9697E523F1F2;
   0x4D6B1905F5D77E60E762D18E5FDEB6EBC2098E527AB5E937680046D9D0BC21BC;
   0x88DF31EA3063568F22D6F9619A6A9E0407BDA6BDBF01C1D8ADB46E3615080953;
   0x1D724E9AA5CE29FFB77B86110FC7E1749210D9CD2AACBEA83819114680A57623;
   0xD8C66675607A011072CFAEFECA73C99B57A4F122EF189647FDAD39A945115ECC;
   0x764DEE06CEF18963DC44268D64F841E8F92F795141931E345326B1DAEB9AD6BF;
   0xB3F9C6E90B45A18C19F00E62A14C69073C9B51BE842736DB969299352E2EFE50;
   0x2654B9999EE8DEFC8C5D711234E11677A9362ECE118A49AB033FE645BB838120;
   0xE3E091765B5CF61349E959FDF1553E986C820621D43E6144C68BCEAA7E37A9CF;
   0xD67F41386EC3265D7C7689B3C4CAEED6591DD66FE1A1B10AF3141EE44BA87981;
   0x13CB69D7AB770EB2B9C2A15C017EC6399CA9FE80241599E536A0360B8E1C516E;
   0x866616A73EDA71C22C6FDE2C94D3B949090481F0B1B8E695A30D497B1BB12E1E;
   0x43D23E48FB6E592DE9DBF6C3516791A6CCB0A91F740CCE7A66B96194DE0506F1]].

Definition crc32_lines_4_7 : list (list Z) := [
  [0x000000003D6029B07AC0536047A07AD0F580A6C0C8E08F708F40F5A0B220DC10;
   0x30704BC10D1062714AB018A177D03111C5F0ED01F890C4B1BF30BE61825097D1;
   0x60E097825D80BE321A20C4E22740ED5295603142A80018F2EFA06222D2C04B92;
   0x5090DC436DF0F5F32A508F231730A693A5107A8398705333DFD029E3E2B00053;
   0xC1C12F04FCA106B4BB017C64866155D4344189C40921A0744E81DAA473E1F314;
   0xF1B164C5CCD14D758B7137A5B6111E150431C2053951EBB57EF191654391B8D5;
   0xA121B8869C419136DBE1EBE6E681C25654A11E4669C137F62E614D2613016496;
   0x9151F347AC31DAF7EB91A027D6F1899764D1558759B17C371E1106E723712F57;
   0x58F35849659371F922330B291F532299AD73FE899013D739D7B3ADE9EAD38459;
   0x6883138855E33A38124340E82F2369589D03B548A0639CF8E7C3E628DAA3CF98;
   0x3813CFCB0573E67B42D39CAB7FB3B51BCD93690BF0F340BBB7533A6B8A3313DB;
   0x0863840A3503ADBA72A3D76A4FC3FEDAFDE322CAC0830B7A872371AABA43581A;
   0x9932774DA4525EFDE3F2242DDE920D9D6CB2D18D51D2F83D167282ED2B12AB5D;
   0xA9423C8C9422153CD3826FECEEE2465C5CC29A4C61A2B3FC2602C92C1B62E09C;
   0xF9D2E0CFC4B2C97F8312B3AFBE729A1F0C52460F31326FBF7692156F4BF23CDF;
   0xC9A2AB0EF4C282BEB362F86E8E02D1DE3C220DCE0142247E46E25EAE7B82771E;
   0xB1E6B0928C869922CB26E3F2F646CA424466165279063FE23EA6453203C66C82;
   0x8196FB53BCF6D2E3FB56A833C636818374165D93497674230ED60EF333B62743;
   0xD1062710EC660EA0ABC6747096A65DC0248681D019E6A8605E46D2B06326FB00;
   0xE1766CD1DC1645619BB63FB1A6D6160114F6CA112996E3A16E3699715356B0C1;
   0x70279F964D47B6260AE7CCF63787E54685A73956B8C710E6FF676A36C2074386;
   0x4057D4577D37FDE73A97873707F7AE87B5D7729788B75B27CF1721F7F2770847;
   0x10C708142DA721A46A075B74576772C4E547AED4D82787649F87FDB4A2E7D404;
   0x20B743D51DD76A655A7710B567173905D537E515E857CCA5AFF7B67592979FC5;
   0xE915E8DBD475C16B93D5BBBBAEB5920B1C954E1B21F567AB66551D7B5B3534CB;
   0xD965A31AE4058AAAA3A5F07A9EC5D9CA2CE505DA11852C6A562556BA6B457F0A;
   0x89F57F59B49556E9F3352C39CE5505897C75D9994115F02906B58AF93BD5A349;
   0xB985349884E51D28C34567F8FE254E484C0592587165BBE836C5C1380BA5E888;
   0x28D4C7DF15B4EE6F521494BF6F74BD0FDD54611FE03448AFA794327F9AF41BCF;
   0x18A48C1E25C4A5AE6264DF7E5F04F6CEED242ADED044036E97E479BEAA84500E;
   0x4834505D755479ED32F4033D0F942A8DBDB4F69D80D4DF2DC774A5FDFA148C4D;
   0x78441B9C4524322C028448FC3FE4614C8DC4BD5CB0A494ECF704EE3CCA64C78C];
  [0x00000000CB5CD3A54DC8A10B869472AE9B91421650CD91B3D659E31D1D0530B8;
   0xEC53826D270F51C8A19B23666AC7F0C377C2C07BBC9E13DE3A0A6170F156B2D5;
   0x03D6029BC88AD13E4E1EA390854270359847408D531B9328D58FE1861ED33223;
   0xEF8580F624D95353A24D21FD6911F2587414C2E0BF48114539DC63EBF280B04E;
   0x07AC0536CCF0D6934A64A43D813877989C3D472057619485D1F5E62B1AA9358E;
   0xEBFF875B20A354FEA63726506D6BF5F5706EC54DBB3216E83DA66446F6FAB7E3;
   0x047A07ADCF26D40849B2A6A682EE75039FEB45BB54B7961ED223E4B0197F3715;
   0xE82985C023755665A5E124CB6EBDF76E73B8C7D6B8E414733E7066DDF52CB578;
   0x0F580A6CC404D9C94290AB6789CC78C294C9487A5F959BDFD901E971125D3AD4;
   0xE30B880128575BA4AEC3290A659FFAAF789ACA17B3C619B235526B1CFE0EB8B9;
   0x0C8E08F7C7D2DB524146A9FC8A1A7A59971F4AE15C439944DAD7EBEA118B384F;
   0xE0DD8A9A2B81593FAD152B916649F8347B4CC88CB0101B2936846987FDD8BA22;
   0x08F40F5AC3A8DCFF453CAE518E607DF493654D4C58399EE9DEADEC4715F13FE2;
   0xE4A78D372FFB5E92A96F2C3C6233FF997F36CF21B46A1C8432FE6E2AF9A2BD8F;
   0x0B220DC1C07EDE6446EAACCA8DB67F6F90B34FD75BEF9C72DD7BEEDC16273D79;
   0xE7718FAC2C2D5C09AAB92EA761E5FD027CE0CDBAB7BC1E1F31286CB1FA74BF14;
   0x1EB014D8D5ECC77D5378B5D398246676852156CE4E7D856BC8E9F7C503B52460;
   0xF2E396B539BF4510BF2B37BE7477E41B6972D4A3A22E070624BA75A8EFE6A60D;
   0x1D661643D63AC5E650AEB7489BF264ED86F754554DAB87F0CB3FF55E006326FB;
   0xF135942E3A69478BBCFD352577A1E6806AA4D638A1F8059D276C7733EC30A496;
   0x191C11EED240C24B54D4B0E59F886340828D53F849D1805DCF45F2F304192156;
   0xF54F93833E134026B887328873DBE12D6EDED195A58202302316709EE84AA33B;
   0x1ACA1375D196C0D05702B27E9C5E61DB815B51634A0782C6CC93F06807CF23CD;
   0xF69991183DC542BDBB513013700DE3B66D08D30EA65400AB20C07205EB9CA1A0;
   0x11E81EB4DAB4CD115C20BFBF977C6C1A8A795CA241258F07C7B1FDA90CED2E0C;
   0xFDBB9CD936E74F7CB0733DD27B2FEE77662ADECFAD760D6A2BE27FC4E0BEAC61;
   0x123E1C2FD962CF8A5FF6BD2494AA6E8189AF5E3942F38D9CC467FF320F3B2C97;
   0xFE6D9E4235314DE7B3A53F4978F9ECEC65FCDC54AEA00FF128347D5FE368AEFA;
   0x16441B82DD18C8275B8CBA8990D0692C8DD5599446898A31C01DF89F0B412B3A;
   0xFA1799EF314B4A4AB7DF38E47C83EB416186DBF9AADA085C2C4E7AF2E712A957;
   0x15921919DECECABC585AB81293066BB78E035B0F455F88AAC3CBFA04089729A1;
   0xF9C19B74329D48D1B4093A7F7F55E9DA6250D962A90C0AC72F987869E4C4ABCC];
  [0x00000000A6770BB4979F112931E81A9DF44F241352382FA763D0353AC5A73E8E;
   0x33EF4E67959845D3A4705F4E020754FAC7A06A7461D761C0503F7B5DF64870E9;
   0x67DE9CCEC1A9977AF0418DE7563686539391B8DD35E6B369040EA9F4A279A240;
   0x5431D2A9F246D91DC3AEC38065D9C834A07EF6BA0609FD0E37E1E7939196EC27;
   0xCFBD399C69CA3228582228B5FE5523013BF21D8F9D85163BAC6D0CA60A1A0712;
   0xFC5277FB5A257C4F6BCD66D2CDBA6D66081D53E8AE6A585C9F8242C139F54975;
   0xA863A5520E14AEE63FFCB47B998BBFCF5C2C8141FA5B8AF5CBB390686DC49BDC;
   0x9B8CEB353DFBE0810C13FA1CAA64F1A86FC3CF26C9B4C492F85CDE0F5E2BD5BB;
   0x440B7579E27C7ECDD394645075E36FE4B044516A16335ADE27DB404381AC4BF7;
   0x77E43B1ED19330AAE07B2A37460C218383AB1F0D25DC14B914340E24B2430590;
   0x23D5E9B785A2E203B44AF89E123DF32AD79ACDA471EDC6104005DC8DE672D739;
   0x103AA7D0B64DAC6487A5B6F921D2BD4DE47583C34202887773EA92EAD59D995E;
   0x8BB64CE52DC147511C295DCCBA5E56787FF968F6D98E6342E86679DF4E11726B;
   0xB85902821E2E09362FC613AB89B1181F4C162691EA612D25DB8937B87DFE3C0C;
   0xEC68D02B4A1FDB9F7BF7C102DD80CAB61827F438BE50FF8C8FB8E51129CFEEA5;
   0xDF879E4C79F095F848188F65EE6F84D12BC8BA5F8DBFB1EBBC57AB761A20A0C2;
   0x8816EAF22E61E1461F89FBDBB9FEF06F7C59CEE1DA2EC555EBC6DFC84DB1D47C;
   0xBBF9A4951D8EAF212C66B5BC8A11BE084FB68086E9C18B32D82991AF7E5E9A1B;
   0xEFC8763C49BF7D8878576715DE206CA11B87522FBDF0599B8C1843062A6F48B2;
   0xDC27385B7A5033EF4BB82972EDCF22C628681C488E1F17FCBFF70D61198006D5;
   0x47ABD36EE1DCD8DAD034C2477643C9F3B3E4F77D1593FCC9247BE654820CEDE0;
   0x74449D09D23396BDE3DB8C2045AC8794800BB91A267CB2AE1794A833B1E3A387;
   0x20754FA086024414B7EA5E89119D553DD43A6BB3724D600743A57A9AE5D2712E;
   0x139A01C7B5ED0A73840510EE22721B5AE7D525D441A22E60704A34FDD63D3F49;
   0xCC1D9F8B6A6A943F5B828EA2FDF585163852BB989E25B02CAFCDAAB109BAA105;
   0xFFF2D1EC5985DA58686DC0C5CE1ACB710BBDF5FFADCAFE4B9C22E4D63A55EF62;
   0xABC303450DB408F13C5C126C9A2B19D85F8C2756F9FB2CE2C813367F6E643DCB;
   0x982C4D223E5B46960FB35C0BA9C457BF6C636931CA146285FBFC78185D8B73AC;
   0x03A0A617A5D7ADA3943FB73E3248BC8AF7EF8204519889B06070932DC6079899;
   0x304FE8709638E3C4A7D0F95901A7F2EDC400CC636277C7D7539FDD4AF5E8D6FE;
   0x647E3AD9C209316DF3E12BF05596204490311ECA3646157E07AE0FE3A1D90457;
   0x579174BEF1E67F0AC00E659766796E23A3DE50AD05A95B193441418492364A30];
  [0x00000000CCAA009E4225077D8E8F07E3844A0EFA48E00E64C66F09870AC50919;
   0xD3E51BB51F4F1B2B91C01CC85D6A1C5657AF154F9B0515D1158A1232D92012AC;
   0x7CBB312BB01131B53E9E3656F23436C8F8F13FD1345B3F4FBAD438AC767E3832;
   0xAF5E2A9E63F42A00ED7B2DE321D12D7D2B142464E7BE24FA69312319A59B2387;
   0xF976625635DC62C8BB53652B77F965B57D3C6CACB1966C323F196BD1F3B36B4F;
   0x2A9379E3E639797D68B67E9EA41C7E00AED9771962737787ECFC7064205670FA;
   0x85CD537D496753E3C7E854000B42549E01875D87CD2D5D1943A25AFA8F085A64;
   0x562848C89A824856140D4FB5D8A74F2BD26246321EC846AC9047414F5CED41D1;
   0x299DC2EDE537C2736BB8C590A712C50EADD7CC17617DCC89EFF2CB6A2358CBF4;
   0xFA78D95836D2D9C6B85DDE2574F7DEBB7E32D7A2B298D73C3C17D0DFF0BDD041;
   0x5526F3C6998CF3581703F4BBDBA9F425D16CFD3C1DC6FDA29349FA415FE3FADF;
   0x86C3E8734A69E8EDC4E6EF0E084CEF900289E689CE23E61740ACE1F48C06E16A;
   0xD0EBA0BB1C41A02592CEA7C65E64A75854A1AE41980BAEDF1684A93CDA2EA9A2;
   0x030EBB0ECFA4BB90412BBC738D81BCED8744B5F44BEEB56AC561B28909CBB217;
   0xAC50919060FA910EEE7596ED22DF9673281A9F6AE4B09FF46A3F9817A6959889;
   0x7FB58A25B31F8ABB3D908D58F13A8DC6FBFF84DF37558441B9DA83A27570833C;
   0x533B85DA9F918544111E82A7DDB48239D7718B201BDB8BBE95548C5D59FE8CC3;
   0x80DE9E6F4C749EF1C2FB99120E51998C04949095C83E900B46B197E88A1B9776;
   0x2F80B4F1E32AB46F6DA5B38CA10FB312ABCABA0B6760BA95E9EFBD762545BDE8;
   0xFC65AF4430CFAFDABE40A83972EAA8A7782FA1BEB485A1203A0AA6C3F6A0A65D;
   0xAA4DE78C66E7E712E868E0F124C2E06F2E07E976E2ADE9E86C22EE0BA088EE95;
   0x79A8FC39B502FCA73B8DFB44F727FBDAFDE2F2C33148F25DBFC7F5BE736DF520;
   0xD6F6D6A71A5CD63994D3D1DA5879D14452BCD85D9E16D8C31099DF20DC33DFBE;
   0x0513CD12C9B9CD8C4736CA6F8B9CCAF18159C3E84DF3C376C37CC4950FD6C40B;
   0x7AA64737B60C47A93883404AF42940D4FEEC49CD32464953BCC94EB070634E2E;
   0xA9435C8265E95C1CEB665BFF27CC5B612D095278E1A352E66F2C5505A386559B;
   0x061D761CCAB7768244387161889271FF825778E64EFD7878C0727F9B0CD87F05;
   0xD5F86DA919526D3797DD6AD45B776A4A51B263539D1863CD1397642EDF3D64B0;
   0x83D025614F7A25FFC1F5221C0D5F2282079A2B9BCB302B0545BF2CE689152C78;
   0x50353ED49C9F3E4A121039A9DEBA3937D47F302E18D530B0965A37535AF037CD;
   0xFF6B144A33C114D4BD4E133771E413A97B211AB0B78B1A2E39041DCDF5AE1D53;
   0x2C8E0FFFE0240F616EAB0882A201081CA8C40105646E019BEAE10678264B06E6]].

Definition crc32Lookup : list (list Z) := mbind table_line <$> (crc32_lines_0_3 ++ crc32_lines_4_7).

(** [crc32Lookup[k][i]] *)
Definition lookup_crc (k i : Z) : outcome Z := t ← vget crc32Lookup k; vget t i.

(** One entry of each table. *)
Definition xor_entries (i7 i6 i5 i4 i3 i2 i1 i0 : Z) : outcome Z :=
  t7 ← lookup_crc 7 i7;
  t6 ← lookup_crc 6 i6;
  t5 ← lookup_crc 5 i5;
  t4 ← lookup_crc 4 i4;
  t3 ← lookup_crc 3 i3;
  t2 ← lookup_crc 2 i2;
  t1 ← lookup_crc 1 i1;
  t0 ← lookup_crc 0 i0;
  Ret (Z.lxor (Z.lxor (Z.lxor (Z.lxor (Z.lxor (Z.lxor (Z.lxor t7 t6) t5) t4) t3) t2) t1) t0).

Section host.
Context {E : ByteOrder}.

(** Eight bytes, read as two words; which byte of a word is the first depends
    on the host. *)
Definition two_words (crc : Z) (first second : list Z) : outcome Z :=
  match byte_order with
  | BigEndian =>
      let one := Z.lxor (native first) (swap crc) in
      let two := native second in
      xor_entries (Z.shiftr one 24) (Z.land (Z.shiftr one 16) 0xFF) (Z.land (Z.shiftr one 8) 0xFF) (Z.land one 0xFF)
        (Z.shiftr two 24) (Z.land (Z.shiftr two 16) 0xFF) (Z.land (Z.shiftr two 8) 0xFF) (Z.land two 0xFF)
  | LittleEndian =>
      let one := Z.lxor (native first) crc in
      let two := native second in
      xor_entries (Z.land one 0xFF) (Z.land (Z.shiftr one 8) 0xFF) (Z.land (Z.shiftr one 16) 0xFF) (Z.shiftr one 24)
        (Z.land two 0xFF) (Z.land (Z.shiftr two 8) 0xFF) (Z.land (Z.shiftr two 16) 0xFF) (Z.shiftr two 24)
  end.

(** The loop over eight bytes at once: the [crc] and the bytes that are left. *)
Fixpoint process_eight (crc : Z) (data : list Z) : outcome (Z * list Z) :=
  match data with
  | b0 :: b1 :: b2 :: b3 :: b4 :: b5 :: b6 :: b7 :: rest =>
      crc ← two_words crc [b0; b1; b2; b3] [b4; b5; b6; b7];
      process_eight crc rest
  | _ => Ret (crc, data)
  end.
End host.

(** One of the remaining bytes. *)
Definition process_one (crc b : Z) : outcome Z :=
  t ← lookup_crc 0 (Z.lxor (Z.land crc 0xFF) b);
  Ret (Z.lxor (Z.shiftr crc 8) t).

Definition add {E : ByteOrder} (st : CRC32) (data : list Z) : outcome CRC32 :=
  let crc := not32 (m_hash st) in
  '(crc, data) ← process_eight crc data;
  crc ← foldM process_one crc data;
  Ret (mkCRC32 (not32 crc)).

(** [getHash()]: eight characters, from the most significant digit. *)
Definition getHash (st : CRC32) : string :=
  let m_hash := m_hash st in
  let dec2hex x := String (hex_digit x) EmptyString in
  (dec2hex (Z.shiftr m_hash 28) +:+ dec2hex (Z.land (Z.shiftr m_hash 24) 15) +:+
   dec2hex (Z.land (Z.shiftr m_hash 20) 15) +:+ dec2hex (Z.land (Z.shiftr m_hash 16) 15) +:+
   dec2hex (Z.land (Z.shiftr m_hash 12) 15) +:+ dec2hex (Z.land (Z.shiftr m_hash 8) 15) +:+
   dec2hex (Z.land (Z.shiftr m_hash 4) 15) +:+ dec2hex (Z.land m_hash 15))%string.

(** [getHash(buffer)]: the four bytes. *)
Definition getHash_raw (st : CRC32) : list Z :=
  (λ s, Z.land (Z.shiftr (m_hash st) s) 0xFF) <$> [24; 16; 8; 0].

(** [operator()(data, numBytes)] and, on the bytes of a string,
    [operator()(text)]. *)
Definition crc_call {E : ByteOrder} (st : CRC32) (data : list Z) : outcome (string * CRC32) :=
  st ← add (reset st) data; Ret (getHash st, st).

(** ** Specification: one bit at a time, the bits of a byte from the lowest *)
Definition Polynomial : Z := 0xEDB88320.

Definition crc_bit (c : Z) : Z := Z.lxor (Z.shiftr c 1) (if Z.odd c then Polynomial else 0).
Definition crc_bits (n : nat) (c : Z) : Z := Nat.iter n crc_bit c.
Definition crc_byte (c b : Z) : Z := crc_bits 8 (Z.lxor c b).
Definition crc_register (c : Z) (msg : list Z) : Z := foldl crc_byte c msg.
Definition crc32 (msg : list Z) : Z := not32 (crc_register (Z.ones 32) msg).

(** "123456789", the check value of the polynomial. *)
Example crc32_check {E : ByteOrder} :
  crc32 [49; 50; 51; 52; 53; 54; 55; 56; 57] = 0xCBF43926 ∧
  (r ← crc_call (CRC32_new 0) [49; 50; 51; 52; 53; 54; 55; 56; 57]; Ret (fst r)) = Ret "cbf43926".
Proof. destruct E; split; vm_compute; reflexivity. Qed.

(** ** The register is linear *)
Lemma crc_bit_lxor a b : crc_bit (Z.lxor a b) = Z.lxor (crc_bit a) (crc_bit b).
Proof.
  unfold crc_bit. rewrite Z.shiftr_lxor, <-!Z.bit0_odd, Z.lxor_spec.
  destruct (Z.testbit a 0), (Z.testbit b 0); cbn [xorb]; rewrite ?Z.lxor_0_r; bitwise.
Qed.

Lemma crc_bits_S n c : crc_bits (S n) c = crc_bit (crc_bits n c).
Proof. reflexivity. Qed.

Lemma crc_bits_lxor n a b : crc_bits n (Z.lxor a b) = Z.lxor (crc_bits n a) (crc_bits n b).
Proof. induction n as [|n IH]; [done|]. by rewrite !crc_bits_S, IH, crc_bit_lxor. Qed.

Lemma crc_bits_add n m c : crc_bits (n + m) c = crc_bits n (crc_bits m c).
Proof. induction n as [|n IH]; [done|]. cbn [Nat.add]. by rewrite !crc_bits_S, IH. Qed.

(** Zeros at the low end only move the bits down. *)
Lemma crc_bits_shift n x : crc_bits n (Z.shiftl x (Z.of_nat n)) = x.
Proof.
  induction n as [|n IH]; [apply Z.shiftl_0_r|]. replace (S n) with (n + 1)%nat by lia.
  rewrite crc_bits_add, crc_bits_S. cbn [crc_bits Nat.iter nat_rect]. unfold crc_bit.
  rewrite <-Z.bit0_odd, Z.shiftl_spec_low by lia. rewrite Z.lxor_0_r.
  rewrite Z.shiftr_shiftl_l by lia. replace (Z.of_nat (n + 1) - 1) with (Z.of_nat n) by lia. exact IH.
Qed.

Lemma crc_bits_shl n m x : crc_bits (n + m) (Z.shiftl x (Z.of_nat m)) = crc_bits n x.
Proof. by rewrite crc_bits_add, crc_bits_shift. Qed.

Lemma crc_bits_zero n : crc_bits n 0 = 0.
Proof. induction n as [|n IH]; [done|]. by rewrite crc_bits_S, IH. Qed.

Lemma split8 x : x = Z.lxor (Z.land x 0xFF) (Z.shiftl (Z.shiftr x 8) 8).
Proof.
  apply Z.bits_inj'. intros n Hn. rewrite Z.lxor_spec, Z.land_spec. change 0xFF with (Z.ones 8).
  destruct (decide (n < 8)).
  - by rewrite Z.ones_spec_low, Z.shiftl_spec_low, andb_true_r, xorb_false_r by lia.
  - rewrite Z.ones_spec_high, Z.shiftl_spec, Z.shiftr_spec by lia.
    rewrite andb_false_r, xorb_false_l. f_equal. lia.
Qed.

Lemma split32 x :
  x = Z.lxor (Z.lxor (Z.lxor (Z.land x 0xFF) (Z.shiftl (Z.land (Z.shiftr x 8) 0xFF) 8))
    (Z.shiftl (Z.land (Z.shiftr x 16) 0xFF) 16)) (Z.shiftl (Z.shiftr x 24) 24).
Proof.
  rewrite (split8 x) at 1. rewrite (split8 (Z.shiftr x 8)) at 1. rewrite (split8 (Z.shiftr (Z.shiftr x 8) 8)) at 1.
  rewrite !Z.shiftr_shiftr by lia. rewrite !Z.shiftl_lxor, !Z.shiftl_shiftl by lia.
  change (8 + 8) with 16. change (16 + 8) with 24. by rewrite !Z.lxor_assoc.
Qed.

Lemma le_num_cons b x : byte b → le_num (b :: x) = Z.lxor b (Z.shiftl (le_num x) 8).
Proof.
  intros Hb. cbn [le_num foldr]. fold (le_num x).
  assert (Z.land b (Z.shiftl (le_num x) 8) = 0) as H0.
  { apply Z.bits_inj'. intros n Hn. rewrite Z.land_spec, Z.bits_0.
    destruct (decide (n < 8)); [by rewrite Z.shiftl_spec_low, andb_false_r by lia|].
    by rewrite (testbit_high b 8 n) by (unfold byte in Hb; lia). }
  rewrite <-Z.add_nocarry_lxor by done. rewrite Z.shiftl_mul_pow2 by lia. lia.
Qed.

(** Bytes read into the register one at a time, or all at once. *)
Lemma crc_register_word c x :
  Forall byte x → crc_register c x = crc_bits (8 * length x) (Z.lxor c (le_num x)).
Proof.
  intros Hx. revert c. induction Hx as [|b x Hb _ IH]; intros c; [cbn; by rewrite Z.lxor_0_r|].
  rewrite le_num_cons by done. cbn [crc_register foldl length]. fold (crc_register (crc_byte c b) x).
  rewrite IH. unfold crc_byte. replace (8 * S (length x))%nat with (8 * length x + 8)%nat by lia.
  rewrite crc_bits_add. f_equal. rewrite <-Z.lxor_assoc, (crc_bits_lxor 8 (Z.lxor c b)). f_equal.
  symmetry. apply (crc_bits_shift 8).
Qed.

Lemma crc_register_app c x y : crc_register c (x ++ y) = crc_register (crc_register c x) y.
Proof. apply foldl_app. Qed.

(** ** Words *)
Lemma crc_bit_word c : word c → word (crc_bit c).
Proof.
  intros Hc. unfold crc_bit. apply lxor_range.
  - pose proof (shr_range c 1 ltac:(lia) Hc). unfold word. lia.
  - destruct (Z.odd c); unfold word, Polynomial; lia.
Qed.

Lemma crc_bits_word n c : word c → word (crc_bits n c).
Proof. intros Hc. induction n as [|n IH]; [done|]. by apply crc_bit_word. Qed.

Lemma byte_word b : byte b → word b.
Proof. unfold byte, word. lia. Qed.

Lemma crc_register_range c x : word c → Forall byte x → word (crc_register c x).
Proof.
  intros Hc Hx. revert c Hc. induction Hx as [|b x Hb _ IH]; intros c Hc; [done|].
  apply (IH (crc_byte c b)), (crc_bits_word 8), lxor_range; [done|by apply byte_word].
Qed.

Lemma not32_range a : word a → word (not32 a).
Proof. intros Ha. by apply lxor_range. Qed.

Lemma not32_not32 a : not32 (not32 a) = a.
Proof. unfold not32. by rewrite Z.lxor_assoc, Z.lxor_nilpotent, Z.lxor_0_r. Qed.

(** The step can be undone: the highest bit says which bit was shifted out. *)
Lemma crc_bit_high c : word c → Z.testbit (crc_bit c) 31 = Z.odd c.
Proof.
  intros Hc. unfold crc_bit. rewrite Z.lxor_spec, Z.shiftr_spec by lia.
  rewrite (testbit_high c 32) by (unfold word in Hc; lia). by destruct (Z.odd c).
Qed.

Lemma crc_bit_inj c c' : word c → word c' → crc_bit c = crc_bit c' → c = c'.
Proof.
  intros Hc Hc' E. assert (Z.odd c = Z.odd c') as Ho by by rewrite <-!crc_bit_high, E.
  unfold crc_bit in E. rewrite Ho in E.
  apply (f_equal (λ x, Z.lxor x (if Z.odd c' then Polynomial else 0))) in E.
  rewrite !Z.lxor_assoc, Z.lxor_nilpotent, !Z.lxor_0_r in E.
  rewrite (Z.div2_odd c), (Z.div2_odd c'), Ho, !Z.div2_spec. by rewrite E.
Qed.

Lemma crc_bits_inj n c c' : word c → word c' → crc_bits n c = crc_bits n c' → c = c'.
Proof.
  intros Hc Hc'. induction n as [|n IH]; [done|]. rewrite !crc_bits_S. intros E.
  apply IH. apply crc_bit_inj; [by apply crc_bits_word..|done].
Qed.

(** ** The table *)
Lemma table_correct :
  crc32Lookup = (λ k, (λ i, crc_bits (8 * S k) (Z.of_nat i)) <$> seq 0 256) <$> seq 0 8.
Proof. vm_compute. reflexivity. Qed.

Lemma lookup_crc_eq (k : nat) i :
  (k < 8)%nat → byte i → lookup_crc (Z.of_nat k) i = Ret (crc_bits (8 * S k) i).
Proof.
  intros Hk Hi. unfold byte in Hi. unfold lookup_crc. rewrite table_correct.
  assert (vget ((λ k, (λ i, crc_bits (8 * S k) (Z.of_nat i)) <$> seq 0 256) <$> seq 0 8) (Z.of_nat k) =
    Ret ((λ i, crc_bits (8 * S k) (Z.of_nat i)) <$> seq 0 256)) as ->.
  { apply vget_Ret. split; [lia|]. by rewrite list_lookup_fmap, Nat2Z.id, lookup_seq_lt by lia. }
  cbn [mbind outcome_bind]. apply vget_Ret. split; [lia|].
  rewrite list_lookup_fmap, lookup_seq_lt by lia. cbn. by rewrite Z2Nat.id by lia.
Qed.

(** ** The algorithm *)
Lemma byte_land x : byte (Z.land x 0xFF).
Proof. unfold byte. change 0xFF with (Z.ones 8). rewrite Z.land_ones by lia. apply (Z.mod_pos_bound _ (2 ^ 8)). lia. Qed.

Lemma byte_lxor a b : byte a → byte b → byte (Z.lxor a b).
Proof.
  intros Ha Hb. rewrite <-(Z.mod_small a (2 ^ 8)), <-(Z.mod_small b (2 ^ 8)) by done.
  rewrite <-!Z.land_ones by lia.
  replace (Z.lxor (Z.land a (Z.ones 8)) (Z.land b (Z.ones 8))) with (Z.land (Z.lxor a b) (Z.ones 8)) by bitwise.
  apply byte_land.
Qed.

Lemma byte_shiftr_24 x : word x → byte (Z.shiftr x 24).
Proof. intros Hx. by pose proof (shr_range x 24 ltac:(lia) Hx). Qed.

Lemma process_one_eq c b : byte b → process_one c b = Ret (crc_byte c b).
Proof.
  intros Hb. unfold process_one. rewrite (lookup_crc_eq 0) by first [lia | apply byte_lxor; [apply byte_land|exact Hb]].
  cbn [mbind outcome_bind]. apply f_equal. unfold crc_byte.
  assert (Z.lxor c b = Z.lxor (Z.shiftl (Z.shiftr c 8) (Z.of_nat 8)) (Z.lxor (Z.land c 0xFF) b)) as ->.
  { rewrite (split8 c) at 1. by rewrite (Z.lxor_comm (Z.land c 0xFF)), Z.lxor_assoc. }
  by rewrite (crc_bits_lxor 8 (Z.shiftl _ _)), crc_bits_shift.
Qed.

(** Four table entries, from table [k] on, are [8 k + 32] steps of a word. *)
Lemma four_entries (k : nat) x :
  crc_bits (8 * k + 32) x =
    Z.lxor (Z.lxor (Z.lxor (crc_bits (8 * k + 32) (Z.land x 0xFF)) (crc_bits (8 * k + 24) (Z.land (Z.shiftr x 8) 0xFF)))
      (crc_bits (8 * k + 16) (Z.land (Z.shiftr x 16) 0xFF))) (crc_bits (8 * k + 8) (Z.shiftr x 24)).
Proof.
  rewrite (split32 x) at 1. rewrite !crc_bits_lxor.
  apply f_equal2; [apply f_equal2; [apply f_equal2; [reflexivity|]|]|].
  - replace (8 * k + 32)%nat with (8 * k + 24 + 8)%nat by lia. apply (crc_bits_shl _ 8).
  - replace (8 * k + 32)%nat with (8 * k + 16 + 16)%nat by lia. apply (crc_bits_shl _ 16).
  - replace (8 * k + 32)%nat with (8 * k + 8 + 24)%nat by lia. apply (crc_bits_shl _ 24).
Qed.

Lemma crc_register_eight c b0 b1 b2 b3 b4 b5 b6 b7 :
  Forall byte [b0; b1; b2; b3; b4; b5; b6; b7] →
  crc_register c [b0; b1; b2; b3; b4; b5; b6; b7] =
    Z.lxor (crc_bits 64 (Z.lxor (le_num [b0; b1; b2; b3]) c)) (crc_bits 32 (le_num [b4; b5; b6; b7])).
Proof.
  intros Hb. change [b0; b1; b2; b3; b4; b5; b6; b7] with ([b0; b1; b2; b3] ++ [b4; b5; b6; b7]) in *.
  apply Forall_app in Hb as [H1 H2].
  rewrite crc_register_app, (crc_register_word _ _ H2), (crc_register_word _ _ H1).
  cbn [length Nat.mul Nat.add]. rewrite crc_bits_lxor, <-(crc_bits_add 32 32). by rewrite (Z.lxor_comm c).
Qed.

(** The bytes of a word and of the swapped word. *)
Lemma swap_bytes x : word x →
  Z.shiftr (swap x) 24 = Z.land x 0xFF ∧ Z.land (Z.shiftr (swap x) 16) 0xFF = Z.land (Z.shiftr x 8) 0xFF ∧
  Z.land (Z.shiftr (swap x) 8) 0xFF = Z.land (Z.shiftr x 16) 0xFF ∧ Z.land (swap x) 0xFF = Z.shiftr x 24.
Proof.
  unfold word. intros Hx. set (b k := x / 2 ^ (8 * k) mod 256).
  assert (∀ k, byte (b k)) as Hb by (intros k; apply Z.mod_pos_bound; lia).
  assert (x = le_num [b 0; b 1; b 2; b 3]) as E.
  { unfold b. cbn [le_num foldr Z.mul]. Z.to_euclidean_division_equations; lia. }
  rewrite E, swap_le_num by done. pose proof (Hb 0). pose proof (Hb 1). pose proof (Hb 2). pose proof (Hb 3).
  clear E Hb Hx. clearbody b. clear x. unfold byte in *. change 0xFF with (Z.ones 8).
  rewrite !Z.land_ones, !Z.shiftr_div_pow2 by lia. cbn [le_num be_num foldr foldl].
  split_and!; Z.to_euclidean_division_equations; lia.
Qed.

Lemma land_lxor_r a b m : Z.land (Z.lxor a b) m = Z.lxor (Z.land a m) (Z.land b m).
Proof. bitwise. Qed.

Lemma swap_lxor_bytes x y : word x → word y →
  Z.shiftr (Z.lxor (swap x) (swap y)) 24 = Z.land (Z.lxor x y) 0xFF ∧
  Z.land (Z.shiftr (Z.lxor (swap x) (swap y)) 16) 0xFF = Z.land (Z.shiftr (Z.lxor x y) 8) 0xFF ∧
  Z.land (Z.shiftr (Z.lxor (swap x) (swap y)) 8) 0xFF = Z.land (Z.shiftr (Z.lxor x y) 16) 0xFF ∧
  Z.land (Z.lxor (swap x) (swap y)) 0xFF = Z.shiftr (Z.lxor x y) 24.
Proof.
  intros Hx Hy. destruct (swap_bytes x Hx) as (X1 & X2 & X3 & X4), (swap_bytes y Hy) as (Y1 & Y2 & Y3 & Y4).
  rewrite !Z.shiftr_lxor, !land_lxor_r, X1, X2, X3, X4, Y1, Y2, Y3, Y4. done.
Qed.

(** The host makes no difference. *)
Lemma two_words_eq {E : ByteOrder} crc b0 b1 b2 b3 b4 b5 b6 b7 :
  word crc → Forall byte [b0; b1; b2; b3] → Forall byte [b4; b5; b6; b7] →
  two_words crc [b0; b1; b2; b3] [b4; b5; b6; b7] =
  two_words (E := LittleEndian) crc [b0; b1; b2; b3] [b4; b5; b6; b7].
Proof.
  intros Hc H1 H2. destruct E; [done|]. rewrite !Forall_cons in H1, H2.
  destruct H1 as (? & ? & ? & ? & _), H2 as (? & ? & ? & ? & _).
  unfold two_words, native. cbn [byte_order]. cbv zeta. rewrite <-!swap_le_num by done.
  destruct (swap_lxor_bytes (le_num [b0; b1; b2; b3]) crc) as (-> & -> & -> & ->); [by apply le_num_range|done|].
  by destruct (swap_bytes (le_num [b4; b5; b6; b7])) as (-> & -> & -> & ->); [apply le_num_range|].
Qed.

Lemma two_words_crc {E : ByteOrder} c b0 b1 b2 b3 b4 b5 b6 b7 :
  word c → Forall byte [b0; b1; b2; b3; b4; b5; b6; b7] →
  two_words c [b0; b1; b2; b3] [b4; b5; b6; b7] = Ret (crc_register c [b0; b1; b2; b3; b4; b5; b6; b7]).
Proof.
  intros Hc Hb. rewrite (crc_register_eight _ _ _ _ _ _ _ _ _ Hb).
  change [b0; b1; b2; b3; b4; b5; b6; b7] with ([b0; b1; b2; b3] ++ [b4; b5; b6; b7]) in Hb.
  apply Forall_app in Hb as [H1 H2]. rewrite two_words_eq by done.
  rewrite !Forall_cons in H1, H2. destruct H1 as (? & ? & ? & ? & _), H2 as (? & ? & ? & ? & _).
  assert (word (Z.lxor (le_num [b0; b1; b2; b3]) c)) as Hone by (apply lxor_range; [by apply le_num_range|done]).
  assert (word (le_num [b4; b5; b6; b7])) as Htwo by by apply le_num_range.
  unfold two_words, native, xor_entries. cbn [byte_order]. cbv zeta.
  rewrite (lookup_crc_eq 7), (lookup_crc_eq 6), (lookup_crc_eq 5), (lookup_crc_eq 4), (lookup_crc_eq 3),
    (lookup_crc_eq 2), (lookup_crc_eq 1), (lookup_crc_eq 0)
    by first [lia | apply byte_land | by apply byte_shiftr_24].
  cbn [mbind outcome_bind]. f_equal.
  rewrite (four_entries 4 (Z.lxor _ c)), (four_entries 0 (le_num _)). cbn [Nat.mul Nat.add].
  by rewrite !Z.lxor_assoc.
Qed.

Lemma process_eight_eq {E : ByteOrder} data :
  ∀ c, word c → Forall byte data →
  ∃ pre rest, data = pre ++ rest ∧ process_eight c data = Ret (crc_register c pre, rest).
Proof.
  induction data as [data IH] using (induction_ltof1 _ (@length Z)). unfold ltof in IH. intros c Hc Hd.
  destruct data as [|b0 [|b1 [|b2 [|b3 [|b4 [|b5 [|b6 [|b7 data]]]]]]]]; try (by exists []; eexists).
  change (b0 :: b1 :: b2 :: b3 :: b4 :: b5 :: b6 :: b7 :: data)
    with ([b0; b1; b2; b3; b4; b5; b6; b7] ++ data) in *.
  apply Forall_app in Hd as [Hb Hd].
  destruct (IH data) with (c := crc_register c [b0; b1; b2; b3; b4; b5; b6; b7])
    as (pre & rest & -> & Eq); [cbn; lia|by apply crc_register_range|done|].
  exists ([b0; b1; b2; b3; b4; b5; b6; b7] ++ pre), rest. split; [by rewrite app_assoc|].
  rewrite crc_register_app, <-Eq. cbn [app process_eight]. by rewrite two_words_crc.
Qed.

Lemma add_eq {E : ByteOrder} st data :
  word (m_hash st) → Forall byte data →
  add st data = Ret (mkCRC32 (not32 (crc_register (not32 (m_hash st)) data))).
Proof.
  intros Hst Hd. unfold add.
  destruct (process_eight_eq data (not32 (m_hash st))) as (pre & rest & -> & ->); [by apply not32_range|done|].
  apply Forall_app in Hd as [_ Hr]. cbn [mbind outcome_bind].
  rewrite (foldM_ext_in process_one (λ c b, Ret (crc_byte c b))).
  - rewrite (foldM_pure _ crc_byte) by done. cbn. by rewrite crc_register_app.
  - intros c b Hb. apply process_one_eq. by eapply Forall_forall in Hr.
Qed.

Lemma crc32_range msg : Forall byte msg → word (crc32 msg).
Proof. intros. by apply not32_range, crc_register_range. Qed.

(** ** The text *)
Lemma nibbles x s : 0 ≤ s →
  Z.land (Z.shiftr (Z.land (Z.shiftr x s) 0xFF) 4) 15 = Z.land (Z.shiftr x (s + 4)) 15 ∧
  Z.land (Z.land (Z.shiftr x s) 0xFF) 15 = Z.land (Z.shiftr x s) 15.
Proof.
  intros Hs. split.
  - by rewrite Z.shiftr_land, <-Z.land_assoc, Z.shiftr_shiftr by lia.
  - by rewrite <-Z.land_assoc.
Qed.

Lemma getHash_raw_eq st : getHash_raw st = be_bytes 4 (m_hash st).
Proof. apply (byte_at_be_bytes 4). Qed.

Lemma to_hex_4 a b c d :
  to_hex [a; b; c; d] = String.string_of_list_ascii (hex_digit <$>
    [Z.land (Z.shiftr a 4) 15; Z.land a 15; Z.land (Z.shiftr b 4) 15; Z.land b 15;
     Z.land (Z.shiftr c 4) 15; Z.land c 15; Z.land (Z.shiftr d 4) 15; Z.land d 15]).
Proof. reflexivity. Qed.

Lemma getHash_eq st : word (m_hash st) → getHash st = to_hex (be_bytes 4 (m_hash st)).
Proof.
  intros Hw. rewrite <-getHash_raw_eq. unfold getHash_raw. cbn [fmap list_fmap]. rewrite to_hex_4.
  rewrite !(λ s H, proj1 (nibbles (m_hash st) s H)), !(λ s H, proj2 (nibbles (m_hash st) s H)) by lia.
  rewrite Z.shiftr_0_r.
  assert (Z.land (Z.shiftr (m_hash st) (24 + 4)) 15 = Z.shiftr (m_hash st) 28) as ->; [|reflexivity].
  change 15 with (Z.ones 4). rewrite Z.land_ones, Z.mod_small by (lia || apply (shr_range _ 28); done). done.
Qed.

(** ** Differences are not lost *)
Lemma lxor_cancel a b b' : Z.lxor a b = Z.lxor a b' → b = b'.
Proof.
  intros E. apply (f_equal (Z.lxor a)) in E.
  by rewrite <-!Z.lxor_assoc, !Z.lxor_nilpotent, !Z.lxor_0_l in E.
Qed.

Lemma le_num_inj x y : Forall byte x → Forall byte y → length x = length y → le_num x = le_num y → x = y.
Proof.
  intros Hx. revert y. induction Hx as [|b x Hb _ IH]; intros [|b' y] Hy Hl E; try done.
  apply Forall_cons in Hy as [Hb' Hy]. cbn [le_num foldr] in E. fold (le_num x) (le_num y) in E.
  unfold byte in *. assert (b = b' ∧ le_num x = le_num y) as [-> E'] by lia. f_equal. apply IH; [done| |done].
  by injection Hl.
Qed.

Lemma short_word x : Forall byte x → (length x ≤ 4)%nat → word (le_num x).
Proof.
  intros Hx Hl. pose proof (le_num_bound x Hx). unfold word. split; [lia|].
  apply Z.lt_le_trans with (256 ^ Z.of_nat (length x)); [lia|].
  change (2 ^ 32) with (256 ^ 4). apply Z.pow_le_mono_r; lia.
Qed.

Lemma crc_register_inj s c c' :
  word c → word c' → Forall byte s → crc_register c s = crc_register c' s → c = c'.
Proof.
  intros Hc Hc' Hs. revert c c' Hc Hc'. induction Hs as [|b s Hb _ IH]; intros c c' Hc Hc' E; [done|].
  change (b :: s) with ([b] ++ s) in E. assert (Forall byte [b]) as Hb' by (by constructor).
  rewrite !crc_register_app in E.
  apply IH in E; [|by apply crc_register_range..].
  rewrite !crc_register_word in E by done.
  apply crc_bits_inj in E; [|apply lxor_range; [done|apply short_word; [done|cbn; lia]]..].
  rewrite !(Z.lxor_comm _ (le_num [b])) in E. by apply lxor_cancel in E.
Qed.

Lemma crc32_streams {E : ByteOrder} uninit :
  streams (CRC32_new uninit) add (λ st, Ret (getHash st, st)) (λ m, to_hex (be_bytes 4 (crc32 m))).
Proof.
  exists (λ st m, m_hash st = crc32 m). split_and!; [done| |].
  - intros st m d Em Hm Hd. rewrite add_eq by (try done; rewrite Em; by apply crc32_range). apply returns_Ret. cbn [m_hash].
    unfold crc32 in *. by rewrite Em, not32_not32, crc_register_app.
  - intros st m Em Hm. apply returns_Ret. cbn [fst]. rewrite getHash_eq by (rewrite Em; by apply crc32_range). by rewrite Em.
Qed.

(** ** Main theorems *)

(** C22. CRC-32 is computed: however a message is cut into calls of [add],
    the hash is its CRC-32 by the bit-by-bit definition, no table access is
    out of range, and the text and the bytes are the checksum in hexadecimal
    and most significant byte first; on a host of either byte order. *)
Theorem crc32_is_ieee {E : ByteOrder} uninit chunks :
  Forall (Forall byte) chunks →
  returns (foldM add (CRC32_new uninit) chunks) (λ st, m_hash st = crc32 (concat chunks) ∧
    getHash_raw st = be_bytes 4 (crc32 (concat chunks)) ∧
    getHash st = to_hex (be_bytes 4 (crc32 (concat chunks)))) ∧
  ∀ st, crc_call st (concat chunks) =
    Ret (to_hex (be_bytes 4 (crc32 (concat chunks))), mkCRC32 (crc32 (concat chunks))).
Proof.
  intros Hc. assert (Forall byte (concat chunks)) as Hcc.
  { clear -Hc. induction Hc; cbn; [constructor|]. by apply Forall_app. }
  split.
  - assert (∀ msg, Forall byte msg → foldM add (mkCRC32 (crc32 msg)) chunks = Ret (mkCRC32 (crc32 (msg ++ concat chunks)))) as H.
    { clear Hcc. induction Hc as [|c chunks Hb _ IH]; intros msg Hm; cbn [foldM concat]; [by rewrite app_nil_r|].
      rewrite add_eq by (done || by apply crc32_range). cbn [mbind outcome_bind].
      unfold crc32 at 1. cbn [m_hash]. rewrite not32_not32, <-crc_register_app.
      rewrite app_assoc. apply (IH (msg ++ c)). by apply Forall_app. }
    specialize (H [] ltac:(constructor)). eexists. split; [exact H|]. cbn [m_hash app].
    split; [done|]. split; [apply getHash_raw_eq|]. apply getHash_eq, crc32_range, Hcc.
  - intros st. unfold crc_call. rewrite add_eq by (done || by split). cbn [mbind outcome_bind].
    do 2 f_equal. apply (getHash_eq (mkCRC32 _)), crc32_range, Hcc.
Qed.

(** Changes are detected: two messages that differ only within four
    consecutive bytes, wherever these are, have different checksums. *)
Theorem crc32_detects_burst p x y s :
  Forall byte p → Forall byte x → Forall byte y → Forall byte s →
  length x = length y → (length x ≤ 4)%nat → x ≠ y →
  crc32 (p ++ x ++ s) ≠ crc32 (p ++ y ++ s).
Proof.
  intros Hp Hx Hy Hs Hl H4 Hxy E. apply Hxy, le_num_inj; [done..|]. unfold crc32 in E.
  apply (f_equal not32) in E. rewrite !not32_not32, !crc_register_app in E.
  set (c := crc_register _ p) in E. assert (word c) as Hc by (by apply crc_register_range).
  apply crc_register_inj in E; [|by apply crc_register_range..|done].
  rewrite !crc_register_word in E by done. rewrite Hl in E.
  apply crc_bits_inj in E; [by apply lxor_cancel in E|apply lxor_range; [done|apply short_word; [done|lia]]..].
Qed.

(** ** Witnesses *)
#[local] Instance sample_host : ByteOrder := BigEndian.

Lemma crc32_is_ieee_witness :
  let chunks := [[49; 50; 51]; []; [52; 53; 54; 55; 56; 57; 10; 11; 12]; [255]] in
  returns (foldM add (CRC32_new 7) chunks) (λ st, m_hash st = crc32 (concat chunks)).
Proof.
  set (chunks := [[49; 50; 51]; []; [52; 53; 54; 55; 56; 57; 10; 11; 12]; [255]]).
  assert (Forall (Forall byte) chunks) as Hc
    by (repeat first [apply Forall_nil; exact I | apply Forall_cons; split]; unfold byte; lia).
  destruct (crc32_is_ieee 7 chunks Hc) as [(st & Eq & H & _) _]. exists st. split; [exact Eq|exact H].
Defined.

(** One bit of a byte is wrong. *)
Lemma crc32_detects_burst_witness : crc32 [104; 105; 33] ≠ crc32 [104; 104; 33].
Proof.
  apply (crc32_detects_burst [104] [105] [104] [33]);
    [repeat constructor; discriminate..|reflexivity|cbn; lia|discriminate].
Defined.
