(* ===== verification/Keccak.v ===== *)
(** * Keccak and SHA3 (src/pmud/src/common/hash-library/keccak.cpp, sha3.cpp)

    The permutation as the code has it (one array updated in place, the lanes
    moved along one cycle), over the block buffer of Absorb.v; the
    definition of FIPS 202; and the proof that the classes [Keccak] and [SHA3]
    compute the original Keccak and SHA-3. The two files differ in the padding
    only. *)
From Stdlib Require Import String.
From S2P Require Import Prelude.
From S2P Require Import Text.
From S2P Require Import Word.
From S2P Require Import Absorb.

(** ** 64-bit words *)
Definition word64 (x : Z) : Prop := 0 ≤ x < 2 ^ 64.
Definition not64 (x : Z) : Z := Z.lxor x (Z.ones 64).

(** [(x << numBits) | (x >> (64 - numBits))] *)
Definition rotateLeft (x numBits : Z) : Z :=
  Z.lor (u64 (Z.shiftl x numBits)) (Z.shiftr x (64 - numBits)).

(** ** keccak.cpp: constants and helper functions *)
Definition XorMasks : list Z :=
  [0x0000000000000001; 0x0000000000008082; 0x800000000000808a;
   0x8000000080008000; 0x000000000000808b; 0x0000000080000001;
   0x8000000080008081; 0x8000000000008009; 0x000000000000008a;
   0x0000000000000088; 0x0000000080008009; 0x000000008000000a;
   0x000000008000808b; 0x800000000000008b; 0x8000000000008089;
   0x8000000000008003; 0x8000000000008002; 0x8000000000000080;
   0x000000000000800a; 0x800000008000000a; 0x8000000080008081;
   0x8000000000008080; 0x0000000080000001; 0x8000000080008008].

Definition mod5 (x : nat) : nat := if decide (x < 5)%nat then x else (x - 5)%nat.

(** [m_hash[i]], and [m_hash[i] ^= x]; all indices are below 25. *)
Definition get (h : list Z) (i : nat) : Z := nth i h 0.
Definition xor_at (i : nat) (x : Z) (h : list Z) : list Z := <[i := Z.lxor (get h i) x]> h.

(** ** [processBlock] *)
Definition theta (m_hash : list Z) : list Z :=
  let coefficients :=
    (λ i, Z.lxor (Z.lxor (Z.lxor (Z.lxor (get m_hash i) (get m_hash (i + 5))) (get m_hash (i + 10)))
      (get m_hash (i + 15))) (get m_hash (i + 20))) <$> seq 0 5 in
  foldl (λ h i,
    let one := Z.lxor (get coefficients (mod5 (i + 4))) (rotateLeft (get coefficients (mod5 (i + 1))) 1) in
    let h := xor_at i one h in
    let h := xor_at (i + 5) one h in
    let h := xor_at (i + 10) one h in
    let h := xor_at (i + 15) one h in
    xor_at (i + 20) one h) m_hash (seq 0 5).

(** The lines [one = m_hash[p]; m_hash[p] = rotateLeft(last, r); last = one]. *)
Definition rho_pi_lines : list (nat * Z) :=
  [(10%nat, 1); (7%nat, 3); (11%nat, 6); (17%nat, 10); (18%nat, 15); (3%nat, 21);
   (5%nat, 28); (16%nat, 36); (8%nat, 45); (21%nat, 55); (24%nat, 2); (4%nat, 14);
   (15%nat, 27); (23%nat, 41); (19%nat, 56); (13%nat, 8); (12%nat, 25); (2%nat, 43);
   (20%nat, 62); (14%nat, 18); (22%nat, 39); (9%nat, 61); (6%nat, 20)].

Definition rho_pi (m_hash : list Z) : list Z :=
  let last := get m_hash 1 in
  let '(m_hash, last) :=
    foldl (λ '(h, last) '(p, r), (<[p := rotateLeft last r]> h, get h p)) (m_hash, last) rho_pi_lines in
  <[1%nat := rotateLeft last 44]> m_hash.

(** One row of five lanes, from lane [j]. *)
Definition chi_row (h : list Z) (j : nat) : list Z :=
  let one := get h j in
  let two := get h (j + 1) in
  let h := xor_at j (Z.land (get h (j + 2)) (not64 two)) h in
  let h := xor_at (j + 1) (Z.land (get h (j + 3)) (not64 (get h (j + 2)))) h in
  let h := xor_at (j + 2) (Z.land (get h (j + 4)) (not64 (get h (j + 3)))) h in
  let h := xor_at (j + 3) (Z.land one (not64 (get h (j + 4)))) h in
  xor_at (j + 4) (Z.land two (not64 one)) h.

Definition chi (m_hash : list Z) : list Z := foldl chi_row m_hash [0; 5; 10; 15; 20]%nat.

Definition iota (round : nat) (m_hash : list Z) : list Z := xor_at 0 (get XorMasks round) m_hash.

Definition round (m_hash : list Z) (i : nat) : list Z := iota i (chi (rho_pi (theta m_hash))).

(** [LITTLEENDIAN(data64[i])] *)
Definition data64 {E : ByteOrder} (data : list Z) (i : nat) : Z :=
  from_little swap64 (native (take 8 (drop (8 * i) data))).

(** ** The classes *)
Inductive Bits := Bits224 | Bits256 | Bits384 | Bits512.
Definition bits (b : Bits) : Z :=
  match b with Bits224 => 224 | Bits256 => 256 | Bits384 => 384 | Bits512 => 512 end.

Definition m_blockSize (b : Bits) : Z := 200 - 2 * (bits b / 8).
Definition MaxBlockSize : Z := 200 - 2 * (224 / 8).
Definition StateSize : nat := 25.

Definition keccak_processBlock {E : ByteOrder} (b : Bits) (m_hash data : list Z) : list Z :=
  let m_hash := foldl (λ h i, xor_at i (data64 data i) h) m_hash (seq 0 (Z.to_nat (m_blockSize b / 8))) in
  foldl round m_hash (seq 0 24).

(** [m_bits] and [m_blockSize] are set once, by the constructor: they are the
    argument [b] of what follows. *)
#[export] Instance keccak_absorber {E : ByteOrder} (b : Bits) : Absorber := {|
  block_size := Z.to_nat (m_blockSize b);
  buffer_size := Z.to_nat MaxBlockSize;
  initial_hash := replicate StateSize 0;
  process := keccak_processBlock b
|}.

Inductive variant := KECCAK | SHA3.

(** The bytes that [processBuffer] leaves in [m_buffer]. *)
Definition keccak_padding (b : Bits) (st : Hasher) : outcome (list Z) :=
  let blockSize := m_blockSize b in
  let offset := m_bufferSize st in
  buf ← vset (m_buffer st) offset 1;
  buf ← for_range (offset + 1) blockSize (λ buf i, vset buf i 0) buf;
  last ← vget buf (blockSize - 1);
  vset buf (blockSize - 1) (Z.lor last 0x80).

Definition sha3_padding (b : Bits) (st : Hasher) : outcome (list Z) :=
  let offset := m_bufferSize st in
  buf ← vset (m_buffer st) offset 0x06;
  buf ← for_range (offset + 1) (m_blockSize b) (λ buf i, vset buf i 0) buf;
  let offset := Z.max (offset + 1) (m_blockSize b) in
  last ← vget buf (offset - 1);
  vset buf (offset - 1) (Z.lor last 0x80).

Definition padding (v : variant) : Bits → Hasher → outcome (list Z) :=
  match v with KECCAK => keccak_padding | SHA3 => sha3_padding end.

Section sponge.
Context {E : ByteOrder} (v : variant) (b : Bits).

Definition processBuffer (st : Hasher) : outcome Hasher :=
  buf ← padding v b st;
  Ret (processBlock (A := keccak_absorber b) (mkHasher (m_numBytes st) (m_bufferSize st) buf (m_hash st)) buf).

(** The two digits of [oneByte], the low byte of [x]. *)
Definition byte_digits (x : Z) : string :=
  let oneByte := x mod 256 in
  (String (hex_digit (Z.shiftr oneByte 4)) EmptyString +:+ String (hex_digit (Z.land oneByte 15)) EmptyString)%string.

(** [getHash], and the object with its old words. *)
Definition getHash (st : Hasher) : outcome (string * Hasher) :=
  let oldHash := m_hash st in
  st ← processBuffer st;
  let hashLength := bits b / 64 in
  result ← for_range 0 hashLength (λ result i,
    w ← vget (m_hash st) i;
    for_range 0 8 (λ result j, Ret (result +:+ byte_digits (Z.shiftr w (8 * j)))%string) result) ""%string;
  let remainder := bits b - hashLength * 64 in
  result ← for_range 0 ((remainder + 7) / 8) (λ result k,
    let processed := 8 * k in
    w ← vget (m_hash st) hashLength;
    Ret (result +:+ byte_digits (Z.shiftr w processed))%string) result;
  Ret (result, mkHasher (m_numBytes st) (m_bufferSize st) (m_buffer st) oldHash).

(** [operator()(data, numBytes)] and, on the bytes of a string,
    [operator()(text)]. *)
Definition hash_call (st : Hasher) (data : list Z) : outcome (string * Hasher) :=
  st ← add (A := keccak_absorber b) (reset (A := keccak_absorber b) st) data;
  getHash st.
End sponge.

(** The members of [Keccak] and of [SHA3]. *)
Definition Keccak_reset {E : ByteOrder} (b : Bits) : Hasher → Hasher := reset (A := keccak_absorber b).
Definition Keccak_new {E : ByteOrder} (b : Bits) : list Z → Hasher := Hasher_new (A := keccak_absorber b).
Definition Keccak_add {E : ByteOrder} (b : Bits) : Hasher → list Z → outcome Hasher := add (A := keccak_absorber b).
Definition Keccak_processBuffer {E : ByteOrder} : Bits → Hasher → outcome Hasher := processBuffer KECCAK.
Definition Keccak_getHash {E : ByteOrder} : Bits → Hasher → outcome (string * Hasher) := getHash KECCAK.
Definition Keccak_call {E : ByteOrder} : Bits → Hasher → list Z → outcome (string * Hasher) := hash_call KECCAK.

Definition SHA3_reset {E : ByteOrder} (b : Bits) : Hasher → Hasher := reset (A := keccak_absorber b).
Definition SHA3_new {E : ByteOrder} (b : Bits) : list Z → Hasher := Hasher_new (A := keccak_absorber b).
Definition SHA3_processBlock {E : ByteOrder} : Bits → list Z → list Z → list Z := keccak_processBlock.
Definition SHA3_add {E : ByteOrder} (b : Bits) : Hasher → list Z → outcome Hasher := add (A := keccak_absorber b).
Definition SHA3_processBuffer {E : ByteOrder} : Bits → Hasher → outcome Hasher := processBuffer SHA3.
Definition SHA3_getHash {E : ByteOrder} : Bits → Hasher → outcome (string * Hasher) := getHash SHA3.
Definition SHA3_call {E : ByteOrder} : Bits → Hasher → list Z → outcome (string * Hasher) := hash_call SHA3.

(** "abc", from the examples published with the standard, and the empty
    message for the original Keccak. *)
Example sha3_abc {E : ByteOrder} :
  (r ← SHA3_call Bits256 (SHA3_new Bits256 (replicate 144 7)) [97; 98; 99]; Ret (fst r)) =
    Ret "3a985da74fe225b2045c172d6bd390bd855f086e3e9d525b46bfe24511431532"%string.
Proof. destruct E; vm_compute; reflexivity. Qed.

Example keccak_empty {E : ByteOrder} :
  (r ← Keccak_call Bits224 (Keccak_new Bits224 (replicate 144 7)) []; Ret (fst r)) =
    Ret "f71837502ba8e10837bdd8d365adb85591895602fc552b48b7390abd"%string.
Proof. destruct E; vm_compute; reflexivity. Qed.

(** ** Specification: FIPS 202 *)
(** A state is 25 lanes; lane (x, y) is number 5y + x, coordinates modulo 5. *)
Definition lane (A : list Z) (x y : nat) : Z := get A (5 * (y mod 5) + x mod 5).
Definition lanes (f : nat → nat → Z) : list Z := (λ i, f (i mod 5)%nat (i / 5)%nat) <$> seq 0 25.

(** The lane with bits [f 0] to [f 63], and rotation bit by bit. *)
Definition of_bits (f : Z → bool) : Z :=
  foldr (λ z acc, Z.lor (Z.shiftl (Z.b2z (f z)) z) acc) 0 (seqZ 0 64).
Definition ROT (a n : Z) : Z := of_bits (λ z, Z.testbit a ((z - n) mod 64)).

(** The step mappings, over a rotation. *)
Section steps.
Context (rot : Z → Z → Z).

Definition column (A : list Z) (x : nat) : Z :=
  Z.lxor (Z.lxor (Z.lxor (Z.lxor (lane A x 0) (lane A x 1)) (lane A x 2)) (lane A x 3)) (lane A x 4).

Definition fips_theta (A : list Z) : list Z :=
  lanes (λ x y, Z.lxor (lane A x y) (Z.lxor (column A (x + 4)) (rot (column A (x + 1)) 1))).

(** Algorithm 2: a walk over the lanes, from (1, 0). *)
Fixpoint rho_walk (n t x y : nat) : list (nat * nat * Z) :=
  match n with
  | O => []
  | S n => (x, y, Z.of_nat ((t + 1) * (t + 2) / 2) mod 64) :: rho_walk n (t + 1) y ((2 * x + 3 * y) mod 5)
  end.

Definition rho_offset (x y : nat) : Z :=
  default 0 (list_find (λ p, p.1 = (x, y)) (rho_walk 24 0 1 0) ≫= λ p, Some p.2.2).

Definition fips_rho (A : list Z) : list Z := lanes (λ x y, rot (lane A x y) (rho_offset x y)).
Definition fips_pi (A : list Z) : list Z := lanes (λ x y, lane A (x + 3 * y) x).
Definition fips_chi (A : list Z) : list Z :=
  lanes (λ x y, Z.lxor (lane A x y) (Z.land (not64 (lane A (x + 1) y)) (lane A (x + 2) y))).
End steps.

(** Algorithms 5 and 6: the round constants. *)
Fixpoint lfsr (t : nat) : Z :=
  match t with
  | O => 1
  | S t => let R := Z.shiftl (lfsr t) 1 in if Z.testbit R 8 then Z.lxor R 0x171 else R
  end.

Definition fips_RC (ir : nat) : Z :=
  foldl (λ RC j, if Z.testbit (lfsr ((j + 7 * ir) mod 255)) 0 then Z.lxor RC (2 ^ (2 ^ Z.of_nat j - 1)) else RC)
    0 (seq 0 7).

Definition fips_iota (ir : nat) (A : list Z) : list Z :=
  lanes (λ x y, if decide (x = 0 ∧ y = 0)%nat then Z.lxor (lane A x y) (fips_RC ir) else lane A x y).

Definition fips_round (A : list Z) (ir : nat) : list Z :=
  fips_iota ir (fips_chi (fips_pi (fips_rho ROT (fips_theta ROT A)))).

Definition keccak_f (A : list Z) : list Z := foldl fips_round A (seq 0 24).

(** A lane of a block: eight bytes, the least significant first. *)
Definition bytes_lane (block : list Z) (i : nat) : Z := le_num (take 8 (drop (8 * i) block)).

(** The sponge, on messages of bytes: capacity twice the digest. *)
Definition rate (b : Bits) : nat := Z.to_nat ((1600 - 2 * bits b) / 8).

Definition fips_block (b : Bits) (A block : list Z) : list Z :=
  keccak_f (zip_with Z.lxor A ((bytes_lane block <$> seq 0 (rate b / 8)) ++ replicate (25 - rate b / 8) 0)).

Definition fips_absorber (b : Bits) : Absorber := {|
  block_size := rate b;
  buffer_size := rate b;
  initial_hash := replicate 25 0;
  process := fips_block b
|}.

(** The first bits after the message: [1] of the padding, in SHA-3 after the
    suffix [01]. *)
Definition domain (v : variant) : Z := match v with KECCAK => 0x01 | SHA3 => 0x06 end.

Definition fips_pad (v : variant) (b : Bits) (msg : list Z) : list Z :=
  let q := (rate b - length msg mod rate b)%nat in
  msg ++ if decide (q = 1%nat) then [Z.lor (domain v) 0x80] else [domain v] ++ replicate (q - 2) 0 ++ [0x80].

Definition sponge (v : variant) (b : Bits) (msg : list Z) : list Z :=
  let P := fips_pad v b msg in
  take (Z.to_nat (bits b / 8))
    (compress_blocks (A := fips_absorber b) (length P / rate b) (replicate 25 0) P ≫= le_bytes 8).

(** ** The permutation *)
Lemma of_bits_spec f n : Z.testbit (of_bits f) n = bool_decide (0 ≤ n < 64) && f n.
Proof.
  assert (n ∈ seqZ 0 64 ↔ 0 ≤ n < 64) as E by (rewrite elem_of_seqZ; lia).
  rewrite <-(bool_decide_ext _ _ E). unfold of_bits.
  assert (Forall (λ z, 0 ≤ z) (seqZ 0 64)) as Hpos by (apply Forall_seqZ; lia). clear E.
  induction Hpos as [|z l Hz _ IH]; [by rewrite Z.bits_0|].
  cbn [foldr]. rewrite Z.lor_spec, IH.
  assert (Z.testbit (Z.shiftl (Z.b2z (f z)) z) n = bool_decide (n = z) && f n) as ->.
  { destruct (decide (0 ≤ n)) as [Hn|Hn]; [|by rewrite Z.testbit_neg_r, bool_decide_eq_false_2 by lia].
    rewrite Z.shiftl_spec by done. destruct (decide (n = z)) as [->|Hne].
    - rewrite Z.sub_diag, bool_decide_eq_true_2 by done. apply Z.b2z_bit0.
    - rewrite bool_decide_eq_false_2 by done. destruct (f z); [|apply Z.bits_0].
      destruct (decide (n < z)); [by rewrite Z.testbit_neg_r by lia|].
      apply (testbit_high _ 1); cbn; lia. }
  rewrite <-andb_orb_distrib_l. f_equal. apply eq_bool_prop_intro.
  rewrite orb_True, !bool_decide_spec, elem_of_cons. done.
Qed.

Lemma word64_bits a n : word64 a → 64 ≤ n → Z.testbit a n = false.
Proof. intros Ha Hn. by apply (testbit_high a 64). Qed.

(** Words are equal when their 64 bits are. *)
Lemma rotateLeft_ROT a n : word64 a → 0 ≤ n < 64 → rotateLeft a n = ROT a n.
Proof.
  intros Ha Hn. apply Z.bits_inj'. intros k Hk. unfold rotateLeft, ROT, u64.
  rewrite of_bits_spec, Z.lor_spec, Z.shiftr_spec by lia. destruct (decide (k < 64)) as [Hlt|Hge].
  - rewrite bool_decide_eq_true_2, Z.mod_pow2_bits_low, Z.shiftl_spec by lia. cbn [andb].
    destruct (decide (n ≤ k)) as [Hle|Hlt'].
    + rewrite (word64_bits a (k + (64 - n))), orb_false_r, Z.mod_small by (done || lia). done.
    + rewrite Z.testbit_neg_r by lia. cbn [orb].
      replace (k - n) with (k + (64 - n) + (-1) * 64) by lia. by rewrite Z.mod_add, Z.mod_small by lia.
  - rewrite bool_decide_eq_false_2, Z.mod_pow2_bits_high, word64_bits by (done || lia). done.
Qed.

Lemma word64_lxor a b : word64 a → word64 b → word64 (Z.lxor a b).
Proof.
  intros Ha Hb. unfold word64 in *. rewrite <-(Z.mod_small a (2 ^ 64)), <-(Z.mod_small b (2 ^ 64)) by done.
  rewrite <-!Z.land_ones by lia.
  replace (Z.lxor (Z.land a (Z.ones 64)) (Z.land b (Z.ones 64))) with (Z.land (Z.lxor a b) (Z.ones 64)) by bitwise.
  rewrite Z.land_ones by lia. apply Z.mod_pos_bound. lia.
Qed.

Lemma word64_land a b : word64 a → word64 (Z.land a b).
Proof.
  intros Ha. unfold word64 in *. rewrite <-(Z.mod_small a (2 ^ 64)) by done. rewrite <-Z.land_ones by lia.
  replace (Z.land (Z.land a (Z.ones 64)) b) with (Z.land (Z.land a b) (Z.ones 64)) by bitwise.
  rewrite Z.land_ones by lia. apply Z.mod_pos_bound. lia.
Qed.

Lemma word64_not a : word64 a → word64 (not64 a).
Proof. intros Ha. by apply word64_lxor. Qed.

(** A number without bits from 64 on. *)
Lemma bits_word64 a : 0 ≤ a → (∀ n, 64 ≤ n → Z.testbit a n = false) → word64 a.
Proof.
  intros Ha Hb. unfold word64. replace a with (a mod 2 ^ 64); [apply Z.mod_pos_bound; lia|].
  apply Z.bits_inj'. intros n Hn. destruct (decide (n < 64)).
  - by apply Z.mod_pow2_bits_low.
  - rewrite Z.mod_pow2_bits_high, Hb by lia. done.
Qed.

Lemma word64_ROT a n : word64 (ROT a n).
Proof.
  apply bits_word64.
  - unfold ROT, of_bits. induction (seqZ 0 64) as [|z l IH]; [done|]. cbn [foldr].
    apply Z.lor_nonneg. split; [|done]. apply Z.shiftl_nonneg. by destruct (Z.testbit _ _).
  - intros k Hk. unfold ROT. rewrite of_bits_spec, bool_decide_eq_false_2 by lia. done.
Qed.

Lemma rotateLeft_0 a : word64 a → rotateLeft a 0 = a.
Proof.
  intros Ha. unfold rotateLeft, u64. rewrite Z.shiftl_0_r, Z.mod_small, Z.sub_0_r by done.
  by rewrite Z.shiftr_div_pow2, Z.div_small, Z.lor_0_r by done.
Qed.

(** A state: 25 lanes of 64 bits. *)
Definition state25 (A : list Z) : Prop := length A = 25%nat ∧ Forall word64 A.

Lemma get_word h i : Forall word64 h → word64 (get h i).
Proof.
  intros Hh. unfold get. destruct (nth_in_or_default i h 0) as [Hin| ->]; [|unfold word64; lia].
  rewrite Forall_forall in Hh. by apply Hh, list_elem_of_In.
Qed.

Lemma lanes_state f : (∀ x y, word64 (f x y)) → state25 (lanes f).
Proof. intros Hf. split; [done|]. apply Forall_fmap, Forall_forall. intros i _. apply Hf. Qed.

Lemma lanes_ext f g : (∀ x y, f x y = g x y) → lanes f = lanes g.
Proof. intros E. apply list_fmap_ext. auto. Qed.

Lemma column_word A x : Forall word64 A → word64 (column A x).
Proof. intros HA. unfold column. repeat apply word64_lxor; by apply get_word. Qed.

(** A list of 25 elements, element by element. *)
Ltac destruct25 h H := do 25 (destruct h as [|? h]; [done|]); destruct h; [clear H|done].
Ltac compute_lanes := cbv -[Z.lxor Z.land Z.ones not64 rotateLeft]; try reflexivity.

Lemma theta_lanes h : length h = 25%nat → theta h = fips_theta rotateLeft h.
Proof. intros Hh. destruct25 h Hh. compute_lanes. Qed.

Lemma rho_pi_lanes h : length h = 25%nat → rotateLeft (get h 0) 0 = get h 0 →
  rho_pi h = fips_pi (fips_rho rotateLeft h).
Proof.
  intros Hh. destruct25 h Hh. cbn [get nth]. intros H0.
  compute_lanes. by rewrite H0.
Qed.

Lemma chi_lanes h : length h = 25%nat →
  chi h = lanes (λ x y, Z.lxor (lane h x y) (Z.land (lane h (x + 2) y) (not64 (lane h (x + 1) y)))).
Proof. intros Hh. destruct25 h Hh. compute_lanes. Qed.

Lemma XorMasks_RC : XorMasks = fips_RC <$> seq 0 24.
Proof. vm_compute. reflexivity. Qed.

Lemma iota_lanes h i : length h = 25%nat → (i < 24)%nat → iota i h = fips_iota i h.
Proof.
  intros Hh Hi. unfold iota, fips_iota.
  assert (get XorMasks i = fips_RC i) as ->.
  { unfold get. rewrite XorMasks_RC. apply nth_lookup_Some. by rewrite list_lookup_fmap, lookup_seq_lt. }
  generalize (fips_RC i). intros c. destruct25 h Hh. compute_lanes.
Qed.

Lemma fips_RC_word i : word64 (fips_RC i).
Proof.
  unfold fips_RC. assert (∀ l acc, Forall (λ j, j < 7)%nat l → word64 acc →
    word64 (foldl (λ RC j, if Z.testbit (lfsr ((j + 7 * i) mod 255)) 0
      then Z.lxor RC (2 ^ (2 ^ Z.of_nat j - 1)) else RC) acc l)) as H.
  { intros l. induction l as [|j l IH]; intros acc Hl Hacc; [done|]. apply Forall_cons in Hl as [Hj Hl].
    cbn. apply IH; [done|]. case_match; [|done]. apply word64_lxor; [done|].
    do 7 (destruct j as [|j]; [by split|]). lia. }
  apply H; [|by split]. repeat constructor.
Qed.

(** One round, with the rotations of the code or those of the standard. *)
Lemma round_fips h i : state25 h → (i < 24)%nat → round h i = fips_round h i ∧ state25 (fips_round h i).
Proof.
  intros [Hl Hw] Hi. unfold round, fips_round.
  assert (theta h = fips_theta ROT h) as ->.
  { rewrite theta_lanes by done. apply lanes_ext. intros x y.
    by rewrite rotateLeft_ROT by (done || by apply column_word). }
  assert (state25 (fips_theta ROT h)) as [Hl1 Hw1].
  { apply lanes_state. intros. apply word64_lxor; [by apply get_word|].
    apply word64_lxor; [by apply column_word|apply word64_ROT]. }
  set (h1 := fips_theta ROT h) in *.
  assert (rho_pi h1 = fips_pi (fips_rho ROT h1)) as ->.
  { rewrite rho_pi_lanes; [|done|].
    - f_equal. apply list_fmap_ext. intros k j Hj. apply lookup_seq in Hj as [-> Hk]. cbn [Nat.add] in *.
      apply rotateLeft_ROT; [by apply get_word|].
      do 25 (destruct k as [|k]; [by vm_compute|]). lia.
    - by apply rotateLeft_0, get_word. }
  assert (state25 (fips_pi (fips_rho ROT h1))) as [Hl2 Hw2].
  { apply lanes_state. intros. apply get_word, lanes_state. intros. apply word64_ROT. }
  set (h2 := fips_pi (fips_rho ROT h1)) in *.
  assert (chi h2 = fips_chi h2) as ->.
  { rewrite chi_lanes by done. apply lanes_ext. intros x y. by rewrite (Z.land_comm (lane h2 (x + 2) y)). }
  assert (state25 (fips_chi h2)) as [Hl3 Hw3].
  { apply lanes_state. intros. apply word64_lxor; [by apply get_word|]. by apply word64_land, word64_not, get_word. }
  rewrite iota_lanes by done. split; [done|]. apply lanes_state. intros x y.
  case_decide; [apply word64_lxor; [|apply fips_RC_word]|]; by apply get_word.
Qed.

Lemma rounds_fips l h :
  state25 h → Forall (λ i, i < 24)%nat l → foldl round h l = foldl fips_round h l ∧ state25 (foldl fips_round h l).
Proof.
  intros Hh Hl. revert h Hh. induction Hl as [|i l Hi _ IH]; intros h Hh; [done|]. cbn [foldl].
  destruct (round_fips h i Hh Hi) as [-> Hs]. by apply IH.
Qed.

Lemma permutation_fips h : state25 h → foldl round h (seq 0 24) = keccak_f h ∧ state25 (keccak_f h).
Proof. intros Hh. apply rounds_fips; [done|]. apply Forall_forall. intros i [_ ?]%elem_of_seq. lia. Qed.

(** ** Absorbing a block *)
Lemma blockSize_rate b : m_blockSize b = Z.of_nat (rate b) ∧ (0 < rate b ≤ 144)%nat ∧ rate b = (8 * (rate b / 8))%nat ∧
  Z.to_nat (m_blockSize b / 8) = (rate b / 8)%nat ∧ (rate b / 8 ≤ 25)%nat.
Proof. destruct b; vm_compute; repeat split; lia. Qed.

Lemma data64_take {E : ByteOrder} data n i : (8 * i + 8 ≤ n)%nat → data64 (take n data) i = data64 data i.
Proof.
  intros Hi. unfold data64. rewrite skipn_firstn_comm, take_take. do 3 f_equal. lia.
Qed.

(** On every host the code mixes in the lanes of the standard. *)
Lemma data64_lane {E : ByteOrder} data i : Forall byte data → (8 * i + 8 ≤ length data)%nat → data64 data i = bytes_lane data i.
Proof.
  intros Hb Hl. unfold data64, bytes_lane, from_little, native. destruct byte_order; [done|].
  assert (Forall byte (take 8 (drop (8 * i) data))) as Hx by (by apply Forall_take, Forall_drop).
  assert (length (take 8 (drop (8 * i) data)) = 8%nat) as Hlx by (rewrite length_take, length_drop; lia).
  generalize dependent (take 8 (drop (8 * i) data)). intros x Hx Hlx. do 8 (destruct x as [|? x]; [done|]). destruct x; [|done].
  rewrite !Forall_cons in Hx. destruct Hx as (? & ? & ? & ? & ? & ? & ? & ? & _). by apply swap64_be_num.
Qed.

Lemma bytes_lane_word data i : Forall byte data → word64 (bytes_lane data i).
Proof.
  intros Hb. unfold bytes_lane. set (x := take 8 (drop (8 * i) data)).
  assert (Forall byte x) as Hx by (by apply Forall_take, Forall_drop).
  pose proof (le_num_bound x Hx) as Hr. unfold word64. split; [lia|].
  apply Z.lt_le_trans with (256 ^ Z.of_nat (length x)); [lia|]. change (2 ^ 64) with (256 ^ 8).
  apply Z.pow_le_mono_r; [lia|]. unfold x. rewrite length_take. lia.
Qed.

(** Lanes are changed one after the other, or all at once. *)
Lemma xor_loop (w : nat → Z) h k :
  (k ≤ length h)%nat →
  foldl (λ h i, xor_at i (w i) h) h (seq 0 k) = zip_with Z.lxor h ((w <$> seq 0 k) ++ replicate (length h - k) 0).
Proof.
  intros Hk. induction k as [|k IH].
  { cbn. rewrite Nat.sub_0_r. clear Hk. induction h as [|x h IH]; [done|]. cbn. by rewrite Z.lxor_0_r, <-IH. }
  rewrite seq_S, foldl_app, IH by lia. cbn [foldl Nat.add]. rewrite fmap_app. cbn [fmap list_fmap].
  apply list_eq. intros j. unfold xor_at. destruct (decide (j = k)) as [->|Hne].
  - destruct (lookup_lt_is_Some_2 h k) as [x Hx]; [lia|].
    assert (zip_with Z.lxor h ((w <$> seq 0 k) ++ replicate (length h - k) 0) !! k = Some x) as Hz.
    { rewrite lookup_zip_with, Hx, lookup_app_r by (rewrite length_fmap, length_seq; lia).
      rewrite length_fmap, length_seq, Nat.sub_diag, lookup_replicate_2 by lia. cbn. by rewrite Z.lxor_0_r. }
    rewrite list_lookup_insert_eq by (apply lookup_lt_Some in Hz; exact Hz).
    unfold get. rewrite (nth_lookup_Some _ _ _ _ Hz).
    rewrite lookup_zip_with, Hx, lookup_app_l by (rewrite length_app, length_fmap, length_seq; cbn; lia).
    rewrite lookup_app_r by (rewrite length_fmap, length_seq; lia).
    by rewrite length_fmap, length_seq, Nat.sub_diag.
  - rewrite list_lookup_insert_ne by done. rewrite !lookup_zip_with.
    assert (((w <$> seq 0 k) ++ replicate (length h - k) 0) !! j =
      (((w <$> seq 0 k) ++ [w k]) ++ replicate (length h - S k) 0) !! j) as ->; [|done].
    rewrite <-app_assoc. destruct (decide (j < k)%nat).
    + by rewrite !lookup_app_l by (rewrite length_fmap, length_seq; lia).
    + rewrite !lookup_app_r by (rewrite length_fmap, length_seq; lia). rewrite !length_fmap, !length_seq.
      replace (length h - k)%nat with (S (length h - S k)) by lia.
      by replace (j - k)%nat with (S (j - S k)) by lia.
Qed.

Lemma keccak_block_fips {E : ByteOrder} b h data :
  state25 h → Forall byte data → (rate b ≤ length data)%nat →
  keccak_processBlock b h data = fips_block b h data ∧ state25 (fips_block b h data).
Proof.
  intros [Hl Hw] Hb Hd. destruct (blockSize_rate b) as (_ & _ & Er & Eb & H25).
  unfold keccak_processBlock, fips_block. rewrite Eb, xor_loop, Hl by lia.
  replace (data64 data <$> seq 0 (rate b / 8)) with (bytes_lane data <$> seq 0 (rate b / 8)).
  2: { apply list_fmap_ext. intros i x [Hx Hi]%lookup_seq. symmetry. apply data64_lane; [done|lia]. }
  apply permutation_fips.
  split.
  - rewrite length_zip_with, length_app, length_fmap, length_seq, length_replicate. lia.
  - apply (Forall_zip_with_fst _ word64); [done|]. apply Forall_app. split.
    + apply Forall_fmap, Forall_forall. intros i _ x Hx. apply word64_lxor; [done|by apply bytes_lane_word].
    + apply Forall_replicate. intros x Hx. by rewrite Z.lxor_0_r.
Qed.

#[export] Instance keccak_absorber_laws {E : ByteOrder} b : AbsorberLaws (keccak_absorber b).
Proof.
  destruct (blockSize_rate b) as (Eb & Hr & E8 & E' & _).
  split; cbn [block_size buffer_size process keccak_absorber].
  - rewrite Eb. lia.
  - rewrite Eb. change (Z.to_nat MaxBlockSize) with 144%nat. lia.
  - intros h data _. unfold keccak_processBlock. rewrite E', Eb, Nat2Z.id.
    apply (f_equal (λ h, foldl round h (seq 0 24))).
    apply foldl_ext_in. intros a i [_ Hi]%elem_of_seq. by rewrite data64_take by lia.
Qed.

(** ** Padding *)
Definition pad_tail (v : variant) (q : nat) : list Z :=
  if decide (q = 1%nat) then [Z.lor (domain v) 0x80] else [domain v] ++ replicate (q - 2) 0 ++ [0x80].

Lemma pad_tail_length v q : (0 < q)%nat → length (pad_tail v q) = q.
Proof.
  intros Hq. unfold pad_tail. case_decide; [done|]. rewrite !length_app, length_replicate. cbn. lia.
Qed.

Lemma pad_tail_byte v q : Forall byte (pad_tail v q).
Proof.
  assert (byte (domain v) ∧ byte (Z.lor (domain v) 0x80)) as [H1 H2] by (by destruct v).
  unfold pad_tail. case_decide; [by constructor|]. apply Forall_app. split; [by constructor|].
  apply Forall_app. split; [by apply Forall_replicate|by constructor].
Qed.

(** The message padded, after its last full block. *)
Lemma fips_pad_split v b n full tail :
  length full = (rate b * n)%nat → (length tail < rate b)%nat →
  fips_pad v b (full ++ tail) = full ++ tail ++ pad_tail v (rate b - length tail).
Proof.
  intros Hf Ht. unfold fips_pad. rewrite <-app_assoc, length_app, Hf, Nat.add_comm, Nat.mul_comm, Nat.Div0.mod_add.
  by rewrite Nat.mod_small.
Qed.

(** [m_buffer[r - 1] |= 0x80] *)
Lemma set_last_bit tail d (r : nat) rest :
  (length tail < r)%nat →
  (last ← vget (tail ++ [d] ++ replicate (r - S (length tail)) 0 ++ rest) (Z.of_nat r - 1);
   vset (tail ++ [d] ++ replicate (r - S (length tail)) 0 ++ rest) (Z.of_nat r - 1) (Z.lor last 0x80)) =
    Ret (tail ++ (if decide (r - length tail = 1)%nat then [Z.lor d 0x80]
      else [d] ++ replicate (r - length tail - 2) 0 ++ [0x80]) ++ rest).
Proof.
  intros Hr. case_decide as Hq.
  - replace (r - S (length tail))%nat with 0%nat by lia. replace (Z.of_nat r - 1) with (Z.of_nat (length tail)) by lia.
    cbn [replicate app]. rewrite vget_middle. cbn [mbind outcome_bind]. apply vset_middle.
  - replace (r - S (length tail))%nat with (r - length tail - 2 + 1)%nat by lia.
    rewrite replicate_add. cbn [replicate]. set (zs := replicate (r - length tail - 2) 0).
    replace (tail ++ [d] ++ (zs ++ [0]) ++ rest) with ((tail ++ [d] ++ zs) ++ 0 :: rest)
      by (by rewrite <-!app_assoc).
    replace (Z.of_nat r - 1) with (Z.of_nat (length (tail ++ [d] ++ zs)))
      by (unfold zs; rewrite !length_app, length_replicate; cbn; lia).
    rewrite vget_middle. cbn [mbind outcome_bind]. rewrite vset_middle. by rewrite <-!app_assoc.
Qed.

Lemma padding_spec v b st tail :
  length (m_buffer st) = 144%nat → (length tail < rate b)%nat → m_bufferSize st = Z.of_nat (length tail) →
  take (length tail) (m_buffer st) = tail →
  padding v b st = Ret (tail ++ pad_tail v (rate b - length tail) ++ drop (rate b) (m_buffer st)).
Proof.
  intros Hl Ht Hs Htk. destruct (blockSize_rate b) as (E & Hr & _).
  pose proof (mark_and_clear (m_buffer st) (length tail) (rate b) (domain v) tail ltac:(lia) Ht Htk) as Hm.
  pose proof (set_last_bit tail (domain v) (rate b) (drop (rate b) (m_buffer st)) Ht) as Hb.
  destruct v; cbn [padding domain] in *; unfold keccak_padding, sha3_padding; rewrite Hs, E.
  - destruct (vset (m_buffer st) _ 1); try done. cbn [mbind outcome_bind] in *. rewrite Hm. exact Hb.
  - destruct (vset (m_buffer st) _ 6); try done. cbn [mbind outcome_bind] in *. rewrite Hm.
    rewrite Z.max_r by lia. exact Hb.
Qed.

(** [processBuffer] computes the final state, and keeps the bytes that still
    wait in the buffer. *)
Lemma sponge_pads {E : ByteOrder} v b st msg :
  absorbed (A := keccak_absorber b) st msg → Forall byte msg →
  returns (processBuffer v b st) (λ st',
    m_hash st' = compress_blocks (A := fips_absorber b) (length (fips_pad v b msg) / rate b) (replicate 25 0) (fips_pad v b msg) ∧
    state25 (m_hash st') ∧
    absorbed (A := keccak_absorber b) (mkHasher (m_numBytes st') (m_bufferSize st') (m_buffer st') (m_hash st)) msg).
Proof.
  intros (n & full & tail & -> & Hfull & Htl & Hh & Hs & Ht & Hl & Hn) Hb.
  destruct (blockSize_rate b) as (Eb & Hr & _).
  cbn [block_size buffer_size initial_hash keccak_absorber] in *. rewrite Eb, Nat2Z.id in *.
  change (Z.to_nat MaxBlockSize) with 144%nat in *.
  unfold processBuffer. rewrite (padding_spec v b st tail) by done. cbn [mbind outcome_bind]. apply returns_Ret.
  set (last := pad_tail v (rate b - length tail)).
  assert (length (tail ++ last) = rate b) as Hlast by (unfold last; rewrite length_app, pad_tail_length; lia).
  assert (length (tail ++ last ++ drop (rate b) (m_buffer st)) = 144%nat) as Hbuf
    by (rewrite app_assoc, length_app, Hlast, length_drop; lia).
  rewrite (fips_pad_split v b n) by done. fold last.
  assert (length (full ++ tail ++ last) = rate b * (n + 1))%nat as Hlen by (rewrite length_app, Hlast; lia).
  rewrite Hlen, Nat.mul_comm, Nat.div_mul by lia.
  destruct (compress_blocks_ext (A := keccak_absorber b) (A' := fips_absorber b)) with (P := state25) (n := (n + 1)%nat)
    (h := replicate 25 0) (data := full ++ tail ++ last) as [Eq Hst].
  { cbn. by rewrite Eb, Nat2Z.id. }
  { intros h block Hstate Hlb Hblock. apply keccak_block_fips; [done..|]. cbn in Hlb. rewrite Eb, Nat2Z.id in Hlb. lia. }
  { split; [done|]. by apply Forall_replicate. }
  { cbn. by rewrite Eb, Nat2Z.id. }
  { apply Forall_app in Hb as [? ?]. rewrite !Forall_app. split_and!; [done..|apply pad_tail_byte]. }
  assert (m_hash (processBlock (A := keccak_absorber b) (mkHasher (m_numBytes st) (m_bufferSize st)
    (tail ++ last ++ drop (rate b) (m_buffer st)) (m_hash st)) (tail ++ last ++ drop (rate b) (m_buffer st))) =
    compress_blocks (A := fips_absorber b) (n + 1) (replicate 25 0) (full ++ tail ++ last)) as Efinal.
  { rewrite <-Eq, compress_blocks_app by (cbn; by rewrite Eb, Nat2Z.id).
    cbn [compress_blocks processBlock m_hash]. change (replicate StateSize 0) with (replicate 25 0) in Hh.
    rewrite <-Hh, <-process_prefix by exact Hbuf.
    change (block_size (Absorber := keccak_absorber b)) with (Z.to_nat (m_blockSize b)). rewrite Eb, Nat2Z.id.
    rewrite (take_ge (tail ++ last)) by lia. rewrite app_assoc, take_app_length' by done. reflexivity. }
  rewrite Efinal. split_and!; [done|done|]. exists n, full, tail.
  cbn [m_hash m_numBytes m_bufferSize m_buffer processBlock block_size buffer_size keccak_absorber].
  rewrite Eb, Nat2Z.id.
  split_and!; [reflexivity|exact Hfull|exact Htl|exact Hh|exact Hs|by apply take_app_length|exact Hbuf|exact Hn].
Qed.

(** ** The digest *)
Lemma byte_digits_hex x : byte_digits x = to_hex [x mod 256].
Proof.
  assert (Z.land (Z.shiftr (x mod 256) 4) 15 = Z.shiftr (x mod 256) 4) as E.
  { pose proof (Z.mod_pos_bound x 256 ltac:(lia)) as Hx. change 15 with (Z.ones 4).
    rewrite Z.land_ones, Z.shiftr_div_pow2 by lia. apply Z.mod_small.
    split; [apply Z.div_pos; lia|apply Z.div_lt_upper_bound; lia]. }
  unfold byte_digits, to_hex. cbn [foldl]. by rewrite append_nil_l, E.
Qed.

(** A loop that writes [n] bytes of a word, from the lowest. *)
Lemma digits_loop w (n : nat) s :
  for_range 0 (Z.of_nat n) (λ result j, Ret (result +:+ byte_digits (Z.shiftr w (8 * j)))%string) s =
    Ret (s +:+ to_hex (le_bytes n w))%string.
Proof.
  unfold for_range. rewrite (foldM_pure _ (λ r j, (r +:+ byte_digits (Z.shiftr w (8 * j)))%string)) by done.
  rewrite Z.sub_0_r. f_equal. induction n as [|n IH]; [by rewrite append_nil_r|].
  unfold le_bytes. rewrite Nat2Z.inj_succ, <-Z.add_1_r, seqZ_app, seq_S, foldl_app, fmap_app by lia.
  rewrite IH, to_hex_append, append_assoc. cbn [seqZ fmap list_fmap foldl]. change (seqZ (0 + Z.of_nat n) 1) with [Z.of_nat n].
  cbn [foldl Nat.add]. by rewrite byte_digits_hex, Z.shiftr_div_pow2 by lia.
Qed.

Lemma words_loop h (n : nat) s :
  (n ≤ length h)%nat →
  for_range 0 (Z.of_nat n) (λ result i, w ← vget h i;
    for_range 0 8 (λ result j, Ret (result +:+ byte_digits (Z.shiftr w (8 * j)))%string) result) s =
    Ret (s +:+ to_hex (take n h ≫= le_bytes 8))%string.
Proof.
  intros Hn. unfold for_range at 1. rewrite Z.sub_0_r. induction n as [|n IH]; [by rewrite append_nil_r|].
  rewrite Nat2Z.inj_succ, <-Z.add_1_r, seqZ_app, foldM_app, IH by lia. cbn [mbind outcome_bind].
  change (seqZ (0 + Z.of_nat n) 1) with [Z.of_nat n]. cbn [foldM].
  destruct (lookup_lt_is_Some_2 h n) as [w Hw]; [lia|].
  rewrite (proj2 (vget_Ret h (Z.of_nat n) w)) by (rewrite Nat2Z.id; split; [lia|done]).
  cbn [mbind outcome_bind]. rewrite (digits_loop w 8). cbn [mbind outcome_bind]. f_equal.
  rewrite (take_S_r _ _ w) by done. rewrite bind_app, to_hex_append, append_assoc. cbn [mbind list_bind].
  by rewrite app_nil_r.
Qed.

Lemma take_le_bytes h (n : nat) :
  take (8 * n) (h ≫= le_bytes 8) = take n h ≫= le_bytes 8.
Proof.
  revert n. induction h as [|w h IH]; intros [|n]; [done..|].
  cbn [mbind list_bind]. replace (8 * S n)%nat with (8 + 8 * n)%nat by lia.
  cbn [take mbind list_bind]. rewrite take_app_ge by (unfold le_bytes; rewrite length_fmap, length_seq; lia).
  f_equal. rewrite <-IH. f_equal. unfold le_bytes. rewrite length_fmap, length_seq. lia.
Qed.

Lemma length_words h : length (h ≫= le_bytes 8) = (8 * length h)%nat.
Proof.
  induction h as [|w h IH]; [done|]. cbn [mbind list_bind length]. rewrite length_app.
  change (length (mbind (M := list) (le_bytes 8) h) = 8 * length h)%nat in IH. cbn in IH |- *. lia.
Qed.

Lemma sponge_getHash {E : ByteOrder} v b st msg :
  absorbed (A := keccak_absorber b) st msg → Forall byte msg →
  returns (getHash v b st) (λ r, r.1 = to_hex (sponge v b msg) ∧ absorbed (A := keccak_absorber b) r.2 msg).
Proof.
  intros Ha Hb. unfold getHash. eapply returns_bind; [by apply sponge_pads|].
  intros st' (Hh & [Hl _] & Ha'). unfold sponge. rewrite <-Hh.
  set (h := m_hash st') in *. assert (∀ n s, (n ≤ 25)%nat → for_range 0 (Z.of_nat n) (λ result i, w ← vget h i;
    for_range 0 8 (λ result j, Ret (result +:+ byte_digits (Z.shiftr w (8 * j)))%string) result) s =
    Ret (s +:+ to_hex (take n h ≫= le_bytes 8))%string) as Hw by (intros; apply words_loop; lia).
  assert (bits b = 64 * Z.of_nat (Z.to_nat (bits b / 64)) + 8 * Z.of_nat (if b is Bits224 then 4 else 0) ∧
    bits b / 64 = Z.of_nat (Z.to_nat (bits b / 64)) ∧ (Z.to_nat (bits b / 64) < 25)%nat) as (Eb & Ed & Hn)
    by (destruct b; vm_compute; auto with lia).
  set (n := Z.to_nat (bits b / 64)) in *. set (m := if b is Bits224 then 4%nat else 0%nat) in *.
  rewrite Ed, Hw by lia. cbn [mbind outcome_bind].
  destruct (lookup_lt_is_Some_2 h n) as [w Hwn]; [lia|].
  replace ((bits b - Z.of_nat n * 64 + 7) / 8) with (Z.of_nat m)
    by (rewrite Eb; replace (64 * Z.of_nat n + 8 * Z.of_nat m - Z.of_nat n * 64 + 7) with (7 + Z.of_nat m * 8) by lia;
        rewrite Z.div_add by lia; done).
  assert (for_range 0 (Z.of_nat m) (λ result k, w ← vget h (Z.of_nat n);
    Ret (result +:+ byte_digits (Z.shiftr w (8 * k)))%string) ("" +:+ to_hex (take n h ≫= le_bytes 8))%string =
    Ret (to_hex ((take n h ≫= le_bytes 8) ++ le_bytes m w))) as ->.
  { rewrite (proj2 (vget_Ret h (Z.of_nat n) w)) by (rewrite Nat2Z.id; split; [lia|done]).
    cbn [mbind outcome_bind]. rewrite digits_loop, append_nil_l. by rewrite to_hex_append. }
  cbn [mbind outcome_bind]. apply returns_Ret. split; [|done]. cbn [fst]. f_equal.
  replace (Z.to_nat (bits b / 8)) with (8 * n + m)%nat
    by (rewrite Eb; replace (64 * Z.of_nat n + 8 * Z.of_nat m) with ((8 * Z.of_nat n + Z.of_nat m) * 8) by lia;
        rewrite Z.div_mul by lia; lia).
  rewrite <-(take_drop n h) at 2. rewrite (drop_S _ w) by done. rewrite bind_app. cbn [mbind list_bind].
  assert (length (take n h ≫= le_bytes 8) = 8 * n)%nat as Hlen.
  { rewrite <-take_le_bytes, length_take. pose proof (length_words h). lia. }
  rewrite take_app_ge by lia. f_equal. rewrite Hlen. replace (8 * n + m - 8 * n)%nat with m by lia.
  rewrite take_app_le by (unfold le_bytes, m; rewrite length_fmap, length_seq; destruct b; lia).
  unfold m. by destruct b.
Qed.

Lemma keccak_streams {E : ByteOrder} v b uninit :
  length uninit = 144%nat →
  streams (Hasher_new (A := keccak_absorber b) uninit) (add (A := keccak_absorber b)) (getHash v b)
    (λ m, to_hex (sponge v b m)).
Proof.
  intros Hu. exists (absorbed (A := keccak_absorber b)). split_and!.
  - by apply (reset_absorbed (A := keccak_absorber b)).
  - intros st m d Hm _ _. by apply (add_absorbed (A := keccak_absorber b)).
  - intros st m Hm Hb. eapply returns_mono; [by apply sponge_getHash|]. by intros r [? _].
Qed.

(** ** Main theorem *)

(** C3. The classes [SHA3] and [Keccak] compute SHA-3 of FIPS 202 and the
    original Keccak, at all four lengths: whatever the uninitialised memory
    holds and however the message is cut into calls of [add], [getHash]
    returns (no access is out of range) the hexadecimal digest of the sponge
    over the whole message, and leaves the object such that more data can be
    added and hashed as if it had not been called. *)
Theorem sponge_digest {E : ByteOrder} v b uninit chunks more :
  length uninit = 144%nat → Forall byte (concat chunks) → Forall byte more →
  returns (st ← foldM (add (A := keccak_absorber b)) (Hasher_new (A := keccak_absorber b) uninit) chunks;
           '(text1, st) ← getHash v b st;
           st ← add (A := keccak_absorber b) st more;
           '(text2, _) ← getHash v b st;
           Ret (text1, text2)) (λ r,
    r = (to_hex (sponge v b (concat chunks)), to_hex (sponge v b (concat chunks ++ more)))).
Proof.
  intros Hu Hc Hm.
  eapply returns_bind; [apply (add_chunks (A := keccak_absorber b) chunks _ []), reset_absorbed; exact Hu|].
  intros st Ha. eapply returns_bind; [exact (sponge_getHash v b st _ Ha Hc)|]. intros [t1 st1] [E1 Ha1]. cbn in E1, Ha1.
  subst t1. eapply returns_bind; [exact (add_absorbed (A := keccak_absorber b) st1 _ more Ha1)|]. intros st2 Ha2.
  eapply returns_bind; [apply (sponge_getHash v b st2 _ Ha2); by apply Forall_app|]. intros [t2 st3] [E2 _].
  cbn in E2. subst t2. apply returns_Ret. reflexivity.
Qed.

#[local] Instance sample_host : ByteOrder := BigEndian.

Lemma sponge_digest_witness :
  returns (st ← foldM (SHA3_add Bits224) (SHA3_new Bits224 (replicate 144 7)) [[97]; []; [98]];
           '(text1, st) ← SHA3_getHash Bits224 st;
           st ← SHA3_add Bits224 st [99];
           '(text2, _) ← SHA3_getHash Bits224 st;
           Ret (text1, text2)) (λ r,
    r = (to_hex (sponge SHA3 Bits224 [97; 98]), to_hex (sponge SHA3 Bits224 [97; 98; 99]))).
Proof.
  assert (Forall byte (concat [[97]; []; [98]])) as H1 by (repeat constructor; discriminate).
  assert (Forall byte [99]) as H2 by (repeat constructor; discriminate).
  exact (sponge_digest SHA3 Bits224 (replicate 144 7) [[97]; []; [98]] [99] eq_refl H1 H2).
Defined.
