(* ===== verification/Digest.v ===== *)
(** * The digest program (src/pmud/src/common/hash-library/digest.cpp)

    The command-line program over all the hash classes: it reads a file, or
    the standard input, in large pieces, feeds each piece to the hash objects
    that were asked for, and prints their texts. *)
From Stdlib Require Import String.
From S2P Require Import Prelude.
From S2P Require Import Text.
From S2P Require Import Word.
From S2P Require Import Absorb.
From S2P Require Import Sha256.
From S2P Require Import Sha1.
From S2P Require Import Md5.
From S2P Require Import Crc32.
From S2P Require Import Keccak.

(** What a run of the program leaves: its exit status and its two streams. *)
Record result := mkResult { status : Z; cout : string; cerr : string }.

(** The memory of the objects that the constructors do not initialise, and
    that of the local array of [processBuffer]. *)
Record memory := mkMemory { m64 : list Z; m144 : list Z; m_extra : list Z; m_crc : Z }.
Definition memory_ok (u : memory) : Prop := length (m64 u) = 64%nat ∧ length (m144 u) = 144%nat ∧ length (m_extra u) = 64%nat.

Record digests := mkDigests {
  digestCrc32 : CRC32;
  digestMd5 : Hasher;
  digestSha1 : Hasher;
  digestSha2 : Hasher;
  digestKeccak : Hasher;
  digestSha3 : Hasher
}.

Definition digests_new {E : ByteOrder} (u : memory) : digests :=
  mkDigests (CRC32_new (m_crc u)) (MD5_new (m64 u)) (SHA1_new (m64 u)) (SHA256_new (m64 u))
    (Keccak_new Bits256 (m144 u)) (SHA3_new Bits256 (m144 u)).

(** The flags, from the name of the algorithm. *)
Definition computeCrc32 (a : string) : bool := bool_decide (a = "" ∨ a = "--crc").
Definition computeMd5 (a : string) : bool := bool_decide (a = "" ∨ a = "--md5").
Definition computeSha1 (a : string) : bool := bool_decide (a = "" ∨ a = "--sha1").
Definition computeSha2 (a : string) : bool := bool_decide (a = "" ∨ a = "--sha2" ∨ a = "--sha256").
Definition computeKeccak (a : string) : bool := bool_decide (a = "" ∨ a = "--keccak").
Definition computeSha3 (a : string) : bool := bool_decide (a = "" ∨ a = "--sha3").

(** [if (c) st.add(buffer, numBytesRead)] *)
Definition when {A} (c : bool) (add : A → outcome A) (st : A) : outcome A := if c then add st else Ret st.

(** One cycle of the loop: every object that is wanted sees the piece. *)
Definition add_all {E : ByteOrder} (a : string) (h : digests) (buffer : list Z) : outcome digests :=
  crc ← when (computeCrc32 a) (λ st, Crc32.add st buffer) (digestCrc32 h);
  md5 ← when (computeMd5 a) (λ st, MD5_add st buffer) (digestMd5 h);
  sha1 ← when (computeSha1 a) (λ st, SHA1_add st buffer) (digestSha1 h);
  sha2 ← when (computeSha2 a) (λ st, SHA256_add st buffer) (digestSha2 h);
  keccak ← when (computeKeccak a) (λ st, Keccak_add Bits256 st buffer) (digestKeccak h);
  sha3 ← when (computeSha3 a) (λ st, SHA3_add Bits256 st buffer) (digestSha3 h);
  Ret (mkDigests crc md5 sha1 sha2 keccak sha3).

Definition BufferSize : Z := 144 * 7 * 1024.

(** [while ( *input)]: [read] takes up to [size] bytes, and the stream is no
    longer good when it finds less. *)
Fixpoint read_loop {E : ByteOrder} (fuel : nat) (size : Z) (a : string) (h : digests) (input : list Z) : outcome digests :=
  match fuel with
  | O => NoFuel
  | S fuel =>
      let buffer := take (Z.to_nat size) input in
      h ← add_all a h buffer;
      if decide (Z.of_nat (length buffer) < size) then Ret h
      else read_loop fuel size a h (drop (Z.to_nat size) input)
  end.


(** [if (c) std::cout << label << st.getHash() << std::endl] *)
Definition show {A} (c : bool) (label : string) (getHash : A → outcome (string * A)) (st : A) : outcome string :=
  if c then '(text, _) ← getHash st; Ret (label +:+ text +:+ endl)%string else Ret "".

Definition show_all {E : ByteOrder} (u : memory) (a : string) (h : digests) : outcome string :=
  crc ← show (computeCrc32 a) "CRC32:      " (λ st, Ret (Crc32.getHash st, st)) (digestCrc32 h);
  md5 ← show (computeMd5 a) "MD5:        " (MD5_getHash (m_extra u)) (digestMd5 h);
  sha1 ← show (computeSha1 a) "SHA1:       " (SHA1_getHash (m_extra u)) (digestSha1 h);
  sha2 ← show (computeSha2 a) "SHA2/256:   " (SHA256_getHash (m_extra u)) (digestSha2 h);
  keccak ← show (computeKeccak a) "Keccak/256: " (Keccak_getHash Bits256) (digestKeccak h);
  sha3 ← show (computeSha3 a) "SHA3/256:   " (SHA3_getHash Bits256) (digestSha3 h);
  Ret (crc +:+ md5 +:+ sha1 +:+ sha2 +:+ keccak +:+ sha3)%string.

Definition usage : string :=
  ("./digest filename [--crc|--md5|--sha1|--sha256|--keccak|--sha3]" +:+ endl)%string.

(** [main] after its parameters are read; [open] gives the bytes of a file
    that can be opened. *)
Definition digest_input {E : ByteOrder} (u : memory) (filename algorithm : string) (open : string → option (list Z)) (cin : list Z) :
    outcome result :=
  let run input :=
    h ← read_loop (S (length input)) BufferSize algorithm (digests_new u) input;
    out ← show_all u algorithm h;
    Ret (mkResult 0 out "") in
  if decide (filename = "-") then run cin
  else
    match open filename with
    | None => Ret (mkResult 2 "" ("Can't open '" +:+ filename +:+ "'" +:+ endl)%string)
    | Some input => run input
    end.

Definition digest_main {E : ByteOrder} (u : memory) (argv : list string) (open : string → option (list Z)) (cin : list Z) :
    outcome result :=
  match argv with
  | [_; filename] => digest_input u filename "" open cin
  | [_; filename; algorithm] => digest_input u filename algorithm open cin
  | _ => Ret (mkResult 1 usage "")
  end.

(** ** Specification *)

(** The lines for a message, of the algorithms that are asked for. *)
Definition digest_lines (a : string) (msg : list Z) : string :=
  let line (c : bool) label text := if c then (label +:+ text +:+ endl)%string else ""%string in
  (line (computeCrc32 a) "CRC32:      " (to_hex (be_bytes 4 (crc32 msg))) +:+
   line (computeMd5 a) "MD5:        " (to_hex (rfc_md5 msg)) +:+
   line (computeSha1 a) "SHA1:       " (to_hex (fips_sha1 msg)) +:+
   line (computeSha2 a) "SHA2/256:   " (to_hex (fips_sha256 msg)) +:+
   line (computeKeccak a) "Keccak/256: " (to_hex (sponge KECCAK Bits256 msg)) +:+
   line (computeSha3 a) "SHA3/256:   " (to_hex (sponge SHA3 Bits256 msg)))%string.

(** What a run must leave. *)
Definition digest_result (filename algorithm : string) (open : string → option (list Z)) (cin : list Z) : result :=
  match (if decide (filename = "-") then Some cin else open filename) with
  | Some msg => mkResult 0 (digest_lines algorithm msg) ""
  | None => mkResult 2 "" ("Can't open '" +:+ filename +:+ "'" +:+ endl)%string
  end.

(** ** Helper lemmas *)
Section objects.
Context {A : Type} (sees : A → list Z → Prop) (add : A → list Z → outcome A)
  (getHash : A → outcome (string * A)) (spec : list Z → string).
Hypothesis add_sees : ∀ st m d, sees st m → Forall byte m → Forall byte d →
  returns (add st d) (λ st', sees st' (m ++ d)).
Hypothesis text_sees : ∀ st m, sees st m → Forall byte m → returns (getHash st) (λ r, r.1 = spec m).

Lemma when_sees (c : bool) st m d :
  (c = true → sees st m) → Forall byte m → Forall byte d →
  returns (when c (λ st, add st d) st) (λ st', c = true → sees st' (m ++ d)).
Proof.
  intros Hs Hm Hd. destruct c; [|by apply returns_Ret].
  eapply returns_mono; [by apply add_sees; [apply Hs|..]|]. auto.
Qed.

Lemma show_sees (c : bool) label st m :
  (c = true → sees st m) → Forall byte m →
  returns (show c label getHash st) (λ s, s = if c then (label +:+ spec m +:+ endl)%string else ""%string).
Proof.
  intros Hs Hm. destruct c; [|by apply returns_Ret]. unfold show.
  eapply returns_bind; [by apply text_sees; [apply Hs|]|]. intros [t st'] E. cbn in E. subst t. by apply returns_Ret.
Qed.
End objects.

(** [add] keeps track of what was seen. *)
Definition adds {A} (sees : A → list Z → Prop) (add : A → list Z → outcome A) : Prop :=
  ∀ st m d, sees st m → Forall byte m → Forall byte d → returns (add st d) (λ st', sees st' (m ++ d)).

Section run.
Context (u : memory) (a : string).
Context {crc : CRC32 → list Z → Prop} {md5 sha1 sha2 keccak sha3 : Hasher → list Z → Prop}.

(** What each of the objects that are wanted has seen. *)
Definition seen (h : digests) (m : list Z) : Prop :=
  (computeCrc32 a = true → crc (digestCrc32 h) m) ∧ (computeMd5 a = true → md5 (digestMd5 h) m) ∧
  (computeSha1 a = true → sha1 (digestSha1 h) m) ∧ (computeSha2 a = true → sha2 (digestSha2 h) m) ∧
  (computeKeccak a = true → keccak (digestKeccak h) m) ∧ (computeSha3 a = true → sha3 (digestSha3 h) m).

Lemma add_all_seen {E : ByteOrder} h m d :
  adds crc Crc32.add → adds md5 MD5_add → adds sha1 SHA1_add → adds sha2 SHA256_add →
  adds keccak (Keccak_add Bits256) → adds sha3 (SHA3_add Bits256) →
  seen h m → Forall byte m → Forall byte d → returns (add_all a h d) (λ h', seen h' (m ++ d)).
Proof.
  intros H1 H2 H3 H4 H5 H6 (S1 & S2 & S3 & S4 & S5 & S6) Hm Hd. unfold add_all.
  eapply returns_bind; [exact (when_sees _ _ H1 _ _ _ _ S1 Hm Hd)|]. intros st1 E1.
  eapply returns_bind; [exact (when_sees _ _ H2 _ _ _ _ S2 Hm Hd)|]. intros st2 E2.
  eapply returns_bind; [exact (when_sees _ _ H3 _ _ _ _ S3 Hm Hd)|]. intros st3 E3.
  eapply returns_bind; [exact (when_sees _ _ H4 _ _ _ _ S4 Hm Hd)|]. intros st4 E4.
  eapply returns_bind; [exact (when_sees _ _ H5 _ _ _ _ S5 Hm Hd)|]. intros st5 E5.
  eapply returns_bind; [exact (when_sees _ _ H6 _ _ _ _ S6 Hm Hd)|]. intros st6 E6.
  apply returns_Ret. by split_and!.
Qed.
End run.

(** The loop ends, and every byte has been passed on. *)
Lemma read_loop_all {E : ByteOrder} (seen : digests → list Z → Prop) size a :
  0 < size →
  (∀ h m d, seen h m → Forall byte m → Forall byte d → returns (add_all a h d) (λ h', seen h' (m ++ d))) →
  ∀ fuel h m input, (length input < fuel)%nat → seen h m → Forall byte m → Forall byte input →
  returns (read_loop fuel size a h input) (λ h', seen h' (m ++ input)).
Proof.
  intros Hsize Hadd fuel. induction fuel as [|fuel IH]; intros h m input Hf Hs Hm Hi; [lia|]. cbn [read_loop].
  eapply returns_bind; [apply (Hadd h m _ Hs Hm); by apply Forall_take|]. intros h1 Hh1.
  case_decide as Hlt; rewrite length_take in Hlt.
  - rewrite take_ge in Hh1 by lia. by apply returns_Ret.
  - assert (m ++ input = (m ++ take (Z.to_nat size) input) ++ drop (Z.to_nat size) input) as ->
      by (by rewrite <-app_assoc, take_drop).
    apply IH; [rewrite length_drop; lia|done| |by apply Forall_drop]. apply Forall_app. split; [done|by apply Forall_take].
Qed.

Lemma digest_input_correct {E : ByteOrder} u filename a open cin :
  memory_ok u → (∀ f m, open f = Some m → Forall byte m) → Forall byte cin →
  returns (digest_input u filename a open cin) (λ r, r = digest_result filename a open cin).
Proof.
  intros (H64 & H144 & Hex) Hopen Hcin.
  destruct (crc32_streams (m_crc u)) as (crc & N1 & A1 & T1).
  destruct (MD5_streams (m64 u) (m_extra u) H64 Hex) as (md5 & N2 & A2 & T2).
  destruct (SHA1_streams (m64 u) (m_extra u) H64 Hex) as (sha1 & N3 & A3 & T3).
  destruct (SHA256_streams (m64 u) (m_extra u) H64 Hex) as (sha2 & N4 & A4 & T4).
  destruct (keccak_streams KECCAK Bits256 (m144 u) H144) as (keccak & N5 & A5 & T5).
  destruct (keccak_streams SHA3 Bits256 (m144 u) H144) as (sha3 & N6 & A6 & T6).
  set (seen_all := seen a (crc := crc) (md5 := md5) (sha1 := sha1) (sha2 := sha2) (keccak := keccak) (sha3 := sha3)).
  assert (∀ input, Forall byte input → returns (h ← read_loop (S (length input)) BufferSize a (digests_new u) input;
    out ← show_all u a h; Ret (mkResult 0 out "")) (λ r, r = mkResult 0 (digest_lines a input) "")) as Hrun.
  { intros input Hi. eapply returns_bind.
    { apply (read_loop_all seen_all BufferSize a) with (m := []); [done| |lia|by split_and!|done|done].
      intros h m d. by apply add_all_seen. }
    intros h (S1 & S2 & S3 & S4 & S5 & S6). cbn [app] in *. apply (returns_bind _ _ (λ out, out = digest_lines a input)); [|intros out ->; by apply returns_Ret].
    unfold show_all.
    eapply returns_bind; [exact (show_sees _ _ _ T1 _ _ _ _ S1 Hi)|]. intros ? ->.
    eapply returns_bind; [exact (show_sees _ _ _ T2 _ _ _ _ S2 Hi)|]. intros ? ->.
    eapply returns_bind; [exact (show_sees _ _ _ T3 _ _ _ _ S3 Hi)|]. intros ? ->.
    eapply returns_bind; [exact (show_sees _ _ _ T4 _ _ _ _ S4 Hi)|]. intros ? ->.
    eapply returns_bind; [exact (show_sees _ _ _ T5 _ _ _ _ S5 Hi)|]. intros ? ->.
    eapply returns_bind; [exact (show_sees _ _ _ T6 _ _ _ _ S6 Hi)|]. intros ? ->.
    by apply returns_Ret. }
  unfold digest_input, digest_result. case_decide; [by apply Hrun|].
  destruct (open filename) as [input|] eqn:Eo; [by eapply Hrun, Hopen|by apply returns_Ret].
Qed.

(** ** Main theorem *)

(** C20. The digest program: for a file of any size (or the standard input,
    for the name "-") and any algorithm it exits with status 0 after printing,
    in a fixed order, the CRC-32, MD5, SHA-1, SHA-256, Keccak-256 and SHA3-256
    of the whole file, those that were asked for (all without a second
    argument, none for an unknown name); a file that cannot be opened gives
    status 2, any other number of arguments the usage line and status 1. The byte order of the host makes no difference. *)
Theorem digest_program {E : ByteOrder} u argv open cin :
  memory_ok u → (∀ f m, open f = Some m → Forall byte m) → Forall byte cin →
  returns (digest_main u argv open cin) (λ r, r =
    match argv with
    | [_; filename] => digest_result filename "" open cin
    | [_; filename; algorithm] => digest_result filename algorithm open cin
    | _ => mkResult 1 usage ""
    end).
Proof.
  intros Hu Hopen Hcin. unfold digest_main.
  destruct argv as [|prog [|f [|alg [|]]]]; (by apply digest_input_correct) || by apply returns_Ret.
Qed.

(** The SHA-256 of "abc" on the standard input of a big-endian host. *)
#[local] Instance sample_host : ByteOrder := BigEndian.

Lemma digest_program_witness :
  returns (digest_main (mkMemory (replicate 64 1) (replicate 144 2) (replicate 64 3) 4)
      ["digest"; "-"; "--sha256"] (λ _, None) [97; 98; 99])
    (λ r, r = digest_result "-" "--sha256" (λ _, None) [97; 98; 99]).
Proof.
  assert (memory_ok (mkMemory (replicate 64 1) (replicate 144 2) (replicate 64 3) 4)) as Hu by (repeat split).
  assert (Forall byte [97; 98; 99]) as Hc by (repeat constructor; discriminate).
  assert (∀ f m, (λ _ : string, @None (list Z)) f = Some m → Forall byte m) as Ho by (intros f m E; discriminate E).
  exact (digest_program _ ["digest"; "-"; "--sha256"] (λ _, None) [97; 98; 99] Hu Ho Hc).
Defined.

(** Which lines a run prints. *)
Example flags : (computeCrc32 "", computeSha2 "", computeSha2 "--sha256", computeMd5 "--sha256", computeSha3 "-sha3") =
  (true, true, true, false, false).
Proof. reflexivity. Qed.
