(* ===== verification/HashClass.v ===== *)
(** * The interface of the hash classes (src/pmud/src/common/hash-library/hash.h)

    The abstract base class [Hash] as a type class, its contract as a second
    one, and the six classes of the library as implementations. (The library
    has the derivation from [Hash] commented out in each of them, so that no
    call is virtual; the five members are those of the interface.) A user of
    an object calls its members in any order; the contract says what the
    calls return, and the theorem that every class keeps it. *)
From Stdlib Require Import String.
From S2P Require Import Prelude.
From S2P Require Import Text.
From S2P Require Import Word.
From S2P Require Import BlockHasher.
From S2P Require Import Sha256.
From S2P Require Import Sha1.
From S2P Require Import Md5.
From S2P Require Import Crc32.
From S2P Require Import Keccak.
From S2P Require Import Digest.

(** The members of [Hash]: the two call operators, [add], [getHash] and
    [reset], on objects of the type [T]. *)
Class Hash (T : Type) := {
  op_data : T → list Z → outcome (string * T);
  op_text : T → string → outcome (string * T);
  hash_add : T → list Z → outcome T;
  hash_getHash : T → outcome (string * T);
  hash_reset : T → T
}.

(** ** Sequences of calls *)
Inductive call :=
  | Op_data (data : list Z)
  | Op_text (text : string)
  | Add (data : list Z)
  | GetHash
  | Reset.

(** The data of a call are bytes. *)
Definition call_ok (c : call) : Prop :=
  match c with Op_data d | Add d => Forall byte d | _ => True end.

(** A call on an object, after which the texts returned so far are known. *)
Definition do_call {T} {H : Hash T} (s : list string * T) (c : call) : outcome (list string * T) :=
  let '(out, st) := s in
  let say (r : outcome (string * T)) := '(text, st) ← r; Ret (out ++ [text], st) in
  match c with
  | Op_data data => say (op_data st data)
  | Op_text text => say (op_text st text)
  | Add data => st ← hash_add st data; Ret (out, st)
  | GetHash => say (hash_getHash st)
  | Reset => Ret (out, hash_reset st)
  end.

Definition do_calls {T} {H : Hash T} (st : T) (calls : list call) : outcome (list string) :=
  '(out, _) ← foldM do_call ([], st) calls; Ret out.

(** ** The specification: an object is the message it has been given *)
Section spec.
Context (spec : list Z → string).

Definition spec_call (s : list string * list Z) (c : call) : list string * list Z :=
  let '(out, msg) := s in
  match c with
  | Op_data data => (out ++ [spec data], data)
  | Op_text text => (out ++ [spec (bytes_of text)], bytes_of text)
  | Add data => (out, msg ++ data)
  | GetHash => (out ++ [spec msg], msg)
  | Reset => (out, [])
  end.

Definition spec_calls (msg : list Z) (calls : list call) : list string := (foldl spec_call ([], msg) calls).1.
End spec.

(** The contract: [sees st m] says that [st] has been given the message [m]. *)
Class HashLaws {T} (H : Hash T) (spec : list Z → string) (sees : T → list Z → Prop) : Prop := {
  reset_sees st m : sees st m → sees (hash_reset st) [];
  add_sees st m d : sees st m → Forall byte m → Forall byte d → returns (hash_add st d) (λ st', sees st' (m ++ d));
  getHash_sees st m : sees st m → Forall byte m → returns (hash_getHash st) (λ r, r.1 = spec m ∧ sees r.2 m);
  op_data_sees st m d : sees st m → Forall byte d → returns (op_data st d) (λ r, r.1 = spec d ∧ sees r.2 d);
  op_text_sees st m t : sees st m →
    returns (op_text st t) (λ r, r.1 = spec (bytes_of t) ∧ sees r.2 (bytes_of t))
}.

(** *** A user's view: every sequence of calls *)
Section client.
Context {T} {H : Hash T} {spec sees} {L : HashLaws H spec sees}.

(** The texts are the same, and the object has been given the message. *)
Definition same (s : list string * T) (a : list string * list Z) : Prop :=
  s.1 = a.1 ∧ sees s.2 a.2 ∧ Forall byte a.2.

Lemma say_same out (r : outcome (string * T)) m :
  Forall byte m → returns r (λ r, r.1 = spec m ∧ sees r.2 m) →
  returns ('(text, st) ← r; Ret (out ++ [text], st)) (λ s, same s (out ++ [spec m], m)).
Proof.
  intros Hm Hr. eapply returns_bind; [exact Hr|]. intros [text st] [E Hs]. cbn in E, Hs. subst text.
  apply returns_Ret. by split_and!.
Qed.

Lemma do_call_same s a c : same s a → call_ok c → returns (do_call s c) (λ s', same s' (spec_call spec a c)).
Proof.
  destruct s as [out st], a as [out' m]. intros (E & Hs & Hm) Hc. cbn in E, Hs, Hm. subst out'.
  destruct c as [d|t|d| |]; cbn [do_call spec_call call_ok] in *.
  - apply say_same; [done|]. by eapply op_data_sees.
  - apply say_same; [apply bytes_of_byte|]. by eapply op_text_sees.
  - eapply returns_bind; [by eapply add_sees|]. intros st' Hs'. apply returns_Ret. split_and!; [done..|].
    by apply Forall_app.
  - apply say_same; [done|]. by apply getHash_sees.
  - apply returns_Ret. split_and!; [done| |constructor]. by eapply reset_sees.
Qed.

Lemma do_calls_spec st m calls :
  sees st m → Forall byte m → Forall call_ok calls →
  returns (do_calls st calls) (λ out, out = spec_calls spec m calls).
Proof.
  intros Hs Hm Hc. unfold do_calls, spec_calls.
  assert (∀ s a, same s a → returns (foldM do_call s calls) (λ s', same s' (foldl (spec_call spec) a calls))) as Hrun.
  { induction Hc as [|c calls Hc _ IH]; intros s a Hsame; cbn [foldM foldl]; [by apply returns_Ret|].
    eapply returns_bind; [by apply do_call_same|]. intros s' Hs'. by apply IH. }
  eapply returns_bind; [by apply (Hrun ([], st) ([], m))|]. intros [out st'] (E & _). by apply returns_Ret.
Qed.
End client.

(** *** An implementation: the call operators are the other members

    All classes define their call operators by [reset], [add] and [getHash],
    so that three laws give the other two. *)
Lemma laws_of_members {T} (H : Hash T) (spec : list Z → string) (sees : T → list Z → Prop) :
  (∀ st d, op_data st d = (st ← hash_add (hash_reset st) d; hash_getHash st)) →
  (∀ st t, op_text st t = op_data st (bytes_of t)) →
  (∀ st m, sees st m → sees (hash_reset st) []) →
  (∀ st m d, sees st m → Forall byte m → Forall byte d → returns (hash_add st d) (λ st', sees st' (m ++ d))) →
  (∀ st m, sees st m → Forall byte m → returns (hash_getHash st) (λ r, r.1 = spec m ∧ sees r.2 m)) →
  HashLaws H spec sees.
Proof.
  intros Ed Et Hr Ha Hg.
  assert (∀ st m d, sees st m → Forall byte d → returns (op_data st d) (λ r, r.1 = spec d ∧ sees r.2 d)) as Hd.
  { intros st m d Hs Hb. rewrite Ed. eapply returns_bind; [apply (Ha _ [] d); [by eapply Hr|constructor|done]|].
    intros st' Hs'. by apply Hg. }
  split; [done..|]. intros st m t Hs. rewrite Et. eapply Hd; [done|apply bytes_of_byte].
Qed.

(** ** The six classes *)
Section classes.
Context {E : ByteOrder}.

(** MD5, SHA1 and SHA256; [extra] is the local array of [processBuffer]. *)
Definition block_hash (H : BlockHash) (extra : list Z) : Hash Hasher := {|
  op_data := BlockHasher.hash_call extra;
  op_text st text := BlockHasher.hash_call extra st (bytes_of text);
  hash_add := Absorb.add;
  hash_getHash := BlockHasher.getHash extra;
  hash_reset := Absorb.reset
|}.

Definition crc32_hash : Hash CRC32 := {|
  op_data := crc_call;
  op_text st text := crc_call st (bytes_of text);
  hash_add := Crc32.add;
  hash_getHash st := Ret (Crc32.getHash st, st);
  hash_reset := Crc32.reset
|}.

Definition sponge_hash (v : variant) (b : Bits) : Hash Hasher := {|
  op_data := Keccak.hash_call v b;
  op_text st text := Keccak.hash_call v b st (bytes_of text);
  hash_add := Absorb.add (A := keccak_absorber b);
  hash_getHash := Keccak.getHash v b;
  hash_reset := Absorb.reset (A := keccak_absorber b)
|}.

(** The members that each class declares. *)
Definition MD5_hash : list Z → Hash Hasher := block_hash MD5.
Definition SHA1_hash : list Z → Hash Hasher := block_hash SHA1.
Definition SHA256_hash : list Z → Hash Hasher := block_hash SHA256.
Definition Keccak_hash : Bits → Hash Hasher := sponge_hash KECCAK.
Definition SHA3_hash : Bits → Hash Hasher := sponge_hash SHA3.

Lemma absorbed_reset {A : Absorber} {L : AbsorberLaws A} st m : absorbed st m → absorbed (Absorb.reset st) [].
Proof. intros (n & full & tail & _ & _ & _ & _ & _ & _ & Hl & _). by apply reset_absorbed. Qed.

Lemma block_hash_laws {H : BlockHash} {L : BlockHashLaws H} extra (spec : list Z → list Z) :
  length extra = 64%nat → (∀ m, Forall byte m → BlockHasher.digest m = spec m) →
  HashLaws (block_hash H extra) (λ m, to_hex (spec m)) absorbed.
Proof.
  intros He Es. apply laws_of_members; [done|done| | |]; cbn [hash_reset hash_add hash_getHash block_hash].
  - intros st m. by apply absorbed_reset.
  - intros st m d Hs _ _. by apply add_absorbed.
  - intros st m Hs Hb. rewrite <-Es by done. by apply BlockHasher.getHash_spec.
Qed.

Lemma sponge_hash_laws v b :
  HashLaws (sponge_hash v b) (λ m, to_hex (sponge v b m)) (absorbed (A := keccak_absorber b)).
Proof.
  apply laws_of_members; [done|done| | |]; cbn [hash_reset hash_add hash_getHash sponge_hash].
  - intros st m. by apply (absorbed_reset (A := keccak_absorber b)).
  - intros st m d Hs _ _. by apply (add_absorbed (A := keccak_absorber b)).
  - intros st m. apply sponge_getHash.
Qed.

(** The state of a [CRC32] is the checksum of what it has been given. *)
Definition checksum_of (st : CRC32) (m : list Z) : Prop := m_hash st = crc32 m.

Lemma crc32_hash_laws : HashLaws crc32_hash (λ m, to_hex (be_bytes 4 (crc32 m))) checksum_of.
Proof.
  apply laws_of_members; [done|done|done| |]; cbn [hash_reset hash_add hash_getHash crc32_hash]; unfold checksum_of.
  - intros st m d Hs Hm Hd. rewrite add_eq by (try done; rewrite Hs; by apply crc32_range). apply returns_Ret.
    cbn [m_hash]. unfold crc32 in *. by rewrite Hs, not32_not32, crc_register_app.
  - intros st m Hs Hm. apply returns_Ret. split; [|done]. cbn [fst].
    rewrite getHash_eq by (rewrite Hs; by apply crc32_range). by rewrite Hs.
Qed.

(** The classes, the last two at each of the lengths that the constructor
    takes. *)
Inductive hash_class := OfCRC32 | OfMD5 | OfSHA1 | OfSHA256 | OfKeccak (b : Bits) | OfSHA3 (b : Bits).

Definition object (k : hash_class) : Type := match k with OfCRC32 => CRC32 | _ => Hasher end.

(** A new object, whose members but for those set by [reset] are the memory
    it is made in. *)
Definition object_new (u : memory) (k : hash_class) : object k :=
  match k with
  | OfCRC32 => CRC32_new (m_crc u)
  | OfMD5 => MD5_new (m64 u)
  | OfSHA1 => SHA1_new (m64 u)
  | OfSHA256 => SHA256_new (m64 u)
  | OfKeccak b => Keccak_new b (m144 u)
  | OfSHA3 b => SHA3_new b (m144 u)
  end.

Definition members (u : memory) (k : hash_class) : Hash (object k) :=
  match k with
  | OfCRC32 => crc32_hash
  | OfMD5 => MD5_hash (m_extra u)
  | OfSHA1 => SHA1_hash (m_extra u)
  | OfSHA256 => SHA256_hash (m_extra u)
  | OfKeccak b => Keccak_hash b
  | OfSHA3 b => SHA3_hash b
  end.

(** What each computes, from its standard. *)
Definition standard (k : hash_class) (m : list Z) : string :=
  match k with
  | OfCRC32 => to_hex (be_bytes 4 (crc32 m))
  | OfMD5 => to_hex (rfc_md5 m)
  | OfSHA1 => to_hex (fips_sha1 m)
  | OfSHA256 => to_hex (fips_sha256 m)
  | OfKeccak b => to_hex (sponge KECCAK b m)
  | OfSHA3 b => to_hex (sponge SHA3 b m)
  end.

(** Every class keeps the contract, and its constructor gives an object that
    has been given nothing. *)
Lemma members_laws u k : memory_ok u → ∃ sees, HashLaws (members u k) (standard k) sees ∧ sees (object_new u k) [].
Proof.
  intros (H64 & H144 & Hex). destruct k as [| | | |b|b].
  - exists checksum_of. by split; [apply crc32_hash_laws|].
  - exists (absorbed (A := MD5)). split; [|by apply reset_absorbed]. apply block_hash_laws; [done|apply digest_rfc].
  - exists (absorbed (A := SHA1)). split; [|by apply reset_absorbed]. apply block_hash_laws; [done|apply digest_fips_1].
  - exists (absorbed (A := SHA256)). split; [|by apply reset_absorbed]. apply block_hash_laws; [done|apply digest_fips].
  - exists (absorbed (A := keccak_absorber b)). split; [apply sponge_hash_laws|].
    by apply (reset_absorbed (A := keccak_absorber b)).
  - exists (absorbed (A := keccak_absorber b)). split; [apply sponge_hash_laws|].
    by apply (reset_absorbed (A := keccak_absorber b)).
Qed.
End classes.

(** ** Main theorem *)

(** C2. The interface [Hash]. An object of any of the hash classes (CRC32,
    MD5, SHA1, SHA256, Keccak and SHA3 at all four lengths), made in memory of
    any content on a host of either byte order, behaves under every sequence
    of calls of [add], [getHash], [reset] and the two call operators as one
    that only remembers its message: [add] appends to it, [getHash] returns
    the hash of it by the standard and changes nothing, a call operator
    returns the hash of its argument and [reset] forgets. No call throws or
    accesses an array out of range. *)
Theorem hash_object_refines {E : ByteOrder} u k calls :
  memory_ok u → Forall call_ok calls →
  returns (do_calls (H := members u k) (object_new u k) calls) (λ out, out = spec_calls (standard k) [] calls).
Proof.
  intros Hu Hc. destruct (members_laws u k Hu) as (sees & L & Hnew).
  by apply (do_calls_spec (sees := sees)).
Qed.

(** An object used three times, without and with [reset] in between. *)
#[local] Instance sample_host : ByteOrder := BigEndian.

Definition sample_memory : memory := mkMemory (replicate 64 1) (replicate 144 2) (replicate 64 3) 4.
Definition sample_calls : list call :=
  [Add [97]; GetHash; Add [98]; GetHash; Reset; GetHash; Op_text "ab"; Add [99]; GetHash].

Lemma hash_object_refines_witness :
  returns (do_calls (H := members sample_memory (OfSHA3 Bits384)) (object_new sample_memory (OfSHA3 Bits384)) sample_calls)
    (λ out, out = spec_calls (standard (OfSHA3 Bits384)) [] sample_calls).
Proof.
  assert (memory_ok sample_memory) as Hu by (repeat split).
  assert (Forall call_ok sample_calls) as Hc by (repeat constructor; discriminate).
  exact (hash_object_refines sample_memory (OfSHA3 Bits384) sample_calls Hu Hc).
Defined.

(** What the contract asks for there, and the texts of a [CRC32]. *)
Example spec_sample spec : spec_calls spec [] sample_calls =
  [spec [97]; spec [97; 98]; spec []; spec [97; 98]; spec [97; 98; 99]].
Proof. reflexivity. Qed.

Example crc32_sample : do_calls (H := members sample_memory OfCRC32) (object_new sample_memory OfCRC32) sample_calls =
  Ret ["e8b7be43"; "9e83486d"; "00000000"; "9e83486d"; "352441c2"].
Proof. vm_compute. reflexivity. Qed.
