(* ===== verification/Hmac.v ===== *)
(** * HMAC (src/pmud/src/common/hash-library/hmac.h)

    The template function [hmac], written once for the hash classes that
    [BlockHash] describes, and its equality with the definition of RFC 2104. *)
From S2P Require Import Prelude.
From S2P Require Import Word.
From S2P Require Import BlockHasher.
From S2P Require Import Sha1.

Section hmac.
Context {H : BlockHash} {L : BlockHashLaws H}.

(** [uninit] and [extra] are the uninitialised memory of the hash objects. *)
Definition hmac (uninit extra data key : list Z) : outcome string :=
  let usedKey := replicate 64 0 in
  usedKey ← (if decide (Z.of_nat (length key) ≤ BlockSize) then write_at usedKey 0 key
             else
               keyHasher ← add (Hasher_new uninit) key;
               '(hashed, _) ← getHash_raw extra keyHasher;
               write_at usedKey 0 hashed);
  let usedKey := (λ b, Z.lxor b 0x36) <$> usedKey in
  insideHasher ← add (Hasher_new uninit) usedKey;
  insideHasher ← add insideHasher data;
  '(inside, _) ← getHash_raw extra insideHasher;
  let usedKey := (λ b, Z.lxor b (Z.lxor 0x5C 0x36)) <$> usedKey in
  finalHasher ← add (Hasher_new uninit) usedKey;
  finalHasher ← add finalHasher inside;
  '(text, _) ← getHash extra finalHasher;
  Ret text.

(** RFC 2104: the key filled up with zeros to a block, or its hash if it is
    longer than a block. *)
Definition block_key (key : list Z) : list Z :=
  let k := if decide (length key ≤ 64)%nat then key else digest key in
  k ++ replicate (64 - length k) 0.

Definition rfc_hmac (data key : list Z) : list Z :=
  let ipad := (λ b, Z.lxor b 0x36) <$> block_key key in
  let opad := (λ b, Z.lxor b 0x5C) <$> block_key key in
  digest (opad ++ digest (ipad ++ data)).

(** ** Helper lemmas *)
Lemma xor_pads b : Z.lxor (Z.lxor b 0x36) (Z.lxor 0x5C 0x36) = Z.lxor b 0x5C.
Proof. rewrite (Z.lxor_comm 0x5C), <-Z.lxor_assoc, (Z.lxor_assoc b 0x36 0x36). by rewrite Z.lxor_nilpotent, Z.lxor_0_r. Qed.

Lemma new_absorbed uninit : length uninit = 64%nat → absorbed (Hasher_new uninit) [].
Proof. intros Hu. by apply reset_absorbed. Qed.

(** Hashing one piece, or two, with a fresh object. *)
Lemma hash_one uninit extra a :
  length uninit = 64%nat → length extra = 64%nat →
  returns (h ← add (Hasher_new uninit) a; getHash_raw extra h) (λ r, r.1 = digest a).
Proof.
  intros Hu He. eapply returns_bind; [exact (add_absorbed _ [] a (new_absorbed uninit Hu))|].
  intros h Ha. eapply returns_mono; [exact (getHash_raw_spec extra h _ He Ha)|]. by intros r [? _].
Qed.

Lemma write_key k :
  (length k ≤ 64)%nat → write_at (replicate 64 0) 0 k = Ret (k ++ replicate (64 - length k) 0).
Proof.
  intros Hk. rewrite write_at_spec by (rewrite ?length_replicate; lia).
  change (Z.to_nat 0) with 0%nat. rewrite take_0, app_nil_l. cbn [Nat.add].
  by rewrite drop_replicate.
Qed.
End hmac.

(** C38. HMAC: for every key, shorter or longer than a block, and every
    message, [hmac] returns the hexadecimal text of the HMAC of RFC 2104 over
    the class's hash, whatever the uninitialised memory holds. *)
Theorem hmac_is_rfc2104 {H : BlockHash} {L : BlockHashLaws H} uninit extra data key :
  length uninit = 64%nat → length extra = 64%nat →
  returns (hmac uninit extra data key) (λ text, text = to_hex (rfc_hmac data key)).
Proof.
  intros Hu He. unfold hmac.
  eapply (returns_bind _ _ (λ k, k = block_key key)).
  { unfold block_key, BlockSize. case_decide as Hk.
    - rewrite (decide_True (P := (length key ≤ 64)%nat)) by lia. rewrite write_key by lia.
      by apply returns_Ret.
    - rewrite (decide_False (P := (length key ≤ 64)%nat)) by lia.
      destruct (hash_one uninit extra key Hu He) as ([hashed h'] & Hh & E).
      cbn [fst] in E. subst hashed.
      destruct (add (Hasher_new uninit) key) as [h| | |]; try done. cbn [mbind outcome_bind] in *.
      rewrite Hh. cbn [mbind outcome_bind].
      rewrite write_key by (rewrite digest_length; pose proof HashValues_bound; lia).
      by apply returns_Ret. }
  intros k ->. cbv zeta.
  eapply returns_bind; [exact (add_absorbed _ [] _ (new_absorbed uninit Hu))|]. intros h1 A1.
  eapply returns_bind; [exact (add_absorbed h1 _ data A1)|]. intros h2 A2.
  eapply returns_bind; [exact (getHash_raw_spec extra h2 _ He A2)|]. intros [inside h3] [E3 _].
  cbn [fst] in E3. subst inside.
  eapply returns_bind; [exact (add_absorbed _ [] _ (new_absorbed uninit Hu))|]. intros h4 A4.
  eapply returns_bind; [exact (add_absorbed h4 _ _ A4)|]. intros h5 A5.
  eapply returns_bind; [exact (getHash_spec extra h5 _ He A5)|]. intros [text h6] [E6 _].
  cbn [fst] in E6. subst text. apply returns_Ret. unfold rfc_hmac. do 2 f_equal.
  rewrite !app_nil_l. f_equal. rewrite <-list_fmap_compose. apply list_fmap_ext.
  intros i b _. apply xor_pads.
Qed.

#[local] Instance sample_host : ByteOrder := BigEndian.

Lemma hmac_is_rfc2104_witness :
  length (replicate 64 0) = 64%nat ∧
  returns (hmac (H := SHA1) (replicate 64 0) (replicate 64 0) [104; 105] (replicate 65 7))
    (λ text, text = to_hex (rfc_hmac (H := SHA1) [104; 105] (replicate 65 7))).
Proof.
  split; [reflexivity|].
  exact (hmac_is_rfc2104 (H := SHA1) (replicate 64 0) (replicate 64 0) [104; 105] (replicate 65 7) eq_refl eq_refl).
Defined.

(** RFC 2202, test case 1 of HMAC-SHA-1. *)
Example hmac_sha1 :
  hmac (H := SHA1) (replicate 64 3) (replicate 64 5) [72; 105; 32; 84; 104; 101; 114; 101] (replicate 20 0x0b) =
  Ret "b617318655057264e28bc0b6fb378c8ef146be00".
Proof. vm_compute. reflexivity. Qed.
