(* ===== verification/HashTests.v ===== *)
(** * The test suite of the hash library

    common/hash-library/tests/tests.cpp on the models of the hash classes: its
    [check], [checkHmac] and [hex2bin], and those of its test vectors that
    reach a branch of their own (an empty message, messages that end before,
    at and after the places where padding takes another block, the SHA3 vector
    that once failed, keys longer than a block), run by the kernel. *)
From Stdlib Require Import String Ascii.
From stdpp Require Import strings.
From S2P Require Import Prelude.
From S2P Require Import Text.
From S2P Require Import Word.
From S2P Require Import Absorb.
From S2P Require Import BlockHasher.
From S2P Require Import Sha256.
From S2P Require Import Sha1.
From S2P Require Import Md5.
From S2P Require Import Keccak.
From S2P Require Import Crc32.
From S2P Require Import Hmac.

Open Scope string_scope.
Open Scope Z_scope.

Record TestSet := mkTestSet {
  input : string;
  crc32b : string;
  md5 : string;
  sha1 : string;
  sha256 : string;
  sha3_256 : string
}.

(** Rows of the table, those with a comment saying 55, 56, 64 and 100. *)
Definition row_55 : TestSet := mkTestSet "de286ba4206e8b005714f80fb1cdfaebde91d29f84603e4a3ebc04686f99a46c9e880b96c574825582e8812a26e5a857ffc6579f63742f"
  "43ab2765"
  "1c4f5048955f692961be8682e7226025"
  "e81bed804597822ac47ca7a507976972eece5c60"
  "99a9fa276e7471535a13e41abdb1dd5c1013ed1f4d57a4c7b9433455d3cdc705"
  "1bc1bcc70f638958db1006af37b02ebd8954ec59b3acbad12eacedbc5b21e908".
Definition row_56 : TestSet := mkTestSet "eebcc18057252cbf3f9c070f1a73213356d5d4bc19ac2a411ec8cdeee7a571e2e20eaf61fd0c33a0ffeb297ddb77a97f0a415347db66bcaf"
  "4d3ce864"
  "6d0557d282d4ddbfa3f0607030db59ac"
  "d493f943e6d7e52989990f1bb88c835e9a14ab59"
  "c8d39c9dabb62cb284be55658b05412b50ff3eda8ac98ae6bc616f466aeb2650"
  "f7bde239ad087aa7dabe42cc4d3c49380a026cd239a7faaf34a2233469a44a4d".
Definition row_64 : TestSet := mkTestSet "e926ae8b0af6e53176dbffcc2a6b88c6bd765f939d3d178a9bde9ef3aa131c61e31c1e42cdfaf4b4dcde579a37e150efbef5555b4c1cb40439d835a724e2fae7"
  "ded134c1"
  "f8885d6cda92c999dc4bee554df7dd2c"
  "6c4664cb736cd563f74f52cea42e33d6d617f153"
  "f4a1a02e8e35822107cc08b5b21b661c058e2825f3c7cb2a3b6d40f3ae89211b"
  "27a6441ee939b46e2c378d7afeb0e891c47a28120e488eff0ab71af08788ceb3".
Definition row_100 : TestSet := mkTestSet "433c5303131624c0021d868a30825475e8d0bd3052a022180398f4ca4423b98214b6beaac21c8807a2c33f8c93bd42b092cc1b06cedf3224d5ed1ec29784444f22e08a55aa58542b524b02cd3d5d5f6907afe71c5d7462224a3f9d9e53e7e0846dcbb4ce"
  "5c444498"
  "9dc41264137166fe20aebb253ecce43e"
  "e9c3b6728e90f15a3703d1b9906e8f957ce0d4e5"
  "19acbb45e086963576fa1847f933f6ed78e777a4a27aca0609969362a72e3abf"
  "90e10b1ca8d352794d7dbd7bae410bef25f0ec7d080e053f48674237e33ea45f".

(** ** The functions of the suite *)
Definition hex_char (c : ascii) : Z :=
  let c := Z.of_N (N_of_ascii c) in
  (if decide (97 ≤ c) then c - 97 + 10 else c - 48) mod 2 ^ 8.

(** [hex2bin]; the length of a text of the suite is even. *)
Fixpoint hex2bin_loop (l : list ascii) : list Z :=
  match l with
  | high :: low :: l => (hex_char high * 16 + hex_char low) mod 2 ^ 8 :: hex2bin_loop l
  | _ => []
  end.
Definition hex2bin (hex : string) : list Z := hex2bin_loop (to_list hex).

Section tests.
Context {E : ByteOrder}.

(** The memory of a new object is not initialised. *)
Definition garbage (n : nat) : list Z := replicate n 85.

(** One class of the library, as [HashMethod]: an object is made and called. *)
Definition HashMethod : Type := list Z → outcome string.
Definition of_block_hash (H : BlockHash) : HashMethod := λ data,
  r ← BlockHasher.hash_call (garbage 64) (Hasher_new (garbage 64)) data; Ret r.1.
Definition of_sha3 (b : Bits) : HashMethod := λ data, r ← SHA3_call b (SHA3_new b (garbage 144)) data; Ret r.1.
Definition of_keccak (b : Bits) : HashMethod := λ data, r ← Keccak_call b (Keccak_new b (garbage 144)) data; Ret r.1.
Definition of_crc32 : HashMethod := λ data, r ← crc_call (CRC32_new 85) data; Ret r.1.

(** [check] and [checkHmac]: the number of failed hashes. *)
Definition check (h : HashMethod) (input : list Z) (expectedResult : string) : outcome Z :=
  hash ← h input;
  Ret (if decide (hash = expectedResult) then 0 else 1).

Definition checkHmac (H : BlockHash) (input key : list Z) (expectedResult : string) : outcome Z :=
  hash ← hmac (H := H) (garbage 64) (garbage 64) input key;
  Ret (if decide (hash = expectedResult) then 0 else 1).

(** The errors of a list of checks. *)
Definition errors (checks : list (outcome Z)) : outcome Z :=
  foldM (λ n c, e ← c; Ret (n + e)) 0 checks.

Definition check_testset (t : TestSet) : outcome Z :=
  let data := hex2bin (input t) in
  errors [check of_crc32 data (crc32b t); check (of_block_hash MD5) data (md5 t);
    check (of_block_hash SHA1) data (sha1 t); check (of_block_hash SHA256) data (sha256 t);
    check (of_sha3 Bits256) data (sha3_256 t)].
End tests.

(** ** The tests pass *)
Definition abc896bits : list Z := bytes_of
  "abcdefghbcdefghicdefghijdefghijkefghijklfghijklmghijklmnhijklmnoijklmnopjklmnopqklmnopqrlmnopqrsmnopqrstnopqrstu".

#[local] Instance test_host : ByteOrder := LittleEndian.

Example sha1_tests : errors [
  check (of_block_hash SHA1) (bytes_of "") "da39a3ee5e6b4b0d3255bfef95601890afd80709";
  check (of_block_hash SHA1) abc896bits "a49b2446a02c645bf419f995b67091253a04a259"] = Ret 0.
Proof. vm_compute. reflexivity. Qed.

Example sha256_tests : errors [
  check (of_block_hash SHA256) (bytes_of "") "e3b0c44298fc1c149afbf4c8996fb92427ae41e4649b934ca495991b7852b855";
  check (of_block_hash SHA256) abc896bits "cf5b16a778af8380036ce59e7b0492370b249b11e8f07a51afac45037afee9d1"] = Ret 0.
Proof. vm_compute. reflexivity. Qed.

(** With the vector of 71 bytes that SHA3/512 once failed, and the text of
    SHA3/224 that once was cut. *)
Example sha3_tests : errors [
  check (of_sha3 Bits256) (bytes_of "") "a7ffc6f8bf1ed76651c14756a061d662f580ff4de43b49fa82d80a4b80f8434a";
  check (of_sha3 Bits512) (hex2bin "13bd2811f6ed2b6f04ff3895aceed7bef8dcd45eb121791bc194a0f806206bffc3b9281c2b308b1a729ce008119dd3066e9378acdcc50a98a82e20738800b6cddbe5fe9694ad6d")
    "def4ab6cda8839729a03e000846604b17f03c5d5d7ec23c483670a13e11573c1e9347a63ec69a5abb21305f9382ecdaaabc6850f92840e86f88f4dabfcd93cc0";
  check (of_sha3 Bits224) (bytes_of "") "6b4e03423667dbb73b6e15454f0eb1abd4597f9a1b078e3f5b5a6bc7";
  check (of_keccak Bits224) (bytes_of "") "f71837502ba8e10837bdd8d365adb85591895602fc552b48b7390abd"] = Ret 0.
Proof. vm_compute. reflexivity. Qed.

Example testset_passes : errors (check_testset <$> [row_55; row_56; row_64; row_100]) = Ret 0.
Proof. vm_compute. reflexivity. Qed.

Example hmac_tests : errors [
  checkHmac MD5 (bytes_of "what do ya want for nothing?") (bytes_of "Jefe")
    "750c783e6ab0b503eaa86e310a5db738";
  checkHmac MD5 (bytes_of "Test Using Larger Than Block-Size Key - Hash Key First") (hex2bin "aaaaaaaaaaaaaaaaaaaaaaaaaaaaaaaaaaaaaaaaaaaaaaaaaaaaaaaaaaaaaaaaaaaaaaaaaaaaaaaaaaaaaaaaaaaaaaaaaaaaaaaaaaaaaaaaaaaaaaaaaaaaaaaaaaaaaaaaaaaaaaaaaaaaaaaaaaaaaaaa")
    "6b1ab7fe4bd7bf8f0b62e6ce61b9d0cd";
  checkHmac SHA1 (bytes_of "Test Using Larger Than Block-Size Key - Hash Key First") (hex2bin "aaaaaaaaaaaaaaaaaaaaaaaaaaaaaaaaaaaaaaaaaaaaaaaaaaaaaaaaaaaaaaaaaaaaaaaaaaaaaaaaaaaaaaaaaaaaaaaaaaaaaaaaaaaaaaaaaaaaaaaaaaaaaaaaaaaaaaaaaaaaaaaaaaaaaaaaaaaaaaaa")
    "aa4ae5e15272d00e95705637ce8a3b55ed402112";
  checkHmac SHA256 (bytes_of "Test Using Larger Than Block-Size Key - Hash Key First") (hex2bin "aaaaaaaaaaaaaaaaaaaaaaaaaaaaaaaaaaaaaaaaaaaaaaaaaaaaaaaaaaaaaaaaaaaaaaaaaaaaaaaaaaaaaaaaaaaaaaaaaaaaaaaaaaaaaaaaaaaaaaaaaaaaaaaaaaaaaaaaaaaaaaaaaaaaaaaaaaaaaaaaaaaaaaaaaaaaaaaaaaaaaaaaaaaaaaaaaaaaaaaaaaaaaaaaaaaaaaaaaaaaaaaaaaaaaaaaaaaaaaaaaaaaaaaaaaaaaaaaaaaaaa")
    "60e431591ee0b67f0d8a26aacbf5b77f8e0bc6213728c5140546040f0ee37f54"] = Ret 0.
Proof. vm_compute. reflexivity. Qed.
