(* ===== verification/Security.v ===== *)
(** * Credentials (pmud/src/common/pmud_security.h)

    The salt, the salted SHA256 of a pass phrase and the text
    [iterations:salt:hash] that is stored with a user. *)
From S2P Require Import Prelude.
From S2P Require Import Text.
From S2P Require Import Word.
From S2P Require Import BlockHasher.
From S2P Require Import Sha256.

(** ** The code *)
Record CredentialHash := mkCredentialHash {
  iterations : Z;
  salt : string;
  hash : string
}.

(** [fmt::format("{}:{}:{}", iterations, salt, hash)] *)
Definition to_string (c : CredentialHash) : string :=
  (pretty (iterations c) +:+ ":" +:+ salt c +:+ ":" +:+ hash c)%string.

Definition hex : list string :=
  ["0"; "1"; "2"; "3"; "4"; "5"; "6"; "7"; "8"; "9"; "A"; "B"; "C"; "D"; "E"; "F"].

(** [dist i]: the value of the [i]-th call of [dist(rng)]. *)
Definition generate_random_salt (dist : Z → Z) : outcome string :=
  for_range 0 8 (λ salt i, c ← vget hex (dist i); Ret (salt +:+ c)%string) "".

(** What one call draws: eight numbers of [uniform_int_distribution(0, 15)]. *)
Record draws := mkDraws { draw :> Z → Z; draws_range i : 0 ≤ i < 8 → 0 ≤ draw i < 16 }.
Definition first_draws : draws := mkDraws (λ i, i) (λ i Hi, ltac:(lia)).

(** [fmt::format("{}:{}", passphrase, salt)] *)
Definition passphrase_salt (passphrase salt : string) : string :=
  (passphrase +:+ ":" +:+ salt)%string.

(** The server runs on a little-endian host; the text of a SHA256 object is the
    same on any (Sha256.v). *)
#[export] Instance server_host : ByteOrder := LittleEndian.

(** [uninit] and [extra]: the uninitialised memory of the hash object. *)
Definition hash_credentials (uninit extra : list Z) (passphrase salt : string) : outcome CredentialHash :=
  '(text, _) ← SHA256_call extra (SHA256_new uninit) (bytes_of (passphrase_salt passphrase salt));
  Ret (mkCredentialHash 0 salt text).

(** ** Specification *)

Definition colon : Ascii.ascii := Ascii.ascii_of_nat 58.

(** Cut a text at the first colon. *)
Fixpoint cut (s : string) : option (string * string) :=
  match s with
  | EmptyString => None
  | String c s =>
      if decide (c = colon) then Some (EmptyString, s)
      else '(a, b) ← cut s; Some (String c a, b)
  end.

(** Read a stored credential back: the text of the iteration count, the salt
    and the hash. *)
Definition parse_credential (s : string) : option (string * string * string) :=
  '(n, rest) ← cut s; '(salt, hash) ← cut rest; Some (n, salt, hash).

(** ** Helper lemmas *)
Lemma cut_append a b : lacks colon a → cut (a +:+ ":" +:+ b)%string = Some (a, b).
Proof.
  induction a as [|c a IH]; intros Ha; [done|]. rewrite append_cons. cbn.
  unfold lacks in Ha. cbn in Ha. rewrite not_elem_of_cons in Ha. destruct Ha as [Hc Ha].
  rewrite decide_False by congruence. by rewrite IH.
Qed.

(** The digest as text: 64 lower-case hexadecimal digits. *)
Lemma to_hex_app l b : to_hex (l ++ [b]) =
  (to_hex l +:+ String (hex_digit (Z.land (Z.shiftr b 4) 15)) EmptyString
            +:+ String (hex_digit (Z.land b 15)) EmptyString)%string.
Proof. unfold to_hex. by rewrite foldl_snoc. Qed.

Lemma to_hex_length l : String.length (to_hex l) = (2 * length l)%nat.
Proof.
  induction l as [|b l IH] using rev_ind; [done|].
  rewrite to_hex_app, !length_append, IH, length_app. cbn. lia.
Qed.

Definition hex_chars : list Ascii.ascii := to_list dec2hex.

Lemma hex_digit_in x : hex_digit (Z.land x 15) ∈ hex_chars.
Proof.
  assert (0 ≤ Z.land x 15 < 16) as Hr.
  { change 15 with (Z.ones 4). rewrite Z.land_ones by lia. apply (Z.mod_pos_bound x (2 ^ 4)). lia. }
  generalize dependent (Z.land x 15). intros y Hy.
  assert (y ∈ seqZ 0 16) as Hin by (apply elem_of_seqZ; lia).
  assert (Forall (λ y, hex_digit y ∈ hex_chars) (seqZ 0 16)) as HF.
  { refine (bool_decide_unpack _ _). vm_compute. exact I. }
  rewrite Forall_forall in HF. auto.
Qed.

Lemma to_hex_chars l : Forall (λ c, c ∈ hex_chars) (to_list (to_hex l)).
Proof.
  induction l as [|b l IH] using rev_ind; [constructor|].
  rewrite to_hex_app, !to_list_append, !Forall_app. split_and!; [done|..];
    (constructor; [apply hex_digit_in|constructor]).
Qed.

Lemma to_hex_lacks c l : c ∉ hex_chars → lacks c (to_hex l).
Proof.
  intros Hc Hin. apply Hc. pose proof (to_hex_chars l) as HF. rewrite Forall_forall in HF. by apply HF.
Qed.

(** A list is determined by its parts around the last separator. *)
Lemma app_last_sep {A} (c : A) l1 r1 l2 r2 :
  c ∉ r1 → c ∉ r2 → l1 ++ c :: r1 = l2 ++ c :: r2 → l1 = l2 ∧ r1 = r2.
Proof.
  intros H1 H2. revert l2. induction l1 as [|x l1 IH]; intros [|y l2] E; injection E.
  - by intros ->.
  - intros -> ->. destruct H1. set_solver.
  - intros <- ->. destruct H2. set_solver.
  - intros E' ->. by destruct (IH _ E') as [-> ->].
Qed.

(** What the salt generator can produce: eight upper-case hexadecimal digits. *)
Definition is_salt (s : string) : Prop :=
  String.length s = 8%nat ∧ Forall (λ c, String c EmptyString ∈ hex) (to_list s).

Lemma salt_lacks c s : String c EmptyString ∉ hex → is_salt s → lacks c s.
Proof. intros Hc [_ HF] Hin. rewrite Forall_forall in HF. by apply Hc, HF. Qed.

Lemma hex_entry i : 0 ≤ i < 16 → ∃ c, vget hex i = Ret (String c EmptyString).
Proof.
  intros Hi. destruct (vget_is_Ret hex i) as [s Hs]; [cbn; lia|].
  assert (Forall (λ s, String.length s = 1%nat) hex) as HF
    by (refine (bool_decide_unpack _ _); vm_compute; exact I).
  pose proof Hs as [_ Hl]%vget_Ret. rewrite Forall_lookup in HF. specialize (HF _ _ Hl).
  destruct s as [|c [|]]; try done. by exists c.
Qed.

Lemma hex_inj i j s : 0 ≤ i < 16 → 0 ≤ j < 16 → vget hex i = Ret s → vget hex j = Ret s → i = j.
Proof.
  intros Hi Hj [_ H1]%vget_Ret [_ H2]%vget_Ret.
  assert (NoDup hex) as Hnd by (refine (bool_decide_unpack _ _); vm_compute; exact I).
  pose proof (NoDup_lookup _ _ _ _ Hnd H1 H2). lia.
Qed.

Lemma salt_loop dist :
  (∀ i, 0 ≤ i < 8 → 0 ≤ dist i < 16) →
  returns (generate_random_salt dist) (λ s, String.length s = 8%nat ∧
    ∀ i, 0 ≤ i < 8 → ∃ c, vget hex (dist i) = Ret (String c EmptyString) ∧
      to_list s !! Z.to_nat i = Some c).
Proof.
  intros Hd. unfold generate_random_salt, for_range.
  eapply returns_mono; [apply (foldM_inv _ (λ pre s, String.length s = length pre ∧
    ∀ i, 0 ≤ i < Z.of_nat (length pre) → ∃ c, vget hex (dist i) = Ret (String c EmptyString) ∧
      to_list s !! Z.to_nat i = Some c))|].
  - split; [done|]. cbn. lia.
  - intros pre i post s Hseq [Hl Hpre].
    assert (i = Z.of_nat (length pre) ∧ i < 8) as [-> Hi].
    { assert (seqZ 0 (8 - 0) !! length pre = Some i) as Hi
        by (rewrite Hseq; by apply list_lookup_middle).
      apply lookup_seqZ in Hi. lia. }
    destruct (hex_entry (dist (Z.of_nat (length pre)))) as [c Hc]; [apply Hd; lia|].
    rewrite Hc. cbn [mbind outcome_bind]. apply returns_Ret.
    rewrite length_append, length_app, Hl. split; [done|]. intros i Hi'.
    rewrite to_list_append. cbn [length] in Hi'.
    destruct (decide (i = Z.of_nat (length pre))) as [->|Hne].
    + exists c. split; [done|]. rewrite lookup_app_r by (rewrite length_to_list; lia).
      rewrite length_to_list, Hl, Nat2Z.id, Nat.sub_diag. done.
    + destruct (Hpre i) as (c' & H1 & H2); [lia|]. exists c'. split; [done|].
      by apply lookup_app_l_Some.
  - intros s [Hl Hs]. rewrite length_seqZ in *. split; [done|]. intros i Hi. apply Hs. lia.
Qed.

Lemma loop_salt dist s :
  String.length s = 8%nat ∧
    (∀ i, 0 ≤ i < 8 → ∃ c, vget hex (dist i) = Ret (String c EmptyString) ∧ to_list s !! Z.to_nat i = Some c) →
  is_salt s.
Proof.
  intros [Hl Hs]. split; [done|]. apply Forall_lookup. intros k c Hk.
  destruct (Hs (Z.of_nat k)) as (c' & Hc & Hk').
  { apply lookup_lt_Some in Hk. rewrite length_to_list in Hk. lia. }
  rewrite Nat2Z.id in Hk'. simplify_eq. apply vget_Ret in Hc as [_ Hc].
  by eapply list_elem_of_lookup_2.
Qed.

(** ** Main theorems *)

(** The salt: for draws in the range of the distribution, [0, 15],
    [generate_random_salt] returns eight upper-case hexadecimal digits (no
    access to the table is out of range), and different draws give different
    salts, so that the salt carries all 32 bits it is drawn from. *)
Theorem salt_uniform dist1 dist2 :
  (∀ i, 0 ≤ i < 8 → 0 ≤ dist1 i < 16) → (∀ i, 0 ≤ i < 8 → 0 ≤ dist2 i < 16) →
  returns (generate_random_salt dist1) (λ s1, is_salt s1 ∧
    returns (generate_random_salt dist2) (λ s2, is_salt s2 ∧
      (s1 = s2 ↔ ∀ i, 0 ≤ i < 8 → dist1 i = dist2 i))).
Proof.
  intros H1 H2.
  eapply returns_mono; [by apply salt_loop|]. intros s1 [L1 S1]. split; [by apply (loop_salt dist1)|].
  eapply returns_mono; [by apply salt_loop|]. intros s2 [L2 S2]. split; [by apply (loop_salt dist2)|].
  split.
  - intros <- i Hi. destruct (S1 i Hi) as (c & Hc & Hk), (S2 i Hi) as (c' & Hc' & Hk').
    simplify_eq. apply hex_inj with (String c EmptyString); auto.
  - intros E. apply to_list_inj, list_eq. intros k.
    destruct (decide (k < 8)%nat) as [Hk|Hk].
    + destruct (S1 (Z.of_nat k)) as (c & Hc & Hk1); [lia|].
      destruct (S2 (Z.of_nat k)) as (c' & Hc' & Hk2); [lia|].
      rewrite Nat2Z.id in Hk1, Hk2. rewrite E, Hc' in Hc by lia. congruence.
    + rewrite !lookup_ge_None_2; [done|rewrite length_to_list; lia..].
Qed.

Lemma salt_uniform_witness :
  (∀ i, 0 ≤ i < 8 → 0 ≤ i < 16) ∧ (∀ i, 0 ≤ i < 8 → 0 ≤ 15 - i < 16) ∧
  generate_random_salt (λ i, i) = Ret "01234567" ∧
  returns (generate_random_salt (λ i, i)) (λ s1, is_salt s1 ∧
    returns (generate_random_salt (λ i, 15 - i)) (λ s2, is_salt s2 ∧
      (s1 = s2 ↔ ∀ i, 0 ≤ i < 8 → i = 15 - i))).
Proof.
  assert (∀ i, 0 ≤ i < 8 → 0 ≤ i < 16) as H1 by lia.
  assert (∀ i, 0 ≤ i < 8 → 0 ≤ 15 - i < 16) as H2 by lia.
  split; [exact H1|]. split; [exact H2|]. split; [reflexivity|].
  exact (salt_uniform (λ i, i) (λ i, 15 - i) H1 H2).
Defined.

Lemma hash_credentials_spec uninit extra p s :
  length uninit = 64%nat → length extra = 64%nat →
  hash_credentials uninit extra p s =
    Ret (mkCredentialHash 0 s (to_hex (fips_sha256 (bytes_of (passphrase_salt p s))))).
Proof.
  intros Hu He.
  destruct (SHA256_call_fips uninit extra (bytes_of (passphrase_salt p s)) Hu He (bytes_of_byte _))
    as (r & Hr & E).
  unfold hash_credentials. rewrite Hr. destruct r as [text st]. cbn in *. by rewrite E.
Qed.

(** C26. What is stored for a user. For a generated salt, [hash_credentials]
    returns the salt and the FIPS 180-4 SHA256 of [passphrase:salt] as 64
    lower-case hexadecimal digits, and the stored text
    [iterations:salt:hash] can be read back: cutting it at the colons gives
    exactly these fields, so that a later log-in can recompute the hash. *)
Theorem stored_credential uninit extra passphrase s :
  length uninit = 64%nat → length extra = 64%nat → is_salt s →
  returns (hash_credentials uninit extra passphrase s) (λ c,
    salt c = s ∧ hash c = to_hex (fips_sha256 (bytes_of (passphrase_salt passphrase s))) ∧
    String.length (hash c) = 64%nat ∧ Forall (λ c, c ∈ hex_chars) (to_list (hash c)) ∧
    parse_credential (to_string c) = Some ("0", salt c, hash c)).
Proof.
  intros Hu He Hs. rewrite hash_credentials_spec by done. apply returns_Ret. cbn [salt hash].
  split_and!; [done|done| |apply to_hex_chars|].
  - by rewrite to_hex_length, fips_sha256_length by apply bytes_of_byte.
  - unfold parse_credential, to_string. cbn [iterations salt hash].
    rewrite cut_append by (apply pretty_Z_lacks, (bool_decide_unpack (colon ∉ decimal_chars)); vm_compute; exact I). cbn [mbind option_bind].
    rewrite cut_append by (apply salt_lacks; [|done];
      apply (bool_decide_unpack (String colon EmptyString ∉ hex)); vm_compute; exact I). done.
Qed.

(** The hashed text separates pass phrase and salt when the salts have
    no colon, as generated salts have none: equal texts come from equal
    pairs, whatever the pass phrases contain. With arbitrary salts this
    fails. *)
Theorem passphrase_salt_injective :
  (∀ p1 s1 p2 s2, lacks colon s1 → lacks colon s2 →
    passphrase_salt p1 s1 = passphrase_salt p2 s2 → p1 = p2 ∧ s1 = s2) ∧
  passphrase_salt "a" "b:c" = passphrase_salt "a:b" "c".
Proof.
  split; [|reflexivity]. intros p1 s1 p2 s2 H1 H2 E.
  apply (f_equal (λ s, to_list s)) in E. unfold passphrase_salt in E.
  rewrite !to_list_append in E. cbn in E.
  destruct (app_last_sep colon (to_list p1) (to_list s1) (to_list p2) (to_list s2)) as [Ep Es]; try done.
  split; by apply to_list_inj.
Qed.

Lemma stored_credential_witness :
  length (replicate 64 0) = 64%nat ∧ is_salt "0123CDEF" ∧
  returns (hash_credentials (replicate 64 0) (replicate 64 0) "sec:ret" "0123CDEF") (λ c,
    parse_credential (to_string c) = Some ("0", salt c, hash c)).
Proof.
  assert (is_salt "0123CDEF") as Hs.
  { split; [reflexivity|]. refine (bool_decide_unpack _ _). vm_compute. exact I. }
  split; [reflexivity|]. split; [exact Hs|].
  eapply returns_mono; [exact (stored_credential (replicate 64 0) (replicate 64 0) "sec:ret" "0123CDEF" eq_refl eq_refl Hs)|].
  intros c H. apply H.
Defined.

(** The check of a pass phrase "password" with salt "ABCD1234". *)
Example credential_text :
  (c ← hash_credentials (replicate 64 0) (replicate 64 0) "password" "ABCD1234"; Ret (stake 20 (to_string c))) =
  Ret "0:ABCD1234:6599af152".
Proof. vm_compute. reflexivity. Qed.
