(* ===== verification/Comm.v ===== *)
(** * The connection socket (pmud/src/pnet/comm_static.h)

    [CommStatic] over an interface of the operating system's sockets: what is
    emitted, how input is read, and the two sanitizers. *)
From S2P Require Import Prelude.
From S2P Require Import Text.

(** The socket calls the code makes, on a state of the system. [recv_peek]
    is [recv(fd, buffer, n, MSG_PEEK)]; the reads return the bytes they put
    into the buffer with the returned count. *)
Class Socket := {
  kernel : Type;
  send : kernel → Z → string → kernel * Z;
  recv_peek : kernel → Z → Z → Z * list Z;
  read : kernel → Z → Z → kernel * Z * list Z;
  close : kernel → Z → kernel
}.

(** What POSIX says of [read] and [recv]: the result is -1, or the number of
    bytes stored, which is at most the number asked for. *)
Class SocketLaws (S : Socket) := {
  read_count k fd n k' r bs : 0 ≤ n → read k fd n = (k', r, bs) →
    (r = -1 ∧ bs = []) ∨ (r = Z.of_nat (length bs) ∧ r ≤ n);
  peek_count k fd n r bs : 0 ≤ n → recv_peek k fd n = (r, bs) →
    (r = -1 ∧ bs = []) ∨ (r = Z.of_nat (length bs) ∧ r ≤ n);
  read_bytes k fd n k' r bs : read k fd n = (k', r, bs) → Forall (λ b, 0 ≤ b < 256) bs
}.

Definition BUFFER_MAX_READ : Z := 512.
Definition BUFFER_PADDING : Z := 128.
Definition BUFFER_SIZE : Z := BUFFER_MAX_READ + BUFFER_PADDING.

Definition NEWLINE : string := String (Ascii.ascii_of_nat 10) EmptyString.
Definition CR : string := String (Ascii.ascii_of_nat 13) EmptyString.

Definition BANNER : list string :=
  ["                           _ ";
   "                          | |";
   " _ __  _ __ ___  _   _  __| |";
   "| '_ \| '_ ` _ \| | | |/ _` |";
   "| |_) | | | | | | |_| | (_| |";
   "| .__/|_| |_| |_|\__,_|\__,_|";
   "| |";
   "|_|"].

(** ** Sanitizers *)

(** The character of a byte. *)
Definition char_of (b : Z) : Ascii.ascii := Ascii.ascii_of_N (Z.to_N b).

(** The loop of [lite_sanitize] from index [i]; every access is checked
    against the array. *)
Fixpoint lite_sanitize_loop (fuel : nat) (buffer : list Z) (i : Z) (cleaned : string) : outcome string :=
  match fuel with
  | O => NoFuel
  | S fuel =>
      c ← vget buffer i;
      if decide (c ≠ 0 ∧ i < BUFFER_MAX_READ) then
        lite_sanitize_loop fuel buffer (i + 1)
          (if decide (10 ≤ c ≤ 127)%Z then cleaned +:+ String (char_of c) EmptyString else cleaned)%string
      else Ret cleaned
  end.

(** 513 evaluations of the condition are enough. *)
Definition lite_sanitize (buffer : list Z) : outcome string := lite_sanitize_loop 513 buffer 0 "".

Definition printable (c : Ascii.ascii) : Prop := 32 ≤ Z.of_N (Ascii.N_of_ascii c) ≤ 127.
#[export] Instance printable_dec c : Decision (printable c).
Proof. unfold printable. apply _. Defined.

Fixpoint sanitize (input : string) : string :=
  match input with
  | EmptyString => EmptyString
  | String c input => if decide (printable c) then String c (sanitize input) else sanitize input
  end.

(** ** Communication *)
Section comm.
Context {S : Socket}.

(** The constructor: a descriptor of 0 or less is refused. *)
Definition CommStatic (connection : Z) : outcome Z :=
  if decide (connection ≤ 0) then
    Throw ("Connection " +:+ pretty connection +:+ " is invalid!")%string
  else Ret connection.

Definition emit (k : kernel) (fd : Z) (emission : string) : kernel * bool :=
  if decide (0 < String.length emission)%nat then
    let '(k, bytes_sent) := send k fd emission in
    (k, negb (bool_decide (bytes_sent = -1)))
  else (k, true).

(** [a && b], where both may act on the system. *)
Definition and_then (a : kernel → kernel * bool) (b : kernel → kernel * bool) (k : kernel) : kernel * bool :=
  let '(k, ok) := a k in if ok then b k else (k, false).

Definition emit_prompt (k : kernel) (fd : Z) (prompt : string) : kernel * bool :=
  emit k fd (prompt +:+ "> ")%string.

Definition emit_line (k : kernel) (fd : Z) (emission : string) : kernel * bool :=
  and_then (λ k, emit k fd emission)
    (and_then (λ k, emit k fd CR) (λ k, emit k fd NEWLINE)) k.

Fixpoint emit_lines (k : kernel) (fd : Z) (emission : list string) : kernel * bool :=
  match emission with
  | [] => (k, true)
  | line :: rest =>
      let '(k, ok) := emit_line k fd line in
      if ok then emit_lines k fd rest else (k, false)
  end.

Definition emit_banner (k : kernel) (fd : Z) : kernel * bool := emit_lines k fd BANNER.

Definition has_data (k : kernel) (fd : Z) : bool :=
  bool_decide (0 < (recv_peek k fd BUFFER_MAX_READ).1).

(** The buffer is cleared and the bytes read are stored at its start. The
    results are [num_read] and the text. *)
Definition read_from_user (k : kernel) (fd : Z) : outcome (kernel * Z * string) :=
  let buffer := replicate (Z.to_nat BUFFER_SIZE) 0 in
  let '(k, num_read, bs) := read k fd BUFFER_MAX_READ in
  if decide (length buffer < length bs)%nat then Undef
  else
    let buffer := bs ++ drop (length bs) buffer in
    b0 ← vget buffer 0;
    if decide (b0 = 255 ∨ (num_read = 1 ∧ b0 = 4)) then Ret (k, 0, "")
    else text ← lite_sanitize buffer; Ret (k, num_read, text).
End comm.

(** ** Specification *)

(** What a user sees of a list of lines. *)
Definition crlf (line : string) : string := (line +:+ CR +:+ NEWLINE)%string.

(** The bytes up to the first zero. *)
Fixpoint c_string (bs : list Z) : list Z :=
  match bs with
  | [] => []
  | b :: bs => if decide (b = 0) then [] else b :: c_string bs
  end.

Definition keeps_byte (b : Z) : Prop := 10 ≤ b ≤ 127.
#[export] Instance keeps_byte_dec b : Decision (keeps_byte b).
Proof. unfold keeps_byte. apply _. Defined.

(** The text [lite_sanitize] keeps of the bytes read. *)
Definition lite_text (bs : list Z) : string := of_list (char_of <$> filter keeps_byte (c_string bs)).

(** ** Helper lemmas *)
Lemma of_list_app l1 l2 : of_list (l1 ++ l2) = (of_list l1 +:+ of_list l2)%string.
Proof. induction l1 as [|c l1 IH]; [done|]. cbn. by rewrite IH. Qed.

Lemma c_string_length bs : (length (c_string bs) ≤ length bs)%nat.
Proof. induction bs as [|b bs IH]; cbn; [lia|]. case_decide; cbn; lia. Qed.

Lemma lite_sanitize_loop_spec fuel pre bs pad cleaned :
  (length pre + length bs ≤ 512)%nat → pad ≠ [] → Forall (λ b, b = 0) pad →
  (length bs < fuel)%nat →
  lite_sanitize_loop fuel (pre ++ bs ++ pad) (Z.of_nat (length pre)) cleaned =
    Ret (cleaned +:+ lite_text bs)%string.
Proof.
  revert pre bs cleaned. induction fuel as [|fuel IH]; intros pre bs cleaned Hl Hp Hz Hf; [lia|].
  cbn [lite_sanitize_loop].
  assert (∀ x rest, vget (pre ++ x :: rest) (Z.of_nat (length pre)) = Ret x) as Hget.
  { intros x rest. apply vget_Ret. rewrite Nat2Z.id. split; [lia|]. by apply list_lookup_middle. }
  destruct bs as [|b bs].
  - destruct pad as [|z pad]; [done|]. apply Forall_cons in Hz as [-> Hz].
    rewrite app_nil_l, Hget. cbn [mbind outcome_bind].
    rewrite decide_False by tauto. unfold lite_text. cbn. by rewrite append_nil_r.
  - rewrite <-app_comm_cons, Hget. cbn [mbind outcome_bind]. unfold lite_text. cbn [c_string].
    destruct (decide (b = 0)) as [->|Hb].
    + rewrite decide_False by tauto. cbn. by rewrite append_nil_r.
    + cbn [length] in *. rewrite decide_True by (unfold BUFFER_MAX_READ; lia).
      specialize (IH (pre ++ [b]) bs). rewrite length_app, <-app_assoc in IH. cbn [length app] in IH.
      replace (Z.of_nat (length pre) + 1) with (Z.of_nat (length pre + 1)) by lia.
      rewrite IH by (done || lia). unfold lite_text.
      destruct (decide (10 ≤ b ≤ 127)).
      * rewrite filter_cons_True by done. cbn. by rewrite <-append_assoc.
      * by rewrite filter_cons_False by done.
Qed.

Lemma lite_sanitize_fuel fuel bs :
  (length bs ≤ 512)%nat → (512 < fuel)%nat →
  lite_sanitize_loop fuel (bs ++ drop (length bs) (replicate 640 0)) 0 "" = Ret (lite_text bs).
Proof.
  intros Hl Hf. rewrite drop_replicate.
  pose proof (lite_sanitize_loop_spec fuel [] bs (replicate (640 - length bs) 0) "") as H.
  rewrite append_nil_l in H. apply H.
  - cbn. lia.
  - destruct (640 - length bs)%nat eqn:E; [lia|done].
  - by apply Forall_replicate.
  - lia.
Qed.

Lemma lite_sanitize_spec bs :
  (length bs ≤ 512)%nat →
  lite_sanitize (bs ++ drop (length bs) (replicate 640 0)) = Ret (lite_text bs).
Proof. intros Hl. apply lite_sanitize_fuel; [done|lia]. Qed.

(** A concrete system for the witnesses: pending input, one chunk per read,
    and the text that was sent. *)
Definition script : Type := list (list Z) * string.

#[export] Instance Script : Socket := {|
  kernel := script;
  send k _ s := ((k.1, k.2 +:+ s)%string, Z.of_nat (String.length s));
  recv_peek k _ n := match k.1 with
    | [] => (-1, [])
    | bs :: _ => let bs := (λ b, b mod 256) <$> take (Z.to_nat n) bs in (Z.of_nat (length bs), bs)
    end;
  read k _ n := match k.1 with
    | [] => (k, -1, [])
    | bs :: rest => let bs := (λ b, b mod 256) <$> take (Z.to_nat n) bs in
        ((rest, k.2), Z.of_nat (length bs), bs)
    end;
  close k _ := ([], k.2)
|}.

Lemma script_bytes (n : nat) (bs : list Z) : Forall (λ b, 0 ≤ b < 256) ((λ b, b mod 256) <$> take n bs).
Proof. apply Forall_fmap, Forall_forall. intros b _. apply Z.mod_pos_bound. lia. Qed.

(** [read] and [recv] are called with a positive count. *)
#[export] Instance Script_laws : SocketLaws Script.
Proof.
  split; cbn; intros [inp out] fd n; cbn; destruct inp as [|bs rest]; intros; simplify_eq/=; auto.
  - right. split; [done|]. rewrite length_fmap, length_take. lia.
  - right. split; [done|]. rewrite length_fmap, length_take. lia.
  - apply script_bytes.
Qed.

Lemma to_list_of_list l : to_list (of_list l) = l.
Proof. apply String.list_ascii_of_string_of_list_ascii. Qed.

Lemma to_list_sanitize s : to_list (sanitize s) = filter printable (to_list s).
Proof.
  induction s as [|c s IH]; [done|]. cbn [sanitize String.list_ascii_of_string].
  case_decide as Hc.
  - rewrite filter_cons_True by done. cbn. by rewrite IH.
  - by rewrite filter_cons_False.
Qed.

Lemma sanitize_append s t : sanitize (s +:+ t)%string = (sanitize s +:+ sanitize t)%string.
Proof.
  apply to_list_inj. by rewrite to_list_append, !to_list_sanitize, to_list_append, filter_app.
Qed.

(** ** Main theorems *)

(** C39. Reading never leaves the buffer, whatever arrives, and is total:
    a read that brings nothing (error or end of file) gives its count and the
    empty text; a first byte 255 (a telnet command) or the single byte 4
    (control-D) gives count 0; and otherwise the text is what precedes the
    first zero byte, without the bytes below 10 and above 127. *)
Theorem read_from_user_total {S : Socket} {L : SocketLaws S} k fd :
  let '(k', r, bs) := read k fd BUFFER_MAX_READ in
  read_from_user k fd =
    match bs with
    | [] => Ret (k', r, "")
    | b :: bs' =>
        if decide (b = 255 ∨ (b = 4 ∧ bs' = [])) then Ret (k', 0, "")
        else Ret (k', r, lite_text (b :: bs'))
    end.
Proof.
  destruct (read k fd BUFFER_MAX_READ) as [[k' r] bs] eqn:Hr.
  pose proof (read_count k fd BUFFER_MAX_READ k' r bs ltac:(done) Hr) as Hc.
  assert (length bs ≤ 512)%nat as Hl.
  { destruct Hc as [[_ ->]|[? Hle]]; cbn; [lia|]. unfold BUFFER_MAX_READ in Hle. lia. }
  unfold read_from_user. rewrite Hr. change (Z.to_nat BUFFER_SIZE) with 640%nat.
  rewrite decide_False by (rewrite length_replicate; lia).
  rewrite lite_sanitize_spec by done. destruct bs as [|b bs].
  - rewrite drop_0. rewrite app_nil_l. assert (vget (replicate 640 0) 0 = Ret 0) as -> by done.
    cbn [mbind outcome_bind]. rewrite decide_False by lia. done.
  - assert (vget ((b :: bs) ++ drop (length (b :: bs)) (replicate 640 0)) 0 = Ret b) as ->.
    { apply vget_Ret. split; [lia|done]. }
    cbn [mbind outcome_bind]. destruct Hc as [[_ ?]|[-> _]]; [done|].
    assert ((b = 255 ∨ Z.of_nat (length (b :: bs)) = 1 ∧ b = 4) ↔ (b = 255 ∨ b = 4 ∧ bs = [])) as Hiff.
    { destruct bs; cbn; [tauto|]. split; [|naive_solver]. intros [?|[? _]]; [by left|lia]. }
    destruct (decide (b = 255 ∨ (b = 4 ∧ bs = []))) as [Hb|Hb].
    + rewrite decide_True by tauto. done.
    + rewrite decide_False by tauto. done.
Qed.

(** [sanitize] keeps exactly the printable characters, in order: it is
    idempotent, and what it returns contains neither a carriage return nor a
    line feed, so that a command is always one line. *)
Theorem sanitize_printable s :
  to_list (sanitize s) = filter printable (to_list s) ∧
  sanitize (sanitize s) = sanitize s ∧
  (∀ c, c ∈ to_list (sanitize s) ↔ c ∈ to_list s ∧ printable c) ∧
  (Ascii.ascii_of_nat 10 ∉ to_list (sanitize s)) ∧ (Ascii.ascii_of_nat 13 ∉ to_list (sanitize s)).
Proof.
  assert (∀ c, c ∈ to_list (sanitize s) ↔ c ∈ to_list s ∧ printable c) as Hc.
  { intros c. rewrite to_list_sanitize, list_elem_of_filter. tauto. }
  split_and!; [apply to_list_sanitize| |done| |].
  - apply to_list_inj. rewrite !to_list_sanitize. by rewrite list_filter_filter_l.
  - rewrite Hc. intros [_ [H _]]. vm_compute in H. done.
  - rewrite Hc. intros [_ [H _]]. vm_compute in H. done.
Qed.

(** What the peer of a connection has been sent. A [send] that does not fail
    delivers everything: see [emit_partial] for a kernel that does less. *)
Class Delivery (S : Socket) (delivered : kernel → Z → string) := {
  send_delivers k fd s k' r : send k fd s = (k', r) →
    (r = -1 ∧ delivered k' fd = delivered k fd) ∨
    (r ≠ -1 ∧ delivered k' fd = (delivered k fd +:+ s)%string)
}.

#[export] Instance Script_delivery : Delivery Script (λ k _, k.2).
Proof. split. cbn. intros k fd s k' r ?; simplify_eq/=. right. split; [lia|done]. Qed.

Section delivery.
Context {S : Socket} {delivered : kernel → Z → string} {D : Delivery S delivered}.

(** Running [m] sends [s]; when it fails, only a strict prefix of it. *)
Definition sends (fd : Z) (s : string) (m : kernel → kernel * bool) : Prop :=
  ∀ k, let '(k', ok) := m k in
    if ok then delivered k' fd = (delivered k fd +:+ s)%string
    else ∃ done rest, (done +:+ rest = s)%string ∧ rest ≠ "" ∧
      delivered k' fd = (delivered k fd +:+ done)%string.

Lemma emit_sends fd s : sends fd s (λ k, emit k fd s).
Proof.
  intros k. unfold emit. case_decide as Hs.
  - destruct (send k fd s) as [k' r] eqn:Hk.
    destruct (send_delivers k fd s k' r Hk) as [[-> Hd]|[Hr Hd]].
    + rewrite bool_decide_true by done. cbn. exists "", s. rewrite append_nil_r.
      split_and!; [done| |done]. intros ->. cbn in Hs. lia.
    + rewrite bool_decide_false by done. exact Hd.
  - destruct s; [|cbn in Hs; lia]. by rewrite append_nil_r.
Qed.

Lemma and_then_sends fd s t m1 m2 :
  sends fd s m1 → sends fd t m2 → sends fd (s +:+ t)%string (and_then m1 m2).
Proof.
  intros H1 H2 k. unfold and_then. specialize (H1 k). destruct (m1 k) as [k1 [|]].
  - specialize (H2 k1). destruct (m2 k1) as [k2 [|]].
    + by rewrite H2, H1, append_assoc.
    + destruct H2 as (d & r & <- & Hr & ->). exists (s +:+ d)%string, r.
      split_and!; [by rewrite append_assoc|done|by rewrite H1, append_assoc].
  - destruct H1 as (d & r & <- & Hr & ->). exists d, (r +:+ t)%string.
    rewrite append_assoc. split_and!; [done| |done]. by destruct r.
Qed.

Lemma emit_line_sends fd s : sends fd (crlf s) (λ k, emit_line k fd s).
Proof. apply and_then_sends; [|apply and_then_sends]; apply emit_sends. Qed.

Lemma emit_lines_sends fd lines :
  sends fd (String.concat "" (crlf <$> lines)) (λ k, emit_lines k fd lines).
Proof.
  induction lines as [|l lines IH].
  - intros k. cbn. by rewrite append_nil_r.
  - change (String.concat "" (crlf <$> l :: lines)) with
      (String.concat "" ([crlf l] ++ (crlf <$> lines))). rewrite concat_app.
    exact (and_then_sends fd (crlf l) _ (λ k, emit_line k fd l) _ (emit_line_sends fd l) IH).
Qed.
End delivery.

(** Emitting lines: when every [send] delivers all or fails, the lines
    arrive each followed by CR LF, and a result [false] means that a strict
    prefix has arrived. *)
Theorem emit_lines_delivers {S : Socket} {delivered : kernel → Z → string} {D : Delivery S delivered} k fd lines :
  let '(k', ok) := emit_lines k fd lines in
  let text := String.concat "" (crlf <$> lines) in
  if ok then delivered k' fd = (delivered k fd +:+ text)%string
  else ∃ done rest, (done +:+ rest = text)%string ∧ rest ≠ "" ∧
    delivered k' fd = (delivered k fd +:+ done)%string.
Proof. exact (emit_lines_sends fd lines k). Qed.

(** A kernel that accepts at most four bytes per [send], as a non-blocking
    socket with a full buffer may. *)
Definition Short : Socket := {|
  kernel := string;
  send k _ s := ((k +:+ stake 4 s)%string, Z.of_nat (String.length (stake 4 s)));
  recv_peek _ _ _ := (-1, []);
  read k _ _ := (k, -1, []);
  close k _ := k
|}.

(** [emit] does not compare the count [send] returns with the length:
    on a system that takes part of the text, [emit] and [emit_line] report
    success although the rest of the text is lost. *)
Theorem emit_partial :
  emit (S := Short) "" 5 "Welcome" = ("Welc", true) ∧
  emit_line (S := Short) "" 5 "Welcome" = ("Welc" +:+ CR +:+ NEWLINE, true)%string.
Proof. split; reflexivity. Qed.

Lemma read_from_user_total_witness :
  SocketLaws Script ∧
  read_from_user (S := Script) ([[104; 7; 105; 10; 0; 65]], "") 3 = Ret (([], ""), 6, "hi" +:+ NEWLINE)%string.
Proof.
  split; [exact Script_laws|].
  pose proof (read_from_user_total (S := Script) ([[104; 7; 105; 10; 0; 65]], "") 3) as H.
  vm_compute in H. vm_compute. exact H.
Defined.

Lemma emit_lines_delivers_witness :
  Delivery Script (λ k _, k.2) ∧
  (emit_lines (S := Script) ([], "Hi") 3 ["a"; "b"]).1.2 =
    ("Hi" +:+ "a" +:+ CR +:+ NEWLINE +:+ "b" +:+ CR +:+ NEWLINE)%string.
Proof.
  split; [exact Script_delivery|].
  exact (emit_lines_delivers (S := Script) (delivered := λ k _, k.2) ([], "Hi") 3 ["a"; "b"]).
Defined.
