(* ===== verification/Controllers.v ===== *)
(** * Messages and controllers (pmud/src/controllers, pmud/src/event)

    The messages of global_type_id.h, and the message handlers of
    [UserClient], [DefaultController], [LoginController], [CommandActor] and
    [EventRecorderActor]. A handler is a function from the actor's state and a
    message to its new state and what it sends, in order; a message an actor
    has no handler for leaves it as it is. *)
From S2P Require Import Prelude.
From S2P Require Import Text.
From S2P Require Import Word.
From S2P Require Import BlockHasher.
From S2P Require Import Sha256.
From S2P Require Import Security.

(** ** Messages *)
Inductive msg :=
  (** server *)
  | AcceptConnection | StartServer | GoodbyeServer
  (** connection *)
  | FromUserGetInput | GoodbyeConnection
  (** user client *)
  | ToUserPrompt (prompt : string) | ToUserEmit (emission : string)
  (** commands and controllers *)
  | PerformWelcome | OnUserInput (input : string)
  | LoginControllerStart | LoginControllerEnd
  (** events *)
  | EventUserCreate (username passphrase : string)
  | EventUserLogin (username : string) | EventUserLogout (username : string)
  (** storage *)
  | StorageEventStore (event_name : string) (fields : gmap string string).

#[export] Instance msg_eq_dec : EqDecision msg.
Proof. solve_decision. Defined.

(** The actors of one connection, and those they share. *)
Inductive ref := RConnection | RCommand | RLogin | RDefault | REvents | RStorage | RServer.

#[export] Instance ref_eq_dec : EqDecision ref.
Proof. solve_decision. Defined.

(** What a handler does to the outside: [send], [send_exit], [spawn], and
    changes of the registry of named actors. *)
Inductive effect :=
  | Send (to : ref) (m : msg)
  | SendExit (to : ref)
  | Spawn (a : ref)
  | RegistryPut (name : string)
  | RegistryErase (name : string).

#[export] Instance effect_eq_dec : EqDecision effect.
Proof. solve_decision. Defined.

(** ** user_client.h *)
Section user_client.
(** [m_connection_actor]: where prompts and text go. *)
Variable parent : ref.

Definition DEFAULT_PROMPT : string := "pmud".
Definition prompt_user (prompt : string) : list effect := [Send parent (ToUserPrompt prompt)].
Definition emit_user (emission : string) : list effect := [Send parent (ToUserEmit emission)].
Definition end_controller : list effect := [Send parent LoginControllerEnd].
Definition funky_banner : list effect :=
  emit_user "-=-=-=-=-=-=--=--==-==-=---=--=-==-==-=-=-=-===--=".
End user_client.

(** ** default_controller.h: the parent is the command actor *)
Definition newline : string := String (Ascii.ascii_of_nat 10) EmptyString.

Definition emit_help : list effect :=
  funky_banner RCommand ++
  emit_user RCommand ("Primordia MUD Help" +:+ newline)%string ++
  emit_user RCommand "exit or quit             quits the MUD" ++
  emit_user RCommand "help                     this message" ++
  funky_banner RCommand ++
  emit_user RCommand newline.

Definition default_handle (m : msg) : list effect :=
  match m with
  | OnUserInput input =>
      if decide (input = "help") then emit_help ++ prompt_user RCommand DEFAULT_PROMPT
      else if decide (input ≠ "") then
        emit_user RCommand ("Unknown command: " +:+ input)%string ++ prompt_user RCommand DEFAULT_PROMPT
      else prompt_user RCommand DEFAULT_PROMPT
  | _ => []
  end.

(** ** event_recorder_client.h *)
Definition record_event_user_create (username passphrase : string) : list effect :=
  [Send REvents (EventUserCreate username passphrase)].
Definition record_event_user_login (username : string) : list effect :=
  [Send REvents (EventUserLogin username)].
Definition record_event_user_logout (username : string) : list effect :=
  [Send REvents (EventUserLogout username)].

(** ** login_controller.h *)
Definition telnet (bs : list Z) : string := of_list ((λ b, Ascii.ascii_of_N (Z.to_N b)) <$> bs).
Definition SUPPRESS_ECHO_SEQUENCE : string := telnet [0xFF; 0xFB; 0x01].
Definition ENABLE_ECHO_SEQUENCE : string := telnet [0xFF; 0xFC; 0x01].

Record LoginController := mkLogin {
  username : string;
  password : string
}.

Definition login_new : LoginController := mkLogin "" "".

(** [password[i] = ' '] for every [i]. *)
Definition scrub (password : string) : string := of_list ((λ _, Ascii.ascii_of_nat 32) <$> to_list password).

Section login.
(** The uninitialised memory of the hash object, and the random draws. *)
Context (uninit extra : list Z) (dist : Z → Z).

Definition hash_and_scrub_password (st : LoginController) : outcome (LoginController * CredentialHash) :=
  salt ← generate_random_salt dist;
  hash ← hash_credentials uninit extra (password st) salt;
  Ret (mkLogin (username st) (scrub (password st)), hash).

Definition login_handle (st : LoginController) (m : msg) : outcome (LoginController * list effect) :=
  match m with
  | LoginControllerStart => Ret (st, prompt_user RCommand "enter username")
  | OnUserInput input =>
      if decide (username st = "") then
        Ret (mkLogin input (password st),
             emit_user RCommand SUPPRESS_ECHO_SEQUENCE ++ prompt_user RCommand "enter password")
      else if decide (password st = "") then
        Ret (mkLogin (username st) input,
             emit_user RCommand "" ++ prompt_user RCommand "confirm password")
      else if decide (password st = input) then
        '(st, hash) ← hash_and_scrub_password st;
        Ret (st,
          emit_user RCommand ENABLE_ECHO_SEQUENCE ++
          emit_user RCommand "" ++
          emit_user RCommand ("Welcome to Primordia " +:+ username st +:+ "!")%string ++
          emit_user RCommand "" ++
          record_event_user_create (username st) (to_string hash) ++
          end_controller RCommand)
      else
        Ret (st,
          emit_user RCommand "" ++
          emit_user RCommand "Passwords don't match, please try again." ++
          emit_user RCommand SUPPRESS_ECHO_SEQUENCE ++
          prompt_user RCommand "enter password")
  | _ => Ret (st, [])
  end.

(** The controller on a sequence of messages: its state, and all it sent. *)
Definition login_run (st : LoginController) (ms : list msg) : outcome (LoginController * list effect) :=
  foldM (λ '(st, out) m, '(st, e) ← login_handle st m; Ret (st, out ++ e)) (st, []) ms.
End login.

(** ** command_actor.h: the parent is the connection actor *)
Record CommandActor := mkCommand {
  m_active_controller : option ref;
  m_default_controller : ref
}.

(** The constructor spawns the default controller. *)
Definition command_new : CommandActor * list effect := (mkCommand None RDefault, [Spawn RDefault]).

(** Sending through a null actor pointer is undefined. *)
Definition command_handle (st : CommandActor) (m : msg) : outcome (CommandActor * list effect) :=
  match m with
  | PerformWelcome =>
      Ret (mkCommand (Some RLogin) (m_default_controller st),
           [Spawn RLogin; Send RLogin LoginControllerStart])
  | OnUserInput input =>
      match m_active_controller st with
      | None => Ret (st, prompt_user RConnection DEFAULT_PROMPT)
      | Some c => Ret (st, [Send c (OnUserInput input)])
      end
  | ToUserPrompt prompt => Ret (st, prompt_user RConnection prompt)
  | ToUserEmit emission => Ret (st, emit_user RConnection emission)
  | LoginControllerEnd =>
      match m_active_controller st with
      | None => Undef
      | Some c => Ret (mkCommand (Some (m_default_controller st)) (m_default_controller st),
                       SendExit c :: prompt_user RConnection DEFAULT_PROMPT)
      end
  | _ => Ret (st, [])
  end.

(** The functor attached to the exit of the actor. *)
Definition command_exit (st : CommandActor) : list effect :=
  match m_active_controller st with None => [] | Some c => [SendExit c] end ++
  [SendExit (m_default_controller st)].

(** ** event_recorder_actor.h *)
Definition EVENT_STREAM_NAME : string := "events".

Definition event_recorder_handle (m : msg) : list effect :=
  match m with
  | EventUserCreate username passphrase =>
      [Send RStorage (StorageEventStore "EventUserCreate"
        (<["passphrase" := passphrase]> {["username" := username]}))]
  | EventUserLogin username =>
      [Send RStorage (StorageEventStore "EventUserLogin" {["username" := username]})]
  | EventUserLogout username =>
      [Send RStorage (StorageEventStore "EventUserLogout" {["username" := username]})]
  | _ => []
  end.

(** ** Specification of the dialogue *)

(** The registrations among what a controller sent. *)
Definition registrations (out : list effect) : list (string * string) :=
  omap (λ e, match e with Send REvents (EventUserCreate u p) => Some (u, p) | _ => None end) out.

(** Whether the terminal's echo is suppressed after the text sent: the last
    echo sequence decides. *)
Definition echo_step (off : bool) (e : effect) : bool :=
  match e with
  | Send _ (ToUserEmit s) =>
      if decide (s = SUPPRESS_ECHO_SEQUENCE) then true
      else if decide (s = ENABLE_ECHO_SEQUENCE) then false else off
  | _ => off
  end.
Definition echo_off (off : bool) (out : list effect) : bool := foldl echo_step off out.

(** The text stored for a pass phrase. *)
Definition stored_for (dist : Z → Z) (passphrase : string) (text : string) : Prop :=
  returns (generate_random_salt dist) (λ s,
    text = to_string (mkCredentialHash 0 s (to_hex (fips_sha256 (bytes_of (passphrase_salt passphrase s)))))).

(** The inputs that count: empty lines change nothing. *)
Definition nonempty (s : string) : Prop := s ≠ "".
#[export] Instance nonempty_dec s : Decision (nonempty s).
Proof. unfold nonempty. apply _. Defined.
Definition answers (inputs : list string) : list string := filter nonempty inputs.

(** The dialogue is complete: after the name and the password, the password
    has been given again. *)
Definition complete (inputs : list string) : Prop :=
  match answers inputs with u :: p :: rest => p ∈ rest | _ => False end.

(** What the controller knows before the dialogue is complete. *)
Definition known (inputs : list string) : LoginController :=
  mkLogin (default "" (answers inputs !! 0%nat)) (default "" (answers inputs !! 1%nat)).

(** The prompt with which an input is answered that does not complete the
    dialogue, from what was known before it; and the one that is shown after
    [inputs]. The controller asks for a password after every input it takes
    as a name, an empty one too. *)
Definition prompt_after (before : LoginController) : string :=
  if decide (username before = "") then "enter password"
  else if decide (password before = "") then "confirm password" else "enter password".
Definition asked (inputs : list string) : string :=
  if decide (inputs = []) then "enter username" else prompt_after (known (take (pred (length inputs)) inputs)).

(** ** Helper lemmas *)
Lemma asked_snoc inputs i : asked (inputs ++ [i]) = prompt_after (known inputs).
Proof.
  unfold asked. rewrite decide_False by by destruct inputs. rewrite length_app, Nat.add_1_r. cbn [pred]. by rewrite take_app_length.
Qed.

Lemma answers_snoc inputs i :
  answers (inputs ++ [i]) = answers inputs ++ (if decide (i = "") then [] else [i]).
Proof.
  unfold answers. rewrite filter_app. f_equal. case_decide.
  - by rewrite filter_cons_False by (intros H'; by apply H').
  - by rewrite filter_cons_True.
Qed.

Lemma answers_nonempty inputs k s : answers inputs !! k = Some s → s ≠ "".
Proof. intros H%list_elem_of_lookup_2. by apply list_elem_of_filter in H as [? _]. Qed.

Lemma complete_mono inputs i : complete inputs → complete (inputs ++ [i]).
Proof.
  unfold complete. rewrite answers_snoc. destruct (answers inputs) as [|u [|p rest]]; [done|done|].
  cbn. intros H. apply elem_of_app. by left.
Qed.

Lemma registrations_app o1 o2 : registrations (o1 ++ o2) = registrations o1 ++ registrations o2.
Proof. apply omap_app. Qed.

Lemma echo_off_app b o1 o2 : echo_off b (o1 ++ o2) = echo_off (echo_off b o1) o2.
Proof. apply foldl_app. Qed.

(** The state before the dialogue is complete, case by case. *)
Lemma known_cases inputs :
  (answers inputs = [] ∧ known inputs = mkLogin "" "") ∨
  (∃ u, u ≠ "" ∧ answers inputs = [u] ∧ known inputs = mkLogin u "") ∨
  (∃ u p rest, u ≠ "" ∧ p ≠ "" ∧ answers inputs = u :: p :: rest ∧ known inputs = mkLogin u p).
Proof.
  pose proof (answers_nonempty inputs 0) as H0. pose proof (answers_nonempty inputs 1) as H1.
  unfold known. destruct (answers inputs) as [|u [|p rest]].
  - by left.
  - right; left. exists u. split_and!; try done. by apply H0.
  - right; right. exists u, p, rest. split_and!; try done; [by apply H0|by apply H1].
Qed.

Section dialogue.
Context (uninit extra : list Z) (dist : Z → Z).

Lemma login_run_snoc st ms m st1 out1 :
  login_run uninit extra dist st ms = Ret (st1, out1) →
  login_run uninit extra dist st (ms ++ [m]) =
    ('(st, e) ← login_handle uninit extra dist st1 m; Ret (st, out1 ++ e)).
Proof.
  intros H. unfold login_run in *. rewrite foldM_app, H. cbn [mbind outcome_bind foldM].
  by destruct (login_handle _ _ _ _ _) as [[? ?]| | |].
Qed.

(** An input that does not complete the dialogue. *)
Lemma login_input inputs i :
  ¬ complete (inputs ++ [i]) →
  ∃ e, login_handle uninit extra dist (known inputs) (OnUserInput i) = Ret (known (inputs ++ [i]), e) ∧
    registrations e = [] ∧ (Send RCommand LoginControllerEnd ∉ e) ∧
    last e = Some (Send RCommand (ToUserPrompt (prompt_after (known inputs)))) ∧
    ∀ b, echo_off b e = if decide (username (known inputs) = "") then true
      else if decide (password (known inputs) = "") then b else true.
Proof.
  intros Hc. unfold complete in Hc. unfold known at 2. rewrite answers_snoc in *.
  destruct (known_cases inputs) as [[Ha ->]|[(u & Hu & Ha & ->)|(u & p & rest & Hu & Hp & Ha & ->)]];
    rewrite Ha in *; unfold prompt_after; cbn [login_handle username password].
  - rewrite !decide_True by done. eexists. split.
    { destruct (decide (i = "")) as [->|]; reflexivity. }
    split_and!; [done|set_solver|done|intros b; by destruct b].
  - rewrite decide_False by done. rewrite !decide_True by done. eexists. split.
    { destruct (decide (i = "")) as [->|]; reflexivity. }
    rewrite !(decide_False (P := u = "")) by done. split_and!; [done|set_solver|done|].
    intros b. rewrite (decide_False (P := u = "")), decide_True by done. by destruct b.
  - rewrite (decide_False (P := u = "")) by done. rewrite (decide_False (P := p = "")) by done.
    rewrite (decide_False (P := p = i)).
    { eexists. split; [reflexivity|]. rewrite (decide_False (P := u = "")), (decide_False (P := p = "")) by done.
      split_and!; [done|set_solver|done|].
      intros b. rewrite (decide_False (P := u = "")), (decide_False (P := p = "")) by done. by destruct b. }
    intros ->. apply Hc. cbn. rewrite decide_False by done. apply elem_of_app. right. by left.
Qed.

Lemma login_open inputs :
  ¬ complete inputs →
  returns (login_run uninit extra dist login_new (LoginControllerStart :: (OnUserInput <$> inputs)))
    (λ r, r.1 = known inputs ∧ registrations r.2 = [] ∧ (Send RCommand LoginControllerEnd ∉ r.2) ∧
      last r.2 = Some (Send RCommand (ToUserPrompt (asked inputs))) ∧
      echo_off false r.2 = bool_decide (inputs ≠ [])).
Proof.
  induction inputs as [|i inputs IH] using rev_ind; intros Hc.
  { eexists. split; [reflexivity|]. split_and!; [done|done|set_solver|done|done]. }
  destruct IH as ([st out] & Hr & Hst & Hreg & Hend & _ & Hecho).
  { intros H. by apply Hc, complete_mono. }
  cbn [fst snd] in *. subst st.
  rewrite fmap_app, app_comm_cons. cbn [fmap list_fmap].
  rewrite (login_run_snoc _ _ _ _ _ Hr).
  destruct (login_input inputs i Hc) as (e & -> & He1 & He2 & He4 & He3).
  cbn [mbind outcome_bind]. apply returns_Ret. cbn [fst snd].
  rewrite registrations_app, Hreg, He1, echo_off_app, He3, Hecho, last_app, He4, asked_snoc.
  split_and!; [done|done|set_solver|done|].
  rewrite (bool_decide_true (inputs ++ [i] ≠ [])) by (by destruct inputs).
  case_decide; [done|]. case_decide; [|done]. apply bool_decide_true. intros ->.
  cbn in *. done.
Qed.
End dialogue.

Section completion.
Context (uninit extra : list Z) (dist : Z → Z).
Context (Hu : length uninit = 64%nat) (He : length extra = 64%nat).
Context (Hdist : ∀ i, 0 ≤ i < 8 → 0 ≤ dist i < 16).

(** The input that confirms the password. *)
Lemma login_confirm u p :
  u ≠ "" → p ≠ "" →
  ∃ text, stored_for dist p text ∧
    login_handle uninit extra dist (mkLogin u p) (OnUserInput p) =
      Ret (mkLogin u (scrub p),
        emit_user RCommand ENABLE_ECHO_SEQUENCE ++ emit_user RCommand "" ++
        emit_user RCommand ("Welcome to Primordia " +:+ u +:+ "!")%string ++
        emit_user RCommand "" ++ record_event_user_create u text ++ end_controller RCommand).
Proof.
  intros Hun Hpn. destruct (salt_loop dist Hdist) as (s & Hs & _).
  eexists. split; [exists s; split; [done|reflexivity]|].
  cbn [login_handle username password].
  rewrite (decide_False (P := u = "")), (decide_False (P := p = "")), (decide_True (P := p = p)) by done.
  unfold hash_and_scrub_password. rewrite Hs. cbn [mbind outcome_bind password].
  rewrite hash_credentials_spec by done. done.
Qed.

Lemma login_complete inputs i :
  ¬ complete inputs → complete (inputs ++ [i]) →
  known inputs = mkLogin (username (known inputs)) i ∧
  username (known inputs) ≠ "" ∧ i ≠ "".
Proof.
  intros Hn Hc. unfold complete in *. rewrite answers_snoc in Hc.
  destruct (known_cases inputs) as [[Ha E]|[(u & Hun & Ha & E)|(u & p & rest & Hun & Hp & Ha & E)]];
    rewrite E, Ha in *.
  - cbn in Hc. by destruct (decide (i = "")).
  - cbn in Hc. destruct (decide (i = "")); cbn in Hc; [done|]. by apply elem_of_nil in Hc.
  - cbn in Hc. destruct (decide (i = "")) as [->|Hi]; cbn in Hc.
    + by rewrite app_nil_r in Hc.
    + apply elem_of_app in Hc as [?| ->%list_elem_of_singleton]; [done|]. done.
Qed.
End completion.

(** The input that completes the dialogue. *)
Lemma login_ends uninit extra dist inputs i :
  length uninit = 64%nat → length extra = 64%nat →
  (∀ i, 0 ≤ i < 8 → 0 ≤ dist i < 16) →
  ¬ complete inputs → complete (inputs ++ [i]) →
  returns (login_run uninit extra dist login_new
      (LoginControllerStart :: (OnUserInput <$> inputs ++ [i])))
    (λ r, r.1 = mkLogin (username (known inputs)) (scrub i) ∧
      (∃ text, stored_for dist i text ∧ registrations r.2 = [(username (known inputs), text)]) ∧
      last r.2 = Some (Send RCommand LoginControllerEnd) ∧ echo_off false r.2 = false).
Proof.
  intros Hu He Hd Hn Hc. destruct (login_open uninit extra dist inputs Hn) as ([st out] & Hr & Hst & Hreg & _).
  cbn [fst snd] in *. subst st.
  destruct (login_complete inputs i Hn Hc) as (E & Hun & Hi).
  rewrite fmap_app, app_comm_cons. cbn [fmap list_fmap].
  rewrite (login_run_snoc _ _ _ _ _ _ _ _ Hr). rewrite E.
  destruct (login_confirm uninit extra dist Hu He Hd _ i Hun Hi) as (text & Ht & ->).
  cbn [mbind outcome_bind]. apply returns_Ret. cbn [fst snd username].
  split_and!; [done| | |].
  - exists text. split; [done|]. by rewrite registrations_app, Hreg.
  - rewrite !app_assoc. apply last_snoc.
  - rewrite echo_off_app. by destruct (echo_off false out).
Qed.

(** What the event recorder receives. *)
Definition to_events (out : list effect) : list msg :=
  omap (λ e, match e with Send REvents m => Some m | _ => None end) out.

(** The controller sends it nothing but registrations. *)
Lemma login_run_events uninit extra dist st ms st' out :
  login_run uninit extra dist st ms = Ret (st', out) →
  to_events out = (λ r, EventUserCreate r.1 r.2) <$> registrations out.
Proof.
  revert st' out. induction ms as [|m ms IH] using rev_ind; intros st' out H; [by injection H as _ <-|].
  destruct (login_run uninit extra dist st ms) as [[st1 out1]| | |] eqn:E;
    try (unfold login_run in *; rewrite foldM_app, E in H; discriminate H).
  rewrite (login_run_snoc _ _ _ _ _ _ _ _ E) in H. specialize (IH _ _ eq_refl).
  apply bind_Ret_inv in H as ([st2 e] & He & [= <- <-]).
  rewrite registrations_app. unfold to_events in *. rewrite omap_app, IH, fmap_app. f_equal.
  destruct m; cbn [login_handle] in He; try (by injection He as _ <-).
  repeat case_decide; try (by injection He as _ <-).
  apply bind_Ret_inv in He as ([st3 h] & _ & [= _ <-]). done.
Qed.

(** C8. The log-in dialogue, for every sequence of inputs. Until the
    password has been confirmed, the controller knows the first non-empty
    input as the name and the second as the password, has registered nobody
    and has not ended; it has suppressed the echo with the first input, of
    whatever kind, and last shown the prompt [asked]: for a user whose first
    line is empty that is "enter password", with the echo off, although the
    next line is taken as the name. The input that first repeats the password
    makes it register exactly one user, under that name with the salted SHA256
    of that password, enable the echo and end, and leaves only blanks of the
    password in memory. *)
Theorem login_dialogue uninit extra dist inputs :
  length uninit = 64%nat → length extra = 64%nat →
  (∀ i, 0 ≤ i < 8 → 0 ≤ dist i < 16) →
  ¬ complete inputs →
  returns (login_run uninit extra dist login_new (LoginControllerStart :: (OnUserInput <$> inputs)))
    (λ r, r.1 = known inputs ∧ registrations r.2 = [] ∧ (Send RCommand LoginControllerEnd ∉ r.2) ∧
      last r.2 = Some (Send RCommand (ToUserPrompt (asked inputs))) ∧
      echo_off false r.2 = bool_decide (inputs ≠ [])) ∧
  ∀ i, complete (inputs ++ [i]) →
    returns (login_run uninit extra dist login_new
        (LoginControllerStart :: (OnUserInput <$> inputs ++ [i])))
      (λ r, r.1 = mkLogin (username (known inputs)) (scrub i) ∧
        (∃ text, stored_for dist i text ∧ registrations r.2 = [(username (known inputs), text)]) ∧
        last r.2 = Some (Send RCommand LoginControllerEnd) ∧ echo_off false r.2 = false).
Proof.
  intros Hu He Hd Hn. split; [by apply login_open|]. intros i Hc. by apply login_ends.
Qed.

Lemma login_dialogue_witness :
  length (replicate 64 0) = 64%nat ∧ (∀ i, 0 ≤ i < 8 → 0 ≤ i < 16) ∧
  ¬ complete [""; "ann"; "pw"; "px"] ∧ complete ([""; "ann"; "pw"; "px"] ++ ["pw"]) ∧
  returns (login_run (replicate 64 0) (replicate 64 0) (λ i, i) login_new
      (LoginControllerStart :: (OnUserInput <$> [""; "ann"; "pw"; "px"] ++ ["pw"])))
    (λ r, ∃ text, stored_for (λ i, i) "pw" text ∧ registrations r.2 = [("ann", text)]).
Proof.
  assert (∀ i, 0 ≤ i < 8 → 0 ≤ i < 16) as Hd by lia.
  assert (¬ complete [""; "ann"; "pw"; "px"]) as Hn by (vm_compute; intros H; inversion H as [|? ? ? H']; inversion H').
  assert (complete ([""; "ann"; "pw"; "px"] ++ ["pw"])) as Hc by (vm_compute; right; left).
  split; [reflexivity|]. split; [exact Hd|]. split; [exact Hn|]. split; [exact Hc|].
  destruct (login_dialogue (replicate 64 0) (replicate 64 0) (λ i, i) [""; "ann"; "pw"; "px"]
    eq_refl eq_refl Hd Hn) as [_ H].
  eapply returns_mono; [exact (H "pw" Hc)|]. intros r (_ & Hr & _). exact Hr.
Defined.

(** After an empty first line the echo is off and a password is asked for,
    but the line typed then is the name. *)
Example empty_name :
  (λ inputs, (asked inputs, known (inputs ++ ["ann"]),
    '(_, out) ← login_run [] [] (λ i, i) login_new (LoginControllerStart :: (OnUserInput <$> inputs)); Ret (echo_off false out))) [""] =
  ("enter password", mkLogin "ann" "", Ret true).
Proof. reflexivity. Qed.

(** The dialogue of a user who types another password again and again. *)
Lemma retry_answers u p q n :
  u ≠ "" → p ≠ "" → q ≠ p →
  ¬ complete (u :: p :: replicate n q) ∧ known (u :: p :: replicate n q) = mkLogin u p.
Proof.
  intros Hu Hp Hq.
  assert (∃ k, answers (u :: p :: replicate n q) = u :: p :: replicate k q) as [k Hk].
  { unfold answers. rewrite !filter_cons_True by done.
    destruct (decide (q = "")) as [->|Hne].
    - exists 0%nat. do 2 f_equal. induction n as [|n IH]; [done|]. cbn [replicate].
      by rewrite filter_cons_False by (intros H; by apply H).
    - exists n. do 2 f_equal. induction n as [|n IH]; [done|]. cbn [replicate].
      by rewrite filter_cons_True, IH. }
  unfold complete, known. rewrite Hk. split; [|done]. intros [-> _]%elem_of_replicate. done.
Qed.

(** After a mismatch the user is told to enter the password again, but
    the controller keeps the first password: a user who then types another
    password, once or any number of times, is asked to enter it again and is
    never registered. *)
Theorem login_retry_ignored uninit extra dist u p q n :
  u ≠ "" → p ≠ "" → q ≠ p →
  returns (login_run uninit extra dist login_new
      (LoginControllerStart :: (OnUserInput <$> (u :: p :: replicate n q) ++ [q])))
    (λ r, r.1 = mkLogin u p ∧ registrations r.2 = [] ∧
      last r.2 = Some (Send RCommand (ToUserPrompt "enter password"))).
Proof.
  intros Hu Hp Hq. destruct (retry_answers u p q n Hu Hp Hq) as [Hn Hk].
  destruct (login_open uninit extra dist _ Hn) as ([st out] & Hr & Hst & Hreg & _).
  cbn [fst snd] in *. subst st. rewrite fmap_app, app_comm_cons. cbn [fmap list_fmap] in *.
  rewrite (login_run_snoc _ _ _ _ _ _ _ _ Hr), Hk. cbn [login_handle username password].
  rewrite (decide_False (P := u = "")), (decide_False (P := p = "")), (decide_False (P := p = q)) by done.
  cbn [mbind outcome_bind]. apply returns_Ret. cbn [fst snd]. split_and!; [done| |].
  - by rewrite registrations_app, Hreg.
  - rewrite !app_assoc. apply last_snoc.
Qed.

Lemma login_retry_ignored_witness :
  "ann" ≠ "" ∧ "pw" ≠ "" ∧ "px" ≠ "pw" ∧
  returns (login_run [] [] (λ i, i) login_new
      (LoginControllerStart :: (OnUserInput <$> ["ann"; "pw"; "px"; "px"; "px"])))
    (λ r, registrations r.2 = []).
Proof.
  split; [discriminate|]. split; [discriminate|]. split; [discriminate|].
  eapply returns_mono; [exact (login_retry_ignored [] [] (λ i, i) "ann" "pw" "px" 2
    ltac:(discriminate) ltac:(discriminate) ltac:(discriminate))|].
  intros r H. apply H.
Defined.

(** After the registration the controller goes on with the blanked password:
    if an input of as many blanks reaches it before it exits, it registers
    the user a second time, with the hash of the blanks, and ends again. *)
Lemma login_blank_password uninit extra dist u p :
  length uninit = 64%nat → length extra = 64%nat →
  (∀ i, 0 ≤ i < 8 → 0 ≤ dist i < 16) → u ≠ "" → p ≠ "" →
  returns (login_handle uninit extra dist (mkLogin u (scrub p)) (OnUserInput (scrub p)))
    (λ r, ∃ text, stored_for dist (scrub p) text ∧ registrations r.2 = [(u, text)] ∧
      last r.2 = Some (Send RCommand LoginControllerEnd)).
Proof.
  intros Hu He Hd Hun Hp. assert (scrub p ≠ "") as Hs by (by destruct p).
  destruct (login_confirm uninit extra dist Hu He Hd u (scrub p) Hun Hs) as (text & Ht & ->).
  apply returns_Ret. exists text. split_and!; [done|done|].
  cbn [snd]. rewrite !app_assoc. apply last_snoc.
Qed.
