(* ===== verification/Connection.v ===== *)
(** * The connection actor (pmud/src/pnet/connection_actor.h)

    The actor that owns a socket: it prints what the controllers send, polls
    the socket for input, assembles the input into commands, and closes the
    connection. *)
From S2P Require Import Prelude.
From S2P Require Import Text.
From S2P Require Import Comm.
From S2P Require Import Controllers.

Record ConnectionActor := mkConnection {
  m_break_count : Z;
  m_connection : Z;
  m_current_input : string;
  m_registery_id : string
}.

Section connection.
Context {S : Socket}.

(** The constructor, for the actor with identity [id]: it spawns the
    command actor, registers itself and greets the user. A failed greeting
    is only logged. *)
Definition connection_new (k : kernel) (welcome : string) (connection id : Z) :
    outcome (kernel * ConnectionActor * list effect) :=
  let registery_id := ("Connection(" +:+ pretty id +:+ ")")%string in
  comm ← CommStatic connection;
  let '(k, success) :=
    and_then (λ k, emit_banner k comm)
      (and_then (λ k, emit_line k comm "")
        (and_then (λ k, emit_line k comm welcome)
          (and_then (λ k, emit_line k comm "") (λ k, emit_line k comm "")))) k in
  Ret (k, mkConnection 0 connection "" registery_id, [Spawn RCommand; RegistryPut registery_id]).

Definition poll : list effect := [Send RConnection FromUserGetInput].
Definition goodbye : list effect := [Send RConnection GoodbyeConnection].

(** What [FromUserGetInput] does with [bytes_read] and [user_read]. *)
Definition on_read (st : ConnectionActor) (bytes_read : Z) (user_read : string) :
    ConnectionActor * list effect :=
  if decide (bytes_read = 0) then
    if decide (m_break_count st = 0) then
      (mkConnection (m_break_count st + 1) (m_connection st) (m_current_input st) (m_registery_id st), poll)
    else (st, goodbye)
  else
    if decide (find user_read NEWLINE 0 = None) then
      (mkConnection 0 (m_connection st) (m_current_input st +:+ user_read)%string (m_registery_id st), poll)
    else
      let final_user_read := sanitize (m_current_input st +:+ user_read)%string in
      let st := mkConnection 0 (m_connection st) "" (m_registery_id st) in
      if decide (final_user_read = "quit" ∨ final_user_read = "exit") then (st, goodbye)
      else (st, Send RCommand (OnUserInput final_user_read) :: poll).

Definition connection_handle (k : kernel) (st : ConnectionActor) (m : msg) :
    outcome (kernel * ConnectionActor * list effect) :=
  match m with
  | PerformWelcome => Ret (k, st, [Send RCommand PerformWelcome])
  | ToUserEmit emission =>
      comm ← CommStatic (m_connection st);
      let '(k, _) := emit_line k comm emission in
      Ret (k, st, [])
  | ToUserPrompt prompt =>
      comm ← CommStatic (m_connection st);
      let '(k, _) := emit_prompt k comm prompt in
      Ret (k, st, poll)
  | FromUserGetInput =>
      comm ← CommStatic (m_connection st);
      if has_data k comm then
        '(k, bytes_read, user_read) ← read_from_user k comm;
        let '(st, e) := on_read st bytes_read user_read in
        Ret (k, st, e)
      else Ret (k, st, poll)
  | GoodbyeConnection =>
      k ← (if decide (m_connection st ≠ -1) then
             comm ← CommStatic (m_connection st);
             let '(k, _) := emit_line k comm "" in
             let '(k, _) := emit_line k comm "Goodbye!" in
             Ret (close k (m_connection st))
           else Ret k);
      Ret (k, st, [RegistryErase (m_registery_id st); SendExit RConnection])
  | _ => Ret (k, st, [])
  end.

(** The functor attached to the exit of the actor. *)
Definition connection_exit : list effect := [SendExit RCommand].

(** Handling a sequence of messages. *)
Fixpoint connection_run (k : kernel) (st : ConnectionActor) (ms : list msg) :
    outcome (kernel * ConnectionActor * list effect) :=
  match ms with
  | [] => Ret (k, st, [])
  | m :: ms =>
      '(k, st, e) ← connection_handle k st m;
      '(k, st, out) ← connection_run k st ms;
      Ret (k, st, e ++ out)
  end.
End connection.

(** ** Specification *)

(** The number of messages of one kind that were sent. *)
Definition sent (m : msg) (e : list effect) : nat := count_eq (Send RConnection m) e.

(** The commands that were handed to the command actor. *)
Definition commands (e : list effect) : list string :=
  omap (λ e, match e with Send RCommand (OnUserInput s) => Some s | _ => None end) e.

Definition has_newline (s : string) : Prop := Ascii.ascii_of_nat 10 ∈ to_list s.
#[export] Instance has_newline_dec s : Decision (has_newline s).
Proof. unfold has_newline. apply _. Defined.

(** How chunks of text become commands: everything up to and including the
    next chunk with a line feed is one command. The result is the commands
    and what still waits. *)
Fixpoint assemble (waiting : string) (chunks : list string) : list string * string :=
  match chunks with
  | [] => ([], waiting)
  | c :: chunks =>
      if decide (has_newline c) then
        let '(cmds, w) := assemble "" chunks in (sanitize (waiting +:+ c)%string :: cmds, w)
      else assemble (waiting +:+ c)%string chunks
  end.

(** ** Helper lemmas *)
Lemma find_first_newline s : find_first NEWLINE s = None ↔ ¬ has_newline s.
Proof.
  unfold has_newline. induction s as [|c s IH].
  { split; [|done]. intros _ []%elem_of_nil. }
  cbn [String.list_ascii_of_string]. rewrite elem_of_cons. unfold NEWLINE in *.
  assert (find_first (String (Ascii.ascii_of_nat 10) EmptyString) (String c s) =
    if Ascii.ascii_dec (Ascii.ascii_of_nat 10) c then Some 0%nat
    else S <$> find_first (String (Ascii.ascii_of_nat 10) EmptyString) s) as ->.
  { cbn [find_first String.prefix]. destruct (Ascii.ascii_dec _ c); [|done]. by destruct s. }
  destruct (Ascii.ascii_dec _ c) as [->|Hc].
  - split; [done|]. intros H. destruct H. by left.
  - destruct (find_first _ s); cbn in *; naive_solver.
Qed.

Lemma find_newline s : find s NEWLINE 0 = None ↔ ¬ has_newline s.
Proof.
  rewrite <-find_first_newline. unfold find. rewrite decide_True by lia. cbn [sdrop].
  destruct (find_first NEWLINE s); cbn; naive_solver.
Qed.

Lemma sent_app m e1 e2 : sent m (e1 ++ e2) = (sent m e1 + sent m e2)%nat.
Proof. unfold sent, count_eq. by rewrite filter_app, length_app. Qed.

Lemma commands_app e1 e2 : commands (e1 ++ e2) = commands e1 ++ commands e2.
Proof. apply omap_app. Qed.

Lemma assemble_app w l1 l2 :
  assemble w (l1 ++ l2) =
    let '(c1, w1) := assemble w l1 in let '(c2, w2) := assemble w1 l2 in (c1 ++ c2, w2).
Proof.
  revert w. induction l1 as [|c l1 IH]; intros w; cbn [assemble app].
  - by destruct (assemble w l2).
  - case_decide; rewrite IH; destruct (assemble _ l1) as [c1 w1]; by destruct (assemble w1 l2).
Qed.

Lemma assemble_one w c :
  assemble w [c] = if decide (has_newline c) then ([sanitize (w +:+ c)%string], "") else ([], (w +:+ c)%string).
Proof. cbn. by case_decide. Qed.

(** What a read does to the assembly: a non-empty read is one more chunk. *)
Lemma on_read_assemble st r text :
  r ≠ 0 →
  let '(st', e) := on_read st r text in
  let '(cmds, w) := assemble (m_current_input st) [text] in
  m_current_input st' = w ∧ m_break_count st' = 0 ∧ m_connection st' = m_connection st ∧
  m_registery_id st' = m_registery_id st ∧
  (commands e = cmds ∧ sent FromUserGetInput e = 1%nat ∧ sent GoodbyeConnection e = 0%nat ∨
   (∃ q, (q = "quit" ∨ q = "exit") ∧ cmds = [q] ∧ e = goodbye)).
Proof.
  intros Hr. unfold on_read. rewrite (decide_False (P := r = 0)) by done. rewrite assemble_one.
  destruct (decide (has_newline text)) as [Hn|Hn].
  - rewrite (decide_False (P := find text NEWLINE 0 = None)) by (rewrite find_newline; tauto).
    case_decide as Hq; cbn; split_and!; try done; [|by left].
    right. by exists (sanitize (m_current_input st +:+ text)%string).
  - rewrite (decide_True (P := find text NEWLINE 0 = None)) by by rewrite find_newline.
    cbn. split_and!; try done. by left.
Qed.

Section polling.
Context {S : Socket} {L : SocketLaws S}.

(** A chunk of input that is neither empty nor a break. *)
Definition normal (bs : list Z) : Prop :=
  match bs with [] => False | b :: rest => b ≠ 255 ∧ ¬ (b = 4 ∧ rest = []) end.

(** From [k], polling [fd] finds the given chunks, one per poll. *)
Inductive feeds (fd : Z) : kernel → list (list Z) → kernel → Prop :=
  | feeds_nil k : feeds fd k [] k
  | feeds_cons k bs k1 chunks k2 :
      has_data k fd = true → read k fd BUFFER_MAX_READ = (k1, Z.of_nat (length bs), bs) →
      normal bs → feeds fd k1 chunks k2 → feeds fd k (bs :: chunks) k2.

Lemma CommStatic_Ret fd : 0 < fd → CommStatic fd = Ret fd.
Proof. intros Hfd. unfold CommStatic. by rewrite decide_False by lia. Qed.

Lemma poll_reads k st :
  0 < m_connection st → has_data k (m_connection st) = true →
  ∃ k' r text, read_from_user k (m_connection st) = Ret (k', r, text) ∧
    connection_handle k st FromUserGetInput =
      Ret (k', (on_read st r text).1, (on_read st r text).2).
Proof.
  intros Hfd Hd. pose proof (read_from_user_total k (m_connection st)) as Hr.
  destruct (read k (m_connection st) BUFFER_MAX_READ) as [[k' r] bs].
  assert (∃ r text, read_from_user k (m_connection st) = Ret (k', r, text)) as (r' & text & E).
  { rewrite Hr. destruct bs; [eauto|]. case_decide; eauto. }
  exists k', r', text. split; [done|]. cbn [connection_handle].
  rewrite CommStatic_Ret by done. cbn [mbind outcome_bind]. rewrite Hd, E. cbn [mbind outcome_bind].
  by destruct (on_read st r' text).
Qed.

Lemma poll_normal k st bs k1 :
  0 < m_connection st → has_data k (m_connection st) = true →
  read k (m_connection st) BUFFER_MAX_READ = (k1, Z.of_nat (length bs), bs) → normal bs →
  ∃ r, r ≠ 0 ∧ connection_handle k st FromUserGetInput =
    Ret (k1, (on_read st r (lite_text bs)).1, (on_read st r (lite_text bs)).2).
Proof.
  intros Hfd Hd Hr Hn. pose proof (read_from_user_total k (m_connection st)) as E.
  rewrite Hr in E. destruct bs as [|b bs]; [done|]. destruct Hn as [Hb1 Hb2].
  rewrite decide_False in E by tauto.
  exists (Z.of_nat (length (b :: bs))). split; [cbn; lia|]. cbn [connection_handle].
  rewrite CommStatic_Ret by done. cbn [mbind outcome_bind]. rewrite Hd, E. cbn [mbind outcome_bind].
  by destruct (on_read _ _ _).
Qed.

(** Every message has a result, and the polls are conserved. *)
Lemma handle_polls k st m :
  0 < m_connection st →
  returns (connection_handle k st m) (λ '(k', st', e),
    m_connection st' = m_connection st ∧
    (sent FromUserGetInput e + sent GoodbyeConnection e =
      if decide (m = FromUserGetInput) then 1
      else match m with ToUserPrompt _ => 1 | _ => 0 end)%nat).
Proof.
  intros Hfd. destruct m; try (cbn; rewrite ?CommStatic_Ret by done; by apply returns_Ret).
  - destruct (has_data k (m_connection st)) eqn:Hd.
    + destruct (poll_reads k st Hfd Hd) as (k' & r & text & _ & ->). apply returns_Ret.
      unfold on_read. by repeat case_decide.
    + cbn [connection_handle]. rewrite CommStatic_Ret by done. cbn [mbind outcome_bind].
      rewrite Hd. by apply returns_Ret.
  - cbn [connection_handle]. rewrite decide_True by lia. rewrite CommStatic_Ret by done.
    cbn [mbind outcome_bind]. destruct (emit_line k _ _) as [k1 b1]. destruct (emit_line k1 _ _) as [k2 b2].
    by apply returns_Ret.
  - cbn [connection_handle]. rewrite CommStatic_Ret by done. cbn [mbind outcome_bind].
    destruct (emit_prompt _ _ _). by apply returns_Ret.
  - cbn [connection_handle]. rewrite CommStatic_Ret by done. cbn [mbind outcome_bind].
    destruct (emit_line _ _ _). by apply returns_Ret.
Qed.
End polling.

(** The messages that make the connection poll. *)
Definition polling (m : msg) : bool :=
  match m with FromUserGetInput | ToUserPrompt _ => true | _ => false end.

(** ** Main theorems *)

(** C15. From input to commands: polling a socket on which chunks of bytes
    arrive (none of them a break, and none completing the command [quit] or
    [exit]) hands the command actor exactly the commands that [assemble]
    makes of the sanitized chunks, keeps the incomplete rest, asks for input
    again after every poll, and does not close the connection. *)
Theorem commands_assembled {S : Socket} {L : SocketLaws S} k st chunks k' :
  0 < m_connection st → feeds (m_connection st) k chunks k' →
  (∀ c, c ∈ (assemble (m_current_input st) (lite_text <$> chunks)).1 → c ≠ "quit" ∧ c ≠ "exit") →
  returns (connection_run k st (replicate (length chunks) FromUserGetInput)) (λ '(k2, st', e),
    k2 = k' ∧
    commands e = (assemble (m_current_input st) (lite_text <$> chunks)).1 ∧
    m_current_input st' = (assemble (m_current_input st) (lite_text <$> chunks)).2 ∧
    sent FromUserGetInput e = length chunks ∧ sent GoodbyeConnection e = 0%nat).
Proof.
  intros Hfd Hf. remember (m_connection st) as fd eqn:Efd. revert st Efd Hfd.
  induction Hf as [k|k bs k1 chunks k2 Hd Hr Hn Hf IH]; intros st -> Hfd Hq.
  { by apply returns_Ret. }
  cbn [length replicate connection_run].
  destruct (poll_normal k st bs k1 Hfd Hd Hr Hn) as (r & Hr0 & ->). cbn [mbind outcome_bind].
  change (lite_text <$> bs :: chunks) with ([lite_text bs] ++ (lite_text <$> chunks)) in *.
  rewrite assemble_app in *.
  pose proof (on_read_assemble st r (lite_text bs) Hr0) as Hread.
  destruct (on_read st r (lite_text bs)) as [st1 e1]. cbn [fst snd].
  destruct (assemble (m_current_input st) [lite_text bs]) as [c1 w1].
  destruct Hread as (<- & _ & Efd & _ & Hout).
  destruct Hout as [(Hc & Hp & Hg)|(q & Hq' & -> & _)].
  - eapply returns_bind.
    { apply (IH st1); [by rewrite Efd|done|]. intros c Hc'. apply Hq.
      destruct (assemble _ _) as [c2 w2]. cbn [fst] in *. apply elem_of_app. by right. }
    intros [[k3 st3] e3] (-> & H1 & H2 & H3 & H4). apply returns_Ret.
    destruct (assemble (m_current_input st1) _) as [c2 w2]. cbn [fst snd] in *.
    rewrite commands_app, !sent_app. split_and!; try done; [congruence|lia|lia].
  - exfalso. destruct (assemble (m_current_input st1) _) as [c2 w2].
    destruct (Hq q) as [? ?]; [by left|]. by destruct Hq'.
Qed.

Lemma commands_assembled_witness :
  0 < 5 ∧
  feeds (S := Script) 5 ([[108; 111]; [111; 107; 13; 10]; [104; 105; 10; 104; 111; 10]; [98]], "")
    [[108; 111]; [111; 107; 13; 10]; [104; 105; 10; 104; 111; 10]; [98]] ([], "") ∧
  returns (connection_run (S := Script) ([[108; 111]; [111; 107; 13; 10]; [104; 105; 10; 104; 111; 10]; [98]], "")
      (mkConnection 0 5 "" "id") (replicate 4 FromUserGetInput)) (λ '(_, st, e),
    commands e = ["look"; "hiho"] ∧ m_current_input st = "b").
Proof.
  assert (feeds (S := Script) 5 ([[108; 111]; [111; 107; 13; 10]; [104; 105; 10; 104; 111; 10]; [98]], "")
    [[108; 111]; [111; 107; 13; 10]; [104; 105; 10; 104; 111; 10]; [98]] ([], "")) as Hf.
  { repeat (eapply feeds_cons; [reflexivity|reflexivity|cbn; split; [lia|intros [? ?]; lia]|]). constructor. }
  split; [lia|]. split; [exact Hf|].
  eapply returns_mono; [apply (commands_assembled (S := Script) _ (mkConnection 0 5 "" "id") _ _ ltac:(cbn; lia) Hf)|].
  - intros c Hc. change (c ∈ ["look"; "hiho"]) in Hc. rewrite !elem_of_cons, elem_of_nil in Hc.
    destruct Hc as [->|[->|[]]]; done.
  - intros [[k st] e] (_ & Hc & Hi & _). rewrite Hc, Hi. vm_compute. done.
Defined.

(** Two lines that arrive in one read are one command (as "hi" and "ho" are
    above): a user who types [look] and [quit] at once sends [lookquit]. *)
Example lines_merged : (assemble "" ["look" +:+ NEWLINE +:+ "quit" +:+ NEWLINE]%string).1 = ["lookquit"].
Proof. vm_compute. reflexivity. Qed.

(** Polls are conserved: for every sequence of messages and every
    system, the connection actor returns, and the polls and farewells it
    sends are as many as the polls and prompts it has handled. A poll goes on
    until it becomes a farewell, and each prompt starts one more, so after
    [n] prompts [n] polls of the same socket run at once. *)
Theorem polls_conserved {S : Socket} {L : SocketLaws S} k st ms :
  0 < m_connection st →
  returns (connection_run k st ms) (λ '(k', st', e),
    m_connection st' = m_connection st ∧
    (sent FromUserGetInput e + sent GoodbyeConnection e = length (filter (λ m, polling m = true) ms))%nat).
Proof.
  revert k st. induction ms as [|m ms IH]; intros k st Hfd; [by apply returns_Ret|].
  cbn [connection_run]. eapply returns_bind; [by apply handle_polls|].
  intros [[k1 st1] e1] [Hc1 He1]. eapply returns_bind; [apply (IH k1 st1); by rewrite Hc1|].
  intros [[k2 st2] e2] [Hc2 He2]. apply returns_Ret. rewrite !sent_app. split; [congruence|].
  rewrite filter_cons. destruct m; repeat case_decide; simplify_eq/=; lia.
Qed.

Lemma polls_conserved_witness :
  0 < 5 ∧
  returns (connection_run (S := Script) ([], "") (mkConnection 0 5 "" "id")
      [ToUserPrompt "a"; FromUserGetInput; ToUserPrompt "b"]) (λ '(_, _, e),
    (sent FromUserGetInput e + sent GoodbyeConnection e = 3)%nat).
Proof.
  split; [lia|].
  eapply returns_mono; [exact (polls_conserved (S := Script) ([], "") (mkConnection 0 5 "" "id")
    [ToUserPrompt "a"; FromUserGetInput; ToUserPrompt "b"] ltac:(cbn; lia))|].
  intros [[k st] e] [_ H]. exact H.
Defined.

(** How a connection ends. A poll that finds no data leaves the actor as
    it is and polls again; this includes the end of the stream and every
    error, so a peer that has closed its side is polled for ever. A telnet
    command or a control-D counts as a break: the first is only counted, a
    second one without input in between says goodbye. *)
Theorem break_and_eof {S : Socket} {L : SocketLaws S} k st :
  0 < m_connection st →
  ((recv_peek k (m_connection st) BUFFER_MAX_READ).1 ≤ 0 →
    connection_handle k st FromUserGetInput = Ret (k, st, poll)) ∧
  (∀ k' r b bs, has_data k (m_connection st) = true →
    read k (m_connection st) BUFFER_MAX_READ = (k', r, b :: bs) → b = 255 ∨ (b = 4 ∧ bs = []) →
    connection_handle k st FromUserGetInput =
      Ret (if decide (m_break_count st = 0)
           then (k', mkConnection 1 (m_connection st) (m_current_input st) (m_registery_id st), poll)
           else (k', st, goodbye))).
Proof.
  intros Hfd. split.
  - intros Hp. cbn [connection_handle]. rewrite CommStatic_Ret by done. cbn [mbind outcome_bind].
    unfold has_data. by rewrite bool_decide_false by lia.
  - intros k' r b bs Hd Hr Hb. cbn [connection_handle]. rewrite CommStatic_Ret by done.
    cbn [mbind outcome_bind]. rewrite Hd.
    pose proof (read_from_user_total k (m_connection st)) as E. rewrite Hr, decide_True in E by done.
    rewrite E. cbn [mbind outcome_bind]. unfold on_read. rewrite (decide_True (P := 0 = 0)) by done.
    case_decide as Hc; [by rewrite Hc|done].
Qed.

Lemma break_and_eof_witness :
  0 < 5 ∧
  connection_handle (S := Script) ([], "") (mkConnection 0 5 "" "id") FromUserGetInput =
    Ret (([], ""), mkConnection 0 5 "" "id", poll).
Proof.
  split; [lia|].
  destruct (break_and_eof (S := Script) ([], "") (mkConnection 0 5 "" "id") ltac:(cbn; lia)) as [H _].
  apply H. cbn. lia.
Defined.

(** Saying goodbye closes the descriptor but keeps it: a second farewell
    (two polls, or the server's shutdown) writes to it and closes it again. *)
Lemma goodbye_keeps_descriptor {S : Socket} k st :
  0 < m_connection st →
  returns (connection_handle k st GoodbyeConnection) (λ '(k', st', e),
    st' = st ∧ e = [RegistryErase (m_registery_id st); SendExit RConnection] ∧
    ∃ k1, k' = close k1 (m_connection st)).
Proof.
  intros Hfd. cbn [connection_handle]. rewrite decide_True by lia.
  rewrite CommStatic_Ret by done. cbn [mbind outcome_bind].
  destruct (emit_line k _ _) as [k1 b1]. destruct (emit_line k1 _ _) as [k2 b2].
  apply returns_Ret. split_and!; [done|done|by exists k2].
Qed.
