(* ===== verification/Session.v ===== *)
(** * A session: the actors of one connection working together

    The command actor, the log-in controller and the default controller, each
    with its mailbox, as a transition system. A handler runs when its actor
    is alive, has nothing left to send and has a message; its sends are
    delivered one at a time, so that the sends of different actors
    interleave in every order; an actor that was sent an exit may stop at any
    time between two handlers. The connection actor is the environment: it
    may send inputs at any moment, and receives what is for the user. *)
From S2P Require Import Prelude.
From S2P Require Import Text.
From S2P Require Import Word.
From S2P Require Import BlockHasher.
From S2P Require Import Sha256.
From S2P Require Import Security.
From S2P Require Import Controllers.

(** An actor in the system: its state, its mailbox, what its last handler
    still has to send, and whether it is alive and has been sent an exit. *)
Record actor (A : Type) := mkActor {
  a_state : A;
  a_mail : list msg;
  a_out : list effect;
  a_alive : bool;
  a_exit : bool
}.
Arguments mkActor {A}. Arguments a_state {A}. Arguments a_mail {A}.
Arguments a_out {A}. Arguments a_alive {A}. Arguments a_exit {A}.

Record session := mkSession {
  s_command : actor CommandActor;
  s_login : actor LoginController;
  s_default : actor unit;
  (** what has reached the connection actor and the event recorder *)
  s_user : list msg;
  s_events : list msg;
  (** the inputs the default controller has handled *)
  s_handled : list string
}.

(** The system after the constructor of the connection actor, which spawns
    the command actor, which spawns the default controller, and after the
    connection has passed on the server's [PerformWelcome]; the log-in
    controller does not exist yet. *)
Definition session_new : session :=
  mkSession (mkActor (fst command_new) [PerformWelcome] [] true false)
            (mkActor login_new [] [] false false)
            (mkActor () [] [] true false) [] [] [].

(** Mail for a dead actor is dropped. *)
Definition mail {A} (m : msg) (a : actor A) : actor A :=
  if a_alive a then mkActor (a_state a) (a_mail a ++ [m]) (a_out a) (a_alive a) (a_exit a) else a.

Definition request_exit {A} (a : actor A) : actor A :=
  mkActor (a_state a) (a_mail a) (a_out a) (a_alive a) true.

Definition set_command (s : session) c := mkSession c (s_login s) (s_default s) (s_user s) (s_events s) (s_handled s).
Definition set_login (s : session) l := mkSession (s_command s) l (s_default s) (s_user s) (s_events s) (s_handled s).
Definition set_default (s : session) d := mkSession (s_command s) (s_login s) d (s_user s) (s_events s) (s_handled s).

(** The delivery of one effect. *)
Definition perform (s : session) (e : effect) : session :=
  match e with
  | Send RCommand m => set_command s (mail m (s_command s))
  | Send RLogin m => set_login s (mail m (s_login s))
  | Send RDefault m => set_default s (mail m (s_default s))
  | Send RConnection m =>
      mkSession (s_command s) (s_login s) (s_default s) (s_user s ++ [m]) (s_events s) (s_handled s)
  | Send REvents m =>
      mkSession (s_command s) (s_login s) (s_default s) (s_user s) (s_events s ++ [m]) (s_handled s)
  | Spawn RLogin => set_login s (mkActor login_new [] [] true false)
  | SendExit RCommand => set_command s (request_exit (s_command s))
  | SendExit RLogin => set_login s (request_exit (s_login s))
  | SendExit RDefault => set_default s (request_exit (s_default s))
  | _ => s
  end.

(** The actor that takes a step, and what the environment does. *)
Inductive label :=
  | Input (input : string)            (** the connection sends an input *)
  | Run (a : ref)                     (** a handler runs *)
  | RunLogin (d : draws)              (** that of the log-in controller, with what it draws *)
  | Flush (a : ref)                   (** the next send of a handler *)
  | Stop (a : ref).                   (** an actor exits *)

Definition set_out {A} (a : actor A) out : actor A := mkActor (a_state a) (a_mail a) out (a_alive a) (a_exit a).
Definition set_dead {A} (a : actor A) : actor A := mkActor (a_state a) [] [] false true.

Section session.
Context (uninit extra : list Z).

(** One step; [None] when the label is not enabled. *)
Definition exec (l : label) (s : session) : option (outcome session) :=
  match l with
  | Input input => Some (Ret (perform s (Send RCommand (OnUserInput input))))
  | Run RCommand =>
      let a := s_command s in
      match a_alive a, a_out a, a_mail a with
      | true, [], m :: ms => Some
          ('(st, e) ← command_handle (a_state a) m;
           Ret (set_command s (mkActor st ms e true (a_exit a))))
      | _, _, _ => None
      end
  | RunLogin d =>
      let a := s_login s in
      match a_alive a, a_out a, a_mail a with
      | true, [], m :: ms => Some
          ('(st, e) ← login_handle uninit extra d (a_state a) m;
           Ret (set_login s (mkActor st ms e true (a_exit a))))
      | _, _, _ => None
      end
  | Run RDefault =>
      let a := s_default s in
      match a_alive a, a_out a, a_mail a with
      | true, [], m :: ms => Some (Ret (
          mkSession (s_command s) (s_login s) (mkActor () ms (default_handle m) true (a_exit a))
            (s_user s) (s_events s)
            (s_handled s ++ match m with OnUserInput i => [i] | _ => [] end)))
      | _, _, _ => None
      end
  | Flush RCommand =>
      match a_out (s_command s) with
      | e :: es => Some (Ret (perform (set_command s (set_out (s_command s) es)) e))
      | [] => None
      end
  | Flush RLogin =>
      match a_out (s_login s) with
      | e :: es => Some (Ret (perform (set_login s (set_out (s_login s) es)) e))
      | [] => None
      end
  | Flush RDefault =>
      match a_out (s_default s) with
      | e :: es => Some (Ret (perform (set_default s (set_out (s_default s) es)) e))
      | [] => None
      end
  | Stop RLogin =>
      let a := s_login s in
      if a_alive a && a_exit a && bool_decide (a_out a = []) then Some (Ret (set_login s (set_dead a))) else None
  | Stop RDefault =>
      let a := s_default s in
      if a_alive a && a_exit a && bool_decide (a_out a = []) then Some (Ret (set_default s (set_dead a))) else None
  | _ => None
  end.

(** The transition relation, and what it reaches. *)
Inductive step (s : session) : session → Prop :=
  | step_exec l s' : exec l s = Some (Ret s') → step s s'.

Definition reachable (s : session) : Prop := rtc step session_new s.

(** A run along given labels. *)
Fixpoint run (ls : list label) (s : session) : option session :=
  match ls with
  | [] => Some s
  | l :: ls => match exec l s with Some (Ret s') => run ls s' | _ => None end
  end.

Lemma run_reachable ls s s' : reachable s → run ls s = Some s' → reachable s'.
Proof.
  revert s. induction ls as [|l ls IH]; intros s Hs Hr; cbn in Hr; [by injection Hr as <-|].
  destruct (exec l s) as [[s1| | |]|] eqn:E; try done.
  apply (IH s1); [|done]. eapply rtc_r; [done|]. by econstructor.
Qed.
End session.

(** ** Invariant *)

(** A registration: a name and the stored text of a password, both given. *)
Definition registration (m : msg) : Prop :=
  ∃ u p text (d : draws), m = EventUserCreate u text ∧ u ≠ "" ∧ p ≠ "" ∧ stored_for d p text.

(** Somebody has been registered. *)
Definition registered (s : session) : Prop := ∃ m, m ∈ s_events s ∧ registration m.

(** What the controllers may have left to send. *)
Definition login_sends (e : effect) : Prop :=
  (∃ m, e = Send RCommand m) ∨ (∃ m, e = Send REvents m ∧ registration m).
Definition default_sends (e : effect) : Prop := ∃ m, e = Send RCommand m ∧ m ≠ LoginControllerEnd.
Definition command_sends (R : Prop) (e : effect) : Prop :=
  match e with
  | Send RLogin _ | Send RConnection _ | Spawn RLogin | SendExit RLogin | SendExit RDefault => True
  | Send RDefault _ => R
  | _ => False
  end.

(** In what the log-in controller sends, the end follows a registration. *)
Definition end_after (R : Prop) (out : list effect) : Prop :=
  ∀ pre post, out = pre ++ Send RCommand LoginControllerEnd :: post →
    R ∨ ∃ m, Send REvents m ∈ pre ∧ registration m.

Record inv (s : session) : Prop := {
  i_default : m_default_controller (a_state (s_command s)) = RDefault;
  i_active : m_active_controller (a_state (s_command s)) = None ∨
    m_active_controller (a_state (s_command s)) = Some RLogin ∨
    (m_active_controller (a_state (s_command s)) = Some RDefault ∧ registered s);
  i_end : LoginControllerEnd ∈ a_mail (s_command s) → registered s;
  i_login : Forall (login_sends) (a_out (s_login s));
  i_login_end : end_after (registered s) (a_out (s_login s));
  i_command : Forall (command_sends (registered s)) (a_out (s_command s));
  i_default_out : Forall default_sends (a_out (s_default s));
  i_default_mail : a_mail (s_default s) ≠ [] → registered s;
  i_handled : s_handled s ≠ [] → registered s;
  i_early : m_active_controller (a_state (s_command s)) = None →
    Forall (λ e, ∃ m, e = Send RConnection m) (a_out (s_command s)) ∧
    a_out (s_login s) = [] ∧ a_alive (s_login s) = false ∧
    (LoginControllerEnd ∉ a_mail (s_command s))
}.

(** The log-in controller is never forgotten: while it lives, it is the active
    controller or it has been told to exit, or will be when the command actor
    has sent what it has left to send; and a command actor that has gone has
    told both controllers. *)
Record leashed (s : session) : Prop := {
  le_spawn : Spawn RLogin ∈ a_out (s_command s) → m_active_controller (a_state (s_command s)) = Some RLogin;
  le_alive : a_alive (s_login s) = true →
    m_active_controller (a_state (s_command s)) = Some RLogin ∨ a_exit (s_login s) = true ∨
    SendExit RLogin ∈ a_out (s_command s);
  le_gone : a_alive (s_command s) = false → a_out (s_command s) = [] ∧ a_exit (s_default s) = true ∧
    (a_alive (s_login s) = true → a_exit (s_login s) = true)
}.

(** ** Helper lemmas *)
Ltac plain := repeat (apply Forall_cons_2; [by eexists|]); by apply Forall_nil_2.
Ltac sends := repeat (apply Forall_cons_2; [done|]); by apply Forall_nil_2.

Section preservation.
Context (uninit extra : list Z).
Context (Hu : length uninit = 64%nat) (He : length extra = 64%nat).

Lemma mail_out {A} m (a : actor A) : a_out (mail m a) = a_out a.
Proof. unfold mail. by destruct (a_alive a). Qed.

Lemma mail_state {A} m (a : actor A) : a_state (mail m a) = a_state a.
Proof. unfold mail. by destruct (a_alive a). Qed.

Lemma mail_alive {A} m (a : actor A) : a_alive (mail m a) = a_alive a.
Proof. unfold mail. by destruct (a_alive a) eqn:E. Qed.

Lemma mail_mail {A} m m' (a : actor A) : m' ∈ a_mail (mail m a) → m' ∈ a_mail a ∨ m' = m.
Proof.
  unfold mail. destruct (a_alive a); cbn; [|by left].
  rewrite elem_of_app, list_elem_of_singleton. tauto.
Qed.

Lemma session_new_inv : inv session_new.
Proof.
  split; cbn; try done; try by left.
  - intros H. apply list_elem_of_singleton in H. done.
  - intros pre post H. by destruct pre.
  - intros _. split_and!; try done. rewrite list_elem_of_singleton. done.
Qed.

(** Mail for the command actor that is not the end of the log-in. *)
Lemma mail_command_inv s m :
  inv s → m ≠ LoginControllerEnd ∨
    (registered s ∧ m_active_controller (a_state (s_command s)) ≠ None) →
  inv (set_command s (mail m (s_command s))).
Proof.
  intros [I1 I2 I3 I4 I5 I6 I7 I8 I9 I10] Hm. split; cbn; rewrite ?mail_state, ?mail_out; try done.
  - intros [H| <-]%mail_mail; [by apply I3|]. destruct Hm as [Hm|[? _]]; [by destruct Hm|done].
  - intros Hn. destruct (I10 Hn) as (J1 & J2 & J3 & J4). split_and!; try done.
    intros [?|E]%mail_mail; [done|]. destruct Hm as [?|[_ ?]]; [by subst|done].
Qed.

Lemma login_handle_sends (d : draws) st m st' e :
  login_handle uninit extra d st m = Ret (st', e) →
  Forall (login_sends) e ∧ ∀ R, end_after R e.
Proof.
  assert (∀ l : list effect, Forall (λ e, ∃ m, e = Send RCommand m ∧ m ≠ LoginControllerEnd) l →
    Forall (login_sends) l ∧ ∀ R, end_after R l) as Hplain.
  { intros l Hl. split.
    - eapply Forall_impl; [done|]. intros x (m' & -> & _). left. by eexists.
    - intros R pre post ->. exfalso. apply Forall_app in Hl as [_ Hl].
      apply Forall_cons in Hl as [(m' & E & Hne) _]. by simplify_eq. }
  destruct m; cbn [login_handle]; try (intros [= <- <-]; apply Hplain; plain).
  destruct (decide (username st = "")) as [|Hun].
  { intros [= <- <-]. apply Hplain. plain. }
  destruct (decide (password st = "")) as [|Hpn].
  { intros [= <- <-]. apply Hplain. plain. }
  destruct (decide (password st = input)) as [Hp|Hp].
  - destruct (login_confirm uninit extra d Hu He (draws_range d) _ _ Hun Hpn) as (text & Ht & E).
    destruct st as [u p]. cbn [username password login_handle] in *. 
    rewrite !decide_False, decide_True in E by done. rewrite E. intros [= <- <-].
    assert (registration (EventUserCreate u text)) as Hreg by (by exists u, p, text, d).
    split.
    + repeat (apply Forall_cons_2; [first [left; by eexists|right; by eexists]|]). by apply Forall_nil_2.
    + intros R pre post Hpre. right. exists (EventUserCreate u text). split; [|done].
      do 5 (destruct pre as [|? pre]; [done|]; injection Hpre as <- Hpre).
      set_solver.
  - intros [= <- <-]. apply Hplain. plain.
Qed.

Lemma end_after_tail R R' e es :
  end_after R (e :: es) → (R → R') → (∀ m, e = Send REvents m → registration m → R') →
  end_after R' es.
Proof.
  intros H HR He' pre post ->. destruct (H (e :: pre) post eq_refl) as [?|(m & Hm & Hr)]; [by left; auto|].
  apply elem_of_cons in Hm as [E|Hm]; [left; by eapply He'|right; eauto].
Qed.

Lemma command_sends_mono (R R' : Prop) l :
  (R → R') → Forall (command_sends R) l → Forall (command_sends R') l.
Proof.
  intros HR Hl. eapply Forall_impl; [done|]. intros [to m|to|a|n|n]; cbn; try done. by destruct to.
Qed.

(** A recorded event. *)
Lemma record_inv s m :
  inv s → registration m → inv (perform s (Send REvents m)).
Proof.
  intros [I1 I2 I3 I4 I5 I6 I7 I8 I9 I10] Hm.
  assert (registered (perform s (Send REvents m))) as HR.
  { exists m. split; [|done]. cbn. set_solver. }
  split; cbn; try done.
  - destruct I2 as [?|[?|[? _]]]; auto.
  - intros pre post _. by left.
  - eapply command_sends_mono; [|done]. done.
Qed.

Lemma flush_login_inv s e es :
  inv s → a_out (s_login s) = e :: es →
  inv (perform (set_login s (set_out (s_login s) es)) e).
Proof.
  intros I Hout. set (s1 := set_login s (set_out (s_login s) es)).
  pose proof (i_login _ I) as Hl. pose proof (i_login_end _ I) as Hend.
  rewrite Hout in Hl, Hend. apply Forall_cons in Hl as [He' Hes].
  assert (m_active_controller (a_state (s_command s)) ≠ None) as Hact.
  { intros Hn. destruct (i_early _ I Hn) as (_ & J & _). rewrite Hout in J. done. }
  assert (end_after (registered s) es ∨ ∃ m, e = Send REvents m ∧ registration m) as Hes'.
  { destruct He' as [[m ->]|?]; [left|by right]. by eapply end_after_tail. }
  destruct He' as [[m ->]|(m & -> & Hm)].
  - assert (inv s1) as I1.
    { destruct I as [I1 I2 I3 I4 I5 I6 I7 I8 I9 I10]. split; cbn; try done.
      destruct Hes' as [?|(m' & ? & _)]; [done|]. done. }
    apply (mail_command_inv s1 m I1).
    destruct (decide (m = LoginControllerEnd)) as [->|]; [right|by left].
    split; [|done]. destruct (Hend [] es eq_refl) as [?|(m' & []%elem_of_nil & _)]. done.
  - assert (inv (perform s (Send REvents m))) as I1 by by apply record_inv.
    destruct I1 as [I1 I2 I3 I4 I5 I6 I7 I8 I9 I10]. split; cbn in *; try done.
    + intros pre post _. left. exists m. split; [set_solver|done].
Qed.

Lemma flush_default_inv s e es :
  inv s → a_out (s_default s) = e :: es →
  inv (perform (set_default s (set_out (s_default s) es)) e).
Proof.
  intros I Hout. pose proof (i_default_out _ I) as Hd. rewrite Hout in Hd.
  apply Forall_cons in Hd as [(m & -> & Hm) Hes].
  apply (mail_command_inv (set_default s (set_out (s_default s) es)) m); [|by left].
  destruct I as [I1 I2 I3 I4 I5 I6 I7 I8 I9 I10]. by split.
Qed.

Lemma flush_command_inv s e es :
  inv s → a_out (s_command s) = e :: es →
  inv (perform (set_command s (set_out (s_command s) es)) e).
Proof.
  intros I Hout. pose proof (i_command _ I) as Hc. rewrite Hout in Hc.
  apply Forall_cons in Hc as [He' Hes].
  assert (m_active_controller (a_state (s_command s)) = None → ∃ m, e = Send RConnection m) as Hearly.
  { intros Hn. destruct (i_early _ I Hn) as (J & _). rewrite Hout in J. by apply Forall_cons in J as [? _]. }
  destruct I as [I1 I2 I3 I4 I5 I6 I7 I8 I9 I10]. rewrite Hout in I10.
  assert (m_active_controller (a_state (s_command s)) = None →
    Forall (λ e, ∃ m, e = Send RConnection m) es ∧ a_out (s_login s) = [] ∧
    a_alive (s_login s) = false ∧ (LoginControllerEnd ∉ a_mail (s_command s))) as I10'.
  { intros Hn. destruct (I10 Hn) as (J & ?). by apply Forall_cons in J as [_ ?]. }
  destruct e as [[] m|[]|[]|n|n]; try done; (split; cbn; rewrite ?mail_out, ?mail_alive; try done);
    try (intros Hn; destruct (Hearly Hn) as [? ?]; done); try (intros pre post H; by destruct pre).
Qed.

Lemma run_default_inv s m ms b :
  inv s → a_mail (s_default s) = m :: ms →
  inv (mkSession (s_command s) (s_login s) (mkActor () ms (default_handle m) true b)
    (s_user s) (s_events s) (s_handled s ++ match m with OnUserInput i => [i] | _ => [] end)).
Proof.
  intros [I1 I2 I3 I4 I5 I6 I7 I8 I9 I10] Hm.
  assert (registered s) as HR by (apply I8; by rewrite Hm).
  split; cbn; try done.
  destruct m; cbn; try done. unfold emit_help, funky_banner, emit_user, prompt_user, default_sends.
  repeat case_decide; cbn [app]; plain.
Qed.

Lemma run_login_inv (d : draws) s m ms b st e :
  inv s → a_alive (s_login s) = true →
  login_handle uninit extra d (a_state (s_login s)) m = Ret (st, e) →
  inv (set_login s (mkActor st ms e true b)).
Proof.
  intros [I1 I2 I3 I4 I5 I6 I7 I8 I9 I10] Ha He'.
  destruct (login_handle_sends _ _ _ _ _ He') as [Hs Hend]. split; cbn; try done; try apply Hend.
  intros Hn. destruct (I10 Hn) as (_ & _ & J & _). congruence.
Qed.

Lemma run_command_inv s m ms b :
  inv s → a_out (s_command s) = [] → a_mail (s_command s) = m :: ms →
  ∃ st e, command_handle (a_state (s_command s)) m = Ret (st, e) ∧
    inv (set_command s (mkActor st ms e true b)).
Proof.
  intros [I1 I2 I3 I4 I5 I6 I7 I8 I9 I10] Hout Hm.
  assert (LoginControllerEnd ∈ ms → registered s) as I3' by (intros; apply I3; rewrite Hm; by right).
  assert (∀ st e, command_handle (a_state (s_command s)) m = Ret (st, e) →
    m_active_controller st = m_active_controller (a_state (s_command s)) →
    m_default_controller st = RDefault → Forall (command_sends (registered s)) e →
    (m_active_controller st = None → Forall (λ e, ∃ m, e = Send RConnection m) e) →
    ∃ st e, command_handle (a_state (s_command s)) m = Ret (st, e) ∧
      inv (set_command s (mkActor st ms e true b))) as Hsame.
  { intros st e E Ea Ed Hs Hn. exists st, e. split; [done|].
    split; cbn; try done; rewrite ?Ea; try done.
    intros Hnone. destruct (I10 Hnone) as (_ & J2 & J3 & J4). rewrite Ea in Hn.
    split_and!; auto. intros Hin. apply J4. rewrite Hm. by right. }
  destruct (a_state (s_command s)) as [act dflt] eqn:Est. cbn in *. subst dflt.
  destruct m; try (eapply Hsame; [reflexivity|done|done|sends|intros _; plain]).
  - eexists _, _. split; [reflexivity|]. split; cbn; try done; [by right; left|]. sends.
  - destruct act as [c|]; (eapply Hsame; [reflexivity|done|done| |done || (intros _; plain)]).
    + apply Forall_cons_2; [|by apply Forall_nil_2].
      destruct I2 as [?|[?|[? ?]]]; simplify_eq/=; done.
    + sends.
  - assert (registered s) as HR by (apply I3; rewrite Hm; by left).
    destruct act as [c|].
    + eexists _, _. split; [reflexivity|]. split; cbn; try done; [by right; right|].
      destruct I2 as [?|[?|[? ?]]]; simplify_eq/=; sends.
    + destruct (I10 eq_refl) as (_ & _ & _ & J4). destruct J4. rewrite Hm. by left.
Qed.

Lemma stop_login_inv s : inv s → inv (set_login s (set_dead (s_login s))).
Proof.
  intros [I1 I2 I3 I4 I5 I6 I7 I8 I9 I10]. split; cbn; try done.
  - intros pre post H. by destruct pre.
  - intros Hn. destruct (I10 Hn) as (J1 & _ & _ & J4). done.
Qed.

Lemma stop_default_inv s : inv s → inv (set_default s (set_dead (s_default s))).
Proof. intros [I1 I2 I3 I4 I5 I6 I7 I8 I9 I10]. by split. Qed.

Lemma login_handle_returns (d : draws) st m : ∃ r, login_handle uninit extra d st m = Ret r.
Proof.
  destruct m; cbn [login_handle]; eauto. repeat case_decide; eauto.
  unfold hash_and_scrub_password. destruct (salt_loop d (draws_range d)) as (salt & -> & _).
  cbn [mbind outcome_bind]. rewrite hash_credentials_spec by done. cbn. eauto.
Qed.

(** Every enabled step of a good session has a result, which is good. *)
Lemma exec_inv l s r :
  inv s → exec uninit extra l s = Some r → ∃ s', r = Ret s' ∧ inv s'.
Proof.
  intros I. destruct l as [i|a|d|a|a]; cbn [exec].
  - intros [= <-]. eexists. split; [done|]. apply mail_command_inv; [done|by left].
  - destruct a; try done.
    + destruct (a_alive (s_command s)), (a_out (s_command s)) eqn:Ho, (a_mail (s_command s)) as [|m ms] eqn:Em;
        try done. intros [= <-].
      destruct (run_command_inv s m ms (a_exit (s_command s)) I Ho Em) as (st & e & -> & I').
      by eexists.
    + destruct (a_alive (s_default s)), (a_out (s_default s)), (a_mail (s_default s)) as [|m ms] eqn:Em;
        try done. intros [= <-]. eexists. split; [done|]. by apply run_default_inv.
  - destruct (a_alive (s_login s)) eqn:Ha, (a_out (s_login s)), (a_mail (s_login s)) as [|m ms]; try done.
    intros [= <-]. destruct (login_handle_returns d (a_state (s_login s)) m) as [[st e] E].
    rewrite E. eexists. split; [done|]. by eapply run_login_inv.
  - destruct a; try done.
    + destruct (a_out (s_command s)) eqn:E; [done|]. intros [= <-]. eexists. split; [done|].
      by apply flush_command_inv.
    + destruct (a_out (s_login s)) eqn:E; [done|]. intros [= <-]. eexists. split; [done|].
      by apply flush_login_inv.
    + destruct (a_out (s_default s)) eqn:E; [done|]. intros [= <-]. eexists. split; [done|].
      by apply flush_default_inv.
  - destruct a; try done.
    + destruct (_ && _); [|done]. intros [= <-]. eexists. split; [done|]. by apply stop_login_inv.
    + destruct (_ && _); [|done]. intros [= <-]. eexists. split; [done|]. by apply stop_default_inv.
Qed.

Lemma reachable_inv s : reachable uninit extra s → inv s.
Proof.
  intros Hr. unfold reachable in Hr. pose proof session_new_inv as I0. revert I0.
  induction Hr as [|s1 s2 s3 [l s2' Hl] _ IH]; [done|]. intros I1. apply IH.
  destruct (exec_inv l s1 _ I1 Hl) as (s' & [= <-] & I2). done.
Qed.
End preservation.

(** ** The log-in controller is never forgotten *)
Lemma mail_exit {A} m (a : actor A) : a_exit (mail m a) = a_exit a.
Proof. unfold mail. by destruct (a_alive a). Qed.

Lemma leashed_sends s e es : a_out (s_command s) = e :: es →
  leashed s → leashed (perform (set_command s (set_out (s_command s) es)) e).
Proof.
  intros Eo [L1 L2 L3]. rewrite Eo in L1, L2, L3.
  assert (a_alive (s_command s) ≠ false) as Ha by (by intros [? _]%L3).
  assert (e ≠ SendExit RLogin → leashed (set_command s (set_out (s_command s) es))) as Hl.
  { intros Hne. split; cbn; [intros H; by apply L1; right| |done]. intros Hal.
    destruct (L2 Hal) as [?|[?|[<-|?]%elem_of_cons]]; auto; done. }
  destruct (decide (e = SendExit RLogin)) as [->|Hne].
  { split; cbn; [intros H; by apply L1; right|auto|done]. }
  specialize (Hl Hne). destruct Hl as [M1 M2 M3].
  destruct e as [[] m|[]|[]|n|n]; try done;
    (split; cbn in *; rewrite ?mail_state, ?mail_out, ?mail_alive, ?mail_exit; try done).
  intros _. left. apply L1. by left.
Qed.

Lemma leashed_others s e : (∃ m, e = Send RCommand m ∨ e = Send REvents m) → leashed s → leashed (perform s e).
Proof.
  intros (m & [-> | ->]) [L1 L2 L3]; [|by split]. split; cbn; rewrite ?mail_state, ?mail_out, ?mail_alive; done.
Qed.

Lemma leashed_command s m st e b ms : leashed s → a_out (s_command s) = [] →
  command_handle (a_state (s_command s)) m = Ret (st, e) →
  leashed (set_command s (mkActor st ms e true b)).
Proof.
  intros [L1 L2 L3] Eo E. rewrite Eo in L2.
  assert (a_alive (s_login s) = true → m_active_controller (a_state (s_command s)) = Some RLogin ∨ a_exit (s_login s) = true) as L2'.
  { intros Ha. destruct (L2 Ha) as [?|[?|[]%elem_of_nil]]; auto. }
  destruct m; cbn [command_handle] in E; unfold prompt_user, emit_user in E; try (injection E as <- <-; split; cbn;
    [intros H; set_solver|intros Ha; destruct (L2' Ha); auto|done]).
  - destruct (m_active_controller (a_state (s_command s))) as [c|] eqn:Ea; injection E as <- <-;
      (split; cbn; [intros H; set_solver| |done]); rewrite ?Ea; intros Ha; destruct (L2' Ha); auto.
  - destruct (m_active_controller (a_state (s_command s))) as [c|] eqn:Ea; [|done]. injection E as <- <-.
    split; cbn; [intros H; set_solver| |done]. intros Ha. right. destruct (L2' Ha) as [[= ->]|?]; [right; by left|by left].
Qed.

Lemma exec_leashed uninit extra l s s' :
  inv s → leashed s → exec uninit extra l s = Some (Ret s') → leashed s'.
Proof.
  intros I L. pose proof L as [L1 L2 L3]. destruct l as [i|[]|d|[]|[]]; cbn [exec]; try done.
  - intros [= <-]. apply (leashed_others s (Send RCommand (OnUserInput i))); eauto.
  - destruct (a_alive (s_command s)), (a_out (s_command s)) eqn:Eo, (a_mail (s_command s)) as [|m ms]; try done.
    destruct (command_handle _ m) as [[st e]| | |] eqn:E; try done. intros [= <-]. by eapply leashed_command.
  - destruct (a_alive (s_default s)), (a_out (s_default s)), (a_mail (s_default s)) as [|m ms]; try done.
    intros [= <-]. by split.
  - destruct (a_alive (s_login s)) eqn:Ea, (a_out (s_login s)), (a_mail (s_login s)) as [|m ms]; try done.
    destruct (login_handle _ _ _ _ m) as [[st e]| | |]; try done. intros [= <-]. split; cbn; auto.
  - destruct (a_out (s_command s)) as [|e es] eqn:Eo; [done|]. intros [= <-]. by apply leashed_sends.
  - destruct (a_out (s_login s)) as [|e es] eqn:Eo; [done|]. intros [= <-].
    pose proof (i_login _ I) as HL. rewrite Eo in HL. apply Forall_cons in HL as [He _].
    apply leashed_others; [|by split]. destruct He as [[m ->]|(m & -> & _)]; eauto.
  - destruct (a_out (s_default s)) as [|e es] eqn:Eo; [done|]. intros [= <-].
    pose proof (i_default_out _ I) as HL. rewrite Eo in HL. apply Forall_cons in HL as [(m & -> & _) _].
    apply leashed_others; [|by split]. eauto.
  - destruct (_ && _); [|done]. intros [= <-]. split; cbn; auto. naive_solver.
  - destruct (_ && _); [|done]. intros [= <-]. split; cbn; auto. naive_solver.
Qed.

(** An actor that has been told to exit stays told, and a command actor that
    has gone does not come back. *)
Definition later {A} (a a' : actor A) : Prop :=
  (a_exit a = true → a_exit a' = true) ∧ (a_alive a = false → a_alive a' = false).

Lemma perform_later s e : later (s_command s) (s_command (perform s e)).
Proof. split; intros H; destruct e as [[]|[]|[]|?|?]; cbn; rewrite ?mail_exit, ?mail_alive; done. Qed.

Lemma exec_later uninit extra l s s' : exec uninit extra l s = Some (Ret s') → later (s_command s) (s_command s').
Proof.
  intros E. destruct l as [i|[]|d|[]|[]]; cbn [exec] in E; try done.
  - injection E as <-. apply (perform_later s (Send RCommand (OnUserInput i))).
  - destruct (a_alive (s_command s)) eqn:Ea, (a_out (s_command s)), (a_mail (s_command s)) as [|m ms]; try done.
    destruct (command_handle _ m) as [[st e]| | |]; try done. injection E as <-. split; cbn; congruence.
  - destruct (a_alive (s_default s)), (a_out (s_default s)), (a_mail (s_default s)) as [|m ms]; try done. by injection E as <-.
  - destruct (a_alive (s_login s)), (a_out (s_login s)), (a_mail (s_login s)) as [|m ms]; try done.
    destruct (login_handle _ _ _ _ m) as [[st e]| | |]; try done. by injection E as <-.
  - destruct (a_out (s_command s)) as [|e es]; [done|]. injection E as <-. exact (perform_later (set_command s (set_out (s_command s) es)) e).
  - destruct (a_out (s_login s)) as [|e es]; [done|]. injection E as <-. exact (perform_later (set_login s (set_out (s_login s) es)) e).
  - destruct (a_out (s_default s)) as [|e es]; [done|]. injection E as <-. exact (perform_later (set_default s (set_out (s_default s) es)) e).
  - destruct (_ && _); [|done]. by injection E as <-.
  - destruct (_ && _); [|done]. by injection E as <-.
Qed.

(** ** Main theorems *)

(** C4. No command before the log-in, under every interleaving of the
    actors of a session and every sequence of inputs: when the default
    controller has handled an input, the event recorder has been sent the
    creation of a user with a non-empty name and the salted SHA256 of a
    non-empty password; and no handler that a reachable session can run goes
    wrong (throws, or uses a null actor). *)
Theorem no_command_before_login uninit extra s :
  length uninit = 64%nat → length extra = 64%nat →
  reachable uninit extra s →
  (s_handled s ≠ [] → registered s) ∧
  (∀ l r, exec uninit extra l s = Some r → ∃ s', r = Ret s').
Proof.
  intros Hu He Hr. pose proof (reachable_inv uninit extra Hu He s Hr) as I.
  split; [apply (i_handled _ I)|]. intros l r Hl.
  destruct (exec_inv uninit extra Hu He l s r I Hl) as (s' & -> & _). by eexists.
Qed.

(** A session in which the user logs in as "ann" and asks for help. *)
Definition sample_labels : list label :=
  let F := Flush in let L := RunLogin first_draws in
  [Run RCommand; F RCommand; F RCommand; L; F RLogin; Run RCommand; F RCommand;
   Input "ann"; Run RCommand; F RCommand; L; F RLogin; F RLogin; Run RCommand; F RCommand;
   Run RCommand; F RCommand; Input "pw"; Run RCommand; F RCommand; L; F RLogin; F RLogin;
   Run RCommand; F RCommand; Run RCommand; F RCommand; Input "pw"; Run RCommand; F RCommand;
   L; F RLogin; F RLogin; F RLogin; F RLogin; F RLogin; F RLogin; Run RCommand; F RCommand;
   Run RCommand; F RCommand; Run RCommand; F RCommand; Run RCommand; F RCommand; Run RCommand;
   F RCommand; F RCommand; Stop RLogin; Input "help"; Run RCommand; F RCommand; Run RDefault;
   F RDefault; Run RCommand; F RCommand].

Lemma sample_run :
  (s ← run (replicate 64 0) (replicate 64 0) sample_labels session_new;
   Some (s_handled s, bool_decide (s_user s = []))) = Some (["help"], false).
Proof. vm_compute. reflexivity. Qed.

Lemma no_command_before_login_witness :
  ∃ s, reachable (replicate 64 0) (replicate 64 0) s ∧ s_handled s = ["help"] ∧ registered s.
Proof.
  destruct (run (replicate 64 0) (replicate 64 0) sample_labels session_new) as [s|] eqn:E;
    [|pose proof sample_run as H; rewrite E in H; discriminate H].
  assert (s_handled s = ["help"]) as Hh.
  { pose proof sample_run as H. rewrite E in H. cbn in H. congruence. }
  assert (reachable (replicate 64 0) (replicate 64 0) s) as Hr.
  { refine (run_reachable _ _ _ _ _ _ E). constructor. }
  exists s. split; [done|]. split; [done|].
  apply (no_command_before_login (replicate 64 0) (replicate 64 0) s eq_refl eq_refl Hr).
  by rewrite Hh.
Defined.

(** A password of one blank is not changed by being scrubbed: its confirmation
    typed twice before the command actor has handled the end of the log-in
    registers the user twice and ends the log-in twice, and the second end
    stops the default controller, which then handles no command. *)
Definition double_end_labels : list label :=
  let F := Flush in let L := RunLogin first_draws in
  let handle := [Run RCommand; F RCommand] in
  handle ++ [F RCommand] ++ (Input <$> ["ann"; " "; " "; " "]) ++ mjoin (replicate 4 handle) ++
  [L; F RLogin; L; F RLogin; F RLogin; L; F RLogin; F RLogin] ++
  mjoin (replicate 2 (L :: replicate 6 (F RLogin))) ++
  mjoin (replicate 10 handle) ++ [F RCommand] ++ mjoin (replicate 5 handle) ++ [F RCommand; Stop RLogin; Stop RDefault].

Example double_login_end :
  (s ← run (replicate 64 0) (replicate 64 0) double_end_labels session_new;
   Some (length (s_events s), m_active_controller (a_state (s_command s)), a_alive (s_default s))) =
  Some (2%nat, Some RDefault, false).
Proof. vm_compute. reflexivity. Qed.
