(* ===== verification/Dialogue.v ===== *)
(** * A session follows the dialogue

    Session.v lets the actors of a connection run in every interleaving;
    the specification of the log-in dialogue in Controllers.v is sequential.
    Here the first is shown to refine the second: what a session records is
    what the user has typed, and the commands the default controller handles
    are what was typed afterwards, in order. *)
From Stdlib Require Import String.
From stdpp Require Import strings.
From S2P Require Import Prelude.
From S2P Require Import Text.
From S2P Require Import Security.
From S2P Require Import Controllers.
From S2P Require Import Session.

(** ** Specification *)

(** What the user has typed in a run. *)
Definition inputs (ls : list label) : list string :=
  omap (λ l, match l with Input i => Some i | _ => None end) ls.

(** The inputs among messages, and those a handler still has to send to [c]. *)
Definition typed (ms : list msg) : list string :=
  omap (λ m, match m with OnUserInput i => Some i | _ => None end) ms.
Definition routed (c : ref) (out : list effect) : list string :=
  omap (λ e, match e with Send to (OnUserInput i) => if decide (to = c) then Some i else None | _ => None end) out.

(** The creation of the user [u] with a password. *)
Definition creates (u password : string) (m : msg) : Prop :=
  ∃ (d : draws) text, m = EventUserCreate u text ∧ stored_for d password text.

(** How often, after the password was confirmed, as many blanks were typed:
    what is left of it after scrubbing is still compared with the input. *)
Fixpoint after_first (p : string) (l : list string) : list string :=
  match l with
  | [] => []
  | i :: l => if decide (i = p) then l else after_first p l
  end.
Definition blanks_typed (typed : list string) : nat :=
  match answers typed with
  | _ :: p :: rest => count_eq (scrub p) (after_first p rest)
  | _ => 0
  end.

(** What a dialogue over [typed] may record: nothing before it is complete,
    then the user with the password typed; and again, with blanks as
    password, at most once for each time that as many blanks were typed
    afterwards. *)
Definition recorded (typed : list string) (events : list msg) : Prop :=
  match events with
  | [] => ¬ complete typed
  | m :: more => complete typed ∧ creates (username (known typed)) (password (known typed)) m ∧
      Forall (creates (username (known typed)) (scrub (password (known typed)))) more ∧
      (length more ≤ blanks_typed typed)%nat
  end.

#[export] Instance complete_dec l : Decision (complete l).
Proof. unfold complete. repeat case_match; apply _. Defined.

(** The state of the log-in controller after [typed]. *)
Definition login_state (typed : list string) : LoginController :=
  if decide (complete typed) then mkLogin (username (known typed)) (scrub (password (known typed))) else known typed.

(** ** The dialogue *)
Lemma scrub_scrub p : scrub (scrub p) = scrub p.
Proof. unfold scrub. rewrite String.list_ascii_of_string_of_list_ascii, <-list_fmap_compose. done. Qed.

Lemma scrub_nonempty p : p ≠ "" → scrub p ≠ "".
Proof. by destruct p. Qed.

(** A longer input adds nothing to a complete dialogue. *)
Lemma complete_prefix l l' : complete l → l `prefix_of` l' → complete l' ∧ known l' = known l.
Proof.
  intros Hc [k ->]. unfold complete, known in *. unfold answers in *. rewrite filter_app.
  destruct (filter nonempty l) as [|u [|p rest]]; try done. split; [|done]. cbn. apply elem_of_app. by left.
Qed.

Lemma after_first_app p l k : p ∈ l → after_first p (l ++ k) = after_first p l ++ k.
Proof.
  induction l as [|i l IH]; [by intros ?%elem_of_nil|]. cbn. intros Hp. case_decide as Hi; [done|].
  apply IH. apply elem_of_cons in Hp as [->|?]; [by destruct Hi|done].
Qed.

Lemma blanks_typed_app l k : complete l →
  blanks_typed (l ++ k) = (blanks_typed l + count_eq (scrub (password (known l))) (filter nonempty k))%nat.
Proof.
  unfold complete, blanks_typed, known, answers. rewrite filter_app.
  destruct (filter nonempty l) as [|u [|p rest]]; try done. intros Hp. cbn [app lookup list_lookup default from_option password].
  rewrite after_first_app by done. unfold count_eq. by rewrite filter_app, length_app.
Qed.

(** What has been recorded stays as it is when more is typed, and when less
    has arrived yet. *)
Lemma recorded_prefix l l' evs evs' : recorded l (evs ++ evs') → evs ≠ [] → l `prefix_of` l' → recorded l' evs.
Proof.
  intros Hr Hn Hp. destruct evs as [|m more]; [done|]. destruct Hr as (Hc & Hm & Hmore & Hl).
  destruct (complete_prefix l l' Hc Hp) as [Hc' Hk]. cbn [recorded]. rewrite Hk. split; [done|]. split; [done|].
  apply Forall_app in Hmore as [Hmore _]. split; [done|]. destruct Hp as [k ->]. rewrite blanks_typed_app by done.
  rewrite length_app in Hl. lia.
Qed.

(** Once both are known, a further input changes neither. *)
Lemma known_snoc l i : username (known l) ≠ "" → password (known l) ≠ "" → known (l ++ [i]) = known l.
Proof.
  unfold known. rewrite answers_snoc. cbn [username password].
  destruct (answers l) as [|u [|p rest]]; done.
Qed.

Section dialogue.
Context (uninit extra : list Z) (Hu : length uninit = 64%nat) (He : length extra = 64%nat).

(** A further input, after the dialogue is complete. *)
Lemma login_again (d : draws) u p i : u ≠ "" → p ≠ "" →
  ∃ e, login_handle uninit extra d (mkLogin u (scrub p)) (OnUserInput i) = Ret (mkLogin u (scrub p), e) ∧
    Forall (creates u (scrub p)) (to_events e) ∧
    (length (to_events e) ≤ count_eq (scrub p) (filter nonempty [i]))%nat.
Proof.
  intros Hun Hpn. destruct (decide (scrub p = i)) as [<-|Hi].
  - destruct (login_confirm uninit extra d Hu He (draws_range d) u (scrub p) Hun (scrub_nonempty p Hpn)) as (text & Ht & ->).
    rewrite scrub_scrub. eexists. split; [done|]. split; [constructor; [by exists d, text|constructor]|].
    rewrite filter_cons_True by by apply scrub_nonempty. unfold count_eq. by rewrite filter_cons_True.
  - cbn [login_handle username password].
    rewrite (decide_False (P := u = "")), (decide_False (P := scrub p = "")), (decide_False (P := scrub p = i))
      by eauto using scrub_nonempty.
    eexists. split; [done|]. split; [constructor|cbn; lia].
Qed.

(** What a handler of the log-in controller sends. *)
Definition login_says (e : effect) : bool :=
  match e with
  | Send RCommand (ToUserPrompt _ | ToUserEmit _ | LoginControllerEnd) | Send REvents _ => true
  | _ => false
  end.

Lemma login_handle_says (d : draws) st m st' e : login_handle uninit extra d st m = Ret (st', e) → Forall login_says e.
Proof.
  destruct m; cbn [login_handle]; try (intros E; injection E as <- <-; repeat constructor).
  repeat case_decide; try (intros E; injection E as <- <-; repeat constructor).
  intros E. apply bind_Ret_inv in E as ([st2 h] & _ & E). injection E as <- <-. repeat constructor.
Qed.

Lemma handle_events (d : draws) st m st' e : login_handle uninit extra d st m = Ret (st', e) →
  to_events e = (λ r, EventUserCreate r.1 r.2) <$> registrations e.
Proof.
  intros E. apply (login_run_events uninit extra d st [m] st' e). unfold login_run. cbn [foldM].
  rewrite E. reflexivity.
Qed.

(** The log-in controller takes one more input. *)
Lemma login_step (d : draws) l evs i : recorded l evs →
  ∃ e, login_handle uninit extra d (login_state l) (OnUserInput i) = Ret (login_state (l ++ [i]), e) ∧
    recorded (l ++ [i]) (evs ++ to_events e) ∧
    (Send RCommand LoginControllerEnd ∈ e → complete (l ++ [i])).
Proof.
  intros Hr. unfold login_state. destruct (decide (complete l)) as [Hc|Hc].
  - destruct (complete_prefix l (l ++ [i]) Hc) as [Hc' Hk]; [by apply prefix_app_r|].
    rewrite decide_True by done. rewrite Hk. destruct evs as [|m evs]; [done|]. destruct Hr as (_ & Hm & Hmore & Hlen).
    pose proof (blanks_typed_app l [i] Hc) as Hblanks.
    destruct (known_cases l) as [[Ha _]|[(u & _ & Ha & _)|(u & p & rest & Hun & Hpn & _ & E)]];
      [unfold complete in Hc; by rewrite Ha in Hc..|]. rewrite E in *. cbn [username password] in *.
    destruct (login_again d u p i Hun Hpn) as (e & -> & He' & Hcount).
    exists e. split; [done|]. split; [|done]. cbn [recorded app]. rewrite Hk. cbn [username password].
    split; [done|]. split; [done|]. split; [by apply Forall_app|]. rewrite Hblanks, length_app. lia.
  - destruct evs; [|by destruct Hr]. destruct (decide (complete (l ++ [i]))) as [Hc'|Hc'].
    + destruct (login_complete l i Hc Hc') as (E & Hun & Hi).
      destruct (login_confirm uninit extra d Hu He (draws_range d) _ i Hun Hi) as (text & Ht & Eh).
      assert (password (known l) = i) as Ep by by rewrite E. rewrite <-E in Eh.
      rewrite (known_snoc l i Hun) by by rewrite Ep. rewrite Eh, Ep.
      eexists. split; [reflexivity|]. split; [|done].
      cbn [app recorded to_events omap list_omap emit_user record_event_user_create end_controller length].
      rewrite (known_snoc l i Hun) by by rewrite Ep. rewrite Ep. split; [done|].
      split; [by exists d, text|]. split; [constructor|lia].
    + destruct (login_input uninit extra d l i Hc') as (e & E & Hreg & Hend & _). exists e. split; [done|].
      split; [|intros H; by destruct Hend]. by rewrite (handle_events _ _ _ _ _ E), Hreg.
Qed.
End dialogue.

(** ** Where the inputs are

    What was typed is, in order: the inputs [l] the log-in controller has
    handled, those in its mailbox, those the default controller has handled,
    those in its mailbox, and those the command actor has still to pass on. An
    actor that has gone forgets what it has been sent. *)

(** The command actor has not handled anything. *)
Record fresh (ins l : list string) (s : session) : Prop := mkFresh {
  fr_active : m_active_controller (a_state (s_command s)) = None;
  fr_none : l = [];
  fr_command : a_out (s_command s) = [] ∧
    (a_alive (s_command s) = true → a_mail (s_command s) = PerformWelcome :: (OnUserInput <$> ins));
  fr_login : a_alive (s_login s) = false ∧ a_exit (s_login s) = false ∧ a_mail (s_login s) = [] ∧ a_out (s_login s) = [];
  fr_default : a_mail (s_default s) = [] ∧ a_out (s_default s) = [];
  fr_events : s_events s = [];
  fr_handled : s_handled s = []
}.

(** The log-in controller has been started, or will be next. *)
Definition login_ready (l : list string) (s : session) : Prop :=
  a_alive (s_login s) = true ∧ (Spawn RLogin ∉ a_out (s_command s)) ∨
  a_alive (s_login s) = false ∧ l = [] ∧ a_mail (s_login s) = [] ∧ a_out (s_login s) = [] ∧ s_events s = [] ∧
    ∃ es, a_out (s_command s) = Spawn RLogin :: es ∧ (Spawn RLogin ∉ es).

Record logging_in (ins l : list string) (s : session) : Prop := mkLoggingIn {
  lo_active : m_active_controller (a_state (s_command s)) = Some RLogin;
  lo_inputs : ∃ rest, ins = l ++ typed (a_mail (s_login s)) ++ rest ∧
    (a_alive (s_command s) = true → rest = routed RLogin (a_out (s_command s)) ++ typed (a_mail (s_command s)));
  lo_ready : a_alive (s_command s) = true →
    login_ready l s ∧ a_exit (s_login s) = false ∧ (SendExit RLogin ∉ a_out (s_command s));
  lo_handled : s_handled s = [];
  lo_default : typed (a_mail (s_default s)) = [] ∧ routed RDefault (a_out (s_command s)) = []
}.

Record commanding (ins l : list string) (s : session) : Prop := mkCommanding {
  co_active : m_active_controller (a_state (s_command s)) = Some RDefault;
  co_inputs : ∃ rest1 rest2,
    ins = (l ++ typed (a_mail (s_login s)) ++ rest1) ++ s_handled s ++ typed (a_mail (s_default s)) ++ rest2 ∧
    (a_alive (s_command s) = true → a_alive (s_default s) = true →
      rest2 = routed RDefault (a_out (s_command s)) ++ typed (a_mail (s_command s)));
  co_login : routed RLogin (a_out (s_command s)) = [] ∧ (Spawn RLogin ∉ a_out (s_command s))
}.

(** What the default controller sends. *)
Definition default_says (e : effect) : bool :=
  match e with Send RCommand (ToUserPrompt _ | ToUserEmit _) => true | _ => false end.

Record follows (ins l : list string) (s : session) : Prop := mkFollows {
  fo_events : recorded l (s_events s ++ to_events (a_out (s_login s)));
  fo_state : a_alive (s_login s) = true → a_state (s_login s) = login_state l;
  fo_end : LoginControllerEnd ∈ a_mail (s_command s) ∨ Send RCommand LoginControllerEnd ∈ a_out (s_login s) ∨
    m_active_controller (a_state (s_command s)) = Some RDefault → complete l;
  fo_welcome : PerformWelcome ∈ a_mail (s_command s) → m_active_controller (a_state (s_command s)) = None;
  fo_says : Forall login_says (a_out (s_login s)) ∧ Forall default_says (a_out (s_default s));
  fo_phase : fresh ins l s ∨ logging_in ins l s ∨ commanding ins l s
}.

(** ** Lemmas *)
Lemma typed_app l1 l2 : typed (l1 ++ l2) = typed l1 ++ typed l2.
Proof. apply omap_app. Qed.

Lemma typed_mail {A} m (a : actor A) : typed (a_mail (mail m a)) = typed (a_mail a) ++ (if a_alive a then typed [m] else []).
Proof. unfold mail. destruct (a_alive a); cbn; [apply typed_app|by rewrite app_nil_r]. Qed.

Lemma typed_inputs ins : typed (OnUserInput <$> ins) = ins.
Proof. induction ins as [|i ins IH]; [done|]. cbn. by f_equal. Qed.

Lemma to_events_app l1 l2 : to_events (l1 ++ l2) = to_events l1 ++ to_events l2.
Proof. apply omap_app. Qed.

Lemma follows_new : follows [] [] session_new.
Proof.
  split; cbn; try done.
  - by intros [].
  - intros [H|[H|H]]; [|by apply elem_of_nil in H|done]. by apply list_elem_of_singleton in H.
  - left. by split.
Qed.

(** The log-in controller has handled the first inputs. *)
Lemma follows_prefix ins l s : follows ins l s → l `prefix_of` ins.
Proof.
  intros [_ _ _ _ _ [[_ -> _ _ _ _ _]|[[_ (rest & -> & _) _ _ _]|[_ (rest1 & rest2 & -> & _) _]]]];
    [apply prefix_nil|by eexists|rewrite <-!app_assoc; by eexists].
Qed.

(** The default controller handles what comes after a complete dialogue. *)
Definition commanded (ins handled : list string) : Prop :=
  ∃ n, handled `prefix_of` drop n ins ∧ (handled ≠ [] → complete (take n ins)).

Lemma follows_handled ins l s : follows ins l s → commanded ins (s_handled s).
Proof.
  intros [_ _ F3 _ _ [[_ _ _ _ _ _ ->]|[[_ _ _ -> _]|[C1 (rest1 & rest2 & E & _) _]]]];
    [exists 0%nat; split; [apply prefix_nil|done]..|].
  exists (length (l ++ typed (a_mail (s_login s)) ++ rest1)). rewrite E, drop_app_length, take_app_length.
  split; [by eexists|]. intros _. apply (complete_prefix l); [by apply F3; auto|by eexists].
Qed.

Lemma commanded_mono ins ins' handled : commanded ins handled → ins `prefix_of` ins' → commanded ins' handled.
Proof.
  intros (n & Hp & Hc) [k ->]. exists n. split.
  - etrans; [exact Hp|]. rewrite drop_app. by eexists.
  - intros Hn. apply (complete_prefix (take n ins)); [by apply Hc|]. rewrite take_app. by eexists.
Qed.

(** Something is typed. *)
Lemma follows_input ins l s i : follows ins l s →
  follows (ins ++ [i]) l (perform s (Send RCommand (OnUserInput i))).
Proof.
  intros [F1 F2 F3 F4 F5 F6]. split; cbn; rewrite ?mail_state; try done.
  - intros [[?|?]%mail_mail|?]; [|done|]; auto.
  - intros [?|?]%mail_mail; [auto|done].
  - destruct F6 as [[A1 A2 [A3 A3'] A4 A5 A6 A7]|[[B1 B2 B3 B4 B5]|[C1 C2 C3]]]; [left|right; left|right; right].
    + split; cbn; rewrite ?mail_state, ?mail_out, ?mail_alive; try done. split; [done|]. intros Ha.
      unfold mail. rewrite Ha. cbn. by rewrite (A3' Ha), fmap_app.
    + destruct B2 as (rest & -> & Hr). split; cbn; rewrite ?mail_state, ?mail_out, ?mail_alive; try done.
      2: { unfold login_ready in *. cbn. by rewrite mail_out. }
      exists (rest ++ [i]). rewrite <-!app_assoc. split; [done|]. intros Ha. by rewrite typed_mail, Ha, (Hr Ha), <-app_assoc.
    + destruct C2 as (rest1 & rest2 & -> & Hr). split; cbn; rewrite ?mail_state, ?mail_out, ?mail_alive; try done.
      exists rest1, (rest2 ++ [i]). rewrite <-!app_assoc. split; [done|]. intros Ha Hd.
      by rewrite typed_mail, Ha, (Hr Ha Hd), <-app_assoc.
Qed.

Lemma no_input m (ins : list string) : (∀ i, m ≠ OnUserInput i) → m ∉ OnUserInput <$> ins.
Proof. intros Hm (i & -> & _)%list_elem_of_fmap. by apply (Hm i). Qed.

(** The command actor handles a message. *)
Lemma command_fresh ins l s m ms st e b : follows ins l s → fresh ins l s →
  a_alive (s_command s) = true → a_mail (s_command s) = m :: ms →
  command_handle (a_state (s_command s)) m = Ret (st, e) →
  follows ins l (set_command s (mkActor st ms e true b)).
Proof.
  intros [F1 F2 F3 F4 F5 _] [A1 A2 [A3 A3'] (L1 & L2 & L3 & L4) [D1 D2] A6 A7] Ha Hm E.
  specialize (A3' Ha). rewrite Hm in A3'. injection A3' as -> ->. cbn in E. injection E as <- <-.
  split; cbn; try done.
  - intros [H|[H|?]]; [|apply F3; auto|done]. by apply no_input in H.
  - intros H. by apply no_input in H.
  - right; left. split; cbn; try done.
    + exists ins. subst l. rewrite L3, typed_inputs. done.
    + intros _. split; [right|split; [done|set_solver]]. split_and!; try done. cbn. eexists. split; [done|set_solver].
    + by rewrite D1.
Qed.

Lemma command_logging ins l s m ms st e b : follows ins l s → logging_in ins l s →
  a_alive (s_command s) = true → a_out (s_command s) = [] → a_mail (s_command s) = m :: ms →
  m_default_controller (a_state (s_command s)) = RDefault →
  command_handle (a_state (s_command s)) m = Ret (st, e) →
  follows ins l (set_command s (mkActor st ms e true b)).
Proof.
  intros [F1 F2 F3 F4 F5 _] [B1 (rest & -> & Hr) B3 B4 [B5 _]] Ha Ho Hm Hd E. rewrite Hm in F3, F4.
  specialize (Hr Ha). rewrite Ho, Hm in Hr. cbn [routed omap list_omap app] in Hr.
  destruct (B3 Ha) as ([[Hl _]|(_ & _ & _ & _ & _ & es & Ho' & _)] & Hx & _); [|by rewrite Ho in Ho'].
  assert (LoginControllerEnd ∈ ms ∨ Send RCommand LoginControllerEnd ∈ a_out (s_login s) → complete l) as F3'.
  { intros [?|?]; apply F3; [left; by right|auto]. }
  assert (PerformWelcome ∉ ms) as F4' by (intros ?; by rewrite F4 in B1 by by right).
  destruct (decide (m = LoginControllerEnd)) as [->|Hend].
  - cbn in E. rewrite B1 in E. injection E as <- <-. split; cbn; try done.
    + intros _. apply F3. left. by left.
    + right; right. split; cbn; [by rewrite Hd| |split; [done|set_solver]].
      exists [], rest. rewrite B4, B5, app_nil_r. split; [by rewrite <-app_assoc|]. by intros _ _.
  - assert (st = a_state (s_command s) ∧ routed RLogin e ++ typed ms = rest ∧ routed RDefault e = [] ∧
      Spawn RLogin ∉ e ∧ SendExit RLogin ∉ e) as (-> & Er & Ed & Hs & Hxe).
    { destruct m; cbn in E; try (rewrite B1 in E); try (by destruct F4; left); injection E as <- <-; subst rest; cbn;
        split_and!; try done; set_solver. }
    split; cbn; try done.
    + intros [?|[?|?]]; [auto|auto|congruence].
    + right; left. split; cbn; try done; [by exists rest|].
      intros _. split; [|done]. by left.
Qed.

Lemma command_commanding ins l s m ms st e b : follows ins l s → commanding ins l s →
  a_alive (s_command s) = true → a_out (s_command s) = [] → a_mail (s_command s) = m :: ms →
  m_default_controller (a_state (s_command s)) = RDefault →
  command_handle (a_state (s_command s)) m = Ret (st, e) →
  follows ins l (set_command s (mkActor st ms e true b)).
Proof.
  intros [F1 F2 F3 F4 F5 _] [C1 (rest1 & rest2 & -> & Hr) _] Ha Ho Hm Hd E. rewrite Hm in F3, F4.
  specialize (Hr Ha). rewrite Ho, Hm in Hr. cbn [routed omap list_omap app] in Hr.
  assert (PerformWelcome ∉ m :: ms) as F4' by (intros H; by rewrite F4 in C1).
  assert (m_active_controller st = Some RDefault ∧ routed RDefault e ++ typed ms = typed (m :: ms) ∧
    routed RLogin e = [] ∧ Spawn RLogin ∉ e) as (Ea & Er & El & Hs).
  { destruct (a_state (s_command s)) as [act dflt]. cbn in C1, Hd. subst act dflt.
    destruct m; cbn in E; try (by destruct F4'; left); injection E as <- <-; cbn; split_and!; try done; set_solver. }
  split; cbn; try done.
  - intros _. apply F3. auto.
  - intros ?. destruct F4'. by right.
  - right; right. split; cbn; try done. exists rest1, rest2. split; [done|]. intros _ Hal. by rewrite (Hr Hal).
Qed.

Lemma routed_send c m es : routed c (Send c m :: es) = typed [m] ++ routed c es.
Proof. destruct m; try done. cbn. by rewrite decide_True. Qed.

Lemma routed_other c to m es : to ≠ c → routed c (Send to m :: es) = routed c es.
Proof. intros Hc. destruct m; try done. cbn. by rewrite decide_False. Qed.

(** The command actor sends what is next. *)
Lemma flush_logging ins l s e es : follows ins l s → logging_in ins l s →
  a_out (s_command s) = e :: es → a_alive (s_command s) = true →
  command_sends True e → follows ins l (perform (set_command s (set_out (s_command s) es)) e).
Proof.
  intros [F1 F2 F3 F4 F5 _] [B1 (rest & -> & Hr) B3 B4 [B5 B6]] Ho Ha He.
  specialize (Hr Ha). destruct (B3 Ha) as (Hl & Hx & Hxe). unfold login_ready in Hl. rewrite Ho in *.
  destruct Hl as [[Hal Hsp]|(Hal & -> & Hlm & Hlo & Hev & es' & [= -> ->] & Hsp)].
  - assert (Spawn RLogin ∉ es ∧ SendExit RLogin ∉ es) as [Hsp' Hxe'] by (split; intros ?; [apply Hsp|apply Hxe]; by right).
    destruct e as [[] m|[]|[]|n|n]; try done; try (by destruct Hxe; left); try (by destruct Hsp; left); cbn [perform].
    + rewrite routed_other in Hr, B6 by done. split; cbn; try done. right; left. split; cbn; try done; [by exists rest|].
      intros _. split; [by left|done].
    + rewrite (routed_other RDefault) in B6 by done. rewrite routed_send in Hr. rewrite <-app_assoc in Hr.
      split; cbn; rewrite ?mail_state, ?mail_out, ?mail_alive; try done.
      right; left. split; cbn; rewrite ?mail_out, ?mail_alive, ?mail_exit; try done.
      * exists (routed RLogin es ++ typed (a_mail (s_command s))). rewrite typed_mail, Hal, Hr. split; [|done].
        by rewrite <-!app_assoc.
      * intros _. split; [left; cbn; by rewrite mail_alive|done].
    + rewrite routed_other in Hr by done. rewrite routed_send in B6. apply app_nil in B6 as [Hm B6].
      split; cbn; rewrite ?mail_out; try done. right; left. split; cbn; try done; [by exists rest| |].
      * intros _. split; [by left|done].
      * rewrite typed_mail, B5, Hm. by destruct (a_alive (s_default s)).
    + split; cbn; try done. right; left. split; cbn; try done; [by exists rest|].
      intros _. split; [by left|done].
  - cbn [perform]. split; cbn; try done.
    + by rewrite Hlo in F1.
    + intros [?|[[]%elem_of_nil|?]]; [apply F3; auto|congruence].
    + split; [constructor|apply F5].
    + right; left. split; cbn; try done; [rewrite Hlm; by exists rest|]. intros _. split; [by left|].
      split; [done|]. intros ?. apply Hxe. by right.
Qed.

Lemma flush_commanding ins l s e es : follows ins l s → commanding ins l s →
  a_out (s_command s) = e :: es → a_alive (s_command s) = true →
  command_sends True e → follows ins l (perform (set_command s (set_out (s_command s) es)) e).
Proof.
  intros [F1 F2 F3 F4 F5 _] [C1 (rest1 & rest2 & -> & Hr) [C3 C4]] Ho Ha He. specialize (Hr Ha). rewrite Ho in *.
  assert (Spawn RLogin ∉ es) as C4' by (intros ?; apply C4; by right).
  destruct e as [[] m|[]|[]|n|n]; try done; try (by destruct C4; left); cbn [perform].
  - rewrite routed_other in Hr, C3 by done. split; cbn; try done. right; right. split; cbn; try done. by exists rest1, rest2.
  - rewrite routed_other in Hr by done. rewrite routed_send in C3. apply app_nil in C3 as [Hm C3].
    split; cbn; rewrite ?mail_out, ?mail_alive, ?mail_state; try done.
    right; right. split; cbn; try done. exists rest1, rest2. rewrite typed_mail, Hm.
    split; [|done]. destruct (a_alive (s_login s)); by rewrite app_nil_r.
  - rewrite routed_other in C3 by done. rewrite routed_send, <-app_assoc in Hr.
    split; cbn; rewrite ?mail_out; try done. right; right. split; cbn; rewrite ?mail_alive; try done.
    rewrite typed_mail. destruct (a_alive (s_default s)) eqn:Hd.
    + exists rest1, (routed RDefault es ++ typed (a_mail (s_command s))). rewrite (Hr eq_refl). split; [|done].
      by rewrite <-!app_assoc.
    + exists rest1, rest2. by rewrite app_nil_r.
  - split; cbn; try done. right; right. split; cbn; try done. by exists rest1, rest2.
  - split; cbn; try done. right; right. split; cbn; try done. by exists rest1, rest2.
Qed.

(** A controller tells the command actor something that is no input. *)
Lemma mail_follows ins l s m : follows ins l s → m_active_controller (a_state (s_command s)) ≠ None → m ≠ PerformWelcome → (∀ i, m ≠ OnUserInput i) →
  (m = LoginControllerEnd → complete l) → follows ins l (set_command s (mail m (s_command s))).
Proof.
  intros [F1 F2 F3 F4 F5 F6] Hf Hw Hi Hend.
  assert (typed (a_mail (mail m (s_command s))) = typed (a_mail (s_command s))) as Ht.
  { rewrite typed_mail. destruct (a_alive (s_command s)); [|by rewrite app_nil_r].
    destruct m; try (by rewrite app_nil_r). by destruct (Hi input). }
  split; cbn; rewrite ?mail_state; try done.
  - intros [[?| <-]%mail_mail|?]; auto.
  - intros [?| <-]%mail_mail; [auto|done].
  - destruct F6 as [[]|[[B1 (rest & -> & Hr) B3 B4 B5]|[C1 (rest1 & rest2 & -> & Hr) C3]]]; [done|right; left|right; right].
    + split; cbn; rewrite ?mail_state, ?mail_out, ?mail_alive, ?Ht; try done; [by exists rest|].
      intros Ha. unfold login_ready. cbn. rewrite mail_out. by apply B3.
    + split; cbn; rewrite ?mail_state, ?mail_out, ?mail_alive, ?Ht; try done. by exists rest1, rest2.
Qed.

Section steps.
Context (uninit extra : list Z) (Hu : length uninit = 64%nat) (He : length extra = 64%nat).

(** The log-in controller handles a message. *)
Lemma login_follows (d : draws) ins l s m ms st e b : follows ins l s →
  a_alive (s_login s) = true → a_out (s_login s) = [] → a_mail (s_login s) = m :: ms → b = a_exit (s_login s) →
  login_handle uninit extra d (a_state (s_login s)) m = Ret (st, e) →
  follows ins (l ++ typed [m]) (set_login s (mkActor st ms e true b)).
Proof.
  intros [F1 F2 F3 F4 F5 F6] Ha Ho Hm -> E. rewrite (F2 Ha) in E. rewrite Ho in F1, F3.
  rewrite app_nil_r in F1.
  assert (st = login_state (l ++ typed [m]) ∧ recorded (l ++ typed [m]) (s_events s ++ to_events e) ∧
    (Send RCommand LoginControllerEnd ∈ e → complete (l ++ typed [m]))) as (-> & Hr & Hend).
  { destruct (typed [m]) as [|i k] eqn:Et.
    - rewrite app_nil_r. destruct m; try done; cbn in E; injection E as <- <-; (split; [done|]);
        (split; [by rewrite app_nil_r|]); cbn; set_solver.
    - destruct m; try done. injection Et as <- <-. destruct (login_step uninit extra Hu He d l _ input F1) as (e' & E' & Hr & Hend).
      rewrite E' in E. by injection E as <- <-. }
  assert (complete l → complete (l ++ typed [m])) as Hmono.
  { intros Hc. apply (complete_prefix l); [done|by apply prefix_app_r]. }
  assert (typed (a_mail (s_login s)) = typed [m] ++ typed ms) as Ht by (rewrite Hm; apply (typed_app [m])).
  split; cbn; try done.
  - intros [?|[?|?]]; auto.
  - split; [by eapply login_handle_says|apply F5].
  - destruct F6 as [[_ _ _ (? & _) _ _ _]|[[B1 (rest & -> & Hrest) B3 B4 B5]|[C1 (rest1 & rest2 & -> & Hrest) C3]]];
      [congruence|right; left|right; right].
    + split; cbn; try done.
      * exists rest. rewrite Ht. split; [by rewrite <-!app_assoc|done].
      * intros Hc. destruct (B3 Hc) as ([[_ Hs]|(? & _)] & Hx); [|congruence]. split; [by left|done].
    + split; cbn; try done. exists rest1, rest2. rewrite Ht. split; [by rewrite <-!app_assoc|done].
Qed.

(** The log-in controller sends what is next. *)
Lemma flush_login_follows ins l s e es : follows ins l s → a_out (s_login s) = e :: es →
  follows ins l (perform (set_login s (set_out (s_login s) es)) e).
Proof.
  intros F Ho. destruct F as [F1 F2 F3 F4 [F5 F5'] F6]. rewrite Ho in *. apply Forall_cons in F5 as [He' F5].
  assert (m_active_controller (a_state (s_command s)) ≠ None) as Hact.
  { destruct F6 as [[_ _ _ (_ & _ & _ & Hn) _ _ _]|[[B1 _ _ _ _]|[C1 _ _]]]; congruence. }
  assert (∀ ev, recorded l (ev ++ to_events es) → (e = Send RCommand LoginControllerEnd → complete l) →
    follows ins l (mkSession (s_command s) (set_out (s_login s) es) (s_default s) (s_user s) ev (s_handled s))) as Hgen.
  { intros ev Hev Hend. split; cbn; try done.
    - intros [?|[?|?]]; apply F3; auto. right; left. by right.
    - destruct F6 as [[]|[[B1 B2 B3 B4 B5]|[C1 (rest1 & rest2 & -> & Hrest) C3]]]; [done|right; left|right; right].
      + split; cbn; try done. intros Hc. destruct (B3 Hc) as ([Hr|(_ & _ & _ & Hn & _)] & Hx); [|congruence].
        split; [by left|done].
      + split; cbn; try done. by exists rest1, rest2. }
  assert (e = Send RCommand LoginControllerEnd → complete l) as Hend by (intros ->; apply F3; right; left; by left).
  destruct e as [[] m|[]|[]|n|n]; try done; cbn [perform].
  - apply mail_follows; [apply Hgen; [done|done]|done|by intros ->|by intros i ->|by intros ->; apply Hend].
  - apply Hgen; [|done]. by rewrite <-app_assoc.
Qed.

(** The default controller handles a message, and sends what is next. *)
Lemma default_follows ins l s m ms b : follows ins l s →
  a_alive (s_default s) = true → a_mail (s_default s) = m :: ms →
  follows ins l (mkSession (s_command s) (s_login s) (mkActor () ms (default_handle m) true b)
    (s_user s) (s_events s) (s_handled s ++ match m with OnUserInput i => [i] | _ => [] end)).
Proof.
  assert (match m with OnUserInput i => [i] | _ => [] end = typed [m]) as -> by by destruct m.
  intros [F1 F2 F3 F4 [F5 _] F6] Ha Hm.
  assert (typed (a_mail (s_default s)) = typed [m] ++ typed ms) as Ht by (rewrite Hm; apply (typed_app [m])).
  split; cbn; try done.
  - split; [done|]. destruct m; cbn; repeat constructor. repeat case_decide; repeat constructor.
  - destruct F6 as [[_ _ _ _ [Hn _] _ _]|[[B1 B2 B3 B4 [B5 B6]]|[C1 (rest1 & rest2 & -> & Hrest) C3]]];
      [by rewrite Hm in Hn|right; left|right; right].
    + rewrite Ht in B5. apply app_nil in B5 as [Hm' B5]. split; cbn; try done. rewrite B4. exact Hm'.
    + split; cbn; try done. exists rest1, rest2. rewrite Ht. split; [by rewrite <-!app_assoc|]. intros Hc _. by apply Hrest.
Qed.

Lemma flush_default_follows ins l s e es : follows ins l s → a_out (s_default s) = e :: es →
  follows ins l (perform (set_default s (set_out (s_default s) es)) e).
Proof.
  intros [F1 F2 F3 F4 [F5 F5'] F6] Ho. rewrite Ho in F5'. apply Forall_cons in F5' as [He' F5'].
  assert (m_active_controller (a_state (s_command s)) ≠ None) as Hact.
  { destruct F6 as [[_ _ _ _ [_ Hn] _ _]|[[B1 _ _ _ _]|[C1 _ _]]]; congruence. }
  destruct e as [[] m|[]|[]|n|n]; try done; cbn [perform].
  apply mail_follows; [|done|by intros ->|by intros i ->|by intros ->].
  split; cbn; try done. destruct F6 as [[]|[[B1 B2 B3 B4 B5]|[C1 C2 C3]]]; [done|right; left; by split|right; right; by split].
Qed.

(** An actor that was told to exit stops. *)
Lemma stop_login_follows ins l s : follows ins l s → a_exit (s_login s) = true → a_out (s_login s) = [] →
  follows ins l (set_login s (set_dead (s_login s))).
Proof.
  intros [F1 F2 F3 F4 [F5 F5'] F6] Hx Ho. rewrite Ho in F1, F3. split; cbn; try done.
  destruct F6 as [[_ _ _ (_ & Hn & _) _ _ _]|[[B1 (rest & -> & Hr) B3 B4 B5]|[C1 (rest1 & rest2 & -> & Hr) C3]]];
    [congruence|right; left|right; right].
  - destruct (a_alive (s_command s)) eqn:Hc; [by destruct (B3 eq_refl) as (_ & ? & _); congruence|].
    split; cbn; try done; [|by rewrite Hc]. exists (typed (a_mail (s_login s)) ++ rest). by rewrite Hc.
  - split; cbn; try done. exists (typed (a_mail (s_login s)) ++ rest1), rest2. by rewrite <-!app_assoc.
Qed.

Lemma stop_default_follows ins l s : follows ins l s → a_out (s_default s) = [] →
  follows ins l (set_default s (set_dead (s_default s))).
Proof.
  intros [F1 F2 F3 F4 [F5 F5'] F6] Ho. split; cbn; try done.
  destruct F6 as [[A1 A2 A3 A4 A5 A6 A7]|[[B1 B2 B3 B4 [B5 B6]]|[C1 (rest1 & rest2 & -> & Hr) C3]]];
    [left; by split|right; left; by split|right; right].
  split; cbn; try done. exists rest1, (typed (a_mail (s_default s)) ++ rest2). by rewrite <-!app_assoc.
Qed.

(** Every step keeps track of the inputs. *)
Lemma exec_follows lb ins l s s' : inv s → leashed s → follows ins l s → exec uninit extra lb s = Some (Ret s') →
  ∃ l', follows (ins ++ inputs [lb]) l' s'.
Proof.
  intros I L F. destruct lb as [i|[]|d|[]|[]]; cbn [exec inputs omap list_omap]; rewrite ?app_nil_r; try done.
  - intros [= <-]. exists l. by apply follows_input.
  - destruct (a_alive (s_command s)) eqn:Ha, (a_out (s_command s)) eqn:Ho, (a_mail (s_command s)) as [|m ms] eqn:Hm; try done.
    destruct (command_handle _ m) as [[st e]| | |] eqn:E; try done. intros [= <-]. exists l.
    pose proof (i_default _ I) as Hd.
    destruct (fo_phase _ _ _ F) as [A|[B|C]]; [by eapply command_fresh|by eapply command_logging|by eapply command_commanding].
  - destruct (a_alive (s_default s)) eqn:Ha, (a_out (s_default s)), (a_mail (s_default s)) as [|m ms] eqn:Hm; try done.
    intros [= <-]. exists l. by apply default_follows.
  - destruct (a_alive (s_login s)) eqn:Ha, (a_out (s_login s)) eqn:Ho, (a_mail (s_login s)) as [|m ms] eqn:Hm; try done.
    destruct (login_handle _ _ _ _ m) as [[st e]| | |] eqn:E; try done. intros [= <-]. eexists. by eapply login_follows.
  - destruct (a_out (s_command s)) as [|e es] eqn:Ho; [done|]. intros [= <-]. exists l.
    assert (a_alive (s_command s) = true) as Ha.
    { destruct (a_alive (s_command s)) eqn:Ha; [done|]. destruct (le_gone _ L Ha) as [? _]. congruence. }
    assert (command_sends True e) as Hs.
    { pose proof (i_command _ I) as Hc. rewrite Ho in Hc. apply Forall_cons in Hc as [Hc _]. destruct e as [[]|[]|[]|?|?]; done. }
    destruct (fo_phase _ _ _ F) as [[_ _ [Hn _] _ _ _ _]|[B|C]]; [congruence|by apply flush_logging|by apply flush_commanding].
  - destruct (a_out (s_login s)) as [|e es] eqn:Ho; [done|]. intros [= <-]. exists l. by apply flush_login_follows.
  - destruct (a_out (s_default s)) as [|e es] eqn:Ho; [done|]. intros [= <-]. exists l. by apply flush_default_follows.
  - destruct (a_alive (s_login s)), (a_exit (s_login s)) eqn:Hx, (decide (a_out (s_login s) = [])) as [Ho|Ho]; cbn; try done;
      rewrite ?bool_decide_false by done; try done.
    rewrite bool_decide_true by done. intros [= <-]. exists l. by apply stop_login_follows.
  - destruct (a_alive (s_default s)), (a_exit (s_default s)) eqn:Hx, (decide (a_out (s_default s) = [])) as [Ho|Ho]; cbn; try done;
      rewrite ?bool_decide_false by done; try done.
    rewrite bool_decide_true by done. intros [= <-]. exists l. by apply stop_default_follows.
Qed.

Lemma run_follows ls ins l s s' : inv s → leashed s → follows ins l s → run uninit extra ls s = Some s' →
  ∃ l', follows (ins ++ inputs ls) l' s'.
Proof.
  revert ins l s. induction ls as [|lb ls IH]; intros ins l s I L F; cbn [run].
  { intros [= <-]. exists l. by rewrite app_nil_r. }
  destruct (exec uninit extra lb s) as [r|] eqn:E; [|done].
  destruct (exec_inv uninit extra Hu He lb s r I E) as (s1 & -> & I1).
  destruct (exec_follows lb ins l s s1 I L F E) as (l1 & F1). intros Hr.
  destruct (IH _ _ s1 I1 (exec_leashed _ _ _ _ _ I L E) F1 Hr) as (l2 & F2). exists l2.
  unfold inputs. rewrite (omap_app _ [lb] ls), app_assoc. exact F2.
Qed.
End steps.

(** ** Main theorem *)

(** C5. A session refines the dialogue, under every interleaving of its
    actors and whatever is drawn for salts. Nothing is recorded before what the
    user has typed is a complete dialogue; what is recorded first is the first
    non-empty input as name with the salted hash of the second; everything
    else that is recorded is the same user again with the blanks that are left
    of the password after scrubbing, at most once for each time that just as
    many blanks were typed after the confirmation. The commands the default
    controller handles are, in order, what was typed after a complete
    dialogue. *)
Theorem session_follows_dialogue uninit extra ls s :
  length uninit = 64%nat → length extra = 64%nat → run uninit extra ls session_new = Some s →
  (s_events s ≠ [] → recorded (inputs ls) (s_events s)) ∧
  commanded (inputs ls) (s_handled s).
Proof.
  intros Hu He Hr.
  destruct (run_follows uninit extra Hu He ls [] [] session_new s session_new_inv) as (l & F);
    [split; cbn; [intros []%elem_of_nil|done|done]|apply follows_new|done|].
  cbn [app] in F.
  pose proof (follows_prefix _ _ _ F) as Hl. pose proof (fo_events _ _ _ F) as F1. set (ins := inputs ls) in *.
  split.
  - intros Hn. by eapply recorded_prefix.
  - exact (follows_handled _ _ _ F).
Qed.

(** "ann" logs in and asks for help. *)
Lemma session_follows_dialogue_witness :
  ∃ s, run (replicate 64 0) (replicate 64 0) sample_labels session_new = Some s ∧
    inputs sample_labels = ["ann"; "pw"; "pw"; "help"] ∧
    recorded ["ann"; "pw"; "pw"; "help"] (s_events s) ∧ s_handled s = ["help"] ∧
    ∃ n, ["help"] `prefix_of` drop n ["ann"; "pw"; "pw"; "help"] ∧ complete (take n ["ann"; "pw"; "pw"; "help"]).
Proof.
  destruct (run (replicate 64 0) (replicate 64 0) sample_labels session_new) as [s|] eqn:E;
    [|pose proof sample_run as H; rewrite E in H; discriminate H].
  assert (s_handled s = ["help"]) as Hh.
  { pose proof sample_run as H. rewrite E in H. cbn in H. congruence. }
  destruct (session_follows_dialogue (replicate 64 0) (replicate 64 0) sample_labels s eq_refl eq_refl E)
    as (He & n & Hn & Hc).
  assert (inputs sample_labels = ["ann"; "pw"; "pw"; "help"]) as Hi by reflexivity.
  rewrite Hi, Hh in *. exists s. split; [done|]. split; [done|]. split; [|split; [done|by exists n; auto]].
  apply He. intros Hnil. pose proof E as E'. apply (f_equal (fmap (λ s, length (s_events s)))) in E'. cbn [fmap option_fmap option_map] in E'.
  rewrite Hnil in E'. revert E'. vm_compute. discriminate.
Defined.
