(* ===== verification/Storage.v ===== *)
(** * Storage (pmud/src/storage/storage.h, storage_actor.h, pmud/test/mocks)

    The abstract class [Storage] as an interface: its operations, and what a
    storage promises as writes to a key space. The storage actor is a client
    of the interface; [MockStorage] of the tests implements the operations in
    memory. The Redis implementation is in Redis.v, the YAML loader, another
    client, in Yaml.v. *)
From Stdlib Require Import String.
From stdpp Require Import strings sorting.
From S2P Require Import Prelude.
From S2P Require Import Text.

(** ** storage_types.h *)
Abbreviation map_t := (gmap string string).
Abbreviation list_t := (list string).
Abbreviation set_t := (gset string).

Record StreamRecord := mkStreamRecord { timestamp : string; record_fields : map_t }.
Record StreamResponse := mkStreamResponse { stream_name : string; records : list StreamRecord }.

(** The order in which a [std::map] is traversed: by key, as bytes. *)
Definition key_le (p q : string * string) : Prop := String.leb p.1 q.1 = true.

#[export] Instance key_le_dec p q : Decision (key_le p q).
Proof. unfold key_le. apply _. Defined.

Definition in_key_order (m : map_t) : list (string * string) := merge_sort key_le (map_to_list m).

(** [arg_vector.push_back(key); arg_vector.push_back(val)] for each entry. *)
Definition flatten (l : list (string * string)) : list string := l ≫= (λ p, [p.1; p.2]).

(** ** storage.h

    The virtual functions. The storage is passed along by the [const] ones as
    well, since for a client of a server it is the connection. *)
Class Storage (store : Type) := {
  init : store → outcome (store * bool);
  value_store : string → string → store → outcome (store * bool);
  value_get : string → store → outcome (store * option string);
  map_store : string → string → string → store → outcome (store * bool);
  map_get : string → store → outcome (store * option map_t);
  list_store : string → string → store → outcome (store * bool);
  list_get : string → store → outcome (store * option list_t);
  set_store : string → string → store → outcome (store * bool);
  set_get : string → store → outcome (store * option set_t);
  del_key : string → store → outcome (store * bool);
  event_store : string → map_t → store → outcome (store * bool);
  stream_store : string → map_t → store → outcome (store * bool);
  read_stream_raw : string → store → outcome (store * list StreamResponse);
  read_stream_block : string → string → Z → store → outcome (store * list StreamResponse)
}.

(** ** The contract

    A storage is a space of keys, each with a typed value. A write acts on
    one key and is refused, silently, when the key holds another type. *)
Inductive value :=
  | VString (s : string)
  | VMap (m : map_t)
  | VList (l : list_t)
  | VSet (s : set_t)
  | VStream (entries : list (list (string * string))).

Abbreviation keyspace := (gmap string value).

Inductive write :=
  | WSet (key v : string)
  | WHset (key field v : string)
  | WPush (key v : string)
  | WAdd (key v : string)
  | WDel (key : string)
  | WXadd (key : string) (entry : list (string * string)).

Definition target (w : write) : string :=
  match w with
  | WSet k _ | WHset k _ _ | WPush k _ | WAdd k _ | WDel k | WXadd k _ => k
  end.

(** What a write makes of the value of its key. *)
Definition act (w : write) (o : option value) : option value :=
  match w, o with
  | WSet _ v, _ => Some (VString v)
  | WDel _, _ => None
  | WHset _ f v, None => Some (VMap {[f := v]})
  | WHset _ f v, Some (VMap m) => Some (VMap (<[f := v]> m))
  | WPush _ v, None => Some (VList [v])
  | WPush _ v, Some (VList l) => Some (VList (l ++ [v]))
  | WAdd _ v, None => Some (VSet {[v]})
  | WAdd _ v, Some (VSet s) => Some (VSet ({[v]} ∪ s))
  | WXadd _ e, None => Some (VStream [e])
  | WXadd _ e, Some (VStream l) => Some (VStream (l ++ [e]))
  | _, Some x => Some x
  end.

Definition run_write (w : write) (ks : keyspace) : keyspace := partial_alter (act w) (target w) ks.
Definition run_writes (ws : list write) (ks : keyspace) : keyspace := foldl (λ ks w, run_write w ks) ks ws.

(** What a query reads from the value of its key. *)
Definition as_value (o : option value) : option string :=
  match o with Some (VString s) => Some s | _ => None end.
Definition as_map (o : option value) : option map_t :=
  match o with None => Some ∅ | Some (VMap m) => Some m | _ => None end.
Definition as_list (o : option value) : option list_t :=
  match o with None => Some [] | Some (VList l) => Some l | _ => None end.
Definition as_set (o : option value) : option set_t :=
  match o with None => Some ∅ | Some (VSet s) => Some s | _ => None end.

(** Strings without a NUL, which a C string can carry. *)
Definition plain (s : string) : Prop := lacks Ascii.zero s.
#[export] Instance plain_dec s : Decision (plain s).
Proof. unfold plain, lacks. apply _. Defined.

Definition plain_fields (m : map_t) : Prop := map_Forall (λ k v, plain k ∧ plain v) m.

(** The events of the system, with the number of their fields. *)
Definition known_event (name : string) (fields : map_t) : Prop :=
  (name = "EventUserCreate" ∧ size fields = 2%nat) ∨
  ((name = "EventUserLogin" ∨ name = "EventUserLogout") ∧ size fields = 1%nat).

Section contract.
Context {store : Type} (ready : store → Prop) (view : store → keyspace).

(** The operation succeeds and performs the write. *)
Definition performs (op : store → outcome (store * bool)) (w : write) : Prop :=
  ∀ s, ready s → returns (op s) (λ r, ready r.1 ∧ r.2 = true ∧ view r.1 = run_write w (view s)).

(** The operation reads [f] of the value of the key. *)
Definition reads {A} (op : store → outcome (store * A)) (k : string) (f : option value → A) : Prop :=
  ∀ s, ready s → returns (op s) (λ r, ready r.1 ∧ r.2 = f (view s !! k) ∧ view r.1 = view s).
End contract.

(** [ready]: the storage can be used; [view]: its key space. *)
Class StorageLaws {store : Type} (St : Storage store) (ready : store → Prop) (view : store → keyspace) : Prop := {
  value_store_law k v : plain k → plain v → performs ready view (value_store k v) (WSet k v);
  value_get_law k : plain k → reads ready view (value_get k) k as_value;
  map_store_law k f v : plain k → plain f → plain v → performs ready view (map_store k f v) (WHset k f v);
  map_get_law k : plain k → reads ready view (map_get k) k as_map;
  list_store_law k v : plain k → plain v → performs ready view (list_store k v) (WPush k v);
  list_get_law k : plain k → reads ready view (list_get k) k as_list;
  set_store_law k v : plain k → plain v → performs ready view (set_store k v) (WAdd k v);
  set_get_law k : plain k → reads ready view (set_get k) k as_set;
  del_key_law k : plain k → performs ready view (del_key k) (WDel k);
  event_store_law name fields : plain name → plain_fields fields → known_event name fields →
    performs ready view (event_store name fields) (WXadd "events" (("event", name) :: in_key_order fields));
  stream_store_law k fields : plain k → plain_fields fields → fields ≠ ∅ →
    performs ready view (stream_store k fields) (WXadd k (in_key_order fields))
}.

(** ** mock_storage.h *)
Record MockStorage := mkMock {
  m_kv : map_t;
  m_map : gmap string map_t;
  m_list : gmap string list_t;
  m_set : gmap string set_t
}.

Definition mock_value_store (key value : string) (st : MockStorage) : outcome (MockStorage * bool) :=
  Ret (mkMock (<[key := value]> (m_kv st)) (m_map st) (m_list st) (m_set st), true).
Definition mock_value_get (key : string) (st : MockStorage) : outcome (MockStorage * option string) :=
  Ret (st, m_kv st !! key).
Definition mock_map_store (map_name key value : string) (st : MockStorage) : outcome (MockStorage * bool) :=
  let m := default ∅ (m_map st !! map_name) in
  Ret (mkMock (m_kv st) (<[map_name := <[key := value]> m]> (m_map st)) (m_list st) (m_set st), true).
Definition mock_map_get (map_name : string) (st : MockStorage) : outcome (MockStorage * option map_t) :=
  Ret (st, m_map st !! map_name).
Definition mock_list_store (list_name value : string) (st : MockStorage) : outcome (MockStorage * bool) :=
  let l := default [] (m_list st !! list_name) in
  Ret (mkMock (m_kv st) (m_map st) (<[list_name := l ++ [value]]> (m_list st)) (m_set st), true).
Definition mock_list_get (list_name : string) (st : MockStorage) : outcome (MockStorage * option list_t) :=
  Ret (st, m_list st !! list_name).
Definition mock_set_store (set_name value : string) (st : MockStorage) : outcome (MockStorage * bool) :=
  let s := default ∅ (m_set st !! set_name) in
  Ret (mkMock (m_kv st) (m_map st) (m_list st) (<[set_name := {[value]} ∪ s]> (m_set st)), true).
Definition mock_set_get (set_name : string) (st : MockStorage) : outcome (MockStorage * option set_t) :=
  Ret (st, m_set st !! set_name).

Definition mock_del_key (key : string) (st : MockStorage) : outcome (MockStorage * bool) :=
  if decide (is_Some (m_kv st !! key)) then
    Ret (mkMock (delete key (m_kv st)) (m_map st) (m_list st) (m_set st), true)
  else if decide (is_Some (m_map st !! key)) then
    Ret (mkMock (m_kv st) (delete key (m_map st)) (m_list st) (m_set st), true)
  else if decide (is_Some (m_list st !! key)) then
    Ret (mkMock (m_kv st) (m_map st) (delete key (m_list st)) (m_set st), true)
  else if decide (is_Some (m_set st !! key)) then
    Ret (mkMock (m_kv st) (m_map st) (m_list st) (delete key (m_set st)), true)
  else Ret (st, false).

#[export] Instance Mock : Storage MockStorage := {
  init st := Ret (st, true);
  value_store := mock_value_store;
  value_get := mock_value_get;
  map_store := mock_map_store;
  map_get := mock_map_get;
  list_store := mock_list_store;
  list_get := mock_list_get;
  set_store := mock_set_store;
  set_get := mock_set_get;
  del_key := mock_del_key;
  event_store _ _ st := Ret (st, true);
  stream_store _ _ st := Ret (st, true);
  read_stream_raw _ st := Ret (st, []);
  read_stream_block _ _ _ st := Ret (st, [])
}.

Definition mock_new : MockStorage := mkMock ∅ ∅ ∅ ∅.

(** ** storage_actor.h *)
Inductive storage_msg :=
  | StorageNoop
  | StorageValueStore (key value : string)
  | StorageValueGet (key : string)
  | StorageMapStore (map_name key value : string)
  | StorageMapGet (map_name : string)
  | StorageListStore (list_name value : string)
  | StorageListGet (list_name : string)
  | StorageSetStore (set_name value : string)
  | StorageSetGet (set_name : string)
  | StorageStreamStore (stream : string) (fields : map_t)
  | StorageEventStore (event_name : string) (fields : map_t).

(** What a handler answers to a request. *)
Inductive answer :=
  | NoAnswer
  | AString (o : option string)
  | AMap (o : option map_t)
  | AList (o : option list_t)
  | ASet (o : option set_t).

#[export] Instance answer_eq_dec : EqDecision answer.
Proof. solve_decision. Defined.

Section actor.
Context {store : Type} {St : Storage store}.

(** [m_storage->op(...)], its result ignored. *)
Definition tell {A} (op : store → outcome (store * A)) (s : store) : outcome (option store * answer) :=
  '(s, _) ← op s; Ret (Some s, NoAnswer).

(** [return m_storage->op(...)] *)
Definition ask {A} (op : store → outcome (store * A)) (to : A → answer) (s : store) :
    outcome (option store * answer) :=
  '(s, x) ← op s; Ret (Some s, to x).

(** The handlers; [m_storage] is a pointer that may be null. *)
Definition storage_handle (m_storage : option store) (m : storage_msg) : outcome (option store * answer) :=
  match m with
  | StorageNoop => Ret (m_storage, NoAnswer)
  | StorageValueStore key value =>
      if m_storage is Some s then tell (value_store key value) s else Ret (None, NoAnswer)
  | StorageValueGet key =>
      if m_storage is Some s then ask (value_get key) AString s else Ret (None, AString None)
  | StorageMapStore map_name key value =>
      if m_storage is Some s then tell (map_store map_name key value) s else Ret (None, NoAnswer)
  | StorageMapGet map_name =>
      if m_storage is Some s then ask (map_get map_name) AMap s else Ret (None, AMap None)
  | StorageListStore list_name value =>
      if m_storage is Some s then tell (list_store list_name value) s else Ret (None, NoAnswer)
  | StorageListGet list_name =>
      if m_storage is Some s then ask (list_get list_name) AList s else Ret (None, AList None)
  | StorageSetStore set_name value =>
      if m_storage is Some s then tell (set_store set_name value) s else Ret (None, NoAnswer)
  | StorageSetGet set_name =>
      if m_storage is Some s then ask (set_get set_name) ASet s else Ret (None, ASet None)
  | StorageStreamStore stream fields =>
      if m_storage is Some s then tell (stream_store stream fields) s else Ret (None, NoAnswer)
  | StorageEventStore event_name fields =>
      if m_storage is Some s then tell (event_store event_name fields) s else Ret (None, NoAnswer)
  end.

(** A sequence of messages and the answers. *)
Fixpoint storage_run (m_storage : option store) (ms : list storage_msg) :
    outcome (option store * list answer) :=
  match ms with
  | [] => Ret (m_storage, [])
  | m :: ms =>
      '(m_storage, a) ← storage_handle m_storage m;
      '(m_storage, l) ← storage_run m_storage ms;
      Ret (m_storage, a :: l)
  end.
End actor.

(** ** What the actor promises *)

(** The write a message asks for, and the answer it gets. *)
Definition writes_of (m : storage_msg) : list write :=
  match m with
  | StorageValueStore k v => [WSet k v]
  | StorageMapStore k f v => [WHset k f v]
  | StorageListStore k v => [WPush k v]
  | StorageSetStore k v => [WAdd k v]
  | StorageStreamStore k fields => [WXadd k (in_key_order fields)]
  | StorageEventStore name fields => [WXadd "events" (("event", name) :: in_key_order fields)]
  | _ => []
  end.

Definition answer_of (m : storage_msg) (ks : keyspace) : answer :=
  match m with
  | StorageValueGet k => AString (as_value (ks !! k))
  | StorageMapGet k => AMap (as_map (ks !! k))
  | StorageListGet k => AList (as_list (ks !! k))
  | StorageSetGet k => ASet (as_set (ks !! k))
  | _ => NoAnswer
  end.

(** The key space after some messages, and the answers on the way. *)
Fixpoint serve (ms : list storage_msg) (ks : keyspace) : keyspace * list answer :=
  match ms with
  | [] => (ks, [])
  | m :: ms =>
      let '(ks', l) := serve ms (run_writes (writes_of m) ks) in (ks', answer_of m ks :: l)
  end.

(** Without a storage there is no effect and no value. *)
Definition null_answer (m : storage_msg) : answer :=
  match m with
  | StorageValueGet _ => AString None
  | StorageMapGet _ => AMap None
  | StorageListGet _ => AList None
  | StorageSetGet _ => ASet None
  | _ => NoAnswer
  end.

(** Messages a storage must serve. *)
Definition proper (m : storage_msg) : Prop :=
  match m with
  | StorageNoop => True
  | StorageValueStore k v | StorageListStore k v | StorageSetStore k v => plain k ∧ plain v
  | StorageMapStore k f v => plain k ∧ plain f ∧ plain v
  | StorageValueGet k | StorageMapGet k | StorageListGet k | StorageSetGet k => plain k
  | StorageStreamStore k fields => plain k ∧ plain_fields fields ∧ fields ≠ ∅
  | StorageEventStore name fields => plain name ∧ plain_fields fields ∧ known_event name fields
  end.

(** ** Lemmas *)

(** The entries inserted into a map; the last value of a repeated field counts. *)
Definition last_values (l : list (string * string)) : map_t := foldl (λ m p, <[p.1 := p.2]> m) ∅ l.

Lemma foldl_insert l (m : map_t) : foldl (λ m p, <[p.1 := p.2]> m) m l = last_values l ∪ m.
Proof.
  unfold last_values. induction l as [|p l IH] using rev_ind; cbn; [by rewrite (left_id_L ∅ (∪))|].
  rewrite !foldl_app. cbn [foldl]. by rewrite IH, insert_union_l.
Qed.

(** Writes, one key at a time. *)
Definition acts (ws : list write) (o : option value) : option value := foldl (λ o w, act w o) o ws.

Lemma run_write_lookup w ks k :
  run_write w ks !! k = if decide (target w = k) then act w (ks !! k) else ks !! k.
Proof.
  unfold run_write. case_decide as H; [subst; by rewrite lookup_partial_alter_eq|].
  by rewrite lookup_partial_alter_ne.
Qed.

Lemma run_writes_lookup ws ks k :
  run_writes ws ks !! k = acts (filter (λ w, target w = k) ws) (ks !! k).
Proof.
  unfold run_writes, acts. revert ks. induction ws as [|w ws IH]; intros ks; [done|].
  cbn [foldl]. rewrite IH, run_write_lookup, filter_cons. by case_decide.
Qed.

Lemma acts_app ws1 ws2 o : acts (ws1 ++ ws2) o = acts ws2 (acts ws1 o).
Proof. unfold acts. by rewrite foldl_app. Qed.

Lemma acts_cons w ws o : acts (w :: ws) o = acts ws (act w o).
Proof. done. Qed.

(** Writes that decide the value whatever it was. *)
Definition decisive (w : write) : Prop := match w with WSet _ _ | WDel _ => True | _ => False end.
#[export] Instance decisive_dec w : Decision (decisive w).
Proof. destruct w; apply _. Defined.

Lemma acts_decisive ws o o' : Exists decisive ws → acts ws o = acts ws o'.
Proof.
  intros (w & Hw & Hd)%Exists_exists. apply list_elem_of_split in Hw as (l1 & l2 & ->).
  rewrite !acts_app. cbn. unfold acts. f_equal. by destruct w.
Qed.

(** Writes that can be repeated. *)
Definition repeatable (w : write) : Prop := match w with WPush _ _ | WXadd _ _ => False | _ => True end.

Definition hset_fields (w : write) : list (string * string) := match w with WHset _ f v => [(f, v)] | _ => [] end.
Definition added (w : write) : list string := match w with WAdd _ v => [v] | _ => [] end.

Lemma acts_map ws m :
  Forall repeatable ws → ¬ Exists decisive ws →
  acts ws (Some (VMap m)) = Some (VMap (last_values (ws ≫= hset_fields) ∪ m)).
Proof.
  rewrite <-foldl_insert. intros Hr. revert m. induction Hr as [|w ws Hw _ IH]; intros m Hd; [done|].
  rewrite Exists_cons in Hd. destruct w; try tauto; cbn; apply IH; tauto.
Qed.

Lemma acts_set ws (s : set_t) :
  Forall repeatable ws → ¬ Exists decisive ws →
  acts ws (Some (VSet s)) = Some (VSet (list_to_set (ws ≫= added) ∪ s)).
Proof.
  intros Hr. revert s. induction Hr as [|w ws Hw _ IH]; intros s Hd; [cbn; by rewrite (left_id_L ∅ (∪))|].
  rewrite Exists_cons in Hd.
  destruct w; try tauto; rewrite acts_cons; cbn [act]; (rewrite IH by tauto; do 2 f_equal; cbn; set_solver).
Qed.

Lemma acts_other ws o :
  Forall repeatable ws → ¬ Exists decisive ws →
  match o with Some (VString _) | Some (VList _) | Some (VStream _) => acts ws o = o | _ => True end.
Proof.
  intros Hr Hd. destruct o as [x|]; [|done]. destruct x; try done;
    (induction Hr as [|w ws Hw _ IH]; [done|]; rewrite Exists_cons in Hd; destruct w; try tauto; cbn; apply IH; tauto).
Qed.

(** What has been performed changes nothing when performed again. *)
Lemma acts_idempotent ws o : Forall repeatable ws → acts ws (acts ws o) = acts ws o.
Proof.
  intros Hr. destruct (decide (Exists decisive ws)) as [Hd|Hd]; [by apply acts_decisive|].
  assert (∀ m, acts ws (acts ws (Some (VMap m))) = acts ws (Some (VMap m))) as Hmap.
  { intros m. rewrite !acts_map by done. do 2 f_equal. by rewrite (assoc_L (∪)), (idemp_L (∪)). }
  assert (∀ s, acts ws (acts ws (Some (VSet s))) = acts ws (Some (VSet s))) as Hset.
  { intros s. rewrite !acts_set by done. do 2 f_equal. by rewrite (assoc_L (∪)), (idemp_L (∪)). }
  destruct o as [x|].
  - pose proof (acts_other ws (Some x) Hr Hd) as H. destruct x; auto; by rewrite !H.
  - destruct ws as [|w ws]; [done|]. destruct w; try (by inversion Hr); try (destruct Hd; by left).
    + specialize (Hmap ∅). cbn in *. exact Hmap.
    + specialize (Hset ∅). cbn in *. rewrite (right_id_L ∅ (∪)) in Hset. exact Hset.
Qed.

Lemma run_writes_idempotent ws ks :
  Forall repeatable ws → run_writes ws (run_writes ws ks) = run_writes ws ks.
Proof.
  intros Hr. apply map_eq. intros k. rewrite (run_writes_lookup ws (run_writes ws ks)), run_writes_lookup.
  apply acts_idempotent.
  rewrite Forall_forall in Hr |- *. intros w [_ Hw]%list_elem_of_filter. auto.
Qed.

Lemma run_writes_decided ws ks ks' k :
  Exists (λ w, target w = k ∧ decisive w) ws → run_writes ws ks !! k = run_writes ws ks' !! k.
Proof.
  intros (w & Hw & Hk & Hd)%Exists_exists. rewrite !run_writes_lookup. apply acts_decisive.
  apply Exists_exists. exists w. rewrite list_elem_of_filter. auto.
Qed.

Section actor_laws.
Context {store : Type} {St : Storage store} {ready : store → Prop} {view : store → keyspace}.
Context {L : StorageLaws St ready view}.

Lemma tell_performs op w (s : store) :
  performs ready view op w → ready s →
  returns (tell op s) (λ r, r.2 = NoAnswer ∧ ∃ s', r.1 = Some s' ∧ ready s' ∧ view s' = run_write w (view s)).
Proof.
  intros H Hs. unfold tell. eapply returns_bind; [exact (H s Hs)|]. intros [s' b] (Hr & _ & Hv).
  apply returns_Ret. split; [done|]. by exists s'.
Qed.

Lemma ask_reads {A} (op : store → outcome (store * A)) k f (to : A → answer) (s : store) :
  reads ready view op k f → ready s →
  returns (ask op to s) (λ r, r.2 = to (f (view s !! k)) ∧
    ∃ s', r.1 = Some s' ∧ ready s' ∧ view s' = view s).
Proof.
  intros H Hs. unfold ask. eapply returns_bind; [exact (H s Hs)|]. intros [s' x] (Hr & Hx & Hv).
  cbn [fst snd] in *. subst x. apply returns_Ret. split; [done|]. by exists s'.
Qed.

(** One message. *)
Lemma storage_handle_serves (s : store) m :
  proper m → ready s →
  returns (storage_handle (Some s) m) (λ r, r.2 = answer_of m (view s) ∧
    ∃ s', r.1 = Some s' ∧ ready s' ∧ view s' = run_writes (writes_of m) (view s)).
Proof.
  intros Hm Hs. destruct m; cbn [storage_handle writes_of answer_of run_writes foldl proper] in *;
    try (destruct Hm as (?&?&?)); try (destruct Hm as (?&?)).
  - apply returns_Ret. split; [done|]. by exists s.
  - apply tell_performs; [by eapply value_store_law|done].
  - by apply (ask_reads (value_get key) key as_value AString); [eapply value_get_law|].
  - apply tell_performs; [by eapply map_store_law|done].
  - by apply (ask_reads (map_get map_name) map_name as_map AMap); [eapply map_get_law|].
  - apply tell_performs; [by eapply list_store_law|done].
  - by apply (ask_reads (list_get list_name) list_name as_list AList); [eapply list_get_law|].
  - apply tell_performs; [by eapply set_store_law|done].
  - by apply (ask_reads (set_get set_name) set_name as_set ASet); [eapply set_get_law|].
  - apply tell_performs; [by eapply stream_store_law|done].
  - apply tell_performs; [by eapply event_store_law|done].
Qed.

Lemma storage_run_serves (s : store) ms :
  Forall proper ms → ready s →
  returns (storage_run (Some s) ms) (λ r, r.2 = (serve ms (view s)).2 ∧
    ∃ s', r.1 = Some s' ∧ ready s' ∧ view s' = (serve ms (view s)).1).
Proof.
  revert s. induction ms as [|m ms IH]; intros s Hms Hs; cbn [storage_run serve].
  { apply returns_Ret. split; [done|]. by exists s. }
  apply Forall_cons in Hms as [Hm Hms].
  eapply returns_bind; [exact (storage_handle_serves s m Hm Hs)|]. intros [o a] [Ea (s1 & Eo & Hs1 & Hv1)].
  cbn [fst snd] in *. subst a o.
  eapply returns_bind; [exact (IH s1 Hms Hs1)|]. intros [o l] [El (s2 & Eo & Hs2 & Hv2)].
  cbn [fst snd] in *. subst o l. apply returns_Ret. rewrite Hv1 in *.
  destruct (serve ms _) as [ks' l']. split; [done|]. by exists s2.
Qed.
End actor_laws.

(** ** Main theorem *)

(** C29. The storage actor serves its clients: with a storage that keeps its
    contract, every sequence of messages is handled without error; each query
    is answered from the key space that the stores before it have produced,
    in their order, and the storage ends with all stores performed. Without a
    storage every message is answered with no value and changes nothing. *)
Theorem storage_actor_serves {store : Type} {St : Storage store} {ready view}
    {L : StorageLaws St ready view} (s : store) ms :
  Forall proper ms → ready s →
  returns (storage_run (Some s) ms) (λ r, r.2 = (serve ms (view s)).2 ∧
    ∃ s', r.1 = Some s' ∧ ready s' ∧ view s' = (serve ms (view s)).1) ∧
  storage_run (store := store) None ms = Ret (None, null_answer <$> ms).
Proof.
  intros Hms Hs. split; [by apply storage_run_serves|].
  clear Hms. induction ms as [|m ms IH]; [done|]. cbn [storage_run fmap list_fmap].
  destruct m; cbn [storage_handle mbind outcome_bind]; by rewrite IH.
Qed.
