(* ===== verification/Redis.v ===== *)
(** * The Redis back end (pmud/src/storage/redis_storage.h,
    redis_stream_injestor.h, pmud/src/common/util.h, and the Lua functions of
    pmud/scripts/redis-functions/events.lua that run in the server)

    hiredis and the server are the class [Hiredis], their documented
    behaviour the class [RedisLaws]. The class [RedisStorage] implements the
    interface of Storage.v, and keeps its contract when the server behaves as
    documented. *)
From Stdlib Require Import String.
From stdpp Require Import strings sorting.
From S2P Require Import Prelude.
From S2P Require Import Text.
From S2P Require Import Storage.

(** ** hiredis *)
Inductive reply_type :=
  | REDIS_REPLY_STRING | REDIS_REPLY_ARRAY | REDIS_REPLY_INTEGER | REDIS_REPLY_NIL
  | REDIS_REPLY_STATUS | REDIS_REPLY_ERROR | REDIS_REPLY_MAP | REDIS_REPLY_OTHER.

#[export] Instance reply_type_eq_dec : EqDecision reply_type.
Proof. solve_decision. Defined.

(** [redisReply]; [str] is null in replies without text, and [element] has
    [elements] entries. *)
Inductive redisReply := mkReply {
  type : reply_type;
  integer : Z;
  str : option string;
  element : list redisReply
}.

Class Hiredis := {
  redisContext : Type;
  redisConnect : string → Z → option redisContext;
  err : redisContext → bool;
  (** [redisCommandArgv]: the reply is null when the connection is lost *)
  redisCommandArgv : list string → redisContext → redisContext * option redisReply;
  (** the arguments [redisCommand] makes of a format without conversions *)
  redisFormat : string → outcome (list string);
  (** the C library *)
  inet_addr : string → option Z;
  gethostbyname : string → option string;
  time : Z
}.

(** A [char*] carries what precedes the first NUL. *)
Fixpoint c_str (s : string) : string :=
  match s with
  | EmptyString => EmptyString
  | String c s => if decide (c = Ascii.zero) then EmptyString else String c (c_str s)
  end.

(** [std::string(reply->str)]; undefined for a null pointer. *)
Definition reply_str (r : redisReply) : outcome string := s ← from_option_ub (str r); Ret (c_str s).

(** [reply->element[i]] *)
Definition reply_element (r : redisReply) (i : Z) : outcome redisReply := vget (element r) i.

Definition elements (r : redisReply) : Z := Z.of_nat (length (element r)).

(** ** util.h *)

(** The result, and what [ip] holds afterwards. *)
Definition hostname_to_ip `{Hiredis} (hostname ip : string) : Z * string :=
  match inet_addr (c_str hostname) with
  | Some _ => (0, hostname)
  | None =>
      match gethostbyname (c_str hostname) with
      | None => (-1, ip)
      | Some h_name => (0, h_name)
      end
  end.

(** ** redis_stream_injestor.h *)

(** [for (i = 0; i < n; i += 2)] over field and value. *)
Definition read_pairs (r : redisReply) : outcome map_t :=
  foldM (λ (m : map_t) j,
    k ← reply_element r (2 * j); key ← reply_str k;
    v ← reply_element r (2 * j + 1); val ← reply_str v;
    Ret (<[key := val]> m)) ∅ (seqZ 0 ((elements r + 1) / 2)).

Definition stream_record (timestamp : string) (fields : redisReply) : outcome StreamRecord :=
  stream_fields ← read_pairs fields; Ret (mkStreamRecord timestamp stream_fields).

Definition stream_response (stream_name : string) (records : redisReply) : outcome StreamResponse :=
  stream_records ← foldM (λ l record_elem,
    if decide (elements record_elem < 2) then Ret l
    else
      t ← reply_element record_elem 0; timestamp ← reply_str t;
      fields ← reply_element record_elem 1;
      record ← stream_record timestamp fields;
      Ret (l ++ [record])) [] (element records);
  Ret (mkStreamResponse stream_name stream_records).

Definition construct_stream_responses (reply : redisReply) : outcome (list StreamResponse) :=
  if decide (type reply ≠ REDIS_REPLY_ARRAY) then Ret []
  else
    foldM (λ responses top_elem,
      if decide (elements top_elem < 2) then Ret responses
      else
        n ← reply_element top_elem 0; name ← reply_str n;
        records ← reply_element top_elem 1;
        stream ← stream_response name records;
        Ret (responses ++ [stream])) [] (element reply).

(** [redis_reply_dump], a private function; formatting a null [char*] makes
    fmt throw. *)
Definition fmt_str (r : redisReply) : outcome string :=
  match str r with Some s => Ret (c_str s) | None => Throw "string pointer is null" end.

Fixpoint redis_reply_dump (reply : redisReply) (indent : string) {struct reply} : outcome string :=
  match type reply with
  | REDIS_REPLY_STATUS => s ← fmt_str reply; Ret (indent +:+ "REDIS_REPLY_STATUS: " +:+ s +:+ endl)%string
  | REDIS_REPLY_ERROR => s ← fmt_str reply; Ret (indent +:+ "REDIS_REPLY_ERROR: " +:+ s +:+ endl)%string
  | REDIS_REPLY_INTEGER => Ret (indent +:+ "REDIS_REPLY_INTEGER: " +:+ pretty (integer reply) +:+ endl)%string
  | REDIS_REPLY_NIL => Ret (indent +:+ "REDIS_REPLY_NIL" +:+ endl)%string
  | REDIS_REPLY_STRING => s ← fmt_str reply; Ret (indent +:+ "REDIS_REPLY_STRING: " +:+ s)%string
  | REDIS_REPLY_ARRAY =>
      foldM (λ str e, s ← redis_reply_dump e (indent +:+ "  ")%string; Ret (str +:+ s +:+ endl)%string)
        (indent +:+ "REDIS_REPLY_ARRAY" +:+ endl)%string (element reply)
  | _ => Ret "Unknown"
  end.

(** ** redis_storage.h *)
Section redis.
Context {R : Hiredis}.

(** [redisCommandArgv(m_context.get(), ...)] through a null pointer is
    undefined; arguments are passed as C strings. [redisCommand] with a
    format of words and [%s] conversions makes the same arguments. *)
Definition redisCommand (args : list string) (m_context : option redisContext) :
    outcome (option redisContext * option redisReply) :=
  c ← from_option_ub m_context;
  let '(c, reply) := redisCommandArgv (c_str <$> args) c in
  Ret (Some c, reply).

Record RedisStorage := mkRedis {
  m_host : string;
  m_port : Z;
  m_context : option redisContext
}.

Definition RedisStorage_new (host : string) (port : Z) : RedisStorage := mkRedis host port None.

Definition run_command (args : list string) (st : RedisStorage) : outcome (RedisStorage * option redisReply) :=
  '(c, reply) ← redisCommand args (m_context st);
  Ret (mkRedis (m_host st) (m_port st) c, reply).

(** [return reply != nullptr] *)
Definition succeeded (args : list string) (st : RedisStorage) : outcome (RedisStorage * bool) :=
  '(st, reply) ← run_command args st; Ret (st, bool_decide (is_Some reply)).

(** The reply of a query, [nullopt] when there is none. *)
Definition queried {A} (args : list string) (convert : redisReply → outcome (option A)) (st : RedisStorage) :
    outcome (RedisStorage * option A) :=
  '(st, reply) ← run_command args st;
  match reply with
  | None => Ret (st, None)
  | Some reply => x ← convert reply; Ret (st, x)
  end.

Definition redis_value_store (key value : string) := succeeded ["SET"; key; value].

Definition redis_value_get (key : string) := queried ["GET"; key] (λ reply,
  if decide (type reply = REDIS_REPLY_STRING) then s ← reply_str reply; Ret (Some s) else Ret None).

Definition redis_map_store (map_name key value : string) := succeeded ["HSET"; map_name; key; value].

Definition redis_map_get (map_name : string) := queried ["HGETALL"; map_name] (λ reply,
  if decide (type reply = REDIS_REPLY_MAP ∨ type reply = REDIS_REPLY_ARRAY) then
    result ← read_pairs reply; Ret (Some result)
  else Ret None).

Definition redis_list_store (list_name value : string) := succeeded ["RPUSH"; list_name; value].

Definition redis_list_get (list_name : string) := queried ["LRANGE"; list_name; "0"; "-1"] (λ reply,
  if decide (type reply = REDIS_REPLY_ARRAY) then
    result ← foldM (λ (l : list_t) e, s ← reply_str e; Ret (l ++ [s])) [] (element reply);
    Ret (Some result)
  else Ret None).

Definition redis_set_store (set_name value : string) := succeeded ["SADD"; set_name; value].

Definition redis_set_get (set_name : string) := queried ["SMEMBERS"; set_name] (λ reply,
  if decide (type reply = REDIS_REPLY_ARRAY) then
    result ← foldM (λ (l : set_t) e, s ← reply_str e; Ret ({[s]} ∪ l)) ∅ (element reply);
    Ret (Some result)
  else Ret None).

Definition redis_del_key (key : string) := succeeded ["DEL"; key].

Definition redis_event_store (event_name : string) (fields : map_t) :=
  succeeded (["FCALL"; event_name; "1"; "events"] ++ flatten (in_key_order fields)).

Definition redis_stream_store (map_name : string) (fields : map_t) :=
  succeeded (["XADD"; map_name; "*"] ++ flatten (in_key_order fields)).

(** The streams in a reply, none when there is no reply. *)
Definition responses (args : list string) (st : RedisStorage) : outcome (RedisStorage * list StreamResponse) :=
  '(st, reply) ← run_command args st;
  match reply with
  | None => Ret (st, [])
  | Some reply => l ← construct_stream_responses reply; Ret (st, l)
  end.

(** The command is used as a format. *)
Definition redis_read_stream_raw (command : string) (st : RedisStorage) :=
  args ← redisFormat (c_str command); responses args st.

(** [XREAD BLOCK timeout STREAMS name pos] *)
Definition redis_read_stream_block (name pos : string) (timeout : Z) :=
  responses ["XREAD"; "BLOCK"; pretty timeout; "STREAMS"; name; pos].

Definition redis_init (st : RedisStorage) : outcome (RedisStorage * bool) :=
  let '(res, ip) := hostname_to_ip (m_host st) "" in
  if decide (res = -1) then Ret (st, false)
  else
    let st := mkRedis (m_host st) (m_port st) (redisConnect (c_str ip) (m_port st)) in
    match m_context st with
    | None => Ret (st, false)
    | Some c =>
        if err c then Ret (st, false)
        else
          '(st, _) ← redis_value_store "server_last_connected" (pretty time) st;
          Ret (st, true)
    end.

#[export] Instance Redis : Storage RedisStorage := {
  init := redis_init;
  value_store := redis_value_store;
  value_get := redis_value_get;
  map_store := redis_map_store;
  map_get := redis_map_get;
  list_store := redis_list_store;
  list_get := redis_list_get;
  set_store := redis_set_store;
  set_get := redis_set_get;
  del_key := redis_del_key;
  event_store := redis_event_store;
  stream_store := redis_stream_store;
  read_stream_raw := redis_read_stream_raw;
  read_stream_block := redis_read_stream_block
}.

(** [stoul(text)]: blanks, a sign, digits, and anything after them;
    [std::invalid_argument] without a digit, [std::out_of_range] when the
    digits do not fit, a negative number wrapped. *)
Definition stoul (text : string) : outcome Z :=
  let '(negative, s) := sign (skip_space text) in
  match digits None s with
  | None => Throw "stoul"
  | Some n => if decide (2 ^ 64 ≤ n) then Throw "stoul" else Ret (if negative : bool then (- n) mod 2 ^ 64 else n)
  end.

(** [initialize_redis_storage], from the environment variables; a null
    pointer when the server cannot be reached. *)
Definition initialize_redis_storage (REDIS_HOST REDIS_PORT : option string) : outcome (option RedisStorage) :=
  let redis_host := default "localhost" REDIS_HOST in
  redis_port ← match REDIS_PORT with Some p => n ← stoul p; Ret (n mod 2 ^ 16) | None => Ret 6379 end;
  '(storage, ok) ← redis_init (RedisStorage_new redis_host redis_port);
  Ret (if ok : bool then Some storage else None).
End redis.

(** ** events.lua

    The functions registered in the server: the command a call passes to
    [redis.call], or nothing when the call fails ([assert], or an argument
    that is not there). *)
Definition lua_call (event : string) (n : nat) (keys args : list string) : option (list string) :=
  match keys with
  | stream_name :: _ =>
      if decide (stream_name = "events") then
        if decide (n ≤ length args)%nat then
          Some (["XADD"; stream_name; "*"; "event"; event] ++ take n args)
        else None
      else None
  | [] => None
  end.

Definition lua_EventUserCreate := lua_call "EventUserCreate" 4.
Definition lua_EventUserLogin := lua_call "EventUserLogin" 2.
Definition lua_EventUserLogout := lua_call "EventUserLogout" 2.

(** [redis.register_function] *)
Definition lua_functions (name : string) : option (list string → list string → option (list string)) :=
  if decide (name = "EventUserCreate") then Some lua_EventUserCreate
  else if decide (name = "EventUserLogin") then Some lua_EventUserLogin
  else if decide (name = "EventUserLogout") then Some lua_EventUserLogout
  else None.

(** ** Documented behaviour of the server *)

(** The commands that write one key. *)
Inductive primitive : list string → write → Prop :=
  | p_set k v : primitive ["SET"; k; v] (WSet k v)
  | p_hset k f v : primitive ["HSET"; k; f; v] (WHset k f v)
  | p_rpush k v : primitive ["RPUSH"; k; v] (WPush k v)
  | p_sadd k v : primitive ["SADD"; k; v] (WAdd k v)
  | p_del k : primitive ["DEL"; k] (WDel k)
  | p_xadd k l : l ≠ [] → primitive (["XADD"; k; "*"] ++ flatten l) (WXadd k l).

(** [FCALL] runs a registered function, which runs its command. *)
Inductive writes_as (args : list string) (w : write) : Prop :=
  | w_primitive : primitive args w → writes_as args w
  | w_fcall f lua rest cmd : args = ["FCALL"; f; "1"; "events"] ++ rest →
      lua_functions f = Some lua → lua ["events"] rest = Some cmd → primitive cmd w → writes_as args w.

Definition string_reply (s : string) : redisReply := mkReply REDIS_REPLY_STRING 0 (Some s) [].
Definition nil_reply : redisReply := mkReply REDIS_REPLY_NIL 0 None [].
Definition array_reply (l : list redisReply) : redisReply := mkReply REDIS_REPLY_ARRAY 0 None l.
Definition error_reply (s : string) : redisReply := mkReply REDIS_REPLY_ERROR 0 (Some s) [].

Inductive is_query (k : string) : list string → Prop :=
  | q_get : is_query k ["GET"; k]
  | q_hgetall : is_query k ["HGETALL"; k]
  | q_lrange : is_query k ["LRANGE"; k; "0"; "-1"]
  | q_smembers : is_query k ["SMEMBERS"; k].

(** The reply to a query of a key holding [o]: sets and hashes come in any
    order. *)
Inductive replies (k : string) (o : option value) : list string → redisReply → Prop :=
  | r_get s : o = Some (VString s) → replies k o ["GET"; k] (string_reply s)
  | r_get_nil : o = None → replies k o ["GET"; k] nil_reply
  | r_hgetall m l : as_map o = Some m → l ≡ₚ map_to_list m →
      replies k o ["HGETALL"; k] (array_reply (string_reply <$> flatten l))
  | r_lrange l : as_list o = Some l → replies k o ["LRANGE"; k; "0"; "-1"] (array_reply (string_reply <$> l))
  | r_smembers s l : as_set o = Some s → l ≡ₚ base.elements s →
      replies k o ["SMEMBERS"; k] (array_reply (string_reply <$> l))
  | r_get_wrong e : o ≠ None → as_value o = None → replies k o ["GET"; k] (error_reply e)
  | r_hgetall_wrong e : as_map o = None → replies k o ["HGETALL"; k] (error_reply e)
  | r_lrange_wrong e : as_list o = None → replies k o ["LRANGE"; k; "0"; "-1"] (error_reply e)
  | r_smembers_wrong e : as_set o = None → replies k o ["SMEMBERS"; k] (error_reply e).

(** As long as the connection holds, every command gets a reply: a write is
    performed, or refused when the key has another type; a query is answered. *)
Class RedisLaws (R : Hiredis) (connected : redisContext → Prop) (keys : redisContext → keyspace) : Prop := {
  write_law args w c : writes_as args w → connected c →
    ∃ c' r, redisCommandArgv args c = (c', Some r) ∧ connected c' ∧ keys c' = run_write w (keys c);
  query_law k args c : is_query k args → connected c →
    ∃ c' r, redisCommandArgv args c = (c', Some r) ∧ connected c' ∧ keys c' = keys c ∧
      replies k (keys c !! k) args r
}.

(** ** Lemmas on strings and replies *)
Lemma c_str_plain s : plain s → c_str s = s.
Proof.
  unfold plain, lacks. induction s as [|c s IH]; intros Hp; [done|]. cbn [c_str] in *.
  apply not_elem_of_cons in Hp as [Hc Hp]. rewrite decide_False by done. by rewrite IH.
Qed.

Lemma c_str_all l : Forall plain l → c_str <$> l = l.
Proof. induction 1 as [|s l Hs _ IH]; [done|]. cbn. by rewrite IH, c_str_plain. Qed.

Lemma flatten_plain l : Forall (λ p, plain p.1 ∧ plain p.2) l → Forall plain (flatten l).
Proof. induction 1 as [|p l [H1 H2] _ IH]; [constructor|]. cbn. by repeat constructor. Qed.

Lemma flatten_length l : length (flatten l) = (2 * length l)%nat.
Proof. induction l as [|p l IH]; [done|]. cbn. unfold flatten in IH. rewrite IH. lia. Qed.

Lemma in_key_order_perm m : in_key_order m ≡ₚ map_to_list m.
Proof. apply merge_sort_Permutation. Qed.

Lemma in_key_order_plain m : plain_fields m → Forall (λ p, plain p.1 ∧ plain p.2) (in_key_order m).
Proof. intros Hm. rewrite in_key_order_perm. apply map_Forall_to_list in Hm.
  eapply Forall_impl; [exact Hm|]. by intros []. Qed.

Lemma in_key_order_length m : length (in_key_order m) = size m.
Proof. by rewrite in_key_order_perm, length_map_to_list. Qed.

Lemma in_key_order_nonempty m : m ≠ ∅ → in_key_order m ≠ [].
Proof.
  intros Hm E. apply Hm. apply map_to_list_empty_iff. pose proof (in_key_order_perm m) as H.
  rewrite E in H. by apply Permutation_nil in H.
Qed.

(** A key space without NULs. *)
Definition plain_value (x : value) : Prop :=
  match x with
  | VString s => plain s
  | VMap m => plain_fields m
  | VList l => Forall plain l
  | VSet s => set_Forall plain s
  | VStream _ => True
  end.
Definition plain_keys (ks : keyspace) : Prop := map_Forall (λ _ x, plain_value x) ks.

Definition plain_write (w : write) : Prop :=
  match w with
  | WSet _ v | WPush _ v | WAdd _ v => plain v
  | WHset _ f v => plain f ∧ plain v
  | _ => True
  end.

Lemma run_write_plain w ks : plain_write w → plain_keys ks → plain_keys (run_write w ks).
Proof.
  intros Hw Hk k x. unfold run_write. destruct (decide (target w = k)) as [<-|Hne];
    [|rewrite lookup_partial_alter_ne by done; apply Hk].
  rewrite lookup_partial_alter_eq. pose proof (Hk (target w)) as Ho.
  destruct (ks !! target w) as [y|]; [specialize (Ho y eq_refl)|clear Ho];
    [destruct w, y|destruct w]; cbn in *; intros ?; simplify_eq; try done.
  - by apply map_Forall_insert_2.
  - apply Forall_app. by repeat constructor.
  - apply set_Forall_union; [by apply set_Forall_singleton|done].
  - by apply map_Forall_singleton.
  - by repeat constructor.
  - by apply set_Forall_singleton.
Qed.

(** Pairs of strings in an array. *)
Lemma flatten_lookup l j p :
  l !! j = Some p → flatten l !! (2 * j)%nat = Some p.1 ∧ flatten l !! (2 * j + 1)%nat = Some p.2.
Proof.
  revert j. induction l as [|q l IH]; intros [|j] Hj; try done; cbn in Hj.
  - by injection Hj as ->.
  - replace (2 * S j)%nat with (S (S (2 * j))) by lia. cbn [Nat.add flatten mbind list_bind app].
    apply (IH j Hj).
Qed.

Lemma reply_str_string s : plain s → reply_str (string_reply s) = Ret s.
Proof. intros Hs. unfold reply_str. cbn. by rewrite c_str_plain. Qed.

Lemma reply_element_strings l i s :
  l !! i = Some s → reply_element (array_reply (string_reply <$> l)) (Z.of_nat i) = Ret (string_reply s).
Proof.
  intros Hi. unfold reply_element. cbn [element array_reply]. rewrite vget_fmap.
  assert (vget l (Z.of_nat i) = Ret s) as -> by (apply vget_Ret; rewrite Nat2Z.id; split; [lia|done]).
  done.
Qed.

Lemma read_pairs_flatten l :
  Forall (λ p, plain p.1 ∧ plain p.2) l →
  read_pairs (array_reply (string_reply <$> flatten l)) = Ret (foldl (λ m p, <[p.1 := p.2]> m) ∅ l).
Proof.
  intros Hl. unfold read_pairs.
  replace ((elements _ + 1) / 2) with (Z.of_nat (length l)).
  2:{ unfold elements. cbn [element array_reply]. rewrite length_fmap, flatten_length.
      rewrite Nat2Z.inj_mul. apply (Z.div_unique _ _ _ 1); lia. }
  assert (∀ j, (j ≤ length l)%nat →
    foldM (λ (m : map_t) j,
      k ← reply_element (array_reply (string_reply <$> flatten l)) (2 * j); key ← reply_str k;
      v ← reply_element (array_reply (string_reply <$> flatten l)) (2 * j + 1); val ← reply_str v;
      Ret (<[key := val]> m)) ∅ (seqZ 0 (Z.of_nat j)) = Ret (foldl (λ m p, <[p.1 := p.2]> m) ∅ (take j l))) as H.
  2:{ rewrite H by done. by rewrite firstn_all. }
  induction j as [|j IH]; intros Hj; [done|].
  destruct (lookup_lt_is_Some_2 l j) as [p Hp]; [lia|].
  destruct (flatten_lookup l j p Hp) as [H1 H2].
  pose proof (Forall_lookup_1 _ _ _ _ Hl Hp) as [P1 P2].
  rewrite Nat2Z.inj_succ, <-Z.add_1_r, (seqZ_app 0 (Z.of_nat j) 1) by lia. rewrite foldM_app, IH by lia.
  rewrite (take_S_r l j p Hp), foldl_app. cbn [mbind outcome_bind seqZ fmap list_fmap foldM foldl seq].
  change (seqZ (0 + Z.of_nat j) 1) with [0 + (0 + Z.of_nat j)]. cbn [foldM].
  replace (2 * (0 + (0 + Z.of_nat j))) with (Z.of_nat (2 * j)) by lia.
  replace (Z.of_nat (2 * j) + 1) with (Z.of_nat (2 * j + 1)) by lia.
  rewrite (reply_element_strings _ _ _ H1), (reply_element_strings _ _ _ H2).
  cbn [mbind outcome_bind]. by rewrite !reply_str_string.
Qed.

(** The entries of a map, in any order, rebuild it. *)
Lemma rebuild_map l (m : map_t) : l ≡ₚ map_to_list m → foldl (λ m p, <[p.1 := p.2]> m) ∅ l = m.
Proof.
  intros Hl. assert (∀ (l : list (string * string)) (m0 : map_t), NoDup l.*1 → (∀ k, k ∈ l.*1 → m0 !! k = None) →
    foldl (λ m p, <[p.1 := p.2]> m) m0 l = list_to_map l ∪ m0) as H.
  { clear. induction l as [|[k v] l IH]; intros m0 Hd Hm; cbn in *.
    - by rewrite (left_id_L ∅ (∪)).
    - apply NoDup_cons in Hd as [Hk Hd]. rewrite IH; [|done|].
      + rewrite <-insert_union_r by (by apply not_elem_of_list_to_map). by rewrite insert_union_l.
      + intros k' Hk'. rewrite lookup_insert_ne by set_solver. apply Hm. set_solver. }
  assert (NoDup l.*1) as Hd by (rewrite Hl; apply NoDup_fst_map_to_list).
  rewrite H by done. rewrite (right_id_L ∅ (∪)), (list_to_map_proper l (map_to_list m)) by done.
  apply list_to_map_to_list.
Qed.

Lemma read_list l acc :
  Forall plain l →
  foldM (λ (l : list_t) e, s ← reply_str e; Ret (l ++ [s])) acc (string_reply <$> l) = Ret (acc ++ l).
Proof.
  intros Hl. revert acc. induction Hl as [|s l Hs _ IH]; intros acc; cbn [fmap list_fmap foldM];
    [by rewrite app_nil_r|].
  rewrite reply_str_string by done. cbn [mbind outcome_bind]. rewrite IH. by rewrite <-app_assoc.
Qed.

Lemma read_set l acc :
  Forall plain l →
  foldM (λ (l : set_t) e, s ← reply_str e; Ret ({[s]} ∪ l)) acc (string_reply <$> l) = Ret (list_to_set l ∪ acc).
Proof.
  intros Hl. revert acc. induction Hl as [|s l Hs _ IH]; intros acc; cbn [fmap list_fmap foldM].
  - f_equal. set_solver.
  - rewrite reply_str_string by done. cbn [mbind outcome_bind]. rewrite IH. f_equal. cbn. set_solver.
Qed.

(** Closes [Forall plain args] for arguments that are literal or assumed plain. *)
Ltac plains :=
  repeat (apply Forall_cons_2; [first [done | refine (bool_decide_unpack _ _); vm_compute; exact I]|]);
  try apply Forall_nil_2.

(** ** The contract *)
Section laws.
Context {R : Hiredis} {connected : redisContext → Prop} {keys : redisContext → keyspace}.
Context {L : RedisLaws R connected keys}.

Definition redis_ready (st : RedisStorage) : Prop :=
  ∃ c, m_context st = Some c ∧ connected c ∧ plain_keys (keys c).

Definition redis_view (st : RedisStorage) : keyspace :=
  match m_context st with Some c => keys c | None => ∅ end.

Lemma run_command_eq args c st c' r :
  m_context st = Some c → Forall plain args → redisCommandArgv args c = (c', r) →
  run_command args st = Ret (mkRedis (m_host st) (m_port st) (Some c'), r).
Proof.
  intros Hc Hp E. unfold run_command, redisCommand. rewrite Hc. cbn [from_option_ub mbind outcome_bind].
  by rewrite c_str_all, E by done.
Qed.

Lemma succeeded_performs args w :
  writes_as args w → Forall plain args → plain_write w →
  performs redis_ready redis_view (succeeded args) w.
Proof.
  intros Hw Hp Hpw st (c & Hc & Hcon & Hk).
  destruct (write_law args w c Hw Hcon) as (c' & r & E & Hcon' & Hk').
  unfold succeeded. rewrite (run_command_eq _ _ _ _ _ Hc Hp E). cbn [mbind outcome_bind].
  apply returns_Ret. split_and!; [|done|].
  - exists c'. split_and!; [done|done|]. rewrite Hk'. by apply run_write_plain.
  - unfold redis_view. cbn. by rewrite Hc.
Qed.

Lemma queried_reads {A} args k (convert : redisReply → outcome (option A)) f :
  is_query k args → Forall plain args →
  (∀ o r, (∀ x, o = Some x → plain_value x) → replies k o args r → convert r = Ret (f o)) →
  reads redis_ready redis_view (queried args convert) k f.
Proof.
  intros Hq Hp Hf st (c & Hc & Hcon & Hk).
  destruct (query_law k args c Hq Hcon) as (c' & r & E & Hcon' & Hk' & Hr).
  unfold queried. rewrite (run_command_eq _ _ _ _ _ Hc Hp E). cbn [mbind outcome_bind].
  rewrite (Hf _ _ (λ x Hx, Hk k x Hx) Hr). cbn [mbind outcome_bind]. apply returns_Ret. cbn [fst snd].
  split_and!.
  - exists c'. split_and!; [done|done|]. by rewrite Hk'.
  - unfold redis_view. by rewrite Hc.
  - unfold redis_view. by rewrite Hc.
Qed.

Lemma value_get_reads k : plain k → reads redis_ready redis_view (redis_value_get k) k as_value.
Proof.
  intros Hk. apply queried_reads; [apply q_get|plains|].
  intros o r Ho Hr. inversion Hr; subst; try done; cbn [type string_reply decide].
  - rewrite decide_True by done. rewrite reply_str_string by (by apply (Ho (VString s))). done.
  - cbn. destruct o as [[]|]; done.
Qed.

Lemma map_get_reads k : plain k → reads redis_ready redis_view (redis_map_get k) k as_map.
Proof.
  intros Hk. apply queried_reads; [apply q_hgetall|plains|].
  intros o r Ho Hr. inversion Hr as [| |m l E Hl| | | |e E| |]; subst; [|by rewrite E].
  rewrite E, decide_True by (by right). rewrite read_pairs_flatten.
  - cbn [mbind outcome_bind]. by rewrite (rebuild_map l m).
  - assert (plain_fields m) as Hm.
    { destruct o as [[]|]; cbn in E; simplify_eq; [by apply (Ho (VMap m))|apply map_Forall_empty]. }
    rewrite Hl. apply map_Forall_to_list in Hm. eapply Forall_impl; [exact Hm|]. by intros [].
Qed.

Lemma list_get_reads k : plain k → reads redis_ready redis_view (redis_list_get k) k as_list.
Proof.
  intros Hk. apply queried_reads; [apply q_lrange|plains|].
  intros o r Ho Hr. inversion Hr as [| | |l E| | | |e E|]; subst; [|by rewrite E].
  rewrite E, decide_True by done. cbn [element array_reply]. rewrite read_list; [done|].
  destruct o as [[]|]; cbn in E; simplify_eq; [by apply (Ho (VList l))|constructor].
Qed.

Lemma set_get_reads k : plain k → reads redis_ready redis_view (redis_set_get k) k as_set.
Proof.
  intros Hk. apply queried_reads; [apply q_smembers|plains|].
  intros o r Ho Hr. inversion Hr as [| | | |s l E Hl| | | |e E]; subst; [|by rewrite E].
  rewrite E, decide_True by done. cbn [element array_reply]. rewrite read_set.
  - cbn [mbind outcome_bind]. do 2 f_equal. rewrite (right_id_L ∅ (∪)).
    apply set_eq. intros x. rewrite elem_of_list_to_set, Hl, elem_of_elements. done.
  - rewrite Hl. apply set_Forall_elements.
    destruct o as [[]|]; cbn in E; simplify_eq; [by apply (Ho (VSet s))|apply set_Forall_empty].
Qed.

(** A call of a registered function ends in its [XADD]. *)
Lemma event_writes name fields :
  known_event name fields →
  writes_as (["FCALL"; name; "1"; "events"] ++ flatten (in_key_order fields))
    (WXadd "events" (("event", name) :: in_key_order fields)).
Proof.
  intros Hk. assert (∀ lua n, lua_functions name = Some lua → lua = lua_call name (2 * n) → size fields = n →
    writes_as (["FCALL"; name; "1"; "events"] ++ flatten (in_key_order fields))
      (WXadd "events" (("event", name) :: in_key_order fields))) as H.
  { intros lua n Hl -> Hn.
    eapply (w_fcall _ _ name _ _ (["XADD"; "events"; "*"] ++ flatten (("event", name) :: in_key_order fields)));
      [done|exact Hl| |by constructor].
    assert (length (flatten (in_key_order fields)) = (2 * n)%nat) as Hlen
      by (by rewrite flatten_length, in_key_order_length, Hn).
    cbn [lua_call]. rewrite decide_True, decide_True by (done || lia).
    rewrite <-Hlen, firstn_all. done. }
  destruct Hk as [[-> Hs]|[[->| ->] Hs]]; (eapply H; [reflexivity| |exact Hs]; reflexivity).
Qed.

#[export] Instance redis_laws : StorageLaws Redis redis_ready redis_view.
Proof.
  split; intros; cbn; unfold redis_value_store, redis_map_store, redis_list_store, redis_set_store,
    redis_del_key, redis_event_store, redis_stream_store;
    try (apply succeeded_performs; [by do 2 constructor|plains|done]).
  - by apply value_get_reads.
  - by apply map_get_reads.
  - by apply list_get_reads.
  - by apply set_get_reads.
  - apply succeeded_performs; [by apply event_writes| |done].
    cbn [app]; plains. by apply flatten_plain, in_key_order_plain.
  - apply succeeded_performs; [constructor; constructor; by apply in_key_order_nonempty| |done].
    cbn [app]; plains. by apply flatten_plain, in_key_order_plain.
Qed.

(** A refused write is reported as a success. *)
Lemma refused_write_succeeds st k v m :
  redis_ready st → plain k → plain v → redis_view st !! k = Some (VMap m) →
  returns (redis_set_store k v st) (λ r, r.2 = true ∧ redis_view r.1 = redis_view st).
Proof.
  intros Hr Hk Hv Hm. eapply returns_mono; [exact (set_store_law (St := Redis) k v Hk Hv st Hr)|].
  intros [st' b] (_ & Hb & E). cbn [fst snd] in *. subst b. split; [done|]. rewrite E. unfold run_write. cbn [target].
  apply map_eq. intros k'. destruct (decide (k = k')) as [<-|]; [|by rewrite lookup_partial_alter_ne].
  rewrite lookup_partial_alter_eq, Hm. done.
Qed.
End laws.

(** ** Decoding stream replies *)

(** The replies the server sends: a record is its id and its fields, a
    stream its name and its records; an entry of fewer than two elements
    carries nothing. *)
Definition short (r : redisReply) : Prop := elements r < 2.

Definition enc_record (x : redisReply + string * list (string * string)) : redisReply :=
  match x with
  | inl r => r
  | inr (id, fields) => array_reply [string_reply id; array_reply (string_reply <$> flatten fields)]
  end.

Definition enc_stream (x : redisReply + string * list (redisReply + string * list (string * string))) : redisReply :=
  match x with
  | inl r => r
  | inr (name, records) => array_reply [string_reply name; array_reply (enc_record <$> records)]
  end.

Definition dec_record (x : redisReply + string * list (string * string)) : option StreamRecord :=
  match x with inl _ => None | inr (id, fields) => Some (mkStreamRecord id (last_values fields)) end.

Definition dec_stream (x : redisReply + string * list (redisReply + string * list (string * string))) :
    option StreamResponse :=
  match x with
  | inl _ => None
  | inr (name, records) => Some (mkStreamResponse name (omap dec_record records))
  end.

Definition good_record (x : redisReply + string * list (string * string)) : Prop :=
  match x with
  | inl r => short r
  | inr (id, fields) => plain id ∧ Forall (λ p, plain p.1 ∧ plain p.2) fields
  end.

Definition good_stream (x : redisReply + string * list (redisReply + string * list (string * string))) : Prop :=
  match x with
  | inl r => short r
  | inr (name, records) => plain name ∧ Forall good_record records
  end.

Lemma element_0 a b : reply_element (array_reply [a; b]) 0 = Ret a.
Proof. reflexivity. Qed.

Lemma element_1 a b : reply_element (array_reply [a; b]) 1 = Ret b.
Proof. reflexivity. Qed.

Lemma pair_not_short a b : ¬ elements (array_reply [a; b]) < 2.
Proof. done. Qed.

Lemma stream_response_decodes name records :
  Forall good_record records →
  stream_response name (array_reply (enc_record <$> records)) =
    Ret (mkStreamResponse name (omap dec_record records)).
Proof.
  intros Hr. unfold stream_response. cbn [element array_reply].
  set (body := λ l record_elem, _).
  assert (∀ acc, foldM body acc (enc_record <$> records) = Ret (acc ++ omap dec_record records)) as ->; [|done].
  induction Hr as [|x records Hx _ IH]; intros acc; cbn [fmap list_fmap foldM]; [by rewrite app_nil_r|].
  destruct x as [r|[id fields]]; cbn [enc_record good_record] in *.
  - unfold body at 2. rewrite decide_True by done. cbn [mbind outcome_bind]. by rewrite IH.
  - destruct Hx as [Hid Hf]. unfold body at 2. rewrite decide_False by apply pair_not_short.
    rewrite element_0, element_1. cbn [mbind outcome_bind]. rewrite reply_str_string by done.
    cbn [mbind outcome_bind]. unfold stream_record. rewrite read_pairs_flatten by done.
    cbn [mbind outcome_bind]. rewrite IH, <-app_assoc. done.
Qed.

(** An odd number of fields is reported, and then the element after the last
    is read. *)
Lemma odd_fields_undefined l v :
  Forall (λ p, plain p.1 ∧ plain p.2) l → plain v →
  read_pairs (array_reply (string_reply <$> (flatten l ++ [v]))) = Undef.
Proof.
  intros Hl Hv. pose proof (read_pairs_flatten l Hl) as Hgood. revert Hgood. unfold read_pairs.
  replace ((elements (array_reply (string_reply <$> flatten l)) + 1) / 2) with (Z.of_nat (length l)).
  2:{ unfold elements. cbn [element array_reply]. rewrite length_fmap, flatten_length.
      rewrite Nat2Z.inj_mul. apply (Z.div_unique _ _ _ 1); lia. }
  replace ((elements (array_reply (string_reply <$> (flatten l ++ [v]))) + 1) / 2) with (Z.of_nat (length l) + 1).
  2:{ unfold elements. cbn [element array_reply]. rewrite length_fmap, length_app, flatten_length.
      cbn [length]. apply (Z.div_unique _ _ _ 0); lia. }
  intros Hgood. rewrite seqZ_app, foldM_app by lia.
  rewrite (foldM_ext_in _ (λ (m : map_t) j,
      k ← reply_element (array_reply (string_reply <$> flatten l)) (2 * j); key ← reply_str k;
      v ← reply_element (array_reply (string_reply <$> flatten l)) (2 * j + 1); val ← reply_str v;
      Ret (<[key := val]> m))).
  - rewrite Hgood. cbn [mbind outcome_bind].
    change (seqZ (0 + Z.of_nat (length l)) 1) with [0 + (0 + Z.of_nat (length l))]. cbn [foldM].
    replace (2 * (0 + (0 + Z.of_nat (length l)))) with (Z.of_nat (2 * length l)) by lia.
    rewrite (reply_element_strings _ _ v).
    2:{ rewrite lookup_app_r by (rewrite flatten_length; lia).
        by rewrite flatten_length, Nat.sub_diag. }
    cbn [mbind outcome_bind]. rewrite reply_str_string by done. cbn [mbind outcome_bind].
    unfold reply_element at 1. rewrite vget_out; [done|].
    cbn [element array_reply]. rewrite length_fmap, length_app, flatten_length. cbn [length]. lia.
  - intros m j Hj. apply elem_of_seqZ in Hj.
    assert (∀ i, 0 ≤ i < 2 * Z.of_nat (length l) →
      reply_element (array_reply (string_reply <$> (flatten l ++ [v]))) i =
      reply_element (array_reply (string_reply <$> flatten l)) i) as E.
    { intros i Hi. unfold reply_element, vget. cbn [element array_reply].
      rewrite fmap_app, lookup_app_l by (rewrite length_fmap, flatten_length; lia). done. }
    rewrite !E by lia. done.
Qed.

(** ** Connecting *)
Section connect.
Context {R : Hiredis} {connected : redisContext → Prop} {keys : redisContext → keyspace}.
Context {L : RedisLaws R connected keys}.

Lemma time_plain : plain (pretty time).
Proof.
  apply pretty_Z_lacks, (bool_decide_unpack (Ascii.zero ∉ decimal_chars)). vm_compute. exact I.
Qed.

(** A server that can be reached is stamped with the time. *)
Lemma redis_init_ready st ip c :
  hostname_to_ip (m_host st) "" = (0, ip) → redisConnect (c_str ip) (m_port st) = Some c → err c = false →
  connected c → plain_keys (keys c) →
  returns (redis_init st) (λ r, r.2 = true ∧ redis_ready (connected := connected) (keys := keys) r.1 ∧
    redis_view (keys := keys) r.1 = <["server_last_connected" := VString (pretty time)]> (keys c)).
Proof.
  intros Hip Hc He Hcon Hk. unfold redis_init. rewrite Hip, decide_False by done.
  cbv zeta. cbn [m_context m_port]. rewrite Hc, He.
  eapply returns_bind.
  { apply (value_store_law (St := Redis) (ready := redis_ready) (view := redis_view)); [|apply time_plain|].
    - refine (bool_decide_unpack _ _). vm_compute. exact I.
    - exists c. split_and!; done. }
  intros [st' b] (Hr & _ & Hv). cbn [fst snd] in *. apply returns_Ret. split_and!; [done|done|].
  cbn [fst]. rewrite Hv. unfold redis_view. cbn [m_context].
  apply map_eq. intros k. unfold run_write. cbn [target].
  destruct (decide ("server_last_connected" = k)) as [<-|].
  - by rewrite lookup_partial_alter_eq, lookup_insert_eq.
  - by rewrite lookup_partial_alter_ne, lookup_insert_ne.
Qed.
End connect.

(** ** Main theorems *)

(** C13. The Redis back end keeps the contract of a storage, when the server
    behaves as documented: every store performs its write on the key space,
    every query reads it, an event goes through its Lua function into the
    stream of events, and no access to a reply is undefined. The connection
    made from the environment variables is ready, with the time of connection
    stored. A write that the server refuses, because the key has another
    type, is reported as done. *)
Theorem redis_refines_storage {R : Hiredis} {connected keys} {L : RedisLaws R connected keys} :
  StorageLaws Redis (redis_ready (connected := connected) (keys := keys)) (redis_view (keys := keys)) ∧
  (∀ host ip c, hostname_to_ip host "" = (0, ip) → redisConnect (c_str ip) 6379 = Some c → err c = false →
    connected c → plain_keys (keys c) →
    returns (initialize_redis_storage (Some host) None) (λ o, ∃ st, o = Some st ∧
      redis_ready (connected := connected) (keys := keys) st ∧
      redis_view (keys := keys) st = <["server_last_connected" := VString (pretty time)]> (keys c))) ∧
  (∀ st k v m, redis_ready (connected := connected) (keys := keys) st → plain k → plain v →
    redis_view (keys := keys) st !! k = Some (VMap m) →
    returns (redis_set_store k v st) (λ r, r.2 = true ∧
      redis_view (keys := keys) r.1 = redis_view (keys := keys) st)).
Proof.
  split_and!; [apply redis_laws| |apply refused_write_succeeds].
  intros host ip c Hip Hc He Hcon Hk. unfold initialize_redis_storage. cbn [default from_option mbind outcome_bind].
  eapply returns_bind; [by apply (redis_init_ready (RedisStorage_new host 6379) ip c)|].
  intros [st ok] (Hok & Hr & Hv). cbn [fst snd] in *. subst ok. apply returns_Ret. by exists st.
Qed.

(** C30. Reading streams back: a reply built from streams, records and fields
    is decoded to exactly these, in order, with the last value of a repeated
    field; entries of fewer than two elements are skipped and replies that
    are not arrays give nothing. A record with an odd number of fields is
    only reported, and then read past its end. *)
Theorem stream_responses_decode :
  (∀ streams, Forall good_stream streams →
    construct_stream_responses (array_reply (enc_stream <$> streams)) = Ret (omap dec_stream streams)) ∧
  (∀ r, type r ≠ REDIS_REPLY_ARRAY → construct_stream_responses r = Ret []) ∧
  (∀ id l v, Forall (λ p, plain p.1 ∧ plain p.2) l → plain v →
    stream_record id (array_reply (string_reply <$> (flatten l ++ [v]))) = Undef).
Proof.
  split_and!.
  - intros streams Hs. unfold construct_stream_responses. rewrite decide_False by (intros H; by apply H).
    cbn [element array_reply]. set (body := λ responses top_elem, _).
    assert (∀ acc, foldM body acc (enc_stream <$> streams) = Ret (acc ++ omap dec_stream streams)) as ->; [|done].
    induction Hs as [|x streams Hx _ IH]; intros acc; cbn [fmap list_fmap foldM]; [by rewrite app_nil_r|].
    destruct x as [r|[name recs]]; cbn [enc_stream good_stream] in *.
    + unfold body at 2. rewrite decide_True by done. cbn [mbind outcome_bind]. by rewrite IH.
    + destruct Hx as [Hn Hr]. unfold body at 2. rewrite decide_False by apply pair_not_short.
      rewrite element_0, element_1. cbn [mbind outcome_bind]. rewrite reply_str_string by done.
      cbn [mbind outcome_bind]. rewrite stream_response_decodes by done.
      cbn [mbind outcome_bind]. rewrite IH, <-app_assoc. done.
  - intros r Hr. unfold construct_stream_responses. by rewrite decide_True.
  - intros id l v Hl Hv. unfold stream_record. by rewrite odd_fields_undefined.
Qed.

(** ** A server in memory *)
Fixpoint pairs (l : list string) : list (string * string) :=
  match l with a :: b :: l => (a, b) :: pairs l | _ => [] end.

Definition mini_write (args : list string) : option write :=
  match args with
  | [] => None
  | c :: args =>
      if decide (c = "SET") then match args with [k; v] => Some (WSet k v) | _ => None end
      else if decide (c = "HSET") then match args with [k; f; v] => Some (WHset k f v) | _ => None end
      else if decide (c = "RPUSH") then match args with [k; v] => Some (WPush k v) | _ => None end
      else if decide (c = "SADD") then match args with [k; v] => Some (WAdd k v) | _ => None end
      else if decide (c = "DEL") then match args with [k] => Some (WDel k) | _ => None end
      else if decide (c = "XADD") then
        match args with k :: _ :: rest => if decide (rest = []) then None else Some (WXadd k (pairs rest)) | _ => None end
      else None
  end.

Definition mini_resolve (args : list string) : list string :=
  match args with
  | c :: f :: _ :: key :: rest =>
      if decide (c = "FCALL") then
        match lua_functions f with Some lua => default [] (lua [key] rest) | None => [] end
      else args
  | _ => args
  end.

Definition wrong_type : redisReply := error_reply "WRONGTYPE".

Definition mini_query (args : list string) (ks : keyspace) : redisReply :=
  match args with
  | c :: k :: _ =>
      let o := ks !! k in
      if decide (c = "GET") then
        match o with None => nil_reply | Some (VString s) => string_reply s | _ => wrong_type end
      else if decide (c = "HGETALL") then
        if as_map o is Some m then array_reply (string_reply <$> flatten (map_to_list m)) else wrong_type
      else if decide (c = "LRANGE") then
        if as_list o is Some l then array_reply (string_reply <$> l) else wrong_type
      else if decide (c = "SMEMBERS") then
        if as_set o is Some s then array_reply (string_reply <$> base.elements s) else wrong_type
      else error_reply "ERR unknown command"
  | _ => error_reply "ERR unknown command"
  end.

Definition mini_command (args : list string) (ks : keyspace) : keyspace * option redisReply :=
  match mini_write (mini_resolve args) with
  | Some w => (run_write w ks, Some (mkReply REDIS_REPLY_INTEGER 1 None []))
  | None => (ks, Some (mini_query args ks))
  end.

(** A server on this host, found by its name. *)
Definition MiniRedis : Hiredis := {|
  redisContext := keyspace;
  redisConnect ip port := if decide (ip = "localhost" ∧ port = 6379) then Some ∅ else None;
  err _ := false;
  redisCommandArgv := mini_command;
  redisFormat s := Ret [s];
  inet_addr _ := None;
  gethostbyname h := if decide (h = "localhost") then Some h else None;
  time := 1648080000
|}.

Lemma pairs_flatten l : pairs (flatten l) = l.
Proof. induction l as [|[a b] l IH]; [done|]. cbn. unfold flatten in IH. by rewrite IH. Qed.

Lemma mini_primitive args w : primitive args w → mini_resolve args = args ∧ mini_write args = Some w.
Proof.
  intros [k v|k f v|k v|k v|k|k l Hl]; [split; reflexivity..|].
  destruct l as [|[a b] l]; [done|]. split; [reflexivity|]. cbn. by rewrite pairs_flatten.
Qed.

Definition mini_connected (c : redisContext (Hiredis := MiniRedis)) : Prop := True.
Definition mini_keys (c : redisContext (Hiredis := MiniRedis)) : keyspace := c.

#[export] Instance MiniRedis_laws : RedisLaws MiniRedis mini_connected mini_keys.
Proof.
  unfold mini_connected, mini_keys.
  split.
  - intros args w c Hw _. cbn [redisCommandArgv MiniRedis]. unfold mini_command.
    assert (mini_write (mini_resolve args) = Some w) as ->; [|by eexists _, _].
    destruct Hw as [Hp|f lua rest cmd -> Hl Hc Hp].
    + destruct (mini_primitive _ _ Hp) as [-> ?]. done.
    + cbn [app mini_resolve]. rewrite decide_True, Hl, Hc by done. cbn. by destruct (mini_primitive _ _ Hp).
  - intros k args c Hq _. cbn [redisContext redisCommandArgv MiniRedis] in *.
    exists c, (mini_query args c). destruct Hq; (split; [reflexivity|split_and!; [done|done|]]);
      cbn [mini_query].
    + rewrite decide_True by done. destruct (c !! k) as [[]|] eqn:E; by econstructor.
    + rewrite decide_False, decide_True by done. destruct (as_map _) eqn:E; by econstructor.
    + do 2 rewrite decide_False by done. rewrite decide_True by done.
      destruct (as_list _) eqn:E; by econstructor.
    + do 3 rewrite decide_False by done. rewrite decide_True by done.
      destruct (as_set _) eqn:E; by econstructor.
Qed.

(** ** Witnesses *)
Definition mini_storage : RedisStorage (R := MiniRedis) :=
  mkRedis (R := MiniRedis) "localhost" 6379 (Some (∅ : keyspace)).

Lemma mini_ready : redis_ready (connected := mini_connected) (keys := mini_keys) mini_storage.
Proof.
  exists (∅ : keyspace). split_and!; [done|done|].
  change (plain_keys (∅ : keyspace)). apply map_Forall_empty.
Qed.

Lemma redis_refines_storage_witness :
  RedisLaws MiniRedis mini_connected mini_keys ∧
  StorageLaws (Redis (R := MiniRedis)) (redis_ready (connected := mini_connected) (keys := mini_keys))
    (redis_view (keys := mini_keys)).
Proof.
  split; [exact MiniRedis_laws|].
  exact (proj1 (redis_refines_storage (R := MiniRedis) (connected := mini_connected) (keys := mini_keys))).
Defined.

Definition sample_messages : list storage_msg :=
  [StorageMapStore "rooms" "hall" "dark"; StorageSetStore "kinds" "feral"; StorageMapGet "rooms";
   StorageSetStore "rooms" "feral"; StorageEventStore "EventUserLogin" {["username" := "ann"]};
   StorageValueStore "rooms" "none"; StorageValueGet "rooms"; StorageMapGet "rooms"].

Lemma sample_proper : Forall proper sample_messages.
Proof.
  assert (∀ s, bool_decide (plain s) = true → plain s) as H by (intros s; apply bool_decide_eq_true_1).
  repeat (apply Forall_cons_2; [cbn [proper]; split_and?; try (apply H; vm_compute; reflexivity)|]);
    try apply Forall_nil_2.
  - apply map_Forall_singleton. split; apply H; vm_compute; reflexivity.
  - right. split; [by left|reflexivity].
Qed.

Lemma storage_actor_serves_witness :
  returns (storage_run (St := Redis (R := MiniRedis)) (Some mini_storage) sample_messages) (λ r,
    r.2 = [NoAnswer; NoAnswer; AMap (Some {["hall" := "dark"]}); NoAnswer; NoAnswer; NoAnswer;
           AString (Some "none"); AMap None]).
Proof.
  pose proof (proj1 (storage_actor_serves (St := Redis (R := MiniRedis))
    (L := redis_laws (R := MiniRedis) (connected := mini_connected) (keys := mini_keys))
    mini_storage sample_messages sample_proper mini_ready)) as H.
  eapply returns_mono; [exact H|]. intros r [E _]. rewrite E. vm_compute. reflexivity.
Defined.

Example dump_sample :
  redis_reply_dump (array_reply [string_reply "a"; array_reply [mkReply REDIS_REPLY_INTEGER 7 None []]]) "" =
  Ret ("REDIS_REPLY_ARRAY" +:+ endl +:+ "  REDIS_REPLY_STRING: a" +:+ endl +:+ "  REDIS_REPLY_ARRAY" +:+ endl +:+
       "    REDIS_REPLY_INTEGER: 7" +:+ endl +:+ endl +:+ endl)%string.
Proof. vm_compute. reflexivity. Qed.

(** Two records of a stream; the second has no fields and the third entry is
    not a record. *)
Example stream_sample :
  construct_stream_responses (array_reply [array_reply [string_reply "events";
    array_reply [array_reply [string_reply "1-0"; array_reply (string_reply <$> ["event"; "EventUserLogin"; "username"; "ann"])];
                 array_reply [string_reply "2-0"; array_reply []]; nil_reply]]]) =
  Ret [mkStreamResponse "events"
        [mkStreamRecord "1-0" {["event" := "EventUserLogin"; "username" := "ann"]}; mkStreamRecord "2-0" ∅]].
Proof. vm_compute. reflexivity. Qed.
