(* ===== verification/Yaml.v ===== *)
(** * YAML documents in a storage (pmud/src/storage/yaml_storage.h,
    pmud/src/common/yaml_util.h)

    [yaml_to_storage], a client of the storage interface, and
    [yaml_to_buffer]. A document of yaml-cpp is a tree; what [as<string>()]
    makes of a node that is not a scalar is left open. *)
From Stdlib Require Import String.
From stdpp Require Import strings sorting.
From S2P Require Import Prelude.
From S2P Require Import Text.
From S2P Require Import Storage.
From S2P Require Import Redis.

(** ** yaml-cpp *)
#[warnings="-register-all"]
Inductive node :=
  | Null
  | Undefined
  | Scalar (s : string)
  | Sequence (l : list node)
  | Map (l : list (node * node)).

Definition IsScalar (n : node) : bool := if n is Scalar _ then true else false.

(** [regex_replace(s, regex("_"), ":")] *)
Fixpoint underscores_to_colons (s : string) : string :=
  match s with
  | EmptyString => EmptyString
  | String c s =>
      String (if decide (c = Ascii.ascii_of_nat 95) then Ascii.ascii_of_nat 58 else c) (underscores_to_colons s)
  end.

Section yaml.
(** [as<string>()] of the other nodes *)
Context (convert : node → outcome string).

Definition as_string (n : node) : outcome string := match n with Scalar s => Ret s | _ => convert n end.

(** ** yaml_storage.h *)
Section storage.
Context {store : Type} {St : Storage store}.

(** A call whose result is ignored. *)
Definition ignore {A} (m : outcome (store * A)) : outcome store := '(s, _) ← m; Ret s.

(** Nothing changes [virgin], and the recursive calls use the default of
    [idempotence]. *)
Fixpoint yaml_to_storage (path : string) (n : node) (idempotence : bool) (s : store) {struct n} : outcome store :=
  match n with
  | Null => Ret s
  | Scalar _ => v ← as_string n; ignore (value_store path v s)
  | Sequence l =>
      foldM (λ s entry,
        if IsScalar entry then v ← as_string entry; ignore (set_store path v s)
        else yaml_to_storage path entry true s) s l
  | Map l =>
      let virgin := true in
      foldM (λ s entry,
        if IsScalar (snd entry) then
          k ← as_string (fst entry); v ← as_string (snd entry); ignore (map_store path k v s)
        else
          k ← as_string (fst entry);
          let new_path := (path +:+ ":" +:+ underscores_to_colons k)%string in
          s ← (if idempotence && virgin then ignore (del_key new_path s) else Ret s);
          yaml_to_storage new_path (snd entry) true s) s l
  | Undefined => Ret s
  end.
End storage.

(** ** yaml_util.h *)
Definition lf : string := String (Ascii.ascii_of_nat 10) EmptyString.

Fixpoint yaml_to_buffer (out : string) (n : node) (indent : string) {struct n} : outcome string :=
  match n with
  | Null => Ret out
  | Scalar _ => v ← as_string n; Ret (out +:+ indent +:+ v)%string
  | Sequence l =>
      foldM (λ out entry,
        if IsScalar entry then out ← yaml_to_buffer out entry indent; Ret (out +:+ lf)%string
        else yaml_to_buffer out entry indent) (out +:+ indent +:+ "(seq)" +:+ lf)%string l
  | Map l =>
      foldM (λ out entry,
        k ← as_string (fst entry);
        let out := (out +:+ indent +:+ k +:+ ": ")%string in
        if IsScalar (snd entry) then out ← yaml_to_buffer out (snd entry) ""; Ret (out +:+ lf)%string
        else yaml_to_buffer (out +:+ lf)%string (snd entry) (indent +:+ "  ")%string)
        (out +:+ indent +:+ "(map)" +:+ lf)%string l
  | Undefined => Ret (out +:+ "(undef)" +:+ lf)%string
  end.
End yaml.

(** ** Specification *)

(** The writes a document asks for. *)
Definition key_text (n : node) : string := if n is Scalar s then s else "".

Definition nested_path (path : string) (k : node) : string :=
  (path +:+ ":" +:+ underscores_to_colons (key_text k))%string.

Fixpoint yaml_writes (path : string) (n : node) (idempotence : bool) {struct n} : list write :=
  match n with
  | Scalar v => [WSet path v]
  | Sequence l =>
      flat_map (λ e, match e with Scalar v => [WAdd path v] | _ => yaml_writes path e true end) l
  | Map l =>
      flat_map (λ e,
        match snd e with
        | Scalar v => [WHset path (key_text (fst e)) v]
        | _ => (if idempotence then [WDel (nested_path path (fst e))] else []) ++
               yaml_writes (nested_path path (fst e)) (snd e) true
        end) l
  | _ => []
  end.

(** Documents whose keys are scalars, without NULs. *)
Inductive plain_doc : node → Prop :=
  | pd_null : plain_doc Null
  | pd_undefined : plain_doc Undefined
  | pd_scalar s : plain s → plain_doc (Scalar s)
  | pd_sequence l : Forall plain_doc l → plain_doc (Sequence l)
  | pd_map l : Forall (λ e, (∃ k, e.1 = Scalar k ∧ plain k) ∧ plain_doc e.2) l → plain_doc (Map l).

(** The paths of the sequences and maps inside a document. *)
Inductive nested_in : string → node → string → Prop :=
  | n_here path l k n : (k, n) ∈ l → IsScalar n = false → nested_in path (Map l) (nested_path path k)
  | n_map path l k n p : (k, n) ∈ l → IsScalar n = false → nested_in (nested_path path k) n p →
      nested_in path (Map l) p
  | n_sequence path l n p : n ∈ l → IsScalar n = false → nested_in path n p → nested_in path (Sequence l) p.

(** ** Lemmas *)
Lemma node_nested_ind (P : node → Prop) :
  P Null → P Undefined → (∀ s, P (Scalar s)) →
  (∀ l, Forall P l → P (Sequence l)) → (∀ l, Forall (λ e, P e.2) l → P (Map l)) → ∀ n, P n.
Proof.
  intros H1 H2 H3 H4 H5. fix IH 1. intros [| |s|l|l]; [done|done|done| |].
  - apply H4. induction l as [|n l IHl]; constructor; [apply IH|apply IHl].
  - apply H5. induction l as [|[k n] l IHl]; constructor; [apply IH|apply IHl].
Qed.

Lemma colons_plain s : plain s → plain (underscores_to_colons s).
Proof.
  unfold plain, lacks. induction s as [|c s IH]; [done|]. cbn. rewrite !not_elem_of_cons.
  intros [Hc Hs]. split; [|by apply IH]. case_decide; [done|done].
Qed.

Lemma nested_path_plain path k : plain path → plain k → plain (nested_path path (Scalar k)).
Proof.
  intros Hp Hk. unfold nested_path, plain. rewrite !lacks_append. split_and!; [done| |by apply colons_plain].
  refine (bool_decide_unpack _ _). vm_compute. exact I.
Qed.

Lemma run_writes_app ws1 ws2 ks : run_writes (ws1 ++ ws2) ks = run_writes ws2 (run_writes ws1 ks).
Proof. unfold run_writes. by rewrite foldl_app. Qed.

Section loading.
Context (convert : node → outcome string).
Context {store : Type} {St : Storage store} {ready : store → Prop} {view : store → keyspace}.
Context {L : StorageLaws St ready view}.

(** A step that performs some writes. *)
Definition does (m : store → outcome store) (ws : list write) : Prop :=
  ∀ s, ready s → returns (m s) (λ s', ready s' ∧ view s' = run_writes ws (view s)).

Lemma ignore_does op w : performs ready view op w → does (λ s, ignore (op s)) [w].
Proof.
  intros H s Hs. unfold ignore. eapply returns_bind; [exact (H s Hs)|].
  intros [s' b] (Hr & _ & Hv). by apply returns_Ret.
Qed.

Lemma does_bind m1 m2 ws1 ws2 : does m1 ws1 → does m2 ws2 → does (λ s, s ← m1 s; m2 s) (ws1 ++ ws2).
Proof.
  intros H1 H2 s Hs. eapply returns_bind; [exact (H1 s Hs)|]. intros s1 [Hr1 Hv1].
  eapply returns_mono; [exact (H2 s1 Hr1)|]. intros s2 [Hr2 Hv2]. by rewrite run_writes_app, <-Hv1.
Qed.

Lemma foldM_does {A} (body : store → A → outcome store) (f : A → list write) l :
  Forall (λ e, does (λ s, body s e) (f e)) l → does (λ s, foldM body s l) (flat_map f l).
Proof.
  induction 1 as [|e l He _ IH]; [intros s Hs; by apply returns_Ret|].
  cbn [foldM flat_map]. by apply (does_bind (λ s, body s e) (λ s, foldM body s l)).
Qed.

Lemma yaml_to_storage_does n :
  plain_doc n → ∀ path idem, plain path →
  does (yaml_to_storage convert path n idem) (yaml_writes path n idem).
Proof.
  induction n as [| |v|l IH|l IH] using node_nested_ind; intros Hd path idem Hp; inversion Hd; subst;
    cbn [yaml_to_storage yaml_writes]; try (intros s Hs; by apply returns_Ret).
  - by apply ignore_does, (value_store_law (ready := ready) (view := view)).
  - apply foldM_does. rewrite Forall_forall in *. intros e He.
    pose proof (IH e He) as IHe. specialize (H0 e He).
    destruct e as [| |v|l'|l']; cbn [IsScalar as_string mbind outcome_bind]; try by apply IHe.
    inversion H0; subst. by apply ignore_does, (set_store_law (ready := ready) (view := view)).
  - apply foldM_does. rewrite Forall_forall in *. intros [kn e] He.
    pose proof (IH _ He) as IHe. destruct (H0 _ He) as [(k & -> & Hk) He']. cbn [fst snd key_text] in *.
    destruct (IsScalar e) eqn:Hns.
    + destruct e as [| |v| |]; try discriminate Hns. inversion He'; subst.
      by apply ignore_does, (map_store_law (ready := ready) (view := view)).
    + assert (does (λ s, s ← (if idem && true then ignore (del_key (nested_path path (Scalar k)) s) else Ret s);
          yaml_to_storage convert (nested_path path (Scalar k)) e true s)
        ((if idem then [WDel (nested_path path (Scalar k))] else []) ++
         yaml_writes (nested_path path (Scalar k)) e true)) as H.
      { assert (plain (nested_path path (Scalar k))) as Hn by by apply nested_path_plain.
        apply (does_bind (λ s, if idem && true then ignore (del_key (nested_path path (Scalar k)) s) else Ret s)).
        - destruct idem; [|intros s Hs; by apply returns_Ret].
          by apply ignore_does, (del_key_law (ready := ready) (view := view)).
        - by apply IHe. }
      destruct e; try done; exact H.
Qed.
End loading.

Lemma yaml_writes_repeatable path n idem : Forall repeatable (yaml_writes path n idem).
Proof.
  revert path idem. induction n as [| |v|l IH|l IH] using node_nested_ind; intros path idem; cbn [yaml_writes];
    try by repeat constructor.
  - induction IH as [|e l He _ IHl]; [constructor|]. cbn [flat_map]. apply Forall_app. split; [|done].
    destruct e; try apply He. by repeat constructor.
  - induction IH as [|[k e] l He _ IHl]; [constructor|]. cbn [flat_map fst snd] in *. apply Forall_app. split; [|done].
    destruct e; try (apply Forall_app; split; [destruct idem; by repeat constructor|apply He]).
    by repeat constructor.
Qed.

Lemma nested_decided path n p :
  nested_in path n p → Exists (λ w, target w = p ∧ decisive w) (yaml_writes path n true).
Proof.
  assert (∀ {A} (f : A → list write) l e P, e ∈ l → Exists P (f e) → Exists P (flat_map f l)) as Hflat.
  { intros A f l e P He (w & Hw & HP)%Exists_exists. apply Exists_exists. exists w. split; [|done].
    apply list_elem_of_In, in_flat_map. exists e. by rewrite <-!list_elem_of_In. }
  induction 1 as [path l k n Hin Hn|path l k n p Hin Hn _ IH|path l n p Hin Hn _ IH]; cbn [yaml_writes].
  - eapply Hflat; [exact Hin|]. cbn [fst snd]. destruct n; try done; by (cbn [app]; left).
  - eapply Hflat; [exact Hin|]. cbn [fst snd]. destruct n; try done; by (cbn [app]; right).
  - eapply Hflat; [exact Hin|]. destruct n; try done.
Qed.

(** ** Documents of sections

    As in the files of the game: each key has a scalar, a list of scalars or
    a map of scalars. *)
Inductive section_value : node → value → Prop :=
  | sv_sequence v vs : section_value (Sequence (Scalar <$> v :: vs)) (VSet (list_to_set (v :: vs)))
  | sv_map f fs : section_value (Map ((λ p, (Scalar p.1, Scalar p.2)) <$> f :: fs)) (VMap (last_values (f :: fs))).

Definition entry_ok (e : node * node) : Prop := IsScalar e.2 = true ∨ ∃ v, section_value e.2 v.

Definition sections (l : list (node * node)) : list (node * node) := filter (λ e, IsScalar e.2 = false) l.

(** The writes of one entry. *)
Definition entry_writes (path : string) (e : node * node) : list write :=
  match snd e with
  | Scalar v => [WHset path (key_text (fst e)) v]
  | _ => WDel (nested_path path (fst e)) :: yaml_writes (nested_path path (fst e)) (snd e) true
  end.

Lemma map_writes path l : yaml_writes path (Map l) true = flat_map (entry_writes path) l.
Proof. cbn [yaml_writes]. induction l as [|[k e] l IH]; [done|]. cbn [flat_map]. rewrite IH. by destruct e. Qed.

Lemma nested_path_ne path k : nested_path path k ≠ path.
Proof. intros E. apply (f_equal String.length) in E. unfold nested_path in E. rewrite !length_append in E. cbn in E. lia. Qed.

Lemma section_writes q n v :
  section_value n v →
  Forall (λ w, target w = q) (yaml_writes q n true) ∧ acts (yaml_writes q n true) None = Some v.
Proof.
  intros [x vs|f fs].
  - assert (yaml_writes q (Sequence (Scalar <$> x :: vs)) true = WAdd q <$> x :: vs) as ->.
    { cbn [yaml_writes]. generalize (x :: vs). intros l. induction l as [|y l IH]; [done|]. cbn in *. by rewrite IH. }
    split; [by apply Forall_fmap, Forall_true|]. change (acts (WAdd q <$> vs) (Some (VSet {[x]})) = Some (VSet (list_to_set (x :: vs)))).
    rewrite acts_set.
    + do 2 f_equal. assert ((WAdd q <$> vs) ≫= added = vs) as -> by (induction vs as [|y l IH]; [done|]; cbn; by f_equal).
      cbn. set_solver.
    + by apply Forall_fmap, Forall_true.
    + rewrite Exists_fmap. by intros (? & _ & [])%Exists_exists.
  - assert (yaml_writes q (Map ((λ p, (Scalar p.1, Scalar p.2)) <$> f :: fs)) true =
      (λ p, WHset q p.1 p.2) <$> f :: fs) as ->.
    { cbn [yaml_writes]. generalize (f :: fs). intros l. induction l as [|y l IH]; [done|]. cbn in *. by rewrite IH. }
    split; [by apply Forall_fmap, Forall_true|].
    change (acts ((λ p, WHset q p.1 p.2) <$> fs) (Some (VMap {[f.1 := f.2]})) = Some (VMap (last_values (f :: fs)))).
    rewrite acts_map.
    + do 2 f_equal. assert (((λ p, WHset q p.1 p.2) <$> fs) ≫= hset_fields = fs) as ->
        by (induction fs as [|[a b] l IH]; [done|]; cbn; by f_equal).
      rewrite <-foldl_insert. done.
    + by apply Forall_fmap, Forall_true.
    + rewrite Exists_fmap. by intros (? & _ & [])%Exists_exists.
Qed.

(** Only its own section writes to the path of a section. *)
Lemma other_entry_writes path p e :
  entry_ok e → p ≠ path → (IsScalar e.2 = false → nested_path path e.1 ≠ p) →
  filter (λ w, target w = p) (entry_writes path e) = [].
Proof.
  intros [Hs|[v Hv]] Hp Hn.
  - destruct e as [k []]; try discriminate Hs. unfold entry_writes. cbn [fst snd].
    rewrite filter_cons_False; [done|]. cbn. congruence.
  - assert (IsScalar e.2 = false) as Hs by by destruct Hv. specialize (Hn Hs).
    destruct (section_writes (nested_path path e.1) e.2 v Hv) as [Ht _].
    assert (entry_writes path e = WDel (nested_path path e.1) :: yaml_writes (nested_path path e.1) e.2 true) as ->
      by (unfold entry_writes; by destruct e as [k []]).
    apply filter_none. constructor; [done|]. eapply Forall_impl; [exact Ht|]. intros w Hw ?. by subst.
Qed.

Lemma other_entries_writes path p l :
  Forall entry_ok l → p ≠ path → (∀ e, e ∈ sections l → nested_path path e.1 ≠ p) →
  filter (λ w, target w = p) (flat_map (entry_writes path) l) = [].
Proof.
  intros Hl Hp. induction Hl as [|e l He _ IH]; intros Hn; [done|]. cbn [flat_map].
  rewrite filter_app, IH, other_entry_writes, ?app_nil_r; try done.
  - intros Hs. apply Hn. unfold sections. rewrite list_elem_of_filter. split; [done|left].
  - intros e' He'. apply Hn. unfold sections in *. rewrite list_elem_of_filter in *. split; [|right]; tauto.
Qed.

Lemma section_lookup path l k n v ks :
  Forall entry_ok l → NoDup (nested_path path <$> (sections l).*1) → (k, n) ∈ l → section_value n v →
  run_writes (yaml_writes path (Map l) true) ks !! nested_path path k = Some v.
Proof.
  intros Hl Hd Hin Hv. assert (IsScalar n = false) as Hs by by destruct Hv.
  apply list_elem_of_split in Hin as (l1 & l2 & ->). apply Forall_app in Hl as [H1 H2].
  apply Forall_cons in H2 as [_ H2]. unfold sections in Hd. rewrite filter_app, filter_cons_True in Hd by done.
  rewrite !fmap_app, !fmap_cons in Hd. apply NoDup_app in Hd as (_ & Hd1 & Hd). apply NoDup_cons in Hd as [Hd2 _].
  rewrite map_writes, run_writes_lookup, flat_map_app, filter_app. cbn [flat_map]. rewrite filter_app.
  rewrite !other_entries_writes; [|done|apply nested_path_ne| |done|apply nested_path_ne|].
  - rewrite app_nil_r. cbn [app]. unfold entry_writes. cbn [fst snd].
    destruct (section_writes (nested_path path k) n v Hv) as [Ht Ha].
    rewrite filter_all.
    + destruct n; try done; exact Ha.
    + destruct n; try done; (apply Forall_cons; split; [done|exact Ht]).
  - intros e He E. apply Hd2. cbn [fst]. rewrite <-E. by do 2 apply list_elem_of_fmap_2.
  - intros e He E. apply (Hd1 (nested_path path k)); [|left]. rewrite <-E. by do 2 apply list_elem_of_fmap_2.
Qed.

(** ** Main theorems *)

(** C31. Loading a document is idempotent and replaces what was nested: for
    every document with scalar keys and every storage that keeps its contract,
    loading succeeds; loading again changes nothing; and what is stored at
    the path of a map or sequence inside the document is the same whatever
    the storage held before. *)
Theorem yaml_load_idempotent {store : Type} {St : Storage store} {ready view}
    {L : StorageLaws St ready view} convert path n (s s' : store) :
  plain_doc n → plain path → ready s → ready s' →
  returns (yaml_to_storage convert path n true s) (λ s1, ready s1 ∧
    returns (yaml_to_storage convert path n true s1) (λ s2, view s2 = view s1) ∧
    returns (yaml_to_storage convert path n true s') (λ s1',
      ∀ p, nested_in path n p → view s1' !! p = view s1 !! p)).
Proof.
  intros Hn Hp Hs Hs'. pose proof (yaml_to_storage_does convert (L := L) n Hn path true Hp) as H.
  eapply returns_mono; [exact (H s Hs)|]. intros s1 [Hr1 Hv1]. split_and!; [done| |].
  - eapply returns_mono; [exact (H s1 Hr1)|]. intros s2 [_ Hv2].
    rewrite Hv2, Hv1. apply run_writes_idempotent, yaml_writes_repeatable.
  - eapply returns_mono; [exact (H s' Hs')|]. intros s1' [_ Hv1'] p Hin.
    rewrite Hv1', Hv1. by apply run_writes_decided, nested_decided.
Qed.

(** C32. A document of sections is stored section by section: when the paths
    of the sections differ, a list of scalars becomes the set of these and a
    map of scalars becomes the map with the last value of each key, under the
    path of the document, a colon, and the key with its underscores turned
    into colons, whatever was there. *)
Theorem yaml_sections_stored {store : Type} {St : Storage store} {ready view}
    {L : StorageLaws St ready view} convert path l (s : store) :
  plain_doc (Map l) → Forall entry_ok l → NoDup (nested_path path <$> (sections l).*1) →
  plain path → ready s →
  returns (yaml_to_storage convert path (Map l) true s) (λ s',
    ∀ k n v, (Scalar k, n) ∈ l → section_value n v →
      view s' !! (path +:+ ":" +:+ underscores_to_colons k)%string = Some v).
Proof.
  intros Hn Hl Hd Hp Hs.
  eapply returns_mono; [exact (yaml_to_storage_does convert (L := L) (Map l) Hn path true Hp s Hs)|].
  intros s' [_ Hv] k n v Hin Hsv. rewrite Hv. exact (section_lookup path l (Scalar k) n v _ Hl Hd Hin Hsv).
Qed.

(** [idempotence] is not passed down: although it is false here, what was at
    the path two levels down is deleted. *)
Lemma yaml_idempotence_not_passed :
  let doc := Map [(Scalar "a", Map [(Scalar "b", Map [(Scalar "x", Scalar "1")])])] in
  let s := mkRedis (R := MiniRedis) "localhost" 6379 (Some ({["r:a:b" := VMap {["old" := "1"]}]} : keyspace)) in
  (s ← yaml_to_storage (λ _, Throw "bad conversion") "r" doc false s;
   '(_, m) ← map_get "r:a:b" s; Ret m) = Ret (Some {["x" := "1"]}).
Proof. vm_compute. reflexivity. Qed.

(** [virgin] is never cleared: the second of two sections with one path
    deletes the first. *)
Lemma yaml_sections_collide :
  let doc := Map [(Scalar "a_b", Map [(Scalar "x", Scalar "1")]); (Scalar "a:b", Map [(Scalar "y", Scalar "2")])] in
  (s ← yaml_to_storage (λ _, Throw "bad conversion") "r" doc true mini_storage;
   '(_, m) ← map_get "r:a:b" s; Ret m) = Ret (Some {["y" := "2"]}).
Proof. vm_compute. reflexivity. Qed.

(** ** Witnesses *)

(** The documents of the tests. *)
Definition kinds_doc : node :=
  Map [(Scalar "monster-kind", Sequence (Scalar <$> ["undead"; "feral"; "magical"; "demonic"; "celestial"]))].

Definition monsters : list (node * node) :=
  [(Scalar "monster_abominable snowman", Map ((λ p, (Scalar p.1, Scalar p.2)) <$> [("kind", "feral"); ("hit-dice", "4d6")]));
   (Scalar "monster_banshee", Map ((λ p, (Scalar p.1, Scalar p.2)) <$> [("kind", "magical"); ("hit-dice", "4d10")]))].

Lemma plain_bool s : bool_decide (plain s) = true → plain s.
Proof. apply bool_decide_eq_true_1. Qed.

Ltac plain_doc_tac :=
  repeat first
    [ apply plain_bool; vm_compute; reflexivity
    | apply pd_scalar | apply pd_sequence | apply pd_map
    | apply Forall_nil_2 | apply Forall_cons_2 | split | eexists; split; [reflexivity|] ].

Lemma kinds_plain : plain_doc kinds_doc.
Proof. unfold kinds_doc. cbn [fmap list_fmap]. plain_doc_tac. Qed.

Lemma monsters_plain : plain_doc (Map monsters).
Proof. unfold monsters. cbn [fmap list_fmap fst snd]. plain_doc_tac. Qed.

Lemma yaml_load_idempotent_witness :
  plain_doc kinds_doc ∧ nested_in "test" kinds_doc "test:monster-kind" ∧
  returns (yaml_to_storage (St := Redis (R := MiniRedis)) (λ _, Undef) "test" kinds_doc true mini_storage) (λ s1,
    returns (yaml_to_storage (λ _, Undef) "test" kinds_doc true s1) (λ s2,
      redis_view (keys := mini_keys) s2 = redis_view (keys := mini_keys) s1)).
Proof.
  split; [exact kinds_plain|]. split.
  { change "test:monster-kind" with (nested_path "test" (Scalar "monster-kind")).
    eapply n_here; [apply list_elem_of_here|reflexivity]. }
  eapply returns_mono; [exact (yaml_load_idempotent (St := Redis (R := MiniRedis))
    (L := redis_laws (R := MiniRedis) (connected := mini_connected) (keys := mini_keys))
    (λ _, Undef) "test" kinds_doc mini_storage mini_storage kinds_plain (plain_bool "test" eq_refl) mini_ready mini_ready)|].
  intros s1 (_ & H & _). exact H.
Defined.

Lemma yaml_sections_stored_witness :
  plain_doc (Map monsters) ∧
  returns (yaml_to_storage (St := Redis (R := MiniRedis)) (λ _, Undef) "monsters" (Map monsters) true mini_storage) (λ s,
    redis_view (keys := mini_keys) s !! "monsters:monster:banshee" =
      Some (VMap {["kind" := "magical"; "hit-dice" := "4d10"]})).
Proof.
  split; [exact monsters_plain|].
  assert (Forall entry_ok monsters) as Hok 
    by (unfold monsters; repeat (apply Forall_cons_2; [right; eexists; apply sv_map|]); apply Forall_nil_2).
  assert (NoDup (nested_path "monsters" <$> (sections monsters).*1)) as Hd
    by (refine (bool_decide_unpack _ _); vm_compute; exact I).
  eapply returns_mono; [exact (yaml_sections_stored (St := Redis (R := MiniRedis))
    (L := redis_laws (R := MiniRedis) (connected := mini_connected) (keys := mini_keys))
    (λ _, Undef) "monsters" monsters mini_storage monsters_plain Hok Hd (plain_bool "monsters" eq_refl) mini_ready)|].
  intros s H. refine (eq_trans (H "monster_banshee" _ _ (list_elem_of_further _ _ _ (list_elem_of_here _ _)) (sv_map _ _)) _).
  vm_compute. reflexivity.
Defined.

(** The text printed for a document. *)
Example yaml_buffer_sample :
  yaml_to_buffer (λ _, Undef) "" (Map [(Scalar "a", Scalar "1"); (Scalar "b", Sequence [Scalar "x"; Null])]) "" =
  Ret ("(map)" +:+ lf +:+ "a: 1" +:+ lf +:+ "b: " +:+ lf +:+ "  (seq)" +:+ lf +:+ "  x" +:+ lf)%string.
Proof. reflexivity. Qed.
