(* ===== verification/Utilities.v ===== *)
(** * The utilities (src/util: redis-keydump, redis-stream-in,
    redis-stream-out, yaml-redis-loader, yaml-print, pmud/src/common/pmud_io.h)

    Each program is its options, the connection to the storage and its body.
    [getenv] gives the two settings, files are a function from names to
    contents, what the programs log is left out. The two programs that never
    end are modelled by one round of their loop. *)
From Stdlib Require Import Ascii String.
From stdpp Require Import strings sorting.
From S2P Require Import Prelude.
From S2P Require Import Text.
From S2P Require Import Options.
From S2P Require Import Storage.
From S2P Require Import Redis.
From S2P Require Import Yaml.

(** What a program leaves: the status and the two outputs. *)
Record result := mkResult { status : Z; out : string; err_out : string }.

Definition quiet (s : Z) : result := mkResult s "" "".

(** The environment of a program: REDIS_HOST and REDIS_PORT. *)
Record environment := mkEnv { REDIS_HOST : option string; REDIS_PORT : option string }.

(** ** pmud_io.h: the text of the file, or of the standard input when no name
    is given; null when the file cannot be opened. *)
Definition stdout_or_file (filename : string) (files : string → option string) (cin : string) : option string :=
  if decide (filename = ""%string) then Some cin else files filename.

(** The order of a [std::set]. *)
Definition text_le (s t : string) : Prop := String.leb s t = true.
#[export] Instance text_le_dec s t : Decision (text_le s t).
Proof. unfold text_le. apply _. Defined.
Definition in_set_order (s : set_t) : list string := merge_sort text_le (base.elements s).

Section utilities.
Context {R : Hiredis}.

(** [raw] returns the reply, which hiredis allocates with [malloc], in a
    [unique_ptr] whose deleter is [delete]. C++ leaves that undefined, [Undef];
    where the library's [operator delete] is [free], it returns. *)
Context (mismatched_delete : outcome ()).

(** The end of the life of that [unique_ptr] *)
Definition drop_reply (reply : option redisReply) : outcome () :=
  match reply with None => Ret () | Some _ => mismatched_delete end.

(** [RedisStorage::raw]; the command is used as a format. *)
Definition raw (command : string) (st : RedisStorage) : outcome (RedisStorage * option redisReply) :=
  args ← redisFormat (c_str command); run_command args st.

(** A value on a line of its own. *)
Definition line (s : string) : string := (s +:+ endl)%string.
Definition lines (l : list string) : string := String.concat "" (line <$> l).

(** ** redis-keydump.cpp *)
Definition keydump_usage : string :=
  ("Usage: redis-storage [-k key]" +:+ endl +:+ endl +:+
   "NOTE:" +:+ endl +:+ "    REDIS_HOST and REDIS_PORT should be set in environment." +:+ endl +:+ endl)%string.

Definition keydump_option (o : opt) (key : string) : outcome (step string) :=
  match o with
  | Opt c optarg =>
      if decide (c = "k"%char) then Ret (Go optarg)
      else if decide (c = "h"%char) then Ret (Done EXIT_SUCCESS)
      else Ret (Done EXIT_FAILURE)
  | Unknown => Ret (Done EXIT_FAILURE)
  end.

(** One branch: the query, and what is printed of its result. *)
Definition print_query {A} (key : string) (query : RedisStorage → outcome (RedisStorage * option A))
    (text : A → string) (st : RedisStorage) : outcome (RedisStorage * result) :=
  '(st, r) ← query st;
  Ret (st, match r with
           | None => mkResult EXIT_FAILURE ("Error, could not get key " +:+ key +:+ endl)%string ""
           | Some x => mkResult EXIT_SUCCESS (text x) ""
           end).

(** The branches for the types. *)
Definition print_key (key key_type : string) (st : RedisStorage) : outcome (RedisStorage * result) :=
  if decide (key_type = "string"%string) then print_query key (value_get key) line st
  else if decide (key_type = "list"%string) then print_query key (list_get key) lines st
  else if decide (key_type = "hash"%string) then
    '(st, r) ← map_get key st;
    Ret (st, match r with
             | None => mkResult EXIT_FAILURE ("Error, could not get hash key " +:+ key +:+ endl)%string ""
             | Some m => mkResult EXIT_SUCCESS (lines ((λ val, val.1 +:+ "=" +:+ val.2)%string <$> in_key_order m)) ""
             end)
  else if decide (key_type = "set"%string) then print_query key (set_get key) (λ s, lines (in_set_order s)) st
  else Ret (st, mkResult EXIT_SUCCESS "" ("Error, unsupported type: " +:+ key_type +:+ endl)%string).

(** From the query of the type on; the reply is deleted at the end of the
    block it is in. *)
Definition dump_key (key : string) (st : RedisStorage) : outcome (RedisStorage * result) :=
  '(st, reply) ← raw ("TYPE " +:+ key)%string st;
  match reply with
  | None => Ret (st, mkResult EXIT_FAILURE "" ("Could not retrieve key " +:+ key +:+ ", aborting!" +:+ endl)%string)
  | Some r =>
      key_type ← reply_str r;
      _ ← drop_reply reply;
      print_key key key_type st
  end.

(** [spdlog] is off. *)
Definition keydump_main (args : list string) (env : environment) : outcome result :=
  options ← parse_options keydump_option (getopt "k:h" args) "";
  match options with
  | Done s => Ret (mkResult s keydump_usage "")
  | Go key =>
      if decide (key = ""%string) then Ret (quiet EXIT_FAILURE)
      else
        storage ← initialize_redis_storage (REDIS_HOST env) (REDIS_PORT env);
        match storage with
        | None => Ret (quiet EXIT_FAILURE)
        | Some st => '(_, r) ← dump_key key st; Ret r
        end
  end.

(** ** yaml-redis-loader.cpp *)
Section yaml_programs.
(** [YAML::Load], and what [as<string>()] makes of nodes other than scalars *)
Context (Load : string → outcome node) (convert : node → outcome string).
Context (files : string → option string) (cin : string).

Definition loader_usage : string :=
  ("Usage: yaml-redis-loader [-f filename] [-p prefix]" +:+ endl +:+ endl +:+
   "NOTE:" +:+ endl +:+ "    REDIS_HOST and REDIS_PORT should be set in environment." +:+ endl +:+ endl)%string.

(** The name of the file and the prefix. *)
Definition loader_option (o : opt) (s : string * string) : outcome (step (string * string)) :=
  match o with
  | Opt c optarg =>
      if decide (c = "f"%char) then Ret (Go (optarg, s.2))
      else if decide (c = "p"%char) then Ret (Go (s.1, optarg))
      else if decide (c = "h"%char) then Ret (Done EXIT_SUCCESS)
      else Ret (Done EXIT_FAILURE)
  | Unknown => Ret (Done EXIT_FAILURE)
  end.

(** The result, and the storage when there is one. *)
Definition loader_main (args : list string) (env : environment) : outcome (result * option RedisStorage) :=
  options ← parse_options loader_option (getopt "f:p:h" args) (""%string, "pmud"%string);
  match options with
  | Done s => Ret (mkResult s loader_usage "", None)
  | Go (filename, prefix) =>
      storage ← initialize_redis_storage (REDIS_HOST env) (REDIS_PORT env);
      match storage with
      | None => Ret (quiet EXIT_FAILURE, None)
      | Some st =>
          match stdout_or_file filename files cin with
          | None => Ret (quiet EXIT_FAILURE, Some st)
          | Some input =>
              config ← Load input;
              st ← yaml_to_storage convert prefix config true st;
              Ret (quiet EXIT_SUCCESS, Some st)
          end
      end
  end.

(** ** yaml-print.cpp *)
Definition print_usage : string := ("Usage: yaml-print [-f filename]" +:+ endl +:+ endl)%string.

Definition print_option (o : opt) (filename : string) : outcome (step string) :=
  match o with
  | Opt c optarg =>
      if decide (c = "f"%char) then Ret (Go optarg)
      else if decide (c = "h"%char) then Ret (Done EXIT_SUCCESS)
      else Ret (Done EXIT_FAILURE)
  | Unknown => Ret (Done EXIT_FAILURE)
  end.

(** [buffer.data()] has no terminator: the text goes on to the first NUL in
    the [memory] of the buffer after it. *)
Definition data_text (buffer memory : string) : outcome string :=
  if decide (Ascii.zero ∈ to_list (buffer +:+ memory)%string) then Ret (c_str (buffer +:+ memory)%string) else Undef.

Definition print_main (args : list string) (memory : string) : outcome result :=
  options ← parse_options print_option (getopt "f:p:h" args) "";
  match options with
  | Done s => Ret (mkResult s print_usage "")
  | Go filename =>
      input ← from_option_ub (stdout_or_file filename files cin);
      config ← Load input;
      buffer ← yaml_to_buffer convert "" config "";
      text ← data_text buffer memory;
      Ret (mkResult EXIT_SUCCESS text "")
  end.
End yaml_programs.

(** ** redis-stream-in.cpp: one round of the loop

    [counter], and the counts at which the log is written. *)
Definition stream_in_round (stream_name : string) (s : Z * RedisStorage * list Z) : outcome (Z * RedisStorage * list Z) :=
  let '(counter, st, log) := s in
  '(st, reply) ← raw ("XADD " +:+ stream_name +:+ " * sensor-id 1234 temperature " +:+ pretty counter)%string st;
  _ ← drop_reply reply;
  let counter := (counter + 1) mod 2 ^ 64 in
  Ret (counter, st, if decide (counter mod 1000 = 0) then log ++ [counter] else log).

Definition stream_in_usage : string :=
  ("Usage: redis-stream-in [-s stream-name]" +:+ endl +:+ endl +:+
   "NOTE:" +:+ endl +:+ "    REDIS_HOST and REDIS_PORT should be set in environment." +:+ endl +:+ endl)%string.

Definition stream_in_option (o : opt) (stream_name : string) : outcome (step string) :=
  match o with
  | Opt c optarg =>
      if decide (c = "s"%char) then Ret (Go optarg)
      else if decide (c = "h"%char) then Ret (Done EXIT_SUCCESS)
      else Ret (Done EXIT_FAILURE)
  | Unknown => Ret (Done EXIT_FAILURE)
  end.

(** The result of a run that ends, or the stream and the state in which the
    loop starts. *)
Definition stream_in_start (args : list string) (env : environment) :
    outcome (result + string * (Z * RedisStorage * list Z)) :=
  options ← parse_options stream_in_option (getopt "s:p:h" args) "";
  match options with
  | Done s => Ret (inl (mkResult s stream_in_usage ""))
  | Go stream_name =>
      if decide (stream_name = ""%string) then Ret (inl (quiet EXIT_FAILURE))
      else
        storage ← initialize_redis_storage (REDIS_HOST env) (REDIS_PORT env);
        Ret (match storage with
             | None => inl (quiet EXIT_FAILURE)
             | Some st => inr (stream_name, (1, st, []))
             end)
  end.

(** ** redis-stream-out.cpp *)
Definition stream_out_usage : string :=
  ("Usage: redis-stream-out [-s stream-name]" +:+ endl +:+ endl +:+
   "NOTE:" +:+ endl +:+ "    REDIS_HOST and REDIS_PORT should be set in environment." +:+ endl +:+ endl)%string.
Definition DEFAULT_BATCH_SIZE : Z := 10000.

(** The name of the stream and the size of a batch. *)
Definition stream_out_option (o : opt) (s : string * Z) : outcome (step (string * Z)) :=
  match o with
  | Opt c optarg =>
      if decide (c = "s"%char) then Ret (Go (optarg, s.2))
      else if decide (c = "b"%char) then b ← atoi optarg; Ret (Go (s.1, b mod 2 ^ 64))
      else if decide (c = "h"%char) then Ret (Done EXIT_SUCCESS)
      else Ret (Done EXIT_FAILURE)
  | Unknown => Ret (Done EXIT_FAILURE)
  end.

(** [counter], [position], and the ids of the records at which the log is
    written. *)
Record reader := mkReader { counter : Z; position : string; log : list string }.

(** [a % b] on [size_t] *)
Definition size_mod (a b : Z) : outcome Z := if decide (b = 0) then Undef else Ret (a mod b).

Definition read_record (batch_size : Z) (r : reader) (record : StreamRecord) : outcome reader :=
  let counter := (counter r + 1) mod 2 ^ 64 in
  let position := timestamp record in
  m ← size_mod counter batch_size;
  Ret (mkReader counter position (if decide (m = 0) then log r ++ [timestamp record] else log r)).

(** One round of the loop. *)
Definition stream_out_round (batch_size : Z) (stream_name : string) (s : reader * RedisStorage) :
    outcome (reader * RedisStorage) :=
  let '(r, st) := s in
  '(st, stream_responses) ← read_stream_raw ("XREAD BLOCK 0 COUNT " +:+ pretty batch_size +:+ " STREAMS "
    +:+ stream_name +:+ " " +:+ position r)%string st;
  r ← foldM (λ r response, foldM (read_record batch_size) r (records response)) r stream_responses;
  Ret (r, st).

Definition stream_out_start (args : list string) (env : environment) :
    outcome (result + string * Z * (reader * RedisStorage)) :=
  options ← parse_options stream_out_option (getopt "s:b:h" args) (""%string, DEFAULT_BATCH_SIZE);
  match options with
  | Done s => Ret (inl (mkResult s stream_out_usage ""))
  | Go (stream_name, batch_size) =>
      if decide (stream_name = ""%string) then Ret (inl (quiet EXIT_FAILURE))
      else
        storage ← initialize_redis_storage (REDIS_HOST env) (REDIS_PORT env);
        Ret (match storage with
             | None => inl (quiet EXIT_FAILURE)
             | Some st => inr (stream_name, batch_size, (mkReader 0 "0" [], st))
             end)
  end.
End utilities.

(** [n] rounds of a loop that does not end. *)
Fixpoint rounds {S} (n : nat) (round : S → outcome S) (s : S) : outcome S :=
  match n with O => Ret s | Datatypes.S n => s ← round s; rounds n round s end.

(** ** Specification *)

(** An argument that survives being part of a command text. *)
Definition space : Ascii.ascii := " "%char.
Definition percent : Ascii.ascii := "%"%char.
Definition word (s : string) : Prop := s ≠ ""%string ∧ plain s ∧ lacks space s ∧ lacks percent s.
#[export] Instance word_dec s : Decision (word s).
Proof. unfold word, plain, lacks. apply _. Defined.

Definition type_name (o : option value) : string :=
  match o with
  | None => "none"
  | Some (VString _) => "string"
  | Some (VMap _) => "hash"
  | Some (VList _) => "list"
  | Some (VSet _) => "set"
  | Some (VStream _) => "stream"
  end.

Definition status_reply (s : string) : redisReply := mkReply REDIS_REPLY_STATUS 0 (Some s) [].

(** The parts of a text between spaces; without the empty ones, its words. *)
Fixpoint split_words (cur s : string) : list string :=
  match s with
  | EmptyString => [cur]
  | String c s => if decide (c = space) then cur :: split_words "" s else split_words (cur +:+ String c "") s
  end.

Definition words_of (s : string) : list string := filter (λ w, w ≠ ""%string) (split_words "" s).

(** The server's answer to [TYPE] with no key or with several. *)
Definition type_arity : string := "ERR wrong number of arguments for 'type' command".

(** hiredis makes one argument of each word of a command text without
    conversions; the server names the type of a key. *)
Class CommandLaws (R : Hiredis) (connected : redisContext → Prop) (keys : redisContext → keyspace) : Prop := {
  format_law s : plain s → lacks percent s → words_of s ≠ [] → redisFormat s = Ret (words_of s);
  type_law k c : connected c →
    ∃ c', redisCommandArgv ["TYPE"; k] c = (c', Some (status_reply (type_name (keys c !! k)))) ∧
      connected c' ∧ keys c' = keys c;
  type_arity_law ks c : length ks ≠ 1%nat → connected c →
    ∃ c', redisCommandArgv ("TYPE" :: ks) c = (c', Some (mkReply REDIS_REPLY_ERROR 0 (Some type_arity) [])) ∧
      connected c' ∧ keys c' = keys c
}.

(** What redis-keydump is to print for a value. *)
Definition dump_result (o : option value) : result :=
  match o with
  | Some (VString s) => mkResult EXIT_SUCCESS (line s) ""
  | Some (VList l) => mkResult EXIT_SUCCESS (lines l) ""
  | Some (VMap m) => mkResult EXIT_SUCCESS (lines ((λ val, val.1 +:+ "=" +:+ val.2)%string <$> in_key_order m)) ""
  | Some (VSet s) => mkResult EXIT_SUCCESS (lines (in_set_order s)) ""
  | _ => mkResult EXIT_SUCCESS "" ("Error, unsupported type: " +:+ type_name o +:+ endl)
  end.

(** The server can be reached under these settings, by the context [c]. *)
Definition reached {R : Hiredis} (env : environment) (c : redisContext) : Prop :=
  ∃ host ip, env = mkEnv (Some host) None ∧ hostname_to_ip host "" = (0, ip) ∧
    redisConnect (c_str ip) 6379 = Some c ∧ err c = false.

(** The key space with the time of connection. *)
Definition stamped {R : Hiredis} (ks : keyspace) : keyspace :=
  <["server_last_connected" := VString (pretty time)]> ks.

(** ** Commands as text *)
Lemma word_plain s : word s → plain s.
Proof. by intros (_ & ? & _). Qed.

Lemma concat_lacks c sep ws : lacks c sep → Forall (lacks c) ws → lacks c (String.concat sep ws).
Proof.
  intros Hsep. induction 1 as [|w ws Hw _ IH]; [apply not_elem_of_nil|]. destruct ws as [|w' ws]; [done|].
  change (lacks c (w +:+ sep +:+ String.concat sep (w' :: ws))%string). rewrite !lacks_append. done.
Qed.

Lemma commands_plain ws : Forall word ws → plain (String.concat " " ws).
Proof.
  intros Hws. apply concat_lacks; [refine (bool_decide_unpack (plain " ") _); vm_compute; exact I|].
  eapply Forall_impl; [exact Hws|]. apply word_plain.
Qed.

Lemma split_word cur w rest : lacks space w → split_words cur (w +:+ rest) = split_words (cur +:+ w) rest.
Proof.
  revert cur. induction w as [|c w IH]; intros cur Hw; [by rewrite append_nil_r|].
  apply not_elem_of_cons in Hw as [Hc Hw]. rewrite append_cons. cbn [split_words]. rewrite decide_False by congruence.
  rewrite IH by done. by rewrite <-append_assoc.
Qed.

Lemma split_concat ws : ws ≠ [] → Forall word ws → split_words "" (String.concat " " ws) = ws.
Proof.
  intros Hn Hws. induction Hws as [|w ws (_ & _ & Hw & _) Hws IH]; [done|]. destruct ws as [|w' ws].
  - rewrite <-(append_nil_r (String.concat _ _)). change (String.concat " " [w]) with w. by rewrite split_word.
  - change (String.concat " " (w :: w' :: ws)) with (w +:+ " " +:+ String.concat " " (w' :: ws))%string.
    rewrite split_word by done. rewrite append_nil_l, append_cons. cbn [split_words]. rewrite decide_True by done.
    by rewrite append_nil_l, IH.
Qed.

Lemma words_of_concat ws : ws ≠ [] → Forall word ws → words_of (String.concat " " ws) = ws.
Proof.
  intros Hn Hws. unfold words_of. rewrite split_concat by done. clear Hn.
  induction Hws as [|w ws [Hw _] _ IH]; [done|]. by rewrite filter_cons_True, IH.
Qed.

(** A command word before a text *)
Lemma words_of_command w s : word w → words_of (w +:+ " " +:+ s) = w :: words_of s.
Proof.
  intros (Hn & _ & Hw & _). unfold words_of. rewrite split_word by done. rewrite append_nil_l, append_cons. cbn [split_words].
  rewrite decide_True by done. rewrite append_nil_l. by rewrite filter_cons_True.
Qed.

Lemma split_words_chars c s : ∀ cur, lacks c cur → lacks c s → Forall (lacks c) (split_words cur s).
Proof.
  induction s as [|c' s IH]; intros cur Hcur Hs; cbn [split_words]; [by apply Forall_singleton|].
  apply not_elem_of_cons in Hs as [Hc Hs]. case_decide; [constructor; [done|]|]; apply IH; [apply not_elem_of_nil|done| |done].
  apply lacks_append. split; [done|]. by apply not_elem_of_cons; split; [|apply not_elem_of_nil].
Qed.

Lemma words_of_plain s : plain s → Forall plain (words_of s).
Proof.
  intros Hs. apply Forall_forall. intros w [_ Hw]%list_elem_of_filter.
  exact (proj1 (Forall_forall _ _) (split_words_chars Ascii.zero s "" (not_elem_of_nil _) Hs) w Hw).
Qed.

Lemma pretty_word (z : Z) : word (pretty z).
Proof.
  assert (∀ c, bool_decide (c ∈ decimal_chars) = false → lacks c (pretty z)) as H.
  { intros c Hc. apply pretty_Z_lacks. by apply bool_decide_eq_false in Hc. }
  split; [|split_and!; by apply H].
  destruct z as [|p|p]; [done| |done]. destruct (pretty_N_first (N.pos p)) as (c & s & E & _).
  change (pretty (Z.pos p)) with (pretty (N.pos p)). by rewrite E.
Qed.

(** Closes [Forall word ws] for words that are literal, numerals or assumed. *)
Ltac words :=
  repeat (apply Forall_cons_2;
    [first [done | apply pretty_word | refine (bool_decide_unpack (word _) _); vm_compute; exact I]|]);
  try apply Forall_nil_2.

Section programs.
Context {R : Hiredis} {connected : redisContext → Prop} {keys : redisContext → keyspace}.
Context {L : RedisLaws R connected keys} {C : CommandLaws R connected keys} (mismatched_delete : outcome ()).
Local Abbreviation ready := (redis_ready (connected := connected) (keys := keys)).
Local Abbreviation view := (redis_view (keys := keys)).

Lemma format_text s : plain s → lacks percent s → words_of s ≠ [] → redisFormat (c_str s) = Ret (words_of s).
Proof. intros Hp Hf Hn. rewrite c_str_plain by done. by apply (format_law (R := R)). Qed.

Lemma format_words ws : ws ≠ [] → Forall word ws → redisFormat (c_str (String.concat " " ws)) = Ret ws.
Proof.
  intros Hn Hws. rewrite format_text; rewrite ?words_of_concat; try done; [by apply commands_plain|].
  apply concat_lacks; [refine (bool_decide_unpack (lacks percent " ") _); vm_compute; exact I|].
  eapply Forall_impl; [exact Hws|]. by intros ? (_ & _ & _ & ?).
Qed.

Lemma raw_text s c c' r (st : RedisStorage) : plain s → lacks percent s → words_of s ≠ [] →
  m_context st = Some c → redisCommandArgv (words_of s) c = (c', r) →
  raw s st = Ret (mkRedis (m_host st) (m_port st) (Some c'), r).
Proof.
  intros Hp Hf Hn Hc E. unfold raw. rewrite format_text by done. cbn [mbind outcome_bind].
  apply (run_command_eq _ c); [done| |done]. by apply words_of_plain.
Qed.

Lemma raw_command ws c c' r (st : RedisStorage) :
  ws ≠ [] → Forall word ws → m_context st = Some c → redisCommandArgv ws c = (c', r) →
  raw (String.concat " " ws) st = Ret (mkRedis (m_host st) (m_port st) (Some c'), r).
Proof.
  intros Hn Hws Hc E. unfold raw. rewrite format_words by done. cbn [mbind outcome_bind].
  apply (run_command_eq _ c); [done| |done]. eapply Forall_impl; [exact Hws|]. apply word_plain.
Qed.

(** ** redis-keydump *)

(** What [TYPE] and the words of a text are answered *)
Definition type_answer (key : string) (ks : keyspace) : redisReply :=
  match words_of key with
  | [k] => status_reply (type_name (ks !! k))
  | _ => mkReply REDIS_REPLY_ERROR 0 (Some type_arity) []
  end.

Lemma raw_type key st : plain key → lacks percent key → ready st →
  returns (raw ("TYPE " +:+ key)%string st) (λ r,
    r.2 = Some (type_answer key (view st)) ∧ ready r.1 ∧ view r.1 = view st).
Proof.
  intros Hk Hf (c & Hc & Hcon & Hp). set (text := ("TYPE " +:+ key)%string).
  assert (word "TYPE") as Hw by (refine (bool_decide_unpack (word "TYPE") _); vm_compute; exact I).
  assert (words_of text = "TYPE" :: words_of key) as Ew by by apply (words_of_command "TYPE" key).
  assert (∃ c', redisCommandArgv (words_of text) c = (c', Some (type_answer key (keys c))) ∧ connected c' ∧ keys c' = keys c)
    as (c' & E & Hcon' & Hkeys).
  { rewrite Ew. unfold type_answer. destruct (words_of key) as [|k [|k' ks]] eqn:Ek; [|by apply type_law|];
      by apply type_arity_law. }
  assert (∀ ch, lacks ch "TYPE " → lacks ch key → lacks ch text) as Htext by (intros; by apply lacks_append).
  rewrite (raw_text text c c' (Some (type_answer key (keys c))) st); [| | |by rewrite Ew|exact Hc|exact E].
  2-3: apply Htext; [refine (bool_decide_unpack (lacks _ "TYPE ") _); vm_compute; exact I|done].
  apply returns_Ret. unfold redis_view. cbn [fst snd m_context]. rewrite Hc. split_and!; [done| |done].
  exists c'. by rewrite Hkeys.
Qed.

Lemma print_query_reads {A} key (query : RedisStorage → outcome (RedisStorage * option A)) text f st x :
  reads ready view query key f → ready st → f (view st !! key) = Some x →
  returns (print_query key query text st) (λ r, r.2 = mkResult EXIT_SUCCESS (text x) "").
Proof.
  intros Hq Hst Hx. unfold print_query. eapply returns_bind; [exact (Hq st Hst)|].
  intros [st' r] (Hr & E & Hv). cbn [fst snd] in *. rewrite E, Hx. by apply returns_Ret.
Qed.

Lemma type_answer_str key ks : reply_str (type_answer key ks) =
  Ret (match words_of key with [k] => type_name (ks !! k) | _ => type_arity end).
Proof.
  unfold type_answer. destruct (words_of key) as [|k [|k' l]]; [done| |done]. by destruct (ks !! k) as [[]|].
Qed.

Lemma words_of_one key : key ≠ ""%string → lacks space key → words_of key = [key].
Proof.
  intros Hn Hs. unfold words_of. rewrite <-(append_nil_r key) at 1. rewrite split_word, append_nil_l by done.
  cbn [split_words]. by rewrite filter_cons_True.
Qed.

(** The result of a key that is a word, and of one that is none or several. *)
Definition dump_text (key : string) (o : option value) : result :=
  match words_of key with
  | [_] => dump_result o
  | _ => mkResult EXIT_SUCCESS "" ("Error, unsupported type: " +:+ type_arity +:+ endl)%string
  end.

Definition word_or_words (key : string) : Prop := lacks space key ∨ length (words_of key) ≠ 1%nat.

Lemma print_key_shows key st : plain key → ready st →
  returns (print_key key (type_name (view st !! key)) st) (λ r, r.2 = dump_result (view st !! key)).
Proof.
  intros Hp Hst.
  pose proof (value_get_law (St := Redis) (ready := ready) (view := view) key Hp) as Hvalue.
  pose proof (list_get_law (St := Redis) (ready := ready) (view := view) key Hp) as Hlist.
  pose proof (map_get_law (St := Redis) (ready := ready) (view := view) key Hp) as Hmap.
  pose proof (set_get_law (St := Redis) (ready := ready) (view := view) key Hp) as Hset.
  unfold print_key. destruct (view st !! key) as [[s|m|l|s|l]|] eqn:E;
    cbn -[decide value_get list_get map_get set_get String.append]; repeat (rewrite decide_False by done);
    rewrite ?decide_True by done.
  - eapply print_query_reads; [exact Hvalue|done|by rewrite E].
  - eapply returns_bind; [exact (Hmap st Hst)|]. intros [st2 r2] (Hr & E2 & Hv). cbn [fst snd] in *. rewrite E2, E.
    by apply returns_Ret.
  - eapply print_query_reads; [exact Hlist|done|by rewrite E].
  - eapply (print_query_reads key _ (λ s, lines (in_set_order s))); [exact Hset|done|by rewrite E].
  - by apply returns_Ret.
  - by apply returns_Ret.
Qed.

Lemma dump_key_shows key st : key ≠ ""%string → plain key → lacks percent key → word_or_words key → ready st →
  ∃ r, dump_key mismatched_delete key st = (_ ← mismatched_delete; Ret r) ∧ r.2 = dump_text key (view st !! key).
Proof.
  intros Hne Hp Hf Hk Hst. destruct (raw_type key st Hp Hf Hst) as ([st1 reply] & E & Er & Hst1 & Hv1).
  cbn [fst snd] in *. subst reply. unfold dump_key. rewrite E. cbn [mbind outcome_bind]. rewrite type_answer_str.
  cbn [mbind outcome_bind drop_reply]. unfold dump_text. destruct Hk as [Hk|Hk].
  - rewrite words_of_one by done. rewrite <-Hv1. destruct (print_key_shows key st1 Hp Hst1) as (r & E1 & Hr).
    exists r. split; [|exact Hr]. destruct mismatched_delete; [exact E1|done..].
  - exists (st1, mkResult EXIT_SUCCESS "" ("Error, unsupported type: " +:+ type_arity +:+ endl)%string).
    destruct (words_of key) as [|k [|k' l]]; [|done|]; (split; [|done]); unfold print_key; by rewrite !decide_False by done.
Qed.

Lemma reached_ready env c : reached env c → connected c → plain_keys (keys c) →
  returns (initialize_redis_storage (REDIS_HOST env) (REDIS_PORT env)) (λ o,
    ∃ st, o = Some st ∧ ready st ∧ view st = stamped (keys c)).
Proof.
  intros (host & ip & -> & Hip & Hc & He) Hcon Hk. unfold initialize_redis_storage.
  cbn [REDIS_HOST REDIS_PORT default from_option mbind outcome_bind].
  eapply returns_bind; [by apply (redis_init_ready (RedisStorage_new host 6379) ip c)|].
  intros [st ok] (Hok & Hr & Hv). cbn [fst snd] in *. subst ok. apply returns_Ret. by exists st.
Qed.

Lemma keydump_runs key env c :
  key ≠ ""%string → plain key → lacks percent key → word_or_words key →
  reached env c → connected c → plain_keys (keys c) →
  keydump_main mismatched_delete ["-k"; key] env = (_ ← mismatched_delete; Ret (dump_text key (stamped (keys c) !! key))).
Proof.
  intros Hne Hp Hf Hk Henv Hcon Hkeys. unfold keydump_main. change (getopt "k:h" ["-k"; key]) with [Opt "k" key].
  cbn [parse_options keydump_option]. rewrite decide_True by done. cbn [mbind outcome_bind].
  rewrite decide_False by done. destruct (reached_ready env c Henv Hcon Hkeys) as (o & -> & st & -> & Hst & Hv).
  cbn [mbind outcome_bind]. destruct (dump_key_shows key st Hne Hp Hf Hk Hst) as ([st' r] & -> & E). cbn [snd] in E.
  rewrite <-Hv, <-E. by destruct mismatched_delete.
Qed.

(** ** yaml-redis-loader *)
Lemma loader_runs Load convert files cin filename text doc prefix env c :
  filename ≠ ""%string → files filename = Some text → Load text = Ret doc → plain_doc doc → plain prefix →
  reached env c → connected c → plain_keys (keys c) →
  returns (loader_main Load convert files cin ["-f"; filename; "-p"; prefix] env) (λ r, r.1 = quiet EXIT_SUCCESS ∧
    ∃ st, r.2 = Some st ∧ ready st ∧ view st = run_writes (yaml_writes prefix doc true) (stamped (keys c))).
Proof.
  intros Hf Hfile Hload Hdoc Hprefix Henv Hcon Hp. unfold loader_main.
  change (parse_options loader_option _ _) with (Ret (Go (filename, prefix))). cbn [mbind outcome_bind].
  eapply returns_bind; [by apply reached_ready|]. intros o (st & -> & Hst & Hv).
  unfold stdout_or_file. rewrite decide_False, Hfile, Hload by done. cbn [mbind outcome_bind].
  eapply returns_bind; [exact (yaml_to_storage_does convert (L := redis_laws) doc Hdoc prefix true Hprefix st Hst)|].
  intros st' [Hst' Hv']. apply returns_Ret. split; [done|]. exists st'. by rewrite Hv', Hv.
Qed.

(** ** redis-stream-in *)
Lemma stream_in_round_adds name n st log : word name → ready st → 0 ≤ n →
  ∃ r, stream_in_round mismatched_delete name (n, st, log) = (_ ← mismatched_delete; Ret r) ∧
    r.1.1 = (n + 1) mod 2 ^ 64 ∧ ready r.1.2 ∧
    view r.1.2 = run_write (WXadd name [("sensor-id", "1234"); ("temperature", pretty n)]) (view st).
Proof.
  intros Hname (c & Hc & Hcon & Hp) Hn. unfold stream_in_round.
  set (fields := [("sensor-id", "1234"); ("temperature", pretty n : string)]).
  set (ws := ["XADD"; name; "*"; "sensor-id"; "1234"; "temperature"; pretty n : string]).
  change ("XADD " +:+ name +:+ " * sensor-id 1234 temperature " +:+ pretty n)%string with (String.concat " " ws).
  destruct (write_law (R := R) ws (WXadd name fields) c) as (c' & r & E & Hcon' & Hkeys).
  { apply w_primitive. by apply (p_xadd name fields). }
  { done. }
  rewrite (raw_command ws c c' _ st) by (done || (unfold ws; words) || exact E).
  cbn [mbind outcome_bind drop_reply]. eexists. split; [reflexivity|]. unfold redis_view. cbn [fst snd m_context]. rewrite Hc.
  split_and!; [done| |done]. exists c'. split_and!; [done|done|]. rewrite Hkeys. by apply run_write_plain.
Qed.
End programs.

(** ** redis-stream-out *)

(** A stream is a list of entries, each an id and its fields; those that come
    after the id [p], all of them after "0". *)
Abbreviation entry := (string * list (string * string))%type.

Fixpoint after (p : string) (l : list entry) : list entry :=
  match l with [] => [] | e :: l => if decide (e.1 = p) then l else after p l end.

Definition unread (p : string) (l : list entry) : list entry := if decide (p = "0"%string) then l else after p l.

Definition good_entries (l : list entry) : Prop :=
  NoDup l.*1 ∧ Forall (λ e, e.1 ≠ "0"%string ∧ word e.1) l ∧
  Forall (λ e, Forall (λ p, plain p.1 ∧ plain p.2) e.2) l ∧ Z.of_nat (length l) < 2 ^ 64.

(** The server's [XREAD] blocks until there is an entry to return; other
    clients may add entries meanwhile. *)
Class StreamLaws (R : Hiredis) (connected : redisContext → Prop) (name : string) (entries : redisContext → list entry) : Prop := {
  entries_law c : connected c → good_entries (entries c);
  xread_law c n p : connected c → 1 ≤ n ≤ INT_MAX → unread p (entries c) ≠ [] →
    ∃ c', redisCommandArgv ["XREAD"; "BLOCK"; "0"; "COUNT"; pretty n; "STREAMS"; name; p] c =
        (c', Some (array_reply [enc_stream (inr (name, inr <$> take (Z.to_nat n) (unread p (entries c'))))])) ∧
      connected c' ∧ entries c `prefix_of` entries c'
}.

(** The reader has read the first [k] entries, and logged every
    [batch_size]-th of them. *)
Definition logged (batch_size : Z) (l : list entry) : list string :=
  omap (λ p, if decide ((Z.of_nat p.1 + 1) mod batch_size = 0) then Some p.2.1 else None) (imap pair l).

Definition has_read (batch_size : Z) (k : nat) (l : list entry) (r : reader) : Prop :=
  (k ≤ length l)%nat ∧ counter r = Z.of_nat k ∧
  position r = match k with O => "0"%string | S i => from_option fst "0"%string (l !! i) end ∧
  log r = logged batch_size (take k l).

Lemma after_lookup l i e : NoDup l.*1 → l !! i = Some e → after e.1 l = drop (S i) l.
Proof.
  revert i. induction l as [|e' l IH]; intros [|i] Hd Hi; try done; cbn in *.
  - injection Hi as ->. by rewrite decide_True.
  - apply NoDup_cons in Hd as [Hn Hd]. rewrite decide_False; [by apply IH|]. intros E. apply Hn. rewrite E.
    apply list_elem_of_fmap_2. by eapply list_elem_of_lookup_2.
Qed.

Lemma has_read_unread b k l r : good_entries l → has_read b k l r → unread (position r) l = drop k l.
Proof.
  intros (Hd & Hids & _) (Hk & _ & Hp & _). unfold unread. destruct k as [|i]; rewrite Hp; [done|].
  destruct (lookup_lt_is_Some_2 l i) as [e He]; [lia|]. rewrite He. cbn [from_option].
  eapply Forall_lookup_1 in Hids as [Hne _]; [|exact He]. rewrite decide_False by done. by apply after_lookup.
Qed.

Lemma has_read_prefix b k l l' r : l `prefix_of` l' → has_read b k l r → has_read b k l' r.
Proof.
  intros [t ->] (Hk & Hc & Hp & Hl). unfold has_read. rewrite length_app, take_app_le by done.
  split_and!; [lia|done| |done]. rewrite Hp. destruct k; [done|]. by rewrite lookup_app_l by lia.
Qed.

Lemma logged_snoc b l e : logged b (l ++ [e]) =
  logged b l ++ (if decide ((Z.of_nat (length l) + 1) mod b = 0) then [e.1] else []).
Proof.
  unfold logged. rewrite imap_app, omap_app. f_equal. cbn. rewrite Nat.add_0_r. by case_decide.
Qed.

(** Reading the next entries one by one. *)
Lemma read_records_spec b m : ∀ k l r, 1 ≤ b → good_entries l → has_read b k l r →
  returns (foldM (read_record b) r (omap dec_record (inr <$> take m (drop k l))))
    (has_read b (k + length (take m (drop k l))) l).
Proof.
  induction m as [|m IH]; intros k l r Hb Hl Hr; [apply returns_Ret; by rewrite Nat.add_0_r|].
  destruct (drop k l) as [|e rest] eqn:E; [apply returns_Ret; by rewrite Nat.add_0_r|].
  assert (l !! k = Some e) as He by (rewrite <-(Nat.add_0_r k), <-lookup_drop, E; done).
  pose proof (lookup_lt_Some _ _ _ He) as Hlt. pose proof Hl as (Hd & Hids & Hf & Hlen).
  assert (rest = drop (S k) l) as -> by (by rewrite (drop_S l e k) in E by done; injection E).
  destruct Hr as (Hk & Hc & Hp & Hlog). destruct e as [id fields].
  cbn [firstn take fmap list_fmap omap list_omap dec_record foldM]. unfold read_record at 2. cbn [timestamp].
  unfold size_mod. rewrite decide_False by lia. cbn [mbind outcome_bind].
  replace ((counter r + 1) mod 2 ^ 64) with (Z.of_nat (S k)) by (rewrite Hc, Z.mod_small; lia).
  eapply returns_mono; [apply (IH (S k)); [done|exact Hl|]|].
  - split; [lia|]. split; [done|]. split; [by rewrite He|]. cbn [log].
    rewrite (take_S_r l k (id, fields)) by done. rewrite logged_snoc, length_take, Nat.min_l by lia.
    rewrite Hlog. replace (Z.of_nat k + 1) with (Z.of_nat (S k)) by lia. case_decide; [done|by rewrite app_nil_r].
  - intros r' Hr'. cbn [length]. by rewrite <-plus_n_Sm in *.
Qed.

Lemma one_stream name l : plain name → Forall good_record l →
  construct_stream_responses (array_reply [enc_stream (inr (name, l))]) =
  Ret [mkStreamResponse name (omap dec_record l)].
Proof.
  intros Hn Hl. unfold construct_stream_responses. rewrite decide_False by (intros H; by apply H).
  cbn [element array_reply foldM enc_stream]. rewrite decide_False by apply pair_not_short.
  rewrite element_0, element_1. cbn [mbind outcome_bind]. rewrite reply_str_string by done. cbn [mbind outcome_bind].
  by rewrite stream_response_decodes.
Qed.

Lemma good_taken m k l : good_entries l → Forall good_record (inr <$> take m (drop k l)).
Proof.
  intros (_ & Hids & Hf & _). apply Forall_fmap, Forall_take, Forall_drop, Forall_lookup. intros i [id fields] Hi.
  eapply Forall_lookup_1 in Hids as [_ Hid]; [|exact Hi]. eapply Forall_lookup_1 in Hf; [|exact Hi].
  split; [by apply word_plain|done].
Qed.

Lemma rounds_S {S} n (round : S → outcome S) s :
  rounds (Datatypes.S n) round s = (s ← rounds n round s; round s).
Proof.
  revert s. induction n as [|n IH]; intros s; [cbn; by destruct (round s)|].
  change (rounds (Datatypes.S (Datatypes.S n)) round s) with (s ← round s; rounds (Datatypes.S n) round s).
  cbn [rounds]. destruct (round s); [apply IH|done..].
Qed.

Section stream_out.
Context {R : Hiredis} {connected : redisContext → Prop} {keys : redisContext → keyspace}.
Context {C : CommandLaws R connected keys} {name : string} {entries : redisContext → list entry}.
Context {S : StreamLaws R connected name entries} (Hname : word name).
Context (b : Z) (Hb : 1 ≤ b ≤ INT_MAX).

(** The entries of the stream at the other end. *)
Definition stream_of (st : RedisStorage) : list entry :=
  match m_context st with Some c => entries c | None => [] end.
Definition open (st : RedisStorage) : Prop := ∃ c, m_context st = Some c ∧ connected c.

Lemma stream_out_round_reads k r st : open st → has_read b k (stream_of st) r → (k < length (stream_of st))%nat →
  returns (stream_out_round b name (r, st)) (λ s, open s.2 ∧ stream_of st `prefix_of` stream_of s.2 ∧
    ∃ k', Z.min (Z.of_nat k + b) (Z.of_nat (length (stream_of st))) ≤ Z.of_nat k' ≤ Z.of_nat k + b ∧ has_read b k' (stream_of s.2) s.1).
Proof.
  intros (c & Hc & Hcon) Hr Hk. unfold stream_of in *. rewrite Hc in *.
  assert (word (position r)) as Hpos.
  { destruct (entries_law (StreamLaws := S) c Hcon) as (_ & Hids & _). destruct Hr as (Hle & _ & -> & _).
    destruct k as [|i]; [refine (bool_decide_unpack (word "0") _); vm_compute; exact I|].
    destruct (lookup_lt_is_Some_2 (entries c) i) as [e He]; [lia|]. rewrite He. by eapply Forall_lookup_1 in Hids as [_ ?]. }
  assert (unread (position r) (entries c) ≠ []) as Hne.
  { rewrite (has_read_unread b k) by (done || by apply entries_law). intros E. apply (f_equal length) in E.
    rewrite length_drop in E. cbn in E. lia. }
  destruct (xread_law c b (position r) Hcon Hb Hne) as (c' & E & Hcon' & Hpre).
  set (ws := ["XREAD"; "BLOCK"; "0"; "COUNT"; pretty b : string; "STREAMS"; name; position r]) in E.
  unfold stream_out_round. change (_ +:+ pretty b +:+ _)%string with (String.concat " " ws).
  cbn [read_stream_raw Redis]. unfold redis_read_stream_raw, responses.
  rewrite (format_words ws) by (done || (unfold ws; words)). cbn [mbind outcome_bind].
  rewrite (run_command_eq ws c st c' _ Hc) by
    ((eapply Forall_impl; [|apply word_plain]; unfold ws; words) || exact E).
  cbn [mbind outcome_bind].
  pose proof (entries_law (StreamLaws := S) c' Hcon') as Hgood. pose proof (has_read_prefix _ _ _ _ _ Hpre Hr) as Hr'.
  rewrite (has_read_unread b k), one_stream by (done || (by apply word_plain) || by apply good_taken). cbn [mbind outcome_bind foldM records].
  eapply returns_bind.
  { eapply returns_bind; [apply (read_records_spec b (Z.to_nat b) k (entries c') r); [lia|done|done]|].
    intros r' Hread. apply returns_Ret. exact Hread. }
  intros r' Hread. apply returns_Ret. cbn [fst snd m_context].
  split; [by exists c'|]. split; [done|]. eexists. split; [|exact Hread].
  rewrite length_take, length_drop. apply prefix_length in Hpre. lia.
Qed.

(** As long as entries are left the rounds go on, and each reads all that is
    left or a whole batch. *)
Lemma stream_out_rounds n st : open st → (Z.of_nat n - 1) * b < Z.of_nat (length (stream_of st)) →
  returns (rounds n (stream_out_round b name) (mkReader 0 "0" [], st)) (λ s,
    open s.2 ∧ stream_of st `prefix_of` stream_of s.2 ∧
    ∃ k, Z.min (Z.of_nat n * b) (Z.of_nat (length (stream_of st))) ≤ Z.of_nat k ≤ Z.of_nat n * b ∧ has_read b k (stream_of s.2) s.1).
Proof.
  intros Hopen. induction n as [|n IH]; intros Hn.
  { apply returns_Ret. split; [done|]. split; [done|]. exists 0%nat. split; [lia|]. by split_and!; [lia|..]. }
  rewrite rounds_S. eapply returns_bind; [apply IH; lia|]. cbn beta. intros [r st1] (Hopen1 & Hpre & k & Hk & Hr).
  cbn [fst snd] in *. apply prefix_length in Hpre as Hlen.
  eapply returns_mono; [apply (stream_out_round_reads k); [done|done|nia]|].
  intros [r' st2] (Hopen2 & Hpre2 & k' & Hk' & Hr'). cbn [fst snd] in *.
  split; [done|]. split; [by etrans|]. exists k'. split; [nia|done].
Qed.
End stream_out.

(** ** Main theorems *)

(** C21. What yaml-redis-loader loads, redis-keydump prints: after
    [yaml-redis-loader -f filename -p prefix] has read a document whose
    sections have different paths, take the path of a section (prefix, colon,
    the key with its underscores turned into colons) in which there is no
    percent sign, which hiredis would take for a conversion. Let
    [redis-keydump -k path] be run later against what the server then holds.
    It deletes the reply to [TYPE] with the wrong deleter, which C++ leaves
    undefined; where the deletion returns, the program exits with status 0, and
    - when the path has no space, prints exactly the section: the members of a
      list of scalars once each in byte order, the pairs of a map as key=value
      in the order of their keys with the last value of each;
    - when the path is several words, as that of "monster_abominable snowman",
      prints nothing but that an error message is not a type it knows, since
      [raw] passes each word as an argument.
    The second run has a server of its own, with the key space of the first. *)
Theorem load_then_dump {R : Hiredis} {connected keys} {L : RedisLaws R connected keys} {C : CommandLaws R connected keys}
    Load convert files cin filename text prefix l env c k n v :
  filename ≠ ""%string → files filename = Some text → Load text = Ret (Map l) → plain_doc (Map l) → plain prefix →
  reached env c → connected c → plain_keys (keys c) →
  Forall entry_ok l → NoDup (nested_path prefix <$> (sections l).*1) → (Scalar k, n) ∈ l → section_value n v →
  let path := nested_path prefix (Scalar k) in
  lacks percent path → path ≠ "server_last_connected"%string →
  returns (loader_main Load convert files cin ["-f"; filename; "-p"; prefix] env) (λ r, r.1 = quiet EXIT_SUCCESS ∧
    ∃ st, r.2 = Some st ∧
      ∀ (R2 : Hiredis) connected2 keys2 (L2 : RedisLaws R2 connected2 keys2) (C2 : CommandLaws R2 connected2 keys2)
        mismatched_delete env2 c2,
        reached env2 c2 → connected2 c2 → keys2 c2 = redis_view (keys := keys) st →
        let run := keydump_main mismatched_delete ["-k"; path] env2 in
        (lacks space path → run = (_ ← mismatched_delete; Ret (dump_result (Some v)))) ∧
        (length (words_of path) ≠ 1%nat → run = (_ ← mismatched_delete;
          Ret (mkResult EXIT_SUCCESS "" ("Error, unsupported type: " +:+ type_arity +:+ endl))))).
Proof.
  intros Hf Hfile Hload Hdoc Hprefix Henv Hcon Hp Hl Hd Hin Hv path Hpercent Hne.
  assert (plain path) as Hpath.
  { inversion Hdoc as [| | | |l' Hkeys]; subst. destruct (proj1 (Forall_forall _ _) Hkeys _ Hin) as [(k' & [= <-] & Hk) _].
    by apply nested_path_plain. }
  assert (path ≠ ""%string) as Hempty by (unfold path, nested_path; by destruct prefix).
  eapply returns_mono; [exact (loader_runs Load convert files cin filename text (Map l) prefix env c
    Hf Hfile Hload Hdoc Hprefix Henv Hcon Hp)|].
  intros r (Hr & st & Est & (c1 & Hc1 & Hcon1 & Hp1) & Hview). split; [done|]. exists st. split; [done|].
  intros R2 connected2 keys2 L2 C2 mismatched_delete env2 c2 Henv2 Hcon2 Hkeys run.
  assert (word_or_words path → run = (_ ← mismatched_delete; Ret (dump_text path (Some v)))) as Hrun.
  { intros Hw. unfold run. rewrite (keydump_runs (L := L2) (C := C2) mismatched_delete path env2 c2 Hempty Hpath Hpercent Hw Henv2 Hcon2).
    - unfold stamped. rewrite lookup_insert_ne by done. rewrite Hkeys, Hview.
      by rewrite (section_lookup prefix l (Scalar k) n v _ Hl Hd Hin Hv).
    - rewrite Hkeys. unfold redis_view. by rewrite Hc1. }
  split; intros Hw; rewrite Hrun by (by constructor); unfold dump_text.
  - by rewrite words_of_one.
  - by destruct (words_of path) as [|w [|w' ws]].
Qed.

(** C25. redis-stream-out reads everything: from the start of a stream of N
    entries, at least one per batch, the rounds of its loop never block or
    fail before all N are read, and after N divided by the batch size (rounded
    up) rounds they all are, each once and in order, whatever other clients
    added meanwhile: the counter is the number of entries read, the position
    the id of the last, and the log was written at every batch_size-th. A
    batch size of 0, which is what [atoi] makes of a text that is no number,
    divides by zero at the first record. *)
Theorem stream_out_follows {R : Hiredis} {connected keys} {C : CommandLaws R connected keys} {name entries}
    {S : StreamLaws R connected name entries} b (st : RedisStorage) :
  word name → 1 ≤ b ≤ INT_MAX → open (connected := connected) st →
  let N := Z.of_nat (length (stream_of (entries := entries) st)) in
  returns (rounds (Z.to_nat ((N + b - 1) / b)) (stream_out_round b name) (mkReader 0 "0" [], st)) (λ s,
    stream_of (entries := entries) st `prefix_of` stream_of (entries := entries) s.2 ∧
    ∃ k, N ≤ Z.of_nat k ∧ has_read b k (stream_of (entries := entries) s.2) s.1) ∧
  (∀ stream, stream_out_option (Opt "b" "many") (stream, b) = Ret (Go (stream, 0))) ∧
  (∀ r record, read_record 0 r record = Undef).
Proof.
  intros Hname Hb Hst N. split; [|done].
  pose proof (Z.div_mod (N + b - 1) b ltac:(lia)) as Hdiv. pose proof (Z.mod_pos_bound (N + b - 1) b ltac:(lia)) as Hmod.
  assert (0 ≤ (N + b - 1) / b) as Hq by (apply Z.div_pos; lia).
  eapply returns_mono; [apply (stream_out_rounds (C := C) (S := S) Hname b Hb (Z.to_nat ((N + b - 1) / b)) st Hst)|].
  - rewrite Z2Nat.id by done. fold N. nia.
  - intros s (_ & Hpre & k & Hk & Hr). split; [done|]. exists k. split; [|done].
    rewrite Z2Nat.id in Hk by done. fold N in Hk. nia.
Qed.

(** ** A server in memory

    [MiniRedis] that splits command texts, names types, and serves one
    stream. *)
Section small_server.
Context (ks : keyspace) (es : list entry).

Definition small_command (args : list string) (c : keyspace) : keyspace * option redisReply :=
  let arg i := nth i args ""%string in
  if decide (args = ["TYPE"; arg 1%nat]) then (c, Some (status_reply (type_name (c !! arg 1%nat))))
  else if decide (head args = Some "TYPE"%string) then (c, Some (mkReply REDIS_REPLY_ERROR 0 (Some type_arity) []))
  else if decide (args = ["XREAD"; "BLOCK"; "0"; "COUNT"; arg 4%nat; "STREAMS"; arg 6%nat; arg 7%nat]) then
    (c, match atoi (arg 4%nat) with
        | Ret n => Some (array_reply [enc_stream (inr (arg 6%nat, inr <$> take (Z.to_nat n) (unread (arg 7%nat) es)))])
        | _ => None
        end)
  else mini_command args c.

Definition SmallRedis : Hiredis := {|
  redisContext := keyspace;
  redisConnect ip port := if decide (ip = "localhost" ∧ port = 6379)%string then Some ks else None;
  err _ := false;
  redisCommandArgv := small_command;
  redisFormat s := if decide (lacks percent s) then Ret (words_of s) else Undef;
  inet_addr _ := None;
  gethostbyname h := Some h;
  time := 1648080000
|}.

Definition small_connected (c : redisContext (Hiredis := SmallRedis)) : Prop := True.
Definition small_keys (c : redisContext (Hiredis := SmallRedis)) : keyspace := c.
Definition small_entries (c : redisContext (Hiredis := SmallRedis)) : list entry := es.

Lemma small_is_mini args c : head args ≠ Some "TYPE"%string → head args ≠ Some "XREAD"%string →
  small_command args c = mini_command args c.
Proof.
  intros H1 H2. unfold small_command. rewrite decide_False by (intros E; rewrite E in H1; by apply H1).
  rewrite decide_False by done.
  by rewrite decide_False by (intros E; rewrite E in H2; by apply H2).
Qed.

#[export] Instance SmallRedis_laws : RedisLaws SmallRedis small_connected small_keys.
Proof.
  split.
  - intros args w c Hw Hcon. change (redisCommandArgv args c) with (small_command args c). rewrite small_is_mini.
    + exact (write_law (RedisLaws := MiniRedis_laws) args w c Hw Hcon).
    + destruct Hw as [[]|? ? ? ? ->]; done.
    + destruct Hw as [[]|? ? ? ? ->]; done.
  - intros k args c Hq Hcon. change (redisCommandArgv args c) with (small_command args c). rewrite small_is_mini.
    + exact (query_law (RedisLaws := MiniRedis_laws) k args c Hq Hcon).
    + by destruct Hq.
    + by destruct Hq.
Qed.

#[export] Instance SmallRedis_commands : CommandLaws SmallRedis small_connected small_keys.
Proof.
  split.
  - intros s _ Hs _. cbn [redisFormat SmallRedis]. by rewrite decide_True.
  - intros k c Hcon. exists c. split; [|done]. cbn [redisCommandArgv SmallRedis]. unfold small_command.
    by rewrite decide_True.
  - intros names c Hnames Hcon. exists c. split; [|done]. cbn [redisCommandArgv SmallRedis]. unfold small_command.
    rewrite decide_False by (intros E; apply Hnames; apply (f_equal length) in E; injection E; done). by rewrite decide_True.
Qed.

Lemma SmallRedis_stream name : good_entries es → StreamLaws SmallRedis small_connected name small_entries.
Proof.
  intros Hes. split; [done|]. intros c n p Hcon Hn _. exists c. split; [|done].
  cbn [redisCommandArgv SmallRedis]. unfold small_command. do 2 rewrite decide_False by done. rewrite decide_True by done.
  cbn [nth]. by rewrite atoi_pretty by (unfold INT_MIN, INT_MAX in *; lia).
Qed.
End small_server.

(** ** Witnesses *)
Definition sample_entries : list entry :=
  [("1-0", [("temperature", "20")]); ("2-0", [("temperature", "21")]); ("2-1", [("temperature", "19")])]%string.

Lemma sample_entries_good : good_entries sample_entries.
Proof.
  split; [refine (bool_decide_unpack _ _); vm_compute; exact I|].
  split; [refine (bool_decide_unpack _ _); vm_compute; exact I|].
  split; [refine (bool_decide_unpack _ _); vm_compute; exact I|done].
Qed.

Definition small_storage : RedisStorage (R := SmallRedis ∅ sample_entries) :=
  mkRedis (R := SmallRedis ∅ sample_entries) "localhost" 6379 (Some (∅ : keyspace)).

(** Three entries, two at a time. *)
Lemma stream_out_follows_witness :
  returns (rounds 2 (stream_out_round 2 "readings") (mkReader 0 "0" [], small_storage)) (λ s,
    ∃ k, 3 ≤ Z.of_nat k ∧ has_read 2 k (stream_of (entries := small_entries ∅ sample_entries) s.2) s.1).
Proof.
  eapply returns_mono; [exact (proj1 (stream_out_follows (R := SmallRedis ∅ sample_entries)
    (C := SmallRedis_commands ∅ sample_entries) (S := SmallRedis_stream ∅ sample_entries "readings" sample_entries_good)
    2 small_storage ltac:(refine (bool_decide_unpack (word "readings") _); vm_compute; exact I)
    ltac:(done) (ex_intro _ (∅ : keyspace) (conj eq_refl I))))|].
  intros s [_ H]. exact H.
Defined.

(** Monsters of the game: loaded, one of them printed, and the one whose name
    has a space; with a deletion that returns, and as C++ has it. *)
Definition local_env : environment := mkEnv (Some "localhost") None.

Lemma small_reached ks : reached (R := SmallRedis ks []) local_env ks.
Proof. by exists "localhost", "localhost". Qed.

Definition dump_monster (ks : keyspace) (mismatched_delete : outcome ()) (key : string) : outcome result :=
  keydump_main (R := SmallRedis ks []) mismatched_delete ["-k"; key] local_env.

Definition banshee : result := dump_result (Some (VMap {["kind" := "magical"; "hit-dice" := "4d10"]})).

Lemma load_then_dump_witness :
  returns (loader_main (R := SmallRedis ∅ []) (λ _, Ret (Map monsters)) (λ _, Undef) (λ _, Some "monsters.yml"%string) ""
      ["-f"; "monsters"; "-p"; "monsters"] local_env) (λ r,
    ∃ st, r.2 = Some st ∧ let ks := redis_view (keys := small_keys ∅ []) st in
      dump_monster ks (Ret ()) "monsters:monster:banshee" = Ret banshee ∧
      dump_monster ks Undef "monsters:monster:banshee" = Undef) ∧
  returns (loader_main (R := SmallRedis ∅ []) (λ _, Ret (Map monsters)) (λ _, Undef) (λ _, Some "monsters.yml"%string) ""
      ["-f"; "monsters"; "-p"; "monsters"] local_env) (λ r,
    ∃ st, r.2 = Some st ∧
      dump_monster (redis_view (keys := small_keys ∅ []) st) (Ret ()) "monsters:monster:abominable snowman" =
      Ret (mkResult EXIT_SUCCESS "" ("Error, unsupported type: " +:+ type_arity +:+ endl))).
Proof.
  assert (Forall entry_ok monsters) as Hok
    by (unfold monsters; repeat (apply Forall_cons_2; [right; eexists; apply sv_map|]); apply Forall_nil_2).
  assert (NoDup (nested_path "monsters" <$> (sections monsters).*1)) as Hd
    by (refine (bool_decide_unpack _ _); vm_compute; exact I).
  assert (∀ k n v, (Scalar k, n) ∈ monsters → section_value n v → lacks percent (nested_path "monsters" (Scalar k)) →
      nested_path "monsters" (Scalar k) ≠ "server_last_connected"%string → _) as H
    by (intros k n v; refine (load_then_dump (R := SmallRedis ∅ []) (L := SmallRedis_laws ∅ [])
      (C := SmallRedis_commands ∅ []) (λ _, Ret (Map monsters)) (λ _, Undef) (λ _, Some "monsters.yml"%string) "" "monsters"
      "monsters.yml" "monsters" monsters local_env (∅ : keyspace) k n v _ eq_refl eq_refl monsters_plain
      (plain_bool "monsters" eq_refl) (small_reached ∅) I _ Hok Hd); [done|apply map_Forall_empty]).
  split.
  1: eapply returns_mono; [refine (H "monster_banshee" _ _ (list_elem_of_further _ _ _ (list_elem_of_here _ _)) (sv_map _ _) _ _)|].
  4: eapply returns_mono; [refine (H "monster_abominable snowman" _ _ (list_elem_of_here _ _) (sv_map _ _) _ _)|].
  1, 4: refine (bool_decide_unpack _ _); vm_compute; exact I.
  1, 3: done.
  all: cbn beta zeta; intros r (_ & st & Est & Hst); exists st; (split; [exact Est|]);
    pose proof (λ m, Hst (SmallRedis _ []) (small_connected _ []) (small_keys _ []) (SmallRedis_laws _ [])
      (SmallRedis_commands _ []) m local_env _ (small_reached _) I eq_refl) as Hrun.
  - split; refine (eq_trans (proj1 (Hrun _) _) _); [refine (bool_decide_unpack _ _); vm_compute; exact I| |
      refine (bool_decide_unpack _ _); vm_compute; exact I|]; vm_compute; reflexivity.
  - refine (eq_trans (proj2 (Hrun _) _) eq_refl). vm_compute. congruence.
Defined.

(** A key that is missing, and the options. *)
Example keydump_missing :
  keydump_main (R := SmallRedis ∅ []) (Ret ()) ["-k"; "nothing"] (mkEnv None None) =
  Ret (mkResult 0 "" ("Error, unsupported type: none" +:+ endl)).
Proof. vm_compute. reflexivity. Qed.

Example keydump_options :
  (keydump_main (R := SmallRedis ∅ []) Undef [] (mkEnv None None),
   keydump_main (R := SmallRedis ∅ []) Undef ["-h"] (mkEnv None None)) =
  (Ret (quiet 1), Ret (mkResult 0 keydump_usage "")).
Proof. vm_compute. reflexivity. Qed.

(** A key that looks like a conversion is used as one. *)
Example keydump_format : keydump_main (R := SmallRedis ∅ []) (Ret ()) ["-k"; "100%s"] (mkEnv None None) = Undef.
Proof. vm_compute. reflexivity. Qed.

(** yaml-print runs past its buffer. *)
Example yaml_print_unterminated :
  print_main (λ _, Ret (Scalar "a")) (λ _, Undef) (λ _, None) "a" [] "" = Undef.
Proof. reflexivity. Qed.
