(* ===== verification/Zeromq.v ===== *)
(** * The ZeroMQ experiments (src/util: zeromq-client, zeromq-server, cli-zmq)

    The three programs are interaction trees over what they do: send and
    receive on a socket, print, read a word, sleep. Two of them never end. The
    client and the server run together over a network that a class describes,
    in every interleaving. *)
From ITree Require Import Core.ITreeDefinition.
From Stdlib Require Import Ascii String.
From stdpp Require Import strings pretty.
From S2P Require Import Prelude.
From S2P Require Import Text.

#[export] Instance itree_ret E : MRet (itree E) := λ A x, ITreeDefinition.Ret x.
#[export] Instance itree_bind E : MBind (itree E) := λ A B k t, ITree.bind t k.

(** ** Programs *)

(** What a program does; [recv] gives the size, unless nothing was received,
    and the message. *)
Inductive actionE : Type → Type :=
  | send (buffer : string) : actionE unit
  | recv : actionE (option Z * string)
  | print (text : string) : actionE unit
  | input_word : actionE string
  | sleep_for (seconds : Z) : actionE unit.

Abbreviation perform := ITree.trigger.

(** A program: the status it ends with, or the exception that ends it. *)
Abbreviation program := (itree actionE (outcome Z)).

(** [result.value()] of an empty result. *)
Definition bad_optional_access : outcome Z := Throw "bad optional access".

(** *** zeromq-client.cpp *)
Definition print_reply (request_num : Z) (result : option Z) (reply : string) : itree actionE (Z + outcome Z) :=
  match result with
  | None => mret (inr bad_optional_access)
  | Some size =>
      perform (print ("Received " +:+ pretty size +:+ ":" +:+ reply));;
      perform (print (" (" +:+ pretty request_num +:+ ")"));;
      perform (print endl);;
      mret (inl (request_num + 1))
  end.

Definition send_request (request_num : Z) : itree actionE (Z + outcome Z) :=
  perform (print ("Sending Hello " +:+ pretty request_num +:+ "..." +:+ endl));;
  perform (send "Hello");;
  '(result, reply) ← perform recv;
  print_reply request_num result reply.

Definition client_round (request_num : Z) : itree actionE (Z + outcome Z) :=
  if decide (request_num < 10) then send_request request_num else mret (inr (Ret 0)).

Definition client_main : program := ITree.iter client_round 0.

(** *** zeromq-server.cpp *)
Definition answer_request (result : option Z) (request : string) : itree actionE (unit + outcome Z) :=
  match result with
  | None => mret (inr bad_optional_access)
  | Some size =>
      perform (print ("Received " +:+ pretty size +:+ ":" +:+ request +:+ endl));;
      perform (sleep_for 1);;
      perform (send "World");;
      mret (inl tt)
  end.

Definition server_round (_ : unit) : itree actionE (unit + outcome Z) :=
  '(result, request) ← perform recv; answer_request result request.

Definition server_main : program := ITree.iter server_round tt.

(** *** cli-zmq.cpp: the body of the loop *)
Definition cli_answer (result : option Z) : itree actionE (unit + outcome Z) :=
  match result with
  | Some size =>
      perform (print (pretty size +:+ endl));;
      input ← perform input_word;
      perform (send input);;
      mret (inl tt)
  | None => perform (print ("Nothing from server" +:+ endl));; mret (inl tt)
  end.

Definition cli_round (_ : unit) : itree actionE (unit + outcome Z) :=
  '(result, _) ← perform recv; cli_answer result.

(** The address is the first argument, when there is one. *)
Definition connection_name (args : list string) : string :=
  match args with connect :: _ => connect | [] => "tcp://localhost:49201" end.

Definition cli_main (args : list string) : program :=
  perform (print ("Using connection: " +:+ connection_name args));;
  ITree.iter cli_round tt.

(** ** Running a program

    [h] says what an action does to a world: [None] while it waits, otherwise
    an outcome. One step is one node of the tree. *)
Definition handler (W : Type) : Type := ∀ A, actionE A → W → option (outcome (W * A)).

Definition step_program {W} (h : handler W) (t : program) (w : W) : option (outcome (program * W)) :=
  match observe t with
  | RetF _ => None
  | TauF t => Some (Ret (t, w))
  | VisF a k => r ← h _ a w; Some ('(w, x) ← r; Ret (k x, w))
  end.

(** What a program that has ended leaves. *)
Definition ended (t : program) : option (outcome Z) :=
  match observe t with RetF r => Some r | _ => None end.

(** ** The sockets

    A client with a REQ socket and a server with a REP socket; sending on a
    socket whose turn it is not, or receiving, fails with EFSM. *)
Inductive side := Req | Rep.
#[export] Instance side_eq_dec : EqDecision side.
Proof. solve_decision. Defined.

(** The network of the two sockets; [zmq_recv] is [None] while it waits. *)
Class Zmq := {
  net : Type;
  zmq_new : net;
  zmq_send : side → string → net → outcome net;
  zmq_recv : side → net → option (outcome (net * (option Z * string)));
}.

(** Documented behaviour: the sockets take turns, and messages arrive in order. *)
Class ZmqLaws (Z : Zmq) := {
  arriving : side → net → list string;
  may_send : side → net → bool;
  new_arriving x : arriving x zmq_new = [];
  new_may_send x : may_send x zmq_new = bool_decide (x = Req);
  send_law x d n : may_send x n = true → ∃ n', zmq_send x d n = Ret n' ∧
    may_send x n' = false ∧ arriving x n' = arriving x n ∧
    ∀ y, y ≠ x → may_send y n' = may_send y n ∧ arriving y n' = arriving y n ++ [d];
  recv_empty x n : may_send x n = false → arriving x n = [] → zmq_recv x n = None;
  recv_law x n d rest : may_send x n = false → arriving x n = d :: rest →
    ∃ n', zmq_recv x n = Some (Ret (n', (Some (Z.of_nat (String.length d)), d))) ∧
    may_send x n' = true ∧ arriving x n' = rest ∧
    ∀ y, y ≠ x → may_send y n' = may_send y n ∧ arriving y n' = arriving y n;
}.

(** ** The client and the server together *)
Section together.
Context {Q : Zmq}.

(** What a program at one end sees: the network and its own output. *)
Definition at_side (x : side) : handler (net * string) := λ A a '(n, out),
  match a in actionE A return option (outcome (net * string * A)) with
  | send d => Some (n ← zmq_send x d n; Ret ((n, out), tt))
  | recv => r ← zmq_recv x n; Some ('(n, m) ← r; Ret ((n, out), m))
  | print s => Some (Ret ((n, out +:+ s), tt))
  | input_word => None
  | sleep_for _ => Some (Ret ((n, out), tt))
  end%string.

Record exchange := mkExchange {
  client : program;
  server : program;
  network : net;
  client_out : string;
  server_out : string;
}.

Definition exchange_start : exchange := mkExchange client_main server_main zmq_new "" "".

(** The side that takes the next step. *)
Definition exchange_exec (x : side) (s : exchange) : option (outcome exchange) :=
  match x with
  | Req =>
      r ← step_program (at_side Req) (client s) (network s, client_out s);
      Some ('(t, (n, out)) ← r; Ret (mkExchange t (server s) n out (server_out s)))
  | Rep =>
      r ← step_program (at_side Rep) (server s) (network s, server_out s);
      Some ('(t, (n, out)) ← r; Ret (mkExchange (client s) t n (client_out s) out))
  end.

(** The steps of [l] one after the other, none of them refused. *)
Fixpoint exchange_run (l : list side) (s : exchange) : option (outcome exchange) :=
  match l with
  | [] => Some (Ret s)
  | x :: l => r ← exchange_exec x s;
      match r with Ret s => exchange_run l s | Throw w => Some (Throw w) | Undef => Some Undef | NoFuel => Some NoFuel end
  end.

(** ** Specification *)
Definition client_line (i : nat) : string :=
  ("Sending Hello " +:+ pretty (Z.of_nat i) +:+ "..." +:+ endl +:+
   "Received 5:World (" +:+ pretty (Z.of_nat i) +:+ ")" +:+ endl)%string.
Definition server_line (i : nat) : string := ("Received 5:Hello" +:+ endl)%string.

(** The server waits for a request. *)
Definition waits (t : program) : Prop := ∃ k, observe t = VisF recv k.

(** How an exchange ends. *)
Definition exchanged (s : exchange) : Prop :=
  ended (client s) = Some (Ret 0) ∧ waits (server s) ∧
  client_out s = String.concat "" (client_line <$> seq 0 10) ∧
  server_out s = String.concat "" (server_line <$> seq 0 10).

(** ** Phases of a round

    Where the two programs are, what is under way and what has been printed;
    [parked] says that the server has come back to its [recv]. *)
Inductive phase := Asks | Sends | Asked | Shows | Sleeps | Answers | Answered | Tells | Numbers | Breaks | Loops.

#[export] Instance phase_eq_dec : EqDecision phase.
Proof. solve_decision. Defined.

Definition rank (p : phase) : nat :=
  match p with
  | Asks => 0 | Sends => 1 | Asked => 2 | Shows => 3 | Sleeps => 4 | Answers => 5 | Answered => 6
  | Tells => 7 | Numbers => 8 | Breaks => 9 | Loops => 10
  end.

(** A part of the body, and then the rest of the loop. *)
Definition and_loop {I} (round : I → itree actionE (I + outcome Z)) (t : itree actionE (I + outcome Z)) : program :=
  ITree.bind t (λ lr, match lr with inl l => Tau (ITree.iter round l) | inr r => ITreeDefinition.Ret r end).

Definition client_at (i : Z) (p : phase) : program :=
  match p with
  | Asks => ITree.iter client_round i
  | Sends => and_loop client_round (perform (send "Hello");; '(result, reply) ← perform recv; print_reply i result reply)
  | Asked | Shows | Sleeps | Answers | Answered =>
      and_loop client_round ('(result, reply) ← perform recv; print_reply i result reply)
  | Tells => and_loop client_round (print_reply i (Some 5) "World")
  | Numbers => and_loop client_round (perform (print (" (" +:+ pretty i +:+ ")"));; perform (print endl);; mret (inl (i + 1)))
  | Breaks => and_loop client_round (perform (print endl);; mret (inl (i + 1)))
  | Loops => and_loop client_round (mret (inl (i + 1)))
  end%string.

Definition server_at (p : phase) (parked : bool) : program :=
  match p with
  | Shows => and_loop server_round (answer_request (Some 5) "Hello")
  | Sleeps => and_loop server_round (perform (sleep_for 1);; perform (send "World");; mret (inl tt))
  | Answers => and_loop server_round (perform (send "World");; mret (inl tt))
  | _ => if parked then ITree.iter server_round tt else and_loop server_round (mret (inl tt))
  end.

Definition client_text (i : Z) (p : phase) : string :=
  let sending := "Sending Hello " +:+ pretty i +:+ "..." +:+ endl in
  match p with
  | Asks => ""
  | Sends | Asked | Shows | Sleeps | Answers | Answered | Tells => sending
  | Numbers => sending +:+ "Received 5:World"
  | Breaks => (sending +:+ "Received 5:World") +:+ " (" +:+ pretty i +:+ ")"
  | Loops => ((sending +:+ "Received 5:World") +:+ " (" +:+ pretty i +:+ ")") +:+ endl
  end%string.

Definition server_text (p : phase) : string :=
  match p with Asks | Sends | Asked | Shows => "" | _ => ("Received 5:Hello" +:+ endl)%string end.

(** The messages under way, and whose turn it is to send. *)
Definition arriving_at (p : phase) (x : side) : list string :=
  match p, x with Asked, Rep => ["Hello"] | Answered, Req => ["World"] | _, _ => [] end%string.
Definition may_send_at (p : phase) (x : side) : bool :=
  match p, x with
  | (Asks | Sends | Tells | Numbers | Breaks | Loops), Req => true
  | (Shows | Sleeps | Answers), Rep => true
  | _, _ => false
  end.

Context {QL : ZmqLaws Q}.

(** The exchange is in phase [p] of round [i]. *)
Record in_phase (i : nat) (p : phase) (parked : bool) (s : exchange) : Prop := mkInPhase {
  ip_round : (i < 10)%nat ∨ i = 10%nat ∧ p = Asks;
  ip_client : observe (client s) = observe (client_at (Z.of_nat i) p);
  ip_server : observe (server s) = observe (server_at p parked);
  ip_arriving x : arriving x (network s) = arriving_at p x;
  ip_may_send x : may_send x (network s) = may_send_at p x;
  ip_client_out : client_out s = (String.concat "" (client_line <$> seq 0 i) +:+ client_text (Z.of_nat i) p)%string;
  ip_server_out : server_out s = (String.concat "" (server_line <$> seq 0 i) +:+ server_text p)%string;
}.

(** An upper bound of the steps that are left. *)
Definition left (i : nat) (p : phase) (parked : bool) : nat :=
  12 * (10 - i) + (if parked then 0 else 1) - rank p - (if (6 <=? rank p)%nat then 1 else 0).

Lemma step_observe {W} (h : handler W) t u w : observe t = observe u → step_program h t w = step_program h u w.
Proof. unfold step_program. by intros ->. Qed.

(** What a step leads to. *)
Definition goes_on (i : nat) (p : phase) (parked : bool) (r : option (outcome exchange)) : Prop :=
  ∃ s' i' p' parked', r = Some (Ret s') ∧ in_phase i' p' parked' s' ∧ (left i' p' parked' < left i p parked)%nat.


(** The client waits in these phases. *)
Definition client_waits (p : phase) : bool := match p with Asked | Shows | Sleeps | Answers => true | _ => false end.

Lemma client_asks i : i < 10 → observe (client_at i Asks) = observe (and_loop client_round (send_request i)).
Proof.
  intros Hi. change (observe (and_loop client_round (client_round i)) = observe (and_loop client_round (send_request i))).
  f_equal. f_equal. unfold client_round. by rewrite decide_True.
Qed.

Ltac goes_to j q b :=
  eexists _, j, q, b; split; [reflexivity|];
  split; [split; [by left|..]; cbn; try done|by unfold left; cbn -[Nat.mul]; repeat case_match; lia].

Lemma client_ahead i p k s : (i < 10)%nat → in_phase i p k s → client_waits p = false →
  goes_on i p k (exchange_exec Req s).
Proof.
  intros Hi [Hr Hc Hs Ha Ht Hco Hso] Hp. destruct s as [c v n co so]. cbn in *. unfold exchange_exec. cbn.
  rewrite (step_observe _ _ _ _ Hc). unfold goes_on.
  destruct p; try discriminate Hp.
  - rewrite (step_observe _ _ _ _ (client_asks (Z.of_nat i) ltac:(lia))). unfold step_program. cbn.
    goes_to i Sends k. rewrite Hco. by rewrite append_nil_r.
  - destruct (send_law Req "Hello" n (Ht Req)) as (n' & E & Hn & Hq & Ho). unfold step_program. cbn.
    rewrite E. cbn.
    goes_to i Asked k.
    + intros []; [by rewrite Hq, Ha|]. destruct (Ho Rep) as [_ ->]; [done|]. by rewrite Ha.
    + intros []; [done|]. destruct (Ho Rep) as [-> _]; [done|]. by rewrite Ht.
  - destruct (recv_law Req n "World" [] (Ht Req) (Ha Req)) as (n' & E & Hn & Hq & Ho). unfold step_program. cbn.
    rewrite E. cbn.
    goes_to i Tells k.
    + intros []; [by rewrite Hq|]. destruct (Ho Rep) as [_ ->]; [done|]. by rewrite Ha.
    + intros []; [done|]. destruct (Ho Rep) as [-> _]; [done|]. by rewrite Ht.
  - unfold step_program. cbn. goes_to i Numbers k. rewrite Hco. by rewrite <-append_assoc.
  - unfold step_program. cbn. goes_to i Breaks k. rewrite Hco. by rewrite <-append_assoc.
  - unfold step_program. cbn. goes_to i Loops k. rewrite Hco. by rewrite <-append_assoc.
  - unfold step_program. cbn. eexists _, (i + 1)%nat, Asks, k. split; [reflexivity|].
    split; [split; cbn; try done|by unfold left; cbn -[Nat.mul]; repeat case_match; lia].
    + destruct (decide (i = 9)%nat); [right|left]; lia || (split; [lia|done]).
    + replace (Z.of_nat (i + 1)) with (Z.of_nat i + 1) by lia. done.
    + rewrite Hco, seq_app, fmap_app, concat_app, append_nil_r. cbn. unfold client_line. by rewrite <-!append_assoc.
    + rewrite Hso, seq_app, fmap_app, concat_app, append_nil_r. done.
Qed.

Lemma server_moves i p s : in_phase i p true s → client_waits p = true → goes_on i p true (exchange_exec Rep s).
Proof.
  intros [Hr Hc Hs Ha Ht Hco Hso] Hp. destruct s as [c v n co so]. cbn in *. unfold exchange_exec. cbn.
  rewrite (step_observe _ _ _ _ Hs). unfold goes_on.
  destruct Hr as [Hr|[_ ->]]; [|discriminate Hp]. destruct p; try discriminate Hp.
  - destruct (recv_law Rep n "Hello" [] (Ht Rep) (Ha Rep)) as (n' & E & Hn & Hq & Ho). unfold step_program. cbn.
    rewrite E. cbn.
    goes_to i Shows true.
    + intros []; [|by rewrite Hq]. destruct (Ho Req) as [_ ->]; [done|]. by rewrite Ha.
    + intros []; [|done]. destruct (Ho Req) as [-> _]; [done|]. by rewrite Ht.
  - unfold step_program. cbn. goes_to i Sleeps true. rewrite Hso. by rewrite append_nil_r.
  - unfold step_program. cbn. goes_to i Answers true.
  - destruct (send_law Rep "World" n (Ht Rep)) as (n' & E & Hn & Hq & Ho). unfold step_program. cbn.
    rewrite E. cbn.
    goes_to i Answered false.
    + intros []; [|by rewrite Hq, Ha]. destruct (Ho Req) as [_ ->]; [done|]. by rewrite Ha.
    + intros []; [|done]. destruct (Ho Req) as [-> _]; [done|]. by rewrite Ht.
Qed.

Lemma server_returns i p s : in_phase i p false s → p ≠ Shows → p ≠ Sleeps → p ≠ Answers →
  goes_on i p false (exchange_exec Rep s).
Proof.
  intros [Hr Hc Hs Ha Ht Hco Hso] H1 H2 H3. destruct s as [c v n co so]. cbn in *. unfold exchange_exec. cbn.
  rewrite (step_observe _ _ _ _ Hs). unfold goes_on.
  eexists _, i, p, true. split; [by destruct p|]. split; [|by destruct Hr as [Hr|[-> ->]]; unfold left; [destruct p|]; cbn -[Nat.mul]; lia].
  split; try done. cbn. by destruct p.
Qed.

Lemma server_waits i p s : in_phase i p true s → client_waits p = false →
  exchange_exec Rep s = None ∧ waits (server s).
Proof.
  intros [Hr Hc Hs Ha Ht Hco Hso] Hp. destruct s as [c v n co so]. cbn in *. unfold exchange_exec, waits. cbn.
  rewrite (step_observe _ _ _ _ Hs). rewrite Hs. specialize (Ha Rep). specialize (Ht Rep).
  destruct p; try discriminate Hp; (split; [|eexists; cbn; reflexivity]);
    unfold step_program; cbn; by rewrite recv_empty.
Qed.

Lemma in_phase_parked i p k s : in_phase i p k s → p = Shows ∨ p = Sleeps ∨ p = Answers → in_phase i p true s.
Proof. intros [Hr Hc Hs Ha Ht Hco Hso] H. split; try done. by destruct H as [->|[->| ->]]. Qed.

Lemma server_ahead i p k s : in_phase i p k s →
  exchange_exec Rep s = None ∧ waits (server s) ∧ client_waits p = false ∨ goes_on i p k (exchange_exec Rep s).
Proof.
  intros H. destruct (client_waits p) eqn:Hp.
  - right. destruct k; [by apply server_moves|].
    destruct (decide (p = Asked)) as [->|Hq]; [by apply server_returns|].
    destruct (server_moves i p s) as (s' & i' & p' & k' & E & Hs & Hl); [|done|].
    { apply (in_phase_parked _ _ _ _ H). destruct p; naive_solver. }
    exists s', i', p', k'. split; [done|]. split; [done|]. unfold left in *. lia.
  - destruct k; [left|right].
    + by destruct (server_waits _ _ _ H Hp).
    + apply server_returns; [done|..]; by intros ->.
Qed.

Lemma client_blocks i p k s : in_phase i p k s → client_waits p = true → exchange_exec Req s = None.
Proof.
  intros [Hr Hc Hs Ha Ht Hco Hso] Hp. destruct s as [c v n co so]. cbn in *. unfold exchange_exec. cbn.
  rewrite (step_observe _ _ _ _ Hc). specialize (Ha Req). specialize (Ht Req).
  destruct p; try discriminate Hp; unfold step_program; cbn; by rewrite recv_empty.
Qed.

Lemma client_finished k s : in_phase 10 Asks k s → exchange_exec Req s = None ∧ ended (client s) = Some (Ret 0).
Proof.
  intros [Hr Hc Hs Ha Ht Hco Hso]. destruct s as [c v n co so]. cbn -[client_at] in *. unfold exchange_exec, ended.
  cbn -[client_at]. rewrite (step_observe _ _ _ _ Hc), Hc. done.
Qed.

Lemma start_phase : in_phase 0 Asks true exchange_start.
Proof. split; try done; [left; lia|..]; intros x; cbn; [by rewrite new_arriving; destruct x|by rewrite new_may_send; destruct x]. Qed.

(** ** What happens in every interleaving *)
Lemma exec_phase x i p k s : in_phase i p k s → exchange_exec x s = None ∨ goes_on i p k (exchange_exec x s).
Proof.
  intros H. destruct x; [|destruct (server_ahead _ _ _ _ H) as [[? _]|?]; auto].
  destruct (client_waits p) eqn:Hp; [left; by eapply client_blocks|].
  destruct (ip_round _ _ _ _ H) as [Hi|[-> ->]]; [right; by apply client_ahead|].
  left. by eapply client_finished.
Qed.

Lemma run_phase l i p k s r : in_phase i p k s → exchange_run l s = Some r →
  ∃ s' i' p' k', r = Ret s' ∧ in_phase i' p' k' s' ∧ (length l + left i' p' k' ≤ left i p k)%nat.
Proof.
  revert i p k s. induction l as [|x l IH]; intros i p k s H E; cbn [exchange_run] in E.
  { simplify_eq. eexists _, _, _, _. split; [done|]. split; [done|]. cbn. lia. }
  destruct (exec_phase x _ _ _ _ H) as [E'|(s' & i' & p' & k' & E' & H' & Hl)]; rewrite E' in E; [done|].
  destruct (IH i' p' k' s' H' E) as (s2 & i2 & p2 & k2 & -> & H2 & Hl2). exists s2, i2, p2, k2.
  split; [done|]. split; [done|]. cbn [length]. lia.
Qed.

Lemma phase_finished s : in_phase 10 Asks true s → exchanged s ∧ ∀ x, exchange_exec x s = None.
Proof.
  intros H. destruct (client_finished _ _ H) as [E1 E2]. destruct (server_waits _ _ _ H eq_refl) as [E3 E4].
  split; [|by intros []]. destruct H as [_ _ _ _ _ Hco Hso]. split; [done|]. split; [done|].
  rewrite Hco, Hso. cbn [client_text server_text]. by rewrite !append_nil_r.
Qed.

Lemma phase_progress i p k s : in_phase i p k s →
  i = 10%nat ∧ p = Asks ∧ k = true ∨ ∃ x s', exchange_exec x s = Some (Ret s').
Proof.
  intros H. destruct (server_ahead _ _ _ _ H) as [(E & Hw & Hp)|(s' & i' & p' & k' & E & _)]; [|right; by exists Rep, s'].
  destruct (ip_round _ _ _ _ H) as [Hi|[-> ->]].
  - right. destruct (client_ahead _ _ _ _ Hi H Hp) as (s' & i' & p' & k' & E' & _). by exists Req, s'.
  - left. destruct k; [done|]. destruct (server_returns _ _ _ H) as (s' & i' & p' & k' & E' & _); try done. congruence.
Qed.

(** C40. The client and the server of the ZeroMQ experiments keep in step,
    whatever the interleaving: no step throws, there are at most 120 steps, and
    an exchange can take another step unless it is over: then the client has
    ended with status 0 and printed its ten lines, the server has printed
    ten and waits for a request. *)
Theorem exchange_lockstep l r : exchange_run l exchange_start = Some r →
  ∃ s, r = Ret s ∧ (length l ≤ 120)%nat ∧
    ((∃ x s', exchange_exec x s = Some (Ret s')) ∨ exchanged s ∧ ∀ x, exchange_exec x s = None).
Proof.
  intros E. destruct (run_phase _ _ _ _ _ _ start_phase E) as (s & i & p & k & -> & H & Hl). exists s.
  split; [done|]. split; [change (left 0 Asks true) with 120%nat in Hl; lia|].
  destruct (phase_progress _ _ _ _ H) as [(-> & -> & ->)|Hp]; [right|by left]. by apply phase_finished.
Qed.
End together.

(** ** cli-zmq: what is typed is sent, word by word

    What the program gets from the peer, the standard input that is left, and
    what it has printed and sent. It waits when nothing more comes. *)
Record dialogue := mkDialogue { inbox : list (option Z * string); typed : string; shown : string; sent : list string }.

(** The characters up to the next white space. *)
Fixpoint take_word (s : string) : string * string :=
  match s with
  | String c s' => if Ascii.is_space c then ("", s) else let '(w, rest) := take_word s' in (String c w, rest)
  | EmptyString => ("", "")
  end%string.

(** [cin >> input]: white space is skipped; at the end [input] stays empty. *)
Definition read_word (s : string) : string * string := take_word (skip_space s).

Definition at_terminal : handler dialogue := λ A a w,
  match a in actionE A return option (outcome (dialogue * A)) with
  | send d => Some (Ret (mkDialogue (inbox w) (typed w) (shown w) (sent w ++ [d]), tt))
  | recv => match inbox w with
            | [] => None
            | m :: rest => Some (Ret (mkDialogue rest (typed w) (shown w) (sent w), m))
            end
  | print s => Some (Ret (mkDialogue (inbox w) (typed w) (shown w +:+ s) (sent w), tt))
  | input_word => let '(input, rest) := read_word (typed w) in
                  Some (Ret (mkDialogue (inbox w) rest (shown w) (sent w), input))
  | sleep_for _ => Some (Ret (w, tt))
  end%string.

(** Steps until the program has ended or waits. *)
Fixpoint run_program {W} (h : handler W) (fuel : nat) (t : program) (w : W) : outcome (program * W) :=
  match fuel with
  | O => NoFuel
  | Datatypes.S fuel =>
      match step_program h t w with
      | None => Ret (t, w)
      | Some r => '(t, w) ← r; run_program h fuel t w
      end
  end.

(** What [cli_main] prints for what it receives. *)
Definition cli_line (m : option Z * string) : string :=
  match m.1 with Some size => pretty size +:+ endl | None => "Nothing from server" +:+ endl end%string.

Definition received (ms : list (option Z * string)) : nat := length (filter (λ m, is_Some m.1) ms).

(** [ws], and then empty texts. *)
Definition pad (ws : list string) (n : nat) : list string := take n (ws ++ replicate n ""%string).

Lemma skip_space_cons c s : skip_space (String c s) = if Ascii.is_space c then skip_space s else String c s.
Proof. by destruct c as [[] [] [] [] [] [] [] []]. Qed.

Lemma rev_string_cons c s : String.rev (String c s) = (String.rev s +:+ String c "")%string.
Proof.
  unfold String.rev. cbn [String.rev_app]. generalize (String c "") as t. revert c.
  induction s as [|d s IH]; intros c t; [done|]. cbn [String.rev_app]. rewrite (IH d), (IH d (String d "")).
  by rewrite <-append_assoc.
Qed.

Lemma words_take cur s :
  String.words_go (Some cur) s = (String.rev cur +:+ (take_word s).1)%string :: String.words (take_word s).2.
Proof.
  revert cur. induction s as [|c s IH]; intros cur; cbn [String.words_go take_word].
  { cbn. by rewrite append_nil_r. }
  destruct (Ascii.is_space c) eqn:Hc.
  - cbn. rewrite append_nil_r. unfold String.words. cbn. by rewrite Hc.
  - cbn [from_option]. rewrite IH. destruct (take_word s) as [w rest]. cbn [fst snd].
    rewrite rev_string_cons. by rewrite <-append_assoc.
Qed.

(** A word is read, or there was none. *)
Lemma words_read s : String.words s = match read_word s with
                                      | (EmptyString, _) => []
                                      | (w, rest) => w :: String.words rest
                                      end.
Proof.
  unfold read_word. induction s as [|c s IH]; [done|]. rewrite skip_space_cons.
  unfold String.words. cbn [String.words_go].
  destruct (Ascii.is_space c) eqn:Hc; [apply IH|]. cbn [take_word]. rewrite Hc. cbn [from_option].
  rewrite words_take. destruct (take_word s) as [w rest]. done.
Qed.

Lemma read_word_end s rest : read_word s = (""%string, rest) → String.words rest = [].
Proof.
  unfold read_word. induction s as [|c s IH].
  { cbn. intros E. by simplify_eq. }
  rewrite skip_space_cons. destruct (Ascii.is_space c) eqn:Hc; [done|]. cbn [take_word]. rewrite Hc.
  destruct (take_word s). done.
Qed.

Lemma pad_read s n : pad (String.words s) (Datatypes.S n) = (read_word s).1 :: pad (String.words (read_word s).2) n.
Proof.
  unfold pad. rewrite words_read. destruct (read_word s) as [w rest] eqn:E. cbn [fst snd]. destruct w as [|c w].
  - rewrite (read_word_end _ _ E). done.
  - cbn. f_equal. change (EmptyString :: replicate n EmptyString) with (replicate (Datatypes.S n) EmptyString).
    rewrite replicate_S_end, app_assoc. rewrite take_app_le; [done|].
    rewrite length_app, length_replicate. lia.
Qed.

Lemma run_step {W} (h : handler W) fuel t w t' w' : step_program h t w = Some (Ret (t', w')) →
  run_program h (Datatypes.S fuel) t w = run_program h fuel t' w'.
Proof. intros E. cbn [run_program]. by rewrite E. Qed.

Ltac run_steps := repeat (erewrite run_step; [|unfold step_program; cbn; reflexivity]).

Lemma received_some size m ms : received ((Some size, m) :: ms) = Datatypes.S (received ms).
Proof. unfold received. by rewrite filter_cons_True by by eexists. Qed.

Lemma received_none m ms : received ((None, m) :: ms) = received ms.
Proof. unfold received. by rewrite filter_cons_False by by intros [? [=]]. Qed.

(** A round of [cli_main]. *)
Lemma cli_round_steps fuel t m ms ty sh se : observe t = observe (ITree.iter cli_round tt) →
  ∃ fuel' t', (fuel ≤ fuel')%nat ∧ observe t' = observe (ITree.iter cli_round tt) ∧
    run_program at_terminal (5 + fuel) t (mkDialogue (m :: ms) ty sh se) =
    run_program at_terminal fuel' t' (match m.1 with
      | Some _ => mkDialogue ms (read_word ty).2 (sh +:+ cli_line m) (se ++ [(read_word ty).1])
      | None => mkDialogue ms ty (sh +:+ cli_line m) se
      end).
Proof.
  intros Ht. destruct m as [[size|] m]; cbn [fst snd Nat.add].
  - destruct (read_word ty) as [w rest] eqn:E. unfold read_word in E. exists fuel. eexists. split; [lia|]. split; cycle 1.
    + erewrite run_step; [|rewrite (step_observe _ _ _ _ Ht); unfold step_program; cbn; reflexivity].
      erewrite run_step; [|unfold step_program; cbn; reflexivity].
      erewrite run_step; [|unfold step_program; cbn; rewrite E; cbn; reflexivity].
      do 2 (erewrite run_step; [|unfold step_program; cbn; reflexivity]). reflexivity.
    + reflexivity.
  - exists (2 + fuel)%nat. eexists. split; [lia|]. split; cycle 1.
    + erewrite run_step; [|rewrite (step_observe _ _ _ _ Ht); unfold step_program; cbn; reflexivity].
      do 2 (erewrite run_step; [|unfold step_program; cbn; reflexivity]). reflexivity.
    + reflexivity.
Qed.

Lemma cli_rounds fuel ms ty sh se t : observe t = observe (ITree.iter cli_round tt) →
  (5 * length ms < fuel)%nat → ∃ t' ty', run_program at_terminal fuel t (mkDialogue ms ty sh se) =
    Ret (t', mkDialogue [] ty' (sh +:+ String.concat "" (cli_line <$> ms)) (se ++ pad (String.words ty) (received ms))) ∧
    waits t'.
Proof.
  revert fuel ty sh se t. induction ms as [|m ms IH]; intros fuel ty sh se t Ht Hf; cbn [length] in Hf.
  - destruct fuel as [|fuel]; [lia|]. cbn [run_program]. rewrite (step_observe _ _ _ _ Ht). unfold step_program. cbn.
    exists t, ty. rewrite append_nil_r, app_nil_r. split; [done|]. unfold waits. rewrite Ht. cbn. by eexists.
  - replace fuel with (5 + (fuel - 5))%nat by lia.
    destruct (cli_round_steps (fuel - 5) t m ms ty sh se Ht) as (fuel' & t' & Hf' & Ht' & ->).
    destruct m as [[size|] m]; cbn [fst snd].
    + destruct (IH fuel' (read_word ty).2 (sh +:+ cli_line (Some size, m))%string (se ++ [(read_word ty).1]) t' Ht')
        as (t2 & ty2 & -> & Hw); [lia|].
      exists t2, ty2. split; [|done]. rewrite received_some, pad_read, fmap_cons, concat_cons.
      by rewrite <-append_assoc, <-app_assoc.
    + destruct (IH fuel' ty (sh +:+ cli_line (None, m))%string se t' Ht') as (t2 & ty2 & -> & Hw); [lia|].
      exists t2, ty2. split; [|done]. rewrite received_none, fmap_cons, concat_cons. by rewrite <-append_assoc.
Qed.

(** The program sends the words that are typed, one for each message it gets,
    and empty messages when no more words come; it never ends. *)
Theorem cli_sends_words args ms ty : ∃ t ty',
  run_program at_terminal (5 * length ms + 2) (cli_main args) (mkDialogue ms ty "" []) =
    Ret (t, mkDialogue [] ty'
      ("Using connection: " +:+ connection_name args +:+ String.concat "" (cli_line <$> ms))
      (take (received ms) (String.words ty ++ replicate (received ms) ""))) ∧
  waits t.
Proof.
  replace (5 * length ms + 2)%nat with (Datatypes.S (5 * length ms + 1)) by lia.
  erewrite run_step; [|unfold step_program; cbn; reflexivity].
  edestruct (cli_rounds (5 * length ms + 1) ms ty) as (t & ty' & E & Hw); [| |exists t, ty'; split; [|exact Hw]].
  3: rewrite E; done.
  - reflexivity.
  - lia.
Qed.

(** At the end of the input every message is answered by an empty one. *)
Example cli_end_of_input :
  run_program at_terminal 20 (cli_main []) (mkDialogue (replicate 3 (Some 5, "")) "look" "" []) ≫= (λ r, Ret (sent r.2)) =
  Ret ["look"; ""; ""]%string.
Proof. vm_compute. reflexivity. Qed.

(** ** A network of two queues *)
Record queues := mkQueues { to_side : side → list string; turn : side → bool }.

Definition other (x : side) : side := match x with Req => Rep | Rep => Req end.
Definition set_side {A} (f : side → A) (x : side) (a : A) : side → A := λ y, if decide (y = x) then a else f y.

#[local] Instance queue_zmq : Zmq := {|
  net := queues;
  zmq_new := mkQueues (λ _, []) (λ x, bool_decide (x = Req));
  zmq_send x d q :=
    if turn q x
    then Ret (mkQueues (set_side (to_side q) (other x) (to_side q (other x) ++ [d])) (set_side (turn q) x false))
    else Throw "Operation cannot be accomplished in current state";
  zmq_recv x q :=
    if turn q x then Some (Throw "Operation cannot be accomplished in current state")
    else match to_side q x with
         | [] => None
         | d :: rest => Some (Ret (mkQueues (set_side (to_side q) x rest) (set_side (turn q) x true),
                                   (Some (Z.of_nat (String.length d)), d)))
         end;
|}.

#[local] Instance queue_laws : ZmqLaws queue_zmq.
Proof.
  refine {| arriving := λ x q, to_side q x; may_send := λ x q, turn q x |}; try done.
  - intros x d q Hx. eexists. cbn. rewrite Hx. split; [done|]. cbn.
    split; [by destruct x|]. split; [by destruct x|]. by intros [] Hy; destruct x.
  - intros x q Hx E. cbn. by rewrite Hx, E.
  - intros x q d rest Hx E. eexists. cbn. rewrite Hx, E. split; [done|]. cbn.
    split; [by destruct x|]. split; [by destruct x|]. by intros [] Hy; destruct x.
Defined.

(** The client and the server in turn, each as long as it can. *)
Fixpoint schedule (fuel : nat) (s : exchange) : list side :=
  match fuel with
  | O => []
  | Datatypes.S fuel =>
      match exchange_exec Req s, exchange_exec Rep s with
      | Some (Ret s), _ => Req :: schedule fuel s
      | _, Some (Ret s) => Rep :: schedule fuel s
      | _, _ => []
      end
  end.

Lemma exchange_lockstep_witness :
  let l := schedule 200 exchange_start in
  ∃ r, exchange_run l exchange_start = Some r ∧ length l = 120%nat ∧ ∃ s, r = Ret s ∧ (length l ≤ 120)%nat ∧
    ((∃ x s', exchange_exec x s = Some (Ret s')) ∨ exchanged s ∧ ∀ x, exchange_exec x s = None).
Proof.
  intros l. destruct (exchange_run l exchange_start) as [r|] eqn:E.
  - exists r. split; [done|]. split; [vm_compute; reflexivity|]. by apply (exchange_lockstep (QL := queue_laws) l).
  - exfalso. revert E. vm_compute. discriminate.
Defined.
