(* ===== verification/Experiments.v ===== *)
(** * Experiments (src/util: lua, math, lambda-main, cppversion, scratch)

    Short programs around a third-party library or the compiler. The Lua
    interpreter and the fixed-point numbers of CNL are classes. *)
From Stdlib Require Import Ascii String.
From stdpp Require Import strings pretty.
From S2P Require Import Prelude.
From S2P Require Import Text.
From S2P Require Import Redis.
From S2P Require Import Utilities.

(** ** scratch.cpp *)
Definition newline : ascii := ascii_of_nat 10.

Definition scratch_main : string := line (pretty (code newline)).

(** ** cppversion.cpp: [standard] is the value of [__cplusplus]. *)
Definition cpp_version (standard : Z) : string :=
  if decide (standard <= 199711) then "C++1997"
  else if decide (standard <= 201103) then "C++11"
  else if decide (standard <= 201402) then "C++14"
  else if decide (standard <= 201703) then "C++17"
  else if decide (standard <= 202002) then "C++20"
  else if decide (standard <= 202302) then "C++23"
  else "C++Unknown".

Definition cppversion_main (standard : Z) : string := line (cpp_version standard).

(** ** lambda-main.cpp

    [env] is an array of pointers to texts, the last of which is null. *)
Fixpoint env_loop (fuel : nat) (env : list (option string)) (offset : Z) (out : string) : outcome string :=
  match fuel with
  | O => NoFuel
  | S fuel =>
      var ← vget env offset;
      match var with
      | None => Ret out
      | Some var => env_loop fuel env (offset + 1) (out +:+ line var)
      end
  end.

Definition lambda_main (env : list (option string)) : outcome string := env_loop (S (length env)) env 0 "".

(** ** math.cpp

    The numbers of CNL: [ScaledInt64], the types of products and quotients,
    the conversions between them, and how they are written. *)
Class Cnl := {
  ScaledInt64 : Type;
  product : Type;
  quotient : Type;
  of_int : Z → ScaledInt64;
  to_int : ScaledInt64 → Z;
  mul : ScaledInt64 → ScaledInt64 → product;
  div : ScaledInt64 → Z → quotient;
  of_product : product → ScaledInt64;
  of_quotient : quotient → ScaledInt64;
  show : ScaledInt64 → string;
  show_quotient : quotient → string;
}.

Section math.
Context {C : Cnl}.

Definition ints : list ScaledInt64 := of_int <$> [0; 1; 2; 3; 4; 5].
Definition even (i : ScaledInt64) : bool := bool_decide (0 = Z.rem (to_int i) 2).
Definition square (i : ScaledInt64) : product := mul i i.
Definition div3 (i : ScaledInt64) : quotient := div i 3.

(** The loops over the two views. *)
Definition print_all (l : list ScaledInt64) : string := String.concat "" ((λ i, show i +:+ " ")%string <$> l).

Definition pipe_view : list ScaledInt64 :=
  of_quotient <$> (div3 <$> (of_product <$> (square <$> filter even ints))).
Definition nested_view : list ScaledInt64 := of_product <$> (square <$> filter even ints).

Definition math_main : string :=
  (print_all pipe_view +:+ endl +:+
   print_all nested_view +:+ endl +:+
   show_quotient (div (of_int 10) 3) +:+ endl +:+
   endl)%string.
End math.

(** ** lua.cpp

    An interpreter; [lua_tostring] gives a null pointer for a value that is
    neither a text nor a number. *)
Class Lua := {
  lua_State : Type;
  luaL_newstate : option lua_State;
  luaL_openlibs : lua_State → lua_State;
  luaL_loadbuffer : lua_State → string → string → outcome (lua_State * Z);
  lua_pcall : lua_State → Z → Z → Z → outcome (lua_State * Z);
  lua_tostring : lua_State → Z → option string;
  lua_pop : lua_State → Z → lua_State;
  lua_close : lua_State → lua_State;
}.

(** [fgets(buff, n + 1, stdin)]: the characters that are stored and those that
    are left. *)
Fixpoint fgets (n : nat) (stdin : string) : string * string :=
  match n, stdin with
  | O, _ | _, EmptyString => (EmptyString, stdin)
  | S n, String c rest =>
      if decide (c = newline) then (String c EmptyString, rest)
      else let '(l, rest) := fgets n rest in (String c l, rest)
  end.

(** [sizeof(buff)] without the closing zero. *)
Definition BUFF : nat := 255.

Section lua.
Context {I : Lua}.

(** The two calls of one line, the second when the first succeeds. *)
Definition load_and_call (L : lua_State) (text : string) : outcome (lua_State * bool) :=
  '(L, s) ← luaL_loadbuffer L text "line";
  if decide (s ≠ 0) then Ret (L, true)
  else '(L, s) ← lua_pcall L 0 0 0; Ret (L, bool_decide (s ≠ 0)).

(** The body of the loop: the state and what is written to [stderr]. *)
Definition lua_line (buff : string) (L : lua_State) (err : string) : outcome (lua_State * string) :=
  '(L, error) ← load_and_call L (c_str buff);
  if error : bool then
    message ← from_option_ub (lua_tostring L (-1));
    Ret (lua_pop L 1, err +:+ c_str message)%string
  else Ret (L, err).

Fixpoint lua_loop (fuel : nat) (stdin : string) (L : lua_State) (err : string) : outcome (lua_State * string) :=
  match fuel with
  | O => NoFuel
  | S fuel =>
      let '(buff, stdin) := fgets BUFF stdin in
      if decide (buff = EmptyString) then Ret (L, err)
      else '(L, err) ← lua_line buff L err; lua_loop fuel stdin L err
  end.

(** A null state is dereferenced by [luaL_openlibs]. *)
Definition lua_main (stdin : string) : outcome (lua_State * string) :=
  L ← from_option_ub luaL_newstate;
  '(L, err) ← lua_loop (S (String.length stdin)) stdin (luaL_openlibs L) "";
  Ret (lua_close L, err).
End lua.

(** ** Specification of lua.cpp *)

(** Text that ends with a newline, or fills the buffer. *)
Definition complete (p : string) : Prop :=
  (∃ l, p = (l +:+ endl)%string) ∨ String.length p = BUFF.

(** What one [fgets] can give: it is not empty, fits the buffer, and has a
    newline only at its end. *)
Definition piece (p : string) : Prop :=
  p ≠ EmptyString ∧ (String.length p ≤ BUFF)%nat ∧ ∃ l, lacks newline l ∧ (p = l ∨ p = (l +:+ endl)%string).

(** All lines, each with its own call. *)
Fixpoint run_pieces {I : Lua} (ps : list string) (L : lua_State) (err : string) : outcome (lua_State * string) :=
  match ps with
  | [] => Ret (L, err)
  | p :: ps => '(L, err) ← lua_line p L err; run_pieces ps L err
  end.

(** ** Proofs: lua.cpp *)
Lemma fgets_split n s : (((fgets n s).1) +:+ (fgets n s).2)%string = s.
Proof.
  revert s. induction n as [|n IH]; intros [|c s]; try done. cbn. case_decide as Hc; [done|].
  specialize (IH s). destruct (fgets n s) as [l r]. cbn in *. by rewrite append_cons, IH.
Qed.

Lemma fgets_length n s : (String.length (fgets n s).1 ≤ n)%nat.
Proof.
  revert s. induction n as [|n IH]; intros [|c s]; cbn; [lia..|]. case_decide as Hc; [cbn; lia|].
  specialize (IH s). destruct (fgets n s) as [l r]. cbn in *. lia.
Qed.

Lemma lacks_nil c : lacks c "".
Proof. unfold lacks. cbn. set_solver. Qed.

Lemma fgets_newlines n s : ∃ l, lacks newline l ∧ ((fgets n s).1 = l ∨ (fgets n s).1 = (l +:+ endl)%string).
Proof.
  revert s. induction n as [|n IH]; intros [|c s]; cbn; try (exists ""%string; split; [apply lacks_nil|by left]).
  case_decide as Hc; [exists ""%string; split; [apply lacks_nil|right; by subst c]|].
  destruct (IH s) as (l & Hl & H). destruct (fgets n s) as [m r]. cbn in *. exists (String c l). split.
  - unfold lacks. cbn. rewrite not_elem_of_cons. split; [by intros ?; apply Hc|done].
  - by destruct H as [->| ->]; [left|right].
Qed.

(** What [fgets] leaves is left because the piece is complete. *)
Lemma fgets_complete n s : (fgets n s).2 ≠ EmptyString →
  (∃ l, (fgets n s).1 = (l +:+ endl)%string) ∨ String.length (fgets n s).1 = n.
Proof.
  revert s. induction n as [|n IH]; intros [|c s]; cbn; try done; [by right|].
  case_decide as Hc; [intros _; left; exists ""%string; by subst c|].
  specialize (IH s). destruct (fgets n s) as [m r]. cbn in *. intros H.
  destruct (IH H) as [(l & ->)|<-]; [left; by exists (String c l)|by right].
Qed.

Lemma fgets_empty n s : (0 < n)%nat → (fgets n s).1 = EmptyString → s = EmptyString.
Proof.
  destruct n as [|n]; [lia|]. intros _. destruct s as [|c s]; [done|]. cbn.
  case_decide; [done|]. by destruct (fgets n s).
Qed.

Lemma fgets_piece s : s ≠ EmptyString → piece (fgets BUFF s).1.
Proof. intros Hs. split; [intros E; by apply fgets_empty in E; [|unfold BUFF; lia]|]. split; [apply fgets_length|apply fgets_newlines]. Qed.

Section lua_theorems.
Context {I : Lua}.

Lemma lua_loop_pieces fuel s : (String.length s < fuel)%nat →
  ∃ ps, String.concat "" ps = s ∧ Forall piece ps ∧ Forall complete (removelast ps) ∧
    ∀ L err, lua_loop fuel s L err = run_pieces ps L err.
Proof.
  revert s. induction fuel as [|fuel IH]; intros s Hf; [lia|]. cbn [lua_loop].
  destruct (decide (s = EmptyString)) as [->|Hs]; [by exists []|].
  pose proof (fgets_split BUFF s) as Hsplit. pose proof (fgets_piece s Hs) as Hp.
  pose proof (fgets_complete BUFF s) as Hc.
  destruct (fgets BUFF s) as [l r]. cbn [fst snd] in *.
  assert (0 < String.length l)%nat by (destruct Hp as [? _]; destruct l; [done|cbn; lia]).
  destruct (decide (r = EmptyString)) as [->|Hr].
  - exists [l]. cbn [String.concat]. rewrite append_nil_r in Hsplit.
    split; [done|]. split; [by constructor|]. split; [constructor|]. intros L err.
    rewrite decide_False by apply Hp. cbn [run_pieces].
    destruct (lua_line l L err) as [[L' err']| | |]; try done. cbn [mbind outcome_bind].
    by destruct fuel; [rewrite <-Hsplit in Hf; lia|].
  - destruct (IH r) as (ps & Hps & Hf1 & Hf2 & E); [rewrite <-Hsplit, length_append in Hf; lia|].
    exists (l :: ps).
    split; [by rewrite <-Hsplit, <-Hps; apply concat_cons|]. split; [by constructor|]. split.
    + destruct ps as [|p ps]; [constructor|]. constructor; [|done]. by apply Hc.
    + intros L err. rewrite decide_False by apply Hp. cbn [run_pieces].
      destruct (lua_line l L err) as [[L' err']| | |]; try done. cbn [mbind outcome_bind]. apply E.
Qed.

(** The interpreter runs the input piece by piece: the pieces are the input,
    each of them is a line or, of a line that is too long, as much as the
    buffer holds. *)
Theorem lua_runs_pieces stdin : ∃ ps, String.concat "" ps = stdin ∧ Forall piece ps ∧ Forall complete (removelast ps) ∧
  lua_main stdin =
    (L ← from_option_ub luaL_newstate;
     '(L, err) ← run_pieces ps (luaL_openlibs L) "";
     Ret (lua_close L, err)).
Proof.
  destruct (lua_loop_pieces (S (String.length stdin)) stdin) as (ps & H1 & H2 & H3 & E); [lia|].
  exists ps. split; [done|]. split; [done|]. split; [done|]. unfold lua_main.
  destruct luaL_newstate; [|done]. cbn [from_option_ub mbind outcome_bind]. by rewrite E.
Qed.
End lua_theorems.

(** An interpreter that keeps the texts it has run, and has an error value that
    is no text for each text that starts with an exclamation mark. *)
#[local] Instance recorder : Lua := {|
  lua_State := list string;
  luaL_newstate := Some [];
  luaL_openlibs := id;
  luaL_loadbuffer L text _ := Ret (L ++ [text], 0);
  lua_pcall L _ _ _ := Ret (L, match last L with Some (String "!" _) => 2 | _ => 0 end);
  lua_tostring L _ := None;
  lua_pop L _ := L;
  lua_close := id;
|}.

(** A line of 300 characters is run as two chunks. *)
Example lua_long_line :
  lua_main (of_list (replicate 300 "x"%char) +:+ endl)%string =
  Ret ([of_list (replicate 255 "x"%char); of_list (replicate 45 "x"%char) +:+ endl]%string, "").
Proof. vm_compute. reflexivity. Qed.

(** An error value that is no text is printed through a null pointer. *)
Example lua_error_value : lua_main ("!" +:+ endl)%string = Undef.
Proof. vm_compute. reflexivity. Qed.

(** ** The other programs *)

(** All variables are printed, one in a line. *)
Theorem lambda_main_prints vars rest : lambda_main ((Some <$> vars) ++ None :: rest) = Ret (lines vars).
Proof.
  unfold lambda_main. rewrite length_app, length_fmap. cbn [length].
  assert (∀ vs before out fuel, (length vs < fuel)%nat →
    env_loop fuel ((Some <$> before) ++ (Some <$> vs) ++ None :: rest) (Z.of_nat (length before)) out =
      Ret (out +:+ lines vs)%string) as H; [|apply (H vars [] ""); lia].
  intros vs. induction vs as [|v vs IH]; intros before out fuel Hf; (destruct fuel as [|fuel]; [lia|]); cbn [env_loop].
  - rewrite (proj2 (vget_Ret _ _ None)).
    + cbn. by rewrite append_nil_r.
    + split; [lia|]. rewrite Nat2Z.id, lookup_app_r by (rewrite length_fmap; lia).
      by rewrite length_fmap, Nat.sub_diag.
  - rewrite (proj2 (vget_Ret _ _ (Some v))).
    + cbn [mbind outcome_bind]. specialize (IH (before ++ [v]) (out +:+ line v)%string fuel).
      rewrite fmap_app, <-app_assoc, length_app in IH. cbn [length fmap list_fmap app] in IH.
      replace (Z.of_nat (length before) + 1) with (Z.of_nat (length before + 1)) by lia.
      etrans; [apply IH; cbn in Hf; lia|]. unfold lines. rewrite fmap_cons, concat_cons.
      by rewrite append_assoc.
    + split; [lia|]. rewrite Nat2Z.id, lookup_app_r by (rewrite length_fmap; lia).
      by rewrite length_fmap, Nat.sub_diag.
Qed.

(** The value a compiler gives for each standard, in the order of the names. *)
Example cpp_versions :
  cpp_version <$> [199711; 201103; 201402; 201703; 202002; 202302] =
  ["C++1997"; "C++11"; "C++14"; "C++17"; "C++20"; "C++23"]%string.
Proof. reflexivity. Qed.

Example scratch_prints : scratch_main = ("10" +:+ endl)%string.
Proof. reflexivity. Qed.

(** Both views take the even numbers, whatever the arithmetic of CNL does with
    them. *)
Lemma math_views {C : Cnl} : (∀ n, 0 ≤ n ≤ 5 → to_int (of_int n) = n) →
  nested_view = (λ n, of_product (mul (of_int n) (of_int n))) <$> [0; 2; 4] ∧
  pipe_view = (λ n, of_quotient (div (of_product (mul (of_int n) (of_int n))) 3)) <$> [0; 2; 4].
Proof.
  intros H. assert (filter (λ i, Is_true (even i)) ints = of_int <$> [0; 2; 4]) as E.
  { unfold ints, even. cbn [fmap list_fmap]. rewrite !filter_cons, !H by lia. reflexivity. }
  unfold nested_view, pipe_view. by rewrite E.
Qed.
