(* ===== verification/Events.v ===== *)
(** * Events from the controllers to the database

    The way of a registration through the actors: the log-in controller sends
    it to the event recorder, the recorder to the storage actor, which stores
    it through any storage that keeps the contract of Storage.v; with the
    Redis back end, through the Lua function of the event. *)
From Stdlib Require Import String.
From stdpp Require Import strings sorting.
From S2P Require Import Prelude.
From S2P Require Import Text.
From S2P Require Import Word.
From S2P Require Import BlockHasher.
From S2P Require Import Sha256.
From S2P Require Import Security.
From S2P Require Import Controllers.
From S2P Require Import Storage.
From S2P Require Import Redis.

(** What the storage actor receives. *)
Definition to_storage (out : list effect) : list storage_msg :=
  omap (λ e, match e with
    | Send RStorage (Controllers.StorageEventStore name fields) => Some (Storage.StorageEventStore name fields)
    | _ => None
    end) out.

(** What the effects of a controller make of the storage, the event recorder
    and the storage actor handling their messages in order. *)
Definition record_events {store : Type} {St : Storage store} (out : list effect) (s : store) :
    outcome (option store * list answer) :=
  storage_run (Some s) (to_storage (to_events out ≫= event_recorder_handle)).

(** The entry of a registration in the stream of events. *)
Definition registration_entry (u text : string) : list (string * string) :=
  [("event", "EventUserCreate"); ("passphrase", text); ("username", u)].

(** ** Lemmas *)
Lemma create_fields_order u text :
  in_key_order (<["passphrase" := text]> {["username" := u]}) = [("passphrase", text); ("username", u)].
Proof. vm_compute. reflexivity. Qed.

Lemma plain_literal s : bool_decide (plain s) = true → plain s.
Proof. apply bool_decide_eq_true_1. Qed.

Lemma salt_plain s : is_salt s → plain s.
Proof. apply salt_lacks, (bool_decide_unpack (String Ascii.zero EmptyString ∉ hex)). vm_compute. exact I. Qed.

Lemma stored_plain dist p text :
  (∀ i, 0 ≤ i < 8 → 0 ≤ dist i < 16) → stored_for dist p text → plain text.
Proof.
  intros Hd (s & Hs & ->). destruct (salt_loop dist Hd) as (s' & Hs' & Hsalt). rewrite Hs in Hs'.
  injection Hs' as <-. apply loop_salt, salt_plain in Hsalt.
  unfold to_string, plain. cbn [iterations salt hash]. rewrite !lacks_append.
  split_and!; [|apply plain_literal; reflexivity|exact Hsalt|apply plain_literal; reflexivity|].
  { apply pretty_Z_lacks, (bool_decide_unpack (Ascii.zero ∉ decimal_chars)). vm_compute. exact I. }
  apply to_hex_lacks, (bool_decide_unpack (Ascii.zero ∉ hex_chars)). vm_compute. exact I.
Qed.

Section recording.
Context {store : Type} {St : Storage store} {ready : store → Prop} {view : store → keyspace}.
Context {L : StorageLaws St ready view}.

Lemma record_registration u text (s : store) :
  plain u → plain text → ready s →
  returns (storage_run (Some s) (to_storage (event_recorder_handle (EventUserCreate u text)))) (λ r,
    ∃ s', r.1 = Some s' ∧ ready s' ∧
      view s' = run_write (WXadd "events" (registration_entry u text)) (view s)).
Proof.
  intros Hu Ht Hs. cbn [event_recorder_handle to_storage omap list_omap].
  eapply returns_mono; [apply (storage_run_serves (L := L)); [|exact Hs]|].
  - apply Forall_cons_2; [|apply Forall_nil_2]. cbn [proper]. split_and!.
    + apply plain_literal. vm_compute. reflexivity.
    + apply map_Forall_insert_2; [|apply map_Forall_singleton]; (split; [apply plain_literal; vm_compute; reflexivity|done]).
    + left. split; [done|]. rewrite map_size_insert, lookup_singleton_ne by done. reflexivity.
  - intros [o l] [_ (s' & Eo & Hr & Hv)]. cbn [fst snd] in *. exists s'. split_and!; [done|done|].
    rewrite Hv. cbn [serve fst writes_of]. by rewrite create_fields_order.
Qed.
End recording.

(** ** Main theorem *)

(** C14. A registration reaches the database: when the inputs of a user
    complete the log-in dialogue, what the controller sends, through the
    event recorder and the storage actor, adds exactly one entry to the
    stream of events, with the user's name and the salted SHA256 of the
    password, in the order the Lua function expects, and changes no other
    key; before that nothing is stored. *)
Theorem registration_recorded {store : Type} {St : Storage store} {ready view} {L : StorageLaws St ready view}
    uninit extra dist inputs i (s : store) :
  length uninit = 64%nat → length extra = 64%nat →
  (∀ i, 0 ≤ i < 8 → 0 ≤ dist i < 16) →
  ¬ complete inputs → complete (inputs ++ [i]) → plain (username (known inputs)) → ready s →
  returns (login_run uninit extra dist login_new (LoginControllerStart :: (OnUserInput <$> inputs)))
    (λ r, record_events r.2 s = Ret (Some s, [])) ∧
  returns (login_run uninit extra dist login_new (LoginControllerStart :: (OnUserInput <$> inputs ++ [i])))
    (λ r, ∃ text, stored_for dist i text ∧
      returns (record_events r.2 s) (λ r', ∃ s', r'.1 = Some s' ∧ ready s' ∧
        view s' = run_write (WXadd "events" (registration_entry (username (known inputs)) text)) (view s))).
Proof.
  intros Hu He Hd Hn Hc Hp Hs. unfold record_events. split.
  - destruct (login_open uninit extra dist inputs Hn) as ([st out] & Hr & _ & Hreg & _). exists (st, out).
    split; [done|]. cbn [fst snd] in *. by rewrite (login_run_events _ _ _ _ _ _ _ Hr), Hreg.
  - destruct (login_ends uninit extra dist inputs i Hu He Hd Hn Hc) as ([st out] & Hr & _ & (text & Ht & Hreg) & _).
    exists (st, out). split; [done|]. cbn [fst snd] in *. exists text. split; [done|].
    rewrite (login_run_events _ _ _ _ _ _ _ Hr), Hreg. cbn [fmap list_fmap fst snd mbind list_bind].
    rewrite app_nil_r. apply (record_registration (L := L)); [done|by eapply stored_plain|done].
Qed.

(** ** Witness: on a server in memory, "ann" registers *)
Lemma registration_recorded_witness :
  let inputs := ["ann"; ""; "secret"; "scret"] in
  complete (inputs ++ ["secret"]) ∧ username (known inputs) = "ann" ∧
  returns (login_run (replicate 64 0) (replicate 64 0) id login_new (LoginControllerStart :: (OnUserInput <$> inputs ++ ["secret"])))
    (λ r, ∃ text, returns (record_events (St := Redis (R := MiniRedis)) r.2 mini_storage) (λ r', ∃ s',
      r'.1 = Some s' ∧
      redis_view (keys := mini_keys) s' = {["events" := VStream [registration_entry "ann" text]]})).
Proof.
  assert (complete (["ann"; ""; "secret"; "scret"] ++ ["secret"])) as Hc
    by (refine (bool_decide_unpack ("secret" ∈ _) _); vm_compute; exact I).
  assert (¬ complete ["ann"; ""; "secret"; "scret"]) as Hn
    by (refine (bool_decide_unpack ("secret" ∉ _) _); vm_compute; exact I).
  split; [exact Hc|]. split; [reflexivity|].
  destruct (registration_recorded (St := Redis (R := MiniRedis))
    (L := redis_laws (R := MiniRedis) (connected := mini_connected) (keys := mini_keys))
    (replicate 64 0) (replicate 64 0) id ["ann"; ""; "secret"; "scret"] "secret" mini_storage
    eq_refl eq_refl (λ i Hi, ltac:(unfold id; lia)) Hn Hc (plain_literal "ann" eq_refl) mini_ready)
    as [_ H].
  eapply returns_mono; [exact H|]. intros r (text & _ & Hr). exists text.
  eapply returns_mono; [exact Hr|]. intros r' (s' & E & _ & Hv). exists s'. split; [exact E|].
  rewrite Hv. apply map_eq. intros k. rewrite run_write_lookup. cbn [target].
  destruct (decide ("events" = k)) as [<-|Hk].
  - rewrite lookup_singleton_eq. reflexivity.
  - rewrite lookup_singleton_ne by done. reflexivity.
Defined.
