(* ===== verification/Server.v ===== *)
(** * The server actor and the main program (pmud/src/pnet/server_actor.h,
    pmud/src/system, pmud/src/common/util.h, pmud/main.cpp)

    The actor that listens and accepts connections, over the socket calls of
    the class [Net], with its mailbox as a transition system; and the main
    program: starting the server, waiting for a signal, telling the
    connections to close, stopping the server. *)
From Stdlib Require Import String.
From stdpp Require Import strings.
From S2P Require Import Prelude.
From S2P Require Import Text.
From S2P Require Import Comm.
From S2P Require Import Controllers.
From S2P Require Import Connection.

(** ** The system *)
Record sockaddr_in := mkSockaddr { sin_addr : Z; sin_port : Z }.

(** The calls that make a listening socket; [accept] and [socket] return a
    descriptor or -1. *)
Class Net (S : Socket) := {
  socket : kernel → kernel * Z;
  fcntl_getfl : kernel → Z → Z;
  fcntl_setfl : kernel → Z → Z → kernel;
  bind : kernel → Z → sockaddr_in → kernel * Z;
  listen : kernel → Z → Z → kernel * Z;
  accept : kernel → Z → sockaddr_in → kernel * Z;
  errno : kernel → Z;
  sleep_20ms : kernel → kernel;
  inet_aton : string → option Z;
  O_NONBLOCK : Z;
  EWOULDBLOCK : Z;
  EAGAIN : Z
}.

(** Descriptors above 0: 0 to 2 are the standard streams of the process. *)
Class NetLaws {S : Socket} (N : Net S) : Prop := {
  socket_fd k k' fd : socket k = (k', fd) → fd = -1 ∨ 0 < fd;
  accept_fd k fd a k' c : accept k fd a = (k', c) → c = -1 ∨ 0 < c;
  errno_positive k : 0 < errno k
}.

(** ** mud_config.h, pmud_system.h *)
Record MudConfig := mkMudConfig {
  name : string;
  address : string;
  port : Z;
  max_queued_connections : Z;
  log_name : string;
  log_level : string;
  log_filename : string;
  log_truncate : bool
}.

(** ** util.h: [initialize_sockaddr] *)

(** Network byte order of a 16-bit number. *)
Definition htons (p : Z) : Z := p mod 256 * 256 + p / 256.

(** An address that cannot be parsed leaves what the memory held. *)
Definition initialize_sockaddr {S : Socket} {N : Net S} (addr : string) (p : Z) (sa : sockaddr_in) : sockaddr_in :=
  mkSockaddr (default (sin_addr sa) (inet_aton addr)) (htons p).

(** ** server_actor.h *)
Record ServerActor := mkServer { m_sockfd : Z; m_mud : MudConfig }.

Definition ServerActor_new (mud : MudConfig) : ServerActor := mkServer 0 mud.

(** The answer to a request, and a connection actor that was spawned. *)
Inductive reply := NoReply | Status (n : Z) | Terminated (b : bool).

Definition welcome_text (mud : MudConfig) : string :=
  ("Welcome to " +:+ name mud +:+ String (Ascii.ascii_of_nat 10) "Version 0.1")%string.

Record handled (k : Type) := mkHandled {
  h_kernel : k;
  h_state : ServerActor;
  h_effects : list effect;
  h_spawned : option (ConnectionActor * list effect);
  h_reply : reply
}.
Arguments mkHandled {k}. Arguments h_kernel {k}. Arguments h_state {k}.
Arguments h_effects {k}. Arguments h_spawned {k}. Arguments h_reply {k}.

Section server.
Context {S : Socket} {N : Net S}.

(** [fcntl(fd, F_SETFL, fcntl(fd, F_GETFL) | O_NONBLOCK)] *)
Definition set_nonblock (k : kernel) (fd : Z) : kernel :=
  fcntl_setfl k fd (Z.lor (fcntl_getfl k fd) O_NONBLOCK).

(** [StartServer]; [uninit] is the uninitialised local [sockaddr]. *)
Definition start_handle (k : kernel) (uninit : sockaddr_in) (st : ServerActor) : handled kernel :=
  let '(k, fd) := socket k in
  let st := mkServer fd (m_mud st) in
  if decide (m_sockfd st = -1) then mkHandled k st [] None (Status (errno k))
  else
    let k := set_nonblock k (m_sockfd st) in
    let sockaddr := initialize_sockaddr (address (m_mud st)) (port (m_mud st)) uninit in
    let '(k, res) := bind k (m_sockfd st) sockaddr in
    if decide (res < 0) then mkHandled k st [] None (Status (errno k))
    else
      let '(k, res) := listen k (m_sockfd st) (max_queued_connections (m_mud st)) in
      if decide (res < 0) then mkHandled k st [] None (Status (errno k))
      else mkHandled k st [Send RServer AcceptConnection] None (Status 0).

(** [AcceptConnection]; a new connection actor has identity [id]. *)
Definition accept_handle (k : kernel) (uninit : sockaddr_in) (id : Z) (st : ServerActor) :
    outcome (handled kernel) :=
  if decide (m_sockfd st ≤ 0) then Ret (mkHandled k st [] None NoReply)
  else
    let sockaddr := initialize_sockaddr (address (m_mud st)) (port (m_mud st)) uninit in
    let '(k, c_id) := accept k (m_sockfd st) sockaddr in
    if decide (c_id = -1) then
      let k := if decide (errno k = EWOULDBLOCK ∨ errno k = EAGAIN) then sleep_20ms k else k in
      Ret (mkHandled k st [Send RServer AcceptConnection] None NoReply)
    else
      let k := set_nonblock k c_id in
      '(k, conn, e) ← connection_new k (welcome_text (m_mud st)) c_id id;
      Ret (mkHandled k st [Send RConnection PerformWelcome; Send RServer AcceptConnection] (Some (conn, e)) NoReply).

Definition server_handle (k : kernel) (uninit : sockaddr_in) (id : Z) (st : ServerActor) (m : msg) :
    outcome (handled kernel) :=
  match m with
  | StartServer => Ret (start_handle k uninit st)
  | AcceptConnection => accept_handle k uninit id st
  | GoodbyeServer =>
      Ret (mkHandled (close k (m_sockfd st)) (mkServer 0 (m_mud st)) [SendExit RServer] None (Terminated true))
  | _ => Ret (mkHandled k st [] None NoReply)
  end.
End server.

(** ** main.cpp *)

(** What [request(...).receive(...)] calls: the handler of the answer or
    that of the error (a timeout, or an actor that is gone). *)
Inductive response (A : Type) := Answered (a : A) | Failed.
Arguments Answered {A}. Arguments Failed {A}.

Definition start_server (r : response Z) : Z :=
  let server_success := 0 in
  match r with Answered status => status | Failed => server_success end.

Definition kill_server (r : response bool) : bool :=
  match r with Answered _ => true | Failed => false end.

(** [regex_match(name, "Connection\\([0-9]+\\)")] *)
Fixpoint all_digits (s : string) : bool :=
  match s with
  | EmptyString => true
  | String c s => bool_decide (c ∈ digit_chars) && all_digits s
  end.

Definition is_connection_name (s : string) : bool :=
  bool_decide (String.prefix "Connection(" s = true) &&
  (let rest := sdrop 11 s in
   let ds := stake (String.length rest - 1) rest in
   bool_decide (ds ≠ "") && all_digits ds && bool_decide (sdrop (String.length rest - 1) rest = ")")).

(** The actors that are told to say goodbye, among those in the registry. *)
Definition quit_connection_actors {A} (named_actors : list (string * A)) : list A :=
  omap (λ p, if is_connection_name p.1 then Some p.2 else None) named_actors.

Definition SIGINT : Z := 2.
Definition SIGTERM : Z := 15.

(** [signal_handler]: the new status, nothing when the process exits. *)
Definition signal_handler (g_signal_status signal : Z) : option Z :=
  if decide (signal = SIGTERM ∧ g_signal_status = SIGTERM) then None else Some signal.

(** The loop that waits for SIGINT, given what it finds in the status each
    time; [NoFuel] when it is still waiting. *)
Fixpoint wait_for_signal (statuses : list Z) : outcome unit :=
  match statuses with
  | [] => NoFuel
  | g_signal_status :: rest =>
      if decide (g_signal_status = SIGINT) then Ret () else wait_for_signal rest
  end.

(** [run]: its result, and the connection actors told to close. *)
Definition run {A} (start : response Z) (statuses : list Z) (named_actors : list (string * A))
    (kill : response bool) : outcome (bool * list A) :=
  let server_status := start_server start in
  if decide (server_status ≠ 0) then Ret (false, [])
  else
    _ ← wait_for_signal statuses;
    let told := quit_connection_actors named_actors in
    Ret (kill_server kill, told).

(** [parse_yaml]; the documents of yaml-cpp and their conversions are
    parameters. The members are read in this order. *)
Definition parse_yaml {node : Type} (LoadFile : string → outcome node) (sub : node → string → outcome node)
    (as_string : node → outcome string) (as_uint16 : node → outcome Z) (as_bool : node → outcome bool)
    (filename : string) : outcome MudConfig :=
  config ← LoadFile filename;
  let server (key : string) := s ← sub config "server"; sub s key in
  name ← server "name" ≫= as_string;
  address ← server "address" ≫= as_string;
  port ← server "port" ≫= as_uint16;
  queued ← server "max-queued-connections" ≫= as_uint16;
  log_name ← server "log-name" ≫= as_string;
  log_level ← server "log-level" ≫= as_string;
  log_filename ← server "log-filename" ≫= as_string;
  log_truncate ← server "log-truncate" ≫= as_bool;
  Ret (mkMudConfig name address port queued log_name log_level log_filename log_truncate).

(** [configure_logging]: what it prints and its result. [make] makes the
    console logger ([None]) or a file logger with its name, file and
    truncation, and fails with the text of a [spdlog_ex]. *)
Definition configure_logging (make : option (string * string * bool) → option string) (config : MudConfig) :
    string * bool :=
  let '(announced, failure) :=
    if decide (log_name config = "console") then ("Configuring console logger..." +:+ endl, make None)%string
    else ("Configuring file logger to " +:+ log_filename config +:+ "..." +:+ endl,
          make (Some (log_name config, log_filename config, log_truncate config)))%string in
  match failure with
  | None => (announced, true)
  | Some what => (announced +:+ "Log init failed: " +:+ what +:+ endl, false)%string
  end.

(** How [caf_main] ends: by [exit], or by returning, after waiting for all
    actors or not. *)
Inductive ending := Exit (status : Z) | Returned (awaited : bool).

(** [caf_main]: [config] and [logging] are the results of [parse_yaml] and
    [configure_logging] for a file name, [storage] whether a storage could be
    made, [running] the result of [run]. *)
Definition caf_main (YAML_CONFIG : string) (argv : list string)
    (parse_yaml : string → outcome MudConfig) (configure_logging : MudConfig → bool)
    (storage : outcome bool) (running : MudConfig → outcome bool) : outcome ending :=
  let YAML_CONFIG := match argv with _ :: arg :: _ => arg | _ => YAML_CONFIG end in
  config ← parse_yaml YAML_CONFIG;
  if configure_logging config : bool then
    have_storage ← storage;
    if have_storage : bool then
      kill_result ← running config;
      Ret (Returned kill_result)
    else Ret (Exit (-1))
  else Ret (Exit (-1)).

(** ** The server with its mailbox *)
Record system (S : Socket) := mkSystem {
  y_kernel : kernel;
  y_server : ServerActor;
  y_mail : list msg;
  y_alive : bool;
  (** the connection actors spawned, and how many were told to welcome *)
  y_connections : list ConnectionActor;
  y_welcomed : nat
}.
Arguments mkSystem {S}. Arguments y_kernel {S}. Arguments y_server {S}. Arguments y_mail {S}.
Arguments y_alive {S}. Arguments y_connections {S}. Arguments y_welcomed {S}.

Section system.
Context {S : Socket} {N : Net S}.

(** [run] has sent [StartServer] to a new server. *)
Definition system_new (k : kernel) (mud : MudConfig) : system S :=
  mkSystem k (ServerActor_new mud) [StartServer] true [] 0.

(** The messages a handler sends to its own actor. *)
Definition to_self (e : list effect) : list msg :=
  omap (λ e, match e with Send RServer m => Some m | _ => None end) e.

Definition exits (e : list effect) : bool := bool_decide (SendExit RServer ∈ e).
Definition welcomes (e : list effect) : nat := count_eq (Send RConnection PerformWelcome) e.

(** The main program asks for the end, or the server handles a message. *)
Inductive event := Goodbye | Handle (uninit : sockaddr_in) (id : Z).

Definition server_exec (ev : event) (y : system S) : option (outcome (system S)) :=
  match ev with
  | Goodbye =>
      Some (Ret (mkSystem (y_kernel y) (y_server y)
        (if y_alive y then y_mail y ++ [GoodbyeServer] else y_mail y) (y_alive y)
        (y_connections y) (y_welcomed y)))
  | Handle uninit id =>
      match y_alive y, y_mail y with
      | true, m :: ms => Some
          (h ← server_handle (y_kernel y) uninit id (y_server y) m;
           let e := h_effects h in
           Ret (mkSystem (h_kernel h) (h_state h)
             (if exits e then [] else ms ++ to_self e) (negb (exits e))
             (y_connections y ++ match h_spawned h with Some (c, _) => [c] | None => [] end)
             (y_welcomed y + welcomes e)))
      | _, _ => None
      end
  end.

Inductive server_step (y : system S) : system S → Prop :=
  | server_step_exec ev y' : server_exec ev y = Some (Ret y') → server_step y y'.

Definition server_reachable (k : kernel) (mud : MudConfig) (y : system S) : Prop :=
  rtc server_step (system_new k mud) y.

(** The phases of a server: not started, listening, failed, gone. *)
Inductive phase (y : system S) : Prop :=
  | starting n : y_alive y = true → y_mail y = StartServer :: replicate n GoodbyeServer →
      y_connections y = [] → y_welcomed y = 0%nat → phase y
  | listening n n' : y_alive y = true → 0 < m_sockfd (y_server y) →
      y_mail y = replicate n GoodbyeServer ++ AcceptConnection :: replicate n' GoodbyeServer →
      y_welcomed y = length (y_connections y) →
      Forall (λ c, 0 < m_connection c) (y_connections y) → phase y
  | failed n : y_alive y = true → y_mail y = replicate n GoodbyeServer →
      y_connections y = [] → y_welcomed y = 0%nat → phase y
  | gone : y_alive y = false → m_sockfd (y_server y) = 0 → y_mail y = [] →
      y_welcomed y = length (y_connections y) →
      Forall (λ c, 0 < m_connection c) (y_connections y) → phase y.

Context {NL : NetLaws N}.

Lemma replicate_snoc {A} n (x : A) : replicate n x ++ [x] = replicate (Datatypes.S n) x.
Proof. symmetry. apply replicate_cons_app. Qed.

(** Starting ends in listening, with a positive descriptor, or in failure,
    with a status that is not 0. *)
Lemma start_handle_cases k uninit st :
  let h := start_handle k uninit st in
  h_spawned h = None ∧
  ((h_effects h = [] ∧ ∃ n, h_reply h = Status n ∧ n ≠ 0) ∨
   (h_effects h = [Send RServer AcceptConnection] ∧ 0 < m_sockfd (h_state h) ∧ h_reply h = Status 0)).
Proof.
  assert (∀ k, errno k ≠ 0) as He by (intros k0; pose proof (errno_positive k0); lia).
  unfold start_handle. destruct (socket k) as [k1 fd] eqn:E. cbn [m_sockfd].
  case_decide as Hfd; cbn [h_spawned h_effects h_reply]; [by eauto 6|].
  destruct (bind _ _ _) as [k2 r]. case_decide; cbn [h_spawned h_effects h_reply]; [by eauto 6|].
  destruct (listen _ _ _) as [k3 r']. case_decide; cbn [h_spawned h_effects h_reply h_state m_sockfd]; [by eauto 6|].
  split; [done|]. right. split_and!; [done| |done]. destruct (socket_fd _ _ _ E); [done|done].
Qed.

(** Accepting never fails, and goes on. *)
Lemma accept_handle_cases k uninit id st :
  0 < m_sockfd st →
  returns (accept_handle k uninit id st) (λ h, h_state h = st ∧
    ((h_effects h = [Send RServer AcceptConnection] ∧ h_spawned h = None) ∨
     (h_effects h = [Send RConnection PerformWelcome; Send RServer AcceptConnection] ∧
      ∃ c e, h_spawned h = Some (c, e) ∧ 0 < m_connection c))).
Proof.
  intros Hst. unfold accept_handle. rewrite decide_False by lia.
  destruct (accept _ _ _) as [k1 c_id] eqn:E. case_decide as Hc; [apply returns_Ret; eauto|].
  destruct (accept_fd _ _ _ _ _ E) as [|Hpos]; [done|].
  unfold connection_new, CommStatic. rewrite decide_False by lia. cbn [mbind outcome_bind].
  destruct (and_then _ _ _) as [k2 b]. cbn [mbind outcome_bind]. apply returns_Ret.
  split; [done|]. right. split; [done|]. by eexists _, _.
Qed.

Lemma server_exec_phase ev y r :
  phase y → server_exec ev y = Some r → ∃ y', r = Ret y' ∧ phase y'.
Proof.
  intros Hy. destruct ev as [|uninit id]; cbn [server_exec].
  { intros [= <-]. eexists. split; [done|]. destruct Hy as [n Ha Hm Hc Hw|n n' Ha Hs Hm Hw Hc|n Ha Hm Hc Hw|Ha Hs Hm Hw Hc];
      rewrite Ha, Hm.
    - apply (starting _ (Datatypes.S n)); cbn [y_alive y_mail y_connections y_welcomed]; try done.
      cbn [app]. by rewrite replicate_snoc.
    - apply (listening _ n (Datatypes.S n')); try done. cbn [y_mail]. rewrite <-app_assoc. cbn [app].
      by rewrite replicate_snoc.
    - apply (failed _ (Datatypes.S n)); try done. cbn [y_mail]. by rewrite replicate_snoc.
    - by apply gone. }
  destruct Hy as [n Ha Hm Hc Hw|n n' Ha Hs Hm Hw Hc|n Ha Hm Hc Hw|Ha Hs Hm Hw Hc]; rewrite Ha, ?Hm; cbn [app replicate].
  - intros [= <-]. cbn [server_handle mbind outcome_bind].
    destruct (start_handle_cases (y_kernel y) uninit (y_server y)) as [Hsp [[He _]|(He & Hpos & _)]];
      rewrite Hsp, He, Hc, Hw; (eexists; split; [done|]).
    + apply (failed _ n); try done. cbn. by rewrite app_nil_r.
    + apply (listening _ n 0); try done.
  - destruct n as [|n]; cbn [app replicate].
    + intros [= <-]. cbn [server_handle].
      destruct (accept_handle_cases (y_kernel y) uninit id (y_server y) Hs)
        as (h & -> & Est & [[He Hsp]|(He & c & e & Hsp & Hpos)]);
        cbn [mbind outcome_bind]; rewrite He, Hsp; (eexists; split; [done|]);
        (apply (listening _ n' 0); cbn [y_alive y_server y_mail y_connections y_welcomed]; try done).
      * by rewrite Est.
      * by rewrite app_nil_r, Hw, Nat.add_0_r.
      * by rewrite app_nil_r.
      * by rewrite Est.
      * rewrite length_app, Hw. done.
      * apply Forall_app. by repeat constructor.
    + intros [= <-]. cbn [server_handle mbind outcome_bind]. eexists. split; [done|].
      apply gone; cbn; try done; by rewrite app_nil_r, ?Nat.add_0_r.
  - destruct n as [|n]; [done|]. intros [= <-]. cbn [server_handle mbind outcome_bind replicate]. eexists. split; [done|].
    rewrite Hc, Hw. by apply gone.
  - done.
Qed.

Lemma reachable_phase k mud y : server_reachable k mud y → phase y.
Proof.
  intros Hr. unfold server_reachable in Hr. assert (phase (system_new k mud)) as H0 by by apply (starting _ 0).
  revert H0. induction Hr as [|y1 y2 y3 [ev y2' He] _ IH]; [done|]. intros H1. apply IH.
  destruct (server_exec_phase ev y1 _ H1 He) as (y' & [= <-] & H2). done.
Qed.
End system.

(** ** Names in the registry *)
Definition registry_name (id : Z) : string := ("Connection(" +:+ pretty id +:+ ")")%string.

Lemma prefix_append s t : String.prefix s (s +:+ t)%string = true.
Proof.
  induction s as [|c s IH]; [by destruct t|]. rewrite append_cons. cbn.
  destruct (Ascii.ascii_dec c c); [exact IH|done].
Qed.

Lemma all_digits_spec s : all_digits s = true ↔ Forall (.∈ digit_chars) (to_list s).
Proof.
  induction s as [|c s IH]; cbn [all_digits String.list_ascii_of_string]; [by rewrite Forall_nil|].
  rewrite Forall_cons, <-IH, andb_true_iff, bool_decide_eq_true. done.
Qed.

(** The test is the regular expression. *)
Lemma is_connection_name_spec s :
  is_connection_name s = true ↔
  ∃ ds, s = ("Connection(" +:+ ds +:+ ")")%string ∧ ds ≠ "" ∧ Forall (.∈ digit_chars) (to_list ds).
Proof.
  unfold is_connection_name. rewrite !andb_true_iff, !bool_decide_eq_true, all_digits_spec. split.
  - intros (Hp & (Hne & Hd) & Hc). apply prefix_split in Hp as [rest ->].
    change 11%nat with (String.length "Connection(") in *. rewrite sdrop_length in *.
    exists (stake (String.length rest - 1) rest). split_and!; [|done|done].
    f_equal. by rewrite <-(stake_sdrop (String.length rest - 1) rest) at 1; rewrite Hc.
  - intros (ds & -> & Hne & Hd). split; [apply prefix_append|].
    change 11%nat with (String.length "Connection("). rewrite sdrop_length, length_append. cbn [String.length].
    replace (String.length ds + 1 - 1)%nat with (String.length ds) by lia.
    rewrite stake_length, sdrop_length. done.
Qed.

Lemma pretty_nonempty (z : Z) : 0 ≤ z → pretty z ≠ "".
Proof.
  intros Hz. rewrite pretty_Z_nonneg by done. unfold pretty, pretty_N. case_decide as Hn; [done|].
  rewrite pretty_N_go_step by lia. intros E.
  assert (∀ x s, s ≠ "" → pretty_N_go x s ≠ "") as H.
  { intros x. induction x as [x IH] using (well_founded_ind N.lt_wf_0). intros s Hs.
    assert (x = 0 ∨ 0 < x)%N as [->|Hx] by lia; [done|].
    rewrite pretty_N_go_step by done. apply IH; [apply N.div_lt; lia|done]. }
  by apply H in E.
Qed.

Lemma registry_name_matches id : 0 ≤ id → is_connection_name (registry_name id) = true.
Proof.
  intros Hid. apply is_connection_name_spec. exists (pretty id). split_and!; [done|by apply pretty_nonempty|].
  rewrite pretty_Z_nonneg by done. apply pretty_N_digits.
Qed.

#[export] Instance registry_name_inj : Inj (=) (=) registry_name.
Proof.
  intros id id' E. apply append_inj_r in E. apply (f_equal to_list) in E. rewrite !to_list_append in E.
  apply app_inj_tail in E as [E _]. apply to_list_inj in E. by apply (inj pretty) in E.
Qed.

(** ** Main theorems *)


(** Shutting down. When the server has started, or the request to start
    it failed, and SIGINT arrives, [run] tells every connection actor in the
    registry to say goodbye, and no other actor, whatever else is registered
    and in whatever order; its result is whether the server answered. A
    start that fails with a status ends [run] at once. Every connection actor
    is in the registry under a name of its own. *)
Theorem run_closes_connections {S : Socket} (ids : list Z) (named others : list (string * Z)) start statuses kill :
  Forall (λ id, 0 ≤ id) ids → NoDup ids →
  named ≡ₚ ((λ id, (registry_name id, id)) <$> ids) ++ others →
  Forall (λ p, is_connection_name p.1 = false) others → SIGINT ∈ statuses →
  (start = Failed ∨ start = Answered 0 →
    returns (run start statuses named kill) (λ r, r.1 = kill_server kill ∧ r.2 ≡ₚ ids)) ∧
  (∀ n, start = Answered n → n ≠ 0 → run start statuses named kill = Ret (false, [])) ∧
  NoDup (registry_name <$> ids) ∧
  (∀ k welcome fd id r, connection_new k welcome fd id = Ret r →
    m_registery_id r.1.2 = registry_name id ∧ RegistryPut (registry_name id) ∈ r.2).
Proof.
  intros Hids Hd Hnamed Hothers Hsig. split_and!.
  - intros Hstart. unfold run. assert (start_server start = 0) as -> by by destruct Hstart as [->| ->].
    rewrite decide_False by lia.
    assert (wait_for_signal statuses = Ret ()) as ->.
    { clear -Hsig. induction statuses as [|s l IH]; [by apply elem_of_nil in Hsig|]. cbn [wait_for_signal].
      case_decide; [done|]. apply IH. by apply elem_of_cons in Hsig as [?|?]. }
    cbn [mbind outcome_bind]. apply returns_Ret. split; [done|]. cbn [snd]. unfold quit_connection_actors.
    rewrite Hnamed, omap_app.
    assert (omap (λ p : string * Z, if is_connection_name p.1 then Some p.2 else None) others = []) as ->.
    { clear -Hothers. induction Hothers as [|p l Hp _ IH]; [done|]. cbn. by rewrite Hp. }
    rewrite app_nil_r. clear -Hids. induction Hids as [|id l Hid _ IH]; [done|].
    cbn [fmap list_fmap omap list_omap fst snd]. rewrite registry_name_matches by done. by f_equiv.
  - intros n -> Hn. unfold run. by rewrite decide_True.
  - by apply (NoDup_fmap_2 registry_name).
  - intros k welcome fd id [[k' c] e] H. unfold connection_new in H.
    apply bind_Ret_inv in H as (comm & _ & H). destruct (and_then _ _ _) as [k2 b].
    injection H as _ <- <-. cbn. split; [done|]. unfold registry_name. set_solver.
Qed.

(** ** Witnesses *)

(** A system on which each chunk of input is a connection waiting. *)
#[export] Instance ScriptNet : Net Script := {|
  socket k := (k, 3);
  fcntl_getfl _ _ := 2;
  fcntl_setfl k _ _ := k;
  bind k _ _ := (k, 0);
  listen k _ _ := (k, 0);
  accept k _ _ := match k.1 with [] => (k, -1) | _ :: rest => ((rest, k.2), 5) end;
  errno _ := 11;
  sleep_20ms k := k;
  inet_aton _ := Some 0;
  O_NONBLOCK := 2048;
  EWOULDBLOCK := 11;
  EAGAIN := 11
|}.

#[export] Instance ScriptNet_laws : NetLaws ScriptNet.
Proof.
  split; cbn; intros; simplify_eq; [by right| |done].
  match goal with H : _ = (_, c) |- _ => revert H end. destruct (k.1); intros; simplify_eq; [by left|by right].
Qed.

Fixpoint server_run {S : Socket} {N : Net S} (evs : list event) (y : system S) : option (system S) :=
  match evs with
  | [] => Some y
  | ev :: evs => match server_exec ev y with Some (Ret y') => server_run evs y' | _ => None end
  end.

Lemma server_run_reachable {S : Socket} {N : Net S} k mud evs y y' :
  server_reachable k mud y → server_run evs y = Some y' → server_reachable k mud y'.
Proof.
  revert y. induction evs as [|ev evs IH]; intros y Hy Hr; cbn in Hr; [by injection Hr as <-|].
  destruct (server_exec ev y) as [[y1| | |]|] eqn:E; try done.
  apply (IH y1); [|done]. eapply rtc_r; [done|]. by econstructor.
Qed.

Definition sample_config : MudConfig := mkMudConfig "Primordia" "0.0.0.0" 1999 64 "console" "info" "" false.
Definition sample_kernel : script := ([[104]; [105]], "").
Definition sample_events : list event :=
  let h := Handle (mkSockaddr 0 0) in [h 1; h 2; h 3; Goodbye; h 4].


Lemma run_closes_connections_witness :
  returns (run Failed [0; SIGINT] [("Connection(7)", 7); ("logger", 1); ("Connection(12)", 12)] (Answered true))
    (λ r, r.1 = true ∧ r.2 ≡ₚ [7; 12]).
Proof.
  assert (Forall (λ id, 0 ≤ id) [7; 12]) as H1 by (repeat constructor; discriminate).
  assert (NoDup [7; 12]) as H2 by (refine (bool_decide_unpack _ _); vm_compute; exact I).
  assert ([("Connection(7)", 7); ("logger", 1); ("Connection(12)", 12)] ≡ₚ
    ((λ id, (registry_name id, id)) <$> [7; 12]) ++ [("logger", 1)]) as H3.
  { change ([("Connection(7)", 7); ("logger", 1); ("Connection(12)", 12)] ≡ₚ
      [("Connection(7)", 7); ("Connection(12)", 12); ("logger", 1)]). apply perm_skip, perm_swap. }
  assert (Forall (λ p : string * Z, is_connection_name p.1 = false) [("logger", 1)]) as H4 by by repeat constructor.
  assert (SIGINT ∈ [0; SIGINT]) as H5 by (right; left).
  apply (run_closes_connections (S := Script) [7; 12] _ [("logger", 1)] Failed [0; SIGINT] (Answered true) H1 H2 H3 H4 H5).
  left. reflexivity.
Defined.

(** A request to start that times out counts as a start. *)
Example start_timeout : start_server Failed = 0.
Proof. reflexivity. Qed.
