(* ===== verification/Dispatch.v ===== *)
(** * Messages between the actors, and that a session settles

    Which messages each actor has a handler for, that no message is ever sent
    to an actor without one, and that what happens in a session between two
    inputs comes to an end, with every input handled. *)
From S2P Require Import Prelude.
From S2P Require Import Text.
From S2P Require Import Security.
From S2P Require Import Comm.
From S2P Require Import Controllers.
From S2P Require Import Connection.
From S2P Require Import Session.
From S2P Require Import Server.

(** ** The behaviours: the messages with a handler *)
Definition command_behavior (m : msg) : bool :=
  match m with
  | PerformWelcome | OnUserInput _ | ToUserPrompt _ | ToUserEmit _ | LoginControllerEnd => true
  | _ => false
  end.

Definition login_behavior (m : msg) : bool :=
  match m with LoginControllerStart | OnUserInput _ => true | _ => false end.

Definition default_behavior (m : msg) : bool := match m with OnUserInput _ => true | _ => false end.

Definition connection_behavior (m : msg) : bool :=
  match m with
  | PerformWelcome | ToUserEmit _ | ToUserPrompt _ | FromUserGetInput | GoodbyeConnection => true
  | _ => false
  end.

Definition recorder_behavior (m : msg) : bool :=
  match m with EventUserCreate _ _ | EventUserLogin _ | EventUserLogout _ => true | _ => false end.

(** Of the messages of [StorageActor] only this one is sent between actors. *)
Definition storage_behavior (m : msg) : bool := match m with StorageEventStore _ _ => true | _ => false end.

Definition server_behavior (m : msg) : bool :=
  match m with StartServer | AcceptConnection | GoodbyeServer => true | _ => false end.

(** ** Specification *)
Definition handles (a : ref) : msg → bool :=
  match a with
  | RConnection => connection_behavior
  | RCommand => command_behavior
  | RLogin => login_behavior
  | RDefault => default_behavior
  | REvents => recorder_behavior
  | RStorage => storage_behavior
  | RServer => server_behavior
  end.

(** The message of an effect has a handler where it goes. *)
Definition understood (e : effect) : Prop := match e with Send a m => handles a m = true | _ => True end.
#[export] Instance understood_dec e : Decision (understood e).
Proof. destruct e; cbn; apply _. Defined.

(** Every message that is waiting, left to send or delivered in a session. *)
Record understood_session (s : session) : Prop := {
  u_command : Forall (λ m, command_behavior m = true) (a_mail (s_command s));
  u_login : Forall (λ m, login_behavior m = true) (a_mail (s_login s));
  u_default : Forall (λ m, default_behavior m = true) (a_mail (s_default s));
  u_user : Forall (λ m, connection_behavior m = true) (s_user s);
  u_events : Forall (λ m, recorder_behavior m = true) (s_events s);
  u_command_out : Forall understood (a_out (s_command s));
  u_login_out : Forall understood (a_out (s_login s));
  u_default_out : Forall understood (a_out (s_default s))
}.

(** The steps of the actors themselves. *)
Definition is_input (l : label) : bool := match l with Input _ => true | _ => false end.

Definition internal (uninit extra : list Z) (s s' : session) : Prop :=
  ∃ l, is_input l = false ∧ exec uninit extra l s = Some (Ret s').

(** Nothing is left to do: every message has been handled or was for an actor
    that has stopped, everything has been sent, and who was told to exit has. *)
Definition idle {A} (a : actor A) : Prop := a_out a = [] ∧ (a_alive a = true → a_mail a = []).
Definition stopped {A} (a : actor A) : Prop := a_alive a = true → a_exit a = false.

Definition settled (s : session) : Prop :=
  idle (s_command s) ∧ idle (s_login s) ∧ idle (s_default s) ∧ stopped (s_login s) ∧ stopped (s_default s).

(** A bound on the steps a message, an effect and a session still cause. *)
Definition message_weight (a : ref) (m : msg) : nat :=
  match a, m with
  | RCommand, (ToUserPrompt _ | ToUserEmit _) => 2
  | RCommand, LoginControllerEnd => 3
  | RCommand, PerformWelcome => 8
  | RCommand, OnUserInput _ => 24
  | RLogin, LoginControllerStart => 4
  | RLogin, OnUserInput _ => 18
  | RDefault, OnUserInput _ => 22
  | (RCommand | RLogin | RDefault), _ => 1
  | _, _ => 0
  end.

Definition effect_weight (e : effect) : nat :=
  match e with Send a m => S (message_weight a m) | Spawn _ => 2 | _ => 1 end.

Definition actor_weight {A} (r : ref) (a : actor A) : nat :=
  sum_list_with (message_weight r) (a_mail a) + sum_list_with effect_weight (a_out a) + (if a_alive a then 1 else 0).

Definition weight (s : session) : nat :=
  actor_weight RCommand (s_command s) + actor_weight RLogin (s_login s) + actor_weight RDefault (s_default s).

(** ** Messages have handlers *)
Ltac each := solve [repeat (apply Forall_cons_2; [done|]); apply Forall_nil_2].

Section messages.
Context (uninit extra : list Z).

Lemma default_understood m : Forall understood (default_handle m).
Proof. destruct m; cbn [default_handle]; repeat case_decide; each. Qed.

Lemma login_understood d st m st' e : login_handle uninit extra d st m = Ret (st', e) → Forall understood e.
Proof.
  destruct m; cbn [login_handle]; try (intros [= <- <-]; each).
  repeat case_decide; try (intros [= <- <-]; each).
  destruct (hash_and_scrub_password uninit extra d st) as [[st1 h]| | |]; try done.
  cbn [mbind outcome_bind]. intros [= <- <-]. each.
Qed.

Lemma command_understood st m st' e : command_handle st m = Ret (st', e) →
  (∀ c, m_active_controller st = Some c → c = RLogin ∨ c = RDefault) → Forall understood e.
Proof.
  intros E Hc. destruct m; cbn [command_handle] in E; try (injection E as <- <-; each).
  - destruct (m_active_controller st) as [c|]; simplify_eq; [|each].
    apply Forall_cons_2; [|each]. by destruct (Hc c eq_refl) as [-> | ->].
  - destruct (m_active_controller st) as [c|]; simplify_eq. each.
Qed.

Lemma recorder_understood m : Forall understood (event_recorder_handle m).
Proof. destruct m; cbn [event_recorder_handle]; each. Qed.

Lemma connection_understood {S : Socket} k st m k' st' e :
  connection_handle k st m = Ret (k', st', e) → Forall understood e.
Proof.
  destruct m; cbn [connection_handle]; try (intros [= <- <- <-]; each);
    try (destruct (CommStatic _); cbn [mbind outcome_bind]; [|done..]).
  - destruct (has_data _ _); [|intros [= <- <- <-]; each].
    destruct (read_from_user _ _) as [[[k1 n] text]| | |]; cbn [mbind outcome_bind]; [|done..].
    unfold on_read. repeat case_decide; intros [= <- <- <-]; each.
  - case_decide; [|intros [= <- <- <-]; each].
    destruct (CommStatic _); cbn [mbind outcome_bind]; [|done..].
    destruct (emit_line _ _ _) as [k1 ?]. destruct (emit_line k1 _ _) as [k2 ?]. intros [= <- <- <-]; each.
  - destruct (emit_prompt _ _ _). intros [= <- <- <-]; each.
  - destruct (emit_line _ _ _). intros [= <- <- <-]; each.
Qed.

Lemma server_understood {S : Socket} {N : Net S} k u id st m h :
  server_handle k u id st m = Ret h → Forall understood (h_effects h).
Proof.
  destruct m; cbn [server_handle]; try (intros [= <-]; each).
  - unfold accept_handle. case_decide; [intros [= <-]; each|].
    destruct (accept _ _ _). case_decide; [intros [= <-]; each|].
    destruct (connection_new _ _ _ _) as [[[? ?] ?]| | |]; cbn [mbind outcome_bind]; [|done..]. intros [= <-]. each.
  - unfold start_handle. intros [= <-]. destruct (socket k). case_decide; [each|].
    destruct (bind _ _ _). case_decide; [each|]. destruct (listen _ _ _). case_decide; each.
Qed.

Lemma mail_Forall {A} (P : msg → Prop) m (a : actor A) : Forall P (a_mail a) → P m → Forall P (a_mail (mail m a)).
Proof. intros Ha Hm. unfold mail. destruct (a_alive a); [|done]. cbn. apply Forall_app. split; [done|by each]. Qed.

Lemma perform_understood s e : understood_session s → understood e → understood_session (perform s e).
Proof.
  intros [U1 U2 U3 U4 U5 U6 U7 U8] He. destruct e as [[] m|[]|[]|n|n]; cbn in *;
    try (by split); split; cbn; rewrite ?mail_out; try done; try (by apply mail_Forall);
    apply Forall_app; (split; [done|by each]).
Qed.


Lemma exec_understood l s s' : inv s → understood_session s →
  exec uninit extra l s = Some (Ret s') → understood_session s'.
Proof.
  intros I U. pose proof U as [U1 U2 U3 U4 U5 U6 U7 U8]. destruct l as [i|[]|d|[]|[]]; cbn [exec]; try done.
  - intros [= <-]. exact (perform_understood s (Send RCommand (OnUserInput i)) U eq_refl).
  - destruct (a_alive (s_command s)), (a_out (s_command s)), (a_mail (s_command s)) as [|m ms] eqn:Em; try done.
    destruct (command_handle _ m) as [[st e]| | |] eqn:E; try done. intros [= <-].
    apply Forall_cons in U1 as [_ U1]. split; cbn; try done. eapply command_understood; [exact E|].
    intros c Hc. destruct (i_active _ I) as [J|[J|[J _]]]; rewrite J in Hc; simplify_eq; auto.
  - destruct (a_alive (s_default s)), (a_out (s_default s)), (a_mail (s_default s)) as [|m ms] eqn:Em; try done.
    intros [= <-]. apply Forall_cons in U3 as [_ U3]. split; cbn; try done. apply default_understood.
  - destruct (a_alive (s_login s)), (a_out (s_login s)), (a_mail (s_login s)) as [|m ms] eqn:Em; try done.
    destruct (login_handle _ _ _ _ m) as [[st e]| | |] eqn:E; try done. intros [= <-].
    apply Forall_cons in U2 as [_ U2]. split; cbn; try done. by eapply login_understood.
  - destruct (a_out (s_command s)) as [|e es] eqn:E; [done|]. intros [= <-].
    apply Forall_cons in U6 as [He Hes]. apply perform_understood; [|done]. by split.
  - destruct (a_out (s_login s)) as [|e es] eqn:E; [done|]. intros [= <-].
    apply Forall_cons in U7 as [He Hes]. apply perform_understood; [|done]. by split.
  - destruct (a_out (s_default s)) as [|e es] eqn:E; [done|]. intros [= <-].
    apply Forall_cons in U8 as [He Hes]. apply perform_understood; [|done]. by split.
  - destruct (_ && _); [|done]. intros [= <-]. by split.
  - destruct (_ && _); [|done]. intros [= <-]. by split.
Qed.

Lemma session_new_understood : understood_session session_new.
Proof. by split; each. Qed.
End messages.

(** ** Weights *)
Section weights.
Context (uninit extra : list Z).
Abbreviation effects_weight := (sum_list_with effect_weight).

Lemma default_lighter m : (effects_weight (default_handle m) < message_weight RDefault m)%nat.
Proof. destruct m; cbn [default_handle message_weight]; repeat case_decide; cbn; lia. Qed.

Lemma login_lighter d st m st' e : login_handle uninit extra d st m = Ret (st', e) →
  (effects_weight e < message_weight RLogin m)%nat.
Proof.
  destruct m; cbn [login_handle message_weight]; try (intros [= <- <-]; cbn; lia).
  repeat case_decide; try (intros [= <- <-]; cbn; lia).
  destruct (hash_and_scrub_password uninit extra d st) as [[st1 h]| | |]; try done.
  cbn [mbind outcome_bind]. intros [= <- <-]. cbn; lia.
Qed.

Lemma command_lighter st m st' e : command_handle st m = Ret (st', e) →
  (∀ c, m_active_controller st = Some c → c = RLogin ∨ c = RDefault) →
  (effects_weight e < message_weight RCommand m)%nat.
Proof.
  intros E Hc. destruct m; cbn [command_handle message_weight] in *; try (injection E as <- <-; cbn; lia).
  - destruct (m_active_controller st) as [c|]; simplify_eq; cbn; [|lia].
    destruct (Hc c eq_refl) as [-> | ->]; cbn; lia.
  - destruct (m_active_controller st) as [c|]; simplify_eq. cbn. lia.
Qed.

Lemma mail_weight {A} r m (a : actor A) : (actor_weight r (mail m a) ≤ actor_weight r a + message_weight r m)%nat.
Proof.
  unfold actor_weight, mail. destruct (a_alive a) eqn:E; cbn; rewrite ?E; [|lia].
  rewrite sum_list_with_app. cbn. lia.
Qed.

Lemma perform_weight s e : (weight (perform s e) < weight s + effect_weight e)%nat.
Proof.
  destruct e as [[] m|[]|[]|n|n]; unfold weight; cbn [perform set_command set_login set_default s_command s_login s_default effect_weight];
    try lia; try (pose proof (mail_weight RCommand m (s_command s)); lia);
    try (pose proof (mail_weight RLogin m (s_login s)); lia);
    try (pose proof (mail_weight RDefault m (s_default s)); lia);
    unfold actor_weight, request_exit; cbn; lia.
Qed.

(** Every step of an actor makes the session lighter. *)
Lemma exec_lighter l s s' : inv s → is_input l = false →
  exec uninit extra l s = Some (Ret s') → (weight s' < weight s)%nat.
Proof.
  intros I Hl. destruct l as [i|a|d|a|a]; cbn [exec]; [done|..].
  - destruct a; try done.
    + destruct (a_alive (s_command s)) eqn:Ea, (a_out (s_command s)) eqn:Eo, (a_mail (s_command s)) as [|m ms] eqn:Em; try done.
      destruct (command_handle _ m) as [[st e]| | |] eqn:E; try done. intros [= <-].
      assert (effects_weight e < message_weight RCommand m)%nat.
      { eapply command_lighter; [exact E|].
        intros c Hc. destruct (i_active _ I) as [J|[J|[J _]]]; rewrite J in Hc; simplify_eq; auto. }
      unfold weight, actor_weight. cbn -[message_weight]. rewrite Ea, Eo, Em. cbn -[message_weight]. lia.
    + destruct (a_alive (s_default s)) eqn:Ea, (a_out (s_default s)) eqn:Eo, (a_mail (s_default s)) as [|m ms] eqn:Em; try done.
      intros [= <-]. pose proof (default_lighter m). unfold weight, actor_weight. cbn -[message_weight]. rewrite Ea, Eo, Em. cbn -[message_weight]. lia.
  - destruct (a_alive (s_login s)) eqn:Ea, (a_out (s_login s)) eqn:Eo, (a_mail (s_login s)) as [|m ms] eqn:Em; try done.
    destruct (login_handle _ _ _ _ m) as [[st e]| | |] eqn:E; try done. intros [= <-].
    apply login_lighter in E. unfold weight, actor_weight. cbn -[message_weight]. rewrite Ea, Eo, Em. cbn -[message_weight]. lia.
  - destruct a; try done.
    + destruct (a_out (s_command s)) as [|e es] eqn:E; [done|]. intros [= <-].
      eapply Nat.lt_le_trans; [apply perform_weight|]. unfold weight, actor_weight. cbn -[effect_weight]. rewrite E. cbn -[effect_weight]. lia.
    + destruct (a_out (s_login s)) as [|e es] eqn:E; [done|]. intros [= <-].
      eapply Nat.lt_le_trans; [apply perform_weight|]. unfold weight, actor_weight. cbn -[effect_weight]. rewrite E. cbn -[effect_weight]. lia.
    + destruct (a_out (s_default s)) as [|e es] eqn:E; [done|]. intros [= <-].
      eapply Nat.lt_le_trans; [apply perform_weight|]. unfold weight, actor_weight. cbn -[effect_weight]. rewrite E. cbn -[effect_weight]. lia.
  - destruct a; try done.
    + destruct (a_alive (s_login s)) eqn:E; [|done]. destruct (_ && _); [|done]. intros [= <-].
      unfold weight, actor_weight. cbn. rewrite E. lia.
    + destruct (a_alive (s_default s)) eqn:E; [|done]. destruct (_ && _); [|done]. intros [= <-].
      unfold weight, actor_weight. cbn. rewrite E. lia.
Qed.
End weights.

(** ** Settling *)
Section settling.
Context (uninit extra : list Z).
Context (Hu : length uninit = 64%nat) (He : length extra = 64%nat).

Lemma internal_inv s s' : inv s → internal uninit extra s s' → inv s' ∧ (weight s' < weight s)%nat.
Proof.
  intros I (l & Hl & E). destruct (exec_inv uninit extra Hu He l s _ I E) as (s1 & [= <-] & I').
  split; [done|]. by eapply exec_lighter.
Qed.

(** An enabled step can be taken. *)
Lemma enabled_step s l r : inv s → is_input l = false → exec uninit extra l s = Some r →
  ∃ s', internal uninit extra s s'.
Proof.
  intros I Hl E. destruct (exec_inv uninit extra Hu He l s r I E) as (s1 & -> & _).
  exists s1, l. done.
Qed.

Lemma internal_or_settled s : inv s → settled s ∨ ∃ s', internal uninit extra s s'.
Proof.
  intros I. destruct (a_out (s_command s)) as [|e es] eqn:E1; [|right; eapply (enabled_step s (Flush RCommand)); [done|done|cbn; by rewrite E1]].
  destruct (a_out (s_login s)) as [|e es] eqn:E2; [|right; eapply (enabled_step s (Flush RLogin)); [done|done|cbn; by rewrite E2]].
  destruct (a_out (s_default s)) as [|e es] eqn:E3; [|right; eapply (enabled_step s (Flush RDefault)); [done|done|cbn; by rewrite E3]].
  destruct (decide (a_alive (s_command s) = true ∧ a_mail (s_command s) ≠ [])) as [[Ha Hm]|H1].
  { right. destruct (a_mail (s_command s)) eqn:Em; [done|].
    eapply (enabled_step s (Run RCommand)); [done|done|]. cbn. by rewrite Ha, E1, Em. }
  destruct (decide (a_alive (s_login s) = true ∧ a_mail (s_login s) ≠ [])) as [[Ha Hm]|H2].
  { right. destruct (a_mail (s_login s)) eqn:Em; [done|].
    eapply (enabled_step s (RunLogin first_draws)); [done|done|]. cbn. by rewrite Ha, E2, Em. }
  destruct (decide (a_alive (s_default s) = true ∧ a_mail (s_default s) ≠ [])) as [[Ha Hm]|H3].
  { right. destruct (a_mail (s_default s)) eqn:Em; [done|].
    eapply (enabled_step s (Run RDefault)); [done|done|]. cbn. by rewrite Ha, E3, Em. }
  destruct (decide (a_alive (s_login s) = true ∧ a_exit (s_login s) = true)) as [[Ha Hx]|H4].
  { right. eapply (enabled_step s (Stop RLogin)); [done|done|]. cbn. by rewrite Ha, Hx, E2. }
  destruct (decide (a_alive (s_default s) = true ∧ a_exit (s_default s) = true)) as [[Ha Hx]|H5].
  { right. eapply (enabled_step s (Stop RDefault)); [done|done|]. cbn. by rewrite Ha, Hx, E3. }
  left. unfold settled, idle, stopped. split_and!; try done; intros Ha; apply dec_stable; intros ?.
  - by apply H1.
  - by apply H2.
  - by apply H3.
  - apply H4. split; [done|by apply not_false_is_true].
  - apply H5. split; [done|by apply not_false_is_true].
Qed.

Lemma internal_bounded n s s' : inv s → nsteps (internal uninit extra) n s s' → (n + weight s' ≤ weight s)%nat.
Proof.
  intros I H. induction H as [s|n s1 s2 s3 H1 _ IH]; [lia|]. destruct (internal_inv s1 s2 I H1) as [I2 Hw].
  specialize (IH I2). lia.
Qed.

Lemma settles s : inv s → ∃ s', rtc (internal uninit extra) s s' ∧ settled s'.
Proof.
  induction s as [s IH] using (induction_ltof1 _ weight). unfold ltof in IH. intros I.
  destruct (internal_or_settled s I) as [Hs|[s1 H1]]; [by exists s|].
  destruct (internal_inv s s1 I H1) as [I1 Hw]. destruct (IH s1 Hw I1) as (s' & Hr & Hs). exists s'.
  split; [by eapply rtc_l|done].
Qed.
End settling.

(** A message without a handler changes nothing. *)
Lemma unhandled uninit extra m :
  (∀ st, command_behavior m = false → command_handle st m = Ret (st, [])) ∧
  (∀ st dist, login_behavior m = false → login_handle uninit extra dist st m = Ret (st, [])) ∧
  (default_behavior m = false → default_handle m = []) ∧
  (recorder_behavior m = false → event_recorder_handle m = []) ∧
  (∀ (S : Socket) k st, connection_behavior m = false → connection_handle k st m = Ret (k, st, [])) ∧
  (∀ (S : Socket) (N : Net S) k u id st, server_behavior m = false →
    server_handle k u id st m = Ret (mkHandled k st [] None NoReply)).
Proof. by destruct m. Qed.

(** ** Main theorems *)

(** C24. Messages are well typed: whatever the user types and however the
    actors of a session interleave, every message that waits in a mailbox, is
    left to send, or has reached the connection or the event recorder is one
    the recipient has a handler for; the handlers of the connection, of the
    server and of the event recorder send such messages only, in every state
    and for every answer of the network; a message without a handler would
    change nothing. *)
Theorem messages_understood uninit extra s :
  length uninit = 64%nat → length extra = 64%nat → reachable uninit extra s →
  understood_session s ∧
  (∀ (S : Socket) k st m k' st' e, connection_handle k st m = Ret (k', st', e) → Forall understood e) ∧
  (∀ (S : Socket) (N : Net S) k u id st m h, server_handle k u id st m = Ret h → Forall understood (h_effects h)) ∧
  (∀ m, Forall understood (event_recorder_handle m)) ∧
  (∀ m st, command_behavior m = false → command_handle st m = Ret (st, [])) ∧
  (∀ m st dist, login_behavior m = false → login_handle uninit extra dist st m = Ret (st, [])) ∧
  (∀ (S : Socket) k st m, connection_behavior m = false → connection_handle k st m = Ret (k, st, [])).
Proof.
  intros Hu He Hr. split.
  - unfold reachable in Hr. pose proof session_new_inv as I0. pose proof session_new_understood as U0.
    revert I0 U0. generalize session_new, Hr. clear Hr. intros s0 Hr I0 U0. induction Hr as [|s1 s2 s3 [l s2' Hl] _ IH]; [done|].
    destruct (exec_inv uninit extra Hu He l s1 _ I0 Hl) as (s' & [= <-] & I2).
    apply IH; [done|]. exact (exec_understood uninit extra l s1 _ I0 U0 Hl).
  - split; [intros; by eapply connection_understood|]. split; [intros; by eapply server_understood|].
    split; [apply recorder_understood|]. split; [intros m; apply (unhandled uninit extra m)|].
    split; [intros m st dist; apply (unhandled uninit extra m)|].
    intros S k st m. apply (unhandled uninit extra m).
Qed.

(** C10. A session settles: in every reachable session, whatever is waiting, the
    actors can take only a bounded number of steps before the next input
    (so no two of them keep each other busy), and they reach a state in which
    every message has been handled or was for an actor that has stopped,
    everything has been sent, and the log-in controller has stopped if it was
    told to; they are never stuck before that. *)
Theorem session_settles uninit extra s :
  length uninit = 64%nat → length extra = 64%nat → reachable uninit extra s →
  (∀ n s', nsteps (internal uninit extra) n s s' → (n ≤ weight s)%nat) ∧
  (∃ s', rtc (internal uninit extra) s s' ∧ settled s') ∧
  (∀ s', rtc (internal uninit extra) s s' → settled s' ∨ ∃ s'', internal uninit extra s' s'').
Proof.
  intros Hu He Hr. pose proof (reachable_inv uninit extra Hu He s Hr) as I. split_and!.
  - intros n s' Hn. pose proof (internal_bounded uninit extra Hu He n s s' I Hn). lia.
  - by apply settles.
  - intros s' Hs. apply internal_or_settled; [done..|]. clear Hr. induction Hs as [|s1 s2 s3 H12 _ IH]; [done|].
    apply IH. by apply (internal_inv uninit extra Hu He s1 s2).
Qed.

(** ** Witnesses *)
Lemma messages_understood_witness :
  ∃ s, reachable (replicate 64 0) (replicate 64 0) s ∧ length (s_user s) = 11%nat ∧ understood_session s.
Proof.
  destruct (Session.run (replicate 64 0) (replicate 64 0) sample_labels session_new) as [s|] eqn:E;
    [|pose proof sample_run as H; rewrite E in H; discriminate H].
  exists s. assert (reachable (replicate 64 0) (replicate 64 0) s) as Hr
    by (refine (run_reachable _ _ _ _ _ _ E); constructor).
  split; [done|]. split.
  - assert (length ∘ s_user <$> Session.run (replicate 64 0) (replicate 64 0) sample_labels session_new = Some 11%nat) as H
      by (vm_compute; reflexivity). rewrite E in H. cbn in H. congruence.
  - exact (proj1 (messages_understood (replicate 64 0) (replicate 64 0) s eq_refl eq_refl Hr)).
Defined.

(** After a name has been typed, the weight of the first message and of the
    input bounds what can happen. *)
Lemma session_settles_witness :
  ∃ s, reachable (replicate 64 0) (replicate 64 0) s ∧ weight s = 34%nat ∧
    ∃ s', rtc (internal (replicate 64 0) (replicate 64 0)) s s' ∧ settled s'.
Proof.
  exists (perform session_new (Send RCommand (OnUserInput "ann"))).
  assert (reachable (replicate 64 0) (replicate 64 0) (perform session_new (Send RCommand (OnUserInput "ann")))) as Hr.
  { eapply rtc_once, (step_exec _ _ _ (Input "ann")). done. }
  split; [done|]. split; [reflexivity|].
  exact (proj1 (proj2 (session_settles (replicate 64 0) (replicate 64 0) _ eq_refl eq_refl Hr))).
Defined.
