(* ===== verification/World.v ===== *)
(** * The whole server

    The main program, the server actor, for every accepted connection its
    connection actor and its session, the event recorder, the storage actor
    and the registry of named actors as one transition system over one
    operating system. Handlers run, and what they send is delivered, one at a
    time in every order; the main program is a thread that sends, waits for
    answers and lets go of the system the actors share. *)
From Stdlib Require Import String.
From stdpp Require Import strings.
From S2P Require Import Prelude.
From S2P Require Import Text.
From S2P Require Import Security.
From S2P Require Import Comm.
From S2P Require Import Controllers.
From S2P Require Import Connection.
From S2P Require Import Session.
From S2P Require Import Storage.
From S2P Require Import Redis.
From S2P Require Import Events.
From S2P Require Import Server.
From S2P Require Import Dispatch.

(** ** State *)

(** What was spawned for one connection. *)
Record client := mkClient {
  c_connection : actor ConnectionActor;
  c_session : session
}.

(** Where the main program is, in [run] and after it: in [start_server]; in
    the loop that waits for SIGINT; in [quit_connection_actors], with the
    actors it still has to tell; in [kill_server]; after the block that holds
    the system, with the result of [run]; at its end. *)
Inductive main_program :=
  | Starting
  | Waiting
  | Closing (rest : list nat)
  | Killing
  | Leaving (kill_result : bool)
  | Ended.

(** [caf_main] spawns storage and recorder, [run] the server. The clients are
    in the order of their connections. *)
Record world (K store : Type) := mkWorld {
  w_kernel : K;
  w_server : actor ServerActor;
  w_clients : list client;
  w_recorder : actor unit;
  w_storage : actor (option store);
  w_registry : gmap string nat;
  w_main : main_program;
  (** the last answer of the server *)
  w_reply : reply;
  (** whether the [MudSystem] object is there *)
  w_system : bool
}.
Arguments mkWorld {K store}. Arguments w_kernel {K store}. Arguments w_server {K store}.
Arguments w_clients {K store}. Arguments w_recorder {K store}. Arguments w_storage {K store}.
Arguments w_registry {K store}. Arguments w_main {K store}. Arguments w_reply {K store}.
Arguments w_system {K store}.

(** A new actor with nothing in its mailbox. *)
Definition spawned {A} (st : A) : actor A := mkActor st [] [] true false.

(** The actors that the constructor of a connection actor leaves: the command
    actor and the default controller. *)
Definition session_start : session :=
  mkSession (spawned (fst command_new)) (mkActor login_new [] [] false false) (spawned ()) [] [] [].

(** The exit functor of the command actor. *)
Definition stop_command (s : session) : session :=
  foldl perform (set_command s (set_dead (s_command s))) (command_exit (a_state (s_command s))).

(** An actor that has been told to exit and has nothing left to send. *)
Definition leaving {A} (a : actor A) : bool := a_alive a && a_exit a && bool_decide (a_out a = []).

(** Who takes a step. [ServerRuns] carries the uninitialised address and the
    identity of an actor that is spawned. *)
Inductive world_label :=
  | ServerRuns (uninit : sockaddr_in) (id : Z)
  | ServerSends
  | ServerStops
  | ConnectionRuns (i : nat)
  | ConnectionSends (i : nat)
  | ConnectionStops (i : nat)
  | CommandStops (i : nat)
  | SessionSteps (i : nat) (l : label)
  | RecorderRuns
  | RecorderSends
  | StorageRuns
  | MainSteps (fails : bool)          (** the main program goes on; a request of it may fail *)
  | SystemEnds                        (** nobody refers to the [MudSystem] any more *)
  | StorageStops
  | RecorderStops.

Definition mails {A} (ms : list msg) (a : actor A) : actor A := foldl (λ a m, mail m a) a ms.

Section world.
Context {S : Socket} {N : Net S} {store : Type} {St : Storage store}.
Context (uninit extra : list Z).

Abbreviation W := (world kernel store).

Definition set_client (i : nat) (c : client) (w : W) : W :=
  mkWorld (w_kernel w) (w_server w) (<[i := c]> (w_clients w)) (w_recorder w) (w_storage w) (w_registry w)
    (w_main w) (w_reply w) (w_system w).
Definition set_clients (l : list client) (w : W) : W :=
  mkWorld (w_kernel w) (w_server w) l (w_recorder w) (w_storage w) (w_registry w) (w_main w) (w_reply w) (w_system w).
Definition set_server (a : actor ServerActor) (w : W) : W :=
  mkWorld (w_kernel w) a (w_clients w) (w_recorder w) (w_storage w) (w_registry w) (w_main w) (w_reply w)
    (w_system w).
Definition set_recorder (a : actor unit) (w : W) : W :=
  mkWorld (w_kernel w) (w_server w) (w_clients w) a (w_storage w) (w_registry w) (w_main w) (w_reply w) (w_system w).
Definition set_storage (a : actor (option store)) (w : W) : W :=
  mkWorld (w_kernel w) (w_server w) (w_clients w) (w_recorder w) a (w_registry w) (w_main w) (w_reply w) (w_system w).
Definition set_kernel (k : kernel) (w : W) : W :=
  mkWorld k (w_server w) (w_clients w) (w_recorder w) (w_storage w) (w_registry w) (w_main w) (w_reply w)
    (w_system w).
Definition set_registry (r : gmap string nat) (w : W) : W :=
  mkWorld (w_kernel w) (w_server w) (w_clients w) (w_recorder w) (w_storage w) r (w_main w) (w_reply w) (w_system w).
Definition set_main (m : main_program) (w : W) : W :=
  mkWorld (w_kernel w) (w_server w) (w_clients w) (w_recorder w) (w_storage w) (w_registry w) m (w_reply w)
    (w_system w).
Definition set_reply (r : reply) (w : W) : W :=
  mkWorld (w_kernel w) (w_server w) (w_clients w) (w_recorder w) (w_storage w) (w_registry w) (w_main w) r
    (w_system w).
Definition set_system (b : bool) (w : W) : W :=
  mkWorld (w_kernel w) (w_server w) (w_clients w) (w_recorder w) (w_storage w) (w_registry w) (w_main w)
    (w_reply w) b.

Definition set_connection (c : client) (a : actor ConnectionActor) : client := mkClient a (c_session c).
Definition set_session (c : client) (s : session) : client := mkClient (c_connection c) s.

(** The world before anything has happened: [run] has sent [StartServer]. *)
Definition world_new (k : kernel) (mud : MudConfig) (st : store) : W :=
  mkWorld k (mkActor (ServerActor_new mud) [StartServer] [] true false) [] (spawned ()) (spawned (Some st)) ∅
    Starting NoReply true.

(** ** Delivery *)

(** Mail for a connection actor. *)
Definition mail_connection (i : nat) (m : msg) (w : W) : W :=
  match w_clients w !! i with
  | Some c => set_client i (set_connection c (mail m (c_connection c))) w
  | None => w
  end.

(** The server knows the connection actor it has spawned last. *)
Definition mail_last (m : msg) (w : W) : W := mail_connection (pred (length (w_clients w))) m w.

Definition server_perform (w : W) (e : effect) : W :=
  match e with
  | Send RServer m => set_server (mail m (w_server w)) w
  | Send RConnection m => mail_last m w
  | SendExit RServer => set_server (request_exit (w_server w)) w
  | _ => w
  end.

Definition connection_perform (i : nat) (c : client) (w : W) (e : effect) : W :=
  match e with
  | Send RConnection m => set_client i (set_connection c (mail m (c_connection c))) w
  | Send RCommand m => set_client i (set_session c (perform (c_session c) (Send RCommand m))) w
  | SendExit RConnection => set_client i (set_connection c (request_exit (c_connection c))) w
  | RegistryErase name => set_registry (delete name (w_registry w)) w
  | _ => w
  end.

(** A new client: its name enters the registry. *)
Definition spawn_client (spawn : option (ConnectionActor * list effect)) (w : W) : W :=
  match spawn with
  | None => w
  | Some (conn, e) =>
      let i := length (w_clients w) in
      set_registry (foldl (λ r e, match e with RegistryPut name => <[name := i]> r | _ => r end) (w_registry w) e)
        (set_clients (w_clients w ++ [mkClient (spawned conn) session_start]) w)
  end.

(** The session of a client has taken a step: what it has sent goes to the
    connection actor and to the recorder. *)
Definition relay (i : nat) (c : client) (s : session) (w : W) : W :=
  let user := drop (length (s_user (c_session c))) (s_user s) in
  let events := drop (length (s_events (c_session c))) (s_events s) in
  set_recorder (mails events (w_recorder w))
    (set_client i (mkClient (mails user (c_connection c)) s) w).

(** No two actors have one identity. *)
Definition fresh_id (id : Z) (w : W) : Prop :=
  0 ≤ id ∧ Forall (λ c, m_registery_id (a_state (c_connection c)) ≠ registry_name id) (w_clients w).
#[export] Instance fresh_id_dec id w : Decision (fresh_id id w).
Proof. unfold fresh_id. apply _. Defined.

(** ** The main program *)

(** The answer of a handler, if it gives one. *)
Definition answered (r : reply) (w : W) : W := match r with NoReply => w | _ => set_reply r w end.

(** What [receive] calls: the handler of an answer that has come, or that of
    the error, when it takes too long or the server is gone. *)
Definition receive {A} (answer : reply → option A) (fails : bool) (w : W) : option (response A) :=
  if fails then Some Failed else Answered <$> answer (w_reply w).
Definition status_of (r : reply) : option Z := match r with Status n => Some n | _ => None end.
Definition terminated_of (r : reply) : option bool := match r with Terminated b => Some b | _ => None end.

(** The actors of the system: for a [MudSystem] to go, those that have a
    pointer to it have to be gone; [await_all_actors_done] waits for all. *)
Definition client_gone (c : client) : bool :=
  negb (a_alive (c_connection c)) && negb (a_alive (s_command (c_session c))) && negb (a_alive (s_login (c_session c))).
Definition users_gone (w : W) : bool := negb (a_alive (w_server w)) && forallb client_gone (w_clients w).
Definition all_actors_done (w : W) : bool :=
  users_gone w && forallb (λ c, negb (a_alive (s_default (c_session c)))) (w_clients w) &&
  negb (a_alive (w_recorder w)) && negb (a_alive (w_storage w)).

Definition main_exec (fails : bool) (w : W) : option W :=
  match w_main w with
  | Starting =>
      answer ← receive status_of fails w;
      Some (set_main (if decide (start_server answer = 0) then Waiting else Leaving false) w)
  | Waiting => Some (set_main (Closing (quit_connection_actors (map_to_list (w_registry w)))) w)
  | Closing (i :: rest) => Some (set_main (Closing rest) (mail_connection i GoodbyeConnection w))
  | Closing [] => Some (set_main Killing (set_server (mail GoodbyeServer (w_server w)) w))
  | Killing =>
      answer ← receive terminated_of fails w;
      Some (set_main (Leaving (kill_server answer)) w)
  | Leaving kill_result => if kill_result && negb (all_actors_done w) then None else Some (set_main Ended w)
  | Ended => None
  end.

(** The destructor of [MudSystem]; the main program has left the block that
    holds its own pointer. *)
Definition system_ends (w : W) : option W :=
  match w_main w with
  | Leaving _ | Ended =>
      if w_system w && users_gone w then
        let w := set_storage (request_exit (w_storage w)) w in
        Some (set_system false (set_recorder (request_exit (w_recorder w)) w))
      else None
  | _ => None
  end.

(** ** Steps; [None] when a label is not enabled *)
Definition world_exec (l : world_label) (w : W) : option (outcome W) :=
  match l with
  | ServerRuns sa id =>
      let a := w_server w in
      match a_alive a, a_out a, a_mail a with
      | true, [], m :: ms =>
          if decide (fresh_id id w) then Some
            (h ← server_handle (w_kernel w) sa id (a_state a) m;
             Ret (spawn_client (h_spawned h)
               (answered (h_reply h)
               (set_server (mkActor (h_state h) ms (h_effects h) true (a_exit a)) (set_kernel (h_kernel h) w)))))
          else None
      | _, _, _ => None
      end
  | ServerSends =>
      match a_out (w_server w) with
      | e :: es => Some (Ret (server_perform (set_server (set_out (w_server w) es) w) e))
      | [] => None
      end
  | ServerStops => if leaving (w_server w) then Some (Ret (set_server (set_dead (w_server w)) w)) else None
  | ConnectionRuns i =>
      c ← w_clients w !! i;
      let a := c_connection c in
      match a_alive a, a_out a, a_mail a with
      | true, [], m :: ms => Some
          ('(k, st, e) ← connection_handle (w_kernel w) (a_state a) m;
           Ret (set_client i (set_connection c (mkActor st ms e true (a_exit a))) (set_kernel k w)))
      | _, _, _ => None
      end
  | ConnectionSends i =>
      c ← w_clients w !! i;
      match a_out (c_connection c) with
      | e :: es =>
          let c := set_connection c (set_out (c_connection c) es) in
          Some (Ret (connection_perform i c (set_client i c w) e))
      | [] => None
      end
  | ConnectionStops i =>
      c ← w_clients w !! i;
      if leaving (c_connection c) then Some
        (Ret (set_client i (mkClient (set_dead (c_connection c)) (foldl perform (c_session c) connection_exit)) w))
      else None
  | CommandStops i =>
      c ← w_clients w !! i;
      if leaving (s_command (c_session c)) then Some (Ret (set_client i (set_session c (stop_command (c_session c))) w))
      else None
  | SessionSteps i l =>
      c ← w_clients w !! i;
      match l with
      | Input _ => None
      | _ => (λ r, s ← r; Ret (relay i c s w)) <$> Session.exec uninit extra l (c_session c)
      end
  | RecorderRuns =>
      let a := w_recorder w in
      match a_alive a, a_out a, a_mail a with
      | true, [], m :: ms => Some (Ret (set_recorder (mkActor () ms (event_recorder_handle m) true (a_exit a)) w))
      | _, _, _ => None
      end
  | RecorderSends =>
      match a_out (w_recorder w) with
      | e :: es =>
          let w := set_recorder (set_out (w_recorder w) es) w in
          Some (Ret match e with Send RStorage m => set_storage (mail m (w_storage w)) w | _ => w end)
      | [] => None
      end
  | StorageRuns =>
      let a := w_storage w in
      match a_alive a, a_mail a with
      | true, m :: ms => Some
          ('(st, _) ← storage_run (a_state a) (to_storage [Send RStorage m]);
           Ret (set_storage (mkActor st ms [] true (a_exit a)) w))
      | _, _ => None
      end
  | MainSteps fails => Ret <$> main_exec fails w
  | SystemEnds => Ret <$> system_ends w
  | StorageStops => if leaving (w_storage w) then Some (Ret (set_storage (set_dead (w_storage w)) w)) else None
  | RecorderStops => if leaving (w_recorder w) then Some (Ret (set_recorder (set_dead (w_recorder w)) w)) else None
  end.

(** The same steps as rules: what has to hold for a step, and where it leads
    ([world_exec_rules]). *)
Inductive world_rule (w : W) : world_label → W → Prop :=
  | rule_server_runs sa id m ms h :
      a_alive (w_server w) = true → a_out (w_server w) = [] → a_mail (w_server w) = m :: ms → fresh_id id w →
      server_handle (w_kernel w) sa id (a_state (w_server w)) m = Ret h →
      world_rule w (ServerRuns sa id) (spawn_client (h_spawned h) (answered (h_reply h)
        (set_server (mkActor (h_state h) ms (h_effects h) true (a_exit (w_server w))) (set_kernel (h_kernel h) w))))
  | rule_server_sends e es :
      a_out (w_server w) = e :: es →
      world_rule w ServerSends (server_perform (set_server (set_out (w_server w) es) w) e)
  | rule_server_stops :
      leaving (w_server w) = true → world_rule w ServerStops (set_server (set_dead (w_server w)) w)
  | rule_connection_runs i c m ms k st e :
      w_clients w !! i = Some c →
      a_alive (c_connection c) = true → a_out (c_connection c) = [] → a_mail (c_connection c) = m :: ms →
      connection_handle (w_kernel w) (a_state (c_connection c)) m = Ret (k, st, e) →
      world_rule w (ConnectionRuns i)
        (set_client i (set_connection c (mkActor st ms e true (a_exit (c_connection c)))) (set_kernel k w))
  | rule_connection_sends i c e es :
      w_clients w !! i = Some c → a_out (c_connection c) = e :: es →
      let c' := set_connection c (set_out (c_connection c) es) in
      world_rule w (ConnectionSends i) (connection_perform i c' (set_client i c' w) e)
  | rule_connection_stops i c :
      w_clients w !! i = Some c → leaving (c_connection c) = true →
      world_rule w (ConnectionStops i)
        (set_client i (mkClient (set_dead (c_connection c)) (foldl perform (c_session c) connection_exit)) w)
  | rule_command_stops i c :
      w_clients w !! i = Some c → leaving (s_command (c_session c)) = true →
      world_rule w (CommandStops i) (set_client i (set_session c (stop_command (c_session c))) w)
  | rule_session_steps i c l s :
      w_clients w !! i = Some c → is_input l = false → Session.exec uninit extra l (c_session c) = Some (Ret s) →
      world_rule w (SessionSteps i l) (relay i c s w)
  | rule_recorder_runs m ms :
      a_alive (w_recorder w) = true → a_out (w_recorder w) = [] → a_mail (w_recorder w) = m :: ms →
      world_rule w RecorderRuns (set_recorder (mkActor () ms (event_recorder_handle m) true (a_exit (w_recorder w))) w)
  | rule_recorder_sends e es :
      a_out (w_recorder w) = e :: es →
      let w1 := set_recorder (set_out (w_recorder w) es) w in
      world_rule w RecorderSends
        match e with Send RStorage m => set_storage (mail m (w_storage w1)) w1 | _ => w1 end
  | rule_storage_runs m ms st l :
      a_alive (w_storage w) = true → a_mail (w_storage w) = m :: ms →
      storage_run (a_state (w_storage w)) (to_storage [Send RStorage m]) = Ret (st, l) →
      world_rule w StorageRuns (set_storage (mkActor st ms [] true (a_exit (w_storage w))) w)
  | rule_main_steps fails w' : main_exec fails w = Some w' → world_rule w (MainSteps fails) w'
  | rule_system_ends w' : system_ends w = Some w' → world_rule w SystemEnds w'
  | rule_storage_stops :
      leaving (w_storage w) = true → world_rule w StorageStops (set_storage (set_dead (w_storage w)) w)
  | rule_recorder_stops :
      leaving (w_recorder w) = true → world_rule w RecorderStops (set_recorder (set_dead (w_recorder w)) w).

Inductive world_step (w : W) : W → Prop :=
  | world_step_exec l w' : world_exec l w = Some (Ret w') → world_step w w'.

Definition world_reachable (k : kernel) (mud : MudConfig) (st : store) (w : W) : Prop :=
  rtc world_step (world_new k mud st) w.
End world.

(** ** Specification *)

(** Texts that a C string can carry: what comes from a connection is. *)
Definition clean_msg (m : msg) : Prop :=
  match m with
  | OnUserInput i => plain i
  | EventUserCreate u text => plain u ∧ plain text
  | _ => True
  end.
Definition clean_effect (e : effect) : Prop := match e with Send _ m => clean_msg m | _ => True end.

Record clean_session (s : session) : Prop := {
  cl_command : Forall clean_msg (a_mail (s_command s));
  cl_login : Forall clean_msg (a_mail (s_login s));
  cl_default : Forall clean_msg (a_mail (s_default s));
  cl_command_out : Forall clean_effect (a_out (s_command s));
  cl_login_out : Forall clean_effect (a_out (s_login s));
  cl_default_out : Forall clean_effect (a_out (s_default s));
  cl_username : plain (username (a_state (s_login s)))
}.

(** A registration that can be stored. *)
Definition good_event (m : msg) : Prop := registration m ∧ clean_msg m.

(** What a connection actor with a name may have left to send. *)
Definition connection_sends (id : string) (e : effect) : Prop :=
  match e with
  | Send RCommand m => m ≠ LoginControllerEnd ∧ clean_msg m
  | Send RConnection _ | SendExit RConnection => True
  | RegistryErase name => name = id
  | _ => False
  end.

(** After its name has left the registry an actor still has to exit. *)
Fixpoint erase_exits (out : list effect) : Prop :=
  match out with
  | [] => True
  | RegistryErase _ :: es => SendExit RConnection ∈ es ∧ erase_exits es
  | _ :: es => erase_exits es
  end.

Definition registry_id (c : client) : string := m_registery_id (a_state (c_connection c)).

Record client_inv (c : client) : Prop := {
  ci_descriptor : 0 < m_connection (a_state (c_connection c));
  ci_session : inv (c_session c);
  ci_clean : clean_session (c_session c);
  ci_out : Forall (connection_sends (registry_id c)) (a_out (c_connection c));
  ci_erase : erase_exits (a_out (c_connection c));
  ci_leashed : leashed (c_session c);
  ci_gone : a_alive (c_connection c) = false → a_exit (s_command (c_session c)) = true;
  ci_events : Forall good_event (s_events (c_session c))
}.

(** A connection actor that is on its way out, or will be when it has sent
    what it has left to send. *)
Definition ending (c : client) : Prop :=
  a_exit (c_connection c) = true ∨ SendExit RConnection ∈ a_out (c_connection c).

(** The names in the registry are those of the actors that are there. *)
Record names_inv (clients : list client) (registry : gmap string nat) : Prop := {
  ni_distinct : NoDup (registry_id <$> clients);
  ni_names i c : clients !! i = Some c → ∃ id, 0 ≤ id ∧ registry_id c = registry_name id;
  ni_present i c : clients !! i = Some c → a_alive (c_connection c) = true →
    registry !! registry_id c = Some i ∨ ending c
}.

(** What the clients have registered, and what becomes of it. *)
Definition sent_events (clients : list client) : list msg := clients ≫= λ c, s_events (c_session c).
Definition to_store (m : msg) : list msg :=
  omap (λ e, match e with Send RStorage m => Some m | _ => None end) (event_recorder_handle m).
Definition entry_write (m : msg) : write :=
  match m with EventUserCreate u text => WXadd "events" (registration_entry u text) | _ => WDel "" end.
Definition recorder_sends (a : actor unit) : list msg :=
  omap (λ e, match e with Send RStorage m => Some m | _ => None end) (a_out a).

(** ** Lemmas on one client *)
Section client.
Context (uninit extra : list Z) (Hu : length uninit = 64%nat) (He : length extra = 64%nat).

Ltac each := solve [repeat (apply Forall_cons_2; [by cbn|]); apply Forall_nil_2].

Lemma sanitize_plain s : plain (sanitize s).
Proof.
  unfold plain, lacks. rewrite to_list_sanitize, list_elem_of_filter. intros [H _]. revert H. vm_compute. tauto.
Qed.

Lemma session_start_inv : inv session_start.
Proof.
  split; cbn; try done; try by left.
  - by intros ?%elem_of_nil.
  - intros pre post H. by destruct pre.
  - intros _. split_and!; try done. by intros ?%elem_of_nil.
Qed.

Lemma session_start_leashed : leashed session_start.
Proof. split; cbn; [by intros ?%elem_of_nil|done|done]. Qed.

Lemma session_start_clean : clean_session session_start.
Proof. split; try each. apply plain_literal. reflexivity. Qed.

Lemma mails_out {A} ms (a : actor A) : a_out (mails ms a) = a_out a.
Proof. unfold mails. revert a. induction ms as [|m ms IH]; intros a; cbn; [done|]. by rewrite IH, mail_out. Qed.
Lemma mails_state {A} ms (a : actor A) : a_state (mails ms a) = a_state a.
Proof. unfold mails. revert a. induction ms as [|m ms IH]; intros a; cbn; [done|]. by rewrite IH, mail_state. Qed.
Lemma mails_alive {A} ms (a : actor A) : a_alive (mails ms a) = a_alive a.
Proof. unfold mails. revert a. induction ms as [|m ms IH]; intros a; cbn; [done|]. by rewrite IH, mail_alive. Qed.
Lemma mails_exit {A} ms (a : actor A) : a_exit (mails ms a) = a_exit a.
Proof. unfold mails. revert a. induction ms as [|m ms IH]; intros a; cbn; [done|]. by rewrite IH, mail_exit. Qed.

Lemma mails_mail {A} ms (a : actor A) : a_alive a = true → a_mail (mails ms a) = a_mail a ++ ms.
Proof.
  unfold mails. revert a. induction ms as [|m ms IH]; intros a Ha; cbn; [by rewrite app_nil_r|].
  rewrite IH by by rewrite mail_alive. unfold mail. rewrite Ha. cbn. by rewrite <-app_assoc.
Qed.

Lemma mails_dead {A} ms (a : actor A) : a_alive a = false → mails ms a = a.
Proof.
  unfold mails. intros Ha. induction ms as [|m ms IH]; cbn; [done|]. unfold mail at 2. by rewrite Ha.
Qed.

Lemma mail_clean {A} m (a : actor A) : Forall clean_msg (a_mail a) → clean_msg m → Forall clean_msg (a_mail (mail m a)).
Proof. intros Ha Hm. unfold mail. destruct (a_alive a); [|done]. cbn. apply Forall_app. split; [done|by repeat constructor]. Qed.

(** One delivery. *)
Definition grows (s s' : session) : Prop :=
  ∃ us es, s_user s' = s_user s ++ us ∧ s_events s' = s_events s ++ es ∧ Forall good_event es.

Lemma grows_same s s' : s_user s' = s_user s → s_events s' = s_events s → grows s s'.
Proof. intros Eu Ee. exists [], []. rewrite Eu, Ee, !app_nil_r. done. Qed.

Lemma perform_clean s e :
  clean_session s → clean_effect e → (∀ m, e = Send REvents m → registration m) →
  clean_session (perform s e) ∧ grows s (perform s e).
Proof.
  intros [C1 C2 C3 C4 C5 C6 C7] He' Hr. destruct e as [[] m|[]|[]|n|n]; cbn in *;
    try (split; [by split|by apply grows_same]);
    try (split; [|by apply grows_same]; split; cbn; rewrite ?mail_out, ?mail_state; try done; by apply mail_clean).
  - split; [by split|]. exists [m], []. cbn. rewrite app_nil_r. done.
  - split; [by split|]. exists [], [m]. cbn. rewrite app_nil_r. split_and!; try done.
    apply Forall_singleton. split; [by apply Hr|done].
  - split; [|by apply grows_same]. split; cbn; try done. apply plain_literal. reflexivity.
Qed.

Lemma command_clean st m st' e : command_handle st m = Ret (st', e) → clean_msg m → Forall clean_effect e.
Proof.
  intros E Hm. destruct m; cbn in E; try (injection E as <- <-; each);
    destruct (m_active_controller st); (done || injection E as <- <-); each.
Qed.

Lemma default_clean m : Forall clean_effect (default_handle m).
Proof. destruct m; cbn; try each. repeat case_decide; each. Qed.

Lemma login_clean (d : draws) st m st' e :
  login_handle uninit extra d st m = Ret (st', e) → clean_msg m → plain (username st) →
  plain (username st') ∧ Forall clean_effect e.
Proof.
  intros E Hm Hst. pose proof (proj1 (login_handle_sends uninit extra Hu He d st m st' e E)) as Hs.
  destruct m; cbn [login_handle] in E; try (injection E as <- <-; split; [done|each]).
  repeat case_decide; try (injection E as <- <-; split; [done|each]).
  destruct (hash_and_scrub_password uninit extra d _) as [[st1 h]| | |] eqn:Eh; cbn [mbind outcome_bind] in E; try done.
  assert (username st1 = username st) as Eu.
  { unfold hash_and_scrub_password in Eh. destruct (generate_random_salt d); cbn in Eh; try done.
    destruct (hash_credentials _ _ _ _); cbn in Eh; try done. by injection Eh as <- <-. }
  injection E as <- <-. rewrite Eu in *. split; [done|]. cbn [app emit_user end_controller record_event_user_create] in *.
  assert (plain (to_string h)) as Hh.
  { rewrite Forall_forall in Hs. destruct (Hs (Send REvents (EventUserCreate (username st) (to_string h))))
      as [[? [=]]|(? & [= <-] & u & p & text & d' & [= _ ->] & _ & _ & Ht)]; [by do 4 right; left|]. by eapply stored_plain, Ht; apply draws_range. }
  each.
Qed.

Lemma flush_clean s e es (P : effect → Prop) :
  clean_session s → Forall clean_effect (e :: es) → Forall P (e :: es) →
  (∀ m, P (Send REvents m) → registration m) →
  clean_effect e ∧ Forall clean_effect es ∧ (∀ m, e = Send REvents m → registration m).
Proof.
  intros C [He' Hes]%Forall_cons [HP _]%Forall_cons Hr. split_and!; [done|done|]. intros m ->. by apply Hr.
Qed.

(** A step of a session sends clean registrations only. *)
Lemma exec_clean l s s' :
  inv s → clean_session s → is_input l = false → Session.exec uninit extra l s = Some (Ret s') →
  clean_session s' ∧ grows s s'.
Proof.
  intros I C. pose proof C as [C1 C2 C3 C4 C5 C6 C7]. pose proof I as [_ _ _ IL _ IC ID _ _ _].
  destruct l as [i|[]|d|[]|[]]; cbn [Session.exec is_input]; try done; intros _.
  - destruct (a_alive (s_command s)), (a_out (s_command s)), (a_mail (s_command s)) as [|m ms] eqn:Em; try done.
    destruct (command_handle _ m) as [[st e]| | |] eqn:E; try done. intros [= <-].
    apply Forall_cons in C1 as [Hm C1]. split; [|by apply grows_same]. split; cbn; try done. by eapply command_clean.
  - destruct (a_alive (s_default s)), (a_out (s_default s)), (a_mail (s_default s)) as [|m ms] eqn:Em; try done.
    intros [= <-]. apply Forall_cons in C3 as [Hm C3]. split; [|by apply grows_same]. split; cbn; try done.
    apply default_clean.
  - destruct (a_alive (s_login s)), (a_out (s_login s)), (a_mail (s_login s)) as [|m ms] eqn:Em; try done.
    destruct (login_handle _ _ _ _ m) as [[st e]| | |] eqn:E; try done. intros [= <-].
    apply Forall_cons in C2 as [Hm C2]. destruct (login_clean d _ m st e E Hm C7) as [Hst Hout].
    split; [|by apply grows_same]. by split.
  - destruct (a_out (s_command s)) as [|e es] eqn:E; [done|]. intros [= <-].
    destruct (flush_clean s e es _ C C4 IC) as (Hc & Hcs & Hr); [done|].
    apply (perform_clean (set_command s _)); [by split|done..].
  - destruct (a_out (s_login s)) as [|e es] eqn:E; [done|]. intros [= <-].
    destruct (flush_clean s e es _ C C5 IL) as (Hc & Hcs & Hr); [by intros m [[? [=]]|(? & [= ->] & ?)]|].
    apply (perform_clean (set_login s _)); [by split|done..].
  - destruct (a_out (s_default s)) as [|e es] eqn:E; [done|]. intros [= <-].
    destruct (flush_clean s e es _ C C6 ID) as (Hc & Hcs & Hr); [by intros m (? & [=] & _)|].
    apply (perform_clean (set_default s _)); [by split|done..].
  - destruct (_ && _); [|done]. intros [= <-]. split; [by split|by apply grows_same].
  - destruct (_ && _); [|done]. intros [= <-]. split; [by split|by apply grows_same].
Qed.

(** Exits change no more than who leaves. *)
Lemma send_exit_inv s a : inv s → inv (perform s (SendExit a)).
Proof. intros [I1 I2 I3 I4 I5 I6 I7 I8 I9 I10]. destruct a; by split. Qed.

Lemma send_exit_clean s a : clean_session s → clean_session (perform s (SendExit a)).
Proof. intros [C1 C2 C3 C4 C5 C6 C7]. destruct a; by split. Qed.

Lemma send_exit_leashed s a : leashed s → leashed (perform s (SendExit a)).
Proof. intros [L1 L2 L3]. destruct a; try by split. all: split; cbn; naive_solver. Qed.

Lemma dead_command_inv s : inv s → inv (set_command s (set_dead (s_command s))).
Proof.
  intros [I1 I2 I3 I4 I5 I6 I7 I8 I9 I10]. split; cbn; try done; [by intros ?%elem_of_nil|].
  intros Hn. destruct (I10 Hn) as (_ & J2 & J3 & _). split_and!; try done. by intros ?%elem_of_nil.
Qed.

Lemma stop_command_good s : inv s → clean_session s →
  inv (stop_command s) ∧ clean_session (stop_command s) ∧ s_events (stop_command s) = s_events s ∧
  s_user (stop_command s) = s_user s ∧ s_handled (stop_command s) = s_handled s.
Proof.
  intros I C. assert (∃ l, command_exit (a_state (s_command s)) = SendExit <$> l) as [l E].
  { unfold command_exit. destruct (m_active_controller _) as [c|];
      [exists [c; m_default_controller (a_state (s_command s))]|exists [m_default_controller (a_state (s_command s))]]; done. }
  unfold stop_command. rewrite E. clear E. set (s0 := set_command s _).
  assert (inv s0) as I0 by by apply dead_command_inv.
  assert (clean_session s0) as C0 by (destruct C; by split).
  assert (s_events s0 = s_events s ∧ s_user s0 = s_user s ∧ s_handled s0 = s_handled s) as (<- & <- & <-) by done.
  clearbody s0. clear I C. revert s0 I0 C0. induction l as [|a l IH]; intros s0 I0 C0; cbn [fmap list_fmap foldl]; [done|].
  destruct (IH (perform s0 (SendExit a)) (send_exit_inv _ _ I0) (send_exit_clean _ _ C0)) as (? & ? & -> & -> & ->).
  split_and!; [done|done|..]; by destruct a.
Qed.

(** A command actor that has sent everything ends both controllers. *)
Lemma stop_command_told s : inv s → leashed s → a_out (s_command s) = [] →
  (a_alive (s_command (stop_command s)) = false ∧ a_exit (s_command (stop_command s)) = true) ∧
  a_out (s_command (stop_command s)) = [] ∧
  a_exit (s_default (stop_command s)) = true ∧
  (a_alive (s_login (stop_command s)) = true → a_exit (s_login (stop_command s)) = true).
Proof.
  intros I [_ L _] Eo. rewrite Eo in L. unfold stop_command, command_exit. rewrite (i_default _ I).
  destruct (i_active _ I) as [E|[E|[E _]]]; rewrite E in *; cbn; (split_and!; [done..|]); [|done|];
    (intros Ha; destruct (L Ha) as [?|[?|[]%elem_of_nil]]; done).
Qed.

Lemma stop_command_leashed s : inv s → leashed s → a_out (s_command s) = [] → leashed (stop_command s).
Proof.
  intros I L Eo. destruct (stop_command_told s I L Eo) as (_ & Eo' & Hd & Hl).
  split; [rewrite Eo'; by intros ?%elem_of_nil|auto|auto].
Qed.
End client.

Section rules.
Context {S : Socket} {N : Net S} {store : Type} {St : Storage store}.
Context (uninit extra : list Z).

(** A step of the program is a step by a rule. *)
Lemma world_exec_rule l (w w' : world kernel store) : world_exec uninit extra l w = Some (Ret w') → world_rule uninit extra w l w'.
Proof.
  destruct l as [sa id| | |i|i|i|i|i l| | | |fails| | |]; cbn [world_exec];
    try (destruct (w_clients w !! i) as [c|] eqn:Ei; [|done]; cbn [mbind option_bind]).
  - destruct (a_alive (w_server w)) eqn:Ea, (a_out (w_server w)) eqn:Eo, (a_mail (w_server w)) eqn:Em; try done.
    destruct (decide _); [|done]. destruct (server_handle _ _ _ _ _) eqn:Eh; try done. intros [= <-]. by econstructor.
  - destruct (a_out (w_server w)) eqn:Eo; [done|]. intros [= <-]. by constructor.
  - destruct (leaving _) eqn:El; [|done]. intros [= <-]. by constructor.
  - destruct (a_alive (c_connection c)) eqn:Ea, (a_out (c_connection c)) eqn:Eo, (a_mail (c_connection c)) eqn:Em; try done.
    destruct (connection_handle _ _ _) as [[[k st] e]| | |] eqn:Eh; try done. intros [= <-]. by econstructor.
  - destruct (a_out (c_connection c)) eqn:Eo; [done|]. intros [= <-]. by constructor.
  - destruct (leaving _) eqn:El; [|done]. intros [= <-]. by constructor.
  - destruct (leaving _) eqn:El; [|done]. intros [= <-]. by constructor.
  - destruct l; [done|..]; destruct (Session.exec _ _ _ _) as [[s| | |]|] eqn:Es; try done; intros [= <-]; by constructor.
  - destruct (a_alive (w_recorder w)) eqn:Ea, (a_out (w_recorder w)) eqn:Eo, (a_mail (w_recorder w)) eqn:Em; try done.
    intros [= <-]. by constructor.
  - destruct (a_out (w_recorder w)) eqn:Eo; [done|]. intros [= <-]. by constructor.
  - destruct (a_alive (w_storage w)) eqn:Ea, (a_mail (w_storage w)) eqn:Em; try done.
    destruct (storage_run _ _) as [[]| | |] eqn:Er; try done. intros [= <-]. by econstructor.
  - destruct (main_exec fails w) eqn:E; [|done]. intros [= <-]. by constructor.
  - destruct (system_ends w) eqn:E; [|done]. intros [= <-]. by constructor.
  - destruct (leaving _) eqn:El; [|done]. intros [= <-]. by constructor.
  - destruct (leaving _) eqn:El; [|done]. intros [= <-]. by constructor.
Qed.

Lemma world_rule_exec l (w w' : world kernel store) : world_rule uninit extra w l w' → world_exec uninit extra l w = Some (Ret w').
Proof.
  intros []; cbn [world_exec]; repeat match goal with H : w_clients _ !! _ = _ |- _ => rewrite H; cbn [mbind option_bind]; clear H end;
    repeat match goal with H : ?x = _ |- context [?x] => rewrite H end; try done.
  - rewrite decide_True by done. by cbn [mbind outcome_bind]; repeat match goal with H : ?x = _ |- context [?x] => rewrite H end.
  - destruct l0; try done; by repeat match goal with H : ?x = _ |- context [?x] => rewrite H end.
Qed.

(** The executable steps and the rules are the same. *)
Lemma world_exec_rules l (w w' : world kernel store) : world_exec uninit extra l w = Some (Ret w') ↔ world_rule uninit extra w l w'.
Proof. split; [apply world_exec_rule|apply world_rule_exec]. Qed.
End rules.

Section handlers.
Context {S : Socket} {L : SocketLaws S} {N : Net S} {NL : NetLaws N}.

Ltac each := solve [repeat (apply Forall_cons_2; [by cbn|]); apply Forall_nil_2].

Ltac exits := solve [done | cbn; split; [by left|done]].

(** A handler of a connection actor returns, and what it sends; a goodbye
    ends the actor. *)
Lemma connection_handle_sends k st m :
  0 < m_connection st →
  returns (connection_handle k st m) (λ r, m_connection r.1.2 = m_connection st ∧
    m_registery_id r.1.2 = m_registery_id st ∧ Forall (connection_sends (m_registery_id st)) r.2 ∧ erase_exits r.2).
Proof.
  intros Hfd. destruct m; try (cbn; rewrite ?CommStatic_Ret by done; apply returns_Ret; split_and!; [done|done|each|exits]).
  - destruct (has_data k (m_connection st)) eqn:Hd.
    + destruct (poll_reads k st Hfd Hd) as (k' & r & text & _ & ->). apply returns_Ret. cbn [fst snd].
      unfold on_read. repeat case_decide; cbn [fst snd]; (split_and!; [done|done| |exits]); try each.
      apply Forall_cons_2; [|each]. split; [done|]. apply sanitize_plain.
    + cbn [connection_handle]. rewrite CommStatic_Ret by done. cbn [mbind outcome_bind].
      rewrite Hd. apply returns_Ret. split_and!; [done|done|each|exits].
  - cbn [connection_handle]. rewrite decide_True by lia. rewrite CommStatic_Ret by done.
    cbn [mbind outcome_bind]. destruct (emit_line k _ _) as [k1 b1]. destruct (emit_line k1 _ _) as [k2 b2].
    apply returns_Ret. split_and!; [done|done|each|exits].
  - cbn [connection_handle]. rewrite CommStatic_Ret by done. cbn [mbind outcome_bind].
    destruct (emit_prompt _ _ _). apply returns_Ret. split_and!; [done|done|each|exits].
  - cbn [connection_handle]. rewrite CommStatic_Ret by done. cbn [mbind outcome_bind].
    destruct (emit_line _ _ _). apply returns_Ret. split_and!; [done|done|each|exits].
Qed.

(** A handler of the server returns, and spawns what it should. *)
Lemma server_handle_spawns k sa id st m :
  returns (server_handle k sa id st m) (λ h,
    match h_spawned h with
    | None => True
    | Some (conn, e) => 0 < m_connection conn ∧ m_registery_id conn = registry_name id ∧
        e = [Spawn RCommand; RegistryPut (registry_name id)]
    end).
Proof.
  destruct m; cbn [server_handle]; try by apply returns_Ret.
  - unfold accept_handle. case_decide as Hs; [by apply returns_Ret|].
    destruct (accept _ _ _) as [k1 c] eqn:E. case_decide as Hc; [by apply returns_Ret|].
    destruct (accept_fd _ _ _ _ _ E) as [|Hpos]; [done|].
    unfold connection_new, CommStatic. rewrite decide_False by lia. cbn [mbind outcome_bind].
    destruct (and_then _ _ _) as [k2 b]. cbn [mbind outcome_bind]. by apply returns_Ret.
  - apply returns_Ret. by destruct (start_handle_cases k sa st) as [-> _].
Qed.

(** What the handlers send that run before the server is told to end. *)
Lemma server_handle_ready k sa id st m h :
  m = StartServer ∨ m = AcceptConnection → server_handle k sa id st m = Ret h →
  h_effects h = [] ∨ h_effects h = [Send RServer AcceptConnection] ∨
  h_effects h = [Send RConnection PerformWelcome; Send RServer AcceptConnection].
Proof.
  intros [-> | ->]; cbn [server_handle].
  - intros [= <-]. destruct (start_handle_cases k sa st) as (_ & [[-> _]|[-> _]]); auto.
  - unfold accept_handle. case_decide; [intros [= <-]; auto|]. destruct (accept _ _ _). case_decide; [intros [= <-]; auto|].
    destruct (connection_new _ _ _ _) as [[[? ?] ?]| | |]; try done. cbn [mbind outcome_bind]. intros [= <-]. auto.
Qed.
End handlers.

(** ** The invariant of the world *)
Section invariant.
Context {S : Socket} {L : SocketLaws S} {N : Net S} {NL : NetLaws N}.
Context {store : Type} {St : Storage store} {ready : store → Prop} {view : store → keyspace}.
Context {SL : StorageLaws St ready view}.
Context (uninit extra : list Z) (Hu : length uninit = 64%nat) (He : length extra = 64%nat).
Context (ks0 : keyspace).

Abbreviation W := (world kernel store).

(** The registrations in the storage ([done]), those on the way from the
    recorder to the storage ([waiting]) and those that were sent to an actor
    that has gone ([lost]), which together with those the recorder has not
    handled are all that were sent. None is lost while the [MudSystem] is
    there. *)
Record stored_so_far (w : W) (done waiting lost : list msg) : Prop := {
  st_there : w_system w = true →
    (a_alive (w_recorder w) = true ∧ a_exit (w_recorder w) = false) ∧
    (a_alive (w_storage w) = true ∧ a_exit (w_storage w) = false) ∧ lost = [];
  st_gone : a_alive (w_storage w) = false → a_mail (w_storage w) = [];
  st_quiet : a_out (w_storage w) = [];
  st_store : ∃ s, a_state (w_storage w) = Some s ∧ ready s ∧ view s = run_writes (entry_write <$> done) ks0;
  st_waiting : a_mail (w_storage w) ++ recorder_sends (w_recorder w) = waiting ≫= to_store;
  st_all : done ++ waiting ++ a_mail (w_recorder w) ++ lost ≡ₚ sent_events (w_clients w)
}.

(** Before [kill_server] the server is there, its mailbox holds at most one
    message and then it has nothing to send; the system is there too. *)
Definition server_ready (a : actor ServerActor) : Prop :=
  a_alive a = true ∧ a_exit a = false ∧
  ((a_out a = [] ∧ (a_mail a = [StartServer] ∨ a_mail a = [AcceptConnection])) ∨
   (a_mail a = [] ∧ (a_out a = [] ∨ a_out a = [Send RServer AcceptConnection] ∨
      a_out a = [Send RConnection PerformWelcome; Send RServer AcceptConnection]))).

Definition main_inv (m : main_program) (a : actor ServerActor) (system : bool) : Prop :=
  match m with
  | Starting | Waiting | Closing _ => server_ready a ∧ system = true
  | Killing => system = true
  | Leaving _ | Ended => True
  end.

Record world_inv (w : W) : Prop := {
  wi_clients : Forall client_inv (w_clients w);
  wi_names : names_inv (w_clients w) (w_registry w);
  wi_stored : ∃ done waiting lost, stored_so_far w done waiting lost;
  wi_main : main_inv (w_main w) (w_server w) (w_system w)
}.

Lemma sent_events_insert clients i c c' es :
  clients !! i = Some c → s_events (c_session c') = s_events (c_session c) ++ es →
  sent_events (<[i := c']> clients) ≡ₚ sent_events clients ++ es.
Proof.
  intros Hi E. unfold sent_events. rewrite <-(take_drop_middle clients i c Hi) at 2.
  rewrite insert_take_drop by by eapply lookup_lt_Some. rewrite !bind_app. cbn [mbind list_bind]. rewrite E.
  solve_Permutation.
Qed.

(** One client changes, its name and its registrations do not. *)
Lemma names_update clients registry i c c' :
  names_inv clients registry → clients !! i = Some c → registry_id c' = registry_id c →
  (a_alive (c_connection c') = true → a_alive (c_connection c) = true) → (ending c → ending c') →
  names_inv (<[i := c']> clients) registry.
Proof.
  intros [N1 N2 N3] Hi Eid Hal Hend. split.
  - rewrite list_fmap_insert, Eid, list_insert_id; [done|]. by rewrite list_lookup_fmap, Hi.
  - intros j d [(<- & -> & _)|[_ Hj]]%list_lookup_insert_Some; [|by apply (N2 j)]. rewrite Eid. by apply (N2 i).
  - intros j d [(<- & -> & _)|[_ Hj]]%list_lookup_insert_Some Ha; [|by apply N3]. rewrite Eid.
    destruct (N3 i c Hi (Hal Ha)); auto.
Qed.

Lemma client_update w i c c' :
  world_inv w → w_clients w !! i = Some c → client_inv c' → registry_id c' = registry_id c →
  s_events (c_session c') = s_events (c_session c) →
  (a_alive (c_connection c') = true → a_alive (c_connection c) = true) → (ending c → ending c') →
  world_inv (set_client i c' w).
Proof.
  intros [I1 I2 (d & wt & lost & [J1 J2 JQ J3 J4 J5]) I4] Hi Hc' Eid Ees Hal Hend. split; cbn.
  - by apply Forall_insert.
  - by eapply names_update.
  - exists d, wt, lost. split; try done. cbn. rewrite J5. symmetry.
    rewrite (sent_events_insert _ i c c' []), app_nil_r; [done|done|]. by rewrite app_nil_r.
  - done.
Qed.

(** The kernel and the answers are not part of the invariant. *)
Lemma world_inv_same (w w' : W) :
  world_inv w → w_clients w' = w_clients w → w_recorder w' = w_recorder w → w_storage w' = w_storage w →
  w_registry w' = w_registry w → w_system w' = w_system w → main_inv (w_main w') (w_server w') (w_system w') → world_inv w'.
Proof.
  destruct w, w'. cbn. intros [I1 I2 (d & wt & lost & [J1 J2 JQ J3 J4 J5]) I4] -> -> -> -> -> Hm.
  split; [done|done| |done]. by exists d, wt, lost.
Qed.

Lemma main_inv_server m a a' b : main_inv m a b → (server_ready a → server_ready a') → main_inv m a' b.
Proof. intros Hm Ha. destruct m; cbn in *; naive_solver. Qed.

Lemma set_server_inv w a : world_inv w → (server_ready (w_server w) → server_ready a) → world_inv (set_server a w).
Proof. intros I Ha. eapply world_inv_same; [exact I|done..|]. eapply main_inv_server; [apply I|done]. Qed.

Lemma client_mails c ms : client_inv c → client_inv (set_connection c (mails ms (c_connection c))).
Proof.
  intros [C1 C2 C3 C4 C5 C6 CG C7]. unfold registry_id in C4.
  split; unfold registry_id; cbn; rewrite ?mails_state, ?mails_out, ?mails_alive; done.
Qed.

Lemma ending_mails c ms : ending c → ending (set_connection c (mails ms (c_connection c))).
Proof. unfold ending. cbn. by rewrite mails_exit, mails_out. Qed.

(** Mail for a connection actor. *)
Lemma mail_client w i c ms : world_inv w → w_clients w !! i = Some c →
  world_inv (set_client i (set_connection c (mails ms (c_connection c))) w).
Proof.
  intros I Hi. pose proof (wi_clients _ I) as Hc. rewrite Forall_lookup in Hc.
  apply (client_update w i c); [done|done|by apply client_mails; eauto|..].
  - unfold registry_id. cbn. by rewrite mails_state.
  - done.
  - cbn. by rewrite mails_alive.
  - apply ending_mails.
Qed.

Lemma mail_connection_inv w i m : world_inv w → world_inv (mail_connection i m w).
Proof.
  intros I. unfold mail_connection. destruct (w_clients w !! i) as [c|] eqn:E; [|done]. exact (mail_client w i c [m] I E).
Qed.

(** One send of the server. *)
Lemma server_sends_inv w e es : world_inv w → a_out (w_server w) = e :: es →
  world_inv (server_perform (set_server (set_out (w_server w) es) w) e).
Proof.
  intros I Eo. assert (∀ a, (server_ready (w_server w) → server_ready a) → world_inv (set_server a w)) as Hs
    by (intros a; by apply set_server_inv).
  destruct e as [[] m|[]|[]|n|n]; cbn [server_perform]; try apply mail_connection_inv;
    try apply (Hs (mail m (set_out (w_server w) es))); try apply (Hs (request_exit (set_out (w_server w) es)));
    try apply Hs; intros (Ha & Hx & [[E _]|[Em [E|[E|E]]]]); rewrite E in Eo; simplify_eq;
    (split; [by rewrite ?mail_alive|split; [by rewrite ?mail_exit|]]).
  - right. cbn. auto.
  - left. unfold mail. cbn. rewrite Ha, Em. cbn. auto.
Qed.

Lemma spawn_client_inv w id spawn :
  world_inv w → fresh_id id w →
  match spawn with
  | None => True
  | Some (conn, e) => 0 < m_connection conn ∧ m_registery_id conn = registry_name id ∧
      e = [Spawn RCommand; RegistryPut (registry_name id)]
  end → world_inv (spawn_client spawn w).
Proof.
  intros I [Hid Hfresh]. destruct spawn as [[conn e]|]; [|done]. intros (Hpos & Ename & ->). cbn [spawn_client foldl].
  destruct I as [I1 [N1 N2 N3] (d & wt & lost & [J1 J2 JQ J3 J4 J5]) I4]. split; cbn.
  - apply Forall_app. split; [done|]. apply Forall_singleton. split; cbn;
      done || apply session_start_inv || apply session_start_clean || apply session_start_leashed || apply Forall_nil_2.
  - split.
    + rewrite fmap_app, NoDup_app. cbn [fmap list_fmap]. split_and!; [done| |apply NoDup_singleton].
      intros n (c & -> & Hc)%list_elem_of_fmap. rewrite list_elem_of_singleton. unfold registry_id at 2. cbn. rewrite Ename.
      rewrite Forall_forall in Hfresh. by apply Hfresh.
    + intros j c [Hj|[_ Hj]]%lookup_app_Some; [by apply (N2 j)|].
      apply list_lookup_singleton_Some in Hj as [_ <-]. exists id. done.
    + intros j c [Hj|[Hlen Hj]]%lookup_app_Some Ha.
      * destruct (N3 j c Hj Ha) as [?|?]; [left|by right]. rewrite lookup_insert_ne; [done|].
        rewrite Forall_lookup in Hfresh. intros E. by apply (Hfresh j c Hj).
      * apply list_lookup_singleton_Some in Hj as [Hj <-]. left. unfold registry_id. cbn. rewrite Ename.
        rewrite lookup_insert_eq. f_equal. lia.
  - exists d, wt, lost. split; try done. cbn. rewrite J5. unfold sent_events. rewrite bind_app. cbn. by rewrite app_nil_r.
  - done.
Qed.

(** What a connection actor sends. *)
Lemma connection_perform_inv w i c e es :
  world_inv w → w_clients w !! i = Some c → a_out (c_connection c) = e :: es →
  let c' := set_connection c (set_out (c_connection c) es) in
  world_inv (connection_perform i c' (set_client i c' w) e).
Proof.
  intros I Hi Eout c'. pose proof (wi_clients _ I) as Hc. rewrite Forall_lookup in Hc. pose proof (Hc i c Hi) as Ci.
  destruct Ci as [C1 C2 C3 C4 C5 C6 CG C7]. rewrite Eout in C4, C5. apply Forall_cons in C4 as [He1 He2].
  assert (erase_exits es) as C5' by (destruct e; cbn in C5; tauto).
  assert (client_inv c') as Ci' by by split.
  assert (i < length (w_clients w))%nat as Hlt by by eapply lookup_lt_Some.
  assert (∀ c'', client_inv c'' → registry_id c'' = registry_id c →
    s_events (c_session c'') = s_events (c_session c) →
    (a_alive (c_connection c'') = true → a_alive (c_connection c) = true) → (ending c → ending c'') →
    world_inv (set_client i c'' (set_client i c' w))) as Hstep.
  { intros c'' H1 H2 H3 H4 H5. unfold set_client at 1. cbn. rewrite list_insert_insert_eq.
    by apply (client_update w i c). }
  assert (e ≠ SendExit RConnection → ending c → ending c') as Hend.
  { intros Hne [H|H]; [by left|right]. rewrite Eout in H. apply elem_of_cons in H as [<-|H]; done. }
  destruct e as [to m|to|a|n|n]; cbn [connection_sends] in He1.
  - assert (ending c → ending c') as Hend' by by apply Hend.
    destruct to; try done; cbn [connection_perform].
    + apply Hstep; [by apply (client_mails c' [m])|..].
      * unfold registry_id. cbn. by rewrite mail_state.
      * done.
      * cbn. by rewrite mail_alive.
      * intros H. by apply (ending_mails c' [m]), Hend'.
    + apply Hstep; try done. destruct He1 as [Hm Hclean]. destruct Ci' as [? ? ? ? ? ? ? ?]. split; try done; cbn.
      * apply mail_command_inv; [done|by left].
      * by apply (perform_clean (c_session c) (Send RCommand m)).
      * apply (leashed_others (c_session c) (Send RCommand m)); eauto.
      * intros Ha. rewrite mail_exit. auto.
  - destruct to; try done; cbn [connection_perform]. apply Hstep; try done. by left.
  - done.
  - done.
  - subst n. cbn [connection_perform]. destruct C5 as [Hx _].
    assert (world_inv (set_client i c' w)) as [J1 [N1 N2 N3] J3 J4] by (apply (client_update w i c); auto).
    split; [done| |destruct J3 as (d & wt & lost & [? ? ? ? ? ?]); by exists d, wt, lost|done]. cbn in *.
    split; [done|done|]. intros j d Hj Ha.
    destruct (decide (registry_id d = registry_id c)) as [E|E].
    + right. assert (j = i) as ->.
      { apply (NoDup_lookup _ j i (registry_id d) N1); rewrite list_lookup_fmap; [by rewrite Hj|].
        by rewrite list_lookup_insert_eq, E by done. }
      rewrite list_lookup_insert_eq in Hj by done. injection Hj as <-. by right.
    + destruct (N3 j d Hj Ha) as [?|?]; [left|by right]. by rewrite lookup_delete_ne.
Qed.

(** The session of a client takes a step. *)
Lemma relay_inv w i c s' :
  world_inv w → w_clients w !! i = Some c → inv s' → clean_session s' → leashed s' →
  (a_exit (s_command (c_session c)) = true → a_exit (s_command s') = true) →
  grows (c_session c) s' → world_inv (relay i c s' w).
Proof.
  intros I Hi Is Cs Ls Hexit (us & es & Eu & Ee & Hes). unfold relay. rewrite Eu, Ee, !drop_app_length.
  destruct I as [I1 I2 (d & wt & lost & [J1 J2 JQ J3 J4 J5]) I4]. rewrite Forall_lookup in I1.
  pose proof (client_mails c us (I1 i c Hi)) as [C1 C2 C3 C4 C5 C6 CG C7]. split; cbn.
  - apply Forall_insert; [by apply Forall_lookup|]. split; try done; [by auto|]. cbn. rewrite Ee. by apply Forall_app.
  - eapply names_update; [done|done|..].
    + unfold registry_id. cbn. by rewrite mails_state.
    + cbn. by rewrite mails_alive.
    + unfold ending. cbn. by rewrite mails_exit, mails_out.
  - exists d, wt, (lost ++ if a_alive (w_recorder w) then [] else es).
    split; cbn; rewrite ?mails_alive, ?mails_exit; try done.
    + intros Hs. destruct (J1 Hs) as ((Ha & Hx) & Hst & ->). by rewrite Ha.
    + unfold recorder_sends. by rewrite mails_out.
    + rewrite (sent_events_insert _ i c _ es) by done. rewrite <-J5. destruct (a_alive (w_recorder w)) eqn:Ea.
      * rewrite mails_mail by done. solve_Permutation.
      * rewrite mails_dead by done. solve_Permutation.
  - done.
Qed.

(** Everything that was sent is a registration that can be stored. *)
Lemma sent_good w m : world_inv w → m ∈ sent_events (w_clients w) →
  ∃ u text, m = EventUserCreate u text ∧ registration m ∧ plain u ∧ plain text.
Proof.
  intros I (c & Hm & Hc)%list_elem_of_bind. pose proof (wi_clients _ I) as Hall. rewrite Forall_forall in Hall.
  pose proof (ci_events _ (Hall c Hc)) as Hev. rewrite Forall_forall in Hev.
  destruct (Hev m Hm) as [Hr Hclean]. pose proof Hr as (u & p & text & d & -> & _). destruct Hclean. by exists u, text.
Qed.

Lemma recorder_runs w m ms :
  world_inv w → a_out (w_recorder w) = [] → a_mail (w_recorder w) = m :: ms → a_alive (w_recorder w) = true →
  world_inv (set_recorder (mkActor () ms (event_recorder_handle m) true (a_exit (w_recorder w))) w).
Proof.
  intros [I1 I2 (d & wt & lost & [J1 J2 JQ J3 J4 J5]) I4] Ho Em Ha. split; [done|done| |done]. exists d, (wt ++ [m]), lost.
  split; [cbn; naive_solver|done|done|done| |].
  - rewrite bind_app. cbn [mbind list_bind]. rewrite app_nil_r, <-J4. unfold recorder_sends at 2. rewrite Ho. cbn [omap list_omap].
    by rewrite app_nil_r.
  - rewrite <-J5, Em. cbn [a_mail set_recorder w_recorder]. by rewrite <-(app_assoc wt).
Qed.

Lemma sent_stored (w : W) d wt lost : world_inv w → stored_so_far w d wt lost → Forall (λ m, ∃ x, to_store m = [x]) wt.
Proof.
  intros I [_ _ _ _ _ J]. rewrite Forall_forall. intros m Hm.
  destruct (sent_good w m I) as (u & text & -> & _); [rewrite <-J, !elem_of_app; auto|]. by eexists.
Qed.

Lemma recorder_sends_inv w e es :
  world_inv w → a_out (w_recorder w) = e :: es →
  let w' := set_recorder (set_out (w_recorder w) es) w in
  world_inv match e with Send RStorage m => set_storage (mail m (w_storage w')) w' | _ => w' end.
Proof.
  intros I Ho w'. pose proof I as [I1 I2 (d & wt & lost & J) I4]. pose proof (sent_stored w d wt lost I J) as Hwt.
  destruct J as [J1 J2 JQ J3 J4 J5].
  assert (∀ l, omap (λ e, match e with Send RStorage m => Some m | _ => None end) [e] = l →
    a_mail (w_storage w) ++ l ++ recorder_sends (set_out (w_recorder w) es) = wt ≫= to_store) as Hl.
  { intros l <-. rewrite <-J4. unfold recorder_sends. rewrite Ho. cbn. by destruct e as [[]|?|?|?|?]. }
  assert ((∀ m, e ≠ Send RStorage m) → world_inv w') as Hno.
  { intros Hne. split; [done|done| |done]. exists d, wt, lost. split; try done. apply (Hl []). destruct e as [[]|?|?|?|?]; try done.
    by destruct (Hne m). }
  destruct e as [[] m|?|?|?|?]; try by apply Hno. clear Hno. split; [done|done| |done].
  destruct (a_alive (w_storage w)) eqn:Ea.
  - exists d, wt, lost. split; cbn; rewrite ?mail_alive, ?mail_exit, ?mail_state, ?mail_out; try done; [by rewrite Ea|congruence|].
    unfold mail. rewrite Ea. cbn. rewrite <-app_assoc. by apply (Hl [m]).
  - specialize (Hl [m] eq_refl). rewrite (J2 eq_refl) in Hl.
    destruct wt as [|x wt]; [done|]. apply Forall_cons in Hwt as [(y & Hy) Hwt].
    cbn [mbind list_bind] in Hl. rewrite Hy in Hl. injection Hl as _ Hl.
    exists d, wt, (x :: lost). split; cbn; unfold mail; rewrite ?Ea; try done.
    + intros Hs. destruct (J1 Hs) as (_ & [? _] & _). congruence.
    + by rewrite J2.
    + rewrite <-J5. solve_Permutation.
Qed.

Lemma storage_runs w m ms :
  world_inv w → a_mail (w_storage w) = m :: ms →
  returns (storage_run (a_state (w_storage w)) (to_storage [Send RStorage m])) (λ r,
    world_inv (set_storage (mkActor r.1 ms [] true (a_exit (w_storage w))) w)).
Proof.
  intros I Em. pose proof I as [I1 I2 (d & wt & lost & [J1 J2 JQ (s & Es & Hready & Hview) J4 J5]) I4]. rewrite Em in J4.
  destruct wt as [|x wt]; [done|]. cbn [mbind list_bind] in J4.
  destruct (sent_good w x I) as (u & text & -> & _ & Hu' & Ht).
  { rewrite <-J5. rewrite !elem_of_app. right. left. by left. }
  cbn [to_store event_recorder_handle omap list_omap app] in J4. injection J4 as -> J4. rewrite Es.
  eapply returns_mono; [exact (record_registration (L := SL) u text s Hu' Ht Hready)|].
  intros [o l] (s' & Eo & Hr & Hv). cbn [fst] in *. subst o. split; [done|done| |done].
  exists (d ++ [EventUserCreate u text]), wt, lost. split; try done.
  - cbn. naive_solver.
  - exists s'. split_and!; [done|done|]. rewrite Hv, Hview, fmap_app. unfold run_writes. by rewrite foldl_app.
  - cbn. rewrite <-J5. by rewrite <-app_assoc.
Qed.

(** The end of the storage actor and of the recorder: what they have not
    handled is lost. *)
Lemma storage_stops w : world_inv w → a_exit (w_storage w) = true →
  world_inv (set_storage (set_dead (w_storage w)) w).
Proof.
  intros I Hx. pose proof I as [I1 I2 (d & wt & lost & J) I4]. pose proof (sent_stored w d wt lost I J) as Hwt.
  destruct J as [J1 J2 JQ J3 J4 J5]. split; [done|done| |done].
  assert (∃ w1 w2, wt = w1 ++ w2 ∧ recorder_sends (w_recorder w) = w2 ≫= to_store) as (w1 & w2 & -> & Es).
  { clear -J4 Hwt. revert J4. generalize (a_mail (w_storage w)). induction Hwt as [|m wt (x & Hx) Hwt IH]; intros l J4.
    - apply app_eq_nil in J4 as [-> ->]. by exists [], [].
    - destruct l as [|y l]; [by exists [], (m :: wt)|]. cbn [mbind list_bind] in J4. rewrite Hx in J4. injection J4 as _ J4.
      destruct (IH l J4) as (w1 & w2 & -> & E). by exists (m :: w1), w2. }
  exists d, w2, (lost ++ w1). split; cbn; try done.
  - intros Hs. destruct (J1 Hs) as (_ & [_ ?] & _). congruence.
  - rewrite <-J5. solve_Permutation.
Qed.

Lemma recorder_stops w : world_inv w → a_exit (w_recorder w) = true → a_out (w_recorder w) = [] →
  world_inv (set_recorder (set_dead (w_recorder w)) w).
Proof.
  intros [I1 I2 (d & wt & lost & [J1 J2 JQ J3 J4 J5]) I4] Hx Eo. split; [done|done| |done].
  exists d, wt, (lost ++ a_mail (w_recorder w)). split; try done.
  - intros Hs. destruct (J1 Hs) as ([_ ?] & _). congruence.
  - rewrite <-J4. cbn. unfold recorder_sends. by rewrite Eo.
  - cbn. rewrite <-J5. solve_Permutation.
Qed.

(** The main program. *)
Lemma set_main_inv w m : world_inv w → main_inv m (w_server w) (w_system w) → world_inv (set_main m w).
Proof. intros I Hm. by eapply world_inv_same. Qed.

Lemma main_exec_inv fails w w' : world_inv w → main_exec fails w = Some w' → world_inv w'.
Proof.
  intros I. pose proof (wi_main _ I) as Hm. unfold main_exec. destruct (w_main w) as [| |[|i rest]| |b|] eqn:Em; cbn in Hm; try done.
  - destruct (receive _ _ _); [|done]. intros [= <-]. apply set_main_inv; [done|]. by case_decide.
  - intros [= <-]. by apply set_main_inv.
  - intros [= <-]. destruct Hm as [Hm Hs]. eapply world_inv_same; [exact I|done..].
  - intros [= <-]. assert (w_main (mail_connection i GoodbyeConnection w) = w_main w ∧
      w_server (mail_connection i GoodbyeConnection w) = w_server w ∧
      w_system (mail_connection i GoodbyeConnection w) = w_system w) as (E1 & E2 & E3)
      by (unfold mail_connection; by destruct (w_clients w !! i)).
    apply set_main_inv; [by apply mail_connection_inv|]. by rewrite E2, E3.
  - destruct (receive _ _ _); [|done]. intros [= <-]. by apply set_main_inv.
  - destruct (_ && _); [done|]. intros [= <-]. by apply set_main_inv.
Qed.

Lemma system_ends_inv w w' : world_inv w → system_ends w = Some w' → world_inv w'.
Proof.
  intros [I1 I2 (d & wt & lost & [J1 J2 JQ J3 J4 J5]) I4]. unfold system_ends.
  destruct (w_main w) eqn:Em; try done; (destruct (_ && _); [|done]); intros [= <-];
    (split; [done|done|exists d, wt, lost; by split|cbn; by rewrite Em]).
Qed.

(** A handler of a connection actor, and a step of a session. *)
Lemma connection_runs_inv w i c m ms :
  world_inv w → w_clients w !! i = Some c → a_alive (c_connection c) = true → a_out (c_connection c) = [] →
  returns (connection_handle (w_kernel w) (a_state (c_connection c)) m) (λ r,
    world_inv (set_client i (set_connection c (mkActor r.1.2 ms r.2 true (a_exit (c_connection c)))) (set_kernel r.1.1 w))).
Proof.
  intros I Ei Ha Eo. pose proof (wi_clients _ I) as Hc. rewrite Forall_lookup in Hc. destruct (Hc i c Ei) as [C1 C2 C3 C4 C5 C6 CG C7].
  eapply returns_mono; [by apply connection_handle_sends|]. intros [[k st] e] (E1 & E2 & E3 & E4). cbn [fst snd] in *.
  apply (client_update (set_kernel k w) i c); [eapply world_inv_same; [exact I|done..|apply I]|done| |done|done|done|].
  - split; unfold registry_id; cbn; rewrite ?E1, ?E2; done.
  - intros [H|H]; [by left|]. rewrite Eo in H. by apply elem_of_nil in H.
Qed.

Lemma session_steps_inv w i c l o :
  world_inv w → w_clients w !! i = Some c → is_input l = false →
  Session.exec uninit extra l (c_session c) = Some o → returns o (λ s, world_inv (relay i c s w)).
Proof.
  intros I Ei Hin E. pose proof (wi_clients _ I) as Hc. rewrite Forall_lookup in Hc. destruct (Hc i c Ei) as [C1 C2 C3 C4 C5 C6 CG C7].
  destruct (exec_inv uninit extra Hu He l (c_session c) _ C2 E) as (s' & -> & Is). apply returns_Ret.
  destruct (exec_clean uninit extra Hu He l (c_session c) s' C2 C3 Hin E) as [Cs Hg].
  pose proof (exec_leashed uninit extra l (c_session c) s' C2 C6 E).
  destruct (exec_later uninit extra l (c_session c) s' E) as [Hx _]. by apply relay_inv.
Qed.

Lemma leaving_exit {A} (a : actor A) : leaving a = true → a_exit a = true ∧ a_out a = [].
Proof. unfold leaving. intros [[_ ?]%andb_prop Ho%bool_decide_eq_true]%andb_prop. done. Qed.

(** A handler of the server. *)
Lemma server_runs_inv w sa id m ms h :
  world_inv w → fresh_id id w → a_alive (w_server w) = true → a_out (w_server w) = [] → a_mail (w_server w) = m :: ms →
  server_handle (w_kernel w) sa id (a_state (w_server w)) m = Ret h →
  match h_spawned h with
  | None => True
  | Some (conn, e) => 0 < m_connection conn ∧ m_registery_id conn = registry_name id ∧
      e = [Spawn RCommand; RegistryPut (registry_name id)]
  end →
  world_inv (spawn_client (h_spawned h) (answered (h_reply h)
    (set_server (mkActor (h_state h) ms (h_effects h) true (a_exit (w_server w))) (set_kernel (h_kernel h) w)))).
Proof.
  intros I Hf Ha Eo Em E Hs. set (a := mkActor _ _ _ _ _).
  assert (server_ready (w_server w) → server_ready a) as Hr.
  { intros (_ & Hx & [[_ Hm]|[Hm _]]); rewrite Em in Hm; [|done]. split; [done|split; [done|]]. right. cbn.
    assert (ms = [] ∧ (m = StartServer ∨ m = AcceptConnection)) as [-> Hm'] by (destruct Hm as [[= -> ->]|[= -> ->]]; auto).
    split; [done|]. by eapply server_handle_ready. }
  assert (world_inv (answered (h_reply h) (set_server a (set_kernel (h_kernel h) w)))) as I'.
  { assert (world_inv (set_server a (set_kernel (h_kernel h) w))) as I1.
    { apply set_server_inv; [|done]. eapply world_inv_same; [exact I|done..|apply I]. }
    destruct (h_reply h); cbn [answered]; [done|..]; (eapply world_inv_same; [exact I1|done..|apply I1]). }
  apply (spawn_client_inv _ id); [done| |done]. by destruct (h_reply h).
Qed.

(** The end of a connection actor and of a command actor. *)
Lemma connection_stops_inv w i c : world_inv w → w_clients w !! i = Some c →
  world_inv (set_client i (mkClient (set_dead (c_connection c)) (foldl perform (c_session c) connection_exit)) w).
Proof.
  intros I Ei. pose proof (wi_clients _ I) as Hc. rewrite Forall_lookup in Hc. destruct (Hc i c Ei) as [C1 C2 C3 C4 C5 C6 CG C7].
  apply (client_update w i c); [done|done| |done|done|done|by left]. split; cbn; done ||
    exact (send_exit_inv (c_session c) RCommand C2) || exact (send_exit_clean (c_session c) RCommand C3) ||
    exact (send_exit_leashed (c_session c) RCommand C6) || apply Forall_nil_2.
Qed.

Lemma command_stops_inv w i c : world_inv w → w_clients w !! i = Some c → a_out (s_command (c_session c)) = [] →
  world_inv (set_client i (set_session c (stop_command (c_session c))) w).
Proof.
  intros I Ei Eo. pose proof (wi_clients _ I) as Hc. rewrite Forall_lookup in Hc. destruct (Hc i c Ei) as [C1 C2 C3 C4 C5 C6 CG C7].
  destruct (stop_command_good (c_session c) C2 C3) as (H1 & H2 & H3 & _).
  apply (client_update w i c); [done|done| |done|done|done|done]. split; try done; cbn.
  - by apply stop_command_leashed.
  - intros _. apply (stop_command_told _ C2 C6 Eo).
  - by rewrite H3.
Qed.

(** Every enabled step has a result, which keeps the invariant. *)
(** No handler goes wrong. *)
Lemma world_exec_ret l w r : world_inv w → world_exec uninit extra l w = Some r → ∃ w', r = Ret w'.
Proof.
  intros I. pose proof (wi_clients _ I) as Hc. rewrite Forall_lookup in Hc.
  destruct l as [sa id| | |i|i|i|i|i l| | | |fails| | |]; cbn [world_exec];
    try (destruct (w_clients w !! i) as [c|] eqn:Ei; [|done]; cbn [mbind option_bind]);
    try (destruct (leaving _); [|done]); try (by intros [= <-]; eexists).
  - destruct (a_alive (w_server w)), (a_out (w_server w)), (a_mail (w_server w)) as [|m ms]; try done.
    destruct (decide (fresh_id id w)); [|done]. intros [= <-].
    destruct (server_handle_spawns (w_kernel w) sa id (a_state (w_server w)) m) as (h & -> & _). by eexists.
  - destruct (a_out (w_server w)); [done|]. intros [= <-]. by eexists.
  - destruct (a_alive (c_connection c)) eqn:Ha, (a_out (c_connection c)) eqn:Eo, (a_mail (c_connection c)) as [|m ms]; try done.
    intros [= <-]. destruct (connection_runs_inv w i c m ms I Ei Ha Eo) as ([[k st] e] & -> & _). by eexists.
  - destruct (a_out (c_connection c)); [done|]. intros [= <-]. by eexists.
  - destruct (is_input l) eqn:Hin; [by destruct l|]. destruct (Session.exec uninit extra l (c_session c)) as [r'|] eqn:E.
    + destruct (session_steps_inv w i c l r' I Ei Hin E) as (s' & -> & _). destruct l; [done|..]; intros [= <-]; by eexists.
    + by destruct l.
  - destruct (a_alive (w_recorder w)), (a_out (w_recorder w)), (a_mail (w_recorder w)); try done. intros [= <-]. by eexists.
  - destruct (a_out (w_recorder w)); [done|]. intros [= <-]. by eexists.
  - destruct (a_alive (w_storage w)), (a_mail (w_storage w)) as [|m ms] eqn:Em; try done.
    intros E; apply Some_inj in E; subst r. destruct (storage_runs w m ms I Em) as ([o l] & -> & _). by eexists.
  - destruct (main_exec fails w); [|done]. intros [= <-]. by eexists.
  - destruct (system_ends w); [|done]. intros [= <-]. by eexists.
Qed.

(** Every rule keeps the invariant. *)
Lemma world_rule_inv l w w' : world_inv w → world_rule uninit extra w l w' → world_inv w'.
Proof.
  intros I R. pose proof (wi_clients _ I) as Hc. rewrite Forall_lookup in Hc.
  destruct R as [sa id m ms h Ha Eo Em Hf Eh|e es Eo|El|i c m ms k st e Hi Ha Eo Em Eh|i c e es Hi Eo|i c Hi El|i c Hi El|
    i c l s Hi Hin Es|m ms Ea Eo Em|e es Eo|m ms st l Ea Em Er|fails w' E|w' E|El|El].
  - destruct (server_handle_spawns (w_kernel w) sa id (a_state (w_server w)) m) as (h' & E & Hs).
    rewrite Eh in E. injection E as <-. by apply (server_runs_inv w sa id m ms h).
  - by apply server_sends_inv.
  - apply set_server_inv; [done|]. intros (_ & Hx & _). apply leaving_exit in El as [? _]. congruence.
  - destruct (connection_runs_inv w i c m ms I Hi Ha Eo) as ([[k' st'] e'] & E & I'); [done..|].
    rewrite Eh in E. by injection E as <- <- <-.
  - by apply connection_perform_inv.
  - apply connection_stops_inv; auto.
  - apply leaving_exit in El as [_ Eo]. by apply command_stops_inv.
  - destruct (session_steps_inv w i c l _ I Hi Hin Es) as (s' & [= <-] & I'). done.
  - by apply recorder_runs.
  - by apply recorder_sends_inv.
  - destruct (storage_runs w m ms I Em) as ([o l'] & E & Hi). rewrite Er in E. by injection E as <- <-.
  - by eapply main_exec_inv.
  - by eapply system_ends_inv.
  - apply leaving_exit in El as [Hx _]. by apply storage_stops.
  - apply leaving_exit in El as [Hx Eo]. by apply recorder_stops.
Qed.

Lemma world_exec_inv l w r :
  world_inv w → world_exec uninit extra l w = Some r → ∃ w', r = Ret w' ∧ world_inv w'.
Proof.
  intros I E. destruct (world_exec_ret l w r I E) as [w' ->]. exists w'. split; [done|].
  by eapply world_rule_inv, world_exec_rule.
Qed.

Lemma world_step_inv w w' : world_inv w → world_step uninit extra w w' → world_inv w'.
Proof. intros I [l w1 E]. destruct (world_exec_inv l w _ I E) as (w2 & [= <-] & I'). done. Qed.

Lemma world_new_inv k mud st : ready st → ks0 = view st → world_inv (world_new k mud st).
Proof.
  intros Hst ->. split; cbn; [by apply Forall_nil_2| | |].
  - split; [apply NoDup_nil_2|done|done].
  - exists [], [], []. split; try done. by exists st.
  - split; [|done]. split_and!; try done. left. auto.
Qed.

Lemma world_reachable_inv k mud st w :
  ready st → ks0 = view st → world_reachable uninit extra k mud st w → world_inv w.
Proof.
  intros Hst Hk Hr. unfold world_reachable in Hr. pose proof (world_new_inv k mud st Hst Hk) as I. revert I.
  induction Hr as [|w1 w2 w3 Hs _ IH]; [done|]. intros I. apply IH. by eapply world_step_inv.
Qed.

(** ** Registrations reach the storage *)

(** The steps of the recorder and of the storage actor. *)
Definition recording (w w' : W) : Prop :=
  ∃ l, (l = RecorderRuns ∨ l = RecorderSends ∨ l = StorageRuns) ∧ world_exec uninit extra l w = Some (Ret w').

Lemma recording_keeps w w' : world_inv w → recording w w' →
  world_inv w' ∧ w_clients w' = w_clients w ∧ w_system w' = w_system w ∧ w_main w' = w_main w ∧ w_server w' = w_server w.
Proof.
  intros I (l & Hl & E). destruct (world_exec_inv l w _ I E) as (w2 & [= <-] & I'). split; [done|].
  destruct Hl as [->|[->| ->]]; cbn [world_exec] in E.
  - destruct (a_alive (w_recorder w)), (a_out (w_recorder w)), (a_mail (w_recorder w)); try done. by injection E as <-.
  - destruct (a_out (w_recorder w)) as [|e es]; [done|]. injection E as <-. by destruct e as [[]| | | |].
  - destruct (a_alive (w_storage w)), (a_mail (w_storage w)) as [|m ms]; try done. destruct (storage_run _ _) as [[]| | |]; try done.
    by injection E as <-.
Qed.

(** What the recorder and the storage have left to do. *)
Definition recording_weight (w : W) : nat :=
  3 * length (a_mail (w_recorder w)) + 2 * length (a_out (w_recorder w)) + length (a_mail (w_storage w)).

Lemma recorder_handle_length m : (length (event_recorder_handle m) ≤ 1)%nat.
Proof. destruct m; cbn; lia. Qed.

Lemma recording_goes_on w : world_inv w → w_system w = true → recording_weight w ≠ 0%nat →
  ∃ w', recording w w' ∧ (recording_weight w' < recording_weight w)%nat.
Proof.
  intros I Hs Hw. pose proof I as [I1 I2 (d & wt & lost & [J1 _ _ _ _ _]) I4].
  destruct (J1 Hs) as ([Ja _] & [Jb _] & _).
  destruct (a_out (w_recorder w)) as [|e es] eqn:Eo.
  - destruct (a_mail (w_recorder w)) as [|m ms] eqn:Em.
    + destruct (a_mail (w_storage w)) as [|m ms] eqn:Es.
      { unfold recording_weight in Hw. rewrite Eo, Em, Es in Hw. cbn in Hw. lia. }
      destruct (storage_runs w m ms I Es) as ([o l] & E & _).
      eexists. split; [exists StorageRuns; split; [by auto|]; cbn [world_exec]; rewrite Jb, Es, E; reflexivity|].
      unfold recording_weight. cbn. rewrite Eo, Em, Es. cbn. lia.
    + eexists. split; [exists RecorderRuns; split; [by auto|]; cbn [world_exec]; rewrite Ja, Eo, Em; reflexivity|].
      unfold recording_weight. cbn. rewrite Eo, Em. pose proof (recorder_handle_length m). cbn in *. lia.
  - eexists. split; [exists RecorderSends; split; [by auto|]; cbn [world_exec]; rewrite Eo; reflexivity|].
    unfold recording_weight. rewrite Eo. destruct e as [[] m|?|?|?|?]; cbn; try lia.
    unfold mail. rewrite Jb. cbn. rewrite length_app. cbn. lia.
Qed.

Lemma recording_ends w : world_inv w → w_system w = true →
  ∃ w', rtc recording w w' ∧ world_inv w' ∧
    (w_clients w' = w_clients w ∧ w_system w' = w_system w ∧ w_main w' = w_main w ∧ w_server w' = w_server w) ∧
    recording_weight w' = 0%nat.
Proof.
  induction w as [w IH] using (induction_ltof1 _ recording_weight). unfold ltof in IH. intros I Hs.
  destruct (decide (recording_weight w = 0%nat)) as [Hz|Hz]; [by exists w|].
  destruct (recording_goes_on w I Hs Hz) as (w1 & H1 & Hlt).
  destruct (recording_keeps w w1 I H1) as (I1 & E1 & E2 & E3 & E4).
  destruct (IH w1 Hlt I1) as (w' & Hr & I' & (E1' & E2' & E3' & E4') & Hw); [by rewrite E2|]. exists w'.
  split; [by eapply rtc_l|]. by rewrite E1', E2', E3', E4'.
Qed.

(** When nothing is left to do everything that was sent is in the storage. *)
Lemma idle_stored w : world_inv w → w_system w = true → recording_weight w = 0%nat →
  ∃ all, stored_so_far w all [] [] ∧ all ≡ₚ sent_events (w_clients w) ∧ a_out (w_recorder w) = [].
Proof.
  unfold recording_weight. intros I Hs Hz. pose proof I as [_ _ (d & wt & lost & J) _].
  pose proof (sent_stored w d wt lost I J) as Hwt. pose proof J as [J1 J2 JQ J3 J4 J5].
  destruct (J1 Hs) as (_ & _ & ->).
  destruct (a_mail (w_recorder w)) eqn:Em; [|cbn in Hz; lia]. destruct (a_mail (w_storage w)) eqn:E; [|cbn in Hz; lia].
  destruct (a_out (w_recorder w)) eqn:Eo; [|cbn in Hz; lia]. unfold recorder_sends in J4. rewrite Eo in J4. cbn in J4.
  assert (wt = []) as ->.
  { destruct Hwt as [|m wt (x & Hx) _]; [done|]. cbn [mbind list_bind] in J4. by rewrite Hx in J4. }
  exists d. split_and!; [done| |done]. by rewrite <-J5, app_nil_r.
Qed.
End invariant.

(** ** Main theorems *)

(** C7. The server never goes wrong: in every reachable state of the whole
    server, whatever the network does, whatever is typed and however the
    actors interleave, every step that can be taken has a result (no handler
    throws or has undefined behaviour), and nobody commands the default
    controller who has not registered with a non-empty name and password. *)
Theorem world_safe {S : Socket} {L : SocketLaws S} {N : Net S} {NL : NetLaws N}
    {store : Type} {St : Storage store} {ready view} {SL : StorageLaws St ready view}
    uninit extra k mud (st : store) w :
  length uninit = 64%nat → length extra = 64%nat → ready st →
  world_reachable uninit extra k mud st w →
  (∀ l r, world_exec uninit extra l w = Some r → ∃ w', r = Ret w') ∧
  (∀ c, c ∈ w_clients w → s_handled (c_session c) ≠ [] → registered (c_session c)).
Proof.
  intros Hu He Hst Hr. pose proof (world_reachable_inv (SL := SL) uninit extra Hu He (view st) k mud st w Hst eq_refl Hr) as I.
  split.
  - intros l r E. destruct (world_exec_inv (SL := SL) uninit extra Hu He (view st) l w r I E) as (w' & -> & _). by exists w'.
  - intros c Hc. pose proof (wi_clients _ _ I) as Hall. rewrite Forall_forall in Hall.
    apply (i_handled _ (ci_session _ (Hall c Hc))).
Qed.

(** C9. Registrations are neither invented nor stored twice, and none is lost
    before the main program has let go of the system: in every reachable state
    the storage holds what it held at the start and one entry for each of some
    of the registrations the clients have sent, in the order in which they were
    stored, and is otherwise unchanged; while the system the actors share is
    there the others are on their way, and the steps of the recorder and the
    storage actor bring all of them there. *)
Theorem registrations_stored {S : Socket} {L : SocketLaws S} {N : Net S} {NL : NetLaws N}
    {store : Type} {St : Storage store} {ready view} {SL : StorageLaws St ready view}
    uninit extra k mud (st : store) w :
  length uninit = 64%nat → length extra = 64%nat → ready st →
  world_reachable uninit extra k mud st w →
  let stored (w : world kernel store) ms := ∃ s, a_state (w_storage w) = Some s ∧
    view s = run_writes (entry_write <$> ms) (view st) in
  ∃ done waiting lost, stored w done ∧ done ++ waiting ++ lost ≡ₚ sent_events (w_clients w) ∧
    Forall registration (done ++ waiting ++ lost) ∧
    (w_system w = true → lost = [] ∧
      ∃ w' all, rtc (recording uninit extra) w w' ∧ w_clients w' = w_clients w ∧
        stored w' all ∧ all ≡ₚ sent_events (w_clients w)).
Proof.
  intros Hu He Hst Hr stored.
  pose proof (world_reachable_inv (SL := SL) uninit extra Hu He (view st) k mud st w Hst eq_refl Hr) as I.
  pose proof I as [_ _ (done & wt & lost & [J1 _ _ (s & Es & _ & Hv) _ Hperm]) _].
  exists done, (wt ++ a_mail (w_recorder w)), lost. rewrite <-app_assoc. split_and!; [by exists s|done| |].
  - rewrite Forall_forall. intros m Hm. rewrite Hperm in Hm.
    destruct (sent_good (view st) w m I Hm) as (u & text & _ & Hreg & _). done.
  - intros Hs. split; [by apply J1|].
    destruct (recording_ends (SL := SL) uninit extra Hu He (view st) w I Hs) as (w' & Hr' & I' & (Ec & Es' & _) & Hz).
    destruct (idle_stored uninit extra Hu He (view st) w' I') as (all & [_ _ _ (s' & Es2 & _ & Hv') _ _] & Hall & _); [congruence|done|].
    exists w', all. rewrite <-Ec. split_and!; [done|done|by exists s'|done].
Qed.

(** ** Witnesses: two users on a server in memory *)
Abbreviation sample_world := (world (@kernel Script) (RedisStorage (R := MiniRedis))).

Abbreviation sample_exec :=
  (world_exec (S := Script) (St := Redis (R := MiniRedis)) (replicate 64 0) (replicate 64 0)).
Abbreviation sample_reachable :=
  (world_reachable (S := Script) (St := Redis (R := MiniRedis)) (replicate 64 0) (replicate 64 0)).

(** The first enabled one of some labels. *)
Fixpoint first_step (ls : list world_label) (w : sample_world) : option sample_world :=
  match ls with
  | [] => None
  | l :: ls => match sample_exec l w with Some (Ret w') => Some w' | _ => first_step ls w end
  end.

(** At most [n] such steps. *)
Fixpoint world_run (n : nat) (ls : list world_label) (w : sample_world) : sample_world :=
  match n with
  | O => w
  | Datatypes.S n => match first_step ls w with Some w' => world_run n ls w' | None => w end
  end.

Lemma world_run_reachable k mud st n ls w :
  sample_reachable k mud st w → sample_reachable k mud st (world_run n ls w).
Proof.
  revert w. induction n as [|n IH]; intros w Hr; cbn [world_run]; [done|].
  destruct (first_step ls w) as [w1|] eqn:E; [|done]. apply IH. clear IH.
  induction ls as [|l ls IHl]; cbn [first_step] in E; [done|].
  destruct (sample_exec l w) as [[w2| | |]|] eqn:El; auto.
  injection E as <-. eapply rtc_r; [done|]. by econstructor.
Qed.

(** The server starts or accepts; the actors of one user work. *)
Definition server_labels (id : Z) : list world_label := [ServerSends; ServerRuns (mkSockaddr 0 0) id].
Definition user_labels (i : nat) : list world_label :=
  (SessionSteps i <$> [Flush RLogin; Flush RDefault; Flush RCommand; RunLogin first_draws; Run RDefault; Run RCommand; Stop RLogin]) ++
  [RecorderSends; RecorderRuns; StorageRuns; ConnectionSends i; ConnectionRuns i].

(** Two connections; on the first "ann" registers and asks for help. *)
Definition typed (s : string) : list Z := bytes_of (s +:+ newline)%string.
Definition sample_input : script :=
  ([typed "1"; typed "2"; typed "ann"; typed "pw"; typed "pw"; typed "help"], "").

Definition sample_new : sample_world := world_new (S := Script) sample_input sample_config mini_storage.
Definition sample_accepted : sample_world := world_run 4 (server_labels 2) (world_run 5 (server_labels 1) sample_new).
Definition sample_registered : sample_world := world_run 200 (user_labels 0) sample_accepted.

Lemma sample_registered_reachable : sample_reachable sample_input sample_config mini_storage sample_registered.
Proof. do 3 apply world_run_reachable. constructor. Qed.

Example sample_state :
  ((s_handled ∘ c_session) <$> w_clients sample_registered, (a_alive ∘ c_connection) <$> w_clients sample_registered,
   length (sent_events (w_clients sample_registered))) = ([["help"]; []], [true; true], 1%nat).
Proof. vm_compute. reflexivity. Qed.

Abbreviation mini_laws := (redis_laws (R := MiniRedis) (connected := mini_connected) (keys := mini_keys)).

Lemma world_safe_witness : ∃ c, c ∈ w_clients sample_registered ∧ s_handled (c_session c) = ["help"] ∧
  registered (c_session c).
Proof.
  assert (∃ c, head (w_clients sample_registered) = Some c ∧ s_handled (c_session c) = ["help"]) as (c & Hc & Hh)
    by (eexists; split; vm_compute; reflexivity).
  assert (c ∈ w_clients sample_registered) as Hin by (destruct (w_clients sample_registered); [discriminate Hc|injection Hc as ->; left]).
  exists c. split; [exact Hin|]. split; [exact Hh|].
  refine (proj2 (world_safe (L := Script_laws) (NL := ScriptNet_laws) (SL := mini_laws) (replicate 64 0) (replicate 64 0)
    sample_input sample_config mini_storage sample_registered eq_refl eq_refl mini_ready sample_registered_reachable) c Hin _).
  rewrite Hh. discriminate.
Defined.

Lemma registrations_stored_witness : ∃ done waiting,
  (∃ s, a_state (w_storage sample_registered) = Some s ∧
     redis_view (keys := mini_keys) s = run_writes (entry_write <$> done) (redis_view (keys := mini_keys) mini_storage)) ∧
  length (done ++ waiting) = 1%nat.
Proof.
  assert (w_system sample_registered = true) as Hs by (vm_compute; reflexivity).
  destruct (registrations_stored (L := Script_laws) (NL := ScriptNet_laws) (SL := mini_laws) (replicate 64 0) (replicate 64 0)
    sample_input sample_config mini_storage sample_registered eq_refl eq_refl mini_ready sample_registered_reachable)
    as (done & waiting & lost & Hst & Hp & _ & Hl).
  destruct (Hl Hs) as [-> _].
  exists done, waiting. split; [exact Hst|]. rewrite app_nil_r in Hp. rewrite Hp. vm_compute. reflexivity.
Defined.
