(* ===== verification/Provenance.v ===== *)
(** * What is stored was typed

    The whole server of World.v with the log-in dialogue of Dialogue.v and the
    assembly of input of Connection.v: in every run, whatever is stored about a
    user comes from the commands that the connection of one client has made of
    the text it has read from its socket. *)
From Stdlib Require Import String.
From stdpp Require Import strings.
From S2P Require Import Prelude.
From S2P Require Import Text.
From S2P Require Import Security.
From S2P Require Import Comm.
From S2P Require Import Controllers.
From S2P Require Import Connection.
From S2P Require Import Session.
From S2P Require Import Dialogue.
From S2P Require Import Storage.
From S2P Require Import Redis.
From S2P Require Import Events.
From S2P Require Import Server.
From S2P Require Import Dispatch.
From S2P Require Import World.

(** ** Specification *)

(** The commands that are passed on: [quit] and [exit] end the connection. *)
Definition passed (q : string) : Prop := q ≠ "quit" ∧ q ≠ "exit".
#[export] Instance passed_dec q : Decision (passed q).
Proof. unfold passed. apply _. Defined.
Definition commands_of (chunks : list string) : list string := filter passed (assemble "" chunks).1.

Section specification.
Context {S : Socket} {N : Net S} {store : Type} {St : Storage store}.
Context (uninit extra : list Z).

Abbreviation W := (world kernel store).
Abbreviation world_exec := (world_exec uninit extra).

(** The text a connection actor reads when it handles [m]. *)
Definition hears (k : kernel) (st : ConnectionActor) (m : msg) : list string :=
  match m with
  | FromUserGetInput =>
      if has_data k (m_connection st) then
        match read_from_user k (m_connection st) with
        | Ret (_, bytes_read, user_read) => if decide (bytes_read = 0) then [] else [user_read]
        | _ => []
        end
      else []
  | _ => []
  end.

(** What client [i] hears when [l] is taken in [w]. *)
Definition heard_step (i : nat) (l : world_label) (w : W) : list string :=
  match l, w_clients w !! i with
  | ConnectionRuns j, Some c =>
      if decide (j = i) then
        match a_mail (c_connection c) with m :: _ => hears (w_kernel w) (a_state (c_connection c)) m | [] => [] end
      else []
  | _, _ => []
  end.

(** A run along given labels, and what client [i] hears in it. *)
Fixpoint follow (ls : list world_label) (w : W) : option W :=
  match ls with
  | [] => Some w
  | l :: ls => match world_exec l w with Some (Ret w') => follow ls w' | _ => None end
  end.

Fixpoint heard (i : nat) (ls : list world_label) (w : W) : list string :=
  match ls with
  | [] => []
  | l :: ls => heard_step i l w ++ match world_exec l w with Some (Ret w') => heard i ls w' | _ => [] end
  end.
End specification.

(** ** One session *)

(** Nothing has been sent to the command actor yet. *)
Record idle_session (s : session) : Prop := {
  id_active : m_active_controller (a_state (s_command s)) = None;
  id_command : a_out (s_command s) = [] ∧ a_mail (s_command s) = [];
  id_login : a_alive (s_login s) = false ∧ a_exit (s_login s) = false ∧ a_mail (s_login s) = [] ∧ a_out (s_login s) = [];
  id_default : a_mail (s_default s) = [] ∧ a_out (s_default s) = [];
  id_events : s_events s = [];
  id_handled : s_handled s = []
}.

Lemma session_start_idle : idle_session session_start.
Proof. by split. Qed.

(** The welcome starts the session. *)
Lemma idle_welcome s : idle_session s → follows [] [] (perform s (Send RCommand PerformWelcome)).
Proof.
  intros [I1 [I2 I2'] (I3 & I3' & I3'' & I3''') [I4 I4'] I5 I6].
  assert (∀ m, m ∈ a_mail (mail PerformWelcome (s_command s)) → m = PerformWelcome) as Hm.
  { intros m [H|H]%mail_mail; [|done]. rewrite I2' in H. by apply elem_of_nil in H. }
  split; cbn; rewrite ?mail_state.
  - rewrite I5, I3'''. by intros [].
  - congruence.
  - rewrite I3'''. intros [H%Hm|[[]%elem_of_nil|?]]; [done|congruence].
  - done.
  - by rewrite I3''', I4'.
  - left. split; cbn; rewrite ?mail_state, ?mail_out; try done. split; [done|]. intros Ha.
    unfold mail. rewrite mail_alive in Ha. rewrite Ha. cbn. by rewrite I2'.
Qed.

Lemma send_exit_idle s a : idle_session s → a ≠ RLogin → idle_session (perform s (SendExit a)).
Proof. intros [I1 I2 I3 I4 I5 I6] Ha. destruct a; try done; by split. Qed.

Lemma send_exit_follows ins l s a : follows ins l s →
  (a = RLogin → a_alive (s_command s) = false ∧ m_active_controller (a_state (s_command s)) ≠ None) →
  follows ins l (perform s (SendExit a)).
Proof.
  intros F Ha. destruct a; try done; pose proof F as [F1 F2 F3 F4 F5 F6]; (split; cbn; try done).
  - destruct F6 as [[A1 A2 A3 A4 A5 A6 A7]|[[B1 B2 B3 B4 B5]|[C1 C2 C3]]]; [left; by split|right; left; by split|right; right; by split].
  - destruct (Ha eq_refl) as [Hd Hn].
    destruct F6 as [[]|[[B1 B2 B3 B4 B5]|[C1 C2 C3]]]; [done|right; left; split; cbn; try done; congruence|right; right; by split].
  - destruct F6 as [[A1 A2 A3 A4 A5 A6 A7]|[[B1 B2 B3 B4 B5]|[C1 C2 C3]]]; [left; by split|right; left; by split|right; right; by split].
Qed.

Lemma dead_command_follows ins l s : follows ins l s → follows ins l (set_command s (set_dead (s_command s))).
Proof.
  intros [F1 F2 F3 F4 F5 F6]. split; cbn; try done.
  - intros [[]%elem_of_nil|?]. apply F3. auto.
  - by intros []%elem_of_nil.
  - destruct F6 as [[A1 A2 A3 A4 A5 A6 A7]|[[B1 (rest & -> & _) B3 B4 B5]|[C1 (r1 & r2 & -> & _) C3]]];
      [left; by split|right; left|right; right]; (split; cbn; try done).
    + by exists rest.
    + split; [apply B5|done].
    + by exists r1, r2.
    + split; [done|]. by intros []%elem_of_nil.
Qed.

Lemma stop_command_follows ins l s : follows ins l s → m_default_controller (a_state (s_command s)) = RDefault →
  follows ins l (stop_command s).
Proof.
  intros F Hd. unfold stop_command, command_exit. pose proof (dead_command_follows ins l s F) as F0.
  rewrite Hd. cbn [foldl app]. destruct (m_active_controller (a_state (s_command s))) as [c|] eqn:E; cbn [app foldl].
  - apply send_exit_follows; [|done]. apply send_exit_follows; [done|]. intros _. cbn. by rewrite E.
  - by apply send_exit_follows.
Qed.

Lemma stop_command_idle s : idle_session s → m_default_controller (a_state (s_command s)) = RDefault →
  idle_session (stop_command s).
Proof.
  intros I Hd. pose proof (id_active _ I) as Ha. unfold stop_command, command_exit. rewrite Hd, Ha. cbn [app foldl].
  apply send_exit_idle; [|done]. destruct I as [I1 I2 I3 I4 I5 I6]. by split.
Qed.

(** What goes to the user is prompts and texts. *)
Definition spoken (m : msg) : Prop := match m with ToUserPrompt _ | ToUserEmit _ => True | _ => False end.
Definition speaks (e : effect) : Prop := match e with Send RConnection m => spoken m | _ => True end.

Lemma exec_speaks uninit extra l s s' : inv s → Forall login_says (a_out (s_login s)) ∧ Forall default_says (a_out (s_default s)) →
  Forall speaks (a_out (s_command s)) → exec uninit extra l s = Some (Ret s') →
  Forall speaks (a_out (s_command s')) ∧ ∃ us, s_user s' = s_user s ++ us ∧ Forall spoken us.
Proof.
  intros I [Hl Hd] Hs E. assert (∀ s1, s_user s1 = s_user s → ∃ us, s_user s1 = s_user s ++ us ∧ Forall spoken us) as Hsame.
  { intros s1 ->. exists []. by rewrite app_nil_r. }
  destruct l as [i|[]|d|[]|[]]; cbn [exec] in E; try done.
  - injection E as <-. cbn. rewrite mail_out. auto.
  - destruct (a_alive (s_command s)), (a_out (s_command s)), (a_mail (s_command s)) as [|m ms]; try done.
    destruct (command_handle _ m) as [[st e]| | |] eqn:Eh; try done. injection E as <-. split; [|by apply Hsame].
    cbn. destruct m; cbn in Eh; repeat case_match; try done; injection Eh as <- <-; repeat constructor.
    destruct (i_active _ I) as [?|[?|[? _]]]; simplify_eq/=; done.
  - destruct (a_alive (s_default s)), (a_out (s_default s)), (a_mail (s_default s)); try done. injection E as <-. split; [done|by apply Hsame].
  - destruct (a_alive (s_login s)), (a_out (s_login s)), (a_mail (s_login s)) as [|m ms]; try done.
    destruct (login_handle _ _ _ _ m) as [[st e]| | |]; try done. injection E as <-. split; [done|by apply Hsame].
  - destruct (a_out (s_command s)) as [|e es] eqn:Eo; [done|]. injection E as <-.
    apply Forall_cons in Hs as [He Hs]. destruct e as [[] m|[]|[]|n|n]; cbn; rewrite ?mail_out; auto.
    split; [done|]. exists [m]. split; [done|]. by constructor.
  - destruct (a_out (s_login s)) as [|e es] eqn:Eo; [done|]. injection E as <-.
    apply Forall_cons in Hl as [He _]. destruct e as [[] m|[]|[]|n|n]; try done; cbn; rewrite ?mail_out; auto.
  - destruct (a_out (s_default s)) as [|e es] eqn:Eo; [done|]. injection E as <-.
    apply Forall_cons in Hd as [He _]. destruct e as [[] m|[]|[]|n|n]; try done; cbn; rewrite ?mail_out; auto.
  - destruct (_ && _); [|done]. injection E as <-. auto.
  - destruct (_ && _); [|done]. injection E as <-. auto.
Qed.

(** An idle session does not move. *)
Lemma idle_steps uninit extra l s s' : idle_session s → is_input l = false → exec uninit extra l s = Some (Ret s') →
  idle_session s' ∧ s_user s' = s_user s.
Proof.
  intros I Hi E. pose proof I as [I1 [I2 I2'] (I3 & I3' & I3'' & I3''') [I4 I4'] I5 I6].
  destruct l as [i|[]|d|[]|[]]; cbn [exec] in E; try done; rewrite ?I2, ?I2', ?I3, ?I3''', ?I4, ?I4' in E; try done;
    repeat case_match; try done. injection E as <-. split; [|done]. by split.
Qed.

(** ** One connection actor *)
Definition connection_says (e : effect) : Prop :=
  match e with
  | Send RConnection (FromUserGetInput | GoodbyeConnection) | Send RCommand (OnUserInput _ | PerformWelcome)
  | RegistryErase _ | SendExit RConnection => True
  | _ => False
  end.

Lemma commands_of_app h h' :
  commands_of (h ++ h') = commands_of h ++ filter passed (assemble (assemble "" h).2 h').1 ∧
  (assemble "" (h ++ h')).2 = (assemble (assemble "" h).2 h').2.
Proof.
  unfold commands_of. rewrite assemble_app. destruct (assemble "" h) as [c1 w1]. cbn [fst snd].
  destruct (assemble w1 h') as [c2 w2]. cbn [fst snd]. by rewrite filter_app.
Qed.

(** A handler hears at most one text, and passes on the command it completes. *)
Lemma handle_hears {S : Socket} {L : SocketLaws S} k st m k' st' e : 0 < m_connection st →
  connection_handle k st m = Ret (k', st', e) →
  commands e = filter passed (assemble (m_current_input st) (hears k st m)).1 ∧
  m_current_input st' = (assemble (m_current_input st) (hears k st m)).2 ∧
  Forall connection_says e ∧ (Send RCommand PerformWelcome ∈ e → m = PerformWelcome ∧ e = [Send RCommand PerformWelcome]).
Proof.
  intros Hfd E. destruct (decide (m = FromUserGetInput)) as [->|Hm].
  - unfold hears. destruct (has_data k (m_connection st)) eqn:Hd.
    + destruct (poll_reads k st Hfd Hd) as (k1 & r & text & Er & Eh). rewrite Eh in E. injection E as <- <- <-.
      rewrite Er. destruct (decide (r = 0)) as [->|Hr].
      * unfold on_read. rewrite decide_True by done. case_decide; cbn; split_and!; try done; repeat constructor; set_solver.
      * unfold on_read. rewrite (decide_False (P := r = 0)), assemble_one by done.
        destruct (decide (has_newline text)) as [Hn|Hn].
        -- rewrite (decide_False (P := find text NEWLINE 0 = None)) by (rewrite find_newline; tauto).
           set (q := sanitize _). destruct (decide (q = "quit" ∨ q = "exit")) as [Hq|Hq]; cbn.
           ++ rewrite decide_False by (unfold passed; tauto). split_and!; try done; repeat constructor; set_solver.
           ++ rewrite decide_True by (unfold passed; tauto). split_and!; try done; repeat constructor; set_solver.
        -- rewrite (decide_True (P := find text NEWLINE 0 = None)) by by rewrite find_newline.
           cbn. split_and!; try done; repeat constructor; set_solver.
    + cbn [connection_handle] in E. rewrite CommStatic_Ret in E by done. cbn [mbind outcome_bind] in E. rewrite Hd in E. injection E as <- <- <-.
      cbn. split_and!; try done; repeat constructor; set_solver.
  - assert (hears k st m = []) as -> by by destruct m.
    assert (st' = st ∧ commands e = [] ∧ Forall connection_says e ∧
      (Send RCommand PerformWelcome ∈ e → m = PerformWelcome ∧ e = [Send RCommand PerformWelcome])) as (-> & -> & ? & ?); [|done].
    destruct m; try done; cbn [connection_handle] in E; rewrite ?decide_True in E by lia; rewrite ?CommStatic_Ret in E by done;
      cbn [mbind outcome_bind] in E; repeat case_match; simplify_eq/=; split_and!; try done; repeat constructor; try done; set_solver.
Qed.

(** ** One client

    [p] counts the welcomes the server has still to send to this client, [h] is
    what its connection actor has heard. *)
Definition welcomes (p : nat) (a : actor ConnectionActor) : nat :=
  (p + count_eq PerformWelcome (a_mail a) + count_eq (Send RCommand PerformWelcome) (a_out a))%nat.

(** What a connection actor may send before it has passed the welcome on. *)
Definition quiet (e : effect) : Prop :=
  match e with Send RCommand PerformWelcome | RegistryErase _ | SendExit RConnection => True | _ => False end.

Record before_welcome (p : nat) (h : list string) (c : client) : Prop := {
  bw_session : idle_session (c_session c);
  bw_mail : Forall (λ m, m = PerformWelcome ∨ m = GoodbyeConnection) (a_mail (c_connection c));
  bw_out : Forall quiet (a_out (c_connection c));
  bw_heard : h = [];
  bw_input : m_current_input (a_state (c_connection c)) = "";
  bw_once : (welcomes p (c_connection c) ≤ 1)%nat
}.

Record after_welcome (p : nat) (h : list string) (c : client) : Prop := {
  aw_session : ∃ said l, follows said l (c_session c) ∧ said ++ commands (a_out (c_connection c)) = commands_of h;
  aw_input : m_current_input (a_state (c_connection c)) = (assemble "" h).2;
  aw_none : welcomes p (c_connection c) = 0%nat
}.

Record client_trace (p : nat) (h : list string) (c : client) : Prop := {
  ct_says : Forall connection_says (a_out (c_connection c));
  ct_speaks : Forall speaks (a_out (s_command (c_session c)));
  ct_phase : before_welcome p h c ∨ after_welcome p h c
}.

Lemma count_eq_app {A} `{EqDecision A} (x : A) l1 l2 : count_eq x (l1 ++ l2) = (count_eq x l1 + count_eq x l2)%nat.
Proof. unfold count_eq. by rewrite filter_app, length_app. Qed.

Lemma count_eq_cons {A} `{EqDecision A} (x y : A) l : count_eq x (y :: l) = ((if decide (y = x) then 1 else 0) + count_eq x l)%nat.
Proof. unfold count_eq. rewrite filter_cons. by case_decide. Qed.

Lemma count_eq_zero {A} `{EqDecision A} (x : A) l : count_eq x l = 0%nat ↔ x ∉ l.
Proof.
  induction l as [|y l IH]; [split; [intros _; apply not_elem_of_nil|done]|].
  rewrite count_eq_cons, not_elem_of_cons, <-IH. case_decide; split; intros; naive_solver lia.
Qed.

(** Mail for the connection actor that is no welcome. *)
Lemma welcomes_mail p m a : m ≠ PerformWelcome → welcomes p (mail m a) = welcomes p a.
Proof.
  intros Hm. unfold welcomes. rewrite mail_out. unfold mail. destruct (a_alive a); [|done]. cbn [a_mail].
  rewrite count_eq_app, count_eq_cons, decide_False by done. change (count_eq PerformWelcome []) with 0%nat. lia.
Qed.

Lemma welcomes_mails p ms a : Forall spoken ms → welcomes p (mails ms a) = welcomes p a.
Proof.
  unfold mails. revert a. induction ms as [|m ms IH]; intros a Hs; [done|]. apply Forall_cons in Hs as [Hm Hs].
  cbn. rewrite (IH _ Hs). apply welcomes_mail. by intros ->.
Qed.

Lemma trace_mono p p' h c : (p' ≤ p)%nat → client_trace p h c → client_trace p' h c.
Proof.
  intros Hp [T1 T2 T3]. split; [done|done|]. destruct T3 as [[]|[]]; [left|right]; split; try done; unfold welcomes in *; lia.
Qed.

(** The welcome arrives at the connection actor. *)
Lemma trace_welcome p h c : client_trace (Datatypes.S p) h c →
  client_trace p h (set_connection c (mail PerformWelcome (c_connection c))).
Proof.
  intros [T1 T2 [[B1 B2 B3 B4 B5 B6]|[A1 A2 A3]]]; [|unfold welcomes in A3; lia].
  split; cbn; rewrite ?mail_out; try done. left. split; cbn; rewrite ?mail_out, ?mail_state; try done.
  - unfold mail. destruct (a_alive _); [|done]. cbn. apply Forall_app. split; [done|]. constructor; [by left|constructor].
  - unfold welcomes in *. rewrite mail_out. unfold mail. destruct (a_alive _); cbn [a_mail]; [|lia].
    rewrite count_eq_app, count_eq_cons, decide_True by done. change (count_eq PerformWelcome []) with 0%nat. lia.
Qed.

Lemma trace_goodbye p h c : client_trace p h c →
  client_trace p h (set_connection c (mail GoodbyeConnection (c_connection c))).
Proof.
  intros [T1 T2 T3]. split; cbn; rewrite ?mail_out; try done.
  destruct T3 as [[B1 B2 B3 B4 B5 B6]|[A1 A2 A3]]; [left|right]; (split; cbn; rewrite ?mail_out, ?mail_state, ?welcomes_mail by done; try done).
  unfold mail. destruct (a_alive _); [|done]. cbn. apply Forall_app. split; [done|]. constructor; [by right|constructor].
Qed.

(** The connection actor handles a message. *)
Lemma trace_runs {S : Socket} {L : SocketLaws S} p h c m ms k k' st e b : client_trace p h c →
  0 < m_connection (a_state (c_connection c)) → a_out (c_connection c) = [] → a_mail (c_connection c) = m :: ms →
  connection_handle k (a_state (c_connection c)) m = Ret (k', st, e) →
  client_trace p (h ++ hears k (a_state (c_connection c)) m) (set_connection c (mkActor st ms e true b)).
Proof.
  intros [T1 T2 T3] Hfd Ho Hm E. destruct (handle_hears k _ m k' st e Hfd E) as (Hc & Hi & Hs & Hw).
  split; cbn; try done. destruct T3 as [[B1 B2 B3 B4 B5 B6]|[(said & l & F & A1) A2 A3]].
  - left. rewrite Hm in B2. apply Forall_cons in B2 as [B2 B2'].
    assert (hears k (a_state (c_connection c)) m = []) as Hh by by destruct B2 as [->| ->].
    rewrite Hh in Hi |- *. rewrite app_nil_r. split; cbn; try done.
    + destruct B2 as [->| ->]; cbn in E; [injection E as _ _ <-; by repeat constructor|].
      rewrite decide_True in E by lia. rewrite CommStatic_Ret in E by done. cbn [mbind outcome_bind] in E.
      repeat case_match. injection E as _ _ <-. by repeat constructor.
    + by rewrite Hi.
    + unfold welcomes in *. cbn [a_mail a_out set_connection c_connection]. rewrite Hm, Ho, count_eq_cons in B6.
      destruct (decide (Send RCommand PerformWelcome ∈ e)) as [Hin|Hin%count_eq_zero]; [|lia].
      destruct (Hw Hin) as [-> ->]. rewrite decide_True in B6 by done.
      rewrite count_eq_cons, decide_True by done. lia.
  - right. unfold welcomes in A3. rewrite Hm, Ho, count_eq_cons in A3.
    split; cbn [c_session c_connection set_connection a_out a_state]; try done.
    + exists said, l. split; [done|]. rewrite Ho in A1. cbn in A1. rewrite app_nil_r in A1.
      destruct (commands_of_app h (hears k (a_state (c_connection c)) m)) as [-> _]. by rewrite Hc, A1, A2.
    + destruct (commands_of_app h (hears k (a_state (c_connection c)) m)) as [_ ->]. by rewrite Hi, A2.
    + unfold welcomes. cbn [a_mail a_out set_connection c_connection]. destruct (decide (Send RCommand PerformWelcome ∈ e)) as [Hin|Hin%count_eq_zero]; [|lia].
      destruct (Hw Hin) as [-> ->]. rewrite decide_True in A3 by done. lia.
Qed.

(** What becomes of a client when its connection actor sends [e]. *)
Definition client_after (c : client) (e : effect) : client :=
  match e with
  | Send RConnection m => set_connection c (mail m (c_connection c))
  | Send RCommand m => set_session c (perform (c_session c) (Send RCommand m))
  | SendExit RConnection => set_connection c (request_exit (c_connection c))
  | _ => c
  end.

Lemma trace_sends p h c e es : client_trace p h c → a_out (c_connection c) = e :: es →
  client_trace p h (client_after (set_connection c (set_out (c_connection c) es)) e).
Proof.
  intros [T1 T2 T3] Ho. rewrite Ho in T1. apply Forall_cons in T1 as [He T1].
  destruct T3 as [[B1 B2 B3 B4 B5 B6]|[(said & l & F & A1) A2 A3]].
  - rewrite Ho in B3. apply Forall_cons in B3 as [Hq B3]. unfold welcomes in B6. rewrite Ho, count_eq_cons in B6.
    destruct e as [[] []|[]|?|?|?]; try done; cbn [client_after].
    + rewrite decide_True in B6 by done. split; [done|cbn; by rewrite mail_out|]. right.
      split; [|by rewrite B4|unfold welcomes; cbn [c_connection set_connection set_session set_out a_mail a_out]; lia].
      exists [], []. split; [by apply idle_welcome|]. subst h. change (commands es = []). clear -B3. induction B3 as [|x l Hx _ IH]; [done|]. by destruct x as [[] []|?|?|?|?].
    + rewrite decide_False in B6 by done. split; [done|done|left]. by split.
    + rewrite decide_False in B6 by done. split; [done|done|left]. by split.
  - unfold welcomes in A3. rewrite Ho, count_eq_cons in A3. rewrite Ho in A1. set (a := set_out (c_connection c) es).
    assert (e ≠ Send RCommand PerformWelcome) as Hne by (intros ->; rewrite decide_True in A3 by done; lia).
    assert (welcomes p a = 0%nat) as Hz by (unfold welcomes; cbn [a a_mail a_out set_out]; lia).
    assert (commands (e :: es) = commands es → ∀ b, welcomes p b = 0%nat → a_out b = es → a_state b = a_state (c_connection c) →
      client_trace p h (set_connection c b)) as Hsame.
    { intros Ec b Hb Eo Es. rewrite Ec in A1. split; cbn [c_connection set_connection c_session]; rewrite ?Eo, ?Es; try done.
      right. split; cbn [c_connection set_connection c_session]; rewrite ?Eo, ?Es; try done. by exists said, l. }
    destruct e as [[] []|[]|?|?|?]; try done; cbn [client_after].
    + apply Hsame; rewrite ?welcomes_mail, ?mail_out, ?mail_state by done; done.
    + apply Hsame; rewrite ?welcomes_mail, ?mail_out, ?mail_state by done; done.
    + split; [done|cbn; by rewrite mail_out|]. right. split; [|done|done].
      exists (said ++ [input]), l. split; [by apply follows_input|]. rewrite <-A1, <-app_assoc. done.
    + by apply Hsame.
    + by apply Hsame.
Qed.

(** A step of the session: what it sends to the user goes to the connection
    actor. *)
Lemma trace_session uninit extra p h c lb s' : length uninit = 64%nat → length extra = 64%nat → client_trace p h c →
  inv (c_session c) → leashed (c_session c) → is_input lb = false →
  exec uninit extra lb (c_session c) = Some (Ret s') →
  client_trace p h (mkClient (mails (drop (length (s_user (c_session c))) (s_user s')) (c_connection c)) s').
Proof.
  intros Hu He [T1 T2 T3] I L Hi E.
  destruct T3 as [B|[(said & l & F & A1) A2 A3]].
  - pose proof B as [B1 B2 B3 B4 B5 B6]. destruct (idle_steps uninit extra lb _ s' B1 Hi E) as [I' ->].
    rewrite drop_all. cbn [mails foldl]. split; cbn; [done| |left; by split].
    destruct I' as [_ [-> _] _ _ _ _]. constructor.
  - destruct (exec_speaks uninit extra lb _ s' I (fo_says _ _ _ F) T2 E) as (T2' & us & -> & Hus).
    rewrite drop_app_length. destruct (exec_follows uninit extra Hu He lb said l _ s' I L F E) as (l' & F').
    assert (inputs [lb] = []) as Ei by by destruct lb. rewrite Ei, app_nil_r in F'.
    split; cbn; rewrite ?mails_out; try done. right. split; cbn; rewrite ?mails_out, ?mails_state, ?welcomes_mails by done; try done.
    by exists said, l'.
Qed.

(** The ends of the connection actor and of the command actor. *)
Lemma trace_connection_stops p h c : client_trace p h c → a_out (c_connection c) = [] →
  client_trace p h (mkClient (set_dead (c_connection c)) (foldl perform (c_session c) connection_exit)).
Proof.
  intros [T1 T2 T3] Ho. split; cbn; try done.
  destruct T3 as [[B1 B2 B3 B4 B5 B6]|[(said & l & F & A1) A2 A3]]; [left|right].
  - split; cbn; try done; [by apply (send_exit_idle _ RCommand)|].
    unfold welcomes in *. cbn. lia.
  - rewrite Ho in A1. split; cbn; try done; [|unfold welcomes in *; cbn; lia].
    exists said, l. split; [by apply (send_exit_follows _ _ _ RCommand)|done].
Qed.

Lemma trace_command_stops p h c : client_trace p h c → inv (c_session c) →
  client_trace p h (set_session c (stop_command (c_session c))).
Proof.
  intros [T1 T2 T3] I. pose proof (i_default _ I) as Hd. split; cbn; try done.
  - assert (∀ l s, a_out (s_command (foldl perform s l)) = a_out (s_command s)) as Hp.
    { induction l as [|e l IH]; intros s; [done|]. cbn. rewrite IH. destruct e as [[]|[]|[]|?|?]; cbn; by rewrite ?mail_out. }
    unfold stop_command. rewrite Hp. constructor.
  - destruct T3 as [[B1 B2 B3 B4 B5 B6]|[(said & l & F & A1) A2 A3]]; [left|right]; (split; cbn; try done).
    + by apply stop_command_idle.
    + exists said, l. split; [by apply stop_command_follows|done].
Qed.

(** ** The whole server *)
Section provenance.
Context {S : Socket} {L : SocketLaws S} {N : Net S} {NL : NetLaws N}.
Context {store : Type} {St : Storage store} {ready : store → Prop} {view : store → keyspace}.
Context {SL : StorageLaws St ready view}.
Context (uninit extra : list Z) (Hu : length uninit = 64%nat) (He : length extra = 64%nat).
Context (ks0 : keyspace).

Abbreviation W := (world kernel store).
Abbreviation world_inv := (world_inv (ready := ready) (view := view) ks0).
Abbreviation world_exec := (world_exec uninit extra).

(** The welcomes for client [i] that the server has still to send: they go to
    the last client. *)
Definition pending (i : nat) (w : W) : nat :=
  if decide (Datatypes.S i = length (w_clients w)) then count_eq (Send RConnection PerformWelcome) (a_out (w_server w)) else 0%nat.

Definition server_says (e : effect) : Prop := match e with Send RConnection m => m = PerformWelcome | _ => True end.

Record traced (H : nat → list string) (w : W) : Prop := {
  tw_says : Forall server_says (a_out (w_server w));
  tw_clients i c : w_clients w !! i = Some c → client_trace (pending i w) (H i) c;
  tw_rest i : (length (w_clients w) ≤ i)%nat → H i = []
}.

(** Nothing the trace depends on changes. *)
Lemma traced_same H w w' : traced H w → w_clients w' = w_clients w → a_out (w_server w') = a_out (w_server w) → traced H w'.
Proof.
  intros [T1 T2 T3] Ec Es. split; rewrite ?Ec, ?Es; try done. intros i c Hi. unfold pending. rewrite Ec, Es. by apply T2.
Qed.

(** One client changes, and what it has heard. *)
Lemma traced_client (H H' : nat → list string) w w' i c c' : traced H w → w_clients w !! i = Some c →
  w_clients w' = <[i := c']> (w_clients w) → a_out (w_server w') = a_out (w_server w) →
  client_trace (pending i w) (H' i) c' → (∀ j, j ≠ i → H' j = H j) → traced H' w'.
Proof.
  intros [T1 T2 T3] Hi Ec Es Hc' HH. split; rewrite ?Es, ?Ec, ?length_insert; try done.
  - intros j d Hj. unfold pending. rewrite Ec, length_insert, Es.
    apply list_lookup_insert_Some in Hj as [(<- & -> & _)|[Hne Hj]]; [done|]. rewrite HH by done. by apply T2.
  - intros j Hj. rewrite HH; [by apply T3|]. apply lookup_lt_Some in Hi. lia.
Qed.

Lemma traced_ext H H' w : (∀ i, H' i = H i) → traced H w → traced H' w.
Proof. intros HH [T1 T2 T3]. split; [done|intros i c; rewrite HH; apply T2|intros i; rewrite HH; apply T3]. Qed.

(** What a handler of the server sends and spawns. *)
Lemma server_handle_says k sa id st m h : server_handle k sa id st m = Ret h →
  Forall server_says (h_effects h) ∧
  match h_spawned h with
  | None => count_eq (Send RConnection PerformWelcome) (h_effects h) = 0%nat
  | Some (conn, _) => count_eq (Send RConnection PerformWelcome) (h_effects h) = 1%nat ∧ m_current_input conn = ""
  end.
Proof.
  destruct m; cbn [server_handle]; try (intros [= <-]; split; [repeat constructor|reflexivity]).
  - unfold accept_handle. case_decide; [intros [= <-]; split; [constructor|reflexivity]|].
    destruct (accept _ _ _) as [k1 c_id]. case_decide; [intros [= <-]; split; [repeat constructor|reflexivity]|].
    unfold connection_new. destruct (CommStatic _) as [comm| | |]; try done. cbn [mbind outcome_bind].
    destruct (and_then _ _ _) as [k2 b]. cbn [mbind outcome_bind]. intros [= <-]. split; [repeat constructor|].
    split; reflexivity.
  - intros [= <-]. unfold start_handle. destruct (socket k) as [k1 fd]. case_decide; [split; [constructor|reflexivity]|].
    destruct (bind _ _ _) as [k2 r]. case_decide; [split; [constructor|reflexivity]|].
    destruct (listen _ _ _) as [k3 r']. case_decide; split; repeat constructor.
Qed.

Lemma traced_server_runs H w sa id m ms h : traced H w → a_out (w_server w) = [] →
  server_handle (w_kernel w) sa id (a_state (w_server w)) m = Ret h →
  traced H (spawn_client (h_spawned h) (answered (h_reply h)
    (set_server (mkActor (h_state h) ms (h_effects h) true (a_exit (w_server w))) (set_kernel (h_kernel h) w)))).
Proof.
  intros [T1 T2 T3] Ho E. destruct (server_handle_says _ _ _ _ _ _ E) as [Hs Hc]. set (a := mkActor _ _ _ _ _).
  assert (∀ i, pending i w = 0%nat) as Hp by (intros i; unfold pending; rewrite Ho; by case_decide).
  assert (∀ w1, w_clients w1 = w_clients w → w_server w1 = a → match h_spawned h with None => True | Some _ => False end → traced H w1) as Hnone.
  { intros w1 Ec Ea Hn. destruct (h_spawned h); [done|]. split; rewrite ?Ea, ?Ec; try done. intros i c Hi.
    apply (trace_mono (pending i w)); [|by apply T2]. unfold pending. rewrite Ea, Ec. cbn [a a_out]. rewrite Hc. case_decide; lia. }
  destruct (h_spawned h) as [[conn e]|] eqn:Esp; cbn [spawn_client]; [|by destruct (h_reply h); apply Hnone].
  clear Hnone. destruct Hc as [Hc Hin].
  set (w1 := answered _ _). assert (w_clients w1 = w_clients w ∧ w_server w1 = a) as [Ec Ea] by by (subst w1; destruct (h_reply h)). clearbody w1.
  split; cbn [set_registry set_clients w_server w_clients]; rewrite ?Ea, ?Ec; [done| |].
  - intros i c Hi. apply lookup_app_Some in Hi as [Hi|[Hlen Hi]].
    + apply (trace_mono (pending i w)); [|by apply T2]. unfold pending. cbn [set_registry set_clients w_server w_clients].
      rewrite ?Ec, length_app. apply lookup_lt_Some in Hi. cbn. rewrite decide_False by lia. lia.
    + destruct (i - length (w_clients w))%nat as [|n] eqn:En; [|done]. injection Hi as <-.
      assert (i = length (w_clients w)) as -> by lia. rewrite T3 by done.
      split; [constructor|constructor|left]. split; try done.
      unfold pending. cbn [set_registry set_clients w_server w_clients]. rewrite ?Ec, ?Ea, length_app. cbn [a a_out length].
      rewrite decide_True by lia. rewrite Hc. unfold welcomes. cbn. lia.
  - intros i. rewrite length_app. cbn. intros Hi. apply T3. lia.
Qed.

Lemma traced_server_sends H w e es : traced H w → a_out (w_server w) = e :: es →
  traced H (server_perform (set_server (set_out (w_server w) es) w) e).
Proof.
  intros [T1 T2 T3] Ho. rewrite Ho in T1. apply Forall_cons in T1 as [He' T1].
  assert (∀ i, pending i w = ((if decide (Datatypes.S i = length (w_clients w)) then
    if decide (e = Send RConnection PerformWelcome) then 1 else 0 else 0) + pending i (set_server (set_out (w_server w) es) w))%nat) as Hp.
  { intros i. unfold pending. rewrite Ho. cbn [set_server w_clients w_server set_out a_out]. case_decide; [|done]. by rewrite count_eq_cons. }
  assert (∀ w1, w_clients w1 = w_clients w → a_out (w_server w1) = es → traced H w1) as Hsame.
  { intros w1 Ec Eo. split; rewrite ?Ec, ?Eo; try done. intros i c Hi. apply (trace_mono (pending i w)); [|by apply T2].
    rewrite Hp. unfold pending. cbn [set_server w_clients w_server set_out a_out]. rewrite Ec, Eo. lia. }
  destruct e as [[] m|[]|?|?|?]; try (by apply Hsame); cbn [server_perform].
  - cbn in He'. subst m. unfold mail_last, mail_connection. cbn [set_server w_clients].
    destruct (w_clients w !! pred (length (w_clients w))) as [c|] eqn:Hc; [|by apply Hsame].
    pose proof (lookup_lt_Some _ _ _ Hc) as Hlt. remember (pred (length (w_clients w))) as i eqn:Ei.
    assert (Datatypes.S i = length (w_clients w)) as Hi by lia. clear Ei.
    split; cbn [set_client set_server w_clients w_server set_out a_out]; rewrite ?length_insert; try done.
    intros j d Hj. unfold pending. cbn [set_client set_server w_clients w_server set_out a_out]. rewrite length_insert.
    apply list_lookup_insert_Some in Hj as [(<- & <- & _)|[Hne Hj]].
    + apply trace_welcome. specialize (T2 i c Hc). rewrite Hp in T2. rewrite !decide_True in T2 by done.
      unfold pending in T2. exact T2.
    + specialize (T2 j d Hj). rewrite Hp in T2. destruct (decide (Datatypes.S j = _)); [lia|].
      exact (trace_mono _ _ _ _ (Nat.le_0_l _) T2).
  - apply Hsame; cbn; [done|by rewrite mail_out].
Qed.

Lemma traced_goodbye H w i : traced H w → traced H (mail_connection i GoodbyeConnection w).
Proof.
  intros T. unfold mail_connection. destruct (w_clients w !! i) as [c|] eqn:Hc; [|done].
  eapply (traced_client H H w); [done|exact Hc|reflexivity|reflexivity| |done].
  apply trace_goodbye. by apply (tw_clients _ _ T).
Qed.

Lemma traced_connection_runs H w i c m ms k st e : traced H w → world_inv w → w_clients w !! i = Some c →
  a_out (c_connection c) = [] → a_mail (c_connection c) = m :: ms →
  connection_handle (w_kernel w) (a_state (c_connection c)) m = Ret (k, st, e) →
  traced (λ j, H j ++ heard_step j (ConnectionRuns i) w)
    (set_client i (set_connection c (mkActor st ms e true (a_exit (c_connection c)))) (set_kernel k w)).
Proof.
  intros T I Hc Ho Hm E. pose proof (wi_clients _ _ I) as Hall. rewrite Forall_lookup in Hall.
  eapply traced_client; [exact T|exact Hc|reflexivity|reflexivity| |].
  - cbn [heard_step]. rewrite Hc, decide_True, Hm by done. eapply trace_runs; try done; [by apply (tw_clients _ _ T)|].
    by apply (ci_descriptor _ (Hall i c Hc)).
  - intros j Hj. cbn [heard_step]. destruct (w_clients w !! j); [|by rewrite app_nil_r].
    rewrite decide_False by done. by rewrite app_nil_r.
Qed.

Lemma heard_step_none i l (w : W) : (∀ j, l ≠ ConnectionRuns j) → heard_step i l w = [].
Proof. intros Hl. destruct l as [| | |j| | | | | | | | | | |]; cbn; repeat case_match; try done. by destruct (Hl j). Qed.

(** Every step keeps the trace. *)
(** The main program says goodbye to connections, and no more. *)
Lemma traced_main H fails w w' : traced H w → main_exec fails w = Some w' → traced H w'.
Proof.
  unfold main_exec. intros T E. destruct (w_main w) as [| |[|i rest]| | |]; repeat case_match; simplify_eq; try by eapply traced_same.
  - destruct (receive _ _ _); [|done]. injection E as <-. by eapply traced_same.
  - eapply traced_same; [exact T|done|]. cbn. by rewrite mail_out.
  - eapply traced_same; [by apply (traced_goodbye H w i)|done|done].
  - destruct (receive _ _ _); [|done]. injection E as <-. by eapply traced_same.
Qed.

Lemma traced_step H w l w' : world_inv w → traced H w → world_exec l w = Some (Ret w') →
  traced (λ i, H i ++ heard_step i l w) w'.
Proof.
  intros I T E. pose proof (wi_clients _ _ I) as Hall. rewrite Forall_lookup in Hall. apply world_exec_rule in E.
  assert ((∀ j, l ≠ ConnectionRuns j) → traced H w' → traced (λ i, H i ++ heard_step i l w) w') as Hquiet.
  { intros Hl. apply traced_ext. intros i. by rewrite heard_step_none, app_nil_r. }
  destruct E as [sa id m ms h Ha Eo Em Hf Eh|e es Eo|El|i c m ms k st e Hi Ha Eo Em Eh|i c e es Hi Eo|i c Hi El|i c Hi El|
    i c l s Hi Hin Es|m ms Ea Eo Em|e es Eo|m ms st l Ea Em Er|fails w' E|w' E|El|El]; try (apply Hquiet; [done|]).
  - by eapply traced_server_runs.
  - by apply traced_server_sends.
  - apply leaving_exit in El as [_ Eo]. by eapply traced_same.
  - by eapply traced_connection_runs.
  - pose proof (trace_sends _ _ c e es (tw_clients _ _ T i c Hi) Eo) as Hc'.
    eapply (traced_client H H w _ i c _ T Hi); [| |exact Hc'|done]; destruct e as [[] m|[]|[]|n|n]; cbn;
      by rewrite ?list_insert_insert_eq.
  - apply leaving_exit in El as [_ Eo]. eapply (traced_client H H w _ i c _ T Hi); [done|done| |done].
    apply trace_connection_stops; [by apply (tw_clients _ _ T)|done].
  - eapply (traced_client H H w _ i c _ T Hi); [done|done| |done].
    apply trace_command_stops; [by apply (tw_clients _ _ T)|by apply (ci_session _ (Hall i c Hi))].
  - eapply (traced_client H H w _ i c _ T Hi); [done|done| |done]. pose proof (Hall i c Hi) as Hc.
    exact (trace_session uninit extra _ _ c l s Hu He (tw_clients _ _ T i c Hi) (ci_session _ Hc) (ci_leashed _ Hc) Hin Es).
  - by eapply traced_same.
  - by destruct e as [[]| | | |]; eapply traced_same.
  - by eapply traced_same.
  - by eapply traced_main.
  - unfold system_ends in E. repeat case_match; simplify_eq; by eapply traced_same.
  - by eapply traced_same.
  - by eapply traced_same.
Qed.

Lemma traced_run ls H w w' : world_inv w → traced H w → follow uninit extra ls w = Some w' →
  world_inv w' ∧ traced (λ i, H i ++ heard uninit extra i ls w) w'.
Proof.
  revert H w. induction ls as [|l ls IH]; intros H w I T E; cbn [follow] in E.
  { injection E as <-. split; [done|]. eapply traced_ext; [|exact T]. intros i. by rewrite app_nil_r. }
  destruct (world_exec l w) as [r|] eqn:El; [|done].
  destruct (world_exec_inv (SL := SL) uninit extra Hu He ks0 l w r I El) as (w1 & -> & I1).
  pose proof (traced_step H w l w1 I T El) as T1. destruct (IH _ _ I1 T1 E) as [I' T']. split; [done|].
  eapply traced_ext; [|exact T']. intros i. cbn [heard]. by rewrite El, app_assoc.
Qed.

Lemma traced_new k mud st : traced (λ _, []) (world_new k mud st).
Proof. by split. Qed.

(** What a client has recorded was typed. *)
Lemma trace_recorded p h c : client_trace p h c → s_events (c_session c) ≠ [] →
  recorded (commands_of h) (s_events (c_session c)).
Proof.
  intros [_ _ [[B1 _ _ _ _ _]|[(said & l & F & E) _ _]]] Hn.
  - by destruct (id_events _ B1).
  - eapply recorded_prefix; [exact (fo_events _ _ _ F)|done|].
    etrans; [by eapply follows_prefix|]. rewrite <-E. by eexists.
Qed.

Lemma trace_handled p h c : client_trace p h c → commanded (commands_of h) (s_handled (c_session c)).
Proof.
  intros [_ _ [[B1 _ _ _ _ _]|[(said & l & F & E) _ _]]].
  - rewrite (id_handled _ B1). exists 0%nat. split; [apply prefix_nil|done].
  - eapply commanded_mono; [by eapply follows_handled|]. rewrite <-E. by eexists.
Qed.
End provenance.

(** ** Main theorem *)

(** C6. Whatever the server does, somebody has typed. In every run of the whole
    server, whatever the network delivers and however the actors interleave:
    the storage holds what it held at the start and entries among those that
    the sessions of its clients have sent, none of them twice. A session sends
    none before the connection of its client has assembled, from the texts it
    has read, commands that are a complete log-in dialogue; the first entry it
    sends has the first of these commands that is not empty as name and the
    salted hash of the second as password. Any further entry is of the same
    name with as many blanks for a password (hash_and_scrub_password leaves
    them to be compared with), and there are at most as many of these as the
    client typed just so many blanks afterwards. And the default controller of
    each client has handled, in order, commands that were assembled from what
    the client typed after a complete dialogue. *)
Theorem served_was_typed {S : Socket} {L : SocketLaws S} {N : Net S} {NL : NetLaws N}
    {store : Type} {St : Storage store} {ready view} {SL : StorageLaws St ready view}
    uninit extra k mud (st : store) ls w :
  length uninit = 64%nat → length extra = 64%nat → ready st →
  follow uninit extra ls (world_new k mud st) = Some w →
  ∃ done s, a_state (w_storage w) = Some s ∧ view s = run_writes (entry_write <$> done) (view st) ∧
    done ⊆+ sent_events (w_clients w) ∧
    ∀ i c, w_clients w !! i = Some c →
      let typed := commands_of (heard uninit extra i ls (world_new k mud st)) in
      (s_events (c_session c) ≠ [] → recorded typed (s_events (c_session c))) ∧
      commanded typed (s_handled (c_session c)).
Proof.
  intros Hu He Hst E.
  destruct (traced_run (SL := SL) uninit extra Hu He (view st) ls (λ _, []) (world_new k mud st) w) as [I T];
    [by apply world_new_inv|by apply traced_new|done|].
  pose proof I as [_ _ (done & wt & lost & [J1 _ _ (s & Es & _ & Hv) _ Hperm]) _].
  exists done, s. split; [exact Es|]. split; [exact Hv|]. split; [rewrite <-Hperm; by apply submseteq_inserts_r|].
  intros i c Hc typed. pose proof (tw_clients _ _ T i c Hc) as Ht.
  split; [exact (trace_recorded _ _ _ Ht)|exact (trace_handled _ _ _ Ht)].
Qed.

(** ** Witness: "ann" registers over a socket and asks for help *)

(** The labels that [first_step] takes. *)
Fixpoint first_label (ls : list world_label) (w : sample_world) : option (world_label * sample_world) :=
  match ls with
  | [] => None
  | l :: ls => match sample_exec l w with Some (Ret w') => Some (l, w') | _ => first_label ls w end
  end.
Fixpoint schedule (n : nat) (ls : list world_label) (w : sample_world) : list world_label * sample_world :=
  match n with
  | O => ([], w)
  | Datatypes.S n =>
      match first_label ls w with
      | Some (l, w') => let '(run, w'') := schedule n ls w' in (l :: run, w'')
      | None => ([], w)
      end
  end.

Definition sample_run_labels : list world_label :=
  let '(l1, w1) := schedule 5 (server_labels 1) sample_new in
  let '(l2, w2) := schedule 4 (server_labels 2) w1 in
  l1 ++ l2 ++ (schedule 200 (user_labels 0) w2).1.

Abbreviation sample_follow := (follow (S := Script) (St := Redis (R := MiniRedis)) (replicate 64 0) (replicate 64 0)).
Abbreviation sample_heard :=
  (heard (S := Script) (St := Redis (R := MiniRedis)) (replicate 64 0) (replicate 64 0)).

Example sample_typed : commands_of (sample_heard 0 sample_run_labels sample_new) = ["ann"; "pw"; "pw"; "help"].
Proof. vm_compute. reflexivity. Qed.

Lemma served_was_typed_witness :
  ∃ w done, sample_follow sample_run_labels sample_new = Some w ∧ length (sent_events (w_clients w)) = 1%nat ∧
    (∃ s, a_state (w_storage w) = Some s ∧
      redis_view (keys := mini_keys) s = run_writes (entry_write <$> done) (redis_view (keys := mini_keys) mini_storage)) ∧
    done ⊆+ sent_events (w_clients w) ∧
    ∃ c, w_clients w !! 0%nat = Some c ∧ recorded ["ann"; "pw"; "pw"; "help"] (s_events (c_session c)) ∧
      s_handled (c_session c) = ["help"] ∧ commanded ["ann"; "pw"; "pw"; "help"] ["help"].
Proof.
  assert ((λ w, (length (sent_events (w_clients w)),
      (λ c, (s_handled (c_session c), length (s_events (c_session c)))) <$> w_clients w !! 0%nat)) <$>
    sample_follow sample_run_labels sample_new = Some (1%nat, Some (["help"], 1%nat))) as Ew by (vm_compute; reflexivity).
  destruct (sample_follow sample_run_labels sample_new) as [w|] eqn:E; [|discriminate Ew].
  injection Ew as Hlen Hhead.
  destruct (served_was_typed (L := Script_laws) (NL := ScriptNet_laws) (SL := mini_laws) (replicate 64 0) (replicate 64 0)
    sample_input sample_config mini_storage sample_run_labels w eq_refl eq_refl mini_ready E) as (done & s & Es & Hv & Hd & Hc).
  exists w, done. split; [reflexivity|]. split; [exact Hlen|]. split; [exists s; split; [exact Es|exact Hv]|]. split; [exact Hd|].
  apply fmap_Some in Hhead as (c & Hc0 & Hh). exists c. split; [exact Hc0|].
  injection Hh as Hh Hn. symmetry in Hh. destruct (Hc 0%nat c Hc0) as [Hrec Hcom]. rewrite Hh in Hcom.
  assert (commands_of (sample_heard 0 sample_run_labels sample_new) = ["ann"; "pw"; "pw"; "help"]) as Et by (vm_compute; reflexivity).
  unfold sample_new in Et. cbv zeta in Hrec, Hcom. rewrite Et in Hrec, Hcom.
  split; [|split; [exact Hh|exact Hcom]]. apply Hrec. intros Hnil. rewrite Hnil in Hn. discriminate Hn.
Defined.
