(* ===== verification/Shutdown.v ===== *)
(** * Shutting down

    How a connection ends with the actors of its session, how the server and
    the main program end, and that the whole server of World.v can be shut
    down from every state in which the main program waits for the signal, with
    every registration stored. *)
From Stdlib Require Import String.
From stdpp Require Import strings.
From S2P Require Import Prelude.
From S2P Require Import Text.
From S2P Require Import Security.
From S2P Require Import Comm.
From S2P Require Import Controllers.
From S2P Require Import Connection.
From S2P Require Import Session.
From S2P Require Import Storage.
From S2P Require Import Redis.
From S2P Require Import Events.
From S2P Require Import Server.
From S2P Require Import Dispatch.
From S2P Require Import World.

(** ** Specification *)

(** A step of an actor of client [i]. *)
Definition client_label (i : nat) (l : world_label) : bool :=
  match l with
  | ConnectionRuns j | ConnectionSends j | ConnectionStops j | CommandStops j | SessionSteps j _ => bool_decide (j = i)
  | _ => false
  end.

(** All actors of a client have gone. *)
Definition client_done (c : client) : Prop := client_gone c = true ∧ a_alive (s_default (c_session c)) = false.

(** A connection actor that will end: told so, or already ending. *)
Definition doomed (c : client) : Prop := GoodbyeConnection ∈ a_mail (c_connection c) ∨ ending c.

(** What [quit_connection_actors] does to a client. *)
Definition told (goodbye : bool) (c d : client) : Prop :=
  a_alive (c_connection d) = a_alive (c_connection c) ∧ (ending c → ending d) ∧
  ∃ more, a_mail (c_connection d) = a_mail (c_connection c) ++ more ∧
    (goodbye = true → a_alive (c_connection c) = true → GoodbyeConnection ∈ more).

Section shutdown.
Context {S : Socket} {L : SocketLaws S} {N : Net S} {NL : NetLaws N}.
Context {store : Type} {St : Storage store} {ready : store → Prop} {view : store → keyspace}.
Context {SL : StorageLaws St ready view}.
Context (uninit extra : list Z) (Hu : length uninit = 64%nat) (He : length extra = 64%nat).
Context (ks0 : keyspace).

Abbreviation W := (world kernel store).
Abbreviation world_inv := (world_inv (ready := ready) (view := view) ks0).
Abbreviation world_exec := (world_exec uninit extra).
Abbreviation world_step := (world_step uninit extra).

Definition client_step (i : nat) (w w' : W) : Prop :=
  ∃ l, client_label i l = true ∧ world_exec l w = Some (Ret w').

(** What the steps of the clients leave alone. *)
Definition same_main (w w' : W) : Prop :=
  w_server w' = w_server w ∧ w_main w' = w_main w ∧ w_system w' = w_system w.

Lemma exec_inv' l w w' : world_inv w → world_exec l w = Some (Ret w') → world_inv w'.
Proof. intros I E. by destruct (world_exec_inv (SL := SL) uninit extra Hu He ks0 l w _ I E) as (w2 & [= <-] & I'). Qed.

Lemma steps_inv w w' : world_inv w → rtc world_step w w' → world_inv w'.
Proof. intros I Hr. revert I. induction Hr as [|w1 w2 w3 [l w2' E] _ IH]; [done|]. intros I. by eapply IH, exec_inv'. Qed.

Lemma client_step_inv i w w' : world_inv w → client_step i w w' → world_inv w'.
Proof. intros I (l & _ & E). by eapply exec_inv'. Qed.

Lemma client_steps_inv i w w' : world_inv w → rtc (client_step i) w w' → world_inv w'.
Proof. intros I Hr. revert I. induction Hr; eauto using client_step_inv. Qed.

Lemma client_step_world i w w' : rtc (client_step i) w w' → rtc world_step w w'.
Proof. apply (rtc_congruence id). intros a b (l & _ & E). by econstructor. Qed.

Lemma client_step_main i w w' : client_step i w w' → same_main w w'.
Proof.
  intros (l & Hl & E). apply world_exec_rule in E. destruct E; try done.
  by destruct e as [[]|[]|[]|?|?].
Qed.

Lemma client_steps_main i w w' : rtc (client_step i) w w' → same_main w w'.
Proof.
  induction 1 as [|w1 w2 w3 H _ (E1 & E2 & E3)]; [done|]. destruct (client_step_main i _ _ H) as (E1' & E2' & E3').
  split_and!; congruence.
Qed.

(** ** The end of a connection *)

(** One send: nothing is taken from the mailbox. *)
Lemma connection_sends_one i w c e es :
  w_clients w !! i = Some c → a_out (c_connection c) = e :: es →
  ∃ w' c', client_step i w w' ∧ w_clients w' = <[i := c']> (w_clients w) ∧
    a_out (c_connection c') = es ∧ a_alive (c_connection c') = a_alive (c_connection c) ∧
    (∃ more, a_mail (c_connection c') = a_mail (c_connection c) ++ more) ∧ (ending c → ending c').
Proof.
  intros Hi Eo. set (c1 := set_connection c (set_out (c_connection c) es)).
  assert (w_clients (set_client i c1 w) !! i = Some c1) as Hi1.
  { cbn. apply list_lookup_insert_eq. by eapply lookup_lt_Some. }
  assert (client_step i w (connection_perform i c1 (set_client i c1 w) e)) as Hs.
  { exists (ConnectionSends i). split; [by apply bool_decide_eq_true|]. cbn [World.world_exec]. rewrite Hi. cbn [mbind option_bind]. by rewrite Eo. }
  assert (e ≠ SendExit RConnection → ending c → ending c1) as Hend.
  { intros Hne [H|H]; [by left|right]. rewrite Eo in H. apply elem_of_cons in H as [<-|H]; done. }
  assert (∀ c', connection_perform i c1 (set_client i c1 w) e = set_client i c' (set_client i c1 w) →
    w_clients (connection_perform i c1 (set_client i c1 w) e) = <[i := c']> (w_clients w)) as Hcl.
  { intros c' ->. cbn. by rewrite list_insert_insert_eq. }
  exists (connection_perform i c1 (set_client i c1 w) e).
  destruct e as [[] m|[]|a|n|n]; cbn [connection_perform] in *;
    try (exists c1; split_and!; [done|done|done|done|by exists []; rewrite app_nil_r|by apply Hend]).
  - eexists. split; [done|]. split; [by apply Hcl|]. cbn. rewrite mail_out, mail_alive. split_and!; [done|done| |].
    + unfold mail. cbn. destruct (a_alive _); cbn; [by eexists|exists []; by rewrite app_nil_r].
    + intros H. by apply (ending_mails c1 [m]), Hend.
  - eexists. split; [done|]. split; [by apply Hcl|]. split_and!; [done|done|by exists []; rewrite app_nil_r|by apply Hend].
  - eexists. split; [done|]. split; [by apply Hcl|]. split_and!; [done|done|by exists []; rewrite app_nil_r|by left].
Qed.

Lemma connection_sends_all i w c :
  w_clients w !! i = Some c →
  ∃ w' c', rtc (client_step i) w w' ∧ w_clients w' = <[i := c']> (w_clients w) ∧
    a_out (c_connection c') = [] ∧ a_alive (c_connection c') = a_alive (c_connection c) ∧
    (∃ more, a_mail (c_connection c') = a_mail (c_connection c) ++ more) ∧ (ending c → ending c').
Proof.
  remember (a_out (c_connection c)) as es eqn:Eo. symmetry in Eo. revert w c Eo.
  induction es as [|e es IH]; intros w c Eo Hi.
  { exists w, c. split_and!; try done; [by rewrite list_insert_id|exists []; by rewrite app_nil_r]. }
  destruct (connection_sends_one i w c e es Hi Eo) as (w1 & c1 & H1 & E1 & Eo1 & Ea1 & (m1 & Em1) & Hend1).
  destruct (IH w1 c1 Eo1) as (w' & c' & Hr & E' & Eo' & Ea' & (m' & Em') & Hend').
  { rewrite E1. apply list_lookup_insert_eq. by eapply lookup_lt_Some. }
  exists w', c'. split_and!; [by eapply rtc_l| |done|congruence| |by auto].
  - rewrite E', E1. by rewrite list_insert_insert_eq.
  - exists (m1 ++ m'). by rewrite Em', Em1, app_assoc.
Qed.

(** An actor that is ending stops. *)
Lemma ending_stops i w c :
  w_clients w !! i = Some c → a_alive (c_connection c) = true → a_out (c_connection c) = [] → ending c →
  ∃ w' c', client_step i w w' ∧ w_clients w' = <[i := c']> (w_clients w) ∧ a_alive (c_connection c') = false.
Proof.
  intros Hi Ha Ho [Hx|H]; [|rewrite Ho in H; by apply elem_of_nil in H].
  eexists _, _. split; [|split; [|]].
  - exists (ConnectionStops i). split; [by apply bool_decide_eq_true|]. cbn [World.world_exec]. rewrite Hi. cbn [mbind option_bind].
    unfold leaving. rewrite Ha, Hx, Ho. reflexivity.
  - reflexivity.
  - reflexivity.
Qed.

Lemma ending_ends i w c :
  w_clients w !! i = Some c → a_alive (c_connection c) = true → ending c →
  ∃ w' c', rtc (client_step i) w w' ∧ w_clients w' = <[i := c']> (w_clients w) ∧ a_alive (c_connection c') = false.
Proof.
  intros Hi Ha He'. destruct (connection_sends_all i w c Hi) as (w1 & c1 & Hr & E1 & Eo1 & Ea1 & _ & Hend).
  destruct (ending_stops i w1 c1) as (w2 & c2 & H2 & E2 & Ea2); [|by rewrite Ea1|done|by apply Hend|].
  { rewrite E1. apply list_lookup_insert_eq. by eapply lookup_lt_Some. }
  exists w2, c2. split; [by eapply rtc_r|]. by rewrite E2, E1, list_insert_insert_eq.
Qed.

(** One handler; that of a goodbye makes the actor end. *)
Lemma connection_runs_one i w c m ms : world_inv w →
  w_clients w !! i = Some c → a_alive (c_connection c) = true → a_out (c_connection c) = [] →
  a_mail (c_connection c) = m :: ms →
  ∃ w' c', client_step i w w' ∧ w_clients w' = <[i := c']> (w_clients w) ∧
    a_alive (c_connection c') = true ∧ a_mail (c_connection c') = ms ∧ (m = GoodbyeConnection → ending c').
Proof.
  intros I Hi Ha Ho Em. pose proof (wi_clients _ _ I) as Hc. rewrite Forall_lookup in Hc.
  pose proof (ci_descriptor _ (Hc i c Hi)) as Hfd.
  destruct (connection_handle_sends (w_kernel w) (a_state (c_connection c)) m Hfd) as ([[k st] e] & E & _).
  eexists _, _. split; [|split].
  - exists (ConnectionRuns i). split; [by apply bool_decide_eq_true|]. cbn [World.world_exec]. rewrite Hi. cbn [mbind option_bind].
    rewrite Ha, Ho, Em, E. reflexivity.
  - reflexivity.
  - split_and!; [done|done|]. intros ->. right. cbn [connection_handle] in E.
    rewrite decide_True in E by lia. rewrite CommStatic_Ret in E by done. cbn [mbind outcome_bind] in E.
    destruct (emit_line (w_kernel w) _ _) as [k1 b1]. destruct (emit_line k1 _ _) as [k2 b2].
    injection E as _ _ <-. by right; left.
Qed.

(** The goodbye in its mailbox makes an actor end. *)
Lemma goodbye_ends i pre : ∀ w c post, world_inv w →
  w_clients w !! i = Some c → a_alive (c_connection c) = true →
  a_mail (c_connection c) = pre ++ GoodbyeConnection :: post →
  ∃ w' c', rtc (client_step i) w w' ∧ w_clients w' = <[i := c']> (w_clients w) ∧ a_alive (c_connection c') = false.
Proof.
  induction pre as [|m pre IH]; intros w c post I Hi Ha Hm;
    destruct (connection_sends_all i w c Hi) as (w1 & c1 & Hr & E1 & Eo1 & Ea1 & (m1 & Em1) & _);
    (assert (w_clients w1 !! i = Some c1) as Hi1
      by (rewrite E1; apply list_lookup_insert_eq; by eapply lookup_lt_Some));
    (assert (world_inv w1) as I1 by by eapply client_steps_inv);
    rewrite Hm, <-app_assoc in Em1; rewrite Ha in Ea1;
    destruct (connection_runs_one i w1 c1 _ _ I1 Hi1 Ea1 Eo1 Em1) as (w2 & c2 & H2 & E2 & Ea2 & Em2 & Hg);
    (assert (w_clients w2 !! i = Some c2) as Hi2
      by (rewrite E2; apply list_lookup_insert_eq; by eapply lookup_lt_Some)).
  - destruct (ending_ends i w2 c2 Hi2 Ea2 (Hg eq_refl)) as (w' & c' & Hr' & E' & Ea').
    exists w', c'. split; [etrans; [by eapply rtc_r|exact Hr']|].
    by rewrite E', E2, E1, !list_insert_insert_eq.
  - destruct (IH w2 c2 (post ++ m1) (client_step_inv i _ _ I1 H2) Hi2 Ea2 Em2) as (w' & c' & Hr' & E' & Ea').
    exists w', c'. split; [etrans; [by eapply rtc_r|exact Hr']|].
    by rewrite E', E2, E1, !list_insert_insert_eq.
Qed.

(** A connection actor that was told, or is ending, ends. *)
Lemma doomed_ends i w c : world_inv w → w_clients w !! i = Some c →
  (a_alive (c_connection c) = true → doomed c) →
  ∃ w' c', rtc (client_step i) w w' ∧ w_clients w' = <[i := c']> (w_clients w) ∧ a_alive (c_connection c') = false.
Proof.
  intros I Hi Hd. destruct (a_alive (c_connection c)) eqn:Ha; [|exists w, c; by rewrite list_insert_id].
  destruct (Hd eq_refl) as [Hg|He']; [|by eapply ending_ends].
  apply list_elem_of_split in Hg as (pre & post & E). by eapply goodbye_ends.
Qed.

(** ** The end of a session *)

(** What happens inside a session happens in the world. *)
Lemma internal_lifts i w c s' : w_clients w !! i = Some c → internal uninit extra (c_session c) s' →
  ∃ w' c', client_step i w w' ∧ w_clients w' = <[i := c']> (w_clients w) ∧ c_session c' = s' ∧
    a_alive (c_connection c') = a_alive (c_connection c).
Proof.
  intros Hi (l & Hl & E). exists (relay i c s' w). eexists. split_and!.
  - exists (SessionSteps i l). split; [by apply bool_decide_eq_true|]. cbn [World.world_exec]. rewrite Hi. cbn [mbind option_bind].
    destruct l; [done|by rewrite E..].
  - reflexivity.
  - done.
  - cbn. by rewrite mails_alive.
Qed.

Lemma internals_lift i s s' : rtc (internal uninit extra) s s' → ∀ w c, w_clients w !! i = Some c → c_session c = s →
  ∃ w' c', rtc (client_step i) w w' ∧ w_clients w' = <[i := c']> (w_clients w) ∧ c_session c' = s' ∧
    a_alive (c_connection c') = a_alive (c_connection c).
Proof.
  induction 1 as [s|s1 s2 s3 H12 _ IH]; intros w c Hi <-; [exists w, c; by rewrite list_insert_id|].
  destruct (internal_lifts i w c s2 Hi H12) as (w1 & c1 & H1 & E1 & Es1 & Ea1).
  destruct (IH w1 c1) as (w' & c' & Hr & E' & Es' & Ea'); [by rewrite E1, list_lookup_insert_eq by by eapply lookup_lt_Some|done|].
  exists w', c'. split_and!; [by eapply rtc_l| |done|congruence]. by rewrite E', E1, list_insert_insert_eq.
Qed.

Lemma internals_later s s' : rtc (internal uninit extra) s s' → later (s_command s) (s_command s').
Proof.
  induction 1 as [|s1 s2 s3 (l & _ & E) _ [IH1 IH2]]; [by split|]. apply exec_later in E as [E1 E2]. split; auto.
Qed.

(** A session comes to rest. *)
Lemma client_settles i w c : world_inv w → w_clients w !! i = Some c →
  ∃ w' c', rtc (client_step i) w w' ∧ w_clients w' = <[i := c']> (w_clients w) ∧ settled (c_session c') ∧
    a_alive (c_connection c') = a_alive (c_connection c) ∧ later (s_command (c_session c)) (s_command (c_session c')).
Proof.
  intros I Hi. pose proof (wi_clients _ _ I) as Hc. rewrite Forall_lookup in Hc.
  destruct (settles uninit extra Hu He (c_session c) (ci_session _ (Hc i c Hi))) as (s' & Hr & Hs).
  destruct (internals_lift i _ _ Hr w c Hi eq_refl) as (w' & c' & Hr' & E' & <- & Ea'). exists w', c'.
  split_and!; try done; by apply internals_later in Hr as [? ?].
Qed.

(** The command actor of a client at rest stops. *)
Lemma command_stops i w c : world_inv w → w_clients w !! i = Some c → a_alive (c_connection c) = false →
  settled (c_session c) →
  ∃ w' c', rtc (client_step i) w w' ∧ w_clients w' = <[i := c']> (w_clients w) ∧
    a_alive (c_connection c') = false ∧ a_alive (s_command (c_session c')) = false.
Proof.
  intros I Hi Ha ([Ho _] & _). pose proof (wi_clients _ _ I) as Hc. rewrite Forall_lookup in Hc. pose proof (Hc i c Hi) as C.
  destruct (a_alive (s_command (c_session c))) eqn:Ea; [|exists w, c; by rewrite list_insert_id].
  set (c' := set_session c (stop_command (c_session c))). exists (set_client i c' w), c'.
  split; [|split; [reflexivity|split; [done|]]].
  - apply rtc_once. exists (CommandStops i). split; [by apply bool_decide_eq_true|]. cbn [World.world_exec]. rewrite Hi.
    cbn [mbind option_bind]. unfold leaving. by rewrite Ea, (ci_gone _ C Ha), Ho.
  - exact (proj1 (proj1 (stop_command_told _ (ci_session _ C) (ci_leashed _ C) Ho))).
Qed.

(** Told to end, a client ends with its session. *)
Lemma client_ends i w c : world_inv w → w_clients w !! i = Some c →
  (a_alive (c_connection c) = true → doomed c) →
  ∃ w' c', rtc (client_step i) w w' ∧ w_clients w' = <[i := c']> (w_clients w) ∧ client_done c'.
Proof.
  intros I Hi Hd. assert (i < length (w_clients w))%nat as Hlt by by eapply lookup_lt_Some.
  destruct (doomed_ends i w c I Hi Hd) as (w1 & c1 & H1 & E1 & Ha1).
  assert (w_clients w1 !! i = Some c1) as Hi1 by by rewrite E1, list_lookup_insert_eq.
  assert (world_inv w1) as I1 by by eapply client_steps_inv.
  destruct (client_settles i w1 c1 I1 Hi1) as (w2 & c2 & H2 & E2 & Hs2 & Ea2 & _).
  assert (w_clients w2 !! i = Some c2) as Hi2 by by rewrite E2, E1, list_insert_insert_eq, list_lookup_insert_eq.
  assert (world_inv w2) as I2 by by eapply client_steps_inv.
  destruct (command_stops i w2 c2 I2 Hi2) as (w3 & c3 & H3 & E3 & Ha3 & Hc3); [congruence|done|].
  assert (w_clients w3 !! i = Some c3) as Hi3 by by rewrite E3, E2, E1, !list_insert_insert_eq, list_lookup_insert_eq.
  assert (world_inv w3) as I3 by by eapply client_steps_inv.
  destruct (client_settles i w3 c3 I3 Hi3) as (w4 & c4 & H4 & E4 & (_ & _ & _ & Hl & Hdf) & Ea4 & [_ Hlater]).
  assert (w_clients w4 !! i = Some c4) as Hi4 by by rewrite E4, E3, E2, E1, !list_insert_insert_eq, list_lookup_insert_eq.
  assert (world_inv w4) as I4 by by eapply client_steps_inv.
  exists w4, c4. split_and!.
  - etrans; [exact H1|]. etrans; [exact H2|]. by etrans.
  - by rewrite E4, E3, E2, E1, !list_insert_insert_eq.
  - pose proof (wi_clients _ _ I4) as Hc. rewrite Forall_lookup in Hc.
    destruct (le_gone _ (ci_leashed _ (Hc i c4 Hi4)) (Hlater Hc3)) as (_ & Hxd & Hxl). unfold stopped in *. split.
    + unfold client_gone. rewrite Ea4, Ha3, (Hlater Hc3). destruct (a_alive (s_login _)); [|done]. by rewrite Hxl in Hl by done; discriminate (Hl eq_refl).
    + destruct (a_alive (s_default _)); [|done]. rewrite Hxd in Hdf. discriminate (Hdf eq_refl).
Qed.

(** All clients end. *)
Lemma all_end w n : world_inv w → (n ≤ length (w_clients w))%nat →
  (∀ i c, w_clients w !! i = Some c → a_alive (c_connection c) = true → doomed c) →
  ∃ w', rtc world_step w w' ∧ world_inv w' ∧ same_main w w' ∧ length (w_clients w') = length (w_clients w) ∧
    (∀ i c, w_clients w' !! i = Some c → if decide (i < n)%nat then client_done c else w_clients w !! i = Some c).
Proof.
  intros I Hn Hd. induction n as [|n IH].
  { exists w. split_and!; [done|done|done|done|]. intros i c Hi. by rewrite decide_False by lia. }
  destruct IH as (w1 & Hr & I1 & (Em1 & Em2 & Em3) & El & Hc); [lia|].
  destruct (lookup_lt_is_Some_2 (w_clients w1) n) as [c Hn1]; [lia|].
  pose proof (Hc n c Hn1) as Hnc. rewrite decide_False in Hnc by lia.
  destruct (client_ends n w1 c I1 Hn1 (Hd n c Hnc)) as (w2 & c2 & Hr2 & E2 & Ha2).
  destruct (client_steps_main n _ _ Hr2) as (En1 & En2 & En3).
  exists w2. split_and!; [by etrans; [|eapply client_step_world]|by eapply client_steps_inv|split_and!; congruence|by rewrite E2, length_insert|].
  intros i d Hi. rewrite E2 in Hi. destruct (decide (i = n)) as [->|Hne].
  - rewrite list_lookup_insert_eq in Hi by lia. injection Hi as <-. by rewrite decide_True by lia.
  - rewrite list_lookup_insert_ne in Hi by done. pose proof (Hc i d Hi) as Hid.
    destruct (decide (i < n)%nat); [rewrite decide_True by lia; done|rewrite decide_False by lia; done].
Qed.
(** ** The main program tells the connections *)

(** What [quit_connection_actors] does as a whole. *)
Definition goodbyes (l : list nat) (w : W) : W := foldl (λ w i, mail_connection i GoodbyeConnection w) w l.

Lemma goodbyes_told l : ∀ w j d, w_clients (goodbyes l w) !! j = Some d →
  ∃ c, w_clients w !! j = Some c ∧ told (bool_decide (j ∈ l)) c d.
Proof.
  induction l as [|i l IH]; intros w j d Hj.
  { exists d. split; [done|]. split_and!; try done. exists []. by rewrite app_nil_r. }
  unfold goodbyes in Hj. cbn [foldl] in Hj. destruct (IH _ j d Hj) as (c1 & E1 & Ha & Hend & more & Hm & Hg).
  unfold mail_connection in E1. destruct (decide (j = i)) as [->|Hne].
  - destruct (w_clients w !! i) as [c|] eqn:Ei; [|by rewrite Ei in E1].
    cbn in E1. rewrite list_lookup_insert_eq in E1 by by eapply lookup_lt_Some. injection E1 as <-.
    exists c. split; [done|]. cbn in Ha, Hm. rewrite mail_alive in Ha.
    split_and!; [done|by intros H; apply Hend, (ending_mails c [GoodbyeConnection])|].
    destruct (a_alive (c_connection c)) eqn:Eal.
    + exists (GoodbyeConnection :: more). split; [|by left]. rewrite Hm. unfold mail. rewrite Eal. cbn. by rewrite <-app_assoc.
    + exists more. split; [|done]. rewrite Hm. unfold mail. by rewrite Eal.
  - exists c1. assert (w_clients w !! j = Some c1) as ->.
    { destruct (w_clients w !! i); [|done]. cbn in E1. by rewrite list_lookup_insert_ne in E1. }
    split; [done|]. split_and!; [done|done|]. exists more. split; [done|]. intros Hin. apply Hg.
    apply bool_decide_eq_true. apply bool_decide_eq_true, elem_of_cons in Hin as [?|?]; done.
Qed.

Lemma goodbyes_doom w j d : world_inv w →
  w_clients (goodbyes (quit_connection_actors (map_to_list (w_registry w))) w) !! j = Some d →
  a_alive (c_connection d) = true → doomed d.
Proof.
  intros I Hj Ha. destruct (goodbyes_told _ _ _ _ Hj) as (c & Hc & Eal & Hend & more & Hm & Hg).
  rewrite Eal in Ha. destruct (ni_present _ _ (wi_names _ _ I) j c Hc Ha) as [Hr|He']; [left|right; by apply Hend].
  rewrite Hm. apply elem_of_app. right. apply Hg; [|done]. apply bool_decide_eq_true.
  unfold quit_connection_actors. apply list_elem_of_omap. exists (registry_id c, j).
  split; [by apply elem_of_map_to_list|]. cbn [fst snd].
  destruct (ni_names _ _ (wi_names _ _ I) j c Hc) as (id & Hid & ->). by rewrite registry_name_matches.
Qed.

Lemma main_step fails w w' : main_exec fails w = Some w' → world_step w w'.
Proof. intros E. apply (world_step_exec _ _ _ (MainSteps fails)). cbn [World.world_exec]. by rewrite E. Qed.

Lemma mail_connection_same i m (w : W) : same_main w (mail_connection i m w).
Proof. unfold mail_connection. by destruct (w_clients w !! i). Qed.

Lemma goodbyes_clients l : ∀ w w' : W, w_clients w = w_clients w' → w_clients (goodbyes l w) = w_clients (goodbyes l w').
Proof.
  induction l as [|i l IH]; intros w w' E; [done|]. apply (IH (mail_connection i _ w) (mail_connection i _ w')).
  unfold mail_connection. rewrite E. destruct (w_clients w' !! i); [|done]. cbn. by rewrite E.
Qed.

(** From its loop on the main program gets to [kill_server] alone. *)
Lemma main_closes l : ∀ w, w_main w = Closing l →
  ∃ w', rtc world_step w w' ∧ w_main w' = Killing ∧ w_server w' = mail GoodbyeServer (w_server w) ∧
    w_system w' = w_system w ∧ w_clients w' = w_clients (goodbyes l w).
Proof.
  induction l as [|i l IH]; intros w Em.
  - eexists. split; [eapply rtc_once, (main_step false); unfold main_exec; by rewrite Em|]. done.
  - set (w1 := set_main (Closing l) (mail_connection i GoodbyeConnection w)).
    assert (world_step w w1) as H1 by (apply (main_step false); unfold main_exec; by rewrite Em).
    destruct (mail_connection_same i GoodbyeConnection w) as (E1 & _ & E3).
    destruct (IH w1 eq_refl) as (w' & Hr & Em' & Es' & Ey' & Ec').
    exists w'. split_and!; [by eapply rtc_l|done|rewrite Es'; cbn; by rewrite E1|rewrite Ey'; cbn; by rewrite E3|].
    rewrite Ec'. by apply (goodbyes_clients l w1 (mail_connection i GoodbyeConnection w)).
Qed.

(** ** The server ends *)

Lemma fresh_id_exists (w : W) : world_inv w → ∃ id, fresh_id id w.
Proof.
  intros I. assert (∃ b, 0 ≤ b ∧ ∀ i c, w_clients w !! i = Some c → ∀ id, registry_id c = registry_name id → id < b) as (b & Hb & Hlt).
  { pose proof (ni_names _ _ (wi_names _ _ I)) as Hn. revert Hn. generalize (w_clients w). clear.
    induction l as [|c l IH]; intros Hn; [by exists 0|].
    destruct IH as (b & Hb & IH); [intros i d Hi; by apply (Hn (Datatypes.S i))|].
    destruct (Hn 0%nat c eq_refl) as (id & Hid & E). exists (b + id + 1). split; [lia|].
    intros [|i] d Hi id' E'; cbn in Hi; [|specialize (IH i d Hi id' E'); lia].
    injection Hi as <-. rewrite E in E'. apply (inj registry_name) in E' as ->. lia. }
  exists b. split; [done|]. apply Forall_lookup. intros i c Hi E. specialize (Hlt i c Hi b E). lia.
Qed.
(** The server gets to a point at which nothing waits for it. *)
Lemma server_reads w : world_inv w → w_main w = Waiting →
  ∃ w', rtc world_step w w' ∧ w_main w' = Waiting ∧ a_mail (w_server w') = [].
Proof.
  intros I Em. pose proof (wi_main _ _ I) as Hm. rewrite Em in Hm. destruct Hm as [(Ha & _ & Hs) _].
  assert (a_mail (w_server w) = [] ∨ a_out (w_server w) = [] ∧ ∃ m, a_mail (w_server w) = [m]) as [E|[Eo [m E]]]
    by (destruct Hs as [[? [?|?]]|[? _]]; eauto).
  { by exists w. }
  destruct (fresh_id_exists w I) as [id Hid].
  destruct (server_handle_spawns (w_kernel w) (mkSockaddr 0 0) id (a_state (w_server w)) m) as (h & Eh & _).
  eexists. split.
  - apply rtc_once, (world_step_exec _ _ _ (ServerRuns (mkSockaddr 0 0) id)). cbn [World.world_exec].
    rewrite Ha, Eo, E, decide_True, Eh by done. reflexivity.
  - by destruct (h_reply h), (h_spawned h) as [[? ?]|].
Qed.

(** What it has to send before it is told to end is for itself, or for a
    client that has gone. *)
Lemma server_sends_all es : ∀ w, a_out (w_server w) = es → a_alive (w_server w) = true →
  Forall (λ c, a_alive (c_connection c) = false) (w_clients w) →
  Forall (λ e, e = Send RServer AcceptConnection ∨ e = Send RConnection PerformWelcome) es →
  ∃ w' rest, rtc world_step w w' ∧ w_clients w' = w_clients w ∧ w_main w' = w_main w ∧ w_system w' = w_system w ∧
    w_server w' = mkActor (a_state (w_server w)) (a_mail (w_server w) ++ rest) [] true (a_exit (w_server w)).
Proof.
  induction es as [|e es IH]; intros w Eo Ha Hc Hes.
  { exists w, []. split_and!; try done. rewrite app_nil_r. destruct (w_server w). cbn in *. by subst. }
  apply Forall_cons in Hes as [He' Hes]. set (w1 := server_perform (set_server (set_out (w_server w) es) w) e).
  assert (world_step w w1) as H1 by (apply (world_step_exec _ _ _ ServerSends); cbn [World.world_exec]; by rewrite Eo).
  assert (w_clients w1 = w_clients w ∧ w_main w1 = w_main w ∧ w_system w1 = w_system w ∧ a_out (w_server w1) = es ∧
    a_alive (w_server w1) = true ∧ a_state (w_server w1) = a_state (w_server w) ∧ a_exit (w_server w1) = a_exit (w_server w) ∧
    ∃ more, a_mail (w_server w1) = a_mail (w_server w) ++ more)
    as (E1 & E2 & E3 & E4 & E5 & E6 & E7 & more & E8).
  { unfold w1. destruct He' as [-> | ->]; cbn [server_perform].
    - cbn. unfold mail. cbn. rewrite Ha. cbn. split_and!; try done. by eexists.
    - unfold mail_last, mail_connection. cbn [w_clients set_server]. destruct (w_clients w !! _) as [c|] eqn:Ec.
      + rewrite Forall_lookup in Hc. cbn. rewrite list_insert_id.
        * split_and!; try done. exists []. by rewrite app_nil_r.
        * rewrite Ec. f_equal. destruct c as [a s']. unfold set_connection, mail. cbn. by rewrite (Hc _ _ Ec : a_alive a = false).
      + split_and!; try done. exists []. by rewrite app_nil_r. }
  destruct (IH w1 E4 E5) as (w' & rest & Hr & F1 & F2 & F3 & F4); [by rewrite E1|done|].
  exists w', (more ++ rest). rewrite F1, F2, F3, F4, E1, E2, E3, E6, E7, E8, app_assoc. split_and!; try done. by eapply rtc_l.
Qed.

(** Told to end, the server closes its socket, answers and ends. *)
Lemma server_ends w : world_inv w → a_alive (w_server w) = true → a_mail (w_server w) = [GoodbyeServer] →
  Forall (λ c, a_alive (c_connection c) = false) (w_clients w) →
  Forall (λ e, e = Send RServer AcceptConnection ∨ e = Send RConnection PerformWelcome) (a_out (w_server w)) →
  ∃ w', rtc world_step w w' ∧ w_clients w' = w_clients w ∧ w_main w' = w_main w ∧ w_system w' = w_system w ∧
    a_alive (w_server w') = false ∧ w_reply w' = Terminated true.
Proof.
  intros I Ha Em Hc Ho. destruct (server_sends_all _ w eq_refl Ha Hc Ho) as (w1 & rest & Hr & E1 & E2 & E3 & E4).
  assert (world_inv w1) as I1 by by eapply steps_inv. rewrite Em in E4.
  destruct (fresh_id_exists w1 I1) as [id Hid].
  eexists. split.
  - etrans; [exact Hr|]. eapply rtc_l; [|eapply rtc_l; [|eapply rtc_once]].
    + apply (world_step_exec _ _ _ (ServerRuns (mkSockaddr 0 0) id)). cbn [World.world_exec].
      rewrite E4. cbn [a_alive a_out a_mail app]. rewrite decide_True by done. reflexivity.
    + apply (world_step_exec _ _ _ ServerSends). reflexivity.
    + apply (world_step_exec _ _ _ ServerStops). reflexivity.
  - cbn. by rewrite E1, E2, E3.
Qed.

(** ** The storage and the recorder end, and the main program *)
Lemma system_closes w b : world_inv w → w_main w = Leaving b → w_system w = true →
  a_alive (w_server w) = false → Forall client_done (w_clients w) →
  ∃ w' s all, rtc world_step w w' ∧ w_main w' = Ended ∧ all_actors_done w' = true ∧ w_clients w' = w_clients w ∧
    a_state (w_storage w') = Some s ∧ view s = run_writes (entry_write <$> all) ks0 ∧ all ≡ₚ sent_events (w_clients w).
Proof.
  intros I Em Hs Ha Hc.
  destruct (recording_ends (SL := SL) uninit extra Hu He ks0 w I Hs) as (w1 & Hr1 & I1 & (Ec & Es & Em1 & Ea) & Hz).
  rewrite Hs in Es. rewrite Em in Em1. rewrite <-Ea in Ha. clear Ea. rename Ha into Ea.
  destruct (idle_stored uninit extra Hu He ks0 w1 I1 Es Hz) as (all & [J1 _ Jq (s & Jst & _ & Jv) _ _] & Jall & Jo).
  destruct (J1 Es) as ((Ra & _) & (Sa & _) & _).
  assert (users_gone w1 = true ∧ forallb (λ c, negb (a_alive (s_default (c_session c)))) (w_clients w1) = true) as [Hg Hd].
  { unfold users_gone. rewrite Ec, Ea. cbn [negb andb].
    split; apply forallb_forall; intros c Hin%list_elem_of_In; rewrite Forall_forall in Hc;
      destruct (Hc c Hin) as [? Hdef]; [done|by rewrite Hdef]. }
  assert (rtc world_step w w1) as Hr2.
  { eapply (rtc_congruence id); [|exact Hr1]. intros a a' (l & _ & E). by econstructor. }
  eexists _, s, all. split.
  - etrans; [exact Hr2|]. eapply rtc_l; [|eapply rtc_l; [|eapply rtc_l; [|eapply rtc_once]]].
    + apply (world_step_exec _ _ _ SystemEnds). cbn [World.world_exec]. unfold system_ends. rewrite Em1, Es, Hg. reflexivity.
    + apply (world_step_exec _ _ _ StorageStops). cbn [World.world_exec]. unfold leaving. cbn. rewrite Sa, Jq. reflexivity.
    + apply (world_step_exec _ _ _ RecorderStops). cbn [World.world_exec]. unfold leaving. cbn. rewrite Ra, Jo. reflexivity.
    + apply (world_step_exec _ _ _ (MainSteps false)). cbn [World.world_exec]. unfold main_exec. cbn. rewrite Em1.
      unfold all_actors_done, users_gone in *. cbn in *. rewrite Hg, Hd. rewrite andb_false_r. reflexivity.
  - cbn. unfold all_actors_done, users_gone in *. cbn in *. rewrite Hg, Hd, Ec. rewrite Ec in Jall. done.
Qed.

(** ** The whole *)
Lemma shuts_down w : world_inv w → w_main w = Waiting →
  ∃ w' s all, rtc world_step w w' ∧ w_main w' = Ended ∧ all_actors_done w' = true ∧
    a_state (w_storage w') = Some s ∧ view s = run_writes (entry_write <$> all) ks0 ∧ all ≡ₚ sent_events (w_clients w').
Proof.
  intros I Em. destruct (server_reads w I Em) as (w1 & H1 & Em1 & Ema1).
  pose proof (steps_inv _ _ I H1) as I1. pose proof (wi_main _ _ I1) as Hm1. rewrite Em1 in Hm1. cbn in Hm1.
  destruct Hm1 as [(Ha1 & _ & Hs1) Hy1].
  set (w2 := set_main (Closing (quit_connection_actors (map_to_list (w_registry w1)))) w1).
  assert (world_step w1 w2) as H2 by (apply (main_step false); unfold main_exec; by rewrite Em1).
  destruct (main_closes _ w2 eq_refl) as (w3 & H3 & Em3 & Es3 & Hy3 & Ec3). cbn in Es3, Hy3.
  rewrite (goodbyes_clients _ w2 w1) in Ec3 by done.
  assert (rtc world_step w w3) as Hr3 by (etrans; [exact H1|by eapply rtc_l]). pose proof (steps_inv _ _ I Hr3) as I3.
  destruct (all_end w3 (length (w_clients w3)) I3) as (w4 & H4 & I4 & (Es4 & Em4 & Hy4) & El4 & Hc4); [done|..].
  { rewrite Ec3. intros i c Hi. by apply (goodbyes_doom w1 i). }
  assert (Forall client_done (w_clients w4)) as Hd4.
  { apply Forall_lookup. intros i c Hi. specialize (Hc4 i c Hi). rewrite decide_True in Hc4; [done|].
    rewrite <-El4. by eapply lookup_lt_Some. }
  destruct (server_ends w4 I4) as (w5 & H5 & Ec5 & Em5 & Hy5 & Ha5 & Er5).
  { rewrite Es4, Es3, mail_alive. done. }
  { rewrite Es4, Es3. unfold mail. by rewrite Ha1, Ema1. }
  { eapply Forall_impl; [exact Hd4|]. intros c [Hg _]. unfold client_gone in Hg.
    by destruct (a_alive (c_connection c)). }
  { rewrite Es4, Es3, mail_out. destruct Hs1 as [[-> _]|[_ [->|[->| ->]]]]; repeat (constructor; auto). }
  set (w6 := set_main (Leaving true) w5).
  assert (world_step w5 w6) as H6.
  { apply (main_step false). unfold main_exec. rewrite Em5, Em4, Em3. cbn. by rewrite Er5. }
  assert (rtc world_step w w6) as Hr6 by (etrans; [exact Hr3|]; etrans; [exact H4|]; by eapply rtc_r).
  destruct (system_closes w6 true) as (w7 & s & all & H7 & Em7 & Hd7 & Ec7 & Hst);
    [exact (steps_inv _ _ I Hr6)|done|..].
  - cbn. by rewrite Hy5, Hy4, Hy3.
  - done.
  - cbn. by rewrite Ec5.
  - exists w7, s, all. split; [by etrans|]. by rewrite Ec7.
Qed.
(** ** Registrations stay *)
Lemma sent_update (w : W) i c c' es : w_clients w !! i = Some c →
  s_events (c_session c') = s_events (c_session c) ++ es →
  sent_events (w_clients w) ⊆+ sent_events (<[i := c']> (w_clients w)).
Proof. intros Hi E. rewrite (sent_events_insert _ i c c' es) by done. by apply submseteq_inserts_r. Qed.

Lemma mail_connection_sent i m (w : W) : sent_events (w_clients w) ⊆+ sent_events (w_clients (mail_connection i m w)).
Proof.
  unfold mail_connection. destruct (w_clients w !! i) as [c|] eqn:Ei; [|done].
  apply (sent_update w i c _ []); [done|by rewrite app_nil_r].
Qed.

Lemma connection_perform_sent i c c' e (w : W) :
  w_clients w !! i = Some c → s_events (c_session c') = s_events (c_session c) →
  sent_events (w_clients w) ⊆+ sent_events (w_clients (connection_perform i c' (set_client i c' w) e)).
Proof.
  intros Hi E. assert (i < length (w_clients w))%nat as Hlt by by eapply lookup_lt_Some.
  assert (∀ c'', s_events (c_session c'') = s_events (c_session c) →
    sent_events (w_clients w) ⊆+ sent_events (<[i := c'']> (w_clients w))) as Hs.
  { intros c'' E'. apply (sent_update w i c _ []); [done|by rewrite app_nil_r]. }
  destruct e as [[]|[]|[]|?|?]; cbn [connection_perform w_clients set_client set_registry]; rewrite ?list_insert_insert_eq; by apply Hs.
Qed.

(** The main program sends, and no more. *)
Lemma main_exec_sent fails (w w' : W) : main_exec fails w = Some w' → sent_events (w_clients w) ⊆+ sent_events (w_clients w').
Proof.
  unfold main_exec. intros E. destruct (w_main w) as [| |[|i rest]| |b|]; try done; try (by injection E as <-).
  - destruct (receive _ _ _); [|done]. by injection E as <-.
  - injection E as <-. apply mail_connection_sent.
  - destruct (receive _ _ _); [|done]. by injection E as <-.
  - destruct (_ && _); [done|]. by injection E as <-.
Qed.

Lemma step_sent w w' : world_inv w → world_step w w' → sent_events (w_clients w) ⊆+ sent_events (w_clients w').
Proof.
  intros I [l w1 E]. pose proof (wi_clients _ _ I) as Hc. rewrite Forall_lookup in Hc.
  apply world_exec_rule in E.
  destruct E as [sa id m ms h|e es|El|i c m ms k st e Hi Ha Eo Em Eh|i c e es Hi Eo|i c Hi El|i c Hi El|
    i c l s Hi Hin Es|m ms Ea Eo Em|e es Eo|m ms st l Ea Em Er|fails w2 E|w2 E|El|El]; try done.
  - destruct (h_reply h), (h_spawned h) as [[? ?]|]; cbn; try done; unfold sent_events; rewrite bind_app; by apply submseteq_inserts_r.
  - destruct e as [[] m|[]|[]|?|?]; try done. exact (mail_connection_sent _ m (set_server (set_out (w_server w) es) w)).
  - apply (sent_update w i c _ []); [done|by rewrite app_nil_r].
  - by apply (connection_perform_sent i c).
  - apply (sent_update w i c _ []); [done|by rewrite app_nil_r].
  - apply (sent_update w i c _ []); [done|]. rewrite app_nil_r.
    by apply (stop_command_good _ (ci_session _ (Hc i c Hi)) (ci_clean _ (Hc i c Hi))).
  - specialize (Hc i c Hi).
    destruct (exec_clean uninit extra Hu He l (c_session c) s (ci_session _ Hc) (ci_clean _ Hc) Hin Es) as [_ (us & es & _ & Ee & _)].
    by apply (sent_update w i c _ es).
  - by destruct e as [[]| | | |].
  - by apply (main_exec_sent fails).
  - unfold system_ends in E. destruct (w_main w); try done; (destruct (_ && _); [|done]); by injection E as <-.
Qed.

Lemma steps_sent w w' : world_inv w → rtc world_step w w' → sent_events (w_clients w) ⊆+ sent_events (w_clients w').
Proof.
  intros I Hr. revert I. induction Hr as [|w1 w2 w3 H12 _ IH]; intros I; [done|].
  etrans; [by apply step_sent|]. apply IH. eapply steps_inv; [exact I|by apply rtc_once].
Qed.
End shutdown.

(** ** Main theorem *)

(** C16. The server can always be shut down: from every reachable state in
    which the main program waits for SIGINT, whoever is connected, whatever
    they have typed, and whatever is queued or left to send, there is a run in
    which the main program tells every connection and the server to end, all
    actors end, [await_all_actors_done] returns and the main program ends; the
    storage then holds what it held at the start and one entry for every
    registration, those made before the signal among them. *)
Theorem server_shuts_down {S : Socket} {L : SocketLaws S} {N : Net S} {NL : NetLaws N}
    {store : Type} {St : Storage store} {ready view} {SL : StorageLaws St ready view}
    uninit extra k mud (st : store) w :
  length uninit = 64%nat → length extra = 64%nat → ready st →
  world_reachable uninit extra k mud st w → w_main w = Waiting →
  ∃ w' s all, rtc (world_step uninit extra) w w' ∧ w_main w' = Ended ∧ all_actors_done w' = true ∧
    a_state (w_storage w') = Some s ∧ view s = run_writes (entry_write <$> all) (view st) ∧
    all ≡ₚ sent_events (w_clients w') ∧ sent_events (w_clients w) ⊆+ all.
Proof.
  intros Hu He Hst Hr Em. pose proof (world_reachable_inv (SL := SL) uninit extra Hu He (view st) k mud st w Hst eq_refl Hr) as I.
  destruct (shuts_down (SL := SL) uninit extra Hu He (view st) w I Em) as (w' & s & all & Hr' & Em' & Hd & Es & Hv & Hall).
  exists w', s, all. split_and!; try done. rewrite Hall.
  exact (steps_sent (SL := SL) uninit extra Hu He (view st) w w' I Hr').
Qed.

(** ** Witnesses: the two users of World.v *)
Definition sample_waiting : sample_world := world_run 1 [MainSteps false] sample_registered.

Lemma sample_waiting_reachable : sample_reachable sample_input sample_config mini_storage sample_waiting.
Proof. apply world_run_reachable, sample_registered_reachable. Qed.

Lemma server_shuts_down_witness : ∃ (w : sample_world) all,
  w_main w = Ended ∧ all_actors_done w = true ∧ all ≡ₚ sent_events (w_clients w) ∧ (1 ≤ length all)%nat.
Proof.
  assert (w_main sample_waiting = Waiting) as Hm by (vm_compute; reflexivity).
  destruct (server_shuts_down (L := Script_laws) (NL := ScriptNet_laws) (SL := mini_laws) (replicate 64 0) (replicate 64 0)
    sample_input sample_config mini_storage sample_waiting eq_refl eq_refl mini_ready sample_waiting_reachable Hm)
    as (w & s & all & _ & He & Hd & _ & _ & Hall & Hsub).
  exists w, all. split; [exact He|]. split; [exact Hd|]. split; [exact Hall|].
  apply submseteq_length in Hsub. refine (Nat.le_trans _ _ _ _ Hsub).
  assert (length (sent_events (w_clients sample_waiting)) = 1%nat) as -> by (vm_compute; reflexivity). apply le_n.
Defined.

(** A connection that is accepted after the main program has looked at the
    registry, and before it stops the server, is told nothing: it is alive
    when the server is gone, and [await_all_actors_done] waits for it. *)
Definition main_goes_on : list world_label := [MainSteps false].

Example late_connection :
  let start : sample_world := world_new (S := Script) ([typed "1"], "") sample_config mini_storage in
  let listening := world_run 1 main_goes_on (world_run 2 (server_labels 1) start) in
  let accepted := world_run 3 (server_labels 1) (world_run 1 main_goes_on listening) in
  let killed := world_run 8 (ServerStops :: server_labels 2) (world_run 1 main_goes_on accepted) in
  let waits := world_run 5 main_goes_on killed in
  (a_alive (w_server killed), (λ c, (a_alive (c_connection c), a_exit (c_connection c), a_mail (c_connection c))) <$> w_clients killed,
   w_main waits) =
  (false, [(true, false, [PerformWelcome])], Leaving true).
Proof. vm_compute. reflexivity. Qed.

(** A registration that the recorder has not handled when the system ends is
    lost: the storage actor is told to exit first. *)
Definition busy_labels (i : nat) : list world_label :=
  (SessionSteps i <$> [Flush RLogin; Flush RDefault; Flush RCommand; RunLogin first_draws; Run RDefault; Run RCommand;
     Stop RLogin; Stop RDefault]) ++
  [ConnectionSends i; ConnectionStops i; CommandStops i; ConnectionRuns i].

Example registration_lost :
  let start : sample_world := world_new (S := Script) ([typed "1"; typed "ann"; typed "pw"; typed "pw"], "") sample_config mini_storage in
  let accepted := world_run 1 main_goes_on (world_run 5 (server_labels 1) start) in
  let registered := world_run 150 (busy_labels 0) accepted in
  let told := world_run 3 main_goes_on registered in
  let killed := world_run 2 main_goes_on (world_run 8 (ServerStops :: server_labels 2) told) in
  let gone := world_run 150 (busy_labels 0) killed in
  let ended := world_run 10 [SystemEnds; StorageStops; RecorderSends; RecorderRuns; RecorderStops; MainSteps false] gone in
  (w_main ended, length (sent_events (w_clients ended)), (λ s, size (redis_view (keys := mini_keys) s)) <$> a_state (w_storage ended)) =
  (Ended, 1%nat, Some 0%nat).
Proof. vm_compute. reflexivity. Qed.
