(* ===== verification/Closing.v ===== *)
(** * Every run of a shutdown ends

    Shutdown.v shows that the server can be shut down. Here: once the server
    has gone and every connection that is left was told to end, whatever the
    actors and the main program do, and in whatever order, they can take only
    finitely many steps, and never come to a stop before all actors have
    ended and the main program has.  No scheduler has to be fair for this;
    only an actor that was sent its exit takes no further message, since an
    exit overtakes the messages that wait. *)
From Stdlib Require Import String.
From stdpp Require Import strings.
From S2P Require Import Prelude.
From S2P Require Import Text.
From S2P Require Import Security.
From S2P Require Import Comm.
From S2P Require Import Controllers.
From S2P Require Import Connection.
From S2P Require Import Session.
From S2P Require Import Storage.
From S2P Require Import Redis.
From S2P Require Import Events.
From S2P Require Import Server.
From S2P Require Import Dispatch.
From S2P Require Import World.
From S2P Require Import Shutdown.

(** ** Specification *)

#[export] Instance ending_dec c : Decision (ending c).
Proof. unfold ending. apply _. Defined.

(** A connection actor that is there will end. *)
Definition told_to_end (c : client) : Prop := a_alive (c_connection c) = true → doomed c.

(** *** The measure of a client *)

(** The messages ahead of the goodbye. *)
Fixpoint until_goodbye (ms : list msg) : nat :=
  match ms with
  | [] => 0
  | m :: ms => if decide (m = GoodbyeConnection) then 0 else S (until_goodbye ms)
  end.

Definition actors_left (c : client) : nat :=
  Nat.b2n (a_alive (c_connection c)) + Nat.b2n (a_alive (s_command (c_session c))).
Definition left_to_hear (c : client) : nat :=
  if decide (a_alive (c_connection c) = true ∧ ¬ ending c) then S (until_goodbye (a_mail (c_connection c))) else 0.
Definition left_to_send (c : client) : nat := length (a_out (c_connection c)).

Definition client_measure (c : client) : list nat :=
  [actors_left c; left_to_hear c; left_to_send c; weight (c_session c)].

(** What one step of a client on its way out leads to. *)
Definition closer (c c' : client) : Prop := told_to_end c' ∧ lex (client_measure c') (client_measure c).

(** ** One client *)
Lemma until_goodbye_app ms more : GoodbyeConnection ∈ ms → until_goodbye (ms ++ more) = until_goodbye ms.
Proof.
  induction ms as [|m ms IH]; [by intros ?%elem_of_nil|]. intros [E|H]%elem_of_cons; cbn.
  - by rewrite !decide_True by done.
  - case_decide; [done|]. by rewrite IH.
Qed.

(** Mail that arrives later changes nothing. *)
Lemma mail_later c d : told_to_end c → a_alive (c_connection d) = a_alive (c_connection c) → (ending c → ending d) →
  (∃ more, a_mail (c_connection d) = a_mail (c_connection c) ++ more) →
  told_to_end d ∧ (left_to_hear d ≤ left_to_hear c)%nat.
Proof.
  intros T Ha He (more & Em). split.
  - intros Hd. rewrite Ha in Hd. destruct (T Hd) as [H|H]; [left|right; auto]. rewrite Em. apply elem_of_app. by left.
  - unfold left_to_hear. rewrite Ha. case_decide as Hd; [|lia]. destruct Hd as [Hal Hne].
    rewrite decide_True by auto. rewrite Em. destruct (T Hal) as [H|H]; [|by destruct Hne; auto].
    by rewrite until_goodbye_app.
Qed.

Section client.
Context {S : Socket} {L : SocketLaws S} {N : Net S} {NL : NetLaws N}.
Context (uninit extra : list Z).

Lemma runs_closer c k m ms k' st e : client_inv c → told_to_end c → a_exit (c_connection c) = false →
  a_alive (c_connection c) = true → a_out (c_connection c) = [] → a_mail (c_connection c) = m :: ms →
  connection_handle k (a_state (c_connection c)) m = Ret (k', st, e) →
  closer c (set_connection c (mkActor st ms e true (a_exit (c_connection c)))).
Proof.
  intros C T Hx Ha Ho Em E. assert (¬ ending c) as Hne.
  { intros [?|H]; [congruence|]. rewrite Ho in H. by apply elem_of_nil in H. }
  set (d := set_connection _ _). destruct (T Ha) as [Hg|]; [|done]. rewrite Em in Hg.
  assert (m = GoodbyeConnection → ending d) as Hd.
  { intros ->. right. cbn [connection_handle] in E. pose proof (ci_descriptor _ C).
    rewrite decide_True in E by lia. rewrite CommStatic_Ret in E by done. cbn [mbind outcome_bind] in E.
    destruct (emit_line k _ _) as [k1 b1]. destruct (emit_line k1 _ _) as [k2 b2].
    injection E as _ _ <-. by right; left. }
  split.
  - intros _. apply elem_of_cons in Hg as [<-|Hg]; [right; by apply Hd|by left].
  - right. split; [unfold actors_left, d; cbn; by rewrite Ha|]. left.
    unfold left_to_hear at 2. rewrite (decide_True (P := a_alive (c_connection c) = true ∧ _)) by done. rewrite Em.
    unfold left_to_hear. destruct (decide (a_alive (c_connection d) = true ∧ ¬ ending d)) as [[_ Hn]|]; [|lia].
    cbn. rewrite decide_False by auto. lia.
Qed.

Lemma sends_closer c d e es : told_to_end c → a_out (c_connection c) = e :: es → a_out (c_connection d) = es →
  a_alive (c_connection d) = a_alive (c_connection c) → a_alive (s_command (c_session d)) = a_alive (s_command (c_session c)) →
  (∃ more, a_mail (c_connection d) = a_mail (c_connection c) ++ more) → (ending c → ending d) → closer c d.
Proof.
  intros T Eo Ed Ha Hc Hm He. destruct (mail_later c d T Ha He Hm) as [T' Hl]. split; [done|].
  right. split; [unfold actors_left; by rewrite Ha, Hc|]. right. split; [done|]. left.
  unfold left_to_send. rewrite Eo, Ed. cbn. lia.
Qed.

Lemma session_closer c l s user : client_inv c → told_to_end c → is_input l = false →
  Session.exec uninit extra l (c_session c) = Some (Ret s) → closer c (mkClient (mails user (c_connection c)) s).
Proof.
  intros C T Hin E. destruct (mail_later c (mkClient (mails user (c_connection c)) s) T) as [T' Hl].
  - cbn. apply mails_alive.
  - apply (ending_mails c user).
  - cbn. destruct (a_alive (c_connection c)) eqn:Ha; [rewrite mails_mail by done; by exists user|].
    rewrite mails_dead by done. exists []. by rewrite app_nil_r.
  - split; [done|]. right. split.
    + unfold actors_left. cbn. rewrite mails_alive. destruct (exec_later uninit extra l _ _ E) as [_ Hd].
      destruct (a_alive (s_command (c_session c))), (a_alive (s_command s)); cbn; lia.
    + right. split; [done|]. right. split; [unfold left_to_send; cbn; by rewrite mails_out|]. left. cbn.
      exact (exec_lighter uninit extra l _ _ (ci_session _ C) Hin E).
Qed.

Lemma connection_stops_closer c : a_alive (c_connection c) = true →
  closer c (mkClient (set_dead (c_connection c)) (foldl perform (c_session c) connection_exit)).
Proof. intros Ha. split; [done|]. left. unfold actors_left. cbn. rewrite Ha. cbn. lia. Qed.

Lemma command_stops_closer c : client_inv c → told_to_end c → leaving (s_command (c_session c)) = true →
  closer c (set_session c (stop_command (c_session c))).
Proof.
  intros C T El. split; [exact T|]. left. pose proof El as [_ Eo]%leaving_exit.
  destruct (stop_command_told _ (ci_session _ C) (ci_leashed _ C) Eo) as [[Ea _] _].
  unfold actors_left. cbn [c_connection c_session set_session]. rewrite Ea.
  unfold leaving in El. apply andb_prop in El as [El _]. apply andb_prop in El as [-> _]. cbn. lia.
Qed.
End client.

(** ** The world *)
Section closing.
Context {S : Socket} {L : SocketLaws S} {N : Net S} {NL : NetLaws N}.
Context {store : Type} {St : Storage store} {ready : store → Prop} {view : store → keyspace}.
Context {SL : StorageLaws St ready view}.
Context (uninit extra : list Z) (Hu : length uninit = 64%nat) (He : length extra = 64%nat).
Context (ks0 : keyspace).

Abbreviation W := (world kernel store).
Abbreviation world_inv := (world_inv (ready := ready) (view := view) ks0).
Abbreviation world_exec := (world_exec uninit extra).
Abbreviation world_step := (world_step uninit extra).
Abbreviation world_rule := (world_rule uninit extra).

(** A connection actor that was sent its exit takes no other message. *)
Definition urgent (l : world_label) (w : W) : Prop :=
  match l with
  | ConnectionRuns i => ∀ c, w_clients w !! i = Some c → a_exit (c_connection c) = false
  | _ => True
  end.

Inductive urgent_step (w : W) : W → Prop :=
  | urgent_step_exec l w' : urgent l w → world_exec l w = Some (Ret w') → urgent_step w w'.

(** The main program has told the server to end. *)
Definition past_kill (m : main_program) : bool := match m with Killing | Leaving _ | Ended => true | _ => false end.

(** What has gone says nothing, and the [MudSystem] takes the storage and the
    recorder with it. *)
Record gone_inv (w : W) : Prop := {
  gi_server : a_alive (w_server w) = false → a_out (w_server w) = [];
  gi_exits : w_system w = false → a_exit (w_storage w) = true ∧ a_exit (w_recorder w) = true
}.

Record closing (w : W) : Prop := {
  cg_inv : world_inv w;
  cg_gone : gone_inv w;
  cg_server : a_alive (w_server w) = false;
  cg_main : past_kill (w_main w) = true;
  cg_told : Forall told_to_end (w_clients w)
}.

(** *** The measure of the world *)
Definition main_rank (m : main_program) : nat := match m with Killing => 2 | Leaving _ => 1 | _ => 0 end.
Definition others_left (w : W) : nat :=
  main_rank (w_main w) + Nat.b2n (w_system w) + Nat.b2n (a_alive (w_storage w)) + Nat.b2n (a_alive (w_recorder w)).
Definition records_left (w : W) : nat :=
  3 * length (a_mail (w_recorder w)) + 2 * length (a_out (w_recorder w)) + length (a_mail (w_storage w)).

Definition measure (w : W) : list nat :=
  [(others_left w + sum_list_with actors_left (w_clients w))%nat; sum_list_with left_to_hear (w_clients w);
   sum_list_with left_to_send (w_clients w); sum_list_with (λ c, weight (c_session c)) (w_clients w); records_left w].

(** ** What holds of what has gone *)
Lemma gone_new k mud st : gone_inv (world_new k mud st).
Proof. by split. Qed.

Lemma mail_connection_others i m (w : W) : w_server (mail_connection i m w) = w_server w ∧
  w_system (mail_connection i m w) = w_system w ∧ w_storage (mail_connection i m w) = w_storage w ∧
  w_recorder (mail_connection i m w) = w_recorder w.
Proof. unfold mail_connection. by destruct (w_clients w !! i). Qed.

Lemma gone_rule l w w' : gone_inv w → world_rule w l w' → gone_inv w'.
Proof.
  intros [G1 G2] R. destruct R as [sa id m ms h Ha Eo Em Hf Eh|e es Eo|El|i c m ms k st e Hi Ha Eo Em Eh|i c e es Hi Eo|i c Hi El|i c Hi El|
    i c l s Hi Hin Es|m ms Ea Eo Em|e es Eo|m ms st l Ea Em Er|fails w' E|w' E|El|El].
  - destruct (h_reply h), (h_spawned h) as [[? ?]|]; by split.
  - assert (a_alive (w_server w) = true) as Ha by (destruct (a_alive (w_server w)); [done|]; rewrite G1 in Eo by done; done).
    destruct e as [[] m|[]|[]|n|n]; split; cbn; rewrite ?mail_alive, ?Ha; try done;
      destruct (mail_connection_others (pred (length (w_clients w))) m (set_server (set_out (w_server w) es) w)) as (E1 & E2 & E3 & E4);
      unfold mail_last; cbn [set_server w_clients]; rewrite ?E1, ?E2, ?E3, ?E4; cbn; rewrite ?Ha; done.
  - by split.
  - by split.
  - destruct e as [[]|[]|[]|?|?]; by split.
  - by split.
  - by split.
  - split; [done|]. cbn. rewrite mails_exit. done.
  - by split.
  - destruct e as [[]|[]|[]|?|?]; split; try done; cbn; by rewrite mail_exit.
  - by split.
  - unfold main_exec in E. destruct (w_main w) as [| |[|i rest]| |b|]; try done.
    + destruct (receive _ _ _); [|done]. by injection E as <-.
    + by injection E as <-.
    + injection E as <-. split; [|done]. cbn. rewrite mail_alive, mail_out. done.
    + injection E as <-. destruct (mail_connection_others i GoodbyeConnection w) as (E1 & E2 & E3 & E4).
      split; cbn; by rewrite ?E1, ?E2, ?E3, ?E4.
    + destruct (receive _ _ _); [|done]. by injection E as <-.
    + destruct (_ && _); [done|]. by injection E as <-.
  - unfold system_ends in E. destruct (w_main w); try done; (destruct (_ && _); [|done]); by injection E as <-.
  - split; [done|]. cbn. intros Hy. by split; [|apply G2].
  - split; [done|]. cbn. intros Hy. by split; [apply G2|].
Qed.

Lemma reachable_gone k mud st w : world_reachable uninit extra k mud st w → gone_inv w.
Proof.
  unfold world_reachable. generalize (gone_new k mud st). generalize (world_new k mud st). intros w0 G0 Hr.
  induction Hr as [|w1 w2 w3 [l w2' E] _ IH]; [done|]. apply IH. eapply gone_rule; [exact G0|]. by apply world_exec_rule.
Qed.

(** ** Every step makes the measure smaller *)
Lemma client_measure_lex (w w' : W) i c c' : w_clients w !! i = Some c → w_clients w' = <[i := c']> (w_clients w) →
  others_left w' = others_left w → closer c c' → lex (measure w') (measure w).
Proof.
  intros Hi E Eo [_ Hlt]. unfold measure. rewrite E, Eo.
  pose proof (sum_list_with_insert actors_left _ i c c' Hi). pose proof (sum_list_with_insert left_to_hear _ i c c' Hi).
  pose proof (sum_list_with_insert left_to_send _ i c c' Hi).
  pose proof (sum_list_with_insert (λ c, weight (c_session c)) _ i c c' Hi).
  unfold client_measure in Hlt. cbn [lex] in *. lia.
Qed.

Lemma client_changes (w w' : W) i c c' : closing w → world_inv w' → gone_inv w' → w_clients w !! i = Some c →
  w_clients w' = <[i := c']> (w_clients w) → same_main w w' → others_left w' = others_left w → closer c c' →
  closing w' ∧ lex (measure w') (measure w).
Proof.
  intros [C1 C2 C3 C4 C5] I G Hi E (E1 & E2 & E3) Eo Hc. split; [|by eapply client_measure_lex]. split; try done; rewrite ?E1, ?E2; try done.
  rewrite E. apply Forall_insert; [done|]. apply Hc.
Qed.

Lemma connection_perform_closer (w : W) i c e es : w_clients w !! i = Some c → told_to_end c → a_out (c_connection c) = e :: es →
  let c' := set_connection c (set_out (c_connection c) es) in
  let w' := connection_perform i c' (set_client i c' w) e in
  ∃ d, w_clients w' = <[i := d]> (w_clients w) ∧ same_main w w' ∧ others_left w' = others_left w ∧ closer c d.
Proof.
  intros Hi T Eo c' w'. assert (e ≠ SendExit RConnection → ending c → ending c') as Hend.
  { intros Hne [H|H]; [by left|right]. rewrite Eo in H. apply elem_of_cons in H as [<-|H]; done. }
  assert (∀ d, w_clients w' = <[i := d]> (<[i := c']> (w_clients w)) → w_clients w' = <[i := d]> (w_clients w)) as Hcl.
  { intros d ->. by rewrite list_insert_insert_eq. }
  assert (e ≠ SendExit RConnection → closer c c') as Hc.
  { intros Hne. eapply sends_closer; try done; [exists []; by rewrite app_nil_r|auto]. }
  destruct e as [[] m|[]|[]|n|n]; try (exists c'; split_and!; [by unfold w'; cbn|by unfold w'|by unfold w'|by apply Hc]).
  - exists (set_connection c' (mail m (c_connection c'))). split_and!; [by apply Hcl|done|done|].
    eapply sends_closer; try done; cbn.
    + by rewrite mail_out.
    + by rewrite mail_alive.
    + unfold mail. cbn. destruct (a_alive _); cbn; [by eexists|exists []; by rewrite app_nil_r].
    + intros H. apply (ending_mails c' [m]). by apply Hend.
  - exists (set_session c' (perform (c_session c') (Send RCommand m))). split_and!; [by apply Hcl|done|done|].
    eapply sends_closer; try done; cbn.
    + by rewrite mail_alive.
    + exists []. by rewrite app_nil_r.
    + by apply Hend.
  - exists (set_connection c' (request_exit (c_connection c'))). split_and!; [by apply Hcl|done|done|].
    eapply sends_closer; try done; cbn; [exists []; by rewrite app_nil_r|by left].
Qed.

Lemma others_change (w w' : W) : closing w → world_inv w' → gone_inv w' → w_server w' = w_server w → w_clients w' = w_clients w →
  past_kill (w_main w') = true → (others_left w' < others_left w ∨ others_left w' ≤ others_left w ∧ records_left w' < records_left w)%nat →
  closing w' ∧ lex (measure w') (measure w).
Proof.
  intros [C1 C2 C3 C4 C5] I G E1 E2 Hm Ho. split; [split; try done; by rewrite ?E1, ?E2|].
  unfold measure. rewrite E2. cbn [lex]. lia.
Qed.

Lemma leaving_alive {A} (a : actor A) : leaving a = true → a_alive a = true.
Proof. unfold leaving. by intros [[? _]%andb_prop _]%andb_prop. Qed.

Lemma urgent_closer w w' : closing w → urgent_step w w' → closing w' ∧ lex (measure w') (measure w).
Proof.
  intros C [l w1 Hur E]. pose proof C as [I G Cs Cm Ct]. assert (world_inv w1) as I1 by exact (exec_inv' (SL := SL) uninit extra Hu He ks0 l w w1 I E).
  apply world_exec_rule in E. pose proof (gone_rule _ _ _ G E) as G1.
  pose proof (wi_clients _ _ I) as Hc. rewrite Forall_lookup in Hc. rewrite Forall_lookup in Ct.
  destruct E as [sa id m ms h Ha Eo Em Hf Eh|e es Eo|El|i c m ms k st e Hi Ha Eo Em Eh|i c e es Hi Eo|i c Hi El|i c Hi El|
    i c l s Hi Hin Es|m ms Ea Eo Em|e es Eo|m ms st l Ea Em Er|fails w2 E|w2 E|El|El].
  - congruence.
  - rewrite (gi_server _ G Cs) in Eo. done.
  - apply leaving_alive in El. congruence.
  - eapply client_changes; try done. by eapply (runs_closer c (w_kernel w)); eauto.
  - destruct (connection_perform_closer w i c e es Hi (Ct i c Hi) Eo) as (d & Ed & Hm & Ho & Hd). by eapply client_changes.
  - eapply client_changes; try done. apply connection_stops_closer. by apply leaving_alive.
  - eapply client_changes; try done. apply command_stops_closer; eauto.
  - eapply client_changes; try done; [|by eapply session_closer; eauto].
    unfold others_left. cbn. by rewrite mails_alive.
  - apply (others_change w); try done. right. unfold others_left, records_left. cbn. rewrite Ea, Em, Eo.
    assert (length (event_recorder_handle m) ≤ 1)%nat by (destruct m; cbn; lia). cbn. lia.
  - apply (others_change w); try done; try by destruct e as [[]| | | |]. right. unfold others_left, records_left. rewrite Eo.
    destruct e as [[]| | | |]; cbn; rewrite ?mail_alive; unfold mail; try destruct (a_alive (w_storage w)); cbn; rewrite ?length_app; cbn; lia.
  - apply (others_change w); try done. right. unfold others_left, records_left. cbn. rewrite Ea, Em. cbn. lia.
  - unfold main_exec in E. destruct (w_main w) as [| |[|i rest]| |b|] eqn:Em; try done.
    + destruct (receive _ _ _); [|done]. injection E as <-. apply (others_change w); try done. left. unfold others_left. rewrite Em. cbn. lia.
    + destruct (_ && _); [done|]. injection E as <-. apply (others_change w); try done. left. unfold others_left. rewrite Em. cbn. lia.
  - unfold system_ends in E. destruct (w_main w) eqn:Em; try done; (destruct (w_system w) eqn:Ey; [|done]); cbn [andb] in E;
      (destruct (users_gone w); [|done]); injection E as <-; apply (others_change w); try done; try (cbn; by rewrite Em);
      left; unfold others_left; cbn; rewrite Em, Ey; cbn; lia.
  - apply (others_change w); try done. left. apply leaving_alive in El. unfold others_left. cbn. rewrite El. cbn. lia.
  - apply (others_change w); try done. left. apply leaving_alive in El. unfold others_left. cbn. rewrite El. cbn. lia.
Qed.

(** ** No run comes to a stop before the end *)
Lemma can_step l w r : closing w → urgent l w → world_exec l w = Some r → ∃ w', urgent_step w w'.
Proof.
  intros C Hl E. destruct (world_exec_ret (SL := SL) uninit extra Hu He ks0 l w r (cg_inv _ C) E) as [w' ->].
  exists w'. by econstructor.
Qed.

Lemma connection_progress w i c : closing w → w_clients w !! i = Some c →
  (∃ w', urgent_step w w') ∨ a_alive (c_connection c) = false ∧ a_out (c_connection c) = [].
Proof.
  intros C Hi. pose proof (cg_told _ C) as Ct. rewrite Forall_lookup in Ct.
  destruct (a_out (c_connection c)) as [|e es] eqn:Eo.
  2: { left. eapply (can_step (ConnectionSends i)); [done|done|]. cbn [World.world_exec]. rewrite Hi. cbn [mbind option_bind]. by rewrite Eo. }
  destruct (a_alive (c_connection c)) eqn:Ea; [|by right]. left. destruct (a_exit (c_connection c)) eqn:Ex.
  - eapply (can_step (ConnectionStops i)); [done|done|]. cbn [World.world_exec]. rewrite Hi. cbn [mbind option_bind].
    unfold leaving. by rewrite Ea, Ex, Eo.
  - destruct (Ct i c Hi Ea) as [Hg|[?|Hg]]; [|congruence|rewrite Eo in Hg; by apply elem_of_nil in Hg].
    destruct (a_mail (c_connection c)) as [|m ms] eqn:Em; [by apply elem_of_nil in Hg|].
    eapply (can_step (ConnectionRuns i)); [done|intros d Hd; congruence|]. cbn [World.world_exec]. rewrite Hi. cbn [mbind option_bind].
    by rewrite Ea, Eo, Em.
Qed.

Lemma session_progress w i c : closing w → w_clients w !! i = Some c →
  (∃ w', urgent_step w w') ∨ settled (c_session c).
Proof.
  intros C Hi. pose proof (wi_clients _ _ (cg_inv _ C)) as Hc. rewrite Forall_lookup in Hc.
  destruct (internal_or_settled uninit extra Hu He (c_session c) (ci_session _ (Hc i c Hi))) as [Hs|(s' & l & Hl & E)]; [by right|].
  left. eapply (can_step (SessionSteps i l)); [done|done|]. cbn [World.world_exec]. rewrite Hi. cbn [mbind option_bind].
  destruct l; [done|by rewrite E..].
Qed.

Lemma client_progress w i c : closing w → w_clients w !! i = Some c → (∃ w', urgent_step w w') ∨ client_done c.
Proof.
  intros C Hi. destruct (connection_progress w i c C Hi) as [?|[Ha _]]; [by left|].
  destruct (session_progress w i c C Hi) as [?|([Ho _] & _ & _ & Hl & Hd)]; [by left|].
  pose proof (wi_clients _ _ (cg_inv _ C)) as Hc. rewrite Forall_lookup in Hc. pose proof (Hc i c Hi) as Ci.
  destruct (a_alive (s_command (c_session c))) eqn:Eac.
  - left. eapply (can_step (CommandStops i)); [done|done|]. cbn [World.world_exec]. rewrite Hi. cbn [mbind option_bind].
    unfold leaving. by rewrite Eac, (ci_gone _ Ci Ha), Ho.
  - right. destruct (le_gone _ (ci_leashed _ Ci) Eac) as (_ & Hxd & Hxl). unfold stopped in *. split.
    + unfold client_gone. rewrite Ha, Eac. destruct (a_alive (s_login _)); [|done]. rewrite Hxl in Hl by done. discriminate (Hl eq_refl).
    + destruct (a_alive (s_default _)); [|done]. rewrite Hxd in Hd. discriminate (Hd eq_refl).
Qed.

(** All of a list are done, or one is not. *)
Lemma all_or_one {A} (P : Prop) (Q : A → Prop) l : (∀ i x, l !! i = Some x → P ∨ Q x) → P ∨ Forall Q l.
Proof.
  induction l as [|x l IH]; intros H; [by right|]. destruct (H 0%nat x eq_refl) as [?|Hx]; [by left|].
  destruct IH as [?|Hl]; [intros i y Hi; by apply (H (Datatypes.S i))|by left|]. right. by constructor.
Qed.

Lemma system_progress w : closing w → w_system w = false →
  (∃ w', urgent_step w w') ∨ a_alive (w_storage w) = false ∧ a_alive (w_recorder w) = false.
Proof.
  intros C Hy. destruct (gi_exits _ (cg_gone _ C) Hy) as [Sx Rx].
  destruct (wi_stored _ _ (cg_inv _ C)) as (dn & wt & lost & [_ _ Sq _ _ _]).
  destruct (a_alive (w_storage w)) eqn:Sa.
  { left. eapply (can_step StorageStops); [done|done|]. cbn [World.world_exec]. unfold leaving. by rewrite Sa, Sx, Sq. }
  destruct (a_alive (w_recorder w)) eqn:Ra; [|by right]. left. destruct (a_out (w_recorder w)) as [|e es] eqn:Ro.
  - eapply (can_step RecorderStops); [done|done|]. cbn [World.world_exec]. unfold leaving. by rewrite Ra, Rx, Ro.
  - eapply (can_step RecorderSends); [done|done|]. cbn [World.world_exec]. by rewrite Ro.
Qed.

Lemma done_or_step w : closing w → (∃ w', urgent_step w w') ∨ w_main w = Ended ∧ all_actors_done w = true.
Proof.
  intros C. destruct (all_or_one (∃ w', urgent_step w w') client_done (w_clients w)) as [?|Hd]; [|by left|].
  { intros i c. by apply client_progress. }
  assert (users_gone w = true ∧ forallb (λ c, negb (a_alive (s_default (c_session c)))) (w_clients w) = true) as [Hg Hf].
  { unfold users_gone. rewrite (cg_server _ C). cbn [negb andb]. rewrite Forall_forall in Hd.
    split; apply forallb_forall; intros c Hin%list_elem_of_In; destruct (Hd c Hin) as [? Hdef]; [done|by rewrite Hdef]. }
  destruct (w_main w) as [| |l| |b|] eqn:Em; try (pose proof (cg_main _ C) as H; by rewrite Em in H).
  - left. eapply (can_step (MainSteps true)); [done|done|]. cbn [World.world_exec]. unfold main_exec. rewrite Em. reflexivity.
  - destruct (w_system w) eqn:Ey.
    { left. eapply (can_step SystemEnds); [done|done|]. cbn [World.world_exec]. unfold system_ends. rewrite Em, Ey, Hg. reflexivity. }
    destruct (system_progress w C Ey) as [?|[Sa Ra]]; [by left|]. left. eapply (can_step (MainSteps false)); [done|done|].
    cbn [World.world_exec]. unfold main_exec. rewrite Em. unfold all_actors_done. rewrite Hg, Hf, Sa, Ra.
    cbn. rewrite andb_false_r. reflexivity.
  - destruct (w_system w) eqn:Ey.
    { left. eapply (can_step SystemEnds); [done|done|]. cbn [World.world_exec]. unfold system_ends. rewrite Em, Ey, Hg. reflexivity. }
    destruct (system_progress w C Ey) as [?|[Sa Ra]]; [by left|]. right. split; [done|].
    unfold all_actors_done. by rewrite Hg, Hf, Sa, Ra.
Qed.

Lemma closing_runs w w' : closing w → rtc urgent_step w w' → closing w'.
Proof. intros C Hr. revert C. induction Hr as [|w1 w2 w3 H _ IH]; [done|]. intros C. by apply IH, (urgent_closer w1 w2). Qed.

Lemma closing_ends w : closing w → sn urgent_step w.
Proof.
  apply (lex_descends urgent_step closing measure 5); [done|]. intros a b Ca Hab. by apply urgent_closer.
Qed.
End closing.

(** ** Main theorem *)

(** C17. Every shutdown comes to its end: in a reachable state in which the
    server has gone, the main program has told it to go, and every connection
    that is left has a goodbye waiting or is on its way out, there is no
    infinite run, whatever is queued, typed or left to send and whoever moves
    first, and no run stops early: wherever it stands, a further step can be
    taken, or all actors have ended, [await_all_actors_done] has returned and
    the main program has ended. *)
Theorem shutdown_ends {S : Socket} {L : SocketLaws S} {N : Net S} {NL : NetLaws N}
    {store : Type} {St : Storage store} {ready view} {SL : StorageLaws St ready view}
    uninit extra k mud (st : store) w :
  length uninit = 64%nat → length extra = 64%nat → ready st →
  world_reachable uninit extra k mud st w →
  a_alive (w_server w) = false → past_kill (w_main w) = true → Forall told_to_end (w_clients w) →
  sn (urgent_step uninit extra) w ∧
  ∀ w', rtc (urgent_step uninit extra) w w' →
    (∃ w'', urgent_step uninit extra w' w'') ∨ w_main w' = Ended ∧ all_actors_done w' = true.
Proof.
  intros Hu He Hst Hr Hs Hm Ht.
  pose proof (world_reachable_inv (SL := SL) uninit extra Hu He (view st) k mud st w Hst eq_refl Hr) as I.
  assert (closing (ready := ready) (view := view) (view st) w) as C by (split; try done; by eapply reachable_gone).
  split; [by eapply (closing_ends (SL := SL))|]. intros w' Hw. apply (done_or_step (SL := SL) uninit extra Hu He (view st)).
  exact (closing_runs (SL := SL) uninit extra Hu He (view st) w w' C Hw).
Qed.

(** ** Witness: two users are connected when the server goes *)
Definition sample_told : sample_world := world_run 4 [MainSteps false] sample_waiting.
Definition sample_closing : sample_world := world_run 8 (ServerStops :: server_labels 3) sample_told.

Lemma sample_closing_reachable : sample_reachable sample_input sample_config mini_storage sample_closing.
Proof. do 2 apply world_run_reachable. apply sample_waiting_reachable. Qed.

(** The first connection has polls ahead of its goodbye and one left to send. *)
Example sample_closing_state :
  (w_main sample_closing, a_alive (w_server sample_closing),
   (λ c, (a_mail (c_connection c), a_out (c_connection c))) <$> w_clients sample_closing) =
  (Killing, false,
   [([FromUserGetInput; FromUserGetInput; FromUserGetInput; FromUserGetInput; GoodbyeConnection], [Send RConnection FromUserGetInput]);
    ([PerformWelcome; GoodbyeConnection], [])]).
Proof. vm_compute. reflexivity. Qed.

Lemma shutdown_ends_witness :
  sn (urgent_step (replicate 64 0) (replicate 64 0)) sample_closing ∧
  ∃ w', urgent_step (replicate 64 0) (replicate 64 0) sample_closing w'.
Proof.
  assert (a_alive (w_server sample_closing) = false) as Hs by (vm_compute; reflexivity).
  assert (past_kill (w_main sample_closing) = true) as Hm by (vm_compute; reflexivity).
  assert (forallb (λ c, bool_decide (GoodbyeConnection ∈ a_mail (c_connection c))) (w_clients sample_closing) = true) as Ht
    by (vm_compute; reflexivity).
  assert (Forall told_to_end (w_clients sample_closing)) as Ht'.
  { apply Forall_forall. intros c Hc%list_elem_of_In _. left. rewrite forallb_forall in Ht.
    exact (proj1 (bool_decide_eq_true _) (Ht c Hc)). }
  assert (w_main sample_closing <> Ended) as Hne by (vm_compute; discriminate).
  destruct (shutdown_ends (L := Script_laws) (NL := ScriptNet_laws) (SL := mini_laws) (replicate 64 0) (replicate 64 0)
    sample_input sample_config mini_storage sample_closing eq_refl eq_refl mini_ready sample_closing_reachable Hs Hm Ht')
    as [Hsn Hgo].
  split; [exact Hsn|]. destruct (Hgo _ (rtc_refl _ _)) as [Hw|[He _]]; [exact Hw|contradiction].
Defined.
