(* ===== verification/Life.v ===== *)
(** * The game of life (src/life/life.c)

    The board operations over two boards of [NUM_ROWS] times [NUM_COLS]
    characters, the loop of [play], the reader of board files and the options.
    A board is a vector of rows; an access outside of it is undefined. What
    the terminal shows is a list of frames, and [getch] a function from the
    number of the call to the key. *)
From Stdlib Require Import Ascii String.
From S2P Require Import Prelude.
From S2P Require Import Text.
From S2P Require Import Options.

Definition ALIVE : Z := 88.
Definition DEAD : Z := 46.
Definition OUTSIDE : Z := 45.

(** [addwstr] writes these characters. *)
Definition OUT_ALIVE : Z := 0x2B24.
Definition OUT_DEAD : Z := 0x00B7.

Definition board : Type := list (list Z).

(** [board[i][j]] and [board[i][j] = x] *)
Definition cell (b : board) (i j : Z) : outcome Z := row ← vget b i; vget row j.
Definition set (b : board) (i j x : Z) : outcome board := row ← vget b i; row ← vset row j x; vset b i row.

Section life.
(** The global variables that [process_cli] sets. *)
Context (NUM_ROWS NUM_COLS : Z).

(** The two nested loops over all cells. *)
Definition for_cells {S} (body : S → Z → Z → outcome S) (s : S) : outcome S :=
  for_range 0 NUM_ROWS (λ s i, for_range 0 NUM_COLS (λ s j, body s i j) s) s.

(** ** Board operations *)
Definition clear_board (b : board) (clearchar : Z) : outcome board :=
  for_cells (λ b i j, set b i j clearchar) b.

(** [malloc] gives memory that holds [junk]. *)
Definition allocate_board (junk : Z) : outcome board :=
  clear_board (replicate (Z.to_nat NUM_ROWS) (replicate (Z.to_nat NUM_COLS) junk)) DEAD.

(** The characters [print_board] writes. *)
Definition print_board (b : board) : outcome (list Z) :=
  for_range 0 NUM_ROWS (λ out i,
    out ← for_range 0 NUM_COLS (λ out j,
      x ← cell b i j;
      Ret (out ++ [if decide (x = ALIVE) then OUT_ALIVE else OUT_DEAD; 32])) out;
    Ret (out ++ [10])) [].

Definition copy_board (src dest : board) : outcome board :=
  for_cells (λ dest i j, x ← cell src i j; set dest i j x) dest.

Definition invert_board (b : board) : outcome board :=
  for_cells (λ b i j, x ← cell b i j; set b i j (if decide (x = ALIVE) then DEAD else ALIVE)) b.

(** A loop that returns from the function when [test] says so; [None] when it
    runs to its end. *)
Definition for_cells_return (test : Z → Z → outcome (option Z)) : outcome (option Z) :=
  for_cells (λ r i j, match r with Some _ => Ret r | None => test i j end) None.

Definition check_board (b : board) : outcome Z :=
  r ← for_cells_return (λ i j, x ← cell b i j; Ret (if decide (x = ALIVE) then Some 1 else None));
  Ret (default 0 r).

Definition compare_boards (a b : board) : outcome Z :=
  r ← for_cells_return (λ i j, x ← cell a i j; y ← cell b i j; Ret (if decide (x ≠ y) then Some 1 else None));
  Ret (default 0 r).

(** [rand()] for the cell at (i, j). *)
Definition randomize_board (rand : Z → Z → Z) (b : board) : outcome board :=
  for_cells (λ b i j, set b i j (if decide (Z.rem (rand i j) 2 = 0) then ALIVE else DEAD)) b.

(** [printf] and [exit(1)] *)
Definition exit {A} (message : string) : outcome A := Throw message.

Definition set_cell (b : board) (setchar row col : Z) : outcome board :=
  if decide (row < 0 ∨ NUM_ROWS ≤ row ∨ col < 0 ∨ NUM_COLS < col) then exit "Error: invalid coordinate specified"
  else set b row col setchar.

Definition get_cell (b : board) (row col : Z) : outcome Z :=
  if decide (row < 0 ∨ NUM_ROWS ≤ row ∨ col < 0 ∨ NUM_COLS ≤ col) then Ret DEAD
  else cell b row col.

(** ** Game of life functions *)

(** The eight cells in the order of the code. *)
Definition offsets : list (Z * Z) :=
  [(-1, -1); (-1, 0); (-1, 1); (0, -1); (0, 1); (1, -1); (1, 0); (1, 1)].

Definition num_neighbors (b : board) (row col : Z) : outcome Z :=
  foldM (λ count d,
    c ← get_cell b (row + d.1) (col + d.2);
    Ret (if decide (c = ALIVE) then count + 1 else count)) 0 offsets.

Definition cell_next (b : board) (row col : Z) : outcome Z :=
  n ← num_neighbors b row col;
  cell ← get_cell b row col;
  if decide (cell = ALIVE) then Ret (if decide (n = 2 ∨ n = 3) then ALIVE else DEAD)
  else if decide (cell = DEAD) then Ret (if decide (n = 3) then ALIVE else DEAD)
  else Ret OUTSIDE.

Definition calc_next_generation (currentGen nextGen : board) : outcome board :=
  for_cells (λ nextGen i j, x ← cell_next currentGen i j; set nextGen i j x) nextGen.

(** ** [read_file] *)
Definition BUF_LEN : nat := 1000.

(** An open file: what is left of it, and whether its end was met. *)
Record stream := mkStream { data : list Z; feof : bool }.

(** The characters [fgets] takes, at most [n]; what is left; and whether it
    met the end. *)
Fixpoint fgets_line (n : nat) (data : list Z) : list Z * list Z * bool :=
  match n, data with
  | O, _ => ([], data, false)
  | S _, [] => ([], [], true)
  | S n, c :: data =>
      if decide (c = 10) then ([c], data, false)
      else let '(l, rest, e) := fgets_line n data in (c :: l, rest, e)
  end.

(** [fgets(buf, BUF_LEN, h)]; the buffer is left alone when nothing is read. *)
Definition fgets (buf : list Z) (h : stream) : list Z * stream :=
  let '(l, rest, e) := fgets_line (BUF_LEN - 1) (data h) in
  (if decide (l = []) then buf else l ++ 0 :: drop (length l + 1) buf, mkStream rest (feof h || e)).

(** [strlen(buf)]; undefined without a terminator. *)
Fixpoint strlen (buf : list Z) : outcome Z :=
  match buf with
  | [] => Undef
  | c :: buf => if decide (c = 0) then Ret 0 else n ← strlen buf; Ret (n + 1)
  end.

(** The two complaints about a file. *)
Definition too_many_columns (filename : string) (n : Z) : string :=
  (filename +:+ " has " +:+ pretty n +:+ " columns (max " +:+ pretty NUM_COLS +:+ ")" +:+ endl)%string.
Definition wrong_rows (filename : string) (row : Z) : string :=
  (filename +:+ " has " +:+ pretty row +:+ " rows (must be " +:+ pretty NUM_ROWS +:+ ")" +:+ endl)%string.

Section read_file.
Context (filename : string).

Fixpoint read_rows (fuel : nat) (row : Z) (buf : list Z) (h : stream) (b : board) : outcome (Z * board) :=
  match fuel with
  | O => NoFuel
  | S fuel =>
      if feof h then Ret (row, b)
      else
        last ← vget buf NUM_COLS;
        buf ← (if decide (last = 10) then vset buf NUM_COLS 0 else Ret buf);
        len ← strlen buf;
        if decide (NUM_COLS < len) then exit (too_many_columns filename len)
        else
          b ← for_range 0 NUM_COLS (λ b j, c ← vget buf j; set b row j c) b;
          row ← int_add row 1;
          let '(buf, h) := fgets buf h in
          read_rows fuel row buf h b
  end.

(** [file] is what the file holds, [None] when it cannot be opened; [buf] is
    the memory from [malloc]. *)
Definition read_file (file : option (list Z)) (buf : list Z) (b : board) : outcome board :=
  match file with
  | None => exit "Error, bad file. Aborting."
  | Some content =>
      let '(buf, h) := fgets buf (mkStream content false) in
      '(row, b) ← read_rows (S (S (length content))) 0 buf h b;
      if decide (row ≠ NUM_ROWS) then exit (wrong_rows filename row) else Ret b
  end.

End read_file.

(** ** [play] *)

(** What [play] does with the terminal: the titles and boards it prints, the
    reasons it gives, and the last [getch] that waits. *)
Inductive shown :=
  | Initial
  | Generation (i : Z)
  | Cells (chars : list Z)
  | Identical
  | AllDead
  | WaitForKey.

Record results := mkResults { generations : Z; key_pressed : Z }.

Section play.
(** The constants of ncurses, and the keys: [getch] returns [ERR] when there
    is none. *)
Context (ERR KEY_RESIZE REFRESH_DELAY_MS : Z) (getch : Z → Z).

(** [n] iterations are left; [usleep(usec)] is only the product, which may
    overflow; the call of [getch] in iteration [i] is number
    [i]. *)
Fixpoint play_loop (n : nat) (i : Z) (currentGen nextGen : board) (key : Z) (screen : list shown) :
    outcome (results * list shown) :=
  match n with
  | O => Ret (mkResults i key, screen)
  | S n =>
      nextGen ← calc_next_generation currentGen nextGen;
      chars ← print_board nextGen;
      let screen := screen ++ [Generation i; Cells chars] in
      differ ← compare_boards currentGen nextGen;
      if decide (differ = 0) then Ret (mkResults i key, screen ++ [Identical])
      else
        alive ← check_board nextGen;
        if decide (alive = 0) then Ret (mkResults i key, screen ++ [AllDead])
        else
          usec ← int_mul 1000 REFRESH_DELAY_MS;
          let key := getch i in
          if decide (key ≠ ERR ∧ key ≠ KEY_RESIZE) then Ret (mkResults i key, screen)
          else
            i ← int_add i 1;
            play_loop n i nextGen currentGen key screen
  end.

Definition play (FILENAME : string) (MAX_GENERATIONS junk : Z) (file : option (list Z)) (buf : list Z)
    (rand : Z → Z → Z) : outcome (results * list shown) :=
  board1 ← allocate_board junk;
  board2 ← allocate_board junk;
  currentGen ← (if decide (0 < String.length FILENAME)%nat then read_file FILENAME file buf board1
                else randomize_board rand board1);
  chars ← print_board currentGen;
  '(result, screen) ← play_loop (Z.to_nat MAX_GENERATIONS) 1 currentGen board2 (getch 0) [Initial; Cells chars];
  Ret (result, if decide (key_pressed result = ERR) then screen ++ [WaitForKey] else screen).
End play.

(** ** Specification *)
Definition inside (i j : Z) : Prop := 0 ≤ i < NUM_ROWS ∧ 0 ≤ j < NUM_COLS.
#[export] Instance inside_dec i j : Decision (inside i j).
Proof. unfold inside. apply _. Defined.

(** The board has the size that was asked for, and its cells are alive or
    dead. *)
Definition dims (b : board) : Prop :=
  length b = Z.to_nat NUM_ROWS ∧ Forall (λ row : list Z, length row = Z.to_nat NUM_COLS) b.

Definition at_ (b : board) (i j : Z) : Z := vgetd DEAD (vgetd [] b i) j.
Definition wf (b : board) : Prop := dims b ∧ ∀ i j, inside i j → at_ b i j = ALIVE ∨ at_ b i j = DEAD.
Definition alive (b : board) (i j : Z) : Prop := inside i j ∧ at_ b i j = ALIVE.
#[export] Instance alive_dec b i j : Decision (alive b i j).
Proof. unfold alive. apply _. Defined.

Definition positions : list (Z * Z) := seqZ 0 NUM_ROWS ≫= λ i, (λ j, (i, j)) <$> seqZ 0 NUM_COLS.

(** The neighbours of a cell that are alive: all cells of the board other
    than itself that are at most one row and one column away. *)
Definition neighbours (b : board) (i j : Z) : nat :=
  length (filter (λ p, alive b p.1 p.2 ∧ p ≠ (i, j) ∧ Z.abs (p.1 - i) ≤ 1 ∧ Z.abs (p.2 - j) ≤ 1) positions).

(** Conway's rule: birth on three, survival on two or three. *)
Definition lives (b : board) (i j : Z) : Prop :=
  if decide (alive b i j) then neighbours b i j = 2%nat ∨ neighbours b i j = 3%nat else neighbours b i j = 3%nat.
#[export] Instance lives_dec b i j : Decision (lives b i j).
Proof. unfold lives. destruct (decide (alive b i j)); apply _. Defined.

Definition next (b : board) : board :=
  (λ i, (λ j, if decide (lives b i j) then ALIVE else DEAD) <$> seqZ 0 NUM_COLS) <$> seqZ 0 NUM_ROWS.

(** ** Boards *)
Lemma elem_of_positions i j : (i, j) ∈ positions ↔ inside i j.
Proof.
  unfold positions, inside. rewrite list_elem_of_bind. setoid_rewrite elem_of_seqZ.
  setoid_rewrite list_elem_of_fmap. setoid_rewrite elem_of_seqZ.
  split; [intros (i' & (j' & [= <- <-] & ?) & ?); lia|]. intros [??]. exists i. split; [|lia]. exists j. split; [done|lia].
Qed.

Lemma NoDup_positions : NoDup positions.
Proof.
  apply NoDup_bind.
  - intros i i' p _ _ (j & -> & _)%list_elem_of_fmap (j' & [= -> _] & _)%list_elem_of_fmap. done.
  - intros i _. apply NoDup_fmap_2; [intros ? ? [= ->]; done|apply NoDup_seqZ].
  - apply NoDup_seqZ.
Qed.

Lemma for_cells_positions {S} (body : S → Z → Z → outcome S) s :
  for_cells body s = foldM (λ s p, body s p.1 p.2) s positions.
Proof.
  unfold for_cells, for_range, positions. rewrite !Z.sub_0_r, <-foldM_bind. apply foldM_ext. intros s' i.
  by rewrite <-(foldM_fmap (λ s p, body s p.1 p.2) (λ j, (i, j))).
Qed.

Lemma dims_row b i : dims b → 0 ≤ i < NUM_ROWS →
  ∃ row, vget b i = Ret row ∧ length row = Z.to_nat NUM_COLS.
Proof.
  intros [Hl Hr] Hi. destruct (vget_is_Ret b i) as [row E]; [lia|]. exists row. split; [done|].
  apply vget_Ret in E as [_ E]. by eapply Forall_lookup_1 in Hr.
Qed.

Lemma cell_at b i j : dims b → inside i j → cell b i j = Ret (at_ b i j).
Proof.
  intros Hb [Hi Hj]. destruct (dims_row b i Hb Hi) as (row & E & Hl). unfold cell, at_.
  rewrite (vgetd_Ret _ _ _ _ E), E. cbn [mbind outcome_bind]. apply vget_vgetd. lia.
Qed.

Lemma set_at b i j x : dims b → inside i j →
  returns (set b i j x) (λ b', dims b' ∧ ∀ i' j', at_ b' i' j' = if decide ((i', j') = (i, j)) then x else at_ b i' j').
Proof.
  intros Hb [Hi Hj]. destruct (dims_row b i Hb Hi) as (row & E & Hl). unfold set. rewrite E. cbn [mbind outcome_bind].
  destruct (vset row j x) as [row'| | |] eqn:E1; [|unfold vset in E1; case_decide; [done|lia]..].
  destruct (vset b i row') as [b'| | |] eqn:E2;
    [|unfold vset in E2; destruct Hb; case_decide; [done|lia]..].
  cbn [mbind outcome_bind]. rewrite E2. apply returns_Ret. split.
  - apply vset_Ret in E2 as [_ ->]. destruct Hb as [Hlb Hrows]. split; [by rewrite length_insert|].
    apply Forall_insert; [done|]. by rewrite (vset_length _ _ _ _ E1).
  - intros i' j'. unfold at_. rewrite (vgetd_vset _ _ _ _ _ i' E2).
    destruct (decide (i = i')) as [<-|Hne]; [|by rewrite decide_False by congruence].
    rewrite (vgetd_vset _ _ _ _ _ j' E1), (vgetd_Ret _ _ _ _ E).
    repeat case_decide; congruence.
Qed.

Lemma board_ext b b' : dims b → dims b' → (∀ i j, inside i j → at_ b i j = at_ b' i j) → b = b'.
Proof.
  intros Hb Hb' E. apply vec_ext; [destruct Hb, Hb'; congruence|]. intros i Hi.
  assert (0 ≤ i < NUM_ROWS) as Hi' by (destruct Hb; lia).
  destruct (dims_row b i Hb Hi') as (row & E1 & Hl1). destruct (dims_row b' i Hb' Hi') as (row' & E2 & Hl2).
  rewrite E1, E2. f_equal. apply vec_ext; [congruence|]. intros j Hj.
  specialize (E i j ltac:(unfold inside; lia)). unfold at_ in E.
  rewrite (vgetd_Ret _ _ _ _ E1), (vgetd_Ret _ _ _ _ E2) in E.
  rewrite !(vget_vgetd DEAD) by lia. by rewrite E.
Qed.

Definition board_of (f : Z → Z → Z) : board := (λ i, (λ j, f i j) <$> seqZ 0 NUM_COLS) <$> seqZ 0 NUM_ROWS.

Lemma board_of_dims f : dims (board_of f).
Proof.
  unfold board_of. split; [by rewrite length_fmap, length_seqZ|]. apply Forall_fmap, Forall_forall. intros i _. cbn.
  by rewrite length_fmap, length_seqZ.
Qed.

Lemma vgetd_seqZ {A} dft (f : Z → A) n i : 0 ≤ i < n → vgetd dft (f <$> seqZ 0 n) i = f i.
Proof.
  intros Hi. apply vgetd_Ret, vget_Ret. split; [lia|]. rewrite list_lookup_fmap, lookup_seqZ_lt by lia. cbn. f_equal. f_equal. lia.
Qed.

Lemma board_of_at f i j : inside i j → at_ (board_of f) i j = f i j.
Proof. intros [Hi Hj]. unfold at_, board_of. by rewrite !vgetd_seqZ. Qed.

(** A loop over all cells that replaces each by a function of its value. *)
Lemma update_cells (body : board → Z → Z → outcome board) (f : Z → Z → Z → Z) b :
  (∀ b i j, dims b → inside i j → body b i j = set b i j (f i j (at_ b i j))) →
  dims b → for_cells body b = Ret (board_of (λ i j, f i j (at_ b i j))).
Proof.
  intros Hbody Hb. rewrite for_cells_positions.
  destruct (foldM_inv (λ s p, body s p.1 p.2)
    (λ pre b', dims b' ∧ ∀ i j, inside i j → at_ b' i j = if decide ((i, j) ∈ pre) then f i j (at_ b i j) else at_ b i j)
    positions b) as (b' & -> & Hd & Hat).
  - split; [done|]. intros i j _. by rewrite decide_False by apply not_elem_of_nil.
  - intros pre [i j] post b1 Hpos [Hd Hat]. cbn [fst snd].
    assert (inside i j) as Hij by (apply elem_of_positions; rewrite Hpos; set_solver).
    assert ((i, j) ∉ pre) as Hnew.
    { pose proof NoDup_positions as Hnd. rewrite Hpos in Hnd. apply NoDup_app in Hnd as (_ & Hnd & _). set_solver. }
    rewrite Hbody by done. eapply returns_mono; [by apply set_at|]. intros b2 [Hd2 Hat2]. split; [done|].
    intros i' j' Hin. rewrite Hat2, !Hat by done. rewrite (decide_False (P := (i, j) ∈ pre)) by done.
    destruct (decide ((i', j') = (i, j))) as [[= -> ->]|Hne].
    + by rewrite decide_True by set_solver.
    + apply decide_ext. set_solver.
  - f_equal. apply board_ext; [done|apply board_of_dims|]. intros i j Hij.
    rewrite Hat, board_of_at, decide_True; [done|by apply elem_of_positions|done|done].
Qed.

(** ** The operations on boards *)
Lemma wf_dims b : wf b → dims b.
Proof. by intros [? _]. Qed.

Lemma get_cell_at b i j : dims b → get_cell b i j = Ret (if decide (inside i j) then at_ b i j else DEAD).
Proof.
  intros Hb. unfold get_cell. destruct (decide (inside i j)) as [Hij|Hij].
  - rewrite decide_False by (unfold inside in Hij; lia). by apply cell_at.
  - rewrite decide_True; [done|]. unfold inside in Hij. lia.
Qed.

Lemma foldM_count {A} (get : A → outcome Z) (P : A → Prop) `{!∀ x, Decision (P x)} l count :
  (∀ x, ∃ c, get x = Ret c ∧ (c = ALIVE ↔ P x)) →
  foldM (λ count x, c ← get x; Ret (if decide (c = ALIVE) then count + 1 else count)) count l
  = Ret (count + Z.of_nat (length (filter P l))).
Proof.
  intros Hget. revert count. induction l as [|x l IH]; intros count; [cbn; f_equal; lia|].
  destruct (Hget x) as (c & Hc & HP). rewrite filter_cons. cbn [foldM]. rewrite Hc. cbn [mbind outcome_bind].
  rewrite IH. f_equal. repeat case_decide; cbn [length]; try tauto; lia.
Qed.

Lemma num_neighbors_neighbours b i j : dims b → num_neighbors b i j = Ret (Z.of_nat (neighbours b i j)).
Proof.
  intros Hb. unfold num_neighbors.
  rewrite (foldM_count (λ d, get_cell b (i + d.1) (j + d.2)) (λ d, alive b (i + d.1) (j + d.2))).
  - f_equal. rewrite Z.add_0_l. f_equal. unfold neighbours.
    rewrite <-(length_fmap (λ d, (i + d.1, j + d.2))). apply Permutation_length, NoDup_Permutation.
    + apply NoDup_fmap_2; [intros [] [] [= ? ?]; f_equal; lia|]. apply NoDup_filter.
      apply (bool_decide_unpack _). vm_compute. done.
    + apply NoDup_filter, NoDup_positions.
    + intros [i' j']. rewrite list_elem_of_fmap, list_elem_of_filter. cbn [fst snd]. rewrite elem_of_positions. split.
      * intros ([di dj] & [= -> ->] & [Ha Hd]%list_elem_of_filter). cbn [fst snd] in *. split; [|by destruct Ha].
        split; [done|]. unfold offsets in Hd. repeat setoid_rewrite elem_of_cons in Hd.
        destruct_or! Hd; simplify_eq; [..|by apply elem_of_nil in Hd];
          (split; [intros [= ? ?]; lia|lia]).
      * intros [(Ha & Hne & Hi & Hj) _]. exists (i' - i, j' - j). cbn [fst snd]. split; [f_equal; lia|].
        apply list_elem_of_filter. cbn [fst snd]. split; [by rewrite !Zplus_minus|].
        assert (i' - i = -1 ∨ i' - i = 0 ∨ i' - i = 1) as Hdi by lia.
        assert (j' - j = -1 ∨ j' - j = 0 ∨ j' - j = 1) as Hdj by lia.
        destruct Hdi as [Hdi|[Hdi|Hdi]], Hdj as [Hdj|[Hdj|Hdj]]; rewrite Hdi, Hdj;
          try (unfold offsets; set_solver). destruct Hne. f_equal; lia.
  - intros d. rewrite get_cell_at by done. eexists. split; [done|]. unfold alive.
    case_decide; [tauto|]. split; [discriminate|tauto].
Qed.

Lemma cell_next_lives b i j : wf b → inside i j →
  cell_next b i j = Ret (if decide (lives b i j) then ALIVE else DEAD).
Proof.
  intros [Hb Hcells] Hij. unfold cell_next. rewrite num_neighbors_neighbours by done. cbn [mbind outcome_bind].
  rewrite get_cell_at, (decide_True (P := inside i j)) by done. cbn [mbind outcome_bind].
  assert (alive b i j ↔ at_ b i j = ALIVE) as Ha by (unfold alive; tauto).
  destruct (Hcells i j Hij) as [E|E].
  - rewrite decide_True by done. f_equal. apply decide_ext. unfold lives. rewrite decide_True by tauto. lia.
  - assert (at_ b i j ≠ ALIVE) by (rewrite E; done).
    rewrite decide_False, decide_True by done. f_equal. apply decide_ext. unfold lives.
    rewrite decide_False by tauto. lia.
Qed.

Lemma next_board_of b : next b = board_of (λ i j, if decide (lives b i j) then ALIVE else DEAD).
Proof. done. Qed.

Lemma board_of_wf f : (∀ i j, inside i j → f i j = ALIVE ∨ f i j = DEAD) → wf (board_of f).
Proof. intros Hf. split; [apply board_of_dims|]. intros i j Hij. rewrite board_of_at by done. auto. Qed.

Lemma next_wf b : wf (next b).
Proof. rewrite next_board_of. apply board_of_wf. intros i j _. case_decide; auto. Qed.

Lemma calc_next b b' : wf b → dims b' → calc_next_generation b b' = Ret (next b).
Proof.
  intros Hb Hb'. unfold calc_next_generation.
  rewrite (update_cells _ (λ i j _, if decide (lives b i j) then ALIVE else DEAD)); [done| |done].
  intros b1 i j _ Hij. by rewrite cell_next_lives.
Qed.

(** A search over the cells. *)
Lemma for_cells_return_spec (test : Z → Z → outcome (option Z)) (P : Z → Z → Prop) `{HP : ∀ i j, Decision (P i j)} :
  (∀ i j, inside i j → test i j = Ret (if decide (P i j) then Some 1 else None)) →
  returns (for_cells_return test) (λ r,
    default 0 r = 1 ∧ (∃ i j, inside i j ∧ P i j) ∨ default 0 r = 0 ∧ ∀ i j, inside i j → ¬ P i j).
Proof.
  intros Htest. unfold for_cells_return. rewrite for_cells_positions.
  eapply returns_mono.
  - apply (foldM_inv _ (λ pre r,
      r = Some 1 ∧ (∃ i j, inside i j ∧ P i j) ∨ r = None ∧ ∀ i j, (i, j) ∈ pre → ¬ P i j)).
    + right. split; [done|]. set_solver.
    + intros pre [i j] post r Hpos Hr. cbn [fst snd].
      assert (inside i j) as Hij by (apply elem_of_positions; rewrite Hpos; set_solver).
      destruct Hr as [[-> ?]|[-> Hnone]]; [apply returns_Ret; auto|].
      rewrite Htest by done. apply returns_Ret. case_decide; [left; eauto|]. right. split; [done|].
      intros i' j' [?|[= -> ->]%list_elem_of_singleton]%elem_of_app; auto.
  - intros r [[-> ?]|[-> Hnone]]; [by left|]. right. split; [done|]. intros i j Hij. by apply Hnone, elem_of_positions.
Qed.

Lemma compare_boards_spec a b : dims a → dims b →
  compare_boards a b = Ret (if decide (a = b) then 0 else 1).
Proof.
  intros Ha Hb. unfold compare_boards.
  destruct (for_cells_return_spec (λ i j, x ← cell a i j; y ← cell b i j; Ret (if decide (x ≠ y) then Some 1 else None))
    (λ i j, at_ a i j ≠ at_ b i j)) as (r & -> & Hr).
  { intros i j Hij. by rewrite !cell_at. }
  cbn [mbind outcome_bind]. f_equal. destruct Hr as [(-> & i & j & Hij & Hne)|[-> Heq]].
  - rewrite decide_False; [done|]. by intros ->.
  - rewrite decide_True; [done|]. apply board_ext; [done..|]. intros i j Hij. apply dec_stable. auto.
Qed.

Lemma check_board_spec b : dims b →
  check_board b = Ret (if decide (Exists (λ p, alive b p.1 p.2) positions) then 1 else 0).
Proof.
  intros Hb. unfold check_board.
  destruct (for_cells_return_spec (λ i j, x ← cell b i j; Ret (if decide (x = ALIVE) then Some 1 else None))
    (λ i j, at_ b i j = ALIVE) (HP := λ i j, decide (at_ b i j = ALIVE))) as (r & -> & Hr).
  { intros i j Hij. by rewrite cell_at. }
  cbn [mbind outcome_bind]. f_equal. destruct Hr as [(-> & i & j & Hij & Ha)|[-> Hnone]].
  - rewrite decide_True; [done|]. apply Exists_exists. exists (i, j). by rewrite elem_of_positions.
  - rewrite decide_False; [done|]. intros ([i j] & _ & Hij & Ha)%Exists_exists. by eapply Hnone.
Qed.

(** Rows of characters as [print_board] writes them. *)
Definition printed (b : board) : list Z :=
  seqZ 0 NUM_ROWS ≫= λ i,
    (seqZ 0 NUM_COLS ≫= λ j, [if decide (alive b i j) then OUT_ALIVE else OUT_DEAD; 32]) ++ [10].

Lemma for_range_append (body : list Z → Z → outcome (list Z)) (g : Z → list Z) n out :
  (∀ out i, 0 ≤ i < n → body out i = Ret (out ++ g i)) →
  for_range 0 n body out = Ret (out ++ (seqZ 0 n ≫= g)).
Proof.
  intros Hbody. unfold for_range. rewrite Z.sub_0_r.
  assert (Forall (λ i, 0 ≤ i < n) (seqZ 0 n)) as Hl by (apply Forall_forall; intros i Hi%elem_of_seqZ; lia).
  revert out. induction Hl as [|i l Hi _ IH]; intros out; cbn; [by rewrite app_nil_r|].
  rewrite Hbody by done. cbn. by rewrite IH, app_assoc.
Qed.

Lemma print_board_printed b : dims b → print_board b = Ret (printed b).
Proof.
  intros Hb. unfold print_board. rewrite (for_range_append _ (λ i,
    (seqZ 0 NUM_COLS ≫= λ j, [if decide (alive b i j) then OUT_ALIVE else OUT_DEAD; 32]) ++ [10])); [done|].
  intros out i Hi. rewrite (for_range_append _ (λ j, [if decide (alive b i j) then OUT_ALIVE else OUT_DEAD; 32])).
  - cbn [mbind outcome_bind]. by rewrite app_assoc.
  - intros out' j Hj. assert (inside i j) as Hij by done. rewrite cell_at by done. cbn [mbind outcome_bind].
    do 4 f_equal. apply decide_ext. unfold alive. tauto.
Qed.

Lemma clear_board_spec b c : dims b → clear_board b c = Ret (board_of (λ _ _, c)).
Proof. intros Hb. by apply (update_cells _ (λ _ _ _, c)). Qed.

Lemma allocate_board_spec junk : allocate_board junk = Ret (board_of (λ _ _, DEAD)).
Proof.
  apply clear_board_spec. split; [apply length_replicate|]. apply Forall_replicate, length_replicate.
Qed.

(** [copy_board], [invert_board] and [randomize_board] on every cell. *)
Lemma copy_board_spec src dest : dims src → dims dest → copy_board src dest = Ret src.
Proof.
  intros Hs Hd. unfold copy_board. rewrite (update_cells _ (λ i j _, at_ src i j)); [| |done].
  - f_equal. apply board_ext; [apply board_of_dims|done|]. intros i j Hij. by rewrite board_of_at.
  - intros b i j _ Hij. by rewrite cell_at.
Qed.

Lemma randomize_board_spec rand b : dims b →
  randomize_board rand b = Ret (board_of (λ i j, if decide (Z.rem (rand i j) 2 = 0) then ALIVE else DEAD)).
Proof. intros Hb. by apply (update_cells _ (λ i j _, if decide (Z.rem (rand i j) 2 = 0) then ALIVE else DEAD)). Qed.

Lemma invert_board_spec b : dims b →
  invert_board b = Ret (board_of (λ i j, if decide (alive b i j) then DEAD else ALIVE)).
Proof.
  intros Hb. unfold invert_board.
  rewrite (update_cells _ (λ _ _ x, if decide (x = ALIVE) then DEAD else ALIVE)); [| |done].
  - f_equal. apply board_ext; [apply board_of_dims..|]. intros i j Hij. rewrite !board_of_at by done.
    apply decide_ext. unfold alive. tauto.
  - intros b' i j Hb' Hij. by rewrite cell_at.
Qed.

(** ** The generations *)
Definition generation (b : board) (i : Z) : board := Nat.iter (Z.to_nat i) next b.

Lemma generation_0 b : generation b 0 = b.
Proof. done. Qed.

Lemma generation_succ b i : 0 < i → generation b i = next (generation b (i - 1)).
Proof. intros Hi. unfold generation. by replace (Z.to_nat i) with (S (Z.to_nat (i - 1))) by lia. Qed.

Lemma generation_wf b i : wf b → wf (generation b i).
Proof. intros Hb. unfold generation. destruct (Z.to_nat i); [done|apply next_wf]. Qed.

Section play_lemmas.
Context (ERR KEY_RESIZE REFRESH_DELAY_MS : Z) (getch : Z → Z) (b : board).
Context (Hdelay : INT_MIN ≤ 1000 * REFRESH_DELAY_MS ≤ INT_MAX).

(** Why the loop is left in iteration [i]. *)
Definition stable (i : Z) : Prop := generation b (i - 1) = generation b i.
Definition extinct (i : Z) : Prop := ¬ Exists (λ p, alive (generation b i) p.1 p.2) positions.
Definition pressed (i : Z) : Prop := getch i ≠ ERR ∧ getch i ≠ KEY_RESIZE.
Definition stops (i : Z) : Prop := stable i ∨ extinct i ∨ pressed i.

#[export] Instance stable_dec i : Decision (stable i).
Proof. unfold stable. apply _. Defined.
#[export] Instance extinct_dec i : Decision (extinct i).
Proof. unfold extinct. apply _. Defined.

Definition frame (i : Z) : list shown := [Generation i; Cells (printed (generation b i))].

(** What follows the last board when the loop is left at [i], after at most
    [limit] iterations. *)
Definition verdict (limit i : Z) : list shown :=
  if decide (limit < i) then [] else if decide (stable i) then [Identical]
  else if decide (extinct i) then [AllDead] else [].

(** The key [in] holds then. *)
Definition last_key (limit i : Z) : Z :=
  if decide (limit < i ∨ stable i ∨ extinct i) then getch (i - 1) else getch i.

(** One iteration. *)
Lemma play_loop_step n i nextGen key screen : wf b → dims nextGen → 1 ≤ i →
  play_loop ERR KEY_RESIZE REFRESH_DELAY_MS getch (S n) i (generation b (i - 1)) nextGen key screen =
  let screen := screen ++ frame i in
  if decide (stable i) then Ret (mkResults i key, screen ++ [Identical])
  else if decide (extinct i) then Ret (mkResults i key, screen ++ [AllDead])
  else if decide (pressed i) then Ret (mkResults i (getch i), screen)
  else i' ← int_add i 1; play_loop ERR KEY_RESIZE REFRESH_DELAY_MS getch n i' (generation b i) (generation b (i - 1)) (getch i) screen.
Proof.
  intros Hwf Hd Hi. cbn [play_loop].
  pose proof (generation_wf b i Hwf) as Hwi. pose proof (generation_wf b (i - 1) Hwf) as Hwp.
  rewrite calc_next by done. cbn [mbind outcome_bind]. rewrite <-(generation_succ b i) by lia.
  rewrite print_board_printed by apply Hwi. cbn [mbind outcome_bind].
  rewrite compare_boards_spec by (apply Hwi || apply Hwp). cbn [mbind outcome_bind].
  change (decide (generation b (i - 1) = generation b i)) with (decide (stable i)).
  destruct (decide (stable i)); [by rewrite (decide_True (P := 0 = 0))|].
  rewrite (decide_False (P := 1 = 0)) by done. rewrite check_board_spec by apply Hwi. cbn [mbind outcome_bind].
  destruct (decide (extinct i)) as [Hex|Hex].
  - rewrite (decide_False (P := Exists _ _)) by done. by rewrite (decide_True (P := 0 = 0)).
  - rewrite (decide_True (P := Exists _ _)) by (apply dec_stable, Hex). rewrite (decide_False (P := 1 = 0)) by done.
    by rewrite int_mul_Ret.
Qed.

Lemma play_loop_evolves n i nextGen screen :
  wf b → dims nextGen → 1 ≤ i → i + Z.of_nat n ≤ INT_MAX →
  let limit := i + Z.of_nat n - 1 in
  ∃ last, i ≤ last ≤ limit + 1 ∧
    (∀ k, i ≤ k < last → ¬ stops k) ∧ (last ≤ limit → stops last) ∧
    play_loop ERR KEY_RESIZE REFRESH_DELAY_MS getch n i (generation b (i - 1)) nextGen (getch (i - 1)) screen
    = Ret (mkResults last (last_key limit last),
           screen ++ (seqZ i (Z.min last limit - i + 1) ≫= frame) ++ verdict limit last).
Proof.
  intros Hwf. revert i nextGen screen. induction n as [|n IH]; intros i nextGen screen Hd Hi Hmax limit.
  { exists i. unfold last_key, verdict, limit. split; [lia|]. split; [lia|]. split; [lia|].
    rewrite !decide_True by lia. rewrite (seqZ_nil i) by lia. cbn. by rewrite app_nil_r. }
  rewrite play_loop_step by done. cbn zeta.
  assert (i ≤ limit) as Hil by (unfold limit; lia).
  destruct (decide (stops i)) as [Hs|Hs].
  - exists i. split; [lia|]. split; [lia|]. split; [done|].
    replace (Z.min i limit - i + 1) with 1 by lia.
    change (seqZ i 1 ≫= frame) with (frame i ++ []). rewrite app_nil_r, app_assoc.
    unfold verdict, last_key. rewrite (decide_False (P := limit < i)) by lia.
    destruct (decide (stable i)); [by rewrite decide_True by auto|].
    destruct (decide (extinct i)); [by rewrite decide_True by auto|].
    rewrite (decide_True (P := pressed i)) by (unfold stops in Hs; tauto).
    rewrite decide_False by (intros [?|[?|?]]; [lia|done..]). by rewrite app_nil_r.
  - unfold stops in Hs. rewrite !decide_False by tauto. rewrite int_add_Ret by (unfold INT_MIN; lia).
    cbn [mbind outcome_bind].
    destruct (IH (i + 1) (generation b (i - 1)) (screen ++ frame i)) as (last & Hlast & Hnot & Hst & E);
      [apply wf_dims, generation_wf, Hwf|lia|lia|].
    replace (i + 1 - 1) with i in E by lia. replace (i + 1 + Z.of_nat n - 1) with limit in * by (unfold limit; lia).
    exists last. split; [lia|]. split; [|split; [done|]].
    + intros k Hk. destruct (decide (k = i)) as [->|]; [exact Hs|]. apply Hnot. lia.
    + rewrite E. do 2 f_equal. rewrite <-app_assoc. f_equal. rewrite app_assoc. f_equal.
      rewrite (seqZ_cons i) by lia. cbn [mbind list_bind]. do 3 f_equal; lia.
Qed.
End play_lemmas.

(** ** Reading a board *)

(** The lines of a file that holds [rows]. *)
Definition text (rows : board) : list Z := rows ≫= λ r, r ++ [10].

(** Characters that [fgets] and [strlen] pass over. *)
Definition ordinary : list Z → Prop := Forall (λ c, c ≠ 10 ∧ c ≠ 0).

(** The rows read so far are those of the file. *)
Definition filled (pre b : board) : Prop :=
  dims b ∧ ∀ i j, inside i j → i < Z.of_nat (length pre) → at_ b i j = at_ pre i j.

Lemma fgets_line_newline n l rest : ordinary l → (length l < n)%nat →
  fgets_line n (l ++ 10 :: rest) = (l ++ [10], rest, false).
Proof.
  intros Hl. revert n. induction Hl as [|c l [Hc _] _ IH]; intros [|n] Hn; cbn in *; try lia; [done|].
  rewrite decide_False by done. by rewrite IH by lia.
Qed.

Lemma fgets_line_end n l : Forall (.≠ 10) l → (length l < n)%nat → fgets_line n l = (l, [], true).
Proof.
  intros Hl. revert n. induction Hl as [|c l Hc _ IH]; intros [|n] Hn; cbn in *; try lia; [done|].
  rewrite decide_False by done. by rewrite IH by lia.
Qed.

Lemma strlen_ordinary l rest : ordinary l → strlen (l ++ 0 :: rest) = Ret (Z.of_nat (length l)).
Proof.
  induction 1 as [|c l [_ Hc] _ IH]; cbn; [done|]. rewrite decide_False, IH by done. cbn. f_equal. lia.
Qed.

Lemma fgets_newline buf l rest : ordinary l → (length l ≤ 998)%nat → length buf = BUF_LEN →
  ∃ junk, fgets buf (mkStream (l ++ 10 :: rest) false) = (l ++ 10 :: 0 :: junk, mkStream rest false) ∧
    length (l ++ 10 :: 0 :: junk) = BUF_LEN.
Proof.
  intros Hl Hlen Hbuf. unfold fgets. cbn [data feof]. unfold BUF_LEN in *.
  rewrite fgets_line_newline by (done || lia). rewrite decide_False by (by destruct l).
  exists (drop (length (l ++ [10]) + 1) buf). split; [by rewrite <-app_assoc|].
  rewrite !length_app. cbn. rewrite length_drop. lia.
Qed.

Section read.
Context (filename : string).

(** The rest of the program after a [fgets]. *)
Definition next_line (fuel : nat) (row : Z) (buf data : list Z) (b : board) : outcome (Z * board) :=
  let '(buf, h) := fgets buf (mkStream data false) in read_rows filename fuel row buf h b.

Context (Hcols : 0 ≤ NUM_COLS ≤ 998) (Hrows : 0 ≤ NUM_ROWS).

Lemma write_row buf r rest b row : buf = r ++ rest → length r = Z.to_nat NUM_COLS → dims b → 0 ≤ row < NUM_ROWS →
  returns (for_range 0 NUM_COLS (λ b j, c ← vget buf j; set b row j c) b) (λ b', dims b' ∧
    ∀ i j, inside i j → at_ b' i j = if decide (i = row) then vgetd DEAD r j else at_ b i j).
Proof.
  intros -> Hr Hb Hrow. unfold for_range. rewrite Z.sub_0_r. eapply returns_mono.
  - apply (foldM_inv _ (λ pre b', dims b' ∧ ∀ i j, inside i j →
      at_ b' i j = if decide (i = row ∧ j ∈ pre) then vgetd DEAD r j else at_ b i j)).
    + split; [done|]. intros i j _. rewrite decide_False; [done|]. set_solver.
    + intros pre j post b' Hseq [Hb' Hat].
      assert (0 ≤ j < NUM_COLS) as Hj.
      { assert (j ∈ seqZ 0 NUM_COLS) as ?%elem_of_seqZ by (rewrite Hseq; set_solver). lia. }
      assert (vget (r ++ rest) j = Ret (vgetd DEAD r j)) as ->.
      { apply vget_Ret. split; [lia|]. rewrite lookup_app_l by lia. apply vget_Ret, vget_vgetd. lia. }
      cbn [mbind outcome_bind]. eapply returns_mono; [by apply set_at|]. intros b2 [Hb2 Hat2]. split; [done|].
      intros i' j' Hin. rewrite Hat2, Hat by done. destruct (decide ((i', j') = (row, j))) as [[= -> ->]|Hne].
      * rewrite decide_True; [done|]. set_solver.
      * apply decide_ext. rewrite elem_of_app, list_elem_of_singleton. naive_solver.
  - intros b' [Hb' Hat]. split; [done|]. intros i j Hij. rewrite Hat by done.
    apply decide_ext. rewrite elem_of_seqZ. destruct Hij. naive_solver lia.
Qed.

(** A line of the right length. *)
Lemma read_rows_line fuel row buf r rest b :
  ordinary r → length r = Z.to_nat NUM_COLS → length buf = BUF_LEN → dims b → 0 ≤ row < INT_MAX →
  ∃ buf', length buf' = BUF_LEN ∧ (∃ junk, buf' = r ++ junk) ∧
  next_line (S fuel) row buf (r ++ 10 :: rest) b =
    (b ← for_range 0 NUM_COLS (λ b j, c ← vget buf' j; set b row j c) b; next_line fuel (row + 1) buf' rest b).
Proof.
  intros Hr Hlen Hbuf Hb Hrow. unfold next_line.
  destruct (fgets_newline buf r rest Hr) as (junk & -> & Hbuf'); [lia|done|]. cbn [read_rows feof].
  replace NUM_COLS with (Z.of_nat (length r)) by lia. rewrite vget_middle. cbn [mbind outcome_bind].
  rewrite (decide_True (P := 10 = 10)) by done. rewrite vset_middle. cbn [mbind outcome_bind].
  rewrite strlen_ordinary by done. cbn [mbind outcome_bind]. rewrite (decide_False (P := _ < _)) by lia.
  exists (r ++ 0 :: 0 :: junk). split; [by rewrite !length_app in *|]. split; [by eexists|].
  destruct (for_range _ _ _ _); [|done..]. cbn [mbind outcome_bind]. rewrite int_add_Ret by (unfold INT_MIN; lia).
  done.
Qed.

Lemma read_lines rows rest : ∀ fuel pre buf b,
  Forall ordinary rows → Forall (λ r : list Z, length r = Z.to_nat NUM_COLS) rows →
  length buf = BUF_LEN → filled pre b →
  Z.of_nat (length (pre ++ rows)) ≤ NUM_ROWS → Z.of_nat (length (pre ++ rows)) ≤ INT_MAX →
  ∃ buf' b', length buf' = BUF_LEN ∧ filled (pre ++ rows) b' ∧
    next_line (length rows + fuel) (Z.of_nat (length pre)) buf (text rows ++ rest) b
    = next_line fuel (Z.of_nat (length (pre ++ rows))) buf' rest b'.
Proof.
  induction rows as [|r rows IH]; intros fuel pre buf b Hord Hlen Hbuf Hfill Hnum Hmax.
  { exists buf, b. by rewrite app_nil_r. }
  apply Forall_cons in Hord as [Hr Hord]. apply Forall_cons in Hlen as [Hrl Hlen].
  rewrite length_app in Hnum, Hmax. cbn [length] in Hnum, Hmax. destruct Hfill as [Hb Hat].
  replace (text (r :: rows) ++ rest) with (r ++ 10 :: (text rows ++ rest))
    by (unfold text; cbn; by rewrite <-!app_assoc).
  destruct (read_rows_line (length rows + fuel) (Z.of_nat (length pre)) buf r (text rows ++ rest) b)
    as (buf1 & Hbuf1 & [junk ->] & E); [done..|lia|].
  cbn [length plus]. rewrite E. clear E.
  destruct (write_row (r ++ junk) r junk b (Z.of_nat (length pre))) as (b1 & -> & Hb1 & Hat1); [done..|lia|].
  cbn [mbind outcome_bind].
  destruct (IH fuel (pre ++ [r]) (r ++ junk) b1) as (buf2 & b2 & Hbuf2 & Hfill2 & E); [done..| | | |].
  - split; [done|]. intros i j Hij Hi. rewrite Hat1 by done. rewrite length_app in Hi. cbn in Hi.
    destruct (decide (i = Z.of_nat (length pre))) as [->|Hne].
    + unfold at_. by rewrite (vgetd_Ret [] (pre ++ [r]) _ _ (vget_middle pre r [])).
    + destruct Hij as [??]. rewrite Hat by (unfold inside; lia). unfold at_. f_equal.
      symmetry. unfold vgetd, vget. case_decide; [|done]. by rewrite lookup_app_l by lia.
  - rewrite !length_app in *. cbn in *. lia.
  - rewrite !length_app in *. cbn in *. lia.
  - exists buf2, b2. rewrite <-!app_assoc in *. cbn [app] in *. split; [done|]. split; [done|]. rewrite <-E.
    f_equal. rewrite length_app. cbn. lia.
Qed.

(** What [read_file] does with what follows those lines. *)
Definition tail_ok (rest : list Z) : Prop := Forall (.≠ 10) rest ∧ (length rest ≤ 998)%nat.

Lemma next_line_end fuel row buf rest b : tail_ok rest → next_line (S fuel) row buf rest b = Ret (row, b).
Proof.
  intros [Hr Hl]. unfold next_line, fgets. cbn [data feof]. unfold BUF_LEN.
  rewrite fgets_line_end by (done || lia). done.
Qed.

Lemma next_line_long fuel row buf long rest b :
  ordinary long → NUM_COLS < Z.of_nat (length long) ≤ 998 → length buf = BUF_LEN →
  next_line (S fuel) row buf (long ++ 10 :: rest) b = exit (too_many_columns filename (Z.of_nat (length long) + 1)).
Proof.
  intros Hl Hlen Hbuf. unfold next_line.
  destruct (fgets_newline buf long rest Hl) as (junk & -> & _); [lia|done|]. cbn [read_rows feof].
  destruct (vget_is_Ret long NUM_COLS) as [c Hc]; [lia|].
  apply vget_Ret in Hc as [_ Hc].
  assert (vget (long ++ 10 :: 0 :: junk) NUM_COLS = Ret c) as ->.
  { apply vget_Ret. split; [lia|]. rewrite lookup_app_l; [done|]. by eapply lookup_lt_Some. }
  cbn [mbind outcome_bind]. assert (c ≠ 10) by (by eapply Forall_lookup_1 in Hl as [? _]).
  rewrite decide_False by done. cbn [mbind outcome_bind].
  replace (long ++ 10 :: 0 :: junk) with ((long ++ [10]) ++ 0 :: junk) by (by rewrite <-app_assoc).
  assert (∀ l l', ordinary l → strlen ((l ++ [10]) ++ 0 :: l') = Ret (Z.of_nat (length l) + 1)) as Hstr.
  { intros l l'. induction 1 as [|x l [_ Hx] _ IH]; [done|]. cbn [app strlen]. rewrite decide_False, IH by done.
    cbn. f_equal. lia. }
  rewrite Hstr by done. cbn [mbind outcome_bind]. by rewrite decide_True by lia.
Qed.

Lemma next_line_overflow fuel row buf r rest b :
  ordinary r → length r = Z.to_nat NUM_COLS → 0 < NUM_COLS → length buf = BUF_LEN → dims b →
  NUM_ROWS ≤ row < INT_MAX → next_line (S fuel) row buf (r ++ 10 :: rest) b = Undef.
Proof.
  intros Hr Hlen Hpos Hbuf Hb Hrow.
  destruct (read_rows_line fuel row buf r rest b) as (buf' & Hbuf' & _ & ->); [done..|lia|].
  unfold for_range. rewrite seqZ_cons by lia. cbn [foldM].
  destruct (vget_is_Ret buf' 0) as [c ->]; [rewrite Hbuf'; unfold BUF_LEN; lia|]. cbn [mbind outcome_bind]. unfold set.
  rewrite vget_out; [done|]. destruct Hb as [-> _]. lia.
Qed.
End read.

Lemma text_length rows : (length rows ≤ length (text rows))%nat.
Proof. induction rows as [|r rows IH]; [done|]. unfold text in *. cbn. rewrite !length_app. cbn. lia. Qed.

Lemma filled_all rows b : length rows = Z.to_nat NUM_ROWS → Forall (λ r : list Z, length r = Z.to_nat NUM_COLS) rows →
  filled rows b → b = rows.
Proof.
  intros Hlen Hrows [Hb Hat]. apply board_ext; [done|done|]. intros i j Hij. apply Hat; [done|]. destruct Hij. lia.
Qed.

(** [read_file] up to the lines of the right length. *)
Lemma read_file_next filename rows rest buf b :
  0 ≤ NUM_COLS ≤ 998 → 0 ≤ NUM_ROWS ≤ INT_MAX → length buf = BUF_LEN → dims b →
  Forall ordinary rows → Forall (λ r : list Z, length r = Z.to_nat NUM_COLS) rows →
  Z.of_nat (length rows) ≤ NUM_ROWS →
  ∃ fuel buf' b', length buf' = BUF_LEN ∧ filled rows b' ∧
    read_file filename (Some (text rows ++ rest)) buf b =
    ('(row, b) ← next_line filename (S (S fuel)) (Z.of_nat (length rows)) buf' rest b';
     if decide (row ≠ NUM_ROWS) then exit (wrong_rows filename row) else Ret b).
Proof.
  intros Hcols Hrows Hbuf Hb Hord Hlen Hnum.
  set (fuel := (length (text rows ++ rest) - length rows)%nat).
  destruct (read_lines filename Hcols (proj1 Hrows) rows rest (S (S fuel)) [] buf b) as (buf' & b' & Hbuf' & Hfill & E);
    [done..|split; [done|intros i j [] ?; cbn in *; lia]|cbn; lia|cbn; lia|]. cbn [app] in *.
  exists fuel, buf', b'. split; [done|]. split; [done|]. rewrite <-E. unfold read_file, next_line.
  destruct (fgets _ _) as [buf1 h].
  replace (length rows + S (S fuel))%nat with (S (S (length (text rows ++ rest)))); [done|].
  unfold fuel. rewrite length_app. pose proof (text_length rows). lia.
Qed.

Lemma read_file_tail filename rows rest buf b :
  0 ≤ NUM_COLS ≤ 998 → 0 ≤ NUM_ROWS ≤ INT_MAX → length buf = BUF_LEN → dims b →
  Forall ordinary rows → Forall (λ r : list Z, length r = Z.to_nat NUM_COLS) rows →
  Z.of_nat (length rows) ≤ NUM_ROWS → tail_ok rest →
  read_file filename (Some (text rows ++ rest)) buf b =
    if decide (Z.of_nat (length rows) = NUM_ROWS) then Ret rows else exit (wrong_rows filename (Z.of_nat (length rows))).
Proof.
  intros. destruct (read_file_next filename rows rest buf b) as (fuel & buf' & b' & Hbuf' & Hfill & ->); [done..|].
  rewrite next_line_end by done. cbn [mbind outcome_bind]. destruct (decide (_ = NUM_ROWS)) as [E|E].
  - rewrite decide_False by tauto. f_equal. apply filled_all; [lia|done|done].
  - by rewrite decide_True by done.
Qed.

(** ** Main theorems *)

(** C23. [calc_next_generation] is Conway's rule: for a board of the right size
    whose cells are alive or dead it fills the other board, whatever that
    held, with the board in which exactly the cells live that have three live
    neighbours, or two and were alive, where the neighbours are all other
    cells of the board at most one row and one column away; no access is out
    of range, at the edges neither. *)
Theorem life_step b nextGen : wf b → dims nextGen →
  calc_next_generation b nextGen = Ret (next b) ∧ wf (next b) ∧
  ∀ i j, inside i j → (alive (next b) i j ↔
    neighbours b i j = 3%nat ∨ (alive b i j ∧ neighbours b i j = 2%nat)).
Proof.
  intros Hb Hn. split; [by apply calc_next|]. split; [apply next_wf|]. intros i j Hij.
  unfold alive at 1. rewrite next_board_of, board_of_at by done. unfold lives.
  repeat case_decide; unfold ALIVE, DEAD; naive_solver lia.
Qed.

(** C33. [read_file] on a file whose first lines have [NUM_COLS] characters
    each: exactly [NUM_ROWS] of them, and then nothing or a line without a
    newline (which is ignored), give the board of those lines; fewer, or a
    longer line after them, are refused with the message; a line more than the
    board has rows is written out of bounds before the rows are counted. *)
Theorem read_file_lines filename rows rest buf b :
  0 ≤ NUM_COLS ≤ 998 → 0 ≤ NUM_ROWS ≤ INT_MAX → length buf = BUF_LEN → dims b →
  Forall ordinary rows → Forall (λ r : list Z, length r = Z.to_nat NUM_COLS) rows →
  Z.of_nat (length rows) ≤ NUM_ROWS →
  (tail_ok rest → read_file filename (Some (text rows ++ rest)) buf b =
     if decide (Z.of_nat (length rows) = NUM_ROWS) then Ret rows else exit (wrong_rows filename (Z.of_nat (length rows)))) ∧
  (∀ long more, rest = long ++ 10 :: more → ordinary long → NUM_COLS < Z.of_nat (length long) ≤ 998 →
     read_file filename (Some (text rows ++ rest)) buf b = exit (too_many_columns filename (Z.of_nat (length long) + 1))) ∧
  (∀ r more, rest = r ++ 10 :: more → ordinary r → length r = Z.to_nat NUM_COLS → 0 < NUM_COLS →
     Z.of_nat (length rows) = NUM_ROWS → NUM_ROWS < INT_MAX →
     read_file filename (Some (text rows ++ rest)) buf b = Undef).
Proof.
  intros Hcols Hrows Hbuf Hb Hord Hlen Hnum. split; [by intros; apply read_file_tail|].
  destruct (read_file_next filename rows rest buf b) as (fuel & buf' & b' & Hbuf' & Hfill & ->); [done..|]. split.
  - intros long more -> Hl Hll. by rewrite next_line_long.
  - intros r more -> Hr Hrl Hpos E Hmax. rewrite next_line_overflow by (done || lia || apply Hfill). done.
Qed.

(** What the game starts from: the board in the file, or a random one. *)
Definition starts (FILENAME : string) (file : option (list Z)) (rand : Z → Z → Z) (b : board) : Prop :=
  if decide (0 < String.length FILENAME)%nat then
    wf b ∧ 0 ≤ NUM_COLS ≤ 998 ∧ 0 ≤ NUM_ROWS ≤ INT_MAX ∧ ∃ tail, file = Some (text b ++ tail) ∧ tail_ok tail
  else b = board_of (λ i j, if decide (Z.rem (rand i j) 2 = 0) then ALIVE else DEAD).

Lemma wf_ordinary b : wf b → Forall ordinary b.
Proof.
  intros [[Hl Hr] Hc]. apply Forall_lookup. intros i row Hi. apply Forall_lookup. intros j c Hj.
  pose proof (lookup_lt_Some _ _ _ Hi). pose proof (lookup_lt_Some _ _ _ Hj).
  eapply Forall_lookup_1 in Hr as Hrow; [|done].
  assert (at_ b (Z.of_nat i) (Z.of_nat j) = c) as E.
  { unfold at_, vgetd, vget. rewrite !decide_True, !Nat2Z.id, Hi by lia. cbn. by rewrite Hj. }
  destruct (Hc (Z.of_nat i) (Z.of_nat j)) as [E'|E']; [split; lia|..]; rewrite E in E'; rewrite E'; split; discriminate.
Qed.

Lemma starts_board FILENAME file buf rand b : length buf = BUF_LEN → starts FILENAME file rand b →
  (if decide (0 < String.length FILENAME)%nat then read_file FILENAME file buf (board_of (λ _ _, DEAD))
   else randomize_board rand (board_of (λ _ _, DEAD))) = Ret b ∧ wf b.
Proof.
  intros Hbuf. unfold starts. case_decide.
  - intros (Hb & Hcols & Hrows & tail & -> & Htail). split; [|done]. destruct (wf_dims b Hb) as [Hl Hr].
    rewrite read_file_tail by (done || apply board_of_dims || (by apply wf_ordinary) || lia).
    by rewrite decide_True by lia.
  - intros ->. split; [apply randomize_board_spec, board_of_dims|]. apply board_of_wf. intros i j _. case_decide; auto.
Qed.

(** C18. A game of life ends, and shows the generations in order: [play]
    returns after at most [MAX_GENERATIONS] iterations (counting one more when
    they all ran); it has then shown the initial board and one board per
    iteration, the k-th of them the k-th iterate of Conway's rule; it stopped
    in the first iteration whose generation equals the one before, or has no
    live cell, or after which a key other than a resize was pressed, and says
    why; it waits for a key exactly when the last [getch] returned none. *)
Theorem play_evolves ERR KEY_RESIZE REFRESH_DELAY_MS getch FILENAME MAX_GENERATIONS junk file buf rand b :
  INT_MIN ≤ 1000 * REFRESH_DELAY_MS ≤ INT_MAX → 0 ≤ MAX_GENERATIONS < INT_MAX → length buf = BUF_LEN →
  starts FILENAME file rand b →
  ∃ last, 1 ≤ last ≤ MAX_GENERATIONS + 1 ∧
    (∀ k, 1 ≤ k < last → ¬ stops ERR KEY_RESIZE getch b k) ∧
    (last ≤ MAX_GENERATIONS → stops ERR KEY_RESIZE getch b last) ∧
    play ERR KEY_RESIZE REFRESH_DELAY_MS getch FILENAME MAX_GENERATIONS junk file buf rand =
    Ret (mkResults last (last_key getch b MAX_GENERATIONS last),
      Initial :: Cells (printed b) :: (seqZ 1 (Z.min last MAX_GENERATIONS) ≫= frame b) ++
      verdict b MAX_GENERATIONS last ++
      (if decide (last_key getch b MAX_GENERATIONS last = ERR) then [WaitForKey] else [])).
Proof.
  intros Hdelay Hmax Hbuf Hstart. destruct (starts_board _ _ _ _ _ Hbuf Hstart) as [E Hb].
  destruct (play_loop_evolves ERR KEY_RESIZE REFRESH_DELAY_MS getch b Hdelay (Z.to_nat MAX_GENERATIONS) 1
    (board_of (λ _ _, DEAD)) [Initial; Cells (printed b)]) as (last & Hlast & Hnot & Hstop & Hloop);
    [done|apply board_of_dims|lia|lia|].
  replace (1 + Z.of_nat (Z.to_nat MAX_GENERATIONS) - 1) with MAX_GENERATIONS in * by lia.
  replace (Z.min last MAX_GENERATIONS - 1 + 1) with (Z.min last MAX_GENERATIONS) in Hloop by lia.
  change (1 - 1) with 0 in Hloop. rewrite generation_0 in Hloop.
  exists last. split; [done|]. split; [done|]. split; [done|]. unfold play.
  rewrite !allocate_board_spec. cbn [mbind outcome_bind]. rewrite E. cbn [mbind outcome_bind].
  rewrite print_board_printed by apply Hb. cbn [mbind outcome_bind]. rewrite Hloop. cbn [mbind outcome_bind].
  cbn [key_pressed app].
  destruct (decide (last_key getch b MAX_GENERATIONS last = ERR)); [by rewrite <-app_assoc|by rewrite app_nil_r].
Qed.
End life.

(** ** The options and [main] *)
Record globals := mkGlobals {
  NUM_ROWS : Z;
  NUM_COLS : Z;
  MAX_GENERATIONS : Z;
  REFRESH_DELAY_MS : Z;
  FILENAME : string
}.

Definition initial_globals : globals := mkGlobals 15 15 10000 125 "".

(** [strcpy] into the 4096 characters of [FILENAME]. *)
Definition copy_filename (s : string) (g : globals) : outcome globals :=
  if decide (4096 ≤ String.length s)%nat then Undef
  else Ret (mkGlobals (NUM_ROWS g) (NUM_COLS g) (MAX_GENERATIONS g) (REFRESH_DELAY_MS g) s).

(** One option, with the text printed so far. *)
Definition process_option (s : globals * string) (o : opt) : outcome (globals * string) :=
  let '(mkGlobals r c g d f, out) := s in
  match o with
  | Opt k optarg =>
      if decide (k = "c"%char) then c ← atoi optarg; Ret (mkGlobals r c g d f, out)
      else if decide (k = "r"%char) then r ← atoi optarg; Ret (mkGlobals r c g d f, out)
      else if decide (k = "g"%char) then g ← atoi optarg; Ret (mkGlobals r c g d f, out)
      else if decide (k = "f"%char) then g ← copy_filename optarg (mkGlobals r c g d f); Ret (g, out)
      else if decide (k = "d"%char) then d ← atoi optarg; Ret (mkGlobals r c g d f, out)
      else Ret s
  | Unknown => Ret (mkGlobals r c g d f, (out +:+ "unknown option: ?" +:+ endl)%string)
  end.

Definition optstring : string := "c:r:g:f:d:".

Definition process_cli (args : list string) : outcome (globals * string) :=
  g ← copy_filename "" initial_globals;
  foldM process_option (g, ""%string) (getopt optstring args).

(** What is printed outside of curses mode, and what [play] shows. *)
Definition main (args : list string) (ERR KEY_RESIZE : Z) (getch : Z → Z) (junk : Z)
    (files : string → option (list Z)) (buf : list Z) (rand : Z → Z → Z) : outcome (string * list shown) :=
  '(g, out) ← process_cli args;
  '(result, screen) ← play (NUM_ROWS g) (NUM_COLS g) ERR KEY_RESIZE (REFRESH_DELAY_MS g) getch
    (FILENAME g) (MAX_GENERATIONS g) junk (files (FILENAME g)) buf rand;
  Ret ("Welcome to the Game of Life" +:+ endl +:+ out +:+ "Wow, we experienced " +:+ pretty (generations result)
    +:+ " generations together! This is a special memory that I'll remember." +:+ endl, screen)%string.

(** The settings that can be asked for, how they are written and what they
    mean. *)
Inductive setting := Cols (n : Z) | Rows (n : Z) | Generations (n : Z) | Delay (n : Z) | File (f : string).

Definition setting_option (s : setting) : Ascii.ascii * string :=
  match s with
  | Cols n => ("c"%char, pretty n)
  | Rows n => ("r"%char, pretty n)
  | Generations n => ("g"%char, pretty n)
  | Delay n => ("d"%char, pretty n)
  | File f => ("f"%char, f)
  end.

Definition setting_ok (s : setting) : Prop :=
  match s with
  | Cols n | Rows n | Generations n | Delay n => INT_MIN ≤ n ≤ INT_MAX
  | File f => (String.length f < 4096)%nat
  end.

Definition apply_setting (g : globals) (s : setting) : globals :=
  match s with
  | Cols n => mkGlobals (NUM_ROWS g) n (MAX_GENERATIONS g) (REFRESH_DELAY_MS g) (FILENAME g)
  | Rows n => mkGlobals n (NUM_COLS g) (MAX_GENERATIONS g) (REFRESH_DELAY_MS g) (FILENAME g)
  | Generations n => mkGlobals (NUM_ROWS g) (NUM_COLS g) n (REFRESH_DELAY_MS g) (FILENAME g)
  | Delay n => mkGlobals (NUM_ROWS g) (NUM_COLS g) (MAX_GENERATIONS g) n (FILENAME g)
  | File f => mkGlobals (NUM_ROWS g) (NUM_COLS g) (MAX_GENERATIONS g) (REFRESH_DELAY_MS g) f
  end.

Lemma process_setting g out s : setting_ok s →
  process_option (g, out) (Opt (setting_option s).1 (setting_option s).2) = Ret (apply_setting g s, out).
Proof.
  destruct g, s; intros Hs; [cbn -[atoi pretty]; by rewrite atoi_pretty..|].
  cbn -[copy_filename]. unfold copy_filename, setting_ok in *. by rewrite (decide_False (P := (4096 ≤ _)%nat)) by lia.
Qed.

(** The settings are read back, the last of each kind counting. *)
Theorem process_cli_settings l : Forall setting_ok l →
  process_cli (arguments (setting_option <$> l)) = Ret (foldl apply_setting initial_globals l, ""%string).
Proof.
  intros Hl. unfold process_cli. change (copy_filename "" initial_globals) with (Ret initial_globals).
  cbn [mbind outcome_bind].
  rewrite getopt_arguments by (apply Forall_fmap, Forall_forall; intros [] _; done).
  generalize initial_globals.
  induction Hl as [|s l Hs _ IH]; intros g; [done|]. cbn [fmap list_fmap foldM]. rewrite process_setting by done.
  apply IH.
Qed.

(** An option that is not known is reported as a question mark. *)
Example unknown_option : process_cli ["-x"] = Ret (initial_globals, ("unknown option: ?" +:+ endl)%string).
Proof. reflexivity. Qed.

(** [set_cell] lets the column after the last one through. *)
Example set_cell_past_end : set_cell 2 2 [[DEAD; DEAD]; [DEAD; DEAD]] ALIVE 0 2 = Undef.
Proof. reflexivity. Qed.

(** ** Witnesses *)
Definition blinker : board :=
  [[46; 46; 46]; [88; 88; 88]; [46; 46; 46]].

Lemma blinker_wf : wf 3 3 blinker.
Proof.
  split; [by repeat constructor|]. intros i j [Hi Hj].
  assert (i = 0 ∨ i = 1 ∨ i = 2) as Hi' by lia. assert (j = 0 ∨ j = 1 ∨ j = 2) as Hj' by lia.
  destruct Hi' as [->|[->| ->]], Hj' as [->|[->| ->]]; (by left) || by right.
Qed.

(** The blinker turns. *)
Lemma life_step_witness : calc_next_generation 3 3 blinker blinker = Ret [[46; 88; 46]; [46; 88; 46]; [46; 88; 46]].
Proof. exact (proj1 (life_step 3 3 blinker blinker blinker_wf (proj1 blinker_wf))). Defined.

(** The file of the blinker, with a line that has no newline. *)
Lemma read_file_lines_witness :
  read_file 3 3 "blinker" (Some (text blinker ++ [88; 88])) (replicate BUF_LEN 0) blinker = Ret blinker.
Proof.
  refine (proj1 (read_file_lines 3 3 "blinker" blinker [88; 88] (replicate BUF_LEN 0) blinker _ _ _ _ _ _ _) _).
  - done.
  - done.
  - by rewrite length_replicate.
  - apply blinker_wf.
  - repeat constructor; discriminate.
  - by repeat constructor.
  - done.
  - split; [repeat constructor; discriminate|cbn; lia].
Defined.

(** The blinker never stops: three generations, a key after none of them, and
    at the end a wait. *)
Lemma play_evolves_witness :
  ∃ last, 1 ≤ last ≤ 3 + 1 ∧ (∀ k, 1 ≤ k < last → ¬ stops 3 3 (-1) 410 (λ _, -1) blinker k) ∧
    (last ≤ 3 → stops 3 3 (-1) 410 (λ _, -1) blinker last) ∧
    play 3 3 (-1) 410 125 (λ _, -1) "blinker" 3 7 (Some (text blinker ++ [])) (replicate BUF_LEN 0) (λ _ _, 0) =
    Ret (mkResults last (last_key 3 3 (λ _, -1) blinker 3 last),
      Initial :: Cells (printed 3 3 blinker) :: (seqZ 1 (Z.min last 3) ≫= frame 3 3 blinker) ++
      verdict 3 3 blinker 3 last ++ (if decide (last_key 3 3 (λ _, -1) blinker 3 last = -1) then [WaitForKey] else [])).
Proof.
  apply (play_evolves 3 3 (-1) 410 125 (λ _, -1) "blinker" 3 7 _ (replicate BUF_LEN 0) (λ _ _, 0) blinker).
  - done.
  - done.
  - by rewrite length_replicate.
  - split; [apply blinker_wf|]. split; [done|]. split; [done|]. exists []. split; [done|]. split; [constructor|cbn; lia].
Defined.

Example blinker_shown :
  (λ '(r, s), (generations r, key_pressed r, length s)) <$>
    match play 3 3 (-1) 410 125 (λ _, -1) "blinker" 3 7 (Some (text blinker)) (replicate BUF_LEN 0) (λ _ _, 0) with
    | Ret x => Some x | _ => None end = Some (4, -1, 9%nat).
Proof. vm_compute. reflexivity. Qed.
