(* ===== verification/LifeHeap.v ===== *)
(** * The memory of the game of life (src/life/life.c)

    life.c once more, with its pointers: a board is an array of pointers to
    rows on the heap, [play] keeps two of them and exchanges the pointers
    after every generation, [read_file] has a buffer of its own. The theorem
    at the end says that this program does what Life.v says of boards that
    are values, and what is left on the heap, for boards of any size, none and
    negative ones included. [malloc] may refuse; the code does not check, and
    the theorem says that nothing but this can make a difference. *)
From Stdlib Require Import Ascii String.
From S2P Require Import Prelude.
From S2P Require Import Text.
From S2P Require Import Word.
From S2P Require Import Life.

(** ** Memory *)
Definition loc : Type := positive.

(** A pointer is null, that of a block, or was never written. *)
Inductive pointer := Null | To (l : loc) | Wild.

(** What [malloc] gave, used as an array of pointers or of characters. *)
Inductive block := Pointers (ps : list pointer) | Chars (cs : list Z).

#[export] Instance pointer_eq_dec : EqDecision pointer.
Proof. solve_decision. Defined.
#[export] Instance block_eq_dec : EqDecision block.
Proof. solve_decision. Defined.

Abbreviation heap := (gmap loc block).

(** [malloc(size)] gives a block that is not in use, or none. *)
Class Malloc := { malloc : heap → Z → option loc }.

Class MallocLaws (M : Malloc) := {
  malloc_unused h n l : malloc h n = Some l → h !! l = None
}.

(** Some request for a block of at least one byte is refused. *)
Definition refused {M : Malloc} : Prop := ∃ h n, 0 < n ∧ malloc h n = None.

(** Code that uses the heap. *)
Definition mem (A : Type) : Type := heap → outcome (A * heap).
#[export] Instance mem_ret : MRet mem := λ A a h, Ret (a, h).
#[export] Instance mem_bind : MBind mem := λ A B k m h, '(a, h) ← m h; k a h.

Definition lift {A} (m : outcome A) : mem A := λ h, a ← m; Ret (a, h).

Definition for_mem {S} (lo hi : Z) (body : S → Z → mem S) (s : S) : mem S :=
  λ h, for_range lo hi (λ sh i, body sh.1 i sh.2) (s, h).

Definition read_block (p : pointer) : mem block := λ h,
  match p with To l => b ← from_option_ub (h !! l); Ret (b, h) | _ => Undef end.
Definition write_block (p : pointer) (b : block) : mem () := λ h,
  match p with To l => Ret ((), <[l := b]> h) | _ => Undef end.

Definition pointers_of (b : block) : outcome (list pointer) := match b with Pointers ps => Ret ps | _ => Undef end.
Definition chars_of (b : block) : outcome (list Z) := match b with Chars cs => Ret cs | _ => Undef end.

(** [p[i]] and [p[i] = x] for the two kinds of arrays *)
Definition load_pointer (p : pointer) (i : Z) : mem pointer :=
  b ← read_block p; lift (ps ← pointers_of b; vget ps i).
Definition load_char (p : pointer) (i : Z) : mem Z :=
  b ← read_block p; lift (cs ← chars_of b; vget cs i).
Definition store_pointer (p : pointer) (i : Z) (x : pointer) : mem () :=
  b ← read_block p; ps ← lift (ps ← pointers_of b; vset ps i x); write_block p (Pointers ps).
Definition store_char (p : pointer) (i x : Z) : mem () :=
  b ← read_block p; cs ← lift (cs ← chars_of b; vset cs i x); write_block p (Chars cs).

(** [free(p)] *)
Definition free (p : pointer) : mem () := λ h,
  match p with
  | Null => Ret ((), h)
  | To l => _ ← from_option_ub (h !! l); Ret ((), delete l h)
  | Wild => Undef
  end.

(** [board[i][j]] and [board[i][j] = x] *)
Definition cell (b : pointer) (i j : Z) : mem Z := row ← load_pointer b i; load_char row j.
Definition set (b : pointer) (i j x : Z) : mem () := row ← load_pointer b i; store_char row j x.

Section life.
Context {M : Malloc} (junk : Z).
Context (NUM_ROWS NUM_COLS : Z).

(** [sizeof(char* )] *)
Definition pointer_size : Z := 8.

Definition new_block (size : Z) (b : block) : mem pointer := λ h,
  match malloc h size with Some l => Ret (To l, <[l := b]> h) | None => Ret (Null, h) end.
Definition malloc_pointers (size : Z) : mem pointer :=
  new_block size (Pointers (replicate (Z.to_nat (size / pointer_size)) Wild)).
Definition malloc_chars (size : Z) : mem pointer := new_block size (Chars (replicate (Z.to_nat size) junk)).

Definition for_cells {S} (body : S → Z → Z → mem S) (s : S) : mem S :=
  for_mem 0 NUM_ROWS (λ s i, for_mem 0 NUM_COLS (λ s j, body s i j) s) s.

(** ** Allocation *)
Definition clear_board (b : pointer) (clearchar : Z) : mem () :=
  for_cells (λ _ i j, set b i j clearchar) ().

Definition allocate_rows (b : pointer) : mem () :=
  for_mem 0 NUM_ROWS (λ _ i, row ← malloc_chars (u64 NUM_COLS); store_pointer b i row) ().

Definition allocate_board : mem pointer :=
  board ← malloc_pointers (u64 (u64 NUM_ROWS * pointer_size));
  _ ← allocate_rows board;
  _ ← clear_board board DEAD;
  mret board.

Definition free_board (b : pointer) : mem () :=
  _ ← for_mem 0 NUM_ROWS (λ _ i, row ← load_pointer b i; free row) ();
  free b.

(** ** Board operations *)
Definition print_board (b : pointer) : mem (list Z) :=
  for_mem 0 NUM_ROWS (λ out i,
    out ← for_mem 0 NUM_COLS (λ out j,
      x ← cell b i j;
      mret (out ++ [if decide (x = ALIVE) then OUT_ALIVE else OUT_DEAD; 32])) out;
    mret (out ++ [10])) [].

Definition for_cells_return (test : Z → Z → mem (option Z)) : mem (option Z) :=
  for_cells (λ r i j, match r with Some _ => mret r | None => test i j end) None.

Definition check_board (b : pointer) : mem Z :=
  r ← for_cells_return (λ i j, x ← cell b i j; mret (if decide (x = ALIVE) then Some 1 else None));
  mret (default 0 r).

Definition compare_boards (a b : pointer) : mem Z :=
  r ← for_cells_return (λ i j, x ← cell a i j; y ← cell b i j; mret (if decide (x ≠ y) then Some 1 else None));
  mret (default 0 r).

Definition randomize_board (rand : Z → Z → Z) (b : pointer) : mem () :=
  for_cells (λ _ i j, set b i j (if decide (Z.rem (rand i j) 2 = 0) then ALIVE else DEAD)) ().

Definition copy_board (src dest : pointer) : mem () :=
  for_cells (λ _ i j, x ← cell src i j; set dest i j x) ().

Definition invert_board (b : pointer) : mem () :=
  for_cells (λ _ i j, x ← cell b i j; set b i j (if decide (x = ALIVE) then DEAD else ALIVE)) ().

Definition set_cell (b : pointer) (setchar row col : Z) : mem () :=
  if decide (row < 0 ∨ NUM_ROWS ≤ row ∨ col < 0 ∨ NUM_COLS < col) then lift (exit "Error: invalid coordinate specified")
  else set b row col setchar.

Definition get_cell (b : pointer) (row col : Z) : mem Z :=
  if decide (row < 0 ∨ NUM_ROWS ≤ row ∨ col < 0 ∨ NUM_COLS ≤ col) then mret DEAD
  else cell b row col.

(** ** Game of life functions *)
Definition num_neighbors (b : pointer) (row col : Z) : mem Z := λ h,
  foldM (λ sh d,
    '(c, h) ← get_cell b (row + d.1) (col + d.2) sh.2;
    Ret (if decide (c = ALIVE) then sh.1 + 1 else sh.1, h)) (0, h) offsets.

Definition cell_next (b : pointer) (row col : Z) : mem Z :=
  n ← num_neighbors b row col;
  cell ← get_cell b row col;
  mret (if decide (cell = ALIVE) then if decide (n = 2 ∨ n = 3) then ALIVE else DEAD
        else if decide (cell = DEAD) then if decide (n = 3) then ALIVE else DEAD
        else OUTSIDE).

Definition calc_next_generation (currentGen nextGen : pointer) : mem () :=
  for_cells (λ _ i j, x ← cell_next currentGen i j; set nextGen i j x) ().

(** ** [read_file] *)
Definition fgets (buf : pointer) (f : stream) : mem stream :=
  b ← read_block buf;
  cs ← lift (chars_of b);
  let '(cs, f) := Life.fgets cs f in
  _ ← write_block buf (Chars cs);
  mret f.

Definition strlen (buf : pointer) : mem Z := b ← read_block buf; lift (cs ← chars_of b; Life.strlen cs).

Section read_file.
Context (filename : string).

Fixpoint read_rows (fuel : nat) (row : Z) (buf : pointer) (f : stream) (board : pointer) : mem Z :=
  match fuel with
  | O => λ _, NoFuel
  | S fuel =>
      if feof f then mret row
      else
        last ← load_char buf NUM_COLS;
        _ ← (if decide (last = 10) then store_char buf NUM_COLS 0 else mret ());
        len ← strlen buf;
        if decide (NUM_COLS < len) then lift (exit (too_many_columns NUM_COLS filename len))
        else
          _ ← for_mem 0 NUM_COLS (λ _ j, c ← load_char buf j; set board row j c) ();
          row ← lift (int_add row 1);
          f ← fgets buf f;
          read_rows fuel row buf f board
  end.

Definition read_file (file : option (list Z)) (board : pointer) : mem () :=
  buf ← malloc_chars (Z.of_nat BUF_LEN);
  match file with
  | None => lift (exit "Error, bad file. Aborting.")
  | Some content =>
      f ← fgets buf (mkStream content false);
      row ← read_rows (S (S (length content))) 0 buf f board;
      if decide (row ≠ NUM_ROWS) then lift (exit (wrong_rows NUM_ROWS filename row)) else mret ()
  end.
End read_file.

(** ** [play] *)
Section play.
Context (ERR KEY_RESIZE REFRESH_DELAY_MS : Z) (getch : Z → Z).

Fixpoint play_loop (n : nat) (i : Z) (currentGen nextGen : pointer) (key : Z) (screen : list shown) :
    mem (results * list shown) :=
  match n with
  | O => mret (mkResults i key, screen)
  | S n =>
      _ ← calc_next_generation currentGen nextGen;
      chars ← print_board nextGen;
      let screen := screen ++ [Generation i; Cells chars] in
      differ ← compare_boards currentGen nextGen;
      if decide (differ = 0) then mret (mkResults i key, screen ++ [Identical])
      else
        alive ← check_board nextGen;
        if decide (alive = 0) then mret (mkResults i key, screen ++ [AllDead])
        else
          _ ← lift (int_mul 1000 REFRESH_DELAY_MS);
          let key := getch i in
          if decide (key ≠ ERR ∧ key ≠ KEY_RESIZE) then mret (mkResults i key, screen)
          else
            i ← lift (int_add i 1);
            play_loop n i nextGen currentGen key screen
  end.

Definition play (FILENAME : string) (MAX_GENERATIONS : Z) (file : option (list Z)) (rand : Z → Z → Z) :
    mem (results * list shown) :=
  board1 ← allocate_board;
  board2 ← allocate_board;
  let currentGen := board1 in
  let nextGen := board2 in
  _ ← (if decide (0 < String.length FILENAME)%nat then read_file FILENAME file currentGen
       else randomize_board rand currentGen);
  chars ← print_board currentGen;
  '(result, screen) ← play_loop (Z.to_nat MAX_GENERATIONS) 1 currentGen nextGen (getch 0) [Initial; Cells chars];
  _ ← free_board board1;
  _ ← free_board board2;
  mret (result, if decide (key_pressed result = ERR) then screen ++ [WaitForKey] else screen).
End play.
End life.

(** ** Specification: what is on the heap *)

(** Over the blocks of [F], the heap has the given ones, and no others. *)
Definition owns (F h : heap) (l : list (loc * block)) : Prop :=
  NoDup l.*1 ∧ (∀ x, x ∈ l.*1 → F !! x = None) ∧ h = list_to_map l ∪ F.

(** The blocks of a board: the array of pointers, and the rows. *)
Definition board_blocks (p : loc) (rows : list loc) (b : board) : list (loc * block) :=
  (p, Pointers (To <$> rows)) :: zip rows (Chars <$> b).

(** The heap holds a board, besides [l]. *)
Definition holds_board (F h : heap) (p : loc) (rows : list loc) (b : board) (l : list (loc * block)) : Prop :=
  owns F h (board_blocks p rows b ++ l) ∧ length rows = length b.

(** ** Owned blocks *)
#[export] Instance owns_permutation F h : Proper ((≡ₚ) ==> iff) (owns F h).
Proof.
  enough (∀ l l', l ≡ₚ l' → owns F h l → owns F h l') as H by (intros l l' Hl; split; apply H; by rewrite Hl).
  intros l l' Hl (H1 & H2 & ->). assert (NoDup l'.*1) as H1' by by rewrite <-Hl.
  split; [done|]. split; [intros x; rewrite <-Hl; apply H2|]. f_equal. by apply list_to_map_proper.
Qed.

Lemma owns_nil F h : owns F h [] ↔ h = F.
Proof.
  unfold owns. cbn. rewrite (left_id_L ∅ (∪)). split; [by intros (_ & _ & ?)|].
  intros ->. split; [constructor|]. split; [by intros x ?%elem_of_nil|done].
Qed.

Lemma owns_lookup F h l x k : owns F h l → (x, k) ∈ l → h !! x = Some k.
Proof. intros (H1 & _ & ->) Hx. apply lookup_union_Some_l. by apply elem_of_list_to_map_1. Qed.

Lemma owns_insert F h l x k : owns F h l → h !! x = None → owns F (<[x := k]> h) ((x, k) :: l).
Proof.
  intros (H1 & H2 & ->) [Hx HF]%lookup_union_None. apply not_elem_of_list_to_map_2 in Hx.
  split; [by constructor|]. split; [intros y [->|Hy]%elem_of_cons; auto|]. cbn. by rewrite insert_union_l.
Qed.

Lemma owns_write F h l x k k' : owns F h ((x, k) :: l) → owns F (<[x := k']> h) ((x, k') :: l).
Proof.
  intros (H1 & H2 & ->). split; [done|]. split; [done|]. cbn. by rewrite insert_union_l, insert_insert_eq.
Qed.

Lemma owns_delete F h l x k : owns F h ((x, k) :: l) → owns F (delete x h) l.
Proof.
  intros ([Hx H1]%NoDup_cons & H2 & ->). split; [done|]. split; [intros y Hy; apply H2; by right|]. cbn in *.
  rewrite delete_union, delete_insert_id by (by apply not_elem_of_list_to_map_1).
  rewrite delete_id; [done|]. apply H2. by left.
Qed.

(** Writing a block at its place in the list. *)
Lemma owns_write_at F h l n x k k' : owns F h l → l !! n = Some (x, k) → owns F (<[x := k']> h) (<[n := (x, k')]> l).
Proof.
  intros Ho Hn. pose proof (lookup_lt_Some _ _ _ Hn) as Hlt.
  rewrite insert_take_drop by done. rewrite <-(take_drop_middle l n _ Hn), <-Permutation_middle in Ho.
  rewrite <-Permutation_middle. by eapply owns_write.
Qed.

(** ** Code that reads the heap, and code that changes it *)
Section running.
Context {A B : Type}.
Implicit Types (m : mem A) (k : A → mem B) (h : heap).

(** [m] computes what [y] does and leaves the heap alone. *)
Definition reads {A} (m : mem A) (y : outcome A) (h : heap) : Prop := m h = (a ← y; Ret (a, h)).

Lemma reads_ret (a : A) h : reads (mret a) (Ret a) h.
Proof. reflexivity. Qed.

Lemma reads_lift (y : outcome A) h : reads (lift y) y h.
Proof. reflexivity. Qed.

Lemma reads_bind m y k (k' : A → outcome B) h :
  reads m y h → (∀ a, y = Ret a → reads (k a) (k' a) h) → reads (m ≫= k) (y ≫= k') h.
Proof.
  unfold reads. intros E Hk. unfold mbind at 1, mem_bind. rewrite E. destruct y as [a| | |]; try done. cbn. by apply Hk.
Qed.

Lemma reads_Ret m y h a : reads m y h → y = Ret a → m h = Ret (a, h).
Proof. by intros -> ->. Qed.

Lemma simulates_read {C} (Q : B * heap → C → Prop) m y k (k' : A → outcome C) h :
  reads m y h → (∀ a, y = Ret a → simulates Q (k a h) (k' a)) → simulates Q ((m ≫= k) h) (y ≫= k').
Proof.
  unfold reads. intros E Hk. unfold mbind at 1, mem_bind. rewrite E. destruct y as [a| | |]; try done. cbn. by apply Hk.
Qed.

Lemma simulates_then {C D} (R : A * heap → C → Prop) (Q : B * heap → D → Prop) m y k (k' : C → outcome D) h :
  simulates R (m h) y → (∀ a h' c, R (a, h') c → simulates Q (k a h') (k' c)) → simulates Q ((m ≫= k) h) (y ≫= k').
Proof. intros H Hk. unfold mbind at 1, mem_bind. eapply simulates_bind; [exact H|]. intros [a h'] c. apply Hk. Qed.

(** A call that does something the other program does not. *)
Lemma simulates_silent {C} (P : A * heap → Prop) (Q : B * heap → C → Prop) m k (y : outcome C) h :
  returns (m h) P → (∀ a h', P (a, h') → simulates Q (k a h') y) → simulates Q ((m ≫= k) h) y.
Proof. intros ([a h'] & E & H) Hk. unfold mbind at 1, mem_bind. rewrite E. by apply Hk. Qed.
End running.

Lemma reads_for {S} lo hi (f : S → Z → mem S) (g : S → Z → outcome S) s h :
  (∀ s i, lo ≤ i < hi → reads (f s i) (g s i) h) → reads (for_mem lo hi f s) (for_range lo hi g s) h.
Proof.
  intros Hstep. unfold reads, for_mem.
  pose proof (simulates_for_range (λ sh t, sh = (t, h)) lo hi (λ sh i, f sh.1 i sh.2) g (s, h) s eq_refl) as H.
  destruct (for_range lo hi g s); cbn in H |- *.
  1: destruct H as (? & -> & ->); [|done].
  2-4: apply H.
  all: intros i ? t Hi ->; specialize (Hstep t i Hi); unfold reads in Hstep; cbn; rewrite Hstep; destruct (g t i); cbn; try done;
    by apply simulates_Ret.
Qed.

Lemma simulates_for_mem {S T} (R : S * heap → T → Prop) lo hi (f : S → Z → mem S) (g : T → Z → outcome T) s h t :
  R (s, h) t → (∀ i s h t, lo ≤ i < hi → R (s, h) t → simulates R (f s i h) (g t i)) →
  simulates R (for_mem lo hi f s h) (for_range lo hi g t).
Proof. intros H Hstep. apply simulates_for_range; [done|]. intros i [s' h'] t' Hi. by apply Hstep. Qed.

Lemma load_pointer_eq h p ps i : h !! p = Some (Pointers ps) → load_pointer (To p) i h = (x ← vget ps i; Ret (x, h)).
Proof. intros Hp. unfold load_pointer, read_block, mbind at 1, mem_bind. by rewrite Hp. Qed.

Lemma set_eq h p ps i j x : h !! p = Some (Pointers ps) → set (To p) i j x h = (row ← vget ps i; store_char row j x h).
Proof. intros Hp. unfold set, mbind at 1, mem_bind. rewrite (load_pointer_eq h p ps i Hp). by destruct (vget ps i). Qed.

Lemma store_char_eq h r cs j x : h !! r = Some (Chars cs) →
  store_char (To r) j x h = (cs' ← vset cs j x; Ret ((), <[r := Chars cs']> h)).
Proof.
  intros Hr. unfold store_char, read_block, mbind at 1, mem_bind. rewrite Hr. cbn [from_option_ub mbind outcome_bind].
  unfold lift, chars_of, mbind at 1, mem_bind. cbn [mbind outcome_bind]. by destruct (vset cs j x).
Qed.

(** ** The cells of a board *)
Section cells.
Context (F : heap) (p : loc) (rows : list loc) (l : list (loc * block)).

Lemma board_array h b : holds_board F h p rows b l → h !! p = Some (Pointers (To <$> rows)).
Proof. intros [H _]. eapply owns_lookup; [exact H|]. by left. Qed.

Lemma board_row h b i x r : holds_board F h p rows b l → rows !! i = Some x → b !! i = Some r → h !! x = Some (Chars r).
Proof.
  intros [H _] Hx Hr. eapply owns_lookup; [exact H|]. apply elem_of_app. left. right.
  apply (list_elem_of_lookup_2 _ i). apply lookup_zip_with_Some. exists x, (Chars r). split_and!; [done|done|]. rewrite list_lookup_fmap. exact (f_equal (fmap Chars) Hr).
Qed.

(** The pointer to a row, where there is one. *)
Lemma load_row h b i : holds_board F h p rows b l →
  (vget b i = Undef ∧ load_pointer (To p) i h = Undef) ∨
  ∃ x r, vget b i = Ret r ∧ 0 ≤ i ∧ rows !! Z.to_nat i = Some x ∧ b !! Z.to_nat i = Some r ∧
    load_pointer (To p) i h = Ret (To x, h) ∧ h !! x = Some (Chars r).
Proof.
  intros H. rewrite (load_pointer_eq h p _ i (board_array h b H)), vget_fmap.
  destruct (decide (0 ≤ i < Z.of_nat (length b))) as [Hi|Hi].
  - right. destruct (vget_is_Ret b i Hi) as [r E]. pose proof H as [_ Hl]. rewrite <-Hl in Hi.
    destruct (vget_is_Ret rows i Hi) as [x Ex]. rewrite Ex. apply vget_Ret in E as E'. apply vget_Ret in Ex as [? Ex].
    exists x, r. destruct E'. split_and!; try done. by eapply board_row.
  - left. rewrite (vget_out b) by done. destruct H as [_ Hl]. by rewrite vget_out by (by rewrite Hl).
Qed.

Lemma cell_reads h b i j : holds_board F h p rows b l → reads (cell (To p) i j) (Life.cell b i j) h.
Proof.
  intros H. unfold reads, cell, Life.cell, mbind at 1, mem_bind.
  destruct (load_row h b i H) as [[-> ->]|(x & r & -> & _ & _ & _ & -> & Hx)]; [done|]. cbn [mbind outcome_bind].
  unfold load_char, read_block, mbind at 1, mem_bind. by rewrite Hx.
Qed.

Lemma set_simulates h b i j x : holds_board F h p rows b l →
  simulates (λ sh b', holds_board F sh.2 p rows b' l) (set (To p) i j x h) (Life.set b i j x).
Proof.
  intros H. unfold set, Life.set, mbind at 1, mem_bind.
  destruct (load_row h b i H) as [[-> ->]|(q & r & -> & Hi & Hq & Hr & -> & Hx)]; [done|]. cbn [mbind outcome_bind].
  rewrite (store_char_eq h q r j x Hx). destruct (vset r j x) as [r'| | |] eqn:E; try (unfold vset in E; by case_decide). cbn [mbind outcome_bind].
  rewrite vset_is_Ret by (apply lookup_lt_Some in Hr; lia). apply simulates_Ret. cbn [snd].
  destruct H as [H Hl]. split; [|by rewrite length_insert].
  unfold board_blocks. rewrite list_fmap_insert.
  assert (zip rows (<[Z.to_nat i := Chars r']> (Chars <$> b)) = <[Z.to_nat i := (q, Chars r')]> (zip rows (Chars <$> b))) as ->.
  { rewrite insert_zip_with. f_equal. by rewrite list_insert_id. }
  assert (zip rows (Chars <$> b) !! Z.to_nat i = Some (q, Chars r)) as Hz.
  { apply lookup_zip_with_Some. exists q, (Chars r). split_and!; [done|done|]. rewrite list_lookup_fmap. exact (f_equal (fmap Chars) Hr). }
  assert ((board_blocks p rows b ++ l) !! S (Z.to_nat i) = Some (q, Chars r)) as Hn.
  { unfold board_blocks. cbn [app]. rewrite lookup_cons. cbn. rewrite lookup_app_l by (by eapply lookup_lt_Some). exact Hz. }
  pose proof (owns_write_at _ _ _ _ _ _ (Chars r') H Hn) as H'.
  assert (∀ y : loc * block, <[S (Z.to_nat i) := y]> (board_blocks p rows b ++ l) =
    (p, Pointers (To <$> rows)) :: <[Z.to_nat i := y]> (zip rows (Chars <$> b)) ++ l) as E'.
  { intros y. rewrite <-insert_app_l by (by eapply lookup_lt_Some). done. }
  by rewrite E' in H'.
Qed.
End cells.

(** ** Board operations *)
Section operations.
Context {M : Malloc} (junk NUM_ROWS NUM_COLS : Z).

(** The cells that the loops visit. *)
Definition in_board (i j : Z) : Prop := 0 ≤ i < NUM_ROWS ∧ 0 ≤ j < NUM_COLS.

Lemma for_cells_reads {S} (f : S → Z → Z → mem S) (g : S → Z → Z → outcome S) s h :
  (∀ s i j, in_board i j → reads (f s i j) (g s i j) h) →
  reads (for_cells NUM_ROWS NUM_COLS f s) (Life.for_cells NUM_ROWS NUM_COLS g s) h.
Proof. intros H. apply reads_for. intros s' i Hi. apply reads_for. intros s2 j Hj. by apply H. Qed.

(** The values of the cells can be read through the pointer [a]. *)
Definition readable (a : pointer) (b : board) (h : heap) : Prop := ∀ i j, in_board i j → reads (cell a i j) (Life.cell b i j) h.

Lemma print_board_reads a b h : readable a b h →
  reads (print_board NUM_ROWS NUM_COLS a) (Life.print_board NUM_ROWS NUM_COLS b) h.
Proof.
  intros H. apply reads_for. intros out i Hi. apply reads_bind; [|intros ? _; apply reads_ret].
  apply reads_for. intros out' j Hj. apply reads_bind; [by apply H|]. intros ? _. apply reads_ret.
Qed.

Lemma for_cells_return_reads test test' h : (∀ i j, in_board i j → reads (test i j) (test' i j) h) →
  reads (for_cells_return NUM_ROWS NUM_COLS test) (Life.for_cells_return NUM_ROWS NUM_COLS test') h.
Proof. intros H. apply for_cells_reads. intros [z|] i j Hij; [apply reads_ret|by apply H]. Qed.

Lemma check_board_reads a b h : readable a b h →
  reads (check_board NUM_ROWS NUM_COLS a) (Life.check_board NUM_ROWS NUM_COLS b) h.
Proof.
  intros H. apply reads_bind; [|intros ? _; apply reads_ret]. apply for_cells_return_reads. intros i j Hij.
  apply reads_bind; [by apply H|]. intros ? _. apply reads_ret.
Qed.

Lemma compare_boards_reads a b a' b' h : readable a a' h → readable b b' h →
  reads (compare_boards NUM_ROWS NUM_COLS a b) (Life.compare_boards NUM_ROWS NUM_COLS a' b') h.
Proof.
  intros Ha Hb. apply reads_bind; [|intros ? _; apply reads_ret]. apply for_cells_return_reads. intros i j Hij.
  apply reads_bind; [by apply Ha|]. intros ? _. apply reads_bind; [by apply Hb|]. intros ? _. apply reads_ret.
Qed.

Lemma get_cell_reads a b row col h : readable a b h →
  reads (get_cell NUM_ROWS NUM_COLS a row col) (Life.get_cell NUM_ROWS NUM_COLS b row col) h.
Proof. intros H. unfold get_cell, Life.get_cell. case_decide; [apply reads_ret|]. apply H. unfold in_board. lia. Qed.

Lemma num_neighbors_reads a b row col h : readable a b h →
  reads (num_neighbors NUM_ROWS NUM_COLS a row col) (Life.num_neighbors NUM_ROWS NUM_COLS b row col) h.
Proof.
  intros H. unfold reads, num_neighbors, Life.num_neighbors. generalize 0. induction offsets as [|d l IH]; intros n; [done|].
  cbn [foldM fst snd]. rewrite (get_cell_reads a b _ _ h H).
  destruct (Life.get_cell _ _ _ _ _); try done. cbn [mbind outcome_bind]. case_decide; apply IH.
Qed.

Lemma cell_next_reads a b row col h : readable a b h →
  reads (cell_next NUM_ROWS NUM_COLS a row col) (Life.cell_next NUM_ROWS NUM_COLS b row col) h.
Proof.
  intros H. apply reads_bind; [by apply num_neighbors_reads|]. intros n _.
  apply reads_bind; [by apply get_cell_reads|]. intros c _. repeat case_decide; apply reads_ret.
Qed.

(** Loops that write the cells of one board. *)
Lemma for_cells_simulates (R : heap → board → Prop) (f : () → Z → Z → mem ()) g h b : R h b →
  (∀ s i j h b, in_board i j → R h b → simulates (λ sh b', R sh.2 b') (f s i j h) (g b i j)) →
  simulates (λ sh b', R sh.2 b') (for_cells NUM_ROWS NUM_COLS f () h) (Life.for_cells NUM_ROWS NUM_COLS g b).
Proof.
  intros H Hf. apply (simulates_for_mem (λ sh b', R sh.2 b')); [done|]. intros i s h' b' Hi H'.
  apply (simulates_for_mem (λ sh b', R sh.2 b')); [done|]. intros j s' h2 b2 Hj H2. by apply Hf.
Qed.

(** *** A board on the heap

    With at least one cell it is an array of pointers and the rows. Without
    cells (no row, or no column) it is whatever [malloc] gave: nothing is read
    or written through it. A row or the array that was not given is null. *)
Definition pointer_of (o : option (loc * block)) : pointer := match o with Some (x, _) => To x | None => Null end.

Definition held (q : pointer) (b : board) (bl : list (loc * block)) : Prop :=
  length b = Z.to_nat NUM_ROWS ∧
  if decide (0 < NUM_ROWS) then
    if decide (0 < NUM_COLS) then ∃ p rows, q = To p ∧ length rows = length b ∧ bl = board_blocks p rows b
    else ∃ p os, q = To p ∧ length os = length b ∧ bl = (p, Pointers (pointer_of <$> os)) :: omap id os
  else ∃ o n, q = pointer_of o ∧ bl = option_list o ∧ from_option snd (Pointers []) o = Pointers (replicate n Wild).

(** [q] points to a board, besides [l]. *)
Definition holds (F h : heap) (q : pointer) (b : board) (l : list (loc * block)) : Prop :=
  ∃ bl, held q b bl ∧ owns F h (bl ++ l).

#[local] Instance holds_permutation F h q b : Proper ((≡ₚ) ==> iff) (holds F h q b).
Proof. intros l l' Hl. unfold holds. by setoid_rewrite Hl. Qed.

(** With cells, this is [holds_board]. *)
Lemma holds_cells F h q b l : 0 < NUM_ROWS → 0 < NUM_COLS →
  holds F h q b l ↔ length b = Z.to_nat NUM_ROWS ∧ ∃ p rows, q = To p ∧ holds_board F h p rows b l.
Proof.
  intros HR HC. unfold holds, held, holds_board. split.
  - intros (bl & (Hb & H) & Ho). rewrite !decide_True in H by done. destruct H as (p & rows & -> & Hl & ->).
    split; [done|]. by exists p, rows.
  - intros (Hb & p & rows & -> & Ho & Hl). eexists. split; [|exact Ho]. split; [done|]. rewrite !decide_True by done.
    by exists p, rows.
Qed.

Section board.
Context (F : heap) (q : pointer) (l : list (loc * block)).

Lemma holds_readable h b : holds F h q b l → readable q b h.
Proof.
  intros H i j [Hi Hj]. apply holds_cells in H as (_ & p & rows & -> & H); [|lia..]. by eapply cell_reads.
Qed.

(** The row may be any number, as in [read_file]. *)
Lemma set_holds h b i j x : 0 ≤ j < NUM_COLS → holds F h q b l →
  simulates (λ sh b', holds F sh.2 q b' l) (set q i j x h) (Life.set b i j x).
Proof.
  intros Hj H. destruct (decide (0 < NUM_ROWS)) as [HR|HR].
  - apply holds_cells in H as (Hb & p & rows & -> & H); [|lia..].
    eapply simulates_mono; [exact (set_simulates F p rows l h b i j x H)|]. intros sh b' H'. apply holds_cells; [lia..|].
    split; [|by exists p, rows]. destruct H as [_ <-] in Hb. by destruct H' as [_ <-].
  - destruct H as (bl & [Hb H] & Ho). rewrite decide_False in H by done. destruct H as (o & n & -> & -> & Hn).
    assert (b = []) as -> by (apply nil_length_inv; lia).
    assert (Life.set [] i j x = Undef) as -> by (unfold Life.set; rewrite vget_out by (cbn; lia); done).
    destruct o as [[p k]|]; [|done]. cbn in Hn. subst k.
    cbn [pointer_of]. rewrite (set_eq h p (replicate n Wild)) by (eapply owns_lookup; [exact Ho|by left]). unfold vget. case_decide; [|done].
    destruct (replicate n Wild !! Z.to_nat i) as [w|] eqn:E; [|done].
    apply lookup_replicate in E as [-> _]. done.
Qed.

Lemma clear_board_simulates h b c : holds F h q b l →
  simulates (λ sh b', holds F sh.2 q b' l) (clear_board NUM_ROWS NUM_COLS q c h) (Life.clear_board NUM_ROWS NUM_COLS b c).
Proof. intros H. apply (for_cells_simulates (λ h b', holds F h q b' l)); [done|]. intros ? ? ? ? ? [_ ?] ?. by apply set_holds. Qed.

Lemma randomize_board_simulates h b rand : holds F h q b l →
  simulates (λ sh b', holds F sh.2 q b' l) (randomize_board NUM_ROWS NUM_COLS rand q h)
    (Life.randomize_board NUM_ROWS NUM_COLS rand b).
Proof. intros H. apply (for_cells_simulates (λ h b', holds F h q b' l)); [done|]. intros ? ? ? ? ? [_ ?] ?. by apply set_holds. Qed.

Lemma invert_board_simulates h b : holds F h q b l →
  simulates (λ sh b', holds F sh.2 q b' l) (invert_board NUM_ROWS NUM_COLS q h) (Life.invert_board NUM_ROWS NUM_COLS b).
Proof.
  intros H. apply (for_cells_simulates (λ h b', holds F h q b' l)); [done|]. intros s i j h' b' Hij H'.
  eapply simulates_read; [by apply (holds_readable h')|]. intros x _. apply set_holds; [apply Hij|done].
Qed.
End board.

Lemma set_cell_simulates F h p rows b c row col l : holds_board F h p rows b l →
  simulates (λ sh b', holds_board F sh.2 p rows b' l) (set_cell NUM_ROWS NUM_COLS (To p) c row col h)
    (Life.set_cell NUM_ROWS NUM_COLS b c row col).
Proof. intros H. unfold set_cell, Life.set_cell. case_decide; [done|]. by apply set_simulates. Qed.

(** ** Two boards *)
Section boards.
Context (F : heap) (l : list (loc * block)).

Definition two_boards (h : heap) (q1 : pointer) (b1 : board) (q2 : pointer) (b2 : board) : Prop :=
  ∃ bl2, held q2 b2 bl2 ∧ holds F h q1 b1 (bl2 ++ l).

Lemma two_boards_swap h q1 b1 q2 b2 : two_boards h q1 b1 q2 b2 → two_boards h q2 b2 q1 b1.
Proof.
  intros (bl2 & H2 & bl1 & H1 & Ho). exists bl1. split; [done|]. exists bl2. split; [done|]. revert Ho.
  apply owns_permutation. rewrite !app_assoc. by rewrite (Permutation_app_comm bl1).
Qed.

Lemma two_boards_readable h q1 b1 q2 b2 : two_boards h q1 b1 q2 b2 → readable q1 b1 h ∧ readable q2 b2 h.
Proof.
  intros H. split; [|apply two_boards_swap in H]; destruct H as (bl & _ & H); by eapply holds_readable.
Qed.

Lemma two_boards_set h q1 b1 q2 b2 i j x : 0 ≤ j < NUM_COLS → two_boards h q1 b1 q2 b2 →
  simulates (λ sh b', two_boards sh.2 q1 b1 q2 b') (set q2 i j x h) (Life.set b2 i j x).
Proof.
  intros Hj H. apply two_boards_swap in H as (bl & Hbl & H). eapply simulates_mono; [by eapply set_holds|].
  intros [u h2] b2' H2. apply two_boards_swap. by exists bl.
Qed.

Lemma calc_next_simulates h q1 b1 q2 b2 : two_boards h q1 b1 q2 b2 →
  simulates (λ sh b', two_boards sh.2 q1 b1 q2 b') (calc_next_generation NUM_ROWS NUM_COLS q1 q2 h)
    (Life.calc_next_generation NUM_ROWS NUM_COLS b1 b2).
Proof.
  intros H. apply (for_cells_simulates (λ h b', two_boards h q1 b1 q2 b')); [done|]. intros s i j h' b' Hij H'.
  eapply simulates_read; [by apply cell_next_reads, (two_boards_readable _ _ _ _ _ H')|]. intros x _.
  apply two_boards_set; [apply Hij|done].
Qed.

Lemma copy_board_simulates h q1 b1 q2 b2 : two_boards h q1 b1 q2 b2 →
  simulates (λ sh b', two_boards sh.2 q1 b1 q2 b') (copy_board NUM_ROWS NUM_COLS q1 q2 h)
    (Life.copy_board NUM_ROWS NUM_COLS b1 b2).
Proof.
  intros H. apply (for_cells_simulates (λ h b', two_boards h q1 b1 q2 b')); [done|]. intros s i j h' b' Hij H'.
  eapply simulates_read; [by apply (two_boards_readable _ _ _ _ _ H')|]. intros x _.
  apply two_boards_set; [apply Hij|done].
Qed.

(** *** The loop of [play]: the pointers change places, the boards stay. *)
Section play.
Context (ERR KEY_RESIZE REFRESH_DELAY_MS : Z) (getch : Z → Z).

Lemma play_loop_simulates n : ∀ i h q1 b1 q2 b2 key screen, two_boards h q1 b1 q2 b2 →
  simulates (λ rh r, rh.1 = r ∧ ∃ c1 c2, two_boards rh.2 q1 c1 q2 c2)
    (play_loop NUM_ROWS NUM_COLS ERR KEY_RESIZE REFRESH_DELAY_MS getch n i q1 q2 key screen h)
    (Life.play_loop NUM_ROWS NUM_COLS ERR KEY_RESIZE REFRESH_DELAY_MS getch n i b1 b2 key screen).
Proof.
  induction n as [|n IH]; intros i h q1 b1 q2 b2 key screen H; cbn [play_loop Life.play_loop].
  { apply simulates_Ret. split; [done|by exists b1, b2]. }
  eapply simulates_then; [by apply calc_next_simulates|]. intros u h' b2' H'. cbn [snd] in H'.
  destruct (two_boards_readable _ _ _ _ _ H') as [R1 R2].
  eapply simulates_read; [by apply print_board_reads|]. intros chars _.
  eapply simulates_read; [by apply compare_boards_reads|]. intros differ _.
  case_decide. { apply simulates_Ret. split; [done|by exists b1, b2']. }
  eapply simulates_read; [by apply check_board_reads|]. intros alive _.
  case_decide. { apply simulates_Ret. split; [done|by exists b1, b2']. }
  eapply simulates_read; [apply reads_lift|]. intros usec _.
  case_decide. { apply simulates_Ret. split; [done|by exists b1, b2']. }
  eapply simulates_read; [apply reads_lift|]. intros i' _.
  eapply simulates_mono; [by apply IH, two_boards_swap|]. intros [r h3] r' [-> (c1 & c2 & Hb)]. split; [done|].
  exists c2, c1. by apply two_boards_swap.
Qed.
End play.
End boards.

(** ** Reading a board *)
Section buffer.
Context (F : heap) (q : pointer) (lb : loc) (l : list (loc * block)).

Lemma buffer_block h b k : holds F h q b ((lb, k) :: l) → h !! lb = Some k.
Proof. intros (bl & _ & H). eapply owns_lookup; [exact H|]. apply elem_of_app. right. by left. Qed.

Lemma buffer_write h b k k' : holds F h q b ((lb, k) :: l) → holds F (<[lb := k']> h) q b ((lb, k') :: l).
Proof. intros (bl & Hbl & H). exists bl. split; [done|]. rewrite <-Permutation_middle in *. by eapply owns_write. Qed.

Lemma load_char_reads h b cs j : holds F h q b ((lb, Chars cs) :: l) → reads (load_char (To lb) j) (vget cs j) h.
Proof.
  intros H. unfold reads, load_char, read_block, mbind at 1, mem_bind. by rewrite (buffer_block _ _ _ H).
Qed.

Lemma strlen_reads h b cs : holds F h q b ((lb, Chars cs) :: l) → reads (strlen (To lb)) (Life.strlen cs) h.
Proof. intros H. unfold reads, strlen, read_block, mbind at 1, mem_bind. by rewrite (buffer_block _ _ _ H). Qed.

Lemma store_char_simulates h b cs j x : holds F h q b ((lb, Chars cs) :: l) →
  simulates (λ sh cs', holds F sh.2 q b ((lb, Chars cs') :: l)) (store_char (To lb) j x h) (vset cs j x).
Proof.
  intros H. rewrite (store_char_eq h lb cs j x (buffer_block _ _ _ H)).
  destruct (vset cs j x) as [cs'| | |] eqn:E; try done. cbn [mbind outcome_bind]. apply simulates_Ret. by eapply buffer_write.
Qed.

Lemma fgets_runs h b cs f : holds F h q b ((lb, Chars cs) :: l) →
  fgets (To lb) f h = Ret ((Life.fgets cs f).2, <[lb := Chars (Life.fgets cs f).1]> h).
Proof.
  intros H. unfold fgets, read_block, mbind at 1, mem_bind. rewrite (buffer_block _ _ _ H).
  cbn [from_option_ub mbind outcome_bind]. unfold lift, mbind at 1, mem_bind. cbn [mbind outcome_bind chars_of].
  by destruct (Life.fgets cs f).
Qed.

Lemma write_row_simulates h b cs row : holds F h q b ((lb, Chars cs) :: l) →
  simulates (λ sh b', holds F sh.2 q b' ((lb, Chars cs) :: l))
    (for_mem 0 NUM_COLS (λ _ j, c ← load_char (To lb) j; set q row j c) () h)
    (for_range 0 NUM_COLS (λ b j, c ← vget cs j; Life.set b row j c) b).
Proof.
  intros H. apply (simulates_for_mem (λ sh b', holds F sh.2 q b' ((lb, Chars cs) :: l))); [done|].
  intros j s h' b' Hj H'. eapply simulates_read; [by eapply load_char_reads|]. intros c _. by apply set_holds.
Qed.

Lemma read_rows_simulates filename fuel : ∀ row cs f h b, holds F h q b ((lb, Chars cs) :: l) →
  simulates (λ sh r, sh.1 = r.1 ∧ ∃ cs', holds F sh.2 q r.2 ((lb, Chars cs') :: l))
    (read_rows NUM_COLS filename fuel row (To lb) f q h) (Life.read_rows NUM_COLS filename fuel row cs f b).
Proof.
  induction fuel as [|fuel IH]; intros row cs f h b H; [done|]. cbn [read_rows Life.read_rows].
  destruct (feof f). { apply simulates_Ret. split; [done|by exists cs]. }
  eapply simulates_read; [by eapply load_char_reads|]. intros last _.
  eapply (simulates_then (λ sh cs', holds F sh.2 q b ((lb, Chars cs') :: l))).
  { case_decide; [by apply store_char_simulates|by apply simulates_Ret]. }
  intros u h1 cs1 H1. eapply simulates_read; [by eapply strlen_reads|]. intros len _. case_decide; [done|].
  eapply simulates_then; [by apply write_row_simulates|]. intros u2 h2 b2 H2.
  eapply simulates_read; [apply reads_lift|]. intros row' _.
  pose proof (fgets_runs h2 b2 cs1 f H2) as E. destruct (Life.fgets cs1 f) as [cs2 f2]. cbn [fst snd] in E.
  eapply (simulates_silent (.= (f2, <[lb := Chars cs2]> h2))); [rewrite E; by apply returns_Ret|].
  intros f' h3 [= -> ->]. apply IH. exact (buffer_write h2 b2 _ _ H2).
Qed.
End buffer.

(** ** Allocation *)
Section allocation.
Context (HM : MallocLaws M) (HR : NUM_ROWS ≤ INT_MAX) (HC : NUM_COLS ≤ INT_MAX).

(** What [y] does, or something undefined after a refusal *)
Definition mimics {A B} (Q : A → B → Prop) (x : outcome A) (y : outcome B) : Prop :=
  simulates Q x y ∨ refused ∧ x = Undef.

Lemma mimics_then {A B C D} (R : A * heap → C → Prop) (Q : B * heap → D → Prop) (m : mem A) y (k : A → mem B) (k' : C → outcome D) h :
  mimics R (m h) y → (∀ a h' c, R (a, h') c → mimics Q (k a h') (k' c)) → mimics Q ((m ≫= k) h) (y ≫= k').
Proof.
  unfold mbind at 1, mem_bind. intros [H|[Hr ->]] Hk; [|by right]. destruct y as [c| | |]; cbn in H; [|by left; rewrite H..].
  destruct H as ([a h'] & -> & H). by apply Hk.
Qed.

Lemma new_block_returns F h l size b : owns F h l →
  returns (new_block size b h) (λ qh, ∃ o, qh.1 = pointer_of o ∧ owns F qh.2 (option_list o ++ l) ∧
    match o with Some (_, k) => k = b | None => 0 < size → refused end).
Proof.
  intros Ho. unfold new_block. destruct (malloc h size) as [x|] eqn:E; apply returns_Ret.
  - exists (Some (x, b)). split; [done|]. split; [|done]. apply owns_insert; [done|]. by eapply malloc_unused.
  - exists None. split; [done|]. split; [done|]. intros Hs. by exists h, size.
Qed.

Definition row_block : block := Chars (replicate (Z.to_nat (u64 NUM_COLS)) junk).

Lemma row_size : 0 < NUM_COLS → u64 NUM_COLS = NUM_COLS.
Proof. intros H. unfold u64. apply Z.mod_small. unfold INT_MAX in HC. lia. Qed.

Lemma array_size : 0 < NUM_ROWS →
  u64 (u64 NUM_ROWS * pointer_size) / pointer_size = NUM_ROWS ∧ 0 < u64 (u64 NUM_ROWS * pointer_size).
Proof.
  intros H. unfold u64, pointer_size. rewrite (Z.mod_small NUM_ROWS) by (unfold INT_MAX in HR; lia).
  rewrite Z.mod_small by (unfold INT_MAX in HR; lia). split; [by apply Z.div_mul|lia].
Qed.

Lemma store_pointer_runs F h p ps l i x ps' : owns F h ((p, Pointers ps) :: l) → vset ps i x = Ret ps' →
  store_pointer (To p) i x h = Ret ((), <[p := Pointers ps']> h).
Proof.
  intros H E. unfold store_pointer, read_block, mbind at 1, mem_bind.
  rewrite (owns_lookup _ _ _ p _ H) by left. cbn [from_option_ub mbind outcome_bind].
  unfold lift, mbind at 1, mem_bind. cbn [mbind outcome_bind pointers_of]. by rewrite E.
Qed.

(** A row that [malloc] gave, or did not *)
Definition row_given (o : option (loc * block)) : Prop :=
  match o with Some (_, k) => k = row_block | None => 0 < NUM_COLS → refused end.

(** The loop of [allocate_board], which fills the array of pointers. *)
Lemma allocate_rows_returns F h p l :
  owns F h ((p, Pointers (replicate (Z.to_nat NUM_ROWS) Wild)) :: l) →
  returns (allocate_rows junk NUM_ROWS NUM_COLS (To p) h) (λ sh, ∃ os, length os = Z.to_nat NUM_ROWS ∧
    Forall row_given os ∧ owns F sh.2 ((p, Pointers (pointer_of <$> os)) :: omap id os ++ l)).
Proof.
  intros Ho. unfold allocate_rows, for_mem, for_range. rewrite Z.sub_0_r.
  set (n := Z.to_nat NUM_ROWS). eapply returns_mono.
  - apply (foldM_inv _ (λ pre sh, ∃ os, length os = length pre ∧ (length pre ≤ n)%nat ∧ Forall row_given os ∧
      owns F sh.2 ((p, Pointers ((pointer_of <$> os) ++ replicate (n - length pre) Wild)) :: omap id os ++ l))).
    { exists []. split; [done|]. cbn. rewrite Nat.sub_0_r. split; [lia|]. split; [constructor|done]. }
    intros pre i post [u h1] Hseq (os & Hl & Hle & Hos & H1). cbn [fst snd] in *.
    assert (i = Z.of_nat (length pre) ∧ (length pre < n)%nat) as [-> Hlt].
    { assert (seqZ 0 NUM_ROWS !! length pre = Some i) as Hi by by rewrite Hseq, list_lookup_middle.
      apply lookup_seqZ in Hi. lia. }
    unfold malloc_chars. fold row_block. unfold mbind at 1, mem_bind.
    destruct (new_block_returns F h1 _ (u64 NUM_COLS) row_block H1) as ([q h2] & E & o & Eq & H2 & Hgiven).
    rewrite E. cbn [fst snd mbind outcome_bind] in *. subst q.
    set (pre' := pre ++ [Z.of_nat (length pre)]).
    assert (length pre' = S (length pre)) as Hl' by (unfold pre'; rewrite length_app; cbn; lia).
    replace (n - length pre)%nat with (S (n - length pre')) in H2 by lia. cbn [replicate] in H2.
    rewrite <-Permutation_middle in H2.
    assert (length pre = length (pointer_of <$> os)) as Hlen by by rewrite length_fmap.
    rewrite (store_pointer_runs _ _ _ _ _ _ _ _ H2) by (rewrite Hlen; apply vset_middle).
    apply returns_Ret. exists (os ++ [o]). rewrite length_app, Hl, Hl'. split; [cbn; lia|]. split; [lia|]. split.
    { apply Forall_app. split; [done|]. apply Forall_singleton. unfold row_given.
      destruct o as [[x k]|]; [done|]. intros Hc. apply Hgiven. by rewrite row_size. }
    eapply owns_write, owns_permutation in H2; [exact H2|]. rewrite fmap_app, <-app_assoc. constructor.
    rewrite omap_app, <-app_assoc. destruct o; cbn; [|done]. symmetry. apply Permutation_middle.
  - intros [u h1] (os & Hl & _ & Hos & H1). exists os. rewrite length_seqZ in *. fold n in Hl, H1. split; [done|].
    split; [done|]. by rewrite Nat.sub_diag, app_nil_r in H1.
Qed.

(** No array: the first row is stored through a null pointer. *)
Lemma allocate_rows_null F h l : owns F h l → 0 < NUM_ROWS → allocate_rows junk NUM_ROWS NUM_COLS Null h = Undef.
Proof.
  intros Ho H. unfold allocate_rows, for_mem, for_range. rewrite Z.sub_0_r, seqZ_cons by done. cbn [foldM fst snd].
  unfold malloc_chars. fold row_block.
  destruct (new_block_returns F h l (u64 NUM_COLS) row_block Ho) as ([r h2] & E & _).
  assert ((row ← new_block (u64 NUM_COLS) row_block; store_pointer Null 0 row) h = Undef) as ->; [|done].
  unfold mbind at 1, mem_bind. by rewrite E.
Qed.

(** *** A row that was not given: the first write to it is undefined. *)
Lemma set_array h p ps i j x : h !! p = Some (Pointers ps) →
  set (To p) i j x h = Undef ∨ ∃ h', set (To p) i j x h = Ret ((), h') ∧ h' !! p = Some (Pointers ps).
Proof.
  intros Hp. rewrite (set_eq h p ps) by done. unfold vget. case_decide; [|by left]. destruct (ps !! Z.to_nat i) as [[|r|]|]; cbn [from_option_ub mbind outcome_bind]; try by left.
  destruct (h !! r) as [[ps'|cs]|] eqn:Er.
  1, 3: left; unfold store_char, read_block, mbind at 1, mem_bind; by rewrite Er.
  rewrite (store_char_eq h r cs j x Er). unfold vset. case_decide; [|by left]. right. cbn [mbind outcome_bind].
  eexists. split; [reflexivity|]. by rewrite lookup_insert_ne by congruence.
Qed.

Lemma for_mem_undef (f : () → Z → mem ()) (I : heap → Prop) lo hi i h : I h → lo ≤ i < hi →
  (∀ s j h, I h → f s j h = Undef ∨ ∃ h', f s j h = Ret ((), h') ∧ I h') → (∀ s h, I h → f s i h = Undef) →
  for_mem lo hi f () h = Undef.
Proof.
  intros Hh Hi Hf Hfi. unfold for_mem, for_range. assert (i ∈ seqZ lo (hi - lo)) as Hin by (apply elem_of_seqZ; lia).
  revert h Hh. induction Hin as [i l|i j l _ IH]; intros h Hh; cbn [foldM fst snd]; [by rewrite Hfi|].
  destruct (Hf () j h Hh) as [->|(h' & -> & Hh')]; [done|]. cbn [mbind outcome_bind]. auto.
Qed.

Lemma for_mem_keeps (f : () → Z → mem ()) (I : heap → Prop) lo hi h : I h →
  (∀ s j h, I h → f s j h = Undef ∨ ∃ h', f s j h = Ret ((), h') ∧ I h') →
  for_mem lo hi f () h = Undef ∨ ∃ h', for_mem lo hi f () h = Ret ((), h') ∧ I h'.
Proof.
  intros Hh Hf. unfold for_mem, for_range. revert h Hh. induction (seqZ lo (hi - lo)) as [|j l IH]; intros h Hh.
  { right. by exists h. }
  cbn [foldM fst snd]. destruct (Hf () j h Hh) as [->|(h' & -> & Hh')]; [by left|]. cbn [mbind outcome_bind]. auto.
Qed.

Lemma clear_board_undef h p ps i c : h !! p = Some (Pointers ps) → ps !! i = Some Null → Z.of_nat i < NUM_ROWS →
  0 < NUM_COLS → clear_board NUM_ROWS NUM_COLS (To p) c h = Undef.
Proof.
  intros Hp Hi HiR HC0. pose (I (h : heap) := h !! p = Some (Pointers ps)).
  apply (for_mem_undef _ I 0 NUM_ROWS (Z.of_nat i)); [done|lia| |].
  - intros [] k h' Hh'. apply for_mem_keeps; [done|]. intros s' j h2 Hh2. by apply set_array.
  - intros [] h' Hh'. apply (for_mem_undef _ I 0 NUM_COLS 0); [done|lia|intros s' j h2 Hh2; by apply set_array|].
    intros s' h2 Hh2. rewrite (set_eq h2 p ps) by done. unfold vget. rewrite decide_True, Nat2Z.id, Hi by lia. done.
Qed.

Definition new_board : board := replicate (Z.to_nat NUM_ROWS) (replicate (Z.to_nat NUM_COLS) junk).

(** All rows were given. *)
Lemma all_given os : Forall row_given os → None ∉ os → 0 < NUM_COLS →
  ∃ rows, length rows = length os ∧ pointer_of <$> os = To <$> rows ∧
    omap id os = zip rows (Chars <$> replicate (length os) (replicate (Z.to_nat NUM_COLS) junk)).
Proof.
  intros Hos Hn HC0. induction Hos as [|o os Ho _ IH]; [by exists []|].
  apply not_elem_of_cons in Hn as [Hn1 Hn]. destruct (IH Hn) as (rows & Hl & E1 & E2).
  destruct o as [[x k]|]; [|done]. cbn in Ho. subst k. exists (x :: rows). cbn. rewrite Hl, E1. split_and!; [done|done|].
  f_equal; [|exact E2]. unfold row_block. by rewrite row_size.
Qed.

Lemma allocate_board_mimics F h l : owns F h l →
  mimics (λ qh b, holds F qh.2 qh.1 b l) (allocate_board junk NUM_ROWS NUM_COLS h) (Life.allocate_board NUM_ROWS NUM_COLS junk).
Proof.
  intros Ho. assert (∀ (m : mem ()) q h1, returns (m h1) (λ sh, holds F sh.2 q new_board l) →
    simulates (λ qh b, holds F qh.2 qh.1 b l) ((_ ← m; _ ← clear_board NUM_ROWS NUM_COLS q DEAD; mret q) h1)
      (Life.allocate_board NUM_ROWS NUM_COLS junk)) as Hclear.
  { intros m q h1 H. eapply simulates_silent; [exact H|]. intros u h2 H2. cbn [snd] in H2.
    unfold Life.allocate_board. fold new_board. pose proof (clear_board_simulates F q l h2 new_board DEAD H2) as Hc.
    destruct (Life.clear_board _ _ _ _) as [b| | |]; cbn in Hc |- *; unfold mbind, mem_bind; [|by rewrite Hc..].
    destruct Hc as ([u' h3] & -> & H3). cbn. by apply returns_Ret. }
  assert (length new_board = Z.to_nat NUM_ROWS) as Hb by apply length_replicate.
  unfold allocate_board, malloc_pointers, mbind at 1, mem_bind.
  destruct (new_block_returns F h l (u64 (u64 NUM_ROWS * pointer_size))
    (Pointers (replicate (Z.to_nat (u64 (u64 NUM_ROWS * pointer_size) / pointer_size)) Wild)) Ho)
    as ([q h1] & -> & o & Eq & H1 & Hgiven). cbn [fst snd mbind outcome_bind] in *. subst q.
  destruct (decide (0 < NUM_ROWS)) as [HR0|HR0].
  2: { left. apply Hclear. unfold allocate_rows, for_mem, for_range. rewrite Z.sub_0_r.
    assert (seqZ 0 NUM_ROWS = []) as -> by (apply seqZ_nil; lia). apply returns_Ret. exists (option_list o). split; [|done].
    split; [done|]. rewrite decide_False by done. exists o. destruct o as [[x k]|].
    - eexists. split; [done|]. split; [done|]. exact Hgiven.
    - by exists 0%nat. }
  destruct (array_size HR0) as [Es Hs]. rewrite Es in Hgiven. destruct o as [[p k]|].
  2: { right. split; [auto|]. cbn [pointer_of]. unfold mbind at 1, mem_bind. by rewrite (allocate_rows_null F h1 l H1 HR0). }
  cbn [option_list app pointer_of] in *. subst k.
  destruct (allocate_rows_returns F h1 p l H1) as ([u h2] & E & os & Hl & Hos & H2). cbn [snd] in H2.
  destruct (decide (0 < NUM_COLS)) as [HC0|HC0].
  2: { left. apply Hclear. exists ((), h2). destruct u. split; [done|].
    exists ((p, Pointers (pointer_of <$> os)) :: omap id os). split; [|exact H2]. split; [done|]. rewrite decide_True, decide_False by done. exists p, os. by rewrite Hb. }
  destruct (decide (None ∈ os)) as [Hn|Hn].
  - right. pose proof (proj1 (Forall_forall _ _) Hos None Hn HC0) as Hr. split; [done|].
    apply list_elem_of_lookup_1 in Hn as [i Hi]. unfold mbind at 1, mem_bind. rewrite E. cbn [mbind outcome_bind].
    unfold mbind at 1, mem_bind. rewrite (clear_board_undef h2 p (pointer_of <$> os) i); [done| | | |done].
    + eapply owns_lookup; [exact H2|]. by left.
    + rewrite list_lookup_fmap. by rewrite Hi.
    + apply lookup_lt_Some in Hi. lia.
  - left. apply Hclear. exists ((), h2). destruct u. split; [done|]. apply holds_cells; [done..|]. split; [done|].
    destruct (all_given os Hos Hn HC0) as (rows & Hrows & E1 & E2). rewrite E1, E2, Hl in H2. exists p, rows.
    split; [done|]. split; [exact H2|]. by rewrite Hb, Hrows.
Qed.

(** ** Freeing *)
Lemma free_rows_returns F h p os l : length os = Z.to_nat NUM_ROWS →
  owns F h ((p, Pointers (pointer_of <$> os)) :: omap id os ++ l) →
  returns (free_board NUM_ROWS (To p) h) (λ sh, owns F sh.2 l).
Proof.
  intros Hn Ho. unfold free_board, mbind at 1, mem_bind.
  eapply (returns_bind _ _ (λ sh, owns F sh.2 ((p, Pointers (pointer_of <$> os)) :: l))).
  - unfold for_mem, for_range. rewrite Z.sub_0_r. eapply returns_mono.
    + apply (foldM_inv _ (λ pre sh, owns F sh.2 ((p, Pointers (pointer_of <$> os)) :: omap id (drop (length pre) os) ++ l)));
        [exact Ho|].
      intros pre i post [u h1] Hseq H1. cbn [fst snd] in *.
      assert (i = Z.of_nat (length pre) ∧ (length pre < length os)%nat) as [-> Hlt].
      { assert (seqZ 0 NUM_ROWS !! length pre = Some i) as Hi by by rewrite Hseq, list_lookup_middle.
        apply lookup_seqZ in Hi. lia. }
      destruct (lookup_lt_is_Some_2 os (length pre) Hlt) as [o Hx].
      rewrite (drop_S _ _ _ Hx) in H1. rewrite length_app, Nat.add_1_r.
      unfold load_pointer, read_block, mbind, mem_bind. rewrite (owns_lookup _ _ _ p _ H1) by left. cbn [from_option_ub].
      unfold lift. cbn [mbind outcome_bind pointers_of].
      rewrite vget_fmap. unfold vget at 1. rewrite decide_True, Nat2Z.id, Hx by lia. cbn [from_option_ub mbind outcome_bind].
      destruct o as [[x k]|]; [|by apply returns_Ret]. cbn [pointer_of free].
      change (omap id (Some (x, k) :: drop (S (length pre)) os) ++ l) with ((x, k) :: omap id (drop (S (length pre)) os) ++ l) in H1.
      rewrite (owns_lookup _ _ _ x k H1) by (right; left). cbn. apply returns_Ret. cbn.
      rewrite (Permutation_swap (x, k)) in H1. by apply owns_delete in H1.
    + intros [u h1] H1. rewrite length_seqZ, <-Hn, drop_all in H1. exact H1.
  - intros [u h1] H1. cbn [snd] in H1. unfold free. rewrite (owns_lookup _ _ _ p _ H1) by left. cbn.
    apply returns_Ret. cbn. by eapply owns_delete.
Qed.

Lemma free_board_returns F h q b l : holds F h q b l → returns (free_board NUM_ROWS q h) (λ sh, owns F sh.2 l).
Proof.
  intros (bl & [Hb H] & Ho). case_decide as HR0; [case_decide as HC0|].
  - destruct H as (p & rows & -> & Hl & ->). apply (free_rows_returns F h p (Some <$> zip rows (Chars <$> b))).
    + rewrite length_fmap, length_zip_with, length_fmap. lia.
    + assert (pointer_of <$> (Some <$> zip rows (Chars <$> b)) = To <$> rows) as ->.
      { rewrite <-list_fmap_compose. rewrite <-(fst_zip rows (Chars <$> b)) at 2 by (rewrite length_fmap; lia).
        rewrite <-list_fmap_compose. by apply list_fmap_ext; intros ? []. }
      assert (∀ zs : list (loc * block), omap id (Some <$> zs) = zs) as -> by (induction zs; cbn; congruence). exact Ho.
  - destruct H as (p & os & -> & Hl & ->). apply (free_rows_returns F h p os); [lia|exact Ho].
  - destruct H as (o & n & -> & -> & _). unfold free_board, mbind at 1, mem_bind.
    eapply (returns_bind _ _ (.= ((), h))).
    + unfold for_mem, for_range. rewrite Z.sub_0_r, seqZ_nil by lia. by apply returns_Ret.
    + intros ? ->. destruct o as [[p k]|]; [|by apply returns_Ret]. unfold free. cbn [pointer_of].
      rewrite (owns_lookup _ _ _ p k Ho) by left. apply returns_Ret. exact (owns_delete _ _ _ p k Ho).
Qed.

(** ** Reading a file; its buffer stays. *)
Lemma read_file_mimics F q l filename file h b : holds F h q b l →
  mimics (λ sh b', ∃ lb cs, holds F sh.2 q b' ((lb, Chars cs) :: l))
    (read_file junk NUM_ROWS NUM_COLS filename file q h)
    (Life.read_file NUM_ROWS NUM_COLS filename file (replicate BUF_LEN junk) b).
Proof.
  intros (bl & Hbl & Ho). unfold read_file, malloc_chars, mbind at 1, mem_bind.
  destruct (new_block_returns F h _ (Z.of_nat BUF_LEN) (Chars (replicate (Z.to_nat (Z.of_nat BUF_LEN)) junk)) Ho)
    as ([r h1] & -> & o & Eq & H1 & Hgiven). cbn [fst snd mbind outcome_bind] in *. subst r. rewrite Nat2Z.id in Hgiven.
  destruct file as [content|]; [|by left]. destruct o as [[lb k]|]; [|by right; split; [apply Hgiven|]]. subst k. left.
  assert (holds F h1 q b ((lb, Chars (replicate BUF_LEN junk)) :: l)) as H1'.
  { exists bl. split; [done|]. by rewrite <-Permutation_middle. }
  unfold Life.read_file. cbn [pointer_of].
  pose proof (fgets_runs F q lb l h1 b _ (mkStream content false) H1') as E.
  destruct (Life.fgets _ _) as [cs2 f2]. cbn [fst snd] in E.
  eapply (simulates_silent (.= (f2, <[lb := Chars cs2]> h1))); [rewrite E; by apply returns_Ret|].
  intros f' h2 [= -> ->]. eapply simulates_then; [apply read_rows_simulates, (buffer_write F q lb l h1 b _ _ H1')|].
  intros row h3 [row' b'] [Er (cs' & H3)]. cbn [fst snd] in *. subst row'.
  case_decide; [done|]. apply simulates_Ret. by exists lb, cs'.
Qed.

(** ** Main theorem *)

(** The heap at the end: a buffer more than at the start, when a file was read. *)
Definition left_over (FILENAME : string) (h h' : heap) : Prop :=
  if decide (0 < String.length FILENAME)%nat then ∃ lb cs, h !! lb = None ∧ h' = <[lb := Chars cs]> h else h' = h.

Lemma owns_left_over FILENAME h h' l : owns h h' l →
  (if decide (0 < String.length FILENAME)%nat then ∃ lb cs, l = [(lb, Chars cs)] else l = []) → left_over FILENAME h h'.
Proof.
  intros Ho Hl. unfold left_over. case_decide; [|subst l; by apply owns_nil].
  destruct Hl as (lb & cs & ->). destruct Ho as (_ & Hf & ->). exists lb, cs. split; [apply Hf; by left|].
  cbn. by rewrite <-insert_union_l, (left_id_L ∅ (∪)).
Qed.

(** The first board, from a file or at random. *)
Lemma start_mimics FILENAME file rand h F q b1 l : holds F h q b1 l →
  mimics (λ sh b, ∃ buffer, holds F sh.2 q b (buffer ++ l) ∧
      if decide (0 < String.length FILENAME)%nat then ∃ lb cs, buffer = [(lb, Chars cs)] else buffer = [])
    ((if decide (0 < String.length FILENAME)%nat then read_file junk NUM_ROWS NUM_COLS FILENAME file q
      else randomize_board NUM_ROWS NUM_COLS rand q) h)
    (if decide (0 < String.length FILENAME)%nat
     then Life.read_file NUM_ROWS NUM_COLS FILENAME file (replicate BUF_LEN junk) b1
     else Life.randomize_board NUM_ROWS NUM_COLS rand b1).
Proof.
  intros H. case_decide.
  - destruct (read_file_mimics F q l FILENAME file h b1 H) as [Hs|Hr]; [left|by right].
    eapply simulates_mono; [exact Hs|]. intros [u h'] b (lb & cs & H'). exists [(lb, Chars cs)]. split; [exact H'|by eexists _, _].
  - left. eapply simulates_mono; [by apply randomize_board_simulates|]. intros [u h'] b H'. by exists [].
Qed.

(** C19. The pointer program of life.c and the game on boards as values are
    the same, for every number of rows and columns, none and negative ones
    included, and for every allocator: whatever the file, the keys, the random
    numbers and the heap, [play] prints and returns what Life.v says (so, for
    boards that can be played, the generations of [play_evolves]), stops with
    the same message, and reads or writes outside of an array only where Life.v
    does; no row is used after it was freed or freed twice, however often the
    two boards changed places; and at the end the heap is what it was at the
    start, but for the buffer that [read_file] does not free. The one exception:
    the code does not look at what [malloc] gives, so where [malloc] refuses
    the program may instead be undefined, and does nothing else. *)
Theorem play_refines ERR KEY_RESIZE REFRESH_DELAY_MS getch FILENAME MAX_GENERATIONS file rand (h : heap) :
  let program := play junk NUM_ROWS NUM_COLS ERR KEY_RESIZE REFRESH_DELAY_MS getch FILENAME MAX_GENERATIONS file rand h in
  simulates (λ rh r, rh.1 = r ∧ left_over FILENAME h rh.2) program
    (Life.play NUM_ROWS NUM_COLS ERR KEY_RESIZE REFRESH_DELAY_MS getch FILENAME MAX_GENERATIONS junk file
       (replicate BUF_LEN junk) rand) ∨
  program = Undef ∧ ∃ h' n, 0 < n ∧ malloc h' n = None.
Proof.
  enough (mimics (λ rh r, rh.1 = r ∧ left_over FILENAME h rh.2)
    (play junk NUM_ROWS NUM_COLS ERR KEY_RESIZE REFRESH_DELAY_MS getch FILENAME MAX_GENERATIONS file rand h)
    (Life.play NUM_ROWS NUM_COLS ERR KEY_RESIZE REFRESH_DELAY_MS getch FILENAME MAX_GENERATIONS junk file
       (replicate BUF_LEN junk) rand)) as [H|[Hr H]]; [by left|by right|].
  unfold play, Life.play.
  eapply mimics_then; [by apply (allocate_board_mimics h h []), owns_nil|]. intros q1 h1 b1 (bl1 & Hbl1 & H1). cbn [fst snd] in *.
  eapply mimics_then; [by apply (allocate_board_mimics h h1 _ H1)|]. intros q2 h2 b2 (bl2 & Hbl2 & H2). cbn [fst snd] in *.
  assert (holds h h2 q1 b1 bl2) as H2'.
  { exists bl1. split; [done|]. rewrite app_nil_r in H2. by rewrite Permutation_app_comm. }
  eapply mimics_then; [by apply (start_mimics FILENAME file rand h2 h q1 b1 _ H2')|].
  intros u3 h3 b3 (buffer & H3 & Hbuf). cbn [snd] in H3. left.
  eapply simulates_read; [eapply print_board_reads, holds_readable, H3|]. intros chars _.
  assert (two_boards h buffer h3 q1 b3 q2 b2) as H4.
  { exists bl2. split; [done|]. by rewrite Permutation_app_comm. }
  eapply simulates_then; [by apply (play_loop_simulates h buffer)|].
  intros [result screen] h5 r [<- (c1 & c2 & bl5 & Hbl5 & H5)]. cbn [fst snd] in *.
  eapply simulates_silent; [by apply (free_board_returns h h5 q1 c1 _ H5)|]. intros u6 h6 H6. cbn [snd] in H6.
  eapply simulates_silent; [by apply (free_board_returns h h6 q2 c2 buffer); exists bl5|]. intros u7 h7 H7. cbn [snd] in H7.
  apply simulates_Ret. split; [done|]. by eapply owns_left_over.
Qed.
End allocation.
End operations.

(** ** Witness: memory that does not run out *)
Definition last_used (l : list loc) : loc := foldr Pos.max 1%positive l.

#[local] Instance roomy : Malloc := {| malloc h _ := Some (Pos.succ (last_used (map_to_list h).*1)) |}.

Lemma last_used_max x l : x ∈ l → (x ≤ last_used l)%positive.
Proof. unfold last_used. induction 1; cbn; lia. Qed.

Lemma roomy_laws : MallocLaws roomy.
Proof.
  split. intros h n l [= <-]. set (l := (map_to_list h).*1). destruct (h !! Pos.succ (last_used l)) as [b|] eqn:E; [|done].
  assert (Pos.succ (last_used l) ∈ l) as Hx; [|apply last_used_max in Hx; lia].
  apply list_elem_of_fmap. exists (Pos.succ (last_used l), b). by rewrite elem_of_map_to_list.
Qed.

(** Three cells in a row. *)
Definition blinker_rand (i j : Z) : Z := if decide (i = 1) then 0 else 1.

Definition blinker_game : outcome (results * list shown) :=
  Life.play 3 3 (-1) 410 125 (λ _, -1) "" 2 0 None (replicate BUF_LEN 0) blinker_rand.

Lemma play_refines_witness :
  (∃ r, blinker_game = Ret r ∧ generations r.1 = 3) ∧
  ∃ r, play 0 3 3 (-1) 410 125 (λ _, -1) "" 2 None blinker_rand ∅ = Ret (r, ∅) ∧ generations r.1 = 3.
Proof.
  assert (∃ r, blinker_game = Ret r ∧ generations r.1 = 3) as Hr by (vm_compute; eexists; split; reflexivity).
  split; [exact Hr|]. destruct Hr as (r & Er & Hg).
  destruct (play_refines 0 3 3 roomy_laws ltac:(vm_compute; congruence) ltac:(vm_compute; congruence)
    (-1) 410 125 (λ _, -1) "" 2 None blinker_rand ∅) as [H|(_ & ? & ? & _ & ?)]; [|done].
  change (Life.play 3 3 (-1) 410 125 (λ _, -1) "" 2 0 None (replicate BUF_LEN 0) blinker_rand) with blinker_game in H.
  rewrite Er in H. destruct H as ([r' h'] & E & Heq & Hleft). cbn in Heq. subst r'.
  assert (h' = ∅) as -> by exact Hleft. exists r. split; [exact E|exact Hg].
Defined.

(** The same by running the program: two boards of a row each, with an empty
    heap at the end; and with a board file, with a buffer left. *)
Example heap_after_play :
  (λ r : outcome (results * list shown * heap), match r with Ret (_, h) => Some (size h) | _ => None end) <$>
    [play 0 1 2 (-1) 410 125 (λ _, -1) "" 2 None blinker_rand ∅;
     play 0 1 2 (-1) 410 125 (λ _, -1) "board" 2 (Some [88; 46; 10]) blinker_rand ∅] =
  [Some 0%nat; Some 1%nat].
Proof. vm_compute. reflexivity. Qed.

(** [malloc] may give no block; the code does not ask. *)
Definition no_memory : Malloc := {| malloc _ _ := None |}.

Example allocation_unchecked : allocate_board (M := no_memory) 0 1 1 ∅ = Undef.
Proof. vm_compute. reflexivity. Qed.
