(* ===== verification/UnitTests.v ===== *)
(** * The unit tests of the repository

    The tests of src/pmud/graph/test and src/pmud/test (but for those that
    exercise CAF alone) and the program hash-library/tests/github-issue2.cpp,
    on the models. Those without a random input are run by the kernel; for
    the others theorems say for which draws they pass. *)
From Stdlib Require Import String.
From S2P Require Import Prelude.
From S2P Require Import Text.
From S2P Require Import Word.
From S2P Require Import Graph.
From S2P Require Import Absorb.
From S2P Require Import Sha256.
From S2P Require Import Keccak.
From S2P Require Import Security.
From S2P Require Import Digest.
From S2P Require Import HashClass.
From S2P Require Import Storage.
From S2P Require Import Yaml.

(** ** googletest *)
Definition EXPECT_EQ {A} `{EqDecision A} (x y : A) : bool := bool_decide (x = y).
Definition EXPECT_NE {A} `{EqDecision A} (x y : A) : bool := negb (EXPECT_EQ x y).

(** A test passes when it returns and all it expects holds. *)
Definition passes (test : outcome (list bool)) : Prop := returns test (λ checks, Forall Is_true checks).

#[global] Instance passes_dec test : Decision (passes test).
Proof.
  destruct test as [checks| | |]; [|right; intros (? & E & _); discriminate E..].
  destruct (decide (Forall Is_true checks)) as [H|H].
  - left. by exists checks.
  - right. intros (l & E & Hl). injection E as ->. by apply H.
Defined.

(** ** src/pmud/graph/test *)
Definition with_edges (numVertices : Z) (dir : GraphType) (edges : list (Z * Z)) : outcome Graph :=
  foldM (λ g e, addEdge g e.1 e.2) (Graph_new numVertices dir) edges.

(** [graph[u].adjSize()], [graph[u][i]] and [graph[graph[u][i]].index()] *)
Definition adjSize_at (g : Graph) (u : Z) : outcome Z := x ← vertex g u; Ret (Z.of_nat (adjSize x)).
Definition at_at (g : Graph) (u i : Z) : outcome Z := x ← vertex g u; vertex_subscript x i.
Definition index_at (g : Graph) (u i : Z) : outcome Z := v ← at_at g u i; y ← vertex g v; Ret (Graph.index y).

Definition DirectedGraphShouldHaveSpecifiedAdjacencies : outcome (list bool) :=
  graph ← with_edges 2 GRAPHTYPE_DIRECTED [(0, 1)];
  a0 ← adjSize_at graph 0;
  a1 ← adjSize_at graph 1;
  x ← at_at graph 0 0;
  Ret [EXPECT_EQ (numVertices graph) 2; EXPECT_EQ a0 1; EXPECT_EQ a1 0; EXPECT_EQ x 1].

Definition UndirectedGraphShouldHaveSpecifiedAdjacencies : outcome (list bool) :=
  graph ← with_edges 2 GRAPHTYPE_UNDIRECTED [(0, 1)];
  a0 ← adjSize_at graph 0;
  a1 ← adjSize_at graph 1;
  x ← at_at graph 0 0;
  y ← at_at graph 1 0;
  Ret [EXPECT_EQ (numVertices graph) 2; EXPECT_EQ a0 1; EXPECT_EQ a1 1; EXPECT_EQ x 1; EXPECT_EQ y 0].

(** The checks of four arcs that three tests share. *)
Definition four_arcs (graph : Graph) : outcome (list bool) :=
  i0 ← index_at graph 0 0;
  i1 ← index_at graph 1 0;
  i2 ← index_at graph 1 1;
  i3 ← index_at graph 1 2;
  Ret [EXPECT_EQ (numVertices graph) 3; EXPECT_EQ i0 1; EXPECT_EQ i1 0; EXPECT_EQ i2 1; EXPECT_EQ i3 2].

Definition DirectedGraphAssignmenShouldCloneGraph : outcome (list bool) :=
  graph ← with_edges 3 GRAPHTYPE_DIRECTED [(0, 1); (1, 0); (1, 1); (1, 2)];
  graph_cloned ← Graph_copy graph;
  four_arcs graph_cloned.

Definition UnDirectedGraphAssignmentShouldCloneGraph : outcome (list bool) :=
  graph ← with_edges 3 GRAPHTYPE_UNDIRECTED [(0, 1); (1, 0); (1, 1); (1, 2)];
  graph_cloned ← Graph_copy graph;
  four_arcs graph_cloned.

Definition ShouldAssignAdjancencyIndices : outcome (list bool) :=
  graph ← with_edges 3 GRAPHTYPE_DIRECTED [(0, 1); (1, 0); (1, 1); (1, 2)];
  four_arcs graph.

Definition TransposedGraphShouldTranposeGraph : outcome (list bool) :=
  graph ← with_edges 3 GRAPHTYPE_DIRECTED [(0, 1); (1, 0); (1, 2)];
  graph_transposed ← transpose graph;
  a0 ← adjSize_at graph 0;
  t0 ← adjSize_at graph_transposed 0;
  a1 ← adjSize_at graph 1;
  t1 ← adjSize_at graph_transposed 1;
  a2 ← adjSize_at graph 2;
  t2 ← adjSize_at graph_transposed 2;
  Ret [EXPECT_EQ (numVertices graph) 3; EXPECT_EQ (numVertices graph_transposed) 3; EXPECT_EQ a0 1; EXPECT_EQ t0 1;
    EXPECT_EQ a1 2; EXPECT_EQ t1 1; EXPECT_EQ a2 0; EXPECT_EQ t2 1].

Example graph_tests_pass : Forall passes
  [DirectedGraphShouldHaveSpecifiedAdjacencies; UndirectedGraphShouldHaveSpecifiedAdjacencies;
   DirectedGraphAssignmenShouldCloneGraph; UnDirectedGraphAssignmentShouldCloneGraph;
   ShouldAssignAdjancencyIndices; TransposedGraphShouldTranposeGraph].
Proof. refine (bool_decide_unpack _ _). vm_compute. exact I. Qed.

(** ** src/pmud/test/actor/storage_test.cpp

    Messages to a storage actor over a [MockStorage], of which the last is a
    request; the check is that of its answer. *)
Definition storage_test (messages : list storage_msg) (check : answer → bool) : outcome (list bool) :=
  '(_, answers) ← storage_run (Some mock_new) messages;
  Ret [match last answers with Some a => check a | None => false end].

Definition test_value_store : outcome (list bool) :=
  storage_test [StorageValueStore "foo" "bar"; StorageValueGet "foo"]
    (λ a, match a with AString (Some value) => EXPECT_EQ value "bar" | _ => false end).

Definition test_map_store : outcome (list bool) :=
  storage_test [StorageMapStore "mymap" "foo" "bar"; StorageMapGet "mymap"]
    (λ a, match a with AMap (Some value) => EXPECT_EQ (value !! "foo") (Some "bar") | _ => false end).

Definition test_list_store : outcome (list bool) :=
  storage_test [StorageListStore "mylist" "foo"; StorageListStore "mylist" "bar"; StorageListGet "mylist"]
    (λ a, match a with AList (Some value) => bool_decide ("foo" ∈ value ∧ "bar" ∈ value) | _ => false end).

Definition test_set_store : outcome (list bool) :=
  storage_test [StorageSetStore "myset" "foo"; StorageSetStore "myset" "bar"; StorageSetGet "myset"]
    (λ a, match a with ASet (Some value) => bool_decide ("foo" ∈ value ∧ "bar" ∈ value) | _ => false end).

(** ** src/pmud/test/non-actor/storage_test.cpp; the documents are those that
    yaml-cpp makes of the texts (no node of them is converted). *)
Definition no_conversion (n : node) : outcome string := Undef.

Definition SequenceTest : outcome (list bool) :=
  s ← yaml_to_storage no_conversion "test" kinds_doc true mock_new;
  '(_, set_opt) ← mock_set_get "test:monster-kind" s;
  Ret [match set_opt with Some value => EXPECT_EQ (size value) 5%nat | None => false end].

Definition MapTest : outcome (list bool) :=
  s ← yaml_to_storage no_conversion "monsters" (Map monsters) true mock_new;
  '(s, snowman) ← mock_map_get "monsters:monster:abominable snowman" s;
  '(_, banshee) ← mock_map_get "monsters:monster:banshee" s;
  Ret ((λ temp : option map_t, match temp with Some value => EXPECT_EQ (size value) 2%nat | None => false end) <$>
    [snowman; banshee]).

Example storage_tests_pass : Forall passes
  [test_value_store; test_map_store; test_list_store; test_set_store; SequenceTest; MapTest].
Proof. refine (bool_decide_unpack _ _). vm_compute. exact I. Qed.

(** ** src/pmud/test/non-actor/hash_test.cpp

    [u], [v] are the memory of the hash objects, [d], [e] what the calls of
    [generate_random_salt] draw. *)
Section hash_tests.
Context (u v : memory) (d e : draws).

Definition credential (u : memory) (salt : string) : outcome CredentialHash :=
  hash_credentials (m64 u) (m_extra u) "password" salt.

Definition BackAndForth : outcome (list bool) :=
  s ← generate_random_salt d;
  credentialHash ← credential u s;
  let stringified := (pretty (iterations credentialHash) +:+ ":" +:+ salt credentialHash +:+ ":" +:+ Security.hash credentialHash)%string in
  Ret [EXPECT_EQ s (salt credentialHash); EXPECT_EQ 0 (iterations credentialHash);
    EXPECT_EQ stringified (to_string credentialHash)].

Definition SamePasshraseSameSalt : outcome (list bool) :=
  s ← generate_random_salt d;
  credentialHash1 ← credential u s;
  credentialHash2 ← credential v s;
  Ret [EXPECT_EQ (Security.hash credentialHash1) (Security.hash credentialHash2)].

Definition SamePasshraseDifferentSalt : outcome (list bool) :=
  salt1 ← generate_random_salt d;
  salt2 ← generate_random_salt e;
  credentialHash1 ← credential u salt1;
  credentialHash2 ← credential v salt2;
  Ret [EXPECT_NE (Security.hash credentialHash1) (Security.hash credentialHash2)].

Hypothesis (Hu : memory_ok u) (Hv : memory_ok v).

Lemma credential_spec w s : memory_ok w →
  credential w s = Ret (mkCredentialHash 0 s (to_hex (fips_sha256 (bytes_of (passphrase_salt "password" s))))).
Proof. intros (H64 & _ & Hex). by apply hash_credentials_spec. Qed.

Lemma salt_returns (f : draws) : ∃ s, generate_random_salt f = Ret s.
Proof. destruct (salt_loop f (draws_range f)) as (s & E & _). by exists s. Qed.

(** The first two pass for every draw, whatever is in the memory. *)
Theorem hash_tests_pass : passes BackAndForth ∧ passes SamePasshraseSameSalt.
Proof.
  destruct (salt_returns d) as [s Es]. unfold BackAndForth, SamePasshraseSameSalt. rewrite Es. cbn [mbind outcome_bind].
  rewrite !credential_spec by done. cbn [mbind outcome_bind]. unfold EXPECT_EQ. split; apply returns_Ret.
  - repeat (constructor; [by apply bool_decide_pack|]). constructor.
  - constructor; [by apply bool_decide_pack|constructor].
Qed.

(** The third fails when the same salt is drawn twice: it passes for draws
    whose salted pass phrases have different digests, and for no others. *)
Theorem different_salt_passes s1 s2 :
  generate_random_salt d = Ret s1 → generate_random_salt e = Ret s2 →
  passes SamePasshraseDifferentSalt ↔
  to_hex (fips_sha256 (bytes_of (passphrase_salt "password" s1))) ≠
  to_hex (fips_sha256 (bytes_of (passphrase_salt "password" s2))).
Proof.
  intros E1 E2. unfold SamePasshraseDifferentSalt. rewrite E1, E2. cbn [mbind outcome_bind].
  rewrite !credential_spec by done. cbn [mbind outcome_bind Security.hash].
  unfold passes, EXPECT_NE, EXPECT_EQ. split.
  - intros (l & [= <-] & Hl) E. apply Forall_cons in Hl as [Hl _].
    rewrite bool_decide_eq_true_2 in Hl by exact E. exact Hl.
  - intros Hne. apply returns_Ret. constructor; [|constructor]. rewrite bool_decide_eq_false_2 by exact Hne. exact I.
Qed.
End hash_tests.

Definition reversed_draws : draws := mkDraws (λ i, 15 - i) (λ i Hi, ltac:(lia)).

Example different_salt_runs :
  bool_decide (passes (SamePasshraseDifferentSalt sample_memory sample_memory first_draws reversed_draws)) = true ∧
  bool_decide (passes (SamePasshraseDifferentSalt sample_memory sample_memory first_draws first_draws)) = false.
Proof. split; vm_compute; reflexivity. Qed.

(** ** hash-library/tests/github-issue2.cpp *)
Definition issue2_text : string := "hello world".

(** An object that is asked three times. *)
Definition three_times {E : ByteOrder} (u : memory) (label : string) (k : hash_class) : outcome string :=
  texts ← do_calls (H := members u k) (object_new u k) [Add (bytes_of issue2_text); GetHash; GetHash; GetHash];
  Ret (label +:+ endl +:+ String.concat "" ((λ t, t +:+ endl) <$> texts))%string.

Definition issue2_main {E : ByteOrder} (u : memory) : outcome string :=
  sha1 ← three_times u "SHA1:" OfSHA1;
  sha256 ← three_times u "SHA256:" OfSHA256;
  sha3 ← three_times u "SHA3:" (OfSHA3 Bits256);
  keccak ← three_times u "Keccak:" (OfKeccak Bits256);
  md5 ← three_times u "MD5:" OfMD5;
  Ret (sha1 +:+ endl +:+ sha256 +:+ endl +:+ sha3 +:+ endl +:+ keccak +:+ endl +:+ md5)%string.

(** The issue is closed: the three texts of an object are the same, and the
    standard's. *)
Definition three_lines (label : string) (k : hash_class) : string :=
  let line := (standard k (bytes_of issue2_text) +:+ endl)%string in
  (label +:+ endl +:+ String.concat "" [line; line; line])%string.

Lemma three_times_lines {E : ByteOrder} u label k : memory_ok u → three_times u label k = Ret (three_lines label k).
Proof.
  intros Hu. destruct (members_laws u k Hu) as (sees & L & Hnew). unfold three_times.
  destruct (do_calls_spec (L := L) (object_new u k) [] [Add (bytes_of issue2_text); GetHash; GetHash; GetHash])
    as (texts & -> & ->); [done|constructor| |reflexivity].
  constructor; [apply bytes_of_byte|repeat constructor].
Qed.

Theorem issue2_closed {E : ByteOrder} u : memory_ok u →
  issue2_main u = Ret (three_lines "SHA1:" OfSHA1 +:+ endl +:+ three_lines "SHA256:" OfSHA256 +:+ endl +:+
    three_lines "SHA3:" (OfSHA3 Bits256) +:+ endl +:+ three_lines "Keccak:" (OfKeccak Bits256) +:+ endl +:+
    three_lines "MD5:" OfMD5)%string.
Proof. intros Hu. unfold issue2_main. by rewrite !three_times_lines. Qed.
